(* ===== verification/_CoqProject ===== *)
-Q . S2P
Prelude.v
Cxx.v
Floats.v
Locks.v
Rely.v
BinaryIO.v
StorageClient.v
Faiss.v
FaissRef.v
TopK.v
IBaseIndex.v
FaissIndex.v
Segment.v
IIndex.v
Events.v
Storage.v
Index.v
Executor.v
IndexSpec.v
IndexRefinement.v
Concurrency.v
IndexFactory.v
Bootstrap.v
Merging.v
Stats.v
EtcdClient.v
Prometheus.v
Counters.v
Gauges.v
Coordinator.v
Searcher.v
SearcherSpec.v
Writer.v
WriterSpec.v
Clients.v
Publication.v
Nodes.v
Handlers.v
ProgramSpec.v
WriterLife.v
Cluster.v
Front.v
SegmentCorrect.v
IndexCorrect.v
ConcurrencyCorrect.v
ServiceCorrect.v
NodeCorrect.v
HandlersCorrect.v
ProgramCorrect.v
PublicationCorrect.v
ClusterCorrect.v
UnitTests.v
