(* ===== verification/Prelude.v ===== *)
(** * Vecodex: a verification development of the vector search cluster

    Vecodex is a distributed vector search engine. A writer accepts vectors and
    spreads them over the shards of an index; every shard is a segmented index
    whose full segments are serialized to an object store; searchers download
    them and answer queries; a coordinator asks the searchers of an index and
    merges their answers. Searchers register in etcd, where coordinators and
    writers find them. This library models the C++ of that program (the index
    library under src/index and the application under src/app) and proves what
    makes it correct.

    ** How the program is modelled

    A call is a function on an explicit state that returns, throws or has
    undefined behaviour ([Cxx.outcome], [Cxx.M]); what was written before an
    exception stays written. [Cxx.runs m s a s'] says that the call [m] made in
    [s] returns [a] in [s'], [Cxx.keeps] that it keeps an invariant. [size_t]
    is [Z] modulo 2^64 ([Cxx.u64]), [float] and [double] are the IEEE numbers
    of SpecFloat. Segments are heap objects shared by pointers
    ([IIndex.proc]), since merging changes one in place while the callback
    holds it. A call is one step. For the calls of an index that is a theorem:
    [Locks] and [Concurrency] run them step by step, interleaved as the index's
    shared mutex lets threads interleave, and [index_linearizable] says that
    this is as good. The handlers of a writer and of a coordinator hold the
    node's mutex; a writer's requests and tasks interleave as the steps [Writer.wr_step], those of a
    cluster as the steps [Cluster.cl_step]. The handlers of a searcher take no
    lock but those of the indexes they call: [Handlers] takes them apart into
    the calls they make and interleaves those, [Rely] has the rules for it. In
    the cluster a searcher handles one request at a time.

    Code that is not in the repository is an interface with laws that its
    documentation states, and a reference implementation that shows the laws
    hold of something: [Cxx.StdLib] (std::sort, the order of unordered
    containers, rand()), [Faiss] with [FaissRef.flat_ref], [StorageClient.S3]
    with [s3_ref], [EtcdClient.Etcd] with [etcd_ref], [Prometheus.PromLib]
    with [prom_ref], [IndexFactory.Json] and [Bootstrap.JsonDoc] with
    [json_ref], [Bootstrap.ArgParse], and gRPC ([Coordinator.Grpc],
    [Writer.GrpcUpdate], [Clients.GrpcWrite], [Clients.GrpcQuery], and whether a
    server can listen, a parameter of [Nodes.InternalRun]). Theorems are proved against the interfaces, and
    their witnesses run the code on the references.

    ** Files

    The language: [Prelude] (shared lists and automation, this header), [Cxx]
    (calls, size_t, strict weak orders, the standard library), [Floats], [Locks]
    (std::shared_mutex and its guards, ISegment's locking calls, threads),
    [Rely] (threads without a lock, each within what the others tolerate).

    The index library:
    - [BinaryIO]: index/baselines/io.h (readBinary, writeBinary);
    - [Faiss], [FaissRef]: the FAISS calls of faiss.h, and brute force;
    - [TopK]: "the k nearest", std::set and the bounded accumulator of search;
    - [IBaseIndex]: index/include/IBaseIndex.h, with the contract [IBaseIndexLaws]
      that segments are verified against;
    - [FaissIndex]: index/baselines/faiss.h (add_batch, erase_batch,
      single_search, merge_from_other, serialize_index and the reading
      constructor), its representation invariant [fi_wf], and the instance of
      [IBaseIndexLaws];
    - [Segment]: Segment.h, ISegment.h, SegmentFactory.h, and SearchResult;
    - [IIndex]: IIndex.h (SegmentStorage::add, merge, the update callback);
    - [Events]: what the callback is told, over any number of calls;
    - [Storage]: the invariant of the levels, [merge] and [add] on them;
    - [Index]: Index.h (add, search, erase, pushSegment, eraseSegment, size);
    - [Executor]: the asynchronous interface of IIndex.h;
    - [IndexSpec]: [idx_inv] and what each call does to the live entries;
    - [IndexRefinement]: the index refines a finite map;
    - [Concurrency]: add, search and erase as steps under their guards;
    - [IndexFactory]: index/baselines/IndexFactory.h (CreateIndex,
      SerializeSegment, DeserealizeSegment).

    The application:
    - [StorageClient]: StorageClient.cpp; [EtcdClient]: EtcdClient.cpp;
      [Prometheus]: utils/PrometheusExposer.h, [Counters] its critical
      sections, interleaved, and [Gauges] what tallies kept in gauges read;
      [Stats]: utils/Stats.h;
      [Merging]: Merging.h; [Bootstrap]: BootstrapConfig.h, main.cpp, Base.cpp;
    - [Coordinator]: Coordinator.cpp and the client of BaseClient.cpp;
    - [Searcher], [SearcherSpec]: Searcher.cpp, and [Handlers] its handlers,
      interleaved;
    - [Writer], [WriterSpec], [Publication]: Writer.cpp and SearcherClient.cpp;
      [Publication.wr_ok] is the invariant of a writer;
    - [Clients]: BaseClient, WriterClient and the example client, connected to
      the handlers of a node, and the etcd example;
    - [Nodes], [ProgramSpec]: BaseServer::InternalRun, the constructors,
      destructors and Run of the nodes, composed with main; [WriterLife] a
      writer from its start to its end;
    - [Cluster]: a writer with the searchers of its shards, their calls being
      each other's handlers; [Cluster.cl_inv] is the invariant of the whole;
    - [Front]: a coordinator whose calls are the handlers of searchers.

    The theorems: [SegmentCorrect], [IndexCorrect], [ConcurrencyCorrect],
    [ServiceCorrect], [NodeCorrect], [HandlersCorrect], [ProgramCorrect], [PublicationCorrect],
    [ClusterCorrect], each with runs of the
    code that satisfy their hypotheses. [UnitTests] evaluates the repository's
    own unit tests on the model.

    ** What the theorems show

    - Index. Any sequence of legal calls on an index returns and answers as a
      finite map from ids to vectors would ([index_refines_map]); merging
      terminates, moves every vector exactly once and hides none from searches
      ([merge_preserves], [merge_keeps_visible]); [add], [erase], [search] each
      do what they should on every state ([add_inserts], [erase_deletes],
      [search_nearest]); segments go to the level of their size
      ([storage_level]). With any number of threads calling it, whatever the
      interleaving, the calls that have returned did what they would have done
      one after the other, only searches are under way together, and no call is
      stuck ([index_linearizable]).
    - Segment. The id tables stay consistent ([add_batch_appends]), results are
      the k nearest live entries ([single_search_nearest]; live ones for
      approximate indexes too, [single_search_live_only]), files
      read back as written ([index_roundtrip], [segment_roundtrip]), and results are totally ordered
      ([search_result_order]).
    - Services. Fusion of answers is reciprocal rank fusion
      ([merge_answers_rrf]); the keys in etcd implement a
      directory ([directory_updates], [directory_listings]); metrics, statistics
      and objects ([gauge_reads_last_set], [counters_exact], [stats_average], [objects_roundtrip]);
      the coordinator's handler ([coordinator_answers]).
    - Nodes. The program run as a searcher registers, serves, and takes itself
      out of etcd again, or crashes where the port is taken
      ([searcher_program]); run as a writer it accepts every fitting vector for
      the indexes it has, runs its tasks and, when it ends, leaves each vector
      in an object or loses it with the segment being filled
      ([writer_program]); searches that a searcher handles beside an update see
      a prefix of its segments ([searches_during_update]); a client's write is refused for exactly the indexes
      the writer does not have ([client_write_refused]); a writer follows etcd, picks the fastest shard, adds
      and delivers ([writer_follows_etcd], [chooseShard_fastest],
      [write_adds_vector], [task_delivers]).
    - Publication. In every state a writer reaches, each sealed segment is
      waiting for a task or stored as it is ([sealed_pending_or_stored]), and
      when it is destroyed, every vector is in the current segment or in an
      object ([writer_publishes]).
    - Cluster. After any requests, tasks and searches, the tasks that are left
      run, and then each searcher of a shard finds the nearest among given
      vectors that include all of the shard but the segment being filled
      ([cluster_answers]); a coordinator in front of such searchers answers
      with the fusion of what they find, which for replicas that do not tie is
      the answer of each of them ([cluster_fronted]). Both are about
      flat indexes: an HNSW segment comes back from its file as another
      template instance, see [segment_roundtrip]. The hosts etcd lists are the
      same whenever a task runs; a searcher that registers later is not sent
      what was published before.
    - Defects, as theorems: [eraseSegment_removes_nothing], [updates_collide],
      [repeated_id_loses_vectors], [erased_ids_come_back], [stats_average],
      [write_delete_crashes], [struck_off_terminates], [bootstrap_config], and the parts of other
      theorems that say so.

    Two hypotheses recur. Ids of segments come from rand(), which may repeat;
    what depends on ids assumes that it has not yet ([rand_distinct],
    [draws_distinct]), and [repeated_id_loses_vectors] shows why. Vectors
    satisfy a predicate [V] under which distances are numbers, since NaN
    breaks every order.

    ** Bounds and fuel

    [Index.add_loop] runs on fuel [S n]: every iteration takes a vector.
    [IIndex.merge_levels] runs on one more than levels plus segments: a merge
    that opens a level gives up a segment. [IIndex.level_loop] has 63
    iterations, the shifts a long long allows; more is the overflow it is.
    Both totality theorems say that the fuel is enough. [hex_of_u64] writes the
    16 digits a size_t has. Up to 8 copies of an answer keep its order
    ([Merging.merged_copies]) up to rank 4096: that doubles separate the sums of
    scores is checked by evaluation ([Merging.falling_check]).

    ** What is not modelled

    Races on a searcher's table of shards, into which a handler inserts when it
    is asked for an index or shard it does not have, and the calls without a
    lock (Index::size, setUpdateCallback) next to others. The constructor of
    FaissIndex from a file name and that of Segment from an index object, which
    nothing calls and which no instance of the templates could: the first needs
    a conversion from faiss::Index, the second the private member of its
    argument. The merging of segments that Index.h has in a comment. The gRPC
    servers and the HTTP exposer; logging to std::cout; the Kubernetes operator
    (Go), load tests (Python) and benchmarks. *)

From Stdlib Require Export ZArith.
From stdpp Require Export base tactics list gmap strings sorting pretty.

(** ** Automation

    [runs] collects what single calls return, for [Cxx.run]; [keeps] the
    invariants they keep, for [Cxx.keep]. The components add their own. *)

Create HintDb runs.
Create HintDb keeps.

(** Splits every conjunction and existential of the context. *)
Ltac deex :=
  repeat match goal with
  | H : ∃ _, _ |- _ => let x := fresh "x" in destruct H as [x H]
  | H : _ ∧ _ |- _ => destruct H
  end.

(** Case analysis on the scrutinee of the first [match]/[if] of the goal,
    remembering the equation. *)
Ltac case_goal :=
  match goal with
  | |- context [match ?x with _ => _ end] => destruct x eqn:?
  end.

(** ** Lists *)

Section lists.
Context {A : Type}.
Implicit Types l : list A.

Lemma take_app_add l1 l2 n :
  take (length l1 + n) (l1 ++ l2) = l1 ++ take n l2.
Proof. induction l1; f_equal/=; auto. Qed.

Lemma drop_app_add l1 l2 n :
  drop (length l1 + n) (l1 ++ l2) = drop n l2.
Proof. induction l1; simpl; auto. Qed.

Lemma elem_of_take_iff l n x : x ∈ take n l ↔ ∃ i, l !! i = Some x ∧ i < n.
Proof.
  rewrite list_elem_of_lookup. setoid_rewrite lookup_take_Some. naive_solver.
Qed.

Lemma filter_length_le (P : A → Prop) `{∀ x, Decision (P x)} l :
  length (filter P l) ≤ length l.
Proof. induction l as [|x l IH]; [done|]. rewrite filter_cons. case_decide; simpl; lia. Qed.

Lemma filter_replicate_not (P : A → Prop) `{∀ x, Decision (P x)} n x :
  ¬ P x → filter P (replicate n x) = [].
Proof. intros HP. induction n; simpl; [done|]. by rewrite filter_cons_False. Qed.

(** Counting by complement. *)
Lemma filter_length_split (P : A → Prop) `{∀ x, Decision (P x)} l :
  length (filter P l) + length (filter (λ x, ¬ P x) l) = length l.
Proof.
  induction l as [|x l IH]; [done|].
  rewrite !filter_cons. repeat case_decide; simpl; try done; lia.
Qed.

(** A duplicate-free list contained in another is no longer than it. *)
Lemma NoDup_incl_length l1 l2 :
  NoDup l1 → (∀ x, x ∈ l1 → x ∈ l2) → length l1 ≤ length l2.
Proof. intros. by apply submseteq_length, NoDup_submseteq. Qed.

(** ... and has the same elements when it is as long. *)
Lemma NoDup_incl_eq l1 l2 :
  NoDup l1 → (∀ x, x ∈ l1 → x ∈ l2) → length l2 ≤ length l1 → l1 ≡ₚ l2.
Proof. intros. by apply submseteq_length_Permutation; [apply NoDup_submseteq|]. Qed.
End lists.

Lemma NoDup_omap_fst {A B C} (f : A → option (B * C)) (g : A → B) `{!Inj (=) (=) g} (l : list A) :
  NoDup l → (∀ a b, f a = Some b → b.1 = g a) → NoDup (omap f l).*1.
Proof.
  intros Hl Hf. induction Hl as [|a l Ha Hl IH]; simpl; [constructor|].
  destruct (f a) as [b|] eqn:E; [|done]. simpl. constructor; [|done].
  rewrite (Hf _ _ E), list_elem_of_fmap. intros (b' & Hb & Hin).
  apply list_elem_of_omap in Hin as (a' & Ha' & E'). rewrite (Hf _ _ E') in Hb.
  by simplify_eq.
Qed.

(** Elements told apart by a key are told apart by any function that
    determines it. *)
Lemma NoDup_fmap_key {A B C} (key : A → B) (f : A → C) (l : list A) :
  NoDup (key <$> l) → (∀ x y, x ∈ l → y ∈ l → f x = f y → key x = key y) →
  NoDup (f <$> l).
Proof.
  intros Hl Hf. induction l as [|a l IH]; simpl in *; [constructor|].
  apply NoDup_cons in Hl as [Ha Hl]. constructor.
  - intros (b & Hb & Hin)%list_elem_of_fmap. apply Ha. apply list_elem_of_fmap.
    exists b. split; [|done]. apply Hf; [by left|by right|done].
  - apply IH; [done|]. intros x y Hx Hy. apply Hf; by right.
Qed.

Lemma omap_ext_in {A B} (f g : A → option B) (l : list A) :
  (∀ a, a ∈ l → f a = g a) → omap f l = omap g l.
Proof.
  induction l as [|a l IH]; intros H; csimpl; [done|].
  rewrite (H a) by (by left). rewrite IH; [done|]. intros b Hb. apply H. by right.
Qed.

Lemma omap_Some_in {A B} (f : A → option B) (g : A → B) (l : list A) :
  (∀ a, a ∈ l → f a = Some (g a)) → omap f l = g <$> l.
Proof.
  induction l as [|a l IH]; intros H; csimpl; [done|].
  rewrite (H a) by (by left). f_equal. apply IH. intros b Hb. apply H. by right.
Qed.

(** A list as the values an optional function takes on its indices. *)
Lemma omap_seq_lookup {A B} (f : nat → option (A * B)) (g : nat → nat) (l : list B) n :
  length l = n → (∀ i, i < n → snd <$> f (g i) = l !! i) →
  (omap f (g <$> seq 0 n)).*2 = l.
Proof.
  intros <-. revert f g. induction l as [|b l IH]; intros f g H; [done|].
  pose proof (H 0 ltac:(simpl; lia)) as H0. csimpl.
  destruct (f (g 0)) as [[a b']|]; [|done]. simplify_eq/=. f_equal.
  rewrite <-fmap_S_seq, <-list_fmap_compose. apply IH.
  intros i Hi. apply (H (S i)). simpl. lia.
Qed.

Lemma list_filter_all {A} (P : A → Prop) `{∀ x, Decision (P x)} (l : list A) :
  Forall P l → filter P l = l.
Proof. induction 1; [done|]. rewrite filter_cons_True by done. by f_equal. Qed.

(** Filtering the values an optional function takes is restricting it. *)
Lemma omap_filter_snd {A B C} (P : C → Prop) `{∀ x, Decision (P x)}
    (f g : A → option (B * C)) (l : list A) :
  (∀ a, a ∈ l → f a = e ← g a; if decide (P e.2) then Some e else None) →
  (omap f l).*2 = filter P (omap g l).*2.
Proof.
  induction l as [|a l IH]; intros Hf; csimpl; [done|].
  assert ((omap f l).*2 = filter P (omap g l).*2) as IH'
    by (apply IH; intros; apply Hf; by right).
  rewrite (Hf a) by (by left). destruct (g a) as [[b c]|]; simpl; [|done].
  rewrite filter_cons. case_decide; csimpl; by rewrite IH'.
Qed.

Lemma zip_fmap_fst_snd_swap {A B C} (f : A → C) (l : list (A * B)) :
  zip l.*2 (f <$> l.*1) = (λ p, (p.2, f p.1)) <$> l.
Proof. induction l; f_equal/=; auto. Qed.

Lemma NoDup_sublist_fmap {A B} (l2 l1 : list A) (f : A → B) :
  l1 `sublist_of` l2 → NoDup (f <$> l2) → NoDup (f <$> l1).
Proof. intros Hs Hnd. eapply sublist_NoDup; [done|]. by apply fmap_sublist. Qed.

Lemma NoDup_incl_length_set `{Countable K} (l : list K) (s : gset K) :
  NoDup l → (∀ x, x ∈ l → x ∈ s) → length l ≤ size s.
Proof.
  intros Hl Hs. change (size s) with (length (elements s)).
  apply NoDup_incl_length; [done|]. intros x Hx. apply elem_of_elements. auto.
Qed.

Lemma NoDup_fst_inj {A B} (l : list (A * B)) e e' :
  NoDup l.*1 → e ∈ l → e' ∈ l → e.1 = e'.1 → e = e'.
Proof.
  intros Hl He He' Heq. destruct e as [a b], e' as [a' b']; simpl in *; subst a'.
  induction l as [|[a0 b0] l IH]; simpl in *; [set_solver|].
  apply NoDup_cons in Hl as [H0 Hl].
  apply elem_of_cons in He as [He|He], He' as [He'|He']; simplify_eq; auto;
    destruct H0; by apply (list_elem_of_fmap_2 fst) in He || apply (list_elem_of_fmap_2 fst) in He'.
Qed.

Lemma StronglySorted_lookup {A} (R : relation A) (l : list A) :
  (∀ i j x y, i < j → l !! i = Some x → l !! j = Some y → R x y) → StronglySorted R l.
Proof.
  induction l as [|a l IH]; intros Hl; constructor.
  - apply IH. intros i j x y Hij. apply (Hl (S i) (S j)). lia.
  - apply Forall_forall. intros x [i Hi]%list_elem_of_lookup. by apply (Hl 0 (S i)); [lia|..].
Qed.

(** Appending to a log entry by entry. *)
Lemma foldl_append {A B} (w : list B → A → list B) (l : list A) fd :
  (∀ fd a, w fd a = fd ++ w [] a) → foldl w fd l = fd ++ concat (w [] <$> l).
Proof.
  intros Hw. revert fd. induction l as [|a l IH]; intros fd; csimpl; [by rewrite app_nil_r|].
  by rewrite IH, (Hw fd), <-app_assoc.
Qed.

(** ** Maps *)

(** Inserting entries one by one. *)
Lemma foldl_insert `{Countable K} {V} (l : list (K * V)) :
  NoDup l.*1 → foldl (λ (m : gmap K V) kv, <[kv.1 := kv.2]> m) ∅ l = list_to_map l.
Proof.
  intros Hl. apply map_eq. intros k.
  assert (∀ m : gmap K V, foldl (λ m kv, <[kv.1 := kv.2]> m) m l !! k =
    match (list_to_map l : gmap K V) !! k with Some v => Some v | None => m !! k end) as HF.
  { induction l as [|[k0 v0] l IH]; intros m; simpl; [by rewrite lookup_empty|].
    apply NoDup_cons in Hl as [Hk0 Hl]. rewrite (IH Hl), !lookup_insert.
    case_decide; [|done]. subst. by rewrite not_elem_of_list_to_map_1. }
  rewrite HF, lookup_empty. by destruct (_ !! k).
Qed.

Lemma is_Some_default {A} (d : A) (o : option A) : is_Some o → o = Some (default d o).
Proof. by intros [a ->]. Qed.
