(* ===== verification/Cxx.v ===== *)
(** * The C++ the program is written in

    What the sources use of the language and of its standard library:
    - [outcome]: a call returns, throws, or has undefined behaviour (a null
      dereference, a read past a buffer, ...);
    - [M S]: a call that also changes a state of type [S]; what was written
      before an exception stays written;
    - [u64]: [size_t] arithmetic, which wraps around;
    - [StdLib]: what the standard library leaves unspecified (the order in
      which unordered containers are traversed, where [std::sort] puts
      equivalent elements, the numbers [rand()] returns), as an interface with
      the laws the standard does give. The components are proved against the
      interface; [stdlib_ref] is one implementation of it. *)

From S2P Require Import Prelude.

(** ** Results of a call *)

Inductive exn :=
  | RuntimeError (msg : string)
  | InvalidArgument (msg : string)
  | LengthError
  | OutOfRange
  | StdException.

Inductive ub :=
  | NullDeref
  | OutOfBounds
  | DivByZero
  | ShiftOverflow
  | Deadlock
  | Dangling
  | Terminate
  | NotLocked
  | AssertFailed
  | ConvOverflow
  | NoFuel.

Inductive outcome (A : Type) : Type :=
  | Ok (a : A)
  | Throw (e : exn)
  | Undef (u : ub).
Arguments Ok {_} _.
Arguments Throw {_} _.
Arguments Undef {_} _.

#[export] Instance exn_eq_dec : EqDecision exn.
Proof. solve_decision. Defined.
#[export] Instance ub_eq_dec : EqDecision ub.
Proof. solve_decision. Defined.
#[export] Instance outcome_eq_dec `{EqDecision A} : EqDecision (outcome A).
Proof. solve_decision. Defined.

#[export] Instance outcome_ret : MRet outcome := λ A, Ok.
#[export] Instance outcome_bind : MBind outcome := λ A B f m,
  match m with Ok a => f a | Throw e => Throw e | Undef u => Undef u end.
#[export] Instance outcome_fmap : FMap outcome := λ A B f m,
  match m with Ok a => Ok (f a) | Throw e => Throw e | Undef u => Undef u end.

Lemma outcome_bind_Ok {A B} (m : outcome A) (f : A → outcome B) b :
  m ≫= f = Ok b ↔ ∃ a, m = Ok a ∧ f a = Ok b.
Proof.
  split; [|by intros (a & -> & ?)]. destruct m as [a|e|u]; [eauto|done..].
Qed.

(** A loop that carries an object through a list and may fail. *)
Fixpoint foldO {A B} (f : B → A → outcome B) (b : B) (l : list A) : outcome B :=
  match l with
  | [] => Ok b
  | a :: l => b' ← f b a; foldO f b' l
  end.

(** ** Calls that change a state *)

Definition M (S A : Type) : Type := S → S * outcome A.

#[export] Instance M_ret {S} : MRet (M S) := λ A a s, (s, Ok a).
#[export] Instance M_bind {S} : MBind (M S) := λ A B k m s,
  match m s with
  | (s', Ok a) => k a s'
  | (s', Throw e) => (s', Throw e)
  | (s', Undef u) => (s', Undef u)
  end.

Definition gets {S A} (f : S → A) : M S A := λ s, (s, Ok (f s)).
Definition modify {S} (f : S → S) : M S () := λ s, (f s, Ok ()).
Definition liftO {S A} (o : outcome A) : M S A := λ s, (s, o).
Definition throw {S A} (e : exn) : M S A := liftO (Throw e).
Definition undef {S A} (u : ub) : M S A := liftO (Undef u).

Fixpoint forM {S A} (l : list A) (f : A → M S ()) : M S () :=
  match l with
  | [] => mret ()
  | a :: l => f a ≫= λ _, forM l f
  end.

(** A call on a part of the state. *)
Definition zoom {S S' A} (get : S → S') (set : S' → S → S) (m : M S' A) : M S A := λ s,
  let '(s', o) := m (get s) in (set s' s, o).

(** [try { m } catch (const std::exception&) { h }] *)
Definition try_catch {S A} (m : M S A) (h : M S A) : M S A := λ s,
  match m s with
  | (s', Throw _) => h s'
  | r => r
  end.

(** A function that lets no exception out, like a destructor: one ends the
    process. *)
Definition noexcept {S A} (m : M S A) : M S A := λ s,
  match m s with
  | (s', Throw _) => (s', Undef Terminate)
  | r => r
  end.

(** [runs m s a s']: the call [m] made in [s] returns [a] in [s']. *)
Definition runs {S A} (m : M S A) (s : S) (a : A) (s' : S) : Prop :=
  m s = (s', Ok a).

Section runs.
Context {S : Type}.

Lemma runs_ret {A} (a : A) (s : S) : runs (mret a) s a s.
Proof. done. Qed.
Lemma runs_gets {A} (f : S → A) s : runs (gets f) s (f s) s.
Proof. done. Qed.
Lemma runs_modify (f : S → S) s : runs (modify f) s () (f s).
Proof. done. Qed.
Lemma runs_lift {A} (o : outcome A) (a : A) (s : S) :
  o = Ok a → runs (liftO o) s a s.
Proof. by intros ->. Qed.

Lemma runs_bind {A B} (m : M S A) (k : A → M S B) s a s1 b s2 :
  runs m s a s1 → runs (k a) s1 b s2 → runs (m ≫= k) s b s2.
Proof. unfold runs, mbind, M_bind. by intros ->. Qed.

Lemma runs_bind_inv {A B} (m : M S A) (k : A → M S B) s b s2 :
  runs (m ≫= k) s b s2 → ∃ a s1, runs m s a s1 ∧ runs (k a) s1 b s2.
Proof.
  unfold runs, mbind, M_bind.
  destruct (m s) as [s1 [a|e|u]] eqn:E; [|done..]. eauto.
Qed.

Lemma runs_det {A} (m : M S A) s a1 s1 a2 s2 :
  runs m s a1 s1 → runs m s a2 s2 → a1 = a2 ∧ s1 = s2.
Proof. unfold runs. intros -> ?. by simplify_eq. Qed.

Lemma runs_zoom {S' A} (get : S → S') (set : S' → S → S) (m : M S' A) s a s' :
  runs m (get s) a s' → runs (zoom get set m) s a (set s' s).
Proof. unfold runs, zoom. by intros ->. Qed.

Lemma liftO_Ok_bind {A B} (a : A) (k : A → M S B) s : (liftO (Ok a) ≫= k) s = k a s.
Proof. done. Qed.

(** What comes after a call decides what the whole can return. *)
Lemma never_bind_at {A B} (m : M S A) (k : A → M S B) b :
  (∀ a s, (k a s).2 ≠ Ok b) → ∀ s, ((m ≫= k) s).2 ≠ Ok b.
Proof.
  intros Hk s. unfold mbind, M_bind. destruct (m s) as [s' [a|e|u]]; [apply Hk|done..].
Qed.
Lemma never_bind {A B} (m : M S A) (k : A → M S B) :
  (∀ a s b, (k a s).2 ≠ Ok b) → ∀ s b, ((m ≫= k) s).2 ≠ Ok b.
Proof. intros Hk s b. apply never_bind_at. intros a s'. apply Hk. Qed.

(** A loop whose every iteration returns keeps an invariant. *)
Lemma runs_forM {A} (I : list A → S → Prop) (f : A → M S ()) l s :
  I l s →
  (∀ a l' s, I (a :: l') s → ∃ s', runs (f a) s () s' ∧ I l' s') →
  ∃ s', runs (forM l f) s () s' ∧ I [] s'.
Proof.
  intros HI Hstep. revert s HI. induction l as [|a l IH]; intros s HI; simpl.
  - exists s. split; [apply runs_ret|done].
  - destruct (Hstep _ _ _ HI) as (s1 & Hr1 & HI1).
    destruct (IH _ HI1) as (s2 & Hr2 & HI2).
    exists s2. split; [|done]. by eapply runs_bind.
Qed.
End runs.

(** ** Invariants of calls

    [keeps I m]: whenever the call returns, it has kept [I]. *)

Definition keeps {S A} (I : S → Prop) (m : M S A) : Prop :=
  ∀ s a s', I s → runs m s a s' → I s'.

Section keeps.
Context {S : Type} (I : S → Prop).

Lemma keeps_ret {A} (a : A) : keeps I (mret a).
Proof. intros s a' s' HI. unfold runs. by intros [= <-]. Qed.
Lemma keeps_gets {A} (f : S → A) : keeps I (gets f).
Proof. intros s a' s' HI. unfold runs. by intros [= <-]. Qed.
Lemma keeps_lift {A} (o : outcome A) : keeps I (liftO o).
Proof. intros s a' s' HI. unfold runs. by intros [= <-]. Qed.
Lemma keeps_undef {A} u : keeps I (undef (A:=A) u).
Proof. by intros s a s' _. Qed.
Lemma keeps_modify (f : S → S) : (∀ s, I s → I (f s)) → keeps I (modify f).
Proof. intros Hf s a' s' HI. unfold runs. intros [= <-]. by apply Hf. Qed.
Lemma keeps_bind {A B} (m : M S A) (k : A → M S B) :
  keeps I m → (∀ a, keeps I (k a)) → keeps I (m ≫= k).
Proof. intros Hm Hk s b s' HI (a & s1 & H1 & H2)%runs_bind_inv. by eapply Hk, H2; eapply Hm. Qed.
Lemma keeps_zoom {S' A} (get : S → S') (set : S' → S → S) (m : M S' A) :
  (∀ s x a, I s → runs m (get s) a x → I (set x s)) → keeps I (zoom get set m).
Proof.
  intros Hs s a s' HI. unfold runs, zoom. destruct (m (get s)) as [x o] eqn:Hm.
  intros [= <- ->]. by eapply Hs.
Qed.
Lemma keeps_forM {A} (f : A → M S ()) l :
  (∀ a, a ∈ l → keeps I (f a)) → keeps I (forM l f).
Proof.
  induction l as [|a l IH]; intros Hf; [apply keeps_ret|].
  apply keeps_bind; [apply Hf; by left|]. intros _. apply IH. intros; apply Hf; by right.
Qed.
End keeps.

(** [always I m]: the call keeps [I] however it ends. *)
Definition always {S A} (I : S → Prop) (m : M S A) : Prop := ∀ s, I s → I (m s).1.

Section always.
Context {S : Type} (I : S → Prop).

Lemma always_keeps {A} (m : M S A) : always I m → keeps I m.
Proof. intros Hm s a s' HI Hr. specialize (Hm s HI). by rewrite Hr in Hm. Qed.
Lemma always_ret {A} (a : A) : always I (mret a).
Proof. by intros s. Qed.
Lemma always_gets {A} (f : S → A) : always I (gets f).
Proof. by intros s. Qed.
Lemma always_lift {A} (o : outcome A) : always I (liftO o).
Proof. by intros s. Qed.
Lemma always_modify (f : S → S) : (∀ s, I s → I (f s)) → always I (modify f).
Proof. intros Hf s. apply Hf. Qed.
Lemma always_bind {A B} (m : M S A) (k : A → M S B) :
  always I m → (∀ a, always I (k a)) → always I (m ≫= k).
Proof.
  intros Hm Hk s HI. specialize (Hm s HI). unfold mbind, M_bind.
  destruct (m s) as [s' [a|e|u]]; [by apply Hk|done..].
Qed.
Lemma always_zoom {S' A} (get : S → S') (set : S' → S → S) (m : M S' A) :
  (∀ s x, I s → I (set x s)) → always I (zoom get set m).
Proof. intros Hs s HI. unfold zoom. destruct (m (get s)) as [x o]. by apply Hs. Qed.
Lemma always_forM {A} (f : A → M S ()) l : (∀ a, a ∈ l → always I (f a)) → always I (forM l f).
Proof.
  induction l as [|a l IH]; intros Hf; [apply always_ret|].
  apply always_bind; [apply Hf; by left|]. intros _. apply IH. intros; apply Hf; by right.
Qed.
Lemma always_try {A} (m h : M S A) : always I m → always I h → always I (try_catch m h).
Proof.
  intros Hm Hh s HI. specialize (Hm s HI). unfold try_catch.
  destruct (m s) as [s' [a|e|u]]; [done|by apply Hh|done].
Qed.
Lemma always_noexcept {A} (m : M S A) : always I m → always I (noexcept m).
Proof. intros Hm s HI. specialize (Hm s HI). unfold noexcept. by destruct (m s) as [s' [a|e|u]]. Qed.
End always.

#[export] Hint Resolve runs_ret runs_gets runs_modify runs_lift : runs.
#[export] Hint Extern 1 (keeps _ (modify _)) => by apply keeps_modify : keeps.
#[export] Hint Extern 1 (keeps _ (zoom _ _ _)) => by apply keeps_zoom : keeps.

(** Runs the calls at the head of a sequence that [runs] knows about. *)
Ltac run_one := eapply runs_bind; [solve [eauto 2 with runs]|cbv beta].
Ltac run := repeat run_one.

(** Goes through a call, up to the calls inside it that [keeps] does not know
    about. *)
Ltac keep_one :=
  match goal with
  | |- keeps _ (mret _) => apply keeps_ret
  | |- keeps _ (gets _) => apply keeps_gets
  | |- keeps _ (liftO _) => apply keeps_lift
  | |- keeps _ (undef _) => apply keeps_undef
  | |- keeps _ (_ ≫= _) => apply keeps_bind; [|intros ?]
  | |- keeps _ (forM _ _) => apply keeps_forM; intros ? ?
  | |- keeps _ (match _ with _ => _ end) => case_match
  | |- keeps _ (let _ := _ in _) => cbv zeta
  | |- keeps _ _ => solve [eauto 2 with keeps]
  end.
Ltac keep := repeat keep_one.

Ltac hold_one :=
  match goal with
  | |- always _ (mret _) => apply always_ret
  | |- always _ (gets _) => apply always_gets
  | |- always _ (liftO _) => apply always_lift
  | |- always _ (throw _) => apply always_lift
  | |- always _ (undef _) => apply always_lift
  | |- always _ (_ ≫= _) => apply always_bind; [|intros ?]
  | |- always _ (forM _ _) => apply always_forM; intros ? ?
  | |- always _ (try_catch _ _) => apply always_try
  | |- always _ (noexcept _) => apply always_noexcept
  | |- always _ (match _ with _ => _ end) => case_match
  | |- always _ (let _ := _ in _) => cbv zeta
  | |- always _ (modify _) => by apply always_modify
  | |- always _ (zoom _ _ _) => by apply always_zoom
  | |- always _ _ => solve [eauto 2 with keeps]
  end.
Ltac hold := repeat hold_one.

(** ** [size_t] *)

Definition u64_modulus : Z := 2 ^ 64.

(** Conversion to [size_t]. *)
Definition u64 (z : Z) : Z := z `mod` u64_modulus.

Definition u64_add (a b : Z) : Z := u64 (a + b).
Definition u64_sub (a b : Z) : Z := u64 (a - b).

Lemma u64_small z : (0 ≤ z < u64_modulus)%Z → u64 z = z.
Proof. apply Z.mod_small. Qed.
Lemma u64_range z : (0 ≤ u64 z < u64_modulus)%Z.
Proof. by apply Z.mod_pos_bound. Qed.
Lemma u64_idemp z : u64 (u64 z) = u64 z.
Proof. apply u64_small, u64_range. Qed.
(** Subtraction of a wrapped value recovers the exact difference when that is
    representable, even when the subtrahend itself went below zero. *)
Lemma u64_sub_wrapped a b :
  (0 ≤ a - b < u64_modulus)%Z → u64_sub a (u64 b) = (a - b)%Z.
Proof.
  intros H. unfold u64_sub, u64. rewrite Zminus_mod_idemp_r. by apply Z.mod_small.
Qed.
Lemma u64_add_wrapped a b :
  (0 ≤ a + b < u64_modulus)%Z → u64_add (u64 a) (u64 b) = (a + b)%Z.
Proof.
  intros H. unfold u64_add, u64. rewrite <-Z.add_mod by done. by apply Z.mod_small.
Qed.

(** ** Strict weak orders

    What [std::sort] and the ordered containers require of a comparison, on
    the elements that are really compared. *)

Record swo_on {A} (lt : A → A → bool) (P : A → Prop) : Prop := {
  swo_irrefl : ∀ a, P a → lt a a = false;
  swo_trans : ∀ a b c, P a → P b → P c → lt a b → lt b c → lt a c;
  swo_cotrans : ∀ a b c, P a → P b → P c → lt a b → lt a c ∨ lt c b;
}.

Lemma swo_asym {A} (lt : A → A → bool) P a b :
  swo_on lt P → P a → P b → lt a b → lt b a = false.
Proof.
  intros HS Ha Hb H. apply not_true_is_false. intros H'.
  assert (lt a a) as Haa by (eapply (swo_trans _ _ HS a b a); eauto; by rewrite H').
  by rewrite (swo_irrefl _ _ HS a Ha) in Haa.
Qed.

Lemma swo_weaken {A} (lt : A → A → bool) (P Q : A → Prop) :
  swo_on lt P → (∀ a, Q a → P a) → swo_on lt Q.
Proof. intros [H1 H2 H3] HQ. split; eauto. Qed.

(** ** The unspecified parts of the standard library *)

Class StdLib := {
  (** [std::sort(l.begin(), l.end(), lt)] *)
  std_sort : ∀ {A : Type}, (A → A → bool) → list A → list A;
  (** the order [for (auto& [k, v] : m)] visits an [unordered_map] in *)
  std_iter : ∀ {K : Type} `{Countable K} {V : Type}, gmap K V → list (K * V);
  (** the same for an [unordered_set] *)
  std_iter_set : ∀ {K : Type} `{Countable K}, gset K → list K;
  (** the [n]-th value [rand()] returns in the process *)
  std_rand : nat → Z;
  std_sort_perm : ∀ {A} (lt : A → A → bool) l,
    swo_on lt (.∈ l) → std_sort lt l ≡ₚ l;
  std_sort_sorted : ∀ {A} (lt : A → A → bool) l,
    swo_on lt (.∈ l) → StronglySorted (λ a b, lt b a = false) (std_sort lt l);
  std_iter_perm : ∀ {K} `{Countable K} {V} (m : gmap K V),
    std_iter m ≡ₚ map_to_list m;
  std_iter_set_perm : ∀ {K} `{Countable K} (s : gset K),
    std_iter_set s ≡ₚ elements s;
  std_rand_range : ∀ n, (0 ≤ std_rand n ≤ 2147483647)%Z;
}.

Section stdlib.
Context `{StdLib}.

Lemma elem_of_std_iter `{Countable K} {V} (m : gmap K V) k v :
  (k, v) ∈ std_iter m ↔ m !! k = Some v.
Proof. by rewrite std_iter_perm, elem_of_map_to_list. Qed.
Lemma NoDup_fst_std_iter `{Countable K} {V} (m : gmap K V) :
  NoDup (std_iter m).*1.
Proof. rewrite std_iter_perm. apply NoDup_fst_map_to_list. Qed.
Lemma NoDup_std_iter `{Countable K} {V} (m : gmap K V) : NoDup (std_iter m).
Proof. rewrite std_iter_perm. apply NoDup_map_to_list. Qed.
Lemma length_std_iter `{Countable K} {V} (m : gmap K V) :
  length (std_iter m) = size m.
Proof. by rewrite std_iter_perm, length_map_to_list. Qed.
Lemma elem_of_std_iter_set `{Countable K} (s : gset K) k :
  k ∈ std_iter_set s ↔ k ∈ s.
Proof. by rewrite std_iter_set_perm, elem_of_elements. Qed.
Lemma length_std_iter_set `{Countable K} (s : gset K) :
  length (std_iter_set s) = size s.
Proof. by rewrite std_iter_set_perm. Qed.

(** Rebuilding a map or set from its traversal. *)
Lemma list_to_map_std_iter `{Countable K} {V} (m : gmap K V) :
  list_to_map (std_iter m) = m.
Proof.
  rewrite <-(list_to_map_to_list m) at 2.
  apply list_to_map_proper; [apply NoDup_fst_std_iter|apply std_iter_perm].
Qed.
End stdlib.

(** ** An implementation of the interface *)

Section insertion_sort.
Context {A : Type} (lt : A → A → bool).

Fixpoint sort_insert (x : A) (l : list A) : list A :=
  match l with
  | [] => [x]
  | y :: l' => if lt y x then y :: sort_insert x l' else x :: y :: l'
  end.
Definition insertion_sort (l : list A) : list A := foldr sort_insert [] l.

Lemma sort_insert_perm x l : sort_insert x l ≡ₚ x :: l.
Proof.
  induction l as [|y l IH]; simpl; [done|].
  destruct (lt y x); [|done]. rewrite IH. apply Permutation_swap.
Qed.
Lemma insertion_sort_perm l : insertion_sort l ≡ₚ l.
Proof. induction l as [|x l IH]; simpl; [done|]. by rewrite sort_insert_perm, IH. Qed.

Lemma sort_insert_sorted (P : A → Prop) x l :
  swo_on lt P → P x → Forall P l →
  StronglySorted (λ a b, lt b a = false) l →
  StronglySorted (λ a b, lt b a = false) (sort_insert x l).
Proof.
  intros HS Hx HP Hl. induction Hl as [|y l Hl IH Hy]; simpl; [by repeat constructor|].
  apply Forall_cons in HP as [Py Pl].
  destruct (lt y x) eqn:E.
  - constructor; [by apply IH|]. rewrite sort_insert_perm. constructor; [|done].
    apply (swo_asym lt P); [done..|]. by rewrite E.
  - constructor; [by constructor|]. constructor; [done|].
    rewrite Forall_forall in Hy, Pl |- *. intros z Hz.
    apply not_true_is_false. intros Hzx. specialize (Hy z Hz).
    pose proof (swo_cotrans lt P HS z x y (Pl _ Hz) Hx Py) as Hc.
    rewrite Hzx, Hy, E in Hc. by destruct Hc.
Qed.
Lemma insertion_sort_sorted l :
  swo_on lt (.∈ l) → StronglySorted (λ a b, lt b a = false) (insertion_sort l).
Proof.
  intros HS. induction l as [|x l IH]; simpl; [constructor|].
  apply (sort_insert_sorted (.∈ x :: l)); [done|by left| |].
  - rewrite insertion_sort_perm, Forall_forall. intros. by right.
  - apply IH. eapply swo_weaken; [exact HS|]. intros. by right.
Qed.
End insertion_sort.

(** The reference library: insertion sort, containers in key order of the
    underlying tree, and a [rand()] that counts. *)
Program Definition stdlib_ref : StdLib := {|
  std_sort A := insertion_sort;
  std_iter K _ _ V m := map_to_list m;
  std_iter_set K _ _ s := elements s;
  std_rand n := Z.of_nat n `mod` 2147483648;
|}%Z.
Next Obligation. intros. apply insertion_sort_perm. Qed.
Next Obligation. intros. by apply insertion_sort_sorted. Qed.
Next Obligation. done. Qed.
Next Obligation. done. Qed.
Next Obligation. intros n. pose proof (Z.mod_pos_bound (Z.of_nat n) 2147483648). lia. Qed.
