(* ===== verification/Floats.v ===== *)
(** * IEEE-754 numbers and the orders built on them

    [float] and [double] are the numbers of the Standard Library's [SpecFloat]
    (sign, mantissa, exponent, zeros, infinities, NaN) at the widths binary32
    and binary64, with their comparisons and their rounded operations. Away
    from NaN, [<] is a strict weak order ([flt_swo]); paired with a key it is
    the order the program sorts by: [std::pair<float, idx_t>] in [FaissIndex]
    and [SearchResult] in [Segment]. *)

From Stdlib Require Export SpecFloat.
From S2P Require Import Prelude Cxx.

Abbreviation f32 := spec_float (only parsing).
Abbreviation f64 := spec_float (only parsing).

#[export] Instance spec_float_eq_dec : EqDecision spec_float.
Proof. solve_decision. Defined.

Definition is_nan (x : spec_float) : bool :=
  match x with S754_nan => true | _ => false end.

Definition not_nan (x : spec_float) : Prop := is_nan x = false.

#[export] Instance not_nan_dec x : Decision (not_nan x).
Proof. unfold not_nan. apply _. Defined.

(** ** Comparison

    [a < b] and [a == b] on [float]/[double]: false when a side is NaN. *)
Definition flt (a b : spec_float) : bool := SFltb a b.
Definition feq (a b : spec_float) : bool := SFeqb a b.

(** The rank of a number: [SFcompare] compares ranks lexicographically. *)
Definition frank (x : spec_float) : Z * Z * Z :=
  match x with
  | S754_infinity true => (-2, 0, 0)
  | S754_finite true m e => (-1, - e, Zneg m)
  | S754_zero _ => (0, 0, 0)
  | S754_finite false m e => (1, e, Zpos m)
  | S754_infinity false => (2, 0, 0)
  | S754_nan => (3, 0, 0)
  end%Z.

Definition rank_lt (x y : Z * Z * Z) : Prop :=
  let '(a1, b1, c1) := x in let '(a2, b2, c2) := y in
  (a1 < a2 ∨ a1 = a2 ∧ (b1 < b2 ∨ b1 = b2 ∧ c1 < c2))%Z.

Lemma SFcompare_rank x y :
  not_nan x → not_nan y →
  match SFcompare x y with
  | Some Lt => rank_lt (frank x) (frank y)
  | Some Eq => frank x = frank y
  | Some Gt => rank_lt (frank y) (frank x)
  | None => False
  end.
Proof.
  intros Hx Hy.
  destruct x as [[]|[]| |[] m1 e1], y as [[]|[]| |[] m2 e2]; try done;
    simpl; try lia; change (Pos.compare_cont Eq m1 m2) with (m1 ?= m2)%positive;
    destruct (Z.compare_spec e1 e2), (Pos.compare_spec m1 m2); simpl; subst;
    (lia || done || (f_equal; lia)).
Qed.

Lemma flt_rank x y : not_nan x → not_nan y → flt x y ↔ rank_lt (frank x) (frank y).
Proof.
  intros Hx Hy. pose proof (SFcompare_rank x y Hx Hy) as H. unfold flt, SFltb.
  destruct (SFcompare x y) as [[]|]; [..|done]; simpl; split; intros H'; try done;
    revert H'; rewrite <-?H; destruct (frank x) as [[??]?], (frank y) as [[??]?];
    simpl in *; simplify_eq; lia.
Qed.

Lemma feq_rank x y : not_nan x → not_nan y → feq x y ↔ frank x = frank y.
Proof.
  intros Hx Hy. pose proof (SFcompare_rank x y Hx Hy) as H. unfold feq, SFeqb.
  destruct (SFcompare x y) as [[]|]; [..|done]; simpl; split; intros H'; try done;
    revert H'; destruct (frank x) as [[??]?], (frank y) as [[??]?];
    simpl in *; intros; simplify_eq; lia.
Qed.

(** Turns comparisons of numbers known not to be NaN into integer facts. *)
Ltac frank_solve :=
  repeat match goal with
  | H : Is_true (flt _ _) |- _ => rewrite flt_rank in H by done
  | H : ¬ Is_true (flt _ _) |- _ => rewrite flt_rank in H by done
  | H : Is_true (feq _ _) |- _ => rewrite feq_rank in H by done
  | H : flt _ _ = true |- _ => apply Is_true_eq_left in H
  end;
  rewrite ?flt_rank, ?feq_rank by done;
  repeat match goal with
  | |- context [frank ?x] => destruct (frank x) as [[??]?]
  | H : context [frank ?x] |- _ => destruct (frank x) as [[??]?]
  end; simpl in *; simplify_eq; lia.

Lemma flt_not_nan x y : flt x y → not_nan x ∧ not_nan y.
Proof. by destruct x, y. Qed.
Lemma flt_irrefl x : flt x x = false.
Proof.
  apply not_true_is_false. intros H. destruct (decide (not_nan x)) as [Hx|Hx].
  - apply Is_true_eq_left in H. frank_solve.
  - unfold not_nan in Hx. by destruct x.
Qed.

(** Away from NaN, [<] is a strict weak order and [==] its equivalence. *)
Lemma flt_swo : swo_on flt not_nan.
Proof.
  split.
  - intros. apply flt_irrefl.
  - intros a b c Ha Hb Hc H1 H2. frank_solve.
  - intros a b c Ha Hb Hc H. rewrite !flt_rank by done. frank_solve.
Qed.

Lemma feq_flt x y : not_nan x → not_nan y → feq x y = negb (flt x y) && negb (flt y x).
Proof.
  intros Hx Hy. apply eq_bool_prop_intro. rewrite andb_True, !negb_True.
  rewrite feq_rank, !flt_rank by done.
  destruct (frank x) as [[??]?], (frank y) as [[??]?]; simpl.
  split; [intros; simplify_eq; lia|]. intros. repeat f_equal; lia.
Qed.

(** [x <= y] as a proposition. *)
Definition fle (x y : spec_float) : Prop := flt y x = false.

Lemma fle_refl x : fle x x.
Proof. apply flt_irrefl. Qed.
Lemma flt_fle x y : not_nan x → not_nan y → flt x y → fle x y.
Proof. intros. by apply (swo_asym _ _ _ _ flt_swo). Qed.
Lemma fle_trans x y z :
  not_nan x → not_nan y → not_nan z → fle x y → fle y z → fle x z.
Proof.
  unfold fle. intros Hx Hy Hz Hxy Hyz. apply not_true_is_false. intros Hzx.
  pose proof (swo_cotrans _ _ flt_swo z x y Hz Hx Hy) as Hc.
  rewrite Hzx, Hxy, Hyz in Hc. by destruct Hc.
Qed.

(** ** Strict total orders on keys *)

Record strict_total {K} (klt : K → K → bool) : Prop := {
  st_irrefl : ∀ a, klt a a = false;
  st_trans : ∀ a b c, klt a b → klt b c → klt a c;
  st_trichotomy : ∀ a b, klt a b ∨ a = b ∨ klt b a;
}.

Lemma Zltb_strict_total : strict_total Z.ltb.
Proof.
  split.
  - apply Z.ltb_irrefl.
  - intros a b c. rewrite !Is_true_true, !Z.ltb_lt. lia.
  - intros a b. rewrite !Is_true_true, !Z.ltb_lt. lia.
Qed.

(** [operator<] of [std::string]: lexicographic on bytes. *)
Definition str_lt (a b : string) : bool := String.ltb a b.

Lemma str_lt_leb a b : str_lt a b = negb (String.leb b a).
Proof.
  unfold str_lt, String.ltb, String.leb. rewrite (String.compare_antisym a b).
  by destruct (String.compare b a).
Qed.

Lemma str_lt_strict_total : strict_total str_lt.
Proof.
  split.
  - intros a. rewrite str_lt_leb.
    assert (String.le a a) as H by reflexivity. by rewrite (Is_true_true_1 _ H).
  - intros a b c. rewrite !str_lt_leb, !negb_True. intros Hab Hbc Hca.
    assert (String.le a b) as H by (by destruct (total String.le a b)).
    apply Hbc. by transitivity a.
  - intros a b. rewrite !str_lt_leb, !negb_True.
    destruct (decide (String.le a b)) as [H1|H1]; [|naive_solver].
    destruct (decide (String.le b a)) as [H2|H2]; [|naive_solver].
    right; left. by apply (anti_symm String.le).
Qed.

(** ** Distance first, key second *)

Section lex.
Context {K : Type} (klt : K → K → bool) (Hk : strict_total klt).

Definition lex_lt (p q : f32 * K) : bool :=
  flt p.1 q.1 || (negb (flt q.1 p.1) && klt p.2 q.2).

Definition lex_ok (p : f32 * K) : Prop := not_nan p.1.

Lemma lex_lt_iff p q :
  lex_lt p q ↔ flt p.1 q.1 ∨ ¬ flt q.1 p.1 ∧ klt p.2 q.2.
Proof. unfold lex_lt. by rewrite orb_True, andb_True, negb_True. Qed.

Lemma lex_swo : swo_on lex_lt lex_ok.
Proof.
  split.
  - intros [d k] _. unfold lex_lt. simpl.
    by rewrite flt_irrefl, (st_irrefl _ Hk).
  - intros [d1 k1] [d2 k2] [d3 k3] H1 H2 H3. unfold lex_ok in *. rewrite !lex_lt_iff.
    simpl in *. intros [L1|[L1 K1]] [L2|[L2 K2]]; try (left; frank_solve).
    right. split; [frank_solve|]. by eapply (st_trans _ Hk).
  - intros [d1 k1] [d2 k2] [d3 k3] H1 H2 H3. unfold lex_ok in *. rewrite !lex_lt_iff.
    simpl in *. intros [L1|[L1 K1]].
    + destruct (swo_cotrans _ _ flt_swo d1 d2 d3); auto.
    + destruct (decide (flt d1 d3)); [auto|]. destruct (decide (flt d3 d2)); [auto|].
      destruct (st_trichotomy _ Hk k1 k3) as [|[->|]].
      * left. right. split; [frank_solve|done].
      * right. right. split; [frank_solve|done].
      * right. right. split; [frank_solve|]. by eapply (st_trans _ Hk).
Qed.

(** Elements with different keys are never equivalent. *)
Lemma lex_total p q : p.2 ≠ q.2 → lex_lt p q ∨ lex_lt q p.
Proof.
  intros Hne. rewrite !lex_lt_iff.
  destruct (decide (flt p.1 q.1)); [auto|]. destruct (decide (flt q.1 p.1)); [auto|].
  destruct (st_trichotomy _ Hk p.2 q.2) as [|[|]]; naive_solver.
Qed.

Lemma lex_lt_fle p q : lex_ok p → lex_ok q → lex_lt p q → fle p.1 q.1.
Proof.
  intros Hp Hq [H|[H _]]%lex_lt_iff; [by apply flt_fle|].
  unfold fle. by destruct (flt q.1 p.1).
Qed.
Lemma lex_not_lt_fle p q : lex_ok p → lex_ok q → lex_lt q p = false → fle p.1 q.1.
Proof. intros Hp Hq. unfold lex_lt, fle. by destruct (flt q.1 p.1). Qed.
End lex.

(** ** Double precision arithmetic *)

Definition f64_add (a b : f64) : f64 := SFadd 53 1024 a b.
Definition f64_mul (a b : f64) : f64 := SFmul 53 1024 a b.
Definition f64_div (a b : f64) : f64 := SFdiv 53 1024 a b.

(** [static_cast<double>(n)] of an integer. *)
Definition f64_of_Z (z : Z) : f64 := binary_normalize 53 1024 z 0 false.
(** A [float] literal with an integer value. *)
Definition f32_of_Z (z : Z) : f32 := binary_normalize 24 128 z 0 false.

(** Conversion to an integer discards the fraction; what is not a finite
    number has no value. *)
Definition f64_trunc (x : f64) : option Z :=
  match x with
  | S754_zero _ => Some 0%Z
  | S754_finite s m e =>
    let a := if (0 <=? e)%Z then Z.shiftl (Zpos m) e else Z.shiftr (Zpos m) (- e) in
    Some (if s then - a else a)%Z
  | _ => None
  end.

(** [static_cast<size_t>(x)]: undefined when the value does not fit. *)
Definition f64_to_u64 (x : f64) : outcome Z :=
  match f64_trunc x with
  | Some z => if bool_decide (0 ≤ z < u64_modulus)%Z then Ok z else Undef ConvOverflow
  | None => Undef ConvOverflow
  end.

(** ** Non-negative numbers

    A number with a plus sign that is not NaN; rounding, adding and taking the
    reciprocal stay inside. *)

Definition fpos (x : spec_float) : Prop :=
  match x with
  | S754_zero s | S754_infinity s | S754_finite s _ _ => s = false
  | S754_nan => False
  end.

Lemma fpos_not_nan x : fpos x → not_nan x.
Proof. by destruct x. Qed.

Section rounding.
Context (prec emax : Z).

Lemma shr_1_nonneg mrs : (0 ≤ shr_m mrs)%Z → (0 ≤ shr_m (shr_1 mrs))%Z.
Proof. destruct mrs as [[|[]|] r s]; simpl; lia. Qed.
Lemma iter_shr_nonneg p mrs :
  (0 ≤ shr_m mrs)%Z → (0 ≤ shr_m (SpecFloat.iter_pos shr_1 p mrs))%Z.
Proof. revert mrs. induction p; intros mrs H; simpl; auto using shr_1_nonneg. Qed.
Lemma shr_fexp_nonneg m e l : (0 ≤ m)%Z → (0 ≤ shr_m (shr_fexp prec emax m e l).1)%Z.
Proof.
  intros Hm. unfold shr_fexp, shr.
  assert (0 ≤ shr_m (shr_record_of_loc m l))%Z by (by destruct l as [|[]]).
  case_match; simpl; auto using iter_shr_nonneg.
Qed.
Lemma round_nearest_nonneg m l : (0 ≤ m)%Z → (0 ≤ round_nearest_even m l)%Z.
Proof. intros Hm. destruct l as [|[]]; simpl; try case_match; lia. Qed.

Lemma binary_round_aux_pos m e l : (0 ≤ m)%Z → fpos (binary_round_aux prec emax false m e l).
Proof.
  intros Hm. unfold binary_round_aux.
  pose proof (shr_fexp_nonneg m e l Hm) as H1. destruct (shr_fexp prec emax m e l) as [m1 e1].
  simpl in H1. pose proof (round_nearest_nonneg _ (loc_of_shr_record m1) H1) as H2.
  pose proof (shr_fexp_nonneg _ e1 loc_Exact H2) as H3.
  destruct (shr_fexp prec emax _ e1 loc_Exact) as [m2 e2]. simpl in H3.
  destruct (shr_m m2); [done| |lia]. by case_match.
Qed.
Lemma binary_normalize_pos m e : (0 ≤ m)%Z → fpos (binary_normalize prec emax m e false).
Proof.
  intros Hm. destruct m as [|m|m]; [done| |lia]. simpl. unfold binary_round.
  destruct (shl_align _ _ _) as [mz ez]. apply binary_round_aux_pos. lia.
Qed.
End rounding.

Lemma f64_of_Z_pos z : (0 ≤ z)%Z → fpos (f64_of_Z z).
Proof. apply binary_normalize_pos. Qed.
Lemma f64_add_pos x y : fpos x → fpos y → fpos (f64_add x y).
Proof.
  unfold f64_add. destruct x as [[]|[]| |[] m e], y as [[]|[]| |[] m' e']; try done.
  intros _ _. unfold SFadd. apply binary_normalize_pos. unfold cond_Zopp. lia.
Qed.
Lemma f64_recip_pos y : fpos y → fpos (f64_div (f64_of_Z 1) y).
Proof.
  unfold f64_div. change (f64_of_Z 1) with (S754_finite false 4503599627370496 (-52)).
  destruct y as [[]|[]| |[] m e]; try done. intros _. unfold SFdiv.
  destruct (SFdiv_core_binary _ _ _ _ _ _) as [[q e'] l] eqn:E.
  apply binary_round_aux_pos. unfold SFdiv_core_binary in E.
  match type of E with context [Z.div_eucl ?a ?b] => set (m' := a) in E;
    assert (0 ≤ m')%Z as Hm'; [|pose proof (Z.div_pos m' b Hm' ltac:(lia)) as Hq;
      unfold Z.div in Hq; destruct (Z.div_eucl m' b) as [q' r]] end.
  - subst m'. repeat case_match; try lia. apply Z.shiftl_nonneg. lia.
  - by simplify_eq.
Qed.

(** ** Integers

    An integer of up to 53 bits survives the conversions to [double] and back. *)

Lemma digits_size m : digits2_pos m = Pos.size m.
Proof. induction m; simpl; congruence. Qed.
Lemma size_shift k m : Pos.size (shift_pos k m) = (Pos.size m + k)%positive.
Proof.
  unfold shift_pos. induction k as [|k IH] using Pos.peano_ind; [by rewrite Pos.add_1_r|].
  by rewrite Pos.iter_succ, Pos.add_succ_r, <-IH.
Qed.
Lemma shift_value k m : Zpos (shift_pos k m) = Z.shiftl (Zpos m) (Zpos k).
Proof.
  by rewrite Zpower.shift_pos_nat, Zpower.shift_nat_correct, Zpower.Zpower_nat_Z, Z.shiftl_mul_pow2,
    positive_nat_Z, Z.mul_comm.
Qed.

(** A significand of full width is not rounded. *)
Lemma round_full m e :
  digits2_pos m = 53%positive → (-1074 ≤ e ≤ 971)%Z →
  binary_round_aux 53 1024 false (Zpos m) e loc_Exact = S754_finite false m e.
Proof.
  intros Hd He.
  assert (shr_fexp 53 1024 (Zpos m) e loc_Exact = (Build_shr_record (Zpos m) false false, e)) as Hs.
  { unfold shr_fexp, Zdigits2. rewrite Hd. unfold fexp, emin. by replace (_ - e)%Z with 0%Z by lia. }
  unfold binary_round_aux. rewrite Hs. simpl. rewrite Hs. simpl. case_match eqn:Hle; [done|lia].
Qed.

Lemma f64_of_Z_to_u64 z : (0 ≤ z < 2 ^ 53)%Z → f64_to_u64 (f64_of_Z z) = Ok z.
Proof.
  intros Hz. destruct z as [|m|m]; [done| |lia]. unfold f64_of_Z. simpl. unfold binary_round.
  assert (Zpos (Pos.size m) ≤ 53)%Z as Hsz.
  { pose proof (Pos.size_le m) as Hle. apply Z.lt_succ_r, (Z.pow_lt_mono_r_iff 2); [lia..|].
    apply Pos2Z.pos_le_pos in Hle. rewrite Pos2Z.inj_pow in Hle. change (Z.succ 53) with (1 + 53)%Z.
    rewrite Z.pow_add_r by lia. lia. }
  assert (fexp 53 1024 (Zpos (digits2_pos m) + 0) = Zpos (Pos.size m) - 53)%Z as ->
    by (rewrite digits_size; unfold fexp, emin; lia).
  unfold f64_to_u64, shl_align. destruct (Zpos (Pos.size m) - 53 - 0)%Z as [|k|k] eqn:Hk; [|lia|].
  - rewrite round_full by (rewrite ?digits_size; lia). simpl. change (Z.pos m ≪ 0)%Z with (Z.pos m).
    rewrite bool_decide_true; [done|]. unfold u64_modulus. lia.
  - assert (Zpos (Pos.size m) - 53 = Zneg k)%Z as -> by lia.
    fold (shift_pos k m). rewrite round_full by (rewrite ?digits_size, ?size_shift; lia). simpl.
    rewrite shift_value, Z.shiftr_shiftl_l, Z.sub_diag, Z.shiftl_0_r by lia.
    rewrite bool_decide_true; [done|]. unfold u64_modulus. lia.
Qed.
