(* ===== verification/Locks.v ===== *)
(** * Locks (std::shared_mutex, index/include/ISegment.h)

    A call of an index holds the index's shared mutex from beginning to end:
    exclusively ([std::lock_guard]) when it changes something, shared
    ([std::shared_lock]) when it only reads. Here the calls of several threads
    run step by step, interleaved as the mutex lets them, and
    [concurrent_serial] says that this is the same as running them one after
    the other, in the order in which they return, each in one step. That is
    how the rest of the development runs them. *)

From S2P Require Import Prelude Cxx.

(** ** The mutex *)

(** A thread is a number; [owner] has locked it, [sharers] share it. *)
Record shared_mutex := Mutex { owner : option nat; sharers : gset nat }.
Definition unlocked : shared_mutex := Mutex None ∅.

(** [None]: the call waits. *)
Definition lock (t : nat) (m : shared_mutex) : option shared_mutex :=
  if decide (owner m = None ∧ sharers m = ∅) then Some (Mutex (Some t) ∅) else None.
Definition lock_shared (t : nat) (m : shared_mutex) : option shared_mutex :=
  if decide (owner m = None) then Some (Mutex None ({[t]} ∪ sharers m)) else None.
(** A thread unlocks what it has locked. *)
Definition unlock (t : nat) (m : shared_mutex) : outcome shared_mutex :=
  if decide (owner m = Some t) then Ok (Mutex None (sharers m)) else Undef NotLocked.
Definition unlock_shared (t : nat) (m : shared_mutex) : outcome shared_mutex :=
  if decide (t ∈ sharers m) then Ok (Mutex (owner m) (sharers m ∖ {[t]})) else Undef NotLocked.

(** ISegment's names for them. *)
Definition readerLock : nat → shared_mutex → option shared_mutex := lock_shared.
Definition readerUnlock : nat → shared_mutex → outcome shared_mutex := unlock_shared.
Definition writerLock : nat → shared_mutex → option shared_mutex := lock.
Definition writerUnlock : nat → shared_mutex → outcome shared_mutex := unlock.

(** A guard locks when it is made and unlocks when its scope ends. *)
Inductive guard := lock_guard | shared_lock.
#[export] Instance guard_eq_dec : EqDecision guard.
Proof. solve_decision. Defined.

Definition aquireWrite (t : nat) (m : shared_mutex) : option (guard * shared_mutex) :=
  m ← lock t m; Some (lock_guard, m).
Definition aquireRead (t : nat) (m : shared_mutex) : option (guard * shared_mutex) :=
  m ← lock_shared t m; Some (shared_lock, m).
Definition aquire (g : guard) : nat → shared_mutex → option (guard * shared_mutex) :=
  match g with lock_guard => aquireWrite | shared_lock => aquireRead end.
Definition end_scope (g : guard) : nat → shared_mutex → outcome shared_mutex :=
  match g with lock_guard => unlock | shared_lock => unlock_shared end.

(** Locking twice waits for oneself: [mergeSegment] of a segment with itself
    takes [other]'s lock and then its own. *)
Lemma lock_twice t g m m' : aquireWrite t m = Some (g, m') → aquireWrite t m' = None.
Proof.
  unfold aquireWrite, lock. case_decide; [|done]. simpl. intros [= <- <-].
  rewrite decide_False; [done|]. simpl. naive_solver.
Qed.

(** ** Calls, step by step *)

(** [Act f k]: one access to the shared state, then the rest. *)
Inductive prog (S R : Type) : Type :=
  | Done (r : R)
  | Act (f : S → S) (k : S → prog S R).
Arguments Done {_ _} _.
Arguments Act {_ _} _ _.

Section calls.
Context {S R O : Type}.
Implicit Types p : prog S R.

(** All its steps at once. *)
Fixpoint run_prog p (s : S) : S * R :=
  match p with
  | Done r => (s, r)
  | Act f k => run_prog (k s) (f s)
  end.

Fixpoint readonly p : Prop :=
  match p with
  | Done _ => True
  | Act f k => ∀ s, f s = s ∧ readonly (k s)
  end.

(** [c_op]: which call it is. *)
Record call := Call { c_op : O; c_guard : guard; c_body : prog S R }.

(** A call that shares the lock only reads. *)
Definition call_ok (c : call) : Prop := c_guard c = shared_lock → readonly (c_body c).

(** The calls the threads make. *)
Context (allowed : call → Prop) (allowed_ok : ∀ c, allowed c → call_ok c).

(** [log]: the calls that have returned, in order, with their results. *)
Record conf := Conf {
  mem : S;
  mutex : shared_mutex;
  inside : gmap nat (call * prog S R);
  log : list (nat * call * R);
}.
Definition started (s : S) : conf := Conf s unlocked ∅ [].

Inductive step (x : conf) : conf → Prop :=
  | step_enter t c m' :
    inside x !! t = None → allowed c → aquire (c_guard c) t (mutex x) = Some (c_guard c, m') →
    step x (Conf (mem x) m' (<[t := (c, c_body c)]> (inside x)) (log x))
  | step_act t c f k :
    inside x !! t = Some (c, Act f k) →
    step x (Conf (f (mem x)) (mutex x) (<[t := (c, k (mem x))]> (inside x)) (log x))
  | step_leave t c r m' :
    inside x !! t = Some (c, Done r) → end_scope (c_guard c) t (mutex x) = Ok m' →
    step x (Conf (mem x) m' (delete t (inside x)) (log x ++ [(t, c, r)])).

(** A scheduler's choice: a thread begins a call, or goes on. *)
Inductive choice := Enter (t : nat) (c : call) | Go (t : nat).

Definition take_turn (x : conf) (ch : choice) : option conf :=
  match ch with
  | Enter t c =>
    match inside x !! t with
    | Some _ => None
    | None => '(_, m') ← aquire (c_guard c) t (mutex x); Some (Conf (mem x) m' (<[t := (c, c_body c)]> (inside x)) (log x))
    end
  | Go t =>
    match inside x !! t with
    | None => None
    | Some (c, Act f k) => Some (Conf (f (mem x)) (mutex x) (<[t := (c, k (mem x))]> (inside x)) (log x))
    | Some (c, Done r) =>
      match end_scope (c_guard c) t (mutex x) with
      | Ok m' => Some (Conf (mem x) m' (delete t (inside x)) (log x ++ [(t, c, r)]))
      | _ => None
      end
    end
  end.
Fixpoint schedule (x : conf) (l : list choice) : option conf :=
  match l with
  | [] => Some x
  | ch :: l => x ← take_turn x ch; schedule x l
  end.

Lemma turn_step x ch x' :
  (∀ t c, ch = Enter t c → allowed c) → take_turn x ch = Some x' → step x x'.
Proof.
  destruct ch as [t c|t]; simpl; intros Hok; destruct (inside x !! t) as [[c' [r|f k]]|] eqn:Ht; try done.
  - destruct (aquire (c_guard c) t (mutex x)) as [[g m']|] eqn:Ha; [|done]. simpl. intros [= <-].
    apply step_enter; [done|by eapply Hok|]. rewrite Ha. f_equal. f_equal. revert Ha.
    unfold aquire, aquireWrite, aquireRead. destruct (c_guard c); [destruct (lock _ _)|destruct (lock_shared _ _)]; by intros [= <- _].
  - destruct (end_scope (c_guard c') t (mutex x)) eqn:He; [|done..]. intros [= <-]. by apply step_leave.
  - intros [= <-]. by apply step_act.
Qed.
Lemma schedule_steps x l x' :
  (∀ t c, Enter t c ∈ l → allowed c) → schedule x l = Some x' → rtc step x x'.
Proof.
  revert x. induction l as [|ch l IH]; intros x Hok; simpl; [by intros [= <-]|].
  intros (x1 & H1 & H2)%bind_Some. eapply rtc_l; [|eapply IH; [|done]].
  - apply (turn_step x ch x1); [|done]. intros t c ->. eapply Hok. by left.
  - intros t c H. eapply Hok. by right.
Qed.

(** The calls that have returned are calls the threads make. *)
Lemma log_allowed s x :
  rtc step (started s) x →
  Forall (λ e, allowed e.1.2) (log x) ∧ map_Forall (λ _ e, allowed e.1) (inside x).
Proof.
  revert x. apply (rtc_ind_r (λ x, Forall (λ e, allowed e.1.2) (log x) ∧ map_Forall (λ _ e, allowed e.1) (inside x))).
  { split; [constructor|apply map_Forall_empty]. }
  intros x x' _ Hst [Hl Hi]. destruct Hst as [t c m' _ Hc _|t c f k Ht|t c r m' Ht _]; simpl.
  - split; [done|]. by apply map_Forall_insert_2.
  - split; [done|]. apply map_Forall_insert_2; [exact (Hi _ _ Ht)|done].
  - split; [|by apply map_Forall_delete]. apply Forall_app_2; [done|]. constructor; [exact (Hi _ _ Ht)|constructor].
Qed.

(** ** One after the other *)

Fixpoint serial (s : S) (l : list (nat * call * R)) (s' : S) : Prop :=
  match l with
  | [] => s' = s
  | (_, c, r) :: l => ∃ s1, run_prog (c_body c) s = (s1, r) ∧ serial s1 l s'
  end.

Lemma serial_snoc s l s1 t c r s2 :
  serial s l s1 → run_prog (c_body c) s1 = (s2, r) → serial s (l ++ [(t, c, r)]) s2.
Proof.
  revert s. induction l as [|[[t' c'] r'] l IH]; intros s; simpl; [intros -> ?; by exists s2|].
  intros (s' & Hs' & Hl) Hr. exists s'. split; [done|]. by apply IH.
Qed.

(** ** The invariant *)

(** Who holds the mutex is inside, and nobody is beside its owner. *)
Record locked (x : conf) : Prop := {
  lk_owner t : owner (mutex x) = Some t ↔ ∃ c p, inside x !! t = Some (c, p) ∧ c_guard c = lock_guard;
  lk_sharers t : t ∈ sharers (mutex x) ↔ ∃ c p, inside x !! t = Some (c, p) ∧ c_guard c = shared_lock;
  lk_alone : is_Some (owner (mutex x)) → sharers (mutex x) = ∅;
}.

(** [s]: the state after the calls that have returned. Every call inside will
    end the way it would from there. *)
Record linked (s0 : S) (x : conf) (s : S) : Prop := {
  li_serial : serial s0 (log x) s;
  li_locked : locked x;
  li_inside t c p : inside x !! t = Some (c, p) →
    run_prog p (mem x) = run_prog (c_body c) s ∧ (c_guard c = shared_lock → readonly p);
  li_mem : owner (mutex x) = None → mem x = s;
}.

Lemma alone x t c p t' c' p' :
  locked x → inside x !! t = Some (c, p) → c_guard c = lock_guard →
  inside x !! t' = Some (c', p') → t' = t.
Proof.
  intros [Ho Hs Ha] Ht Hg Ht'. assert (owner (mutex x) = Some t) as Hown by (apply Ho; eauto).
  destruct (c_guard c') eqn:Hg'.
  - assert (owner (mutex x) = Some t') by (apply Ho; eauto). congruence.
  - assert (t' ∈ sharers (mutex x)) as Hin by (apply Hs; eauto).
    rewrite Ha in Hin by (rewrite Hown; eauto). by apply elem_of_empty in Hin.
Qed.

Lemma shared_owner x t c p :
  locked x → inside x !! t = Some (c, p) → c_guard c = shared_lock → owner (mutex x) = None.
Proof.
  intros [Ho Hs Ha] Ht Hg. destruct (owner (mutex x)) eqn:Hown; [|done].
  assert (t ∈ sharers (mutex x)) as Hin by (apply Hs; eauto).
  rewrite Ha in Hin by eauto. by apply elem_of_empty in Hin.
Qed.

(** The mutex after a thread went in, went on, or came out. *)
Lemma locked_enter x t c m' s l :
  locked x → inside x !! t = None → aquire (c_guard c) t (mutex x) = Some (c_guard c, m') →
  locked (Conf s m' (<[t := (c, c_body c)]> (inside x)) l).
Proof.
  intros [Ho Hs Ha] Ht. unfold aquire, aquireWrite, aquireRead, lock, lock_shared.
  destruct (c_guard c) eqn:Hg; case_decide as Hd; simpl; try done; intros [= <-].
  - destruct Hd as [Hno Hne].
    assert (∀ t' c' p', inside x !! t' = Some (c', p') → False) as Hempty.
    { intros t' c' p' H. destruct (c_guard c') eqn:Hg'.
      - assert (owner (mutex x) = Some t') by (apply Ho; eauto). congruence.
      - assert (t' ∈ sharers (mutex x)) as Hin by (apply Hs; eauto). rewrite Hne in Hin. by apply elem_of_empty in Hin. }
    split; simpl; [| |done]; intros t'; setoid_rewrite lookup_insert_Some.
    + split; [intros [= <-]; eauto 10|]. intros (c' & p' & [[<- _]|[_ H]] & _); [done|by apply Hempty in H].
    + split; [by intros ?%elem_of_empty|]. intros (c' & p' & [[<- [= <- <-]]|[_ H]] & Hg'); [congruence|by apply Hempty in H].
  - split; simpl; [| |by intros []]; intros t'; setoid_rewrite lookup_insert_Some.
    + split; [done|]. intros (c' & p' & [[<- [= <- <-]]|[_ H]] & Hg'); [congruence|].
      rewrite <-Hd. apply Ho. eauto.
    + rewrite elem_of_union, elem_of_singleton, Hs. split.
      * intros [->|(c' & p' & H & Hg')]; [eauto 10|]. exists c', p'. split; [right|done]. split; [congruence|done].
      * intros (c' & p' & [[<- _]|[_ H]] & Hg'); [by left|right; eauto].
Qed.

Lemma locked_act x t c p p' s l :
  locked x → inside x !! t = Some (c, p) → locked (Conf s (mutex x) (<[t := (c, p')]> (inside x)) l).
Proof.
  intros [Ho Hs Ha] Ht. split; simpl; [| |done]; intros t'; [rewrite Ho|rewrite Hs];
    (destruct (decide (t' = t)) as [->|Hne]; [rewrite lookup_insert_eq, Ht|by rewrite lookup_insert_ne by done]);
    (split; intros (c' & q & [= <- <-] & ?); eauto).
Qed.

Lemma locked_leave x t c p m' s l :
  locked x → inside x !! t = Some (c, p) → end_scope (c_guard c) t (mutex x) = Ok m' →
  locked (Conf s m' (delete t (inside x)) l).
Proof.
  intros Hl Ht. pose proof Hl as [Ho Hs Ha]. unfold end_scope, unlock, unlock_shared.
  destruct (c_guard c) eqn:Hg; case_decide as Hd; try done; intros [= <-].
  - split; simpl; [| |by intros []]; intros t'; setoid_rewrite lookup_delete_Some.
    + split; [done|]. intros (c' & p' & [Hne H] & _). by rewrite (alone x t c p t' c' p') in Hne.
    + rewrite (Ha ltac:(eauto)). split; [by intros ?%elem_of_empty|].
      intros (c' & p' & [Hne H] & _). by rewrite (alone x t c p t' c' p') in Hne.
  - pose proof (shared_owner x t c p Hl Ht Hg) as Hno.
    split; simpl; [| |rewrite Hno; by intros []]; intros t'; setoid_rewrite lookup_delete_Some.
    + rewrite Hno. split; [done|]. intros (c' & p' & [Hne H] & Hg'). rewrite <-Hno. apply Ho. eauto.
    + rewrite elem_of_difference, elem_of_singleton, Hs. split.
      * intros [(c' & p' & H & Hg') Hne]. exists c', p'. split; [by split|done].
      * intros (c' & p' & [Hne H] & Hg'). split; [by exists c', p'|done].
Qed.

(** ** Every step keeps it *)

Lemma linked_start s : linked s (started s) s.
Proof.
  split; simpl; [done| |by intros t c p ?%lookup_empty_Some|done].
  split; simpl; [| |by intros []]; intros t; setoid_rewrite lookup_empty; [|rewrite elem_of_empty];
    (split; [done|]; by intros (c & p & ? & _)).
Qed.

Lemma owner_enter g t m m' : aquire g t m = Some (g, m') → owner m = None.
Proof. unfold aquire, aquireWrite, aquireRead, lock, lock_shared. destruct g; case_decide; simpl; naive_solver. Qed.

Lemma linked_enter s0 x s t c m' :
  linked s0 x s → inside x !! t = None → allowed c → aquire (c_guard c) t (mutex x) = Some (c_guard c, m') →
  linked s0 (Conf (mem x) m' (<[t := (c, c_body c)]> (inside x)) (log x)) s.
Proof.
  intros [Hl Hk Hi Hm] Ht Hc%allowed_ok Ha. pose proof (Hm (owner_enter _ _ _ _ Ha)) as Hmem.
  split; simpl; [done|by eapply locked_enter| |by intros _].
  intros t' c' p' [[<- [= <- <-]]|[_ H]]%lookup_insert_Some; [by rewrite Hmem|by eapply Hi].
Qed.

Lemma linked_act s0 x s t c f k :
  linked s0 x s → inside x !! t = Some (c, Act f k) →
  linked s0 (Conf (f (mem x)) (mutex x) (<[t := (c, k (mem x))]> (inside x)) (log x)) s.
Proof.
  intros [Hl Hk Hi Hm] Ht. destruct (Hi t c _ Ht) as [Hrun Hro]. simpl in Hrun, Hro.
  split; simpl; [done|by eapply locked_act|..]; destruct (c_guard c) eqn:Hg.
  - intros t' c' p' [[<- [= <- <-]]|[Hne H]]%lookup_insert_Some; [split; [done|congruence]|].
    by rewrite (alone x t c _ t' c' p' Hk Ht Hg H) in Hne.
  - destruct (Hro eq_refl (mem x)) as [Hf Hro']. rewrite Hf in Hrun |- *.
    intros t' c' p' [[<- [= <- <-]]|[_ H]]%lookup_insert_Some; [done|by eapply Hi].
  - intros Hno. assert (owner (mutex x) = Some t) by (apply (lk_owner _ Hk); eauto). congruence.
  - destruct (Hro eq_refl (mem x)) as [-> _]. apply Hm.
Qed.

Lemma linked_leave s0 x s t c r m' :
  linked s0 x s → inside x !! t = Some (c, Done r) → end_scope (c_guard c) t (mutex x) = Ok m' →
  linked s0 (Conf (mem x) m' (delete t (inside x)) (log x ++ [(t, c, r)])) (mem x).
Proof.
  intros [Hl Hk Hi Hm] Ht He. destruct (Hi t c _ Ht) as [Hrun _]. simpl in Hrun.
  split; simpl; [by eapply serial_snoc|by eapply locked_leave| |done].
  intros t' c' p' [Hne H]%lookup_delete_Some. destruct (c_guard c) eqn:Hg.
  - by rewrite (alone x t c _ t' c' p' Hk Ht Hg H) in Hne.
  - destruct (Hi t' c' p' H) as [Hr Hro]. split; [|done]. rewrite Hr.
    by rewrite (Hm (shared_owner x t c _ Hk Ht Hg)).
Qed.

Lemma linked_step s0 x x' s : linked s0 x s → step x x' → ∃ s', linked s0 x' s'.
Proof.
  intros Hx []; [exists s; by apply linked_enter|exists s; by apply linked_act|].
  eexists. by eapply linked_leave.
Qed.

Lemma linked_steps s0 x x' s : linked s0 x s → rtc step x x' → ∃ s', linked s0 x' s'.
Proof.
  intros Hx Hr. revert s Hx. induction Hr as [|x x1 x2 Hst _ IH]; intros s Hx; [by exists s|].
  destruct (linked_step s0 x x1 s Hx Hst) as [s1 Hs1]. by eapply IH.
Qed.

(** ** Progress *)

(** A thread that is inside can always go on, and finishes. *)
Lemma finishes s0 x s t c p :
  linked s0 x s → inside x !! t = Some (c, p) →
  ∃ x', rtc step x x' ∧ inside x' = delete t (inside x).
Proof.
  revert x s. induction p as [r|f k IH]; intros x s Hx Ht.
  - destruct (end_scope (c_guard c) t (mutex x)) as [m'|e|u] eqn:He.
    + eexists. split; [apply rtc_once; by eapply step_leave|done].
    + unfold end_scope, unlock, unlock_shared in He. destruct (c_guard c); case_decide; done.
    + exfalso. destruct (li_locked _ _ _ Hx) as [Ho Hs _]. unfold end_scope, unlock, unlock_shared in He.
      destruct (c_guard c) eqn:Hg; case_decide as Hd; try done; apply Hd; [apply Ho|apply Hs]; eauto.
  - destruct (IH (mem x) _ s (linked_act _ _ _ _ _ _ _ Hx Ht)) as (x' & Hr & Hi); [apply lookup_insert_eq|].
    exists x'. split; [eapply rtc_l; [by eapply step_act|done]|]. rewrite Hi. simpl. by rewrite delete_insert_eq.
Qed.

Lemma quiesces s0 x s : linked s0 x s → ∃ x', rtc step x x' ∧ inside x' = ∅.
Proof.
  remember (size (inside x)) as n eqn:Hn. revert x s Hn. induction n as [|n IH]; intros x s Hn Hx.
  { exists x. split; [done|]. by apply map_size_empty_inv. }
  destruct (map_choose (inside x)) as (t & [c p] & Ht); [intros He; by rewrite He, map_size_empty in Hn|].
  destruct (finishes s0 x s t c p Hx Ht) as (x1 & Hr1 & Hi1).
  destruct (linked_steps s0 x x1 s Hx Hr1) as [s1 Hx1].
  destruct (IH x1 s1) as (x' & Hr' & Hi'); [|done|].
  { rewrite Hi1, map_size_delete_Some; [lia|by eauto]. }
  exists x'. split; [by etrans|done].
Qed.

(** What comes out of all this: the calls that have returned ran one after the
    other, calls that are inside together only read, and all those inside can
    finish. *)
Lemma concurrent_serial s0 x :
  rtc step (started s0) x →
  ∃ s, serial s0 (log x) s ∧ (inside x = ∅ → mem x = s) ∧
    (∀ t c p t' c' p', inside x !! t = Some (c, p) → inside x !! t' = Some (c', p') → t ≠ t' →
      readonly p ∧ readonly p') ∧
    ∃ x', rtc step x x' ∧ inside x' = ∅.
Proof.
  intros Hr. destruct (linked_steps s0 _ x s0 (linked_start s0) Hr) as [s Hs]. exists s. pose proof Hs as [Hl Hk Hi Hm]. split_and!; [done| | |].
  - intros He. apply Hm. destruct (owner (mutex x)) as [t|] eqn:Ho; [|done].
    apply (lk_owner _ Hk) in Ho as (c & p & Hin & _). by rewrite He, lookup_empty in Hin.
  - intros t c p t' c' p' Ht Ht' Hne.
    split; [apply (Hi t c p Ht); destruct (c_guard c) eqn:Hg|apply (Hi t' c' p' Ht'); destruct (c_guard c') eqn:Hg];
      [|done| |done]; exfalso; apply Hne; [symmetry|]; by eapply alone.
  - by eapply quiesces.
Qed.
End calls.
Arguments call : clear implicits.
Arguments conf : clear implicits.

(** ** Writing calls

    Code that may fail, as steps: [P S A] is to [prog] what [M S A] is to one
    call, and running all the steps at once is the call. *)

Definition P (S A : Type) : Type := prog S (outcome A).

#[export] Instance P_ret {S} : MRet (P S) := λ A a, Done (Ok a).
#[export] Instance P_bind {S} : MBind (P S) := λ A B k,
  fix go (p : prog S (outcome A)) : prog S (outcome B) :=
    match p with
    | Done (Ok a) => k a
    | Done (Throw e) => Done (Throw e)
    | Done (Undef u) => Done (Undef u)
    | Act f q => Act f (λ s, go (q s))
    end.

(** A call of something else, as one step. *)
Definition atomic {S A} (m : M S A) : P S A := Act (λ s, (m s).1) (λ s, Done (m s).2).

Fixpoint forP {S A} (l : list A) (f : A → P S ()) : P S () :=
  match l with
  | [] => mret ()
  | a :: l => f a ≫= λ _, forP l f
  end.

Definition implements {S A} (p : P S A) (m : M S A) : Prop := ∀ s, run_prog p s = m s.

Section implements.
Context {S : Type}.

Lemma implements_ret {A} (a : A) : implements (mret a : P S A) (mret a).
Proof. done. Qed.
Lemma implements_atomic {A} (m : M S A) : implements (atomic m) m.
Proof. intros s. simpl. by destruct (m s). Qed.
Lemma implements_lift {A} (o : outcome A) : implements (Done o : P S A) (liftO o).
Proof. done. Qed.
Lemma implements_bind {A B} (p : P S A) (m : M S A) (k : A → P S B) (k' : A → M S B) :
  implements p m → (∀ a, implements (k a) (k' a)) → implements (p ≫= k) (m ≫= k').
Proof.
  intros Hp Hk s. unfold mbind at 2, M_bind. rewrite <-Hp. clear Hp. revert s.
  induction p as [[a|e|u]|f q IH]; intros s; [apply Hk|done..|]. apply IH.
Qed.
Lemma implements_forM {A} (l : list A) (f : A → P S ()) (f' : A → M S ()) :
  (∀ a, implements (f a) (f' a)) → implements (forP l f) (forM l f').
Proof. intros Hf. induction l; [apply implements_ret|]. apply implements_bind; [apply Hf|done]. Qed.

Lemma readonly_atomic {A} (m : M S A) : (∀ s, (m s).1 = s) → readonly (atomic m).
Proof. intros Hm s. split; [apply Hm|done]. Qed.
Lemma readonly_bind {A B} (p : P S A) (k : A → P S B) :
  readonly p → (∀ a, readonly (k a)) → readonly (p ≫= k).
Proof.
  intros Hp Hk. induction p as [[a|e|u]|f q IH]; [apply Hk|done..|].
  intros s. destruct (Hp s) as [Hf Hq]. split; [done|]. by apply IH.
Qed.
End implements.

Create HintDb implements.
#[export] Hint Resolve implements_ret implements_atomic implements_lift : implements.

(** Steps that follow the call line by line. *)
Ltac follow_one :=
  match goal with
  | |- implements (_ ≫= _) _ => apply implements_bind; [|intros ?]
  | |- implements (forP _ _) _ => apply implements_forM; intros ?
  | |- implements (match _ with _ => _ end) _ => case_match
  | |- implements (let _ := _ in _) _ => cbv zeta
  | |- implements _ _ => solve [eauto 2 with implements]
  end.
Ltac follow := repeat follow_one.
