(* ===== verification/Rely.v ===== *)
(** * Threads that tolerate each other

    Calls taken apart into steps ([Locks.prog]) that share a state without a
    lock around them. [goes R G Q p s]: however the others change the state
    between the steps of [p], as long as they stay within [R], every step of
    [p] stays within [G] and [p] ends in [Q]. Threads of which each tolerates
    what the others do can be put side by side ([pool_goes]). *)

From S2P Require Import Prelude Cxx Locks.

Section goes.
Context {S A : Type} (R G : S → S → Prop) (Q : A → S → Prop).
Implicit Types p : prog S A.

Fixpoint goes p (s : S) : Prop :=
  match p with
  | Done r => ∀ s1, R s s1 → Q r s1
  | Act f k => ∀ s1, R s s1 → G s1 (f s1) ∧ goes (k s1) (f s1)
  end.

Context {HR : PreOrder R}.

(** What is true of a thread stays true while others step. *)
Lemma goes_stable p s s1 : R s s1 → goes p s → goes p s1.
Proof. intros Hs. destruct p as [r|f k]; simpl; intros Hp s2 Hs2; apply Hp; by etrans. Qed.

Lemma goes_step f k s : goes (Act f k) s → G s (f s) ∧ goes (k s) (f s).
Proof. intros Hp. by apply Hp. Qed.
Lemma goes_done r s : goes (Done r) s → Q r s.
Proof. intros Hp. by apply Hp. Qed.
End goes.

(** ** Calls that may fail *)

Section outcomes.
Context {S : Type} (R G : S → S → Prop) {HR : PreOrder R}.

Lemma goes_ret {A} (Q : outcome A → S → Prop) (a : A) s :
  (∀ s1, R s s1 → Q (Ok a) s1) → goes R G Q (mret a : P S A) s.
Proof. done. Qed.

Lemma goes_value {A B} (Q : outcome B → S → Prop) (a : A) (k : A → P S B) s :
  goes R G Q (k a) s → goes R G Q ((Done (Ok a) : P S A) ≫= k) s.
Proof. done. Qed.

(** One step that returns, whatever the others did before. *)
Lemma goes_atomic {A} (Q : outcome A → S → Prop) (m : M S A) s :
  (∀ s1, R s s1 → ∃ a s2, runs m s1 a s2 ∧ G s1 s2 ∧ ∀ s3, R s2 s3 → Q (Ok a) s3) →
  goes R G Q (atomic m) s.
Proof.
  intros Hm s1 Hs1. destruct (Hm s1 Hs1) as (a & s2 & Hr & HG & HQ). simpl. rewrite (Hr : _ = _). split; [exact HG|exact HQ].
Qed.

Lemma goes_bind {A B} (Q : outcome B → S → Prop) (p : P S A) (k : A → P S B) s :
  goes R G (λ o s1, ∃ a, o = Ok a ∧ goes R G Q (k a) s1) p s → goes R G Q (p ≫= k) s.
Proof.
  revert s. induction p as [o|f q IH]; intros s Hp; simpl in Hp.
  - destruct (Hp s) as (a & -> & Ha); [done|]. exact Ha.
  - intros s1 Hs1. destruct (Hp s1 Hs1) as [HG Hq]. split; [done|]. by apply IH.
Qed.

Lemma goes_mono {A} (Q Q' : A → S → Prop) (p : prog S A) s :
  (∀ r s1, Q r s1 → Q' r s1) → goes R G Q p s → goes R G Q' p s.
Proof.
  intros HQ. revert s. induction p as [r|f k IH]; intros s Hp; simpl in *.
  - intros s1 Hs1. by apply HQ, Hp.
  - intros s1 Hs1. destruct (Hp s1 Hs1). split; [done|]. by apply IH.
Qed.

(** A step from an assertion the others keep to one they keep. *)
Lemma goes_call {A B} (I : S → Prop) (J : A → S → Prop) (Q : outcome B → S → Prop) (m : M S A) (k : A → P S B) s :
  (∀ s1 s2, R s1 s2 → I s1 → I s2) → I s →
  (∀ s1, I s1 → ∃ a s2, runs m s1 a s2 ∧ G s1 s2 ∧ J a s2) →
  (∀ a s1, J a s1 → goes R G Q (k a) s1) →
  goes R G Q (atomic m ≫= k) s.
Proof.
  intros HI Hs Hm Hk. apply goes_bind, goes_atomic. intros s1 Hs1.
  destruct (Hm s1 (HI s s1 Hs1 Hs)) as (a & s2 & Hr & HG & HJ). exists a, s2. split_and!; [done..|].
  intros s3 Hs3. exists a. split; [done|]. eapply goes_stable; [done|exact Hs3|]. by apply Hk.
Qed.
End outcomes.

(** ** Side by side *)

Section pool.
Context {S A : Type}.

Definition pool : Type := S * gmap nat (prog S A).
Implicit Types x : pool.

Inductive pool_step x : pool → Prop :=
  | pool_act t f k : x.2 !! t = Some (Act f k) → pool_step x (f x.1, <[t := k x.1]> x.2).

(** The next step of a thread. *)
Definition pool_go (t : nat) x : pool :=
  match x.2 !! t with Some (Act f k) => (f x.1, <[t := k x.1]> x.2) | _ => x end.

Lemma pool_go_steps ts x : rtc pool_step x (foldl (flip pool_go) x ts).
Proof.
  revert x. induction ts as [|t ts IH]; intros x; simpl; [done|]. unfold pool_go at 2.
  destruct (x.2 !! t) as [[r|f k]|] eqn:Ht; simpl; try apply IH. eapply rtc_l; [by eapply pool_act|apply IH].
Qed.

Lemma pool_step_dom x x' : pool_step x x' → dom x'.2 = dom x.2.
Proof. intros [t f k Ht]. simpl. rewrite dom_insert_L. apply elem_of_dom_2 in Ht. set_solver. Qed.
Lemma pool_dom x x' : rtc pool_step x x' → dom x'.2 = dom x.2.
Proof. intros Hr. induction Hr as [|x1 x2 x3 Hs _ IH]; [done|]. by rewrite IH, (pool_step_dom _ _ Hs). Qed.

(** What a thread has returned. *)
Definition returned (ts : gmap nat (prog S A)) (t : nat) : option A :=
  match ts !! t with Some (Done r) => Some r | _ => None end.
Lemma returned_Some ts t r : returned ts t = Some r → ts !! t = Some (Done r).
Proof. unfold returned. destruct (ts !! t) as [[]|]; congruence. Qed.

(** A thread that runs on its own. *)
Lemma pool_solo p s ts t :
  ts !! t = Some p → rtc pool_step (s, ts) ((run_prog p s).1, <[t := Done (run_prog p s).2]> ts).
Proof.
  revert s ts. induction p as [r|f k IH]; intros s ts Ht; [by rewrite insert_id|].
  eapply rtc_l; [by eapply pool_act|]. simpl.
  rewrite <-(insert_insert_eq ts t (Done (run_prog (k s) (f s)).2) (k s)). apply IH, lookup_insert_eq.
Qed.

Context (R G : nat → S → S → Prop) (Q : nat → A → S → Prop) {HR : ∀ t, PreOrder (R t)}.
Context (HG : ∀ t u s s', t ≠ u → G t s s' → R u s s').

Definition all_go x : Prop := ∀ t p, x.2 !! t = Some p → goes (R t) (G t) (Q t) p x.1.

Lemma all_go_step x x' : all_go x → pool_step x x' → all_go x'.
Proof.
  intros Hx [t f k Ht] u p. simpl. destruct (goes_step _ _ _ f k x.1 (Hx t _ Ht)) as [Hs Hk].
  rewrite lookup_insert. case_decide as Htu; [subst u; by intros [= <-]|].
  intros Hu. eapply goes_stable; [done|by apply (HG t)|by apply Hx].
Qed.

(** Every thread keeps its promise. *)
Lemma pool_goes x x' : all_go x → rtc pool_step x x' → all_go x'.
Proof. intros Hx Hr. induction Hr; eauto using all_go_step. Qed.
Lemma pool_done x x' t r : all_go x → rtc pool_step x x' → x'.2 !! t = Some (Done r) → Q t r x'.1.
Proof. intros Hx Hr Ht. eapply goes_done; [done|]. by apply (pool_goes x x' Hx Hr t). Qed.
End pool.

(** One step of a call. *)
Section acts.
Context {S : Type}.

Definition acts {A} (p : prog S A) (s : S) (p' : prog S A) (s' : S) : Prop :=
  ∃ f k, p = Act f k ∧ p' = k s ∧ s' = f s.

Lemma acts_call {A B} (m : M S A) (k : A → P S B) s a s' :
  runs m s a s' → acts (atomic m ≫= k) s (k a) s'.
Proof. intros Hr. eexists _, _. split; [done|]. simpl. by rewrite (Hr : _ = _). Qed.
Lemma acts_bind {A B} (p p' : P S A) (k : A → P S B) s s' :
  acts p s p' s' → acts (p ≫= k) s (p' ≫= k) s'.
Proof. intros (f & q & -> & -> & ->). by eexists _, _. Qed.
Lemma acts_pool {A} (p p' : prog S A) s s' ts t :
  ts !! t = Some p → acts p s p' s' → pool_step (s, ts) (s', <[t := p']> ts).
Proof. intros Ht (f & k & -> & -> & ->). by apply (pool_act (s, ts)). Qed.
End acts.

(** All of them can finish: no step waits for another thread. *)
Section finish.
Context {S A : Type}.
Implicit Types x : @pool S A.

Definition finished (p : prog S A) : Prop := ∃ r, p = Done r.

Lemma thread_finishes x t p :
  x.2 !! t = Some p → ∃ x' r, rtc pool_step x x' ∧ x'.2 = <[t := Done r]> x.2.
Proof.
  revert x. induction p as [r|f k IH]; intros x Ht; [by exists x, r; rewrite insert_id|].
  destruct (IH x.1 (f x.1, <[t := k x.1]> x.2)) as (x' & r & Hr & Hx'); [apply lookup_insert_eq|].
  exists x', r. split; [eapply rtc_l; [by eapply pool_act|done]|]. rewrite Hx'. simpl. by rewrite insert_insert_eq.
Qed.

Lemma pool_finishes x : ∃ x', rtc pool_step x x' ∧ map_Forall (λ _, finished) x'.2 ∧ dom x'.2 = dom x.2.
Proof.
  assert (∀ (ts : list nat) x, ∃ x', rtc pool_step x x' ∧ dom x'.2 = dom x.2 ∧
    (∀ t p, x'.2 !! t = Some p → t ∈ ts ∨ (∃ p0, x.2 !! t = Some p0 ∧ finished p0) → finished p)) as Hts.
  { induction ts as [|t ts IH]; intros y.
    { exists y. split_and!; [done..|]. intros t p Ht [?%elem_of_nil|(p0 & H0 & Hf)]; [done|by simplify_eq]. }
    destruct (y.2 !! t) as [p|] eqn:Ht.
    - destruct (thread_finishes y t p Ht) as (y1 & r & Hr1 & Hy1). destruct (IH y1) as (y2 & Hr2 & Hd2 & Hf2).
      exists y2. split_and!; [by etrans|rewrite Hd2, Hy1, dom_insert_L; apply elem_of_dom_2 in Ht; set_solver|].
      intros u q Hu Hor. apply (Hf2 u q Hu). rewrite Hy1, lookup_insert.
      case_decide as Hne; [right; exists (Done r); split; [done|by exists r]|].
      destruct Hor as [[->|?]%elem_of_cons|?]; [done|by left|by right].
    - destruct (IH y) as (y2 & Hr2 & Hd2 & Hf2). exists y2. split_and!; [done..|].
      intros u q Hu Hor. apply (Hf2 u q Hu). destruct Hor as [[->|?]%elem_of_cons|?]; [|by left|by right].
      apply elem_of_dom_2 in Hu. rewrite Hd2 in Hu. by apply not_elem_of_dom in Ht. }
  destruct (Hts (elements (dom x.2)) x) as (x' & Hr & Hd & Hf). exists x'. split_and!; [done| |done].
  intros t p Ht. apply (Hf t p Ht). left. apply elem_of_elements. rewrite <-Hd. by apply elem_of_dom_2 in Ht.
Qed.
End finish.
