(* ===== verification/BinaryIO.v ===== *)
(** * Binary files (index/baselines/io.h)

    A file is the list of its bytes; an output stream is what was written so
    far, an input stream what is left to read. Numbers are written as their
    object representation (little-endian two's complement), strings as a
    [size_t] length and the bytes. [fread] at the end of the file overwrites
    only the first bytes of its destination. *)

From Stdlib Require Export Ascii.
From S2P Require Import Prelude Cxx.

Abbreviation file := (list ascii).

(** ** Object representation of integers *)

(** A C++ integer type: how many bytes, and whether it is signed. *)
Record scalar := Scalar { width : nat; signed : bool }.

Definition size_t : scalar := Scalar 8 false.
(** [faiss::idx_t] is [int64_t]. *)
Definition idx_t : scalar := Scalar 8 true.
Definition int_t : scalar := Scalar 4 true.

Definition byte_of_Z (z : Z) : ascii := ascii_of_N (Z.to_N (z `mod` 256)).
Definition Z_of_byte (b : ascii) : Z := Z.of_N (N_of_ascii b).

Fixpoint le_encode (n : nat) (z : Z) : file :=
  match n with
  | 0 => []
  | S n => byte_of_Z z :: le_encode n (z `div` 256)
  end.
Fixpoint le_decode (l : file) : Z :=
  match l with
  | [] => 0
  | b :: l => Z_of_byte b + 256 * le_decode l
  end%Z.

Definition modulus (t : scalar) : Z := 2 ^ (8 * Z.of_nat (width t)).

(** The value an object representation stands for. *)
Definition to_value (t : scalar) (z : Z) : Z :=
  if signed t && (modulus t / 2 <=? z)%Z then (z - modulus t)%Z else z.

Definition in_range (t : scalar) (z : Z) : Prop :=
  if signed t then (- (modulus t / 2) ≤ z < modulus t / 2)%Z
  else (0 ≤ z < modulus t)%Z.

(** ** stdio *)

Definition fwrite (bytes : file) (fd : file) : file := fd ++ bytes.

(** [fread(dst, 1, sizeof dst, fd)]: the destination afterwards and the rest
    of the stream. *)
Definition fread (dst : file) (fd : file) : file * file :=
  (take (length dst) fd ++ drop (length fd) dst, drop (length dst) fd).

(** ** writeBinary / readBinary *)

Definition writeBinary (t : scalar) (fd : file) (value : Z) : file :=
  fwrite (le_encode (width t) value) fd.

Definition writeBinary_string (fd : file) (value : string) : file :=
  let fd := fwrite (le_encode 8 (Z.of_nat (String.length value))) fd in
  fwrite (String.list_ascii_of_string value) fd.

Definition readBinary (t : scalar) (fd : file) (value : Z) : Z * file :=
  let '(dst, fd) := fread (le_encode (width t) value) fd in
  (to_value t (le_decode dst), fd).

(** [std::string::resize] fills with NUL; [max_size()] bounds it. *)
Definition string_max_size : Z := 2 ^ 63 - 1.
Definition string_resize (s : string) (sz : nat) : file :=
  let l := String.list_ascii_of_string s in
  take sz l ++ replicate (sz - length l) Ascii.zero.

Definition readBinary_string (fd : file) (value : string) : outcome (string * file) :=
  let '(sz, fd) := readBinary size_t fd 0 in
  if (string_max_size <? sz)%Z then Throw LengthError
  else
    let '(dst, fd) := fread (string_resize value (Z.to_nat sz)) fd in
    Ok (String.string_of_list_ascii dst, fd).

(** ** Round trips *)

Lemma length_le_encode n z : length (le_encode n z) = n.
Proof. revert z. induction n; intros; simpl; auto. Qed.

Lemma Z_of_byte_of_Z z : Z_of_byte (byte_of_Z z) = (z `mod` 256)%Z.
Proof.
  unfold Z_of_byte, byte_of_Z. pose proof (Z.mod_pos_bound z 256).
  rewrite N_ascii_embedding by lia. lia.
Qed.

Lemma le_decode_encode n z :
  le_decode (le_encode n z) = (z `mod` 2 ^ (8 * Z.of_nat n))%Z.
Proof.
  revert z. induction n as [|n IH]; intros z; [by rewrite Z.mod_1_r|].
  cbn [le_encode le_decode]. rewrite Z_of_byte_of_Z, IH.
  replace (8 * Z.of_nat (S n))%Z with (8 + 8 * Z.of_nat n)%Z by lia.
  rewrite Z.pow_add_r by lia. change (2 ^ 8)%Z with 256%Z.
  rewrite Z.rem_mul_r by lia. lia.
Qed.

Lemma fread_exact dst bytes rest :
  length bytes = length dst → fread dst (bytes ++ rest) = (bytes, rest).
Proof.
  intros H. unfold fread. rewrite <-H, take_app_length, drop_app_length.
  rewrite drop_ge, app_nil_r by (rewrite length_app; lia). done.
Qed.

Lemma modulus_pos t : (0 < modulus t)%Z.
Proof. unfold modulus. apply Z.pow_pos_nonneg; lia. Qed.

Lemma to_value_range t z :
  in_range t z → 0 < width t → to_value t (z `mod` modulus t) = z.
Proof.
  unfold in_range, to_value. intros Hr Hw.
  assert (∃ h, modulus t = (2 * h)%Z ∧ (0 < h)%Z) as (h & Hm & Hh).
  { exists (2 ^ (8 * Z.of_nat (width t) - 1))%Z. unfold modulus. split.
    - rewrite <-Z.pow_succ_r by lia. f_equal. lia.
    - apply Z.pow_pos_nonneg; lia. }
  assert (modulus t / 2 = h)%Z as Hd by (rewrite Hm, Z.mul_comm; by apply Z.div_mul).
  rewrite Hd in *. destruct (signed t); simpl; [|by apply Z.mod_small].
  destruct (decide (0 ≤ z)%Z).
  - rewrite Z.mod_small by lia. destruct (Z.leb_spec h z); lia.
  - rewrite <-(Z.mod_add z 1) by lia. rewrite Z.mod_small by lia.
    destruct (Z.leb_spec h (z + 1 * modulus t)); lia.
Qed.

Lemma in_range_size_t z : in_range size_t z ↔ (0 ≤ z < u64_modulus)%Z.
Proof. done. Qed.
Lemma in_range_idx_t z : in_range idx_t z ↔ (- 2 ^ 63 ≤ z < 2 ^ 63)%Z.
Proof. done. Qed.

Lemma readBinary_writeBinary t v v0 rest :
  in_range t v → 0 < width t →
  readBinary t (writeBinary t [] v ++ rest) v0 = (v, rest).
Proof.
  intros Hr Hw. unfold readBinary, writeBinary, fwrite. rewrite app_nil_l.
  rewrite fread_exact by (by rewrite !length_le_encode).
  by rewrite le_decode_encode, to_value_range.
Qed.

Lemma writeBinary_app t fd v : writeBinary t fd v = fd ++ writeBinary t [] v.
Proof. done. Qed.
Lemma writeBinary_string_app fd s :
  writeBinary_string fd s = fd ++ writeBinary_string [] s.
Proof. unfold writeBinary_string, fwrite. by rewrite <-!app_assoc. Qed.

Lemma length_list_ascii s : length (String.list_ascii_of_string s) = String.length s.
Proof. induction s; simpl; auto. Qed.

Lemma length_string_resize s n : length (string_resize s n) = n.
Proof. unfold string_resize. rewrite length_app, length_take, length_replicate. lia. Qed.

Lemma readBinary_string_writeBinary s s0 rest :
  (Z.of_nat (String.length s) ≤ string_max_size)%Z →
  readBinary_string (writeBinary_string [] s ++ rest) s0 = Ok (s, rest).
Proof.
  intros Hs. unfold readBinary_string, writeBinary_string, fwrite.
  rewrite <-app_assoc, app_nil_l.
  change (le_encode 8 (Z.of_nat (String.length s)))
    with (writeBinary size_t [] (Z.of_nat (String.length s))).
  rewrite readBinary_writeBinary; [|apply in_range_size_t|simpl; lia];
    [|unfold string_max_size, u64_modulus in *; lia].
  destruct (Z.ltb_spec string_max_size (Z.of_nat (String.length s))); [lia|].
  rewrite Nat2Z.id, fread_exact
    by (rewrite length_string_resize; apply length_list_ascii).
  by rewrite String.string_of_list_ascii_of_string.
Qed.

#[global] Arguments writeBinary : simpl never.
#[global] Arguments writeBinary_string : simpl never.
#[global] Arguments readBinary : simpl never.
#[global] Arguments readBinary_string : simpl never.
#[global] Arguments fwrite : simpl never.
