(* ===== verification/StorageClient.v ===== *)
(** * The object store (app/src/StorageClient.cpp)

    Segments travel from writers to searchers as objects in S3: [putObject]
    uploads a file of the working directory under its name, [getObject] writes
    it back to one. S3 is a service reached through a library: [S3] lists the
    calls made, [S3Laws] what a successful one does; [s3_ref] keeps objects in
    a map. The bucket of an index is named after [std::hash] of its id. *)

From S2P Require Import Prelude Cxx Floats BinaryIO.

(** The files of the working directory. *)
Abbreviation dir := (gmap string file).

Class S3 := {
  s3 : Type;
  (** [ListBuckets().IsSuccess()] with these credentials *)
  s3_login : s3 → string → string → bool;
  (** [PutObject], [GetObject], [DeleteObject], [CreateBucket] *)
  s3_put : s3 → string → string → file → s3 * bool;
  s3_get : s3 → string → string → option file;
  s3_del : s3 → string → string → s3 * bool;
  s3_create : s3 → string → s3 * bool;
  (** [std::hash<std::string>] *)
  std_hash : string → Z;
}.

Class S3Laws (S : S3) := {
  (** bucket and key to object *)
  s3_view : s3 → gmap (string * string) file;
  s3_put_spec s b k f s' : s3_put s b k f = (s', true) → s3_view s' = <[(b, k) := f]> (s3_view s);
  s3_get_spec s b k f : s3_get s b k = Some f → s3_view s !! (b, k) = Some f;
  s3_del_spec s b k s' : s3_del s b k = (s', true) → s3_view s' = delete (b, k) (s3_view s);
  s3_create_spec s b s' : s3_create s b = (s', true) → s3_view s' = s3_view s;
}.

(** ** [ss << std::hex << n] *)

Definition hex_digit (d : Z) : ascii :=
  Ascii.ascii_of_nat (Z.to_nat (if (d <? 10)%Z then 48 + d else 87 + d)).

Fixpoint hex_digits (fuel : nat) (z : Z) (acc : string) : string :=
  match fuel with
  | 0 => acc
  | S fuel =>
    let acc := String (hex_digit (z `mod` 16)) acc in
    if (z <? 16)%Z then acc else hex_digits fuel (z `div` 16) acc
  end.

(** A [size_t] has at most 16 of them. *)
Definition hex_of_u64 (z : Z) : string := hex_digits 16 (u64 z) "".

(** ** The client *)

Record storage (S : S3) := Storage {
  (** the service *)
  st_objects : s3;
  (** [s3Client.has_value()] *)
  s3Client : bool;
  (** the working directory of the process *)
  st_dir : dir;
}.
Arguments Storage {_} _ _ _.
Arguments st_objects {_} _.
Arguments s3Client {_} _.
Arguments st_dir {_} _.

Section client.
Context {S : S3}.

Definition with_objects (s : storage S) (o : s3) : storage S := Storage o (s3Client s) (st_dir s).
Definition with_dir (s : storage S) (d : dir) : storage S := Storage (st_objects s) (s3Client s) d.

(** The constructor of a client of the service [o], in a working directory;
    there is nobody logged in yet. *)
Definition StorageClient_new (o : s3) (d : dir) : storage S := Storage o false d.

(** The destructor: the objects and the files stay. *)
Definition StorageClient_destroy (s : storage S) : storage S := Storage (st_objects s) false (st_dir s).

Definition makeBucketName (name : string) : string := "000" +:+ hex_of_u64 (std_hash name).

(** [s3Client.emplace(...)] happens whether the check succeeds or not. *)
Definition logIn (login password : string) : M (storage S) bool := λ s,
  (Storage (st_objects s) true (st_dir s), Ok (s3_login (st_objects s) login password)).

(** [s3Client->...] *)
Definition with_client {A} (m : M (storage S) A) : M (storage S) A := λ s,
  if s3Client s then m s else (s, Undef NullDeref).

Definition putObject (bucket_name filename : string) : M (storage S) bool := λ s,
  match st_dir s !! filename with
  | None => (s, Ok false)
  | Some input =>
    with_client (λ s,
      let '(o, ok) := s3_put (st_objects s) (makeBucketName bucket_name) filename input in
      (with_objects s o, Ok ok)) s
  end.

Definition getObject (bucket_name filename : string) : M (storage S) bool :=
  with_client (λ s,
    match s3_get (st_objects s) (makeBucketName bucket_name) filename with
    | None => (s, Ok false)
    | Some body => (with_dir s (<[filename := body]> (st_dir s)), Ok true)
    end).

Definition delObject (bucket_name filename : string) : M (storage S) bool :=
  with_client (λ s,
    let '(o, ok) := s3_del (st_objects s) (makeBucketName bucket_name) filename in
    (with_objects s o, Ok ok)).

Definition createBucket (bucket_name : string) : M (storage S) bool :=
  with_client (λ s,
    let '(o, ok) := s3_create (st_objects s) (makeBucketName bucket_name) in
    (with_objects s o, Ok ok)).

(** [std::remove(filename)] *)
Definition remove_file (filename : string) : M (storage S) () :=
  modify (λ s, with_dir s (delete filename (st_dir s))).
End client.

(** ** What the calls do *)

Section client_spec.
Context {S : S3} {SLW : S3Laws S}.
Implicit Types s : storage S.

Definition objects s : gmap (string * string) file := s3_view (st_objects s).

Lemma putObject_ok b k s s' :
  runs (putObject b k) s true s' →
  ∃ f, st_dir s !! k = Some f ∧ s3Client s' = s3Client s ∧ st_dir s' = st_dir s ∧
    objects s' = <[(makeBucketName b, k) := f]> (objects s).
Proof.
  unfold runs, putObject, with_client. destruct (st_dir s !! k) as [f|]; [|done].
  destruct (s3Client s) eqn:Ec; [|done].
  destruct (s3_put _ _ _ _) as [o ok] eqn:E. intros [= <- ->].
  exists f. split_and!; [done..|]. by apply s3_put_spec.
Qed.

Lemma getObject_ok b k s s' :
  runs (getObject b k) s true s' →
  ∃ f, objects s !! (makeBucketName b, k) = Some f ∧
    s' = with_dir s (<[k := f]> (st_dir s)).
Proof.
  unfold runs, getObject, with_client. destruct (s3Client s) eqn:Ec; [|done].
  destruct (s3_get _ _ _) as [f|] eqn:E; [|done]. intros [= <-].
  exists f. split; [by apply s3_get_spec|done].
Qed.

Lemma delObject_ok b k s s' :
  runs (delObject b k) s true s' →
  st_dir s' = st_dir s ∧ objects s' = delete (makeBucketName b, k) (objects s).
Proof.
  unfold runs, delObject, with_client. destruct (s3Client s) eqn:Ec; [|done].
  destruct (s3_del _ _ _) as [o ok] eqn:E. intros [= <- ->].
  split; [done|]. by apply s3_del_spec.
Qed.
End client_spec.

(** ** S3 in memory *)

(** A polynomial hash, for evaluation. *)
Definition poly_hash (s : string) : Z :=
  foldl (λ h c, u64 (h * 31 + Z.of_N (Ascii.N_of_ascii c))) 7%Z (String.list_ascii_of_string s).

Definition s3_ref : S3 := {|
  s3 := gmap (string * string) file;
  s3_login _ _ _ := true;
  s3_put m b k f := (<[(b, k) := f]> m, true);
  s3_get m b k := m !! (b, k);
  s3_del m b k := (delete (b, k) m, true);
  s3_create m b := (m, true);
  std_hash := poly_hash;
|}.

Definition s3_ref_laws : S3Laws s3_ref.
Proof.
  refine {| s3_view := λ m : @s3 s3_ref, m |}; simpl; try done; by intros; simplify_eq.
Defined.
