(* ===== verification/FaissRef.v ===== *)
(** * A brute-force implementation of the FAISS interface

    [flat_ref] keeps the vectors in a list and searches by sorting all
    distances, computed in binary32. It satisfies [FaissLaws]; the concrete
    runs of the other files use it. *)

From S2P Require Import Prelude Cxx Floats BinaryIO Faiss.

Record flat := Flat {
  fl_d : nat;
  fl_metric : MetricType;
  fl_flat : bool;
  fl_vecs : list (list f32);
}.

(** ** Distances *)

Definition f32_zero : f32 := S754_zero false.
Definition f32_diff (a b : f32) : f32 := SFsub 24 128 a b.
Definition f32_max (a b : f32) : f32 := if flt a b then b else a.
Definition nan_to_inf (x : f32) : f32 := if is_nan x then S754_infinity false else x.

Definition flat_dist (m : MetricType) (q v : list f32) : f32 :=
  let diffs := zip_with f32_diff q v in
  nan_to_inf
    match m with
    | METRIC_L1 => foldr (λ x acc, SFadd 24 128 (SFabs x) acc) f32_zero diffs
    | METRIC_L2 => foldr (λ x acc, SFadd 24 128 (SFmul 24 128 x x) acc) f32_zero diffs
    | METRIC_Linf => foldr (λ x acc, f32_max (SFabs x) acc) f32_zero diffs
    end.

Lemma flat_dist_not_nan m q v : not_nan (flat_dist m q v).
Proof.
  unfold flat_dist. match goal with |- not_nan (nan_to_inf ?x) => by destruct x end.
Qed.

(** ** The operations *)

(** Rows always have the index's dimension. *)
Definition flat_norm (d : nat) (v : list f32) : list f32 :=
  take d (v ++ replicate d f32_zero).

Definition flat_reconstruct (b : flat) (l : Z) : list f32 :=
  flat_norm (fl_d b) (default [] (fl_vecs b !! Z.to_nat l)).

Definition flat_add (b : flat) (n : nat) (buf : list f32) : flat :=
  Flat (fl_d b) (fl_metric b) (fl_flat b) (fl_vecs b ++ chunks (fl_d b) n buf).

Definition flat_rows (b : flat) (q : list f32) : list (f32 * Z) :=
  imap (λ l v, (flat_dist (fl_metric b) q (flat_norm (fl_d b) v), Z.of_nat l)) (fl_vecs b).

Definition flat_search (b : flat) (q : list f32) (k : nat) : outcome (list (f32 * Z)) :=
  if decide (k = 0) then Throw (RuntimeError "k > 0")
  else
    let best := take k (insertion_sort (lex_lt Z.ltb) (flat_rows b q)) in
    Ok (best ++ replicate (k - length best) (f32_zero, -1)%Z).

(** ** Writing an index to a file *)

Definition float_code (x : spec_float) : option (bool * option (option (positive * Z))) :=
  match x with
  | S754_nan => None
  | S754_zero s => Some (s, None)
  | S754_infinity s => Some (s, Some None)
  | S754_finite s m e => Some (s, Some (Some (m, e)))
  end.
Definition float_uncode (c : option (bool * option (option (positive * Z)))) : spec_float :=
  match c with
  | None => S754_nan
  | Some (s, None) => S754_zero s
  | Some (s, Some None) => S754_infinity s
  | Some (s, Some (Some (m, e))) => S754_finite s m e
  end.

#[export] Instance spec_float_countable : Countable spec_float.
Proof. apply (inj_countable' float_code float_uncode). by intros []. Defined.

Definition metric_code (m : MetricType) : option bool :=
  match m with METRIC_L1 => None | METRIC_L2 => Some true | METRIC_Linf => Some false end.
Definition metric_uncode (c : option bool) : MetricType :=
  match c with None => METRIC_L1 | Some true => METRIC_L2 | Some false => METRIC_Linf end.

Definition flat_code (b : flat) : nat * option bool * bool * list (list spec_float) :=
  (fl_d b, metric_code (fl_metric b), fl_flat b, fl_vecs b).
Definition flat_uncode (c : nat * option bool * bool * list (list spec_float)) : flat :=
  let '(d, m, f, vs) := c in Flat d (metric_uncode m) f vs.

Lemma flat_uncode_code b : flat_uncode (flat_code b) = b.
Proof. by destruct b as [? [] ? ?]. Qed.

Fixpoint pos_bits (p : positive) : file :=
  match p with
  | xH => ["2"%char]
  | xO p => "0"%char :: pos_bits p
  | xI p => "1"%char :: pos_bits p
  end.
Fixpoint parse_pos (f : file) : option (positive * file) :=
  match f with
  | [] => None
  | c :: f =>
    if decide (c = "2"%char) then Some (xH, f)
    else '(p, f) ← parse_pos f;
         Some (if decide (c = "0"%char) then (xO p, f) else (xI p, f))
  end.

Lemma parse_pos_bits p rest : parse_pos (pos_bits p ++ rest) = Some (p, rest).
Proof. induction p as [p IH|p IH|]; simpl; [rewrite IH..|]; done. Qed.

Definition flat_write (b : flat) : file := pos_bits (encode (flat_code b)).
Definition flat_read (f : file) : outcome (flat * file) :=
  match parse_pos f with
  | Some (p, rest) =>
    match decode p with
    | Some c => Ok (flat_uncode c, rest)
    | None => Throw StdException
    end
  | None => Throw StdException
  end.

Definition flat_make (a : index_args) : flat :=
  Flat (args_dim a) (args_metric a) (bool_decide (args_kind a = IndexFlat)) [].

#[export] Instance flat_ref : Faiss := {|
  BI := flat;
  bi_make := flat_make;
  bi_d := fl_d;
  bi_ntotal b := length (fl_vecs b);
  bi_metric := fl_metric;
  bi_flat := fl_flat;
  bi_add := flat_add;
  bi_search := flat_search;
  bi_reconstruct := flat_reconstruct;
  bi_write := flat_write;
  bi_read := flat_read;
  metric_dist := flat_dist;
|}.

(** ** The laws hold *)

Lemma length_flat_norm d v : length (flat_norm d v) = d.
Proof. unfold flat_norm. rewrite length_take, length_app, length_replicate. lia. Qed.
Lemma flat_norm_id d v : length v = d → flat_norm d v = v.
Proof. intros <-. apply take_app_length. Qed.

Lemma flat_vecs (b : flat) : bi_vecs (b : BI) = flat_norm (fl_d b) <$> fl_vecs b.
Proof.
  apply list_eq. intros i. apply option_eq. intros v.
  rewrite lookup_bi_vecs, list_lookup_fmap, fmap_Some. simpl.
  unfold flat_reconstruct. rewrite Nat2Z.id. split.
  - intros [Hi Hv]. destruct (lookup_lt_is_Some_2 _ _ Hi) as [w Hw].
    rewrite Hw in Hv. eauto.
  - intros (w & Hw & ->). rewrite Hw. split; [by eapply lookup_lt_Some|done].
Qed.

Lemma flat_rows_snd b q : NoDup (flat_rows b q).*2.
Proof.
  unfold flat_rows. replace (_.*2) with (Z.of_nat <$> seq 0 (length (fl_vecs b))).
  - apply (NoDup_fmap_2 _), NoDup_seq.
  - apply list_eq. intros i. rewrite !list_lookup_fmap, list_lookup_imap.
    destruct (fl_vecs b !! i) eqn:E; simpl.
    + rewrite lookup_seq_lt; [done|by eapply lookup_lt_Some].
    + rewrite lookup_seq_ge; [done|by apply lookup_ge_None].
Qed.

Lemma flat_rows_elem b q row :
  row ∈ flat_rows b q ↔
  ∃ l v, row = (flat_dist (fl_metric b) q v, Z.of_nat l) ∧ bi_vecs (b : BI) !! l = Some v.
Proof.
  unfold flat_rows. rewrite flat_vecs, list_elem_of_lookup.
  setoid_rewrite list_lookup_imap. setoid_rewrite list_lookup_fmap.
  setoid_rewrite fmap_Some. split.
  - intros (i & w & Hw & ->). eauto 10.
  - intros (l & v & -> & w & Hw & ->). eauto.
Qed.

Lemma flat_rows_swo b q : swo_on (lex_lt Z.ltb) (.∈ flat_rows b q).
Proof.
  eapply swo_weaken; [apply (lex_swo _ Zltb_strict_total)|].
  intros row (l & v & -> & _)%flat_rows_elem. apply flat_dist_not_nan.
Qed.

Section search_laws.
Context (b : flat) (q : list f32) (k : nat).

Let sorted := insertion_sort (lex_lt Z.ltb) (flat_rows b q).

Lemma flat_sorted_split : flat_rows b q ≡ₚ take k sorted ++ drop k sorted.
Proof. rewrite take_drop. symmetry. apply insertion_sort_perm. Qed.

Lemma flat_best_elem row : row ∈ take k sorted → row ∈ flat_rows b q.
Proof. intros H. rewrite flat_sorted_split. set_solver. Qed.

Lemma flat_best_nodup : NoDup (take k sorted).*2.
Proof.
  pose proof (flat_rows_snd b q) as H. rewrite flat_sorted_split, fmap_app in H.
  by apply NoDup_app in H as [H _].
Qed.

Lemma flat_best_le x y : x ∈ take k sorted → y ∈ drop k sorted → fle x.1 y.1.
Proof.
  intros Hx Hy.
  pose proof (insertion_sort_sorted _ _ (flat_rows_swo b q)) as HS.
  fold sorted in HS. rewrite <-(take_drop k sorted) in HS.
  apply (lex_not_lt_fle Z.ltb).
  - apply flat_best_elem, flat_rows_elem in Hx as (?&?&->&_). apply flat_dist_not_nan.
  - assert (y ∈ flat_rows b q) as (?&?&->&_)%flat_rows_elem
      by (rewrite flat_sorted_split; set_solver). apply flat_dist_not_nan.
  - by eapply (StronglySorted_app_1_elem_of _ _ _ _ _ HS).
Qed.
End search_laws.

Lemma flat_search_rows (b : flat) q k :
  0 < k →
  ∃ rows, flat_search b q k = Ok rows ∧ length rows = k ∧
    Forall (row_ok (b : BI) q) rows ∧ NoDup (filter (λ l, l ≠ (-1)%Z) rows.*2).
Proof.
  intros Hk. unfold flat_search. rewrite decide_False by lia. eexists. split; [done|].
  set (best := take k _).
  assert (length best ≤ k) as Hlen by (unfold best; rewrite length_take; lia).
  split_and!.
  - rewrite length_app, length_replicate. lia.
  - apply Forall_app. split.
    + apply Forall_forall. intros row (l & v & -> & Hv)%flat_best_elem%flat_rows_elem.
      right. by exists l, v.
    + apply Forall_replicate. by left.
  - rewrite fmap_app, filter_app, fmap_replicate, filter_replicate_not, app_nil_r by auto.
    apply NoDup_filter, flat_best_nodup.
Qed.

Lemma flat_search_exact (b : flat) q k rows l v :
  flat_search b q k = Ok rows → bi_vecs (b : BI) !! l = Some v → Z.of_nat l ∉ rows.*2 →
  ((-1)%Z ∉ rows.*2) ∧
  Forall (λ row, flt (flat_dist (fl_metric b) q v) row.1 = false) rows.
Proof.
  unfold flat_search. case_decide; [done|]. intros [= <-] Hv Hl.
  set (sorted := insertion_sort _ _) in *.
  rewrite fmap_app, not_elem_of_app in Hl. destruct Hl as [Hl _].
  set (row := (flat_dist (fl_metric b) q v, Z.of_nat l)).
  assert (row ∈ drop k sorted) as Hrow.
  { assert (row ∈ flat_rows b q) as Hin by (apply flat_rows_elem; by exists l, v).
    rewrite (flat_sorted_split b q k) in Hin. apply elem_of_app in Hin as [Hin|]; [|done].
    destruct Hl. by apply (list_elem_of_fmap_2 snd) in Hin. }
  assert (k < length sorted) as Hk.
  { destruct (decide (k < length sorted)); [done|]. rewrite drop_ge in Hrow by lia.
    set_solver. }
  rewrite length_take_le, Nat.sub_diag, app_nil_r by lia. split.
  - intros ([d l'] & Heq & H')%list_elem_of_fmap.
    apply flat_best_elem, flat_rows_elem in H' as (?&?&?&_). simplify_eq/=. lia.
  - apply Forall_forall. intros r Hr. exact (flat_best_le b q k r row Hr Hrow).
Qed.

#[export] Instance flat_ref_laws : FaissLaws flat_ref.
Proof.
  split; try done.
  - intros b n buf Hn. rewrite !flat_vecs. simpl. rewrite fmap_app. f_equal.
    assert (Forall (λ v, length v = fl_d b) (chunks (fl_d b) n buf)) as HF
      by (by apply chunks_length).
    induction HF as [|v vs Hv _ IH]; [done|].
    rewrite fmap_cons. f_equal; [by apply flat_norm_id|exact IH].
  - intros. apply length_flat_norm.
  - intros. by apply flat_search_rows.
  - intros b q k rows _ _ _ Hr l v Hv Hl. by eapply flat_search_exact.
  - intros b rest. simpl. unfold flat_read, flat_write.
    by rewrite parse_pos_bits, decode_encode, flat_uncode_code.
Qed.
