(* ===== verification/TopK.v ===== *)
(** * The k best of a collection

    [is_topk]: what "the k nearest" means when distances tie; [topk_union]: the
    k best of the k bests of the parts are k best of the whole, whatever the
    parts share. Then [std::set] as the sorted list of its elements, and the
    bounded accumulator [Index::search] keeps in one ([trim]). *)

From S2P Require Import Prelude Cxx Floats.

(** ** Selections of the k best *)

Section topk.
Context {A : Type} `{EqDecision A} (d : A → f32).

Record is_topk (k : nat) (S R : list A) : Prop := {
  topk_nodup : NoDup R;
  topk_sub x : x ∈ R → x ∈ S;
  topk_len : length R = k `min` length S;
  topk_best x y : x ∈ R → y ∈ S → y ∉ R → fle (d x) (d y);
}.

Lemma topk_full k S R y :
  is_topk k S R → y ∈ S → y ∉ R → length R = k.
Proof.
  intros HR Hy HyR. pose proof (topk_len _ _ _ HR).
  assert (length (y :: R) ≤ length S); [|simpl in *; lia].
  apply NoDup_incl_length; [constructor; [done|apply HR]|].
  intros x [->|?]%elem_of_cons; [done|]. by apply (topk_sub _ _ _ HR).
Qed.

(** Without ties there is one selection. *)
Lemma topk_unique k S S' R R' :
  NoDup S → NoDup S' → (∀ x, x ∈ S ↔ x ∈ S') →
  (∀ x y, x ∈ S → y ∈ S → x ≠ y → flt (d x) (d y) ∨ flt (d y) (d x)) →
  is_topk k S R → is_topk k S' R' → R ≡ₚ R'.
Proof.
  intros HS HS' Heq Hd HR HR'.
  assert (length R = length R') as Hlen.
  { rewrite (topk_len _ _ _ HR), (topk_len _ _ _ HR'). f_equal. apply Permutation_length. by apply NoDup_Permutation. }
  destruct (decide (Forall (.∈ R) R')) as [Hall|Hex].
  - rewrite Forall_forall in Hall. symmetry. apply submseteq_length_Permutation; [|lia].
    apply NoDup_submseteq; [apply HR'|done].
  - apply not_Forall_Exists in Hex; [|apply _]. apply Exists_exists in Hex as (y & Hy & HyR). symmetry.
    assert (∀ x, x ∈ R → x ∈ R') as Hsub.
    { intros x Hx. apply dec_stable. intros HxR'. pose proof (topk_sub _ _ _ HR x Hx) as HxS.
      assert (y ∈ S) as HyS by (by apply Heq, (topk_sub _ _ _ HR')).
      pose proof (topk_best _ _ _ HR x y Hx HyS HyR) as H1.
      pose proof (topk_best _ _ _ HR' y x Hy (proj1 (Heq x) HxS) HxR') as H2. unfold fle in *.
      destruct (Hd x y HxS HyS) as [H|H]; [by intros ->|by rewrite H2 in H|by rewrite H1 in H]. }
    symmetry. apply submseteq_length_Permutation; [|lia]. by apply NoDup_submseteq; [apply HR|].
Qed.

(** Splitting a collection into the selection and the rest. *)
Lemma topk_split k S R rest :
  NoDup S → S ≡ₚ R ++ rest → length R = k `min` length S →
  (∀ x y, x ∈ R → y ∈ rest → fle (d x) (d y)) → is_topk k S R.
Proof.
  intros Hnd Hp Hlen Hbest. split; [|intros x Hx; rewrite Hp; set_solver|done|].
  - rewrite Hp in Hnd. by apply NoDup_app in Hnd as [? _].
  - intros x y Hx. rewrite Hp, elem_of_app. intros [?|?] ?; [done|]. by apply Hbest.
Qed.

(** [topk_best] once more: everything outside is at least as far as
    everything inside a full selection drawn from the same pool. *)
Lemma topk_dominates k C F R x y :
  NoDup C → is_topk k C F → NoDup R → length R = k →
  (∀ r, r ∈ R → r ∈ C) → (∀ r, r ∈ C → not_nan (d r)) → not_nan (d y) →
  (∀ r, r ∈ R → fle (d r) (d y)) → x ∈ F → fle (d x) (d y).
Proof.
  intros HC HF HR Hlen HRC Hnan Hy HRy Hx.
  destruct (decide (Forall (λ r, r ∈ F) R)) as [Hall|Hex].
  - rewrite Forall_forall in Hall. apply HRy.
    rewrite (NoDup_incl_eq R F); [done..|].
    rewrite (topk_len _ _ _ HF). lia.
  - apply not_Forall_Exists in Hex; [|apply _].
    apply Exists_exists in Hex as (r & Hr & HrF).
    apply (fle_trans _ (d r)); auto.
    + apply Hnan. by apply (topk_sub _ _ _ HF).
    + apply (topk_best _ _ _ HF); auto.
Qed.

Context (k : nat) (S : list A) (Ss Rs : list (list A)) (C : list A).
Context (HSnodup : NoDup S) (HCnodup : NoDup C).
Context (HS : ∀ x, x ∈ S ↔ ∃ s, s ∈ Ss ∧ x ∈ s).
Context (HC : ∀ x, x ∈ C ↔ ∃ r, r ∈ Rs ∧ x ∈ r).
Context (Hnan : ∀ x, x ∈ S → not_nan (d x)).
Context (Hparts : Forall2 (is_topk k) Ss Rs).

Lemma topk_parts_sub x : x ∈ C → x ∈ S.
Proof.
  rewrite HS, HC. intros (r & Hr & Hx).
  apply list_elem_of_lookup in Hr as [i Hi].
  destruct (Forall2_lookup_r _ _ _ _ _ Hparts Hi) as (s & Hs & HR).
  exists s. split; [by eapply list_elem_of_lookup_2|]. by apply (topk_sub _ _ _ HR).
Qed.

(** An element no part selected was displaced by [k] closer ones. *)
Lemma topk_parts_missing y :
  y ∈ S → y ∉ C →
  ∃ R, NoDup R ∧ length R = k ∧ (∀ r, r ∈ R → r ∈ C) ∧ (∀ r, r ∈ R → fle (d r) (d y)).
Proof.
  rewrite HS, HC. intros (s & Hs & Hy) HyC.
  apply list_elem_of_lookup in Hs as [i Hi].
  destruct (Forall2_lookup_l _ _ _ _ _ Hparts Hi) as (R & HRi & HR).
  assert (R ∈ Rs) as HRin by (by eapply list_elem_of_lookup_2).
  assert (y ∉ R) as HyR by eauto.
  exists R. split_and!.
  - apply HR.
  - by eapply topk_full.
  - intros r Hr. apply HC. eauto.
  - intros r Hr. by apply (topk_best _ _ _ HR).
Qed.

Lemma topk_union F : is_topk k C F → is_topk k S F.
Proof.
  intros HF. pose proof topk_parts_sub as Hsub. split.
  - apply HF.
  - intros x Hx. by apply Hsub, (topk_sub _ _ _ HF).
  - rewrite (topk_len _ _ _ HF).
    assert (length C ≤ length S) by (by apply NoDup_incl_length).
    destruct (decide (Forall (λ y, y ∈ C) S)) as [Hall|Hex].
    + rewrite Forall_forall in Hall.
      assert (length S ≤ length C) by (by apply NoDup_incl_length). lia.
    + apply not_Forall_Exists in Hex; [|apply _].
      apply Exists_exists in Hex as (y & Hy & HyC).
      destruct (topk_parts_missing y Hy HyC) as (R & HR & Hlen & HRC & _).
      assert (length R ≤ length C) by (by apply NoDup_incl_length). lia.
  - intros x y Hx Hy HyF. destruct (decide (y ∈ C)) as [HyC|HyC].
    + by apply (topk_best _ _ _ HF).
    + destruct (topk_parts_missing y Hy HyC) as (R & HR & Hlen & HRC & HRy).
      eapply (topk_dominates k C F R); eauto.
Qed.
End topk.

(** ** [std::set] as a sorted list *)

Section sorted_set.
Context {A : Type} (lt : A → A → bool).

(** [set.emplace(x)]: no effect when an equivalent element is there. *)
Fixpoint set_emplace (x : A) (s : list A) : list A :=
  match s with
  | [] => [x]
  | y :: s' =>
    if lt x y then x :: y :: s'
    else if lt y x then y :: set_emplace x s'
    else y :: s'
  end.

(** [set.erase( *set.rbegin())]. *)
Definition set_erase_last (s : list A) : list A := take (length s - 1) s.

(** [s.emplace(x); if (s.size() > k) s.erase( *s.rbegin());] *)
Definition trim (k : nat) (s : list A) (x : A) : list A :=
  let s := set_emplace x s in
  if decide (k < length s) then set_erase_last s else s.

Lemma length_set_emplace x s : length (set_emplace x s) ≤ S (length s).
Proof. induction s; simpl; [lia|]. repeat case_match; simpl; lia. Qed.

Lemma take_set_emplace x s k :
  take k (set_emplace x (take k s)) = take k (set_emplace x s).
Proof.
  revert k. induction s as [|y s IH]; intros [|k]; simpl; try done.
  destruct (lt x y); simpl.
  - destruct k; simpl; [done|]. by rewrite take_take, Nat.min_l by lia.
  - destruct (lt y x); simpl; [by rewrite IH|]. by rewrite take_take, Nat.min_id.
Qed.

Lemma trim_take k s x : length s ≤ k → trim k s x = take k (set_emplace x s).
Proof.
  intros Hs. unfold trim, set_erase_last. pose proof (length_set_emplace x s).
  case_decide; [by f_equal; lia|]. by rewrite take_ge by lia.
Qed.

Lemma foldl_trim k s l :
  foldl (trim k) (take k s) l = take k (foldl (flip set_emplace) s l).
Proof.
  revert s. induction l as [|x l IH]; intros s; simpl; [done|].
  rewrite trim_take by (rewrite length_take; lia).
  by rewrite take_set_emplace, IH.
Qed.

(** Trimming as it goes keeps the first [k] of what an unbounded set would
    hold. *)
Lemma foldl_trim_nil k l :
  foldl (trim k) [] l = take k (foldl (flip set_emplace) [] l).
Proof. by rewrite <-foldl_trim, take_nil. Qed.

(** On a domain where inequivalent means different, the set holds exactly
    what was put in, in order. *)
Context (P : A → Prop) (Hswo : swo_on lt P).
Context (Htot : ∀ x y, P x → P y → lt x y ∨ x = y ∨ lt y x).

Lemma elem_of_set_emplace x s y :
  P x → Forall P s → y ∈ set_emplace x s ↔ y = x ∨ y ∈ s.
Proof.
  intros Hx Hs. induction Hs as [|z s Hz Hs IH]; simpl; [set_solver|].
  destruct (lt x z) eqn:E1; [set_solver|]. destruct (lt z x) eqn:E2.
  - rewrite !elem_of_cons, IH. naive_solver.
  - destruct (Htot x z Hx Hz) as [H|[->|H]];
      [by rewrite E1 in H| |by rewrite E2 in H]. set_solver.
Qed.

Lemma set_emplace_P x s : P x → Forall P s → Forall P (set_emplace x s).
Proof.
  intros Hx Hs. rewrite Forall_forall in *. intros y.
  rewrite elem_of_set_emplace by (done || by apply Forall_forall).
  intros [->|?]; auto.
Qed.

Lemma set_emplace_sorted x s :
  P x → Forall P s → StronglySorted lt s → StronglySorted lt (set_emplace x s).
Proof.
  intros Hx Hs Hsort. induction Hsort as [|y s Hsort IH Hy]; simpl; [by repeat constructor|].
  apply Forall_cons in Hs as [Py Hs].
  destruct (lt x y) eqn:E1; [|destruct (lt y x) eqn:E2; [|by constructor]].
  - constructor; [by constructor|]. constructor; [by rewrite E1|].
    rewrite Forall_forall in *. intros z Hz.
    apply (swo_trans _ _ Hswo x y z); auto; by rewrite E1.
  - constructor; [by apply IH|]. rewrite Forall_forall in *.
    intros z [->|Hz]%elem_of_set_emplace; [|by auto..|by apply Forall_forall].
    by rewrite E2.
Qed.

Lemma foldl_emplace s l :
  Forall P s → Forall P l → StronglySorted lt s →
  let r := foldl (flip set_emplace) s l in
  Forall P r ∧ StronglySorted lt r ∧ ∀ x, x ∈ r ↔ x ∈ s ∨ x ∈ l.
Proof.
  intros Hs Hl Hsort. revert s Hs Hsort. induction Hl as [|x l Hx Hl IH]; intros s Hs Hsort; simpl.
  - split_and!; [done..|]. intros x. set_solver.
  - destruct (IH (set_emplace x s)) as (H1 & H2 & H3);
      [by apply set_emplace_P|by apply set_emplace_sorted|].
    split_and!; [done..|]. intros y. simpl. rewrite H3, elem_of_set_emplace by done.
    set_solver.
Qed.

Lemma sorted_lt_NoDup s : Forall P s → StronglySorted lt s → NoDup s.
Proof.
  intros HP Hs. induction Hs as [|x s Hs IH Hx]; [constructor|].
  apply Forall_cons in HP as [Px HP]. constructor; [|by apply IH].
  intros Hin. rewrite Forall_forall in Hx. specialize (Hx x Hin).
  by rewrite (swo_irrefl _ _ Hswo x Px) in Hx.
Qed.
End sorted_set.
