(* ===== verification/IBaseIndex.v ===== *)
(** * The interface under a segment (index/include/IBaseIndex.h)

    [IBaseIndex] lists the virtual functions, plus what the [Segment] template
    asks of its parameter (constructors, [get_segment_type]).
    [IBaseIndexLaws] is the contract [Segment], [SegmentStorage] and [Index]
    are verified against; [FaissIndex] discharges it. *)

From S2P Require Import Prelude Cxx Floats BinaryIO Faiss TopK.

(** The enumeration of index/include/ISegment.h. *)
Inductive SegmentType := kFaissFlat | kFaissHNSW.

#[export] Instance SegmentType_eq_dec : EqDecision SegmentType.
Proof. solve_decision. Defined.

Definition SegmentType_int (t : SegmentType) : Z :=
  match t with kFaissFlat => 0 | kFaissHNSW => 1 end.

(** [FaissIndex<BaseIndex, ID>::get_segment_type()] *)
Definition get_segment_type (k : base_kind) : SegmentType :=
  if decide (k = IndexFlat) then kFaissFlat else kFaissHNSW.

Class IBaseIndex (T : Type) := {
  ib_make : index_args → T;
  ib_read : Z → base_kind → file → outcome (T * file);
  (** the template instance, which [dynamic_pointer_cast] looks at *)
  ib_class : T → base_kind;
  ib_segment_type : T → SegmentType;
  ib_add_batch : T → nat → list f32 → list string → outcome T;
  ib_single_search : T → nat → list f32 → outcome (list (string * f32));
  ib_erase_batch : T → nat → list string → outcome T;
  ib_merge_from_other : T → T → outcome T;
  ib_serialize_index : T → file → file;
  ib_size : T → Z;
}.

(** What an index keeps for life. *)
Record shape := Shape {
  sh_kind : base_kind;
  sh_dim : nat;
  sh_metric : MetricType;
  sh_exact : bool;
}.

(** A query an index of dimension [dim] can be asked for its [k] nearest: [dist]
    is the distance from the query, [rows] the stored vectors. *)
Definition askable (dim : nat) (dist : list f32 → f32) (rows : list (list f32))
    (k : nat) (q : list f32) : Prop :=
  0 < k ∧ dim ≤ length q ∧ ∀ v, v ∈ rows → not_nan (dist v).

Class IBaseIndexLaws (T : Type) `{IBaseIndex T} := {
  (** the representation invariant *)
  ib_wf : T → Prop;
  (** no live vector is hidden behind a newer one of the same id *)
  ib_tidy : T → Prop;
  (** the live (id, vector) pairs *)
  ib_entries : T → list (string * list f32);
  (** the ids ever added *)
  ib_seen : T → gset string;
  (** the size before it is converted to [size_t] *)
  ib_count : T → Z;
  ib_shape : T → shape;
  ib_metric_dist : MetricType → list f32 → list f32 → f32;
  (** every vector stored, erased ones included *)
  ib_rows : T → list (list f32);
  (** the index fits the file format *)
  ib_storable : T → Prop;
  (** the index under another template instance *)
  ib_retype : base_kind → T → T;

  ib_size_count t : ib_size t = u64 (ib_count t);
  ib_class_kind t : ib_class t = sh_kind (ib_shape t);
  ib_type_kind t : ib_segment_type t = get_segment_type (sh_kind (ib_shape t));
  ib_tidy_nodup t : ib_tidy t → NoDup (ib_entries t).*1;

  ib_make_spec a :
    let t := ib_make a in
    ib_wf t ∧ ib_tidy t ∧ ib_entries t = [] ∧ ib_seen t = ∅ ∧ ib_count t = 0%Z ∧
    sh_dim (ib_shape t) = args_dim a ∧ sh_kind (ib_shape t) = args_kind a ∧
    sh_metric (ib_shape t) = args_metric a ∧
    (args_kind a = IndexFlat → sh_exact (ib_shape t) = true);

  ib_add_spec t n vectors ids :
    ib_wf t → n * sh_dim (ib_shape t) ≤ length vectors → n ≤ length ids →
    ∃ t', ib_add_batch t n vectors ids = Ok t' ∧ ib_wf t' ∧ ib_shape t' = ib_shape t ∧
      ib_entries t' = ib_entries t ++ zip (take n ids) (chunks (sh_dim (ib_shape t)) n vectors) ∧
      ib_seen t' = ib_seen t ∪ list_to_set (take n ids) ∧
      (ib_count t ≤ ib_count t' ≤ ib_count t + Z.of_nat n)%Z ∧
      (NoDup (take n ids) → (∀ x, x ∈ take n ids → x ∉ ib_seen t) →
        ib_count t' = (ib_count t + Z.of_nat n)%Z) ∧
      (ib_tidy t → NoDup (take n ids) →
        (∀ x, x ∈ take n ids → x ∉ (ib_entries t).*1) → ib_tidy t');
  ib_add_short t n vectors ids :
    length vectors < n * sh_dim (ib_shape t) →
    ib_add_batch t n vectors ids = Undef OutOfBounds;

  ib_erase_spec t n ids :
    ib_wf t → n ≤ length ids →
    ∃ t', ib_erase_batch t n ids = Ok t' ∧ ib_wf t' ∧ ib_shape t' = ib_shape t ∧
      ib_seen t' = ib_seen t ∧ (ib_count t - Z.of_nat n ≤ ib_count t' ≤ ib_count t)%Z ∧
      (ib_tidy t → ib_tidy t' ∧
        ib_entries t' = filter (λ e, e.1 ∉ take n ids) (ib_entries t));

  ib_merge_spec t o :
    ib_wf t → ib_wf o → ib_shape o = ib_shape t →
    ∃ t', ib_merge_from_other t o = Ok t' ∧ ib_wf t' ∧ ib_shape t' = ib_shape t ∧
      ib_entries t' ≡ₚ ib_entries t ++ ib_entries o ∧
      ib_seen t' = ib_seen t ∪ list_to_set (ib_entries o).*1 ∧
      (ib_count t ≤ ib_count t' ≤ ib_count t + Z.of_nat (length (ib_entries o)))%Z ∧
      (ib_tidy t → ib_tidy o →
        (∀ x, x ∈ (ib_entries t).*1 → x ∉ (ib_entries o).*1) → ib_tidy t');
  ib_merge_kind t o :
    sh_kind (ib_shape o) ≠ sh_kind (ib_shape t) →
    ib_merge_from_other t o = Throw (RuntimeError "Couldn't cast index into FaissIndex");

  (** Any kind of index reports live entries only ... *)
  ib_search_spec t k q :
    ib_wf t →
    askable (sh_dim (ib_shape t)) (ib_metric_dist (sh_metric (ib_shape t)) q) (ib_rows t) k q →
    ∃ es rest, ib_entries t ≡ₚ es ++ rest ∧ length es ≤ k ∧
      ib_single_search t k q =
        Ok ((λ e, (e.1, ib_metric_dist (sh_metric (ib_shape t)) q e.2)) <$> es);
  (** ... and an exhaustive one the nearest. *)
  ib_search_exact t k q :
    ib_wf t → ib_tidy t → sh_exact (ib_shape t) = true →
    askable (sh_dim (ib_shape t)) (ib_metric_dist (sh_metric (ib_shape t)) q) (ib_rows t) k q →
    ∃ es, is_topk (λ e, ib_metric_dist (sh_metric (ib_shape t)) q e.2) k (ib_entries t) es ∧
      ib_single_search t k q =
        Ok ((λ e, (e.1, ib_metric_dist (sh_metric (ib_shape t)) q e.2)) <$> es);
  ib_rows_entries t e : ib_wf t → e ∈ ib_entries t → e.2 ∈ ib_rows t;
  ib_rows_make a : ib_rows (ib_make a) = [];
  ib_rows_add t n vectors ids t' :
    ib_add_batch t n vectors ids = Ok t' →
    ib_rows t' = ib_rows t ++ chunks (sh_dim (ib_shape t)) n vectors;
  ib_rows_erase t n ids t' : ib_erase_batch t n ids = Ok t' → ib_rows t' = ib_rows t;
  ib_rows_merge t o t' v :
    ib_wf o → ib_shape o = ib_shape t → ib_merge_from_other t o = Ok t' →
    v ∈ ib_rows t' → v ∈ ib_rows t ∨ v ∈ ib_rows o;

  ib_retype_id t : ib_retype (sh_kind (ib_shape t)) t = t;
  ib_retype_spec k t :
    let t' := ib_retype k t in
    (ib_wf t → ib_wf t') ∧ (ib_tidy t → ib_tidy t') ∧ ib_entries t' = ib_entries t ∧
    ib_seen t' = ib_seen t ∧ ib_count t' = ib_count t ∧ ib_rows t' = ib_rows t ∧
    ib_shape t' = Shape k (sh_dim (ib_shape t)) (sh_metric (ib_shape t)) (sh_exact (ib_shape t)) ∧
    (∀ n q, ib_single_search t' n q = ib_single_search t n q);
  ib_serialize_app t fd : ib_serialize_index t fd = fd ++ ib_serialize_index t [];
  ib_read_serialize junk kind t rest :
    ib_wf t → ib_storable t →
    ib_read junk kind (ib_serialize_index t [] ++ rest) = Ok (ib_retype kind t, rest);
}.

(** The query [q] for [k] neighbours is one the index can be asked. *)
Definition ib_askable `{IBaseIndexLaws T} (t : T) (k : nat) (q : list f32) : Prop :=
  askable (sh_dim (ib_shape t)) (ib_metric_dist (sh_metric (ib_shape t)) q) (ib_rows t) k q.
