(* ===== verification/FaissIndex.v ===== *)
(** * The id-mapped index (index/baselines/faiss.h)

    [FaissIndex] puts string ids over the consecutive labels FAISS assigns:
    [ids_] gives an id's latest label, [inv_ids_] a label's id, [erased_] the
    labels deleted since. Erasing only marks; [single_search] asks for as many
    rows more as there are marks and drops them. [entries] is what the index
    means: the live (id, vector) pairs. *)

From S2P Require Import Prelude Cxx Floats BinaryIO Faiss TopK IBaseIndex.

Record faiss_index `{Faiss} := FI {
  (** the [BaseIndex] the template is instantiated with *)
  fi_kind : base_kind;
  index_ : BI;
  next_id : Z;
  ids_ : gmap string Z;
  inv_ids_ : gmap Z string;
  erased_ : gset Z;
}.
Arguments FI {_} _ _ _ _ _ _.

Section faiss_index.
Context `{StdLib} {F : Faiss}.
Implicit Types fi : faiss_index.

(** ** Operations *)

(** [FaissIndex(Args... args)] *)
Definition FaissIndex (a : index_args) : faiss_index :=
  FI (args_kind a) (bi_make a) 0 ∅ ∅ ∅.

(** The body of the loop of [add_batch]. *)
Definition add_id fi (id : string) : faiss_index :=
  FI (fi_kind fi) (index_ fi) (next_id fi + 1)
     (<[id := next_id fi]> (ids_ fi)) (<[next_id fi := id]> (inv_ids_ fi)) (erased_ fi).

Definition set_index fi (b : BI) : faiss_index :=
  FI (fi_kind fi) b (next_id fi) (ids_ fi) (inv_ids_ fi) (erased_ fi).

Definition add_batch fi (n : nat) (vectors : list f32) (ids : list string) :
    outcome faiss_index :=
  if decide (n * bi_d (index_ fi) ≤ length vectors ∧ n ≤ length ids) then
    Ok (foldl add_id (set_index fi (bi_add (index_ fi) n vectors)) (take n ids))
  else Undef OutOfBounds.

(** [operator<] of [std::pair<float, faiss::idx_t>]. *)
Definition pair_lt : f32 * Z → f32 * Z → bool := lex_lt Z.ltb.

(** The rows [single_search] keeps: not padding, known, not erased. *)
Definition row_live fi (row : f32 * Z) : Prop :=
  row.2 ≠ (-1)%Z ∧ is_Some (inv_ids_ fi !! row.2) ∧ row.2 ∉ erased_ fi.
#[global] Instance row_live_dec fi row : Decision (row_live fi row).
Proof. unfold row_live. apply _. Defined.

(** [inv_ids_.at(value)] of a row of the result. *)
Definition row_id fi (row : f32 * Z) : outcome (string * f32) :=
  match inv_ids_ fi !! row.2 with
  | Some id => Ok (id, row.1)
  | None => Throw OutOfRange
  end.

Definition row_ids fi (rows : list (f32 * Z)) : outcome (list (string * f32)) :=
  mapM (row_id fi) rows.

(** The ids and distances written, in order. *)
Definition single_search fi (k : nat) (q : list f32) : outcome (list (string * f32)) :=
  if decide (bi_d (index_ fi) ≤ length q) then
    res ← bi_search (index_ fi) q (k + size (erased_ fi));
    let sorted_res := std_sort pair_lt (filter (row_live fi) res) in
    row_ids fi (take (k `min` length sorted_res) sorted_res)
  else Undef OutOfBounds.

(** What [merge_from_other] copies out of [other]. *)
Definition live_labels fi : list (Z * string) :=
  filter (λ p, p.1 ∉ erased_ fi) (std_iter (inv_ids_ fi)).

Definition merge_from_other fi (other : faiss_index) : outcome faiss_index :=
  if decide (fi_kind other = fi_kind fi) then
    let live := live_labels other in
    let idxs := live.*1 in
    let ids := live.*2 in
    let len := length idxs * bi_d (index_ fi) in
    let rows := concat (bi_reconstruct (index_ other) <$> idxs) in
    if decide (length idxs * bi_d (index_ other) ≤ len) then
      let vectors := rows ++ replicate (len - length rows) (S754_zero false) in
      add_batch fi (length ids) vectors ids
    else Undef OutOfBounds
  else Throw (RuntimeError "Couldn't cast index into FaissIndex").

(** The body of the loop of [erase_batch]. *)
Definition erase_id fi (id : string) : faiss_index :=
  match ids_ fi !! id with
  | None => fi
  | Some l => FI (fi_kind fi) (index_ fi) (next_id fi) (ids_ fi) (inv_ids_ fi)
                 ({[l]} ∪ erased_ fi)
  end.

Definition erase_batch fi (n : nat) (ids : list string) : outcome faiss_index :=
  if decide (n ≤ length ids) then Ok (foldl erase_id fi (take n ids))
  else Undef OutOfBounds.

(** [ids_.size() - erased_.size()], in [size_t]. *)
Definition fi_count fi : Z := Z.of_nat (size (ids_ fi)) - Z.of_nat (size (erased_ fi)).
Definition fi_size fi : Z := u64 (fi_count fi).

(** [getID] *)
Definition getID fi (idx : Z) : outcome string :=
  match inv_ids_ fi !! idx with Some id => Ok id | None => Throw OutOfRange end.

(** ** Serialization *)

Definition write_id_entry (fd : file) (kv : string * Z) : file :=
  writeBinary idx_t (writeBinary_string fd kv.1) kv.2.
Definition write_inv_entry (fd : file) (kv : Z * string) : file :=
  writeBinary_string (writeBinary idx_t fd kv.1) kv.2.

Definition serialize_index fi (fd : file) : file :=
  let fd := fwrite (bi_write (index_ fi)) fd in
  let fd := writeBinary idx_t fd (next_id fi) in
  let fd := writeBinary size_t fd (Z.of_nat (size (ids_ fi))) in
  let fd := foldl write_id_entry fd (std_iter (ids_ fi)) in
  let fd := writeBinary size_t fd (Z.of_nat (size (inv_ids_ fi))) in
  let fd := foldl write_inv_entry fd (std_iter (inv_ids_ fi)) in
  let fd := writeBinary size_t fd (Z.of_nat (size (erased_ fi))) in
  foldl (writeBinary idx_t) fd (std_iter_set (erased_ fi)).

(** [serialize_index(filename)] *)
Definition serialize_index_file fi (d : gmap string file) (filename : string) : gmap string file :=
  <[filename := serialize_index fi []]> d.

(** The loops of [FaissIndex(FILE* fd)]. [junk] is the value of the
    uninitialised locals the entries are read into. *)
Fixpoint read_ids (junk : Z) (n : nat) (m : gmap string Z) (fd : file) :
    outcome (gmap string Z * file) :=
  match n with
  | 0 => Ok (m, fd)
  | S n =>
    '(k, fd) ← readBinary_string fd "";
    let '(v, fd) := readBinary idx_t fd junk in
    read_ids junk n (<[k := v]> m) fd
  end.
Fixpoint read_inv_ids (junk : Z) (n : nat) (m : gmap Z string) (fd : file) :
    outcome (gmap Z string * file) :=
  match n with
  | 0 => Ok (m, fd)
  | S n =>
    let '(k, fd) := readBinary idx_t fd junk in
    '(v, fd) ← readBinary_string fd "";
    read_inv_ids junk n (<[k := v]> m) fd
  end.
Fixpoint read_erased (junk : Z) (n : nat) (s : gset Z) (fd : file) : gset Z * file :=
  match n with
  | 0 => (s, fd)
  | S n =>
    let '(l, fd) := readBinary idx_t fd junk in
    read_erased junk n ({[l]} ∪ s) fd
  end.

Definition FaissIndex_read (junk : Z) (kind : base_kind) (fd : file) :
    outcome (faiss_index * file) :=
  '(b, fd) ← bi_read fd;
  let '(nid, fd) := readBinary idx_t fd 0 in
  let '(ids_sz, fd) := readBinary size_t fd 0 in
  '(ids, fd) ← read_ids junk (Z.to_nat ids_sz) ∅ fd;
  let '(inv_sz, fd) := readBinary size_t fd 0 in
  '(inv, fd) ← read_inv_ids junk (Z.to_nat inv_sz) ∅ fd;
  let '(erased_sz, fd) := readBinary size_t fd 0 in
  let '(er, fd) := read_erased junk (Z.to_nat erased_sz) ∅ fd in
  Ok (FI kind b nid ids inv er, fd).
End faiss_index.

(** ** What an index means *)

Section meaning.
Context {F : Faiss}.
Implicit Types fi : faiss_index.

(** The live entry under a label, with the label. *)
Definition live_at fi (l : nat) : option (Z * (string * list f32)) :=
  if decide (Z.of_nat l ∈ erased_ fi) then None
  else x ← inv_ids_ fi !! Z.of_nat l; v ← bi_vecs (index_ fi) !! l;
       Some (Z.of_nat l, (x, v)).

Definition live fi : list (Z * (string * list f32)) :=
  omap (live_at fi) (seq 0 (bi_ntotal (index_ fi))).

Definition entries fi : list (string * list f32) := (live fi).*2.

(** The ids the index has ever been given. *)
Definition seen fi : gset string := dom (ids_ fi).

(** The representation invariant: labels are the integers below [next_id],
    the two maps agree, and only labels in use are erased. *)
Record maps_wf fi : Prop := {
  wf_next_nonneg : (0 ≤ next_id fi)%Z;
  wf_labels l : is_Some (inv_ids_ fi !! l) ↔ (0 ≤ l < next_id fi)%Z;
  wf_ids x l : ids_ fi !! x = Some l → inv_ids_ fi !! l = Some x;
  wf_known x l : inv_ids_ fi !! l = Some x → is_Some (ids_ fi !! x);
  wf_erased l : l ∈ erased_ fi → is_Some (inv_ids_ fi !! l);
}.
Record fi_wf fi : Prop := {
  wf_maps : maps_wf fi;
  wf_next : next_id fi = Z.of_nat (bi_ntotal (index_ fi));
}.

(** No live label is superseded: every live label is the one [ids_] holds
    for its id. Adding an id that is still live breaks this. *)
Definition tidy fi : Prop :=
  ∀ l x, inv_ids_ fi !! l = Some x → l ∉ erased_ fi → ids_ fi !! x = Some l.

Lemma live_at_Some fi l e :
  live_at fi l = Some e ↔
  ∃ x v, e = (Z.of_nat l, (x, v)) ∧ inv_ids_ fi !! Z.of_nat l = Some x ∧
         bi_vecs (index_ fi) !! l = Some v ∧ Z.of_nat l ∉ erased_ fi.
Proof.
  unfold live_at. case_decide; [naive_solver|].
  rewrite bind_Some. setoid_rewrite bind_Some. naive_solver.
Qed.

Lemma elem_of_live fi l x v :
  (l, (x, v)) ∈ live fi ↔
  ∃ n, l = Z.of_nat n ∧ inv_ids_ fi !! l = Some x ∧
       bi_vecs (index_ fi) !! n = Some v ∧ l ∉ erased_ fi.
Proof.
  unfold live. rewrite list_elem_of_omap. setoid_rewrite live_at_Some.
  setoid_rewrite elem_of_seq. split.
  - intros (n & _ & x' & v' & ? & ? & ? & ?). simplify_eq. eauto.
  - intros (n & -> & ? & Hv & ?). exists n. split; [|eauto 10].
    apply lookup_lt_Some in Hv. rewrite length_bi_vecs in Hv. lia.
Qed.

Lemma elem_of_entries fi x v :
  (x, v) ∈ entries fi ↔
  ∃ n, inv_ids_ fi !! Z.of_nat n = Some x ∧
       bi_vecs (index_ fi) !! n = Some v ∧ Z.of_nat n ∉ erased_ fi.
Proof.
  unfold entries. rewrite list_elem_of_fmap. split.
  - intros ([l [x' v']] & ? & (n & -> & ?)%elem_of_live). simplify_eq/=. naive_solver.
  - intros (n & ?). exists (Z.of_nat n, (x, v)). split; [done|].
    apply elem_of_live. naive_solver.
Qed.

Lemma NoDup_live_labels fi : NoDup (live fi).*1.
Proof.
  unfold live. apply (NoDup_omap_fst _ Z.of_nat); [apply NoDup_seq|].
  intros l e (x & v & -> & _)%live_at_Some. done.
Qed.

(** Live ids are distinct in a tidy index. *)
Lemma tidy_NoDup fi : tidy fi → NoDup (entries fi).*1.
Proof.
  intros Ht. unfold entries. rewrite <-list_fmap_compose.
  pose proof (NoDup_live_labels fi) as Hnd.
  apply (NoDup_fmap_key fst); [done|].
  intros [l [x v]] [l' [x' v']] (n & -> & Hx & _ & He)%elem_of_live
    (n' & -> & Hx' & _ & He')%elem_of_live Heq. unfold compose in Heq. simplify_eq/=.
  pose proof (Ht _ _ Hx He). pose proof (Ht _ _ Hx' He'). congruence.
Qed.
End meaning.

(** ** Adding *)

Section adding.
Context {F : Faiss} {FL : FaissLaws F}.
Implicit Types fi : faiss_index.

(** [id] has no live vector. *)
Definition not_live fi (id : string) : Prop :=
  ∀ l, inv_ids_ fi !! l = Some id → l ∈ erased_ fi.

Lemma not_live_entries fi id : maps_wf fi → next_id fi = Z.of_nat (bi_ntotal (index_ fi)) →
  not_live fi id ↔ id ∉ (entries fi).*1.
Proof.
  intros Hwf Hn. rewrite list_elem_of_fmap. split.
  - intros Hid ([x v] & -> & (n & Hx & _ & He)%elem_of_entries). by apply He, Hid.
  - intros Hid l Hl. apply dec_stable. intros He. apply Hid.
    assert (0 ≤ l < next_id fi)%Z as Hr by (apply (wf_labels _ Hwf); eauto).
    destruct (lookup_lt_is_Some_2 (bi_vecs (index_ fi)) (Z.to_nat l)) as [v Hv].
    { rewrite length_bi_vecs. lia. }
    exists (id, v). split; [done|]. apply elem_of_entries. exists (Z.to_nat l).
    by rewrite Z2Nat.id by lia.
Qed.

Lemma add_id_maps_wf fi id : maps_wf fi → maps_wf (add_id fi id).
Proof.
  intros [H0 Hlab Hids Hkn Her]. unfold add_id. split; simpl.
  - lia.
  - intros l. destruct (decide (l = next_id fi)) as [->|].
    + rewrite lookup_insert_eq. split; [lia|eauto].
    + rewrite lookup_insert_ne, Hlab by done. lia.
  - intros x l. rewrite lookup_insert. case_decide; subst.
    + intros [= <-]. apply lookup_insert_eq.
    + intros Hx%Hids. rewrite lookup_insert_ne; [done|]. intros <-.
      assert (is_Some (inv_ids_ fi !! next_id fi)) as ?%Hlab by eauto. lia.
  - intros x l. rewrite !lookup_insert. repeat case_decide; subst; eauto. by intros [= ->].
  - intros l Hl%Her. rewrite lookup_insert. case_decide; eauto.
Qed.

Lemma add_id_tidy fi id : maps_wf fi → tidy fi → not_live fi id → tidy (add_id fi id).
Proof.
  intros Hwf Ht Hid l x. unfold add_id. simpl. rewrite !lookup_insert.
  destruct (decide (next_id fi = l)) as [<-|].
  - intros [= ->] _. by rewrite decide_True.
  - intros Hx Hl. rewrite decide_False; [by apply Ht|].
    intros ->. by apply Hl, Hid.
Qed.

Lemma foldl_add_id_frame fi ids :
  let fi' := foldl add_id fi ids in
  fi_kind fi' = fi_kind fi ∧ index_ fi' = index_ fi ∧ erased_ fi' = erased_ fi ∧
  next_id fi' = (next_id fi + Z.of_nat (length ids))%Z ∧
  seen fi' = seen fi ∪ list_to_set ids ∧
  (fi_count fi ≤ fi_count fi' ≤ fi_count fi + Z.of_nat (length ids))%Z.
Proof.
  revert fi. induction ids as [|x ids IH]; intros fi; simpl.
  { split_and!; try done; [lia|set_solver|lia..]. }
  destruct (IH (add_id fi x)) as (-> & -> & -> & -> & -> & Hc1 & Hc2).
  unfold add_id, fi_count, seen in *; simpl in *. split_and!; try done; [lia|set_solver|..];
    destruct (ids_ fi !! x) eqn:E;
    (rewrite map_size_insert_Some in Hc1, Hc2 by eauto) ||
    (rewrite map_size_insert_None in Hc1, Hc2 by done); lia.
Qed.

Lemma foldl_add_id_maps_wf fi ids : maps_wf fi → maps_wf (foldl add_id fi ids).
Proof. revert fi. induction ids; intros fi Hwf; simpl; auto using add_id_maps_wf. Qed.

Lemma foldl_add_id_tidy fi ids :
  maps_wf fi → tidy fi → NoDup ids → Forall (not_live fi) ids →
  tidy (foldl add_id fi ids).
Proof.
  intros Hwf Ht Hnd Hids. revert fi Hwf Ht Hids.
  induction Hnd as [|x ids Hx Hnd IH]; intros fi Hwf Ht Hids; simpl; [done|].
  apply Forall_cons in Hids as [Hxl Hids].
  apply IH; [by apply add_id_maps_wf|by apply add_id_tidy|].
  rewrite Forall_forall in *. intros y Hy l. unfold add_id; simpl.
  rewrite lookup_insert. case_decide; [|by apply Hids].
  intros [= ->]. done.
Qed.

(** Ids the index has not seen each count. *)
Lemma foldl_add_id_count fi ids :
  NoDup ids → Forall (λ x, x ∉ seen fi) ids →
  fi_count (foldl add_id fi ids) = (fi_count fi + Z.of_nat (length ids))%Z.
Proof.
  intros Hnd. revert fi. induction Hnd as [|x ids Hx Hnd IH]; intros fi Hf; simpl; [lia|].
  apply Forall_cons in Hf as [Hxf Hf]. rewrite IH.
  - unfold add_id, fi_count, seen in *; simpl.
    rewrite map_size_insert_None by (by apply not_elem_of_dom). lia.
  - rewrite Forall_forall in *. intros y Hy. unfold seen, add_id; simpl.
    rewrite dom_insert_L. specialize (Hf y Hy). set_solver.
Qed.

Lemma foldl_add_id_inv fi ids l :
  inv_ids_ (foldl add_id fi ids) !! l =
  if decide (next_id fi ≤ l < next_id fi + Z.of_nat (length ids))%Z
  then ids !! Z.to_nat (l - next_id fi) else inv_ids_ fi !! l.
Proof.
  revert fi. induction ids as [|x ids IH]; intros fi; simpl.
  { rewrite decide_False by lia. done. }
  rewrite IH. unfold add_id at 1 2 3; simpl. case_decide.
  - rewrite decide_True by lia.
    replace (Z.to_nat (l - next_id fi)) with (S (Z.to_nat (l - (next_id fi + 1)))) by lia.
    done.
  - unfold add_id; simpl. destruct (decide (l = next_id fi)) as [->|].
    + rewrite lookup_insert_eq, decide_True by lia. by rewrite Z.sub_diag.
    + rewrite lookup_insert_ne, decide_False by lia. done.
Qed.
End adding.

(** ** The batch operations on the meaning *)

Section batches.
Context `{SL : StdLib} {F : Faiss} {FL : FaissLaws F}.
Implicit Types fi o : faiss_index.

Definition added fi (n : nat) (vectors : list f32) (ids : list string) : faiss_index :=
  foldl add_id (set_index fi (bi_add (index_ fi) n vectors)) (take n ids).

Definition fits fi (n : nat) (vectors : list f32) (ids : list string) : Prop :=
  n * bi_d (index_ fi) ≤ length vectors ∧ n ≤ length ids.

Lemma add_batch_Ok fi n vectors ids :
  fits fi n vectors ids → add_batch fi n vectors ids = Ok (added fi n vectors ids).
Proof. intros Hf. unfold add_batch. by rewrite decide_True. Qed.

Lemma added_frame fi n vectors ids :
  n ≤ length ids →
  let fi' := added fi n vectors ids in
  fi_kind fi' = fi_kind fi ∧ index_ fi' = bi_add (index_ fi) n vectors ∧
  erased_ fi' = erased_ fi ∧ next_id fi' = (next_id fi + Z.of_nat n)%Z ∧
  seen fi' = seen fi ∪ list_to_set (take n ids) ∧
  (fi_count fi ≤ fi_count fi' ≤ fi_count fi + Z.of_nat n)%Z.
Proof.
  intros Hn. unfold added.
  destruct (foldl_add_id_frame (set_index fi (bi_add (index_ fi) n vectors)) (take n ids))
    as (-> & -> & -> & -> & -> & Hc).
  rewrite length_take_le in Hc by done. rewrite length_take_le by done. done.
Qed.

Lemma bi_add_ntotal (b : BI) n vectors :
  n * bi_d b ≤ length vectors → bi_ntotal (bi_add b n vectors) = bi_ntotal b + n.
Proof.
  intros Hn. rewrite <-!length_bi_vecs, bi_add_vecs by done.
  by rewrite length_app, length_chunks.
Qed.

Lemma added_wf fi n vectors ids :
  fits fi n vectors ids → fi_wf fi → fi_wf (added fi n vectors ids).
Proof.
  intros [Hv Hi] [Hm Hn]. split.
  - apply foldl_add_id_maps_wf. by destruct Hm.
  - destruct (added_frame fi n vectors ids Hi) as (_ & -> & _ & -> & _).
    rewrite bi_add_ntotal by done. lia.
Qed.

Lemma added_tidy fi n vectors ids :
  fits fi n vectors ids → fi_wf fi → tidy fi →
  NoDup (take n ids) → (∀ x, x ∈ take n ids → x ∉ (entries fi).*1) →
  tidy (added fi n vectors ids).
Proof.
  intros [Hv Hi] [Hm Hn] Ht Hnd Hids. apply foldl_add_id_tidy; [by destruct Hm|done..|].
  apply Forall_forall. intros x Hx l Hl.
  apply (not_live_entries fi x Hm Hn); [by apply Hids|done].
Qed.

Lemma added_inv fi n vectors ids l :
  n ≤ length ids →
  inv_ids_ (added fi n vectors ids) !! l =
  if decide (next_id fi ≤ l < next_id fi + Z.of_nat n)%Z
  then take n ids !! Z.to_nat (l - next_id fi) else inv_ids_ fi !! l.
Proof.
  intros Hn. unfold added. rewrite foldl_add_id_inv. simpl. by rewrite length_take_le.
Qed.

(** The old labels keep their entries ... *)
Lemma added_live_old fi n vectors ids l :
  fits fi n vectors ids → fi_wf fi → l < bi_ntotal (index_ fi) →
  live_at (added fi n vectors ids) l = live_at fi l.
Proof.
  intros [Hv Hi] [Hm Hn] Hl. unfold live_at.
  destruct (added_frame fi n vectors ids Hi) as (_ & -> & -> & _).
  rewrite added_inv, bi_add_vecs by done.
  rewrite (decide_False (P := (next_id fi ≤ Z.of_nat l < _)%Z)) by lia.
  by rewrite lookup_app_l by (rewrite length_bi_vecs; lia).
Qed.

(** ... and the next [n] get the rows and ids of the batch, in step. *)
Lemma added_live_new fi n vectors ids i :
  fits fi n vectors ids → fi_wf fi → i < n →
  snd <$> live_at (added fi n vectors ids) (bi_ntotal (index_ fi) + i) =
  zip (take n ids) (chunks (bi_d (index_ fi)) n vectors) !! i.
Proof.
  intros [Hv Hi] [Hm Hn] Hin. unfold live_at.
  destruct (added_frame fi n vectors ids Hi) as (_ & -> & -> & _).
  rewrite decide_False.
  2:{ intros Hz%(wf_erased _ Hm)%(wf_labels _ Hm). lia. }
  rewrite added_inv, bi_add_vecs, decide_True by (done || lia).
  rewrite lookup_app_r, length_bi_vecs, lookup_zip_with by (rewrite length_bi_vecs; lia).
  replace (Z.to_nat (Z.of_nat (bi_ntotal (index_ fi) + i) - next_id fi)) with i by lia.
  replace (bi_ntotal (index_ fi) + i - bi_ntotal (index_ fi)) with i by lia.
  by destruct (take n ids !! i), (chunks (bi_d (index_ fi)) n vectors !! i).
Qed.

Lemma added_entries fi n vectors ids :
  fits fi n vectors ids → fi_wf fi →
  entries (added fi n vectors ids) =
  entries fi ++ zip (take n ids) (chunks (bi_d (index_ fi)) n vectors).
Proof.
  intros Hf Hwf. pose proof Hf as [Hv Hi].
  destruct (added_frame fi n vectors ids Hi) as (_ & Hidx & _).
  unfold entries, live. rewrite Hidx, bi_add_ntotal, seq_app, omap_app, fmap_app by done.
  f_equal.
  - f_equal. apply omap_ext_in. intros l [_ Hl]%elem_of_seq. by apply added_live_old.
  - replace (seq (0 + bi_ntotal (index_ fi)) n)
      with (Nat.add (bi_ntotal (index_ fi)) <$> seq 0 n)
      by (rewrite fmap_add_seq; f_equal; lia).
    apply omap_seq_lookup.
    + rewrite length_zip_with, length_take_le, length_chunks by done. lia.
    + intros i Hin. by apply added_live_new.
Qed.
End batches.

(** ** Erasing *)

Section erasing.
Context {F : Faiss} {FL : FaissLaws F}.
Implicit Types fi : faiss_index.

Definition erased fi (n : nat) (ids : list string) : faiss_index :=
  foldl erase_id fi (take n ids).

Lemma erase_id_frame fi id :
  let fi' := erase_id fi id in
  fi_kind fi' = fi_kind fi ∧ index_ fi' = index_ fi ∧ next_id fi' = next_id fi ∧
  ids_ fi' = ids_ fi ∧ inv_ids_ fi' = inv_ids_ fi ∧ erased_ fi ⊆ erased_ fi'.
Proof. unfold erase_id. destruct (ids_ fi !! id); simpl; split_and!; set_solver. Qed.

Lemma erase_id_size fi id : size (erased_ (erase_id fi id)) ≤ S (size (erased_ fi)).
Proof.
  unfold erase_id. destruct (ids_ fi !! id); simpl; [|lia].
  rewrite size_union_alt, size_singleton.
  assert (size (erased_ fi ∖ {[z]}) ≤ size (erased_ fi)); [|lia].
  apply subseteq_size. set_solver.
Qed.

Lemma erase_id_wf fi id : fi_wf fi → fi_wf (erase_id fi id).
Proof.
  intros Hwf. unfold erase_id. destruct (ids_ fi !! id) as [l|] eqn:E; [|done].
  destruct Hwf as [[H0 Hlab Hids Hkn Her] Hn].
  split; [split|]; simpl; auto. intros l'. rewrite elem_of_union, elem_of_singleton.
  intros [->|?]; eauto.
Qed.

Lemma erase_id_tidy fi id : tidy fi → tidy (erase_id fi id).
Proof.
  intros Ht l x. destruct (erase_id_frame fi id) as (_ & _ & _ & -> & -> & He).
  intros Hx Hl. apply Ht; [done|]. set_solver.
Qed.

(** In a tidy index, erasing an id removes its entry and no other. *)
Lemma erase_id_entries fi id :
  maps_wf fi → tidy fi →
  entries (erase_id fi id) = filter (λ e, e.1 ≠ id) (entries fi).
Proof.
  intros Hwf Ht. unfold entries, live.
  destruct (erase_id_frame fi id) as (_ & Hidx & _). rewrite Hidx.
  apply omap_filter_snd. intros l _.
  unfold live_at at 1. destruct (erase_id_frame fi id) as (_ & -> & _ & _ & -> & _).
  unfold erase_id. destruct (ids_ fi !! id) as [l0|] eqn:E; simpl.
  - unfold live_at. destruct (decide (Z.of_nat l ∈ erased_ fi)) as [He|He].
    { by rewrite decide_True by set_solver. }
    destruct (inv_ids_ fi !! Z.of_nat l) as [x|] eqn:Ex; [|by case_decide].
    pose proof (Ht _ _ Ex He) as Hx.
    destruct (bi_vecs (index_ fi) !! l) as [v|]; simpl; [|by case_decide].
    destruct (decide (x = id)) as [->|Hne].
    + rewrite decide_True; [|set_solver]. by rewrite decide_False by naive_solver.
    + rewrite decide_False, decide_True; [done|done|].
      rewrite elem_of_union, elem_of_singleton. intros [?|?]; [|done].
      subst l0. apply (wf_ids _ Hwf) in E. congruence.
  - fold (live_at fi l). destruct (live_at fi l) as [e|] eqn:Ee; simpl; [|done].
    apply live_at_Some in Ee as (x & v & -> & Hx & _ & He). simpl.
    rewrite decide_True; [done|]. intros ->. by rewrite (Ht _ _ Hx He) in E.
Qed.

Lemma foldl_erase_frame fi ids :
  let fi' := foldl erase_id fi ids in
  fi_kind fi' = fi_kind fi ∧ index_ fi' = index_ fi ∧ seen fi' = seen fi ∧
  (fi_count fi - Z.of_nat (length ids) ≤ fi_count fi' ≤ fi_count fi)%Z.
Proof.
  revert fi. induction ids as [|x ids IH]; intros fi; simpl; [split_and!; try done; lia|].
  destruct (IH (erase_id fi x)) as (-> & -> & -> & Hc).
  destruct (erase_id_frame fi x) as (-> & -> & _ & Hids & _ & He).
  pose proof (erase_id_size fi x).
  unfold seen, fi_count in *. rewrite Hids in *. apply subseteq_size in He.
  split_and!; [done..| |]; lia.
Qed.

Lemma erased_frame fi n ids :
  let fi' := erased fi n ids in
  fi_kind fi' = fi_kind fi ∧ index_ fi' = index_ fi ∧ seen fi' = seen fi ∧
  (fi_count fi - Z.of_nat n ≤ fi_count fi' ≤ fi_count fi)%Z.
Proof.
  destruct (foldl_erase_frame fi (take n ids)) as (H1 & H2 & H3 & H4).
  rewrite length_take in H4. unfold erased. split_and!; [done..| |]; lia.
Qed.

Lemma erased_wf fi n ids : fi_wf fi → fi_wf (erased fi n ids).
Proof.
  unfold erased. generalize (take n ids). intros l. revert fi.
  induction l; intros fi Hwf; simpl; auto using erase_id_wf.
Qed.
Lemma erased_tidy fi n ids : tidy fi → tidy (erased fi n ids).
Proof.
  unfold erased. generalize (take n ids). intros l. revert fi.
  induction l; intros fi Hwf; simpl; auto using erase_id_tidy.
Qed.

Lemma erased_entries fi n ids :
  fi_wf fi → tidy fi →
  entries (erased fi n ids) = filter (λ e, e.1 ∉ take n ids) (entries fi).
Proof.
  unfold erased. generalize (take n ids). intros l. revert fi.
  induction l as [|x l IH]; intros fi Hwf Ht; simpl.
  { symmetry. apply list_filter_all. apply Forall_forall. set_solver. }
  rewrite IH by (auto using erase_id_wf, erase_id_tidy).
  rewrite erase_id_entries, list_filter_filter by (done || apply Hwf).
  apply list_filter_iff. intros e. rewrite not_elem_of_cons. naive_solver.
Qed.
End erasing.

(** ** Merging *)

Section merging.
Context `{SL : StdLib} {F : Faiss} {FL : FaissLaws F}.
Implicit Types fi o : faiss_index.

(** What is copied is the other index's live entries, in whatever order the
    hash map is traversed. *)
Lemma live_labels_entries o :
  fi_wf o → zip (live_labels o).*2 (bi_reconstruct (index_ o) <$> (live_labels o).*1)
            ≡ₚ entries o.
Proof.
  intros [Hm Hn].
  set (f := λ p : Z * string, (p.1, (p.2, bi_reconstruct (index_ o) p.1))).
  transitivity ((f <$> live_labels o).*2).
  { rewrite zip_fmap_fst_snd_swap. rewrite <-list_fmap_compose. done. }
  unfold entries. apply Permutation_map, NoDup_Permutation.
  - apply (NoDup_fmap_2_strong _).
    + intros [l x] [l' x'] _ _ [=]. by subst.
    + apply NoDup_filter, NoDup_std_iter.
  - eapply NoDup_fmap_1, NoDup_live_labels.
  - intros [l [x v]]. rewrite elem_of_live, list_elem_of_fmap. split.
    + intros ([l' x'] & [= -> -> ->] & Hin). unfold live_labels in Hin.
      apply list_elem_of_filter in Hin as [He Hin%elem_of_std_iter]; simpl in *.
      assert (0 ≤ l' < next_id o)%Z as Hr by (apply (wf_labels _ Hm); eauto).
      exists (Z.to_nat l'). rewrite lookup_bi_vecs, Z2Nat.id by lia.
      split_and!; try done; lia.
    + intros (n & -> & Hx & [_ <-]%lookup_bi_vecs & He).
      exists (Z.of_nat n, x). split; [done|]. unfold live_labels.
      apply list_elem_of_filter. by rewrite elem_of_std_iter.
Qed.

Definition merged fi o : faiss_index :=
  let live := live_labels o in
  added fi (length live)
    (concat (bi_reconstruct (index_ o) <$> live.*1)) live.*2.

Lemma live_rows_d o :
  fi_wf o → Forall (λ v, length v = bi_d (index_ o))
              (bi_reconstruct (index_ o) <$> (live_labels o).*1).
Proof.
  intros [Hm Hn]. apply Forall_forall. intros v (l & -> & Hl)%list_elem_of_fmap.
  apply list_elem_of_fmap in Hl as ([l' x] & -> & Hin). unfold live_labels in Hin.
  apply list_elem_of_filter in Hin as [_ Hin%elem_of_std_iter]; simpl in *.
  assert (0 ≤ l' < next_id o)%Z as Hr by (apply (wf_labels _ Hm); eauto).
  rewrite <-(Z2Nat.id l') by lia. apply bi_reconstruct_d. lia.
Qed.

Definition compatible fi o : Prop :=
  fi_kind o = fi_kind fi ∧ bi_d (index_ o) = bi_d (index_ fi).

Lemma merged_fits fi o : fi_wf o → compatible fi o →
  fits fi (length (live_labels o))
    (concat (bi_reconstruct (index_ o) <$> (live_labels o).*1)) (live_labels o).*2.
Proof.
  intros Hwf [_ Hd]. pose proof (live_rows_d o Hwf) as Hrows.
  split; [|by rewrite length_fmap].
  rewrite (length_concat_d _ _ Hrows), !length_fmap. lia.
Qed.

Lemma merge_from_other_Ok fi o :
  fi_wf o → compatible fi o → merge_from_other fi o = Ok (merged fi o).
Proof.
  intros Hwf Hc. pose proof (merged_fits fi o Hwf Hc) as Hfit.
  destruct Hc as [Hk Hd]. unfold merge_from_other.
  rewrite decide_True, decide_True by (done || by rewrite Hd).
  pose proof (live_rows_d o Hwf) as Hrows.
  rewrite (length_concat_d _ _ Hrows), !length_fmap, Hd, Nat.sub_diag, app_nil_r.
  by apply add_batch_Ok.
Qed.

Lemma merged_entries fi o :
  fi_wf fi → fi_wf o → compatible fi o →
  entries (merged fi o) ≡ₚ entries fi ++ entries o.
Proof.
  intros Hwf Hwfo Hc. unfold merged.
  rewrite added_entries by (done || by apply merged_fits).
  rewrite take_ge by (by rewrite length_fmap). f_equiv.
  rewrite <-(live_labels_entries o) by done.
  destruct Hc as [_ Hd]. pose proof (live_rows_d o Hwfo) as Hrows. rewrite Hd in Hrows.
  pose proof (chunks_concat _ _ [] Hrows) as Hch.
  rewrite app_nil_r, !length_fmap in Hch. by rewrite Hch.
Qed.

Lemma merged_tidy fi o :
  fi_wf fi → fi_wf o → compatible fi o → tidy fi → tidy o →
  (∀ x, x ∈ (entries fi).*1 → x ∉ (entries o).*1) → tidy (merged fi o).
Proof.
  intros Hwf Hwfo Hc Ht Hto Hdisj. unfold merged.
  assert ((live_labels o).*2 ≡ₚ (entries o).*1) as Hids.
  { rewrite <-(live_labels_entries o) by done. rewrite fst_zip; [done|].
    by rewrite !length_fmap. }
  apply added_tidy; [by apply merged_fits|done..| |];
    rewrite take_ge by (by rewrite length_fmap).
  - rewrite Hids. by apply tidy_NoDup.
  - intros x. rewrite Hids. intros Hx Hx'. by apply (Hdisj x).
Qed.
End merging.

(** ** Searching *)

Section searching.
Context `{SL : StdLib} {F : Faiss} {FL : FaissLaws F}.
Implicit Types fi : faiss_index.

Definition fi_dist fi (q v : list f32) : f32 := metric_dist (bi_metric (index_ fi)) q v.

(** No stored vector is at distance NaN from the query. *)
Definition no_nan fi (q : list f32) : Prop :=
  ∀ v, v ∈ bi_vecs (index_ fi) → not_nan (fi_dist fi q v).

(** The row FAISS would give for a live entry. *)
Definition live_row fi (q : list f32) (e : Z * (string * list f32)) : f32 * Z :=
  (fi_dist fi q e.2.2, e.1).
(** What [single_search] reports for it. *)
Definition hit fi (q : list f32) (e : string * list f32) : string * f32 :=
  (e.1, fi_dist fi q e.2).

Section query.
Context fi (q : list f32) (rows : list (f32 * Z)).
Context (Hwf : fi_wf fi) (Hnan : no_nan fi q).
Context (Hrows : Forall (row_ok (index_ fi) q) rows).
Context (Hnd : NoDup (filter (λ l, l ≠ (-1)%Z) rows.*2)).

Let kept := filter (row_live fi) rows.

Lemma kept_nodup : NoDup kept.*2.
Proof.
  clear Hrows. unfold kept. induction rows as [|[d l] rs IH]; [constructor|].
  rewrite fmap_cons, filter_cons in Hnd. rewrite filter_cons. simpl in Hnd.
  destruct (decide (row_live fi (d, l))) as [Hl|Hl]; simpl.
  - rewrite decide_True in Hnd by apply Hl. apply NoDup_cons in Hnd as [Hn1 Hn2].
    constructor; [|by apply IH].
    intros ([d' l'] & Heq & [Hl' Hin]%list_elem_of_filter)%list_elem_of_fmap.
    simpl in *; subst l'. apply Hn1, list_elem_of_filter.
    split; [apply Hl|]. by apply (list_elem_of_fmap_2 snd) in Hin.
  - apply IH. case_decide; [|done]. by apply NoDup_cons in Hnd as [_ ?].
Qed.

Lemma kept_live row :
  row ∈ kept → ∃ e, e ∈ live fi ∧ row = live_row fi q e.
Proof.
  unfold kept. intros [[Hne [[x Hx] He]] Hin]%list_elem_of_filter.
  rewrite Forall_forall in Hrows. destruct (Hrows row Hin) as [?|(l & v & Hl & Hv & Hd)];
    [done|].
  exists (row.2, (x, v)). split.
  - apply elem_of_live. exists l. by rewrite Hl in *.
  - destruct row. by simplify_eq/=.
Qed.

Lemma live_row_ok e : e ∈ live fi → lex_ok (live_row fi q e).
Proof.
  destruct e as [l [x v]]. intros (n & -> & _ & Hv & _)%elem_of_live.
  apply Hnan. by eapply list_elem_of_lookup_2.
Qed.

Lemma kept_swo : swo_on pair_lt (.∈ kept).
Proof.
  eapply swo_weaken; [apply (lex_swo _ Zltb_strict_total)|].
  intros row (e & He & ->)%kept_live. by apply live_row_ok.
Qed.

(** The kept rows are some of the live entries' rows. *)
Lemma kept_split :
  ∃ es rest, live fi ≡ₚ es ++ rest ∧ std_sort pair_lt kept = live_row fi q <$> es.
Proof.
  assert (kept ⊆+ (live_row fi q <$> live fi)) as [rest Hp]%submseteq_Permutation.
  { apply NoDup_submseteq; [eapply NoDup_fmap_1, kept_nodup|].
    intros row (e & He & ->)%kept_live. by apply list_elem_of_fmap_2. }
  rewrite <-(std_sort_perm _ _ kept_swo) in Hp. symmetry in Hp.
  apply Permutation_map_inv in Hp as (es & Heq & Hp).
  exists (take (length (std_sort pair_lt kept)) es),
         (drop (length (std_sort pair_lt kept)) es).
  rewrite take_drop. split; [done|].
  change (map ?f ?l) with (f <$> l) in Heq.
  rewrite fmap_take, <-Heq, take_app_length. done.
Qed.

(** [inv_ids_.at] does not throw on them. *)
Lemma row_ids_live es :
  (∀ e, e ∈ es → e ∈ live fi) →
  row_ids fi (live_row fi q <$> es) = Ok (hit fi q <$> es.*2).
Proof.
  induction es as [|[l [x v]] es IH]; intros Hes; [done|]. rewrite !fmap_cons.
  assert ((l, (x, v)) ∈ live fi) as (n & -> & Hx & _)%elem_of_live by (apply Hes; by left).
  unfold row_ids in *. cbn [mapM].
  assert (row_id fi (live_row fi q (Z.of_nat n, (x, v))) =
    Ok (hit fi q (x, v))) as -> by (unfold row_id; simpl; by rewrite Hx). simpl.
  rewrite IH by (intros e He; apply Hes; by right). done.
Qed.

(** Exhaustive search: no live vector left out is closer than a kept one,
    and one is left out only when [k] are kept. *)
Lemma kept_exact k :
  bi_flat (index_ fi) = true → bi_d (index_ fi) ≤ length q →
  0 < k + size (erased_ fi) → length rows = k + size (erased_ fi) →
  bi_search (index_ fi) q (k + size (erased_ fi)) = Ok rows →
  ∀ e, e ∈ live fi → live_row fi q e ∉ kept →
    k ≤ length kept ∧ ∀ row, row ∈ kept → fle row.1 (fi_dist fi q e.2.2).
Proof.
  intros Hflat Hq Hk Hlen Hs [l [x v]] He Hkept.
  pose proof He as (n & -> & Hx & Hv & Her)%elem_of_live.
  assert (Z.of_nat n ∉ rows.*2) as Hnot.
  { intros (row & Hl & Hin)%list_elem_of_fmap. apply Hkept.
    assert (row = live_row fi q (Z.of_nat n, (x, v))) as <-.
    { rewrite Forall_forall in Hrows.
      destruct (Hrows row Hin) as [Hm1|(l & v' & Hl' & Hv' & Hd)]; [lia|].
      destruct row; by simplify_eq/=. }
    apply list_elem_of_filter. split; [|done].
    unfold row_live. rewrite <-Hl. split_and!; eauto. lia. }
  destruct (bi_search_exact _ _ _ _ Hflat Hk Hq Hs _ _ Hv Hnot) as [Hpad Hbest].
  split.
  - assert (length (filter (λ row, ¬ row_live fi row) rows) ≤ size (erased_ fi)).
    { rewrite <-(length_fmap snd). apply NoDup_incl_length_set.
      - apply (NoDup_sublist_fmap rows); [apply sublist_filter|].
        by rewrite list_filter_all in Hnd
          by (apply Forall_forall; intros l Hl ->; done).
      - intros l (row & -> & [Hnl Hin]%list_elem_of_filter)%list_elem_of_fmap.
        rewrite Forall_forall in Hrows. destruct (Hrows row Hin) as [Hm1|(l & w & Hl & Hw & _)].
        { destruct Hpad. rewrite <-Hm1. by apply list_elem_of_fmap_2. }
        apply dec_stable. intros Hne. apply Hnl. split_and!; [lia| |done].
        rewrite Hl. apply (wf_labels _ (wf_maps _ Hwf)). rewrite (wf_next _ Hwf).
        apply lookup_bi_vecs in Hw as [? _]. lia. }
    pose proof (filter_length_split (row_live fi) rows). unfold kept. lia.
  - intros row [_ Hin]%list_elem_of_filter. rewrite Forall_forall in Hbest.
    by apply Hbest.
Qed.
End query.
End searching.

(** *** The search as a whole *)

Section search_spec.
Context `{SL : StdLib} {F : Faiss} {FL : FaissLaws F}.
Implicit Types fi : faiss_index.

(** Any index: the search returns, and reports live entries in order of
    distance, at most [k] of them and each label once. *)
Lemma single_search_live fi k q :
  fi_wf fi → no_nan fi q → bi_d (index_ fi) ≤ length q → 0 < k + size (erased_ fi) →
  ∃ rows es rest,
    bi_search (index_ fi) q (k + size (erased_ fi)) = Ok rows ∧
    length rows = k + size (erased_ fi) ∧
    Forall (row_ok (index_ fi) q) rows ∧ NoDup (filter (λ l, l ≠ (-1)%Z) rows.*2) ∧
    live fi ≡ₚ es ++ rest ∧
    std_sort pair_lt (filter (row_live fi) rows) = live_row fi q <$> es ∧
    single_search fi k q = Ok (hit fi q <$> (take k es).*2).
Proof.
  intros Hwf Hnan Hq Hk.
  destruct (bi_search_rows (index_ fi) q _ Hk Hq) as (rows & Hs & Hlen & Hrows & Hnd).
  destruct (kept_split fi q rows Hnan Hrows Hnd) as (es & rest & Hp & Hes).
  exists rows, es, rest. split_and!; [done..|].
  unfold single_search. rewrite decide_True by done. rewrite Hs. simpl.
  rewrite Hes, length_fmap, <-fmap_take.
  rewrite (row_ids_live fi q).
  - f_equal. f_equal. f_equal. destruct (decide (k ≤ length es)).
    + by rewrite Nat.min_l.
    + rewrite Nat.min_r, !take_ge by lia. done.
  - intros e He. rewrite Hp. apply elem_of_app. left.
    rewrite <-(take_drop (k `min` length es) es). apply elem_of_app. by left.
Qed.

Lemma live_sorted fi q es rest rows :
  fi_wf fi → no_nan fi q → live fi ≡ₚ es ++ rest →
  Forall (row_ok (index_ fi) q) rows →
  std_sort pair_lt (filter (row_live fi) rows) = live_row fi q <$> es →
  StronglySorted (λ e e', fle (fi_dist fi q e.2.2) (fi_dist fi q e'.2.2)) es.
Proof.
  intros Hwf Hnan Hp Hrows Hes.
  pose proof (std_sort_sorted _ _ (kept_swo fi q rows Hnan Hrows)) as Hs.
  rewrite Hes in Hs.
  assert (Forall (λ e, e ∈ live fi) es) as Hin
    by (apply Forall_forall; intros e He; rewrite Hp; set_solver).
  clear Hp Hes. induction es as [|e es IH]; [constructor|].
  rewrite fmap_cons in Hs. apply StronglySorted_cons in Hs as [Hs1 Hs2].
  apply Forall_cons in Hin as [He Hin]. constructor; [by apply IH|].
  apply Forall_forall. intros e' He'.
  pose proof (proj1 (Forall_forall _ _) Hin e' He').
  apply (lex_not_lt_fle Z.ltb (live_row fi q e) (live_row fi q e'));
    [by apply live_row_ok..|].
  apply (proj1 (Forall_forall _ _) Hs1). by apply list_elem_of_fmap_2.
Qed.

Lemma live_entry_label fi e e' :
  e ∈ live fi → e' ∈ live fi → e.1 = e'.1 → e = e'.
Proof.
  destruct e as [l [x v]], e' as [l' [x' v']]. simpl.
  intros (n & -> & Hx & Hv & _)%elem_of_live (n' & -> & Hx' & Hv' & _)%elem_of_live ?.
  by simplify_eq.
Qed.

(** [IndexFlat]: live entries that were not kept are no closer, and [k]
    were kept if there are any. *)
Lemma rest_dominated fi k q rows es rest :
  fi_wf fi → no_nan fi q → bi_flat (index_ fi) = true →
  bi_d (index_ fi) ≤ length q → 0 < k + size (erased_ fi) →
  bi_search (index_ fi) q (k + size (erased_ fi)) = Ok rows →
  length rows = k + size (erased_ fi) →
  Forall (row_ok (index_ fi) q) rows → NoDup (filter (λ l, l ≠ (-1)%Z) rows.*2) →
  live fi ≡ₚ es ++ rest →
  std_sort pair_lt (filter (row_live fi) rows) = live_row fi q <$> es →
  ∀ e, e ∈ rest → k ≤ length es ∧
    ∀ e', e' ∈ es → fle (fi_dist fi q e'.2.2) (fi_dist fi q e.2.2).
Proof.
  intros Hwf Hnan Hflat Hq Hk Hs Hlen Hrows Hnd Hp Hes e He.
  pose proof (std_sort_perm _ _ (kept_swo fi q rows Hnan Hrows)) as Hkept.
  rewrite Hes in Hkept.
  assert (e ∈ live fi) as Hel by (rewrite Hp; set_solver).
  destruct (kept_exact fi q rows Hwf Hrows Hnd k Hflat Hq Hk Hlen Hs e Hel) as [Hle Hbest].
  { rewrite <-Hkept. intros (e' & Heq & He')%list_elem_of_fmap.
    assert (e = e') as ->.
    { apply (live_entry_label fi); [done|rewrite Hp; set_solver|by injection Heq]. }
    pose proof (NoDup_live_labels fi) as Hlab%NoDup_fmap_1. rewrite Hp in Hlab.
    apply NoDup_app in Hlab as (_ & Hd & _). by apply (Hd e'). }
  rewrite <-Hkept, length_fmap in Hle. split; [done|]. intros e' He'.
  apply (Hbest (live_row fi q e')). rewrite <-Hkept. by apply list_elem_of_fmap_2.
Qed.

(** [IndexFlat]: the search reports the [k] nearest live entries. *)
Lemma single_search_exact fi k q :
  fi_wf fi → tidy fi → no_nan fi q → bi_flat (index_ fi) = true →
  bi_d (index_ fi) ≤ length q → 0 < k + size (erased_ fi) →
  ∃ es, is_topk (λ e, fi_dist fi q e.2) k (entries fi) es ∧
    single_search fi k q = Ok (hit fi q <$> es) ∧
    StronglySorted (λ e e', fle (fi_dist fi q e.2) (fi_dist fi q e'.2)) es.
Proof.
  intros Hwf Ht Hnan Hflat Hq Hk.
  destruct (single_search_live fi k q Hwf Hnan Hq Hk)
    as (rows & es & rest & Hs & Hlen & Hrows & Hnd & Hp & Hes & Hout).
  pose proof (live_sorted _ _ _ _ _ Hwf Hnan Hp Hrows Hes) as Hsorted.
  pose proof (rest_dominated fi k q rows es rest Hwf Hnan Hflat Hq Hk Hs Hlen Hrows
    Hnd Hp Hes) as Hrest.
  rewrite <-(take_drop k es) in Hsorted.
  exists (take k es).*2. split_and!; [|done|].
  - apply (topk_split _ k _ _ (drop k es ++ rest).*2).
    + eapply NoDup_fmap_1. by apply tidy_NoDup.
    + unfold entries. by rewrite Hp, <-fmap_app, app_assoc, take_drop.
    + unfold entries. rewrite Hp, !length_fmap, length_app, length_take.
      destruct rest as [|e rest]; [simpl; lia|].
      destruct (Hrest e ltac:(by left)) as [? _]. lia.
    + intros x y (ex & -> & Hx)%list_elem_of_fmap (ey & -> & Hy)%list_elem_of_fmap.
      apply elem_of_app in Hy as [Hy|Hy].
      * by apply (StronglySorted_app_1_elem_of _ _ _ _ _ Hsorted).
      * apply (Hrest ey Hy). rewrite <-(take_drop k es). set_solver.
  - apply StronglySorted_app_1_l in Hsorted.
    by apply StronglySorted_fmap
      with (R1 := λ e e', fle (fi_dist fi q e.2.2) (fi_dist fi q e'.2.2)).
Qed.
End search_spec.

(** ** Round trip *)

Section roundtrip.
Context `{SL : StdLib} {F : Faiss} {FL : FaissLaws F}.
Implicit Types fi : faiss_index.

(** What fits the file format: 64-bit labels and strings a [std::string] can
    hold. *)
Definition storable fi : Prop :=
  (next_id fi < 2 ^ 63)%Z ∧
  ∀ x, x ∈ seen fi → (Z.of_nat (String.length x) ≤ string_max_size)%Z.

(** Every label is a 64-bit integer, so no table is larger than that. *)
Lemma labels_bound fi (l : list Z) :
  maps_wf fi → NoDup l → (∀ x, x ∈ l → is_Some (inv_ids_ fi !! x)) →
  (Z.of_nat (length l) ≤ next_id fi)%Z.
Proof.
  intros Hwf Hnd Hl.
  assert (length l ≤ length (Z.of_nat <$> seq 0 (Z.to_nat (next_id fi)))) as Hle.
  { apply NoDup_incl_length; [done|]. intros x Hx.
    apply Hl, (wf_labels _ Hwf) in Hx. apply list_elem_of_fmap.
    exists (Z.to_nat x). rewrite elem_of_seq. lia. }
  rewrite length_fmap, length_seq in Hle. pose proof (wf_next_nonneg _ Hwf). lia.
Qed.

Lemma table_sizes fi : maps_wf fi →
  (Z.of_nat (size (ids_ fi)) ≤ next_id fi)%Z ∧
  (Z.of_nat (size (inv_ids_ fi)) ≤ next_id fi)%Z ∧
  (Z.of_nat (size (erased_ fi)) ≤ next_id fi)%Z.
Proof.
  intros Hwf. split_and!.
  - rewrite <-(length_std_iter (ids_ fi)), <-(length_fmap snd).
    apply (labels_bound fi); [done| |].
    + apply (NoDup_fmap_key fst); [apply NoDup_fst_std_iter|].
      intros [x l] [x' l'] Hx%elem_of_std_iter Hx'%elem_of_std_iter ?. simplify_eq/=.
      apply (wf_ids _ Hwf) in Hx, Hx'. by simplify_eq.
    + intros l ([x l'] & -> & Hx%elem_of_std_iter)%list_elem_of_fmap.
      apply (wf_ids _ Hwf) in Hx. simpl. eauto.
  - rewrite <-(length_std_iter (inv_ids_ fi)), <-(length_fmap fst).
    apply (labels_bound fi); [done|apply NoDup_fst_std_iter|].
    intros l ([l' x] & -> & Hx%elem_of_std_iter)%list_elem_of_fmap. eauto.
  - change (size (erased_ fi)) with (length (elements (erased_ fi))).
    apply (labels_bound fi); [done|apply NoDup_elements|].
    intros l Hl%elem_of_elements. by apply (wf_erased _ Hwf).
Qed.

Lemma read_ids_write junk l m rest :
  Forall (λ kv : string * Z, (Z.of_nat (String.length kv.1) ≤ string_max_size)%Z ∧
    in_range idx_t kv.2) l →
  read_ids junk (length l) m (concat (write_id_entry [] <$> l) ++ rest) =
  Ok (foldl (λ m kv, <[kv.1 := kv.2]> m) m l, rest).
Proof.
  intros Hl. revert m. induction Hl as [|[k v] l [Hk Hv] _ IH]; intros m; [done|].
  rewrite fmap_cons. cbn [concat length read_ids foldl].
  unfold write_id_entry at 1. cbn [fst snd]. rewrite writeBinary_app, <-!app_assoc.
  rewrite readBinary_string_writeBinary by done. cbn [mbind outcome_bind].
  rewrite readBinary_writeBinary by (done || simpl; lia). apply IH.
Qed.

Lemma read_inv_ids_write junk l m rest :
  Forall (λ kv : Z * string, in_range idx_t kv.1 ∧
    (Z.of_nat (String.length kv.2) ≤ string_max_size)%Z) l →
  read_inv_ids junk (length l) m (concat (write_inv_entry [] <$> l) ++ rest) =
  Ok (foldl (λ m kv, <[kv.1 := kv.2]> m) m l, rest).
Proof.
  intros Hl. revert m. induction Hl as [|[k v] l [Hk Hv] _ IH]; intros m; [done|].
  rewrite fmap_cons. cbn [concat length read_inv_ids foldl].
  unfold write_inv_entry at 1. cbn [fst snd].
  rewrite writeBinary_string_app, <-!app_assoc.
  rewrite readBinary_writeBinary by (done || simpl; lia).
  rewrite readBinary_string_writeBinary by done. apply IH.
Qed.

Lemma read_erased_write junk l s rest :
  Forall (in_range idx_t) l →
  read_erased junk (length l) s (concat (writeBinary idx_t [] <$> l) ++ rest) =
  (list_to_set l ∪ s, rest).
Proof.
  intros Hl. revert s. induction Hl as [|x l Hx _ IH]; intros s.
  { simpl. by rewrite union_empty_l_L. }
  rewrite fmap_cons. cbn [concat length read_erased].
  rewrite <-app_assoc, readBinary_writeBinary by (done || simpl; lia).
  rewrite IH. f_equal. set_solver.
Qed.

(** The bytes [serialize_index] appends. *)
Definition index_bytes fi : file :=
  bi_write (index_ fi) ++ writeBinary idx_t [] (next_id fi) ++
  writeBinary size_t [] (Z.of_nat (size (ids_ fi))) ++
  concat (write_id_entry [] <$> std_iter (ids_ fi)) ++
  writeBinary size_t [] (Z.of_nat (size (inv_ids_ fi))) ++
  concat (write_inv_entry [] <$> std_iter (inv_ids_ fi)) ++
  writeBinary size_t [] (Z.of_nat (size (erased_ fi))) ++
  concat (writeBinary idx_t [] <$> std_iter_set (erased_ fi)).

Lemma serialize_index_bytes fi fd : serialize_index fi fd = fd ++ index_bytes fi.
Proof.
  unfold serialize_index, index_bytes.
  rewrite !(foldl_append (writeBinary idx_t)), !(foldl_append write_inv_entry),
    !(foldl_append write_id_entry).
  - unfold writeBinary, fwrite. rewrite !app_nil_l. by rewrite <-!app_assoc.
  - intros fd' [k v]. unfold write_id_entry. simpl.
    by rewrite writeBinary_app, writeBinary_string_app, <-app_assoc.
  - intros fd' [k v]. unfold write_inv_entry. simpl.
    by rewrite writeBinary_string_app, writeBinary_app,
      (writeBinary_string_app (writeBinary _ _ _)), <-app_assoc.
  - apply writeBinary_app.
Qed.

(** The same tables under another template instance. *)
Definition retype (kind : base_kind) fi : faiss_index :=
  FI kind (index_ fi) (next_id fi) (ids_ fi) (inv_ids_ fi) (erased_ fi).

Lemma index_bytes_read junk kind fi rest :
  fi_wf fi → storable fi →
  FaissIndex_read junk kind (index_bytes fi ++ rest) = Ok (retype kind fi, rest).
Proof.
  intros [Hm Hn] [Hmax Hstr]. pose proof (table_sizes fi Hm) as (Hs1 & Hs2 & Hs3).
  pose proof (wf_next_nonneg _ Hm) as H0.
  assert (∀ l, is_Some (inv_ids_ fi !! l) → in_range idx_t l) as Hlab.
  { intros l Hl%(wf_labels _ Hm). apply in_range_idx_t. lia. }
  assert (∀ z, (0 ≤ z ≤ next_id fi)%Z → in_range size_t z) as Hsz.
  { intros z Hz. apply in_range_size_t. unfold u64_modulus. lia. }
  unfold FaissIndex_read, index_bytes. rewrite <-!app_assoc, bi_read_write.
  cbn [mbind outcome_bind].
  rewrite readBinary_writeBinary by (apply in_range_idx_t || simpl; lia).
  rewrite readBinary_writeBinary, Nat2Z.id by (apply Hsz || simpl; lia).
  rewrite <-length_std_iter, read_ids_write.
  2:{ apply Forall_forall. intros [x l] Hx%elem_of_std_iter. simpl. split.
      - apply Hstr. by apply elem_of_dom_2 in Hx.
      - apply Hlab. apply (wf_ids _ Hm) in Hx. eauto. }
  cbn [mbind outcome_bind].
  rewrite readBinary_writeBinary, Nat2Z.id by (apply Hsz || simpl; lia).
  rewrite <-length_std_iter, read_inv_ids_write.
  2:{ apply Forall_forall. intros [l x] Hx%elem_of_std_iter. simpl. split.
      - apply Hlab. eauto.
      - apply Hstr, elem_of_dom. by apply (wf_known _ Hm) in Hx. }
  cbn [mbind outcome_bind].
  rewrite readBinary_writeBinary, Nat2Z.id by (apply Hsz || simpl; lia).
  rewrite <-length_std_iter_set, read_erased_write.
  2:{ apply Forall_forall. intros l Hl%elem_of_std_iter_set.
      by apply Hlab, (wf_erased _ Hm). }
  rewrite !foldl_insert, !list_to_map_std_iter by apply NoDup_fst_std_iter.
  rewrite union_empty_r_L.
  replace (list_to_set (std_iter_set (erased_ fi))) with (erased_ fi)
    by (apply set_eq; intros l; by rewrite elem_of_list_to_set, elem_of_std_iter_set).
  done.
Qed.
End roundtrip.

(** ** [FaissIndex] is an [IBaseIndex] *)

#[export] Instance faiss_ibase `{StdLib} {F : Faiss} : IBaseIndex faiss_index := {|
  ib_make := FaissIndex;
  ib_read := FaissIndex_read;
  ib_class := fi_kind;
  ib_segment_type fi := get_segment_type (fi_kind fi);
  ib_add_batch := add_batch;
  ib_single_search := single_search;
  ib_erase_batch := erase_batch;
  ib_merge_from_other := merge_from_other;
  ib_serialize_index := serialize_index;
  ib_size := fi_size;
|}.

Section instance.
Context `{SL : StdLib} {F : Faiss} {FL : FaissLaws F}.
Implicit Types fi o : faiss_index.

Definition fi_shape fi : shape :=
  Shape (fi_kind fi) (bi_d (index_ fi)) (bi_metric (index_ fi)) (bi_flat (index_ fi)).

Definition rows fi : list (list f32) := bi_vecs (index_ fi).

Lemma FaissIndex_spec a :
  let fi := FaissIndex a in
  fi_wf fi ∧ tidy fi ∧ entries fi = [] ∧ seen fi = ∅ ∧ fi_count fi = 0%Z ∧
  sh_dim (fi_shape fi) = args_dim a ∧ sh_kind (fi_shape fi) = args_kind a ∧
  sh_metric (fi_shape fi) = args_metric a ∧
  (args_kind a = IndexFlat → sh_exact (fi_shape fi) = true).
Proof.
  simpl. split_and!; try done.
  - split; [split|]; simpl.
    + done.
    + intros l. rewrite lookup_empty. split; [by intros [? [=]]|lia].
    + intros x l. by rewrite lookup_empty.
    + intros x l. by rewrite lookup_empty.
    + intros l. set_solver.
    + by rewrite bi_make_ntotal.
  - unfold entries, live. simpl. by rewrite bi_make_ntotal.
  - apply bi_make_d.
  - apply bi_make_metric.
  - destruct a; [|done]. intros _. apply bi_make_flat.
Qed.

Lemma add_batch_spec fi n vectors ids :
  fi_wf fi → n * bi_d (index_ fi) ≤ length vectors → n ≤ length ids →
  ∃ fi', add_batch fi n vectors ids = Ok fi' ∧ fi_wf fi' ∧ fi_shape fi' = fi_shape fi ∧
    entries fi' = entries fi ++ zip (take n ids) (chunks (bi_d (index_ fi)) n vectors) ∧
    seen fi' = seen fi ∪ list_to_set (take n ids) ∧
    (fi_count fi ≤ fi_count fi' ≤ fi_count fi + Z.of_nat n)%Z ∧
    (NoDup (take n ids) → (∀ x, x ∈ take n ids → x ∉ seen fi) →
      fi_count fi' = (fi_count fi + Z.of_nat n)%Z) ∧
    (tidy fi → NoDup (take n ids) →
      (∀ x, x ∈ take n ids → x ∉ (entries fi).*1) → tidy fi').
Proof.
  intros Hwf Hv Hi. assert (fits fi n vectors ids) as Hf by done.
  exists (added fi n vectors ids).
  destruct (added_frame fi n vectors ids Hi) as (Hk & Hidx & _ & _ & Hseen & Hc).
  split_and!.
  - by apply add_batch_Ok.
  - by apply added_wf.
  - unfold fi_shape. by rewrite Hk, Hidx, bi_add_d, bi_add_metric, bi_add_flat.
  - by apply added_entries.
  - done.
  - apply Hc.
  - apply Hc.
  - intros Hnd Hfresh. unfold added. rewrite foldl_add_id_count.
    + by rewrite length_take_le.
    + done.
    + by apply Forall_forall.
  - intros Ht Hnd Hd. by apply added_tidy.
Qed.

Lemma erase_batch_spec fi n ids :
  fi_wf fi → n ≤ length ids →
  ∃ fi', erase_batch fi n ids = Ok fi' ∧ fi_wf fi' ∧ fi_shape fi' = fi_shape fi ∧
    seen fi' = seen fi ∧ (fi_count fi - Z.of_nat n ≤ fi_count fi' ≤ fi_count fi)%Z ∧
    (tidy fi → tidy fi' ∧ entries fi' = filter (λ e, e.1 ∉ take n ids) (entries fi)).
Proof.
  intros Hwf Hn. exists (erased fi n ids).
  destruct (erased_frame fi n ids) as (Hk & Hidx & Hs & Hc).
  split_and!; [| | |done|lia|lia|].
  - unfold erase_batch. by rewrite decide_True.
  - by apply erased_wf.
  - unfold fi_shape. by rewrite Hk, Hidx.
  - intros Ht. split; [by apply erased_tidy|by apply erased_entries].
Qed.

Lemma merge_from_other_spec fi o :
  fi_wf fi → fi_wf o → fi_shape o = fi_shape fi →
  ∃ fi', merge_from_other fi o = Ok fi' ∧ fi_wf fi' ∧ fi_shape fi' = fi_shape fi ∧
    entries fi' ≡ₚ entries fi ++ entries o ∧
    seen fi' = seen fi ∪ list_to_set (entries o).*1 ∧
    (fi_count fi ≤ fi_count fi' ≤ fi_count fi + Z.of_nat (length (entries o)))%Z ∧
    (tidy fi → tidy o → (∀ x, x ∈ (entries fi).*1 → x ∉ (entries o).*1) → tidy fi').
Proof.
  intros Hwf Hwfo [= Hk Hd Hm Hfl]. assert (compatible fi o) as Hc by done.
  pose proof (merged_fits fi o Hwfo Hc) as Hfit. pose proof Hfit as [Hv Hi].
  exists (merged fi o). unfold merged.
  destruct (added_frame fi _ (concat (bi_reconstruct (index_ o) <$> (live_labels o).*1)) _ Hi)
    as (Hk' & Hidx & _ & _ & Hseen & Hcnt).
  pose proof (live_labels_entries o Hwfo) as Hl.
  assert ((live_labels o).*2 ≡ₚ (entries o).*1) as Hids.
  { rewrite <-Hl, fst_zip; [done|]. by rewrite !length_fmap. }
  rewrite take_ge in Hseen by (by rewrite length_fmap). split_and!.
  - by apply merge_from_other_Ok.
  - by apply added_wf.
  - unfold fi_shape. by rewrite Hk', Hidx, bi_add_d, bi_add_metric, bi_add_flat.
  - by apply merged_entries.
  - rewrite Hseen. f_equal. apply set_eq. intros x.
    by rewrite !elem_of_list_to_set, Hids.
  - apply Hcnt.
  - apply Permutation_length in Hids. rewrite !length_fmap in Hids.
    rewrite <-Hids. apply Hcnt.
  - intros. by apply merged_tidy.
Qed.

Lemma add_batch_rows fi n vectors ids fi' :
  add_batch fi n vectors ids = Ok fi' →
  rows fi' = rows fi ++ chunks (bi_d (index_ fi)) n vectors.
Proof.
  unfold add_batch. case_decide as Hf; [|done]. intros [= <-].
  destruct (added_frame fi n vectors ids) as (_ & Hidx & _); [apply Hf|].
  unfold added in Hidx. unfold rows. rewrite Hidx. apply bi_add_vecs, Hf.
Qed.

Lemma erase_batch_rows fi n ids fi' : erase_batch fi n ids = Ok fi' → rows fi' = rows fi.
Proof.
  unfold erase_batch. case_decide; [|done]. intros [= <-].
  destruct (erased_frame fi n ids) as (_ & Hidx & _).
  unfold erased in Hidx. unfold rows. by rewrite Hidx.
Qed.

Lemma merge_rows fi o fi' v :
  fi_wf o → fi_shape o = fi_shape fi → merge_from_other fi o = Ok fi' →
  v ∈ rows fi' → v ∈ rows fi ∨ v ∈ rows o.
Proof.
  intros Hwf [= Hk Hd _ _]. rewrite merge_from_other_Ok by done. intros [= <-].
  pose proof (merged_fits fi o Hwf (conj Hk Hd)) as Hfit.
  unfold merged. rewrite (add_batch_rows _ _ _ _ _ (add_batch_Ok _ _ _ _ Hfit)), elem_of_app.
  intros [?|Hv]; [by left|right].
  replace (length (live_labels o))
    with (length (bi_reconstruct (index_ o) <$> (live_labels o).*1)) in Hv
    by (by rewrite !length_fmap).
  rewrite <-(app_nil_r (concat _)), chunks_concat in Hv.
  2:{ rewrite <-Hd. by apply live_rows_d. }
  apply list_elem_of_fmap in Hv as (l & -> & Hl).
  apply list_elem_of_fmap in Hl as ([l' x] & -> & Hin). unfold live_labels in Hin.
  apply list_elem_of_filter in Hin as [_ Hin%elem_of_std_iter]. simpl in *.
  destruct Hwf as [Hm Hn]. assert (0 ≤ l' < next_id o)%Z by (apply (wf_labels _ Hm); eauto).
  unfold rows. apply list_elem_of_lookup. exists (Z.to_nat l').
  rewrite lookup_bi_vecs, Z2Nat.id by lia. split; [lia|done].
Qed.

#[export] Instance faiss_ibase_laws : IBaseIndexLaws faiss_index.
Proof.
  refine {| ib_wf := fi_wf; ib_tidy := tidy; ib_entries := entries; ib_seen := seen;
    ib_count := fi_count; ib_shape := fi_shape; ib_metric_dist := metric_dist;
    ib_rows := rows; ib_storable := storable; ib_retype := retype |}; try done.
  - apply tidy_NoDup.
  - apply FaissIndex_spec.
  - apply add_batch_spec.
  - intros t n vectors ids Hv. simpl. unfold add_batch. rewrite decide_False; [done|].
    simpl in Hv. lia.
  - apply erase_batch_spec.
  - apply merge_from_other_spec.
  - intros t o Hk. simpl. unfold merge_from_other. by rewrite decide_False.
  - intros t k q Hwf (Hk & Hq & Hnan).
    destruct (single_search_live t k q Hwf Hnan Hq ltac:(lia))
      as (rows & es & rest & _ & _ & _ & _ & Hp & _ & Hout).
    exists (take k es).*2, (drop k es ++ rest).*2. split_and!.
    + simpl. unfold entries. by rewrite Hp, <-fmap_app, app_assoc, take_drop.
    + rewrite length_fmap, length_take. lia.
    + exact Hout.
  - intros t k q Hwf Ht Hfl (Hk & Hq & Hnan).
    destruct (single_search_exact t k q Hwf Ht Hnan Hfl Hq ltac:(lia)) as (es & Htop & Hout & _).
    by exists es.
  - intros t [x v] _ (n & _ & Hv & _)%elem_of_entries. by eapply list_elem_of_lookup_2.
  - intros a. simpl. unfold rows, bi_vecs. simpl. by rewrite bi_make_ntotal.
  - apply add_batch_rows.
  - apply erase_batch_rows.
  - apply merge_rows.
  - by intros [].
  - intros k t. simpl. split_and!; try done.
    intros [[H1 H2 H3 H4 H5] H6]. split; [by split|done].
  - intros t fd. simpl. by rewrite serialize_index_bytes, (serialize_index_bytes t []).
  - intros junk kind t rest Hwf Hs. simpl. rewrite serialize_index_bytes. by apply index_bytes_read.
Defined.
End instance.
