(* ===== verification/Segment.v ===== *)
(** * Segments (index/include/Segment.h, ISegment.h, SegmentFactory.h)

    A segment is a base index with an id. [SearchResult] and its order are
    here too: [Index::search] keeps a [std::set] of them. A segment's lock
    ([Locks]) is held for the length of a call; the one call that takes two
    of them, [mergeSegment], blocks forever on itself ([Deadlock],
    [Locks.lock_twice]). *)

From S2P Require Import Prelude Cxx Floats BinaryIO Faiss TopK IBaseIndex.

(** ** Search results *)

Record SearchResult := SR { dist : f32; id : string }.

#[export] Instance SearchResult_eq_dec : EqDecision SearchResult.
Proof. solve_decision. Defined.

(** [operator==] looks at the id only; [operator<] is what [std::set] uses. *)
Definition sr_eq (a b : SearchResult) : bool := bool_decide (id a = id b).
Definition sr_lt (a b : SearchResult) : bool :=
  flt (dist a) (dist b) || (feq (dist a) (dist b) && str_lt (id a) (id b)).
Definition sr_gt (a b : SearchResult) : bool :=
  flt (dist b) (dist a) || (feq (dist a) (dist b) && str_lt (id b) (id a)).

(** ** Segments *)

Record segment (T : Type) := Seg {
  seg_id : Z;
  seg_type : Z;
  seg_index : T;
}.
Arguments Seg {_} _ _ _.
Arguments seg_id {_} _.
Arguments seg_type {_} _.
Arguments seg_index {_} _.

Section segment.
Context {T : Type} `{IBaseIndex T}.
Implicit Types s o : segment T.

(** [Segment(args...)], which [SegmentFactory::create] calls with the
    arguments it holds; [r] is the value of [rand()]. *)
Definition Segment (a : index_args) (r : Z) : segment T :=
  let t := ib_make a in Seg r (SegmentType_int (ib_segment_type t)) t.

(** [Segment(FILE* fd)]; [seg_id] is uninitialised before it is read. *)
Definition Segment_read (junk : Z) (kind : base_kind) (fd : file) :
    outcome (segment T * file) :=
  '(t, fd) ← ib_read junk kind fd;
  let '(i, fd) := readBinary size_t fd junk in
  Ok (Seg i (SegmentType_int (get_segment_type kind)) t, fd).

Definition with_index s (t : T) : segment T := Seg (seg_id s) (seg_type s) t.
Definition with_id s (i : Z) : segment T := Seg i (seg_type s) (seg_index s).

Definition addVectorBatch s (n : nat) (ids : list string) (vectors : list f32) :
    outcome (segment T) :=
  t ← ib_add_batch (seg_index s) n vectors ids; Ok (with_index s t).

Definition deleteBatch s (n : nat) (ids : list string) : outcome (segment T) :=
  t ← ib_erase_batch (seg_index s) n ids; Ok (with_index s t).

(** [result[indices[i]] = distances[i]] *)
Definition collect (hits : list (string * f32)) : gmap string f32 :=
  foldl (λ m h, <[h.1 := h.2]> m) ∅ hits.

(** [std::vector<IDType> indices(k)] throws for a negative [k]. *)
Definition searchQuery s (query : list f32) (k : Z) : outcome (gmap string f32) :=
  if (k <? 0)%Z then Throw LengthError
  else hits ← ib_single_search (seg_index s) (Z.to_nat k) query; Ok (collect hits).

(** [assert(dynamic_pointer_cast<Segment>(other))] comes first. *)
Definition mergeSegment s o : outcome (segment T) :=
  if decide (ib_class (seg_index o) = ib_class (seg_index s)) then
    t ← ib_merge_from_other (seg_index s) (seg_index o); Ok (with_index s t)
  else Undef AssertFailed.

Definition serialize s (fd : file) : file :=
  writeBinary size_t (ib_serialize_index (seg_index s) fd) (seg_id s).

(** [serialize(filename)]: mode "w" truncates. *)
Definition serialize_file s (d : gmap string file) (filename : string) : gmap string file :=
  <[filename := serialize s []]> d.

Definition seg_size s : Z := ib_size (seg_index s).
Definition getID s : Z := seg_id s.
End segment.

(** ** The order on results *)

Definition sr_key (a : SearchResult) : f32 * string := (dist a, id a).
Definition sr_ok (a : SearchResult) : Prop := not_nan (dist a).

Lemma sr_lt_lex a b : sr_ok a → sr_ok b → sr_lt a b = lex_lt str_lt (sr_key a) (sr_key b).
Proof.
  intros Ha Hb. unfold sr_lt, lex_lt. simpl. rewrite feq_flt by done.
  by destruct (flt (dist a) (dist b)), (flt (dist b) (dist a)).
Qed.

Lemma sr_lt_swo : swo_on sr_lt sr_ok.
Proof.
  pose proof (lex_swo _ str_lt_strict_total) as [H1 H2 H3]. split.
  - intros a Ha. rewrite sr_lt_lex by done. by apply H1.
  - intros a b c Ha Hb Hc. rewrite !sr_lt_lex by done. by apply H2.
  - intros a b c Ha Hb Hc. rewrite !sr_lt_lex by done. by apply H3.
Qed.

(** Results with different ids are never equivalent, so a set of them loses
    none. *)
Lemma sr_lt_total a b : sr_ok a → sr_ok b → id a ≠ id b → sr_lt a b ∨ sr_lt b a.
Proof.
  intros Ha Hb Hne. rewrite !sr_lt_lex by done.
  by apply (lex_total _ str_lt_strict_total (sr_key a) (sr_key b)).
Qed.

Lemma sr_lt_fle a b : sr_ok a → sr_ok b → sr_lt a b → fle (dist a) (dist b).
Proof.
  intros Ha Hb. rewrite sr_lt_lex by done. by apply (lex_lt_fle str_lt (sr_key a) (sr_key b)).
Qed.

(** ** What the segment operations do to the live entries *)

Section segment_laws.
Context {T : Type} `{L : IBaseIndexLaws T}.
Implicit Types s o : segment T.

Definition seg_wf s : Prop := ib_wf (seg_index s).
Definition seg_tidy s : Prop := ib_tidy (seg_index s).
Definition seg_entries s : list (string * list f32) := ib_entries (seg_index s).
Definition seg_shape s : shape := ib_shape (seg_index s).
Definition seg_count s : Z := ib_count (seg_index s).
Definition seg_seen s : gset string := ib_seen (seg_index s).
Definition seg_dist s (q v : list f32) : f32 :=
  ib_metric_dist (sh_metric (seg_shape s)) q v.

Lemma collect_lookup hits :
  NoDup hits.*1 → ∀ x d, collect hits !! x = Some d ↔ (x, d) ∈ hits.
Proof.
  intros Hnd x d. unfold collect. rewrite foldl_insert by done.
  by rewrite elem_of_list_to_map.
Qed.

(** A query to an exhaustive segment gives its [k] nearest entries, each
    with its distance. *)
Lemma searchQuery_exact s q k :
  seg_wf s → seg_tidy s → sh_exact (seg_shape s) = true → ib_askable (seg_index s) k q →
  ∃ es, is_topk (λ e, seg_dist s q e.2) k (seg_entries s) es ∧
    ∃ m, searchQuery s q (Z.of_nat k) = Ok m ∧
      ∀ x d, m !! x = Some d ↔ ∃ v, (x, v) ∈ es ∧ d = seg_dist s q v.
Proof.
  intros Hwf Ht Hex Hask.
  destruct (ib_search_exact _ k q Hwf Ht Hex Hask) as (es & Htop & Hs).
  exists es. split; [done|]. unfold searchQuery.
  destruct (Z.ltb_spec (Z.of_nat k) 0); [lia|]. rewrite Nat2Z.id, Hs. simpl.
  eexists. split; [done|]. intros x d. rewrite collect_lookup.
  - rewrite list_elem_of_fmap. split.
    + intros ([x' v] & ? & Hin). simplify_eq/=. eauto.
    + intros (v & Hin & ->). by exists (x, v).
  - rewrite <-list_fmap_compose.
    apply (NoDup_fmap_key (λ e, e)); [rewrite list_fmap_id; apply (topk_nodup _ _ _ _ Htop)|].
    intros e e' He He' Heq. unfold compose in Heq. simpl in Heq.
    pose proof (ib_tidy_nodup _ Ht) as Hnd.
    apply (NoDup_fst_inj (ib_entries (seg_index s))); [done| | |done];
      by apply (topk_sub _ _ _ _ Htop).
Qed.
End segment_laws.
