(* ===== verification/IIndex.v ===== *)
(** * Segment storage and its merging (index/include/IIndex.h)

    Segments are heap objects: [segments_], [levels] and [last_] hold
    [shared_ptr]s to the same ones, merging changes one in place, and the
    update callback is handed pointers. [proc] is the process (heap and the
    state of [rand()]); [index_state] an [Index] object with its
    [SegmentStorage]; [st] both, with the calls made to the callback so far.

    [levels] holds segments by size; [merge] combines neighbours of a level
    into the next one within a budget of vectors. *)

From S2P Require Import Prelude Cxx Floats BinaryIO Faiss TopK IBaseIndex Segment.

(** ** State *)

Abbreviation loc := nat.

Record proc (T : Type) := Proc {
  heap : gmap loc (segment T);
  fresh : loc;
  (** how many times [rand()] was called *)
  draws : nat;
}.
Arguments Proc {_} _ _ _.
Arguments heap {_} _.
Arguments fresh {_} _.
Arguments draws {_} _.

(** A null [shared_ptr] in [levels] is [None]. *)
Record index_state := IndexState {
  d_ : nat;
  segmentThreshold_ : Z;
  factory_ : index_args;
  enable_merge_ : bool;
  (** [callback_.has_value()] *)
  callback_ : bool;
  levels : list (list (option loc));
  sz : Z;
  counter : Z;
  segments_ : list loc;
  last_ : loc;
}.

(** One call of the update callback. *)
Record event := Event { ev_erased : list Z; ev_inserted : list loc }.

#[export] Instance event_eq_dec : EqDecision event.
Proof. solve_decision. Defined.

Record st (T : Type) := St {
  st_proc : proc T;
  st_idx : index_state;
  st_log : list event;
}.
Arguments St {_} _ _ _.
Arguments st_proc {_} _.
Arguments st_idx {_} _.
Arguments st_log {_} _.

Definition set_levels (i : index_state) (lv : list (list (option loc))) : index_state :=
  IndexState (d_ i) (segmentThreshold_ i) (factory_ i) (enable_merge_ i) (callback_ i)
    lv (sz i) (counter i) (segments_ i) (last_ i).
Definition set_sz (i : index_state) (z : Z) : index_state :=
  IndexState (d_ i) (segmentThreshold_ i) (factory_ i) (enable_merge_ i) (callback_ i)
    (levels i) z (counter i) (segments_ i) (last_ i).
Definition set_counter (i : index_state) (c : Z) : index_state :=
  IndexState (d_ i) (segmentThreshold_ i) (factory_ i) (enable_merge_ i) (callback_ i)
    (levels i) (sz i) c (segments_ i) (last_ i).
Definition set_segments (i : index_state) (l : list loc) : index_state :=
  IndexState (d_ i) (segmentThreshold_ i) (factory_ i) (enable_merge_ i) (callback_ i)
    (levels i) (sz i) (counter i) l (last_ i).
Definition set_last (i : index_state) (l : loc) : index_state :=
  IndexState (d_ i) (segmentThreshold_ i) (factory_ i) (enable_merge_ i) (callback_ i)
    (levels i) (sz i) (counter i) (segments_ i) l.
Definition set_callback (i : index_state) (b : bool) : index_state :=
  IndexState (d_ i) (segmentThreshold_ i) (factory_ i) (enable_merge_ i) b
    (levels i) (sz i) (counter i) (segments_ i) (last_ i).

Section storage.
Context `{SL : StdLib} {T : Type} `{B : IBaseIndex T}.

Definition on_idx (f : index_state → index_state) (s : st T) : st T :=
  St (st_proc s) (f (st_idx s)) (st_log s).
Definition on_proc (f : proc T → proc T) (s : st T) : st T :=
  St (f (st_proc s)) (st_idx s) (st_log s).
Definition idx {A} (f : index_state → A) : M (st T) A := gets (λ s, f (st_idx s)).

(** ** The process *)

Definition store_seg (l : loc) (sg : segment T) (p : proc T) : proc T :=
  Proc (<[l := sg]> (heap p)) (fresh p) (draws p).
Definition new_seg (sg : segment T) (p : proc T) : proc T :=
  Proc (<[fresh p := sg]> (heap p)) (S (fresh p)) (draws p).
Definition count_draw (p : proc T) : proc T :=
  Proc (heap p) (fresh p) (S (draws p)).

Definition deref (l : loc) : M (st T) (segment T) := λ s,
  match heap (st_proc s) !! l with
  | Some sg => (s, Ok sg)
  | None => (s, Undef NullDeref)
  end.
Definition assign (l : loc) (sg : segment T) : M (st T) () :=
  modify (on_proc (store_seg l sg)).
Definition rand : M (st T) Z := λ s,
  (on_proc count_draw s, Ok (std_rand (draws (st_proc s)))).
Definition alloc (sg : segment T) : M (st T) loc := λ s,
  (on_proc (new_seg sg) s, Ok (fresh (st_proc s))).
(** [factory_->create()] *)
Definition create : M (st T) loc :=
  a ← idx factory_; r ← rand; alloc (Segment a r).

(** [if (callback_ ...) callback_.value()(erased, inserted)] *)
Definition notify (er : list Z) (ins : list loc) : M (st T) () :=
  cb ← idx callback_;
  if cb : bool then modify (λ s, St (st_proc s) (st_idx s) (st_log s ++ [Event er ins]))
  else mret ().

(** ** SegmentStorage::add *)

(** The threshold it is asked with plays no part. *)
Definition merge_predicate (i : index_state) (target_mean : Z) : bool := enable_merge_ i.

(** [for (; (1ll << i) < size; ++i) if (i == levels.size()) levels.push_back({});]
    [1ll << 63] does not fit a [long long]. *)
Fixpoint level_loop (fuel i : nat) (size : Z) (lv : list (list (option loc))) :
    outcome (nat * list (list (option loc))) :=
  match fuel with
  | 0 => Undef ShiftOverflow
  | S fuel =>
    if (2 ^ Z.of_nat i <? size)%Z
    then level_loop fuel (S i) size (if decide (i = length lv) then lv ++ [[]] else lv)
    else Ok (i, lv)
  end.

Definition push_at (i : nat) (l : loc) (lv : list (list (option loc))) :
    outcome (list (list (option loc))) :=
  match lv !! i with
  | Some row => Ok (<[i := row ++ [Some l]]> lv)
  | None => Undef OutOfBounds
  end.

Definition storage_add (l : loc) : M (st T) () :=
  sg ← deref l;
  modify (on_idx (λ i, set_counter i (u64_add (counter i) 1)));;
  modify (on_idx (λ i, set_sz i (u64_add (sz i) (seg_size sg))));;
  lv ← idx levels;
  '(i, lv) ← liftO (level_loop 63 0 (seg_size sg) lv);
  let i := if decide (i = 0) then 0 else i - 1 in
  let lv := if decide (i = length lv) then lv ++ [[]] else lv in
  lv ← liftO (push_at i l lv);
  modify (on_idx (λ x, set_levels x lv)).

(** ** SegmentStorage::merge *)

(** The locals of one round: what is left of the budget, [erased] and
    [inserted]. *)
Record round := Round { amount : Z; r_erased : list Z; r_inserted : list loc }.

(** [levels[i][j]] *)
Definition slot (lv : list (list (option loc))) (i j : nat) : outcome (option loc) :=
  match lv !! i with
  | Some row => match row !! j with Some p => Ok p | None => Undef OutOfBounds end
  | None => Undef OutOfBounds
  end.
(** [levels[i][j].reset()] *)
Definition reset_slot (i j : nat) (lv : list (list (option loc))) :=
  alter (λ row : list (option loc), <[j := None]> row) i lv.

Definition combine_pair (i j : nat) (a b : loc) (sa sb : segment T) (r : round) :
    M (st T) round :=
  let both := u64_add (seg_size sa) (seg_size sb) in
  if decide (a = b) then undef Deadlock
  else
    m ← liftO (mergeSegment sa sb);
    assign a m;;
    fresh_id ← rand;
    assign a (with_id m fresh_id);;
    lv ← idx levels;
    let lv := if decide (i + 1 = length lv) then lv ++ [[]] else lv in
    lv ← liftO (push_at (i + 1) a lv);
    modify (on_idx (λ x, set_levels x (reset_slot i (j + 1) (reset_slot i j lv))));;
    modify (on_idx (λ x, set_counter x (u64_sub (counter x) 1)));;
    mret (Round (u64_sub (amount r) both)
            (r_erased r ++ [getID sb; getID sa]) (r_inserted r ++ [a])).

(** The body of the inner loop. *)
Definition merge_slot (i j : nat) (r : round) : M (st T) round :=
  lv ← idx levels;
  p ← liftO (slot lv i j);
  q ← liftO (slot lv i (j + 1));
  match p, q with
  | Some a, Some b =>
    sa ← deref a;
    sb ← deref b;
    if (amount r <? u64_add (seg_size sa) (seg_size sb))%Z then mret r
    else combine_pair i j a b sa sb r
  | _, _ => mret r
  end.

(** [for (j = 0; j + 1 < levels[i].size(); ++j)]: [n] iterations from [j]. *)
Fixpoint merge_row (n i j : nat) (r : round) : M (st T) round :=
  match n with
  | 0 => mret r
  | S n => r ← merge_slot i j r; merge_row n i (S j) r
  end.

(** [std::find_if] by id over [segments_]: the position found. *)
Fixpoint find_segment (k : Z) (ls : list loc) (pos : nat) : M (st T) (option nat) :=
  match ls with
  | [] => mret None
  | l :: ls =>
    sg ← deref l;
    if (getID sg =? k)%Z then mret (Some pos) else find_segment k ls (S pos)
  end.

(** One iteration of [for (auto&& id : erased)]. *)
Definition erase_found (k : Z) : M (st T) () :=
  ls ← idx segments_;
  p ← find_segment k ls 0;
  match p with
  | None => mret ()
  | Some pos => modify (on_idx (λ x, set_segments x (delete pos (segments_ x))))
  end.

(** One iteration of the outer loop. *)
Definition merge_level (i : nat) (budget : Z) : M (st T) Z :=
  lv ← idx levels;
  r ← merge_row (length (default [] (lv !! i)) - 1) i 0 (Round budget [] []);
  forM (r_inserted r) (λ l, modify (on_idx (λ x, set_segments x (segments_ x ++ [l]))));;
  forM (r_erased r) erase_found;;
  (if decide (r_erased r ≠ [] ∧ r_inserted r ≠ [])
   then notify (r_erased r) (r_inserted r) else mret ());;
  mret (amount r).

Fixpoint merge_levels (fuel i : nat) (budget : Z) : M (st T) () :=
  match fuel with
  | 0 => undef NoFuel
  | S fuel =>
    lv ← idx levels;
    if decide ((0 < budget)%Z ∧ i < length lv) then
      budget ← merge_level i budget;
      merge_levels fuel (S i) budget
    else mret ()
  end.

(** The pointers a storage holds. *)
Definition level_locs (lv : list (list (option loc))) : list loc :=
  omap (λ p, p) (concat lv).

(** The nulls are swept out at the end. *)
Definition sweep (lv : list (list (option loc))) : list (list (option loc)) :=
  (filter (λ p : option loc, is_Some p)) <$> lv.

Definition merge (budget : Z) : M (st T) () :=
  lv ← idx levels;
  merge_levels (S (length lv + length (level_locs lv))) 0 budget;;
  modify (on_idx (λ x, set_levels x (sweep (levels x)))).
End storage.
