(* ===== verification/Events.v ===== *)
(** * What an index tells its callback (index/include/IIndex.h, Index.h)

    The callback is handed ids of segments merged away and pointers to new
    ones. [emits] relates the states around a call: every segment of the levels
    that is new or changed was handed over, and no id handed over as erased is
    the id of a segment the index still has. Ids only ever change to fresh
    draws of [rand()] ([evolves]), so both stay true while calls follow. *)

From S2P Require Import Prelude Cxx Floats BinaryIO Faiss TopK IBaseIndex Segment IIndex.

(** ** Ids *)

Section ids.
Context `{SL : StdLib} {T : Type}.
Implicit Types p : proc T.

(** [rand()] has not repeated a value so far. *)
Definition rand_distinct p : Prop := NoDup (std_rand <$> seq 0 (draws p)).

(** A value [rand()] has returned. *)
Definition drawn p (k : Z) : Prop := ∃ n, n < draws p ∧ k = std_rand n.

Definition unique_ids p : Prop :=
  (∀ l sg, heap p !! l = Some sg → drawn p (seg_id sg)) ∧
  (∀ l l' sg sg', heap p !! l = Some sg → heap p !! l' = Some sg' → seg_id sg = seg_id sg' → l = l').

Lemma rand_distinct_mono p p' : draws p ≤ draws p' → rand_distinct p' → rand_distinct p.
Proof.
  unfold rand_distinct. intros Hle. replace (draws p') with (draws p + (draws p' - draws p)) by lia.
  rewrite seq_app, fmap_app. by intros [? _]%NoDup_app.
Qed.

Lemma rand_inj p m n :
  rand_distinct p → m < draws p → n < draws p → std_rand m = std_rand n → m = n.
Proof.
  unfold rand_distinct. intros Hd Hm Hn Heq.
  apply (NoDup_lookup (std_rand <$> seq 0 (draws p)) m n (std_rand m)); [done|..];
    rewrite list_lookup_fmap, lookup_seq_lt by done; [done|by rewrite Heq].
Qed.

Lemma drawn_mono p p' k : draws p ≤ draws p' → drawn p k → drawn p' k.
Proof. intros Hle (n & Hn & ->). exists n. split; [lia|done]. Qed.

Lemma drawn_nonneg p k : drawn p k → (0 ≤ k)%Z.
Proof. intros (n & _ & ->). apply std_rand_range. Qed.

(** How the segments of a process change: none disappears, and an id changes
    only to a fresh draw. *)
Record evolves p p' : Prop := {
  ev_draws : draws p ≤ draws p';
  ev_live l : is_Some (heap p !! l) → is_Some (heap p' !! l);
  ev_id l sg' : heap p' !! l = Some sg' →
    (∃ sg, heap p !! l = Some sg ∧ seg_id sg' = seg_id sg) ∨
    (∃ n, draws p ≤ n < draws p' ∧ seg_id sg' = std_rand n);
  ev_unique : rand_distinct p' → unique_ids p → unique_ids p';
}.

#[global] Instance evolves_preorder : PreOrder evolves.
Proof.
  split; [intros p; split; eauto|]. intros p1 p2 p3 [D1 L1 I1 U1] [D2 L2 I2 U2]. split; [lia|by eauto|..].
  - intros l sg3 Hsg3. destruct (I2 l sg3 Hsg3) as [(sg2 & Hsg2 & ->)|(n & ? & ->)]; [|right; exists n; split; [lia|done]].
    destruct (I1 l sg2 Hsg2) as [?|(n & ? & ->)]; [by left|right; exists n; split; [lia|done]].
  - intros Hd Hu. apply U2, U1; [done| |done]. by eapply rand_distinct_mono.
Qed.

Lemma evolves_store p l sg sg' :
  heap p !! l = Some sg → seg_id sg' = seg_id sg → evolves p (store_seg l sg' p).
Proof.
  intros Hl Hid.
  assert (∀ l1 sg1, heap (store_seg l sg' p) !! l1 = Some sg1 →
    ∃ sg0, heap p !! l1 = Some sg0 ∧ seg_id sg1 = seg_id sg0) as Hold.
  { intros l1 sg1. simpl. rewrite lookup_insert. case_decide; [intros [= <-]; subst|]; eauto. }
  split; simpl; [done| |by eauto|].
  - intros l1 Hl1. rewrite lookup_insert. by case_decide.
  - intros _ [Hdr Hinj]. split.
    + intros l1 sg1 (sg0 & Hsg0 & ->)%Hold. by apply (Hdr l1).
    + intros l1 l2 sg1 sg2 (sg3 & H3 & ->)%Hold (sg4 & H4 & ->)%Hold. by eapply Hinj.
Qed.

(** A segment, old or new, with an id just drawn. *)
Lemma evolves_draw p l sg' f :
  seg_id sg' = std_rand (draws p) → evolves p (Proc (<[l := sg']> (heap p)) f (S (draws p))).
Proof.
  intros Hid.
  assert (∀ l1 sg1, <[l := sg']> (heap p) !! l1 = Some sg1 →
    (l1 = l ∧ seg_id sg1 = std_rand (draws p)) ∨ (l1 ≠ l ∧ heap p !! l1 = Some sg1)) as Hold.
  { intros l1 sg1. rewrite lookup_insert. case_decide; [intros [= <-]; subst|]; auto. }
  split; simpl; [lia|..].
  - intros l1 Hl1. rewrite lookup_insert. by case_decide.
  - intros l1 sg1 [[_ ->]|[_ ?]]%Hold; [right|left; by eauto]. exists (draws p). split; [lia|done].
  - intros Hd [Hdr Hinj].
    assert (∀ l1 sg1, heap p !! l1 = Some sg1 → seg_id sg1 ≠ std_rand (draws p)) as Hnew.
    { intros l1 sg1 (n & Hn & ->)%Hdr Heq. apply (rand_inj _ _ _ Hd) in Heq; simpl; lia. }
    split.
    + intros l1 sg1 [[_ ->]|[_ Hsg1]]%Hold; [exists (draws p); split; [simpl; lia|done]|].
      eapply drawn_mono; [|by apply (Hdr l1)]. simpl. lia.
    + intros l1 l2 sg1 sg2 [[-> E1]|[_ H1]]%Hold [[-> E2]|[_ H2]]%Hold Heq; [done| | |by eapply Hinj].
      * destruct (Hnew l2 sg2 H2). congruence.
      * destruct (Hnew l1 sg1 H1). congruence.
Qed.

(** ** What is handed to the callback *)

(** [er] are ids given up, [ins] segments to be published, [own] the
    segments in use. *)
Record handed p (own : loc → Prop) (er : list Z) (ins : list loc) : Prop := {
  ha_nodup : NoDup ins;
  ha_live l : l ∈ ins → is_Some (heap p !! l);
  ha_old k : k ∈ er → drawn p k;
  ha_clear k l sg : k ∈ er → own l ∨ l ∈ ins → heap p !! l = Some sg → seg_id sg ≠ k;
}.

Lemma handed_evolves p p' (own own' : loc → Prop) er ins :
  evolves p p' → rand_distinct p' → (∀ l, own' l → own l ∨ heap p !! l = None) →
  handed p own er ins → handed p' own' er ins.
Proof.
  intros [Hdr Hlive Hid _] Hd Hown [Hn Hl Ho Hc]. split; [done|by eauto|by eauto using drawn_mono|].
  intros k l sg' Hk Hin Hsg'. destruct (Ho k Hk) as (n & Hn0 & Hkn).
  destruct (Hid l sg' Hsg') as [(sg & Hsg & ->)|(m & Hm & ->)].
  - apply (Hc k l sg); [done| |done]. destruct Hin as [[?|?]%Hown|?]; [auto|congruence|auto].
  - rewrite Hkn. intros Heq%(rand_inj p'); [lia|done|lia..].
Qed.
End ids.

(** ** Around a call *)

Section emits.
Context `{SL : StdLib} {T : Type}.
Implicit Types s : st T.

(** The segments that make up the index. *)
Definition owned (i : index_state) : list loc := level_locs (levels i) ++ [last_ i].

Definition draws_distinct s : Prop := rand_distinct (st_proc s).

(** Every segment of the levels was handed over, or is as it was. *)
Definition covers (ins : list loc) s s' : Prop :=
  ∀ l, l ∈ level_locs (levels (st_idx s')) →
    l ∈ ins ∨ l ∈ level_locs (levels (st_idx s)) ∧ heap (st_proc s') !! l = heap (st_proc s) !! l.

Lemma covers_trans ins ins' s1 s2 s3 :
  covers ins s1 s2 → covers ins' s2 s3 → covers (ins ++ ins') s1 s3.
Proof.
  intros H1 H2 l Hl. rewrite elem_of_app. destruct (H2 l Hl) as [?|[Hl2 ->]]; [auto|].
  destruct (H1 l Hl2) as [?|[? ->]]; auto.
Qed.
Lemma covers_mono ins ins' s s' : (∀ l, l ∈ ins → l ∈ ins') → covers ins s s' → covers ins' s s'.
Proof. intros Hi Hc l [?|?]%Hc; auto. Qed.

(** An id given up since [s]: a segment of the index had it then, or it was
    drawn since. *)
Definition given_up s s' (k : Z) : Prop :=
  (∃ l sg, l ∈ owned (st_idx s) ∧ heap (st_proc s) !! l = Some sg ∧ seg_id sg = k) ∨
  (∃ n, draws (st_proc s) ≤ n < draws (st_proc s') ∧ k = std_rand n).

(** A segment of the index comes from it or was allocated since. *)
Definition stays s s' : Prop :=
  ∀ l, l ∈ owned (st_idx s') → l ∈ owned (st_idx s) ∨ heap (st_proc s) !! l = None.

Lemma stays_trans s1 s2 s3 :
  evolves (st_proc s1) (st_proc s2) → stays s1 s2 → stays s2 s3 → stays s1 s3.
Proof.
  intros E1 O1 O2 l [Hl|Hl]%O2; [by apply O1|right]. apply eq_None_not_Some.
  intros Hs%(ev_live _ _ E1). rewrite Hl in Hs. by destruct Hs.
Qed.

Lemma given_up_mono s1 s2 s3 k :
  draws (st_proc s2) ≤ draws (st_proc s3) → given_up s1 s2 k → given_up s1 s3 k.
Proof. intros Hle [?|(n & ? & ?)]; [by left|right]. exists n. split; [lia|done]. Qed.

Lemma given_up_trans s1 s2 s3 k :
  evolves (st_proc s1) (st_proc s2) → stays s1 s2 → evolves (st_proc s2) (st_proc s3) →
  given_up s2 s3 k → given_up s1 s3 k.
Proof.
  intros E1 O1 E2. pose proof (ev_draws _ _ E1). pose proof (ev_draws _ _ E2).
  intros [(l & sg & Hl & Hsg & <-)|(n & ? & ?)]; [|right; exists n; split; [lia|done]].
  destruct (ev_id _ _ E1 l sg Hsg) as [(sg0 & Hsg0 & ->)|(n & ? & ->)]; [|right; exists n; split; [lia|done]].
  destruct (O1 l Hl) as [?|?]; [left; by eauto|congruence].
Qed.

Record emits s s' : Prop := {
  em_evolves : evolves (st_proc s) (st_proc s');
  em_owned : stays s s';
  em_events : ∃ evs, st_log s' = st_log s ++ evs ∧ covers (evs ≫= ev_inserted) s s' ∧
    (draws_distinct s' → Forall (λ e, handed (st_proc s') (.∈ owned (st_idx s'))
      (ev_erased e) (ev_inserted e)) evs) ∧
    Forall (λ e, (∀ k, k ∈ ev_erased e → given_up s s' k) ∧
      ∀ l, l ∈ ev_inserted e → l ∈ owned (st_idx s) ∨ heap (st_proc s) !! l = None) evs;
}.

#[global] Instance emits_preorder : PreOrder emits.
Proof.
  split.
  - intros s. split; [done|by left|]. exists []. rewrite app_nil_r. split_and!; [done| |done..].
    intros l Hl. by right.
  - intros s1 s2 s3 [E1 O1 (ev1 & L1 & C1 & H1 & G1)] [E2 O2 (ev2 & L2 & C2 & H2 & G2)].
    split; [by etrans|by eapply stays_trans|].
    exists (ev1 ++ ev2). rewrite bind_app, L2, L1, app_assoc. split_and!; [done|by eapply covers_trans|..].
    + intros Hd. apply Forall_app. split; [|by apply H2].
      eapply Forall_impl; [apply H1; by eapply rand_distinct_mono; [apply (ev_draws _ _ E2)|]|].
      intros e He. by eapply handed_evolves; [| |exact O2|exact He].
    + apply Forall_app. split; (eapply Forall_impl; [done|]); intros e [He Hi]; split; try done.
      * intros k Hk. eapply given_up_mono; [apply (ev_draws _ _ E2)|by apply He].
      * intros k Hk. eapply given_up_trans; [done..|by apply He].
      * intros l Hl. destruct (Hi l Hl) as [?|Hnone]; [by apply O1|right].
        apply eq_None_not_Some. intros Hs%(ev_live _ _ E1). rewrite Hnone in Hs. by destruct Hs.
Qed.
End emits.
