(* ===== verification/Storage.v ===== *)
(** * The storage keeps what it is given (index/include/IIndex.h)

    The invariant of an index's segments and the effect of
    [SegmentStorage::add] and [SegmentStorage::merge] on it: no merge loses or
    duplicates a live vector, [merge] terminates whatever the sizes are, and,
    as long as [rand()] has not repeated a value, no segment a level still
    holds is dropped from [segments_]. *)

From S2P Require Import Prelude Cxx Floats BinaryIO Faiss TopK IBaseIndex Segment IIndex Events.

(** ** Levels *)

Section levels.
Implicit Types lv : list (list (option loc)).
Implicit Types row : list (option loc).

Definition row_locs row : list loc := omap (λ p, p) row.

Lemma level_locs_cons row lv : level_locs (row :: lv) = row_locs row ++ level_locs lv.
Proof. apply omap_app. Qed.
Lemma level_locs_app lv lv' : level_locs (lv ++ lv') = level_locs lv ++ level_locs lv'.
Proof. unfold level_locs. by rewrite concat_app, omap_app. Qed.

Lemma level_locs_row lv i row :
  lv !! i = Some row →
  ∃ rest, ∀ row', level_locs (<[i := row']> lv) ≡ₚ row_locs row' ++ rest.
Proof.
  intros Hi. exists (level_locs (take i lv) ++ level_locs (drop (S i) lv)). intros row'.
  rewrite insert_take_drop by (by eapply lookup_lt_Some).
  rewrite level_locs_app, level_locs_cons. solve_Permutation.
Qed.

Lemma level_locs_push i l lv lv' :
  push_at i l lv = Ok lv' → level_locs lv' ≡ₚ l :: level_locs lv.
Proof.
  unfold push_at. destruct (lv !! i) as [row|] eqn:Hi; [|done]. intros [= <-].
  destruct (level_locs_row lv i row Hi) as [rest Hrest].
  rewrite <-(list_insert_id lv i row) at 2 by done.
  rewrite !Hrest. unfold row_locs. rewrite omap_app. simpl. solve_Permutation.
Qed.

(** A row's pointers are on the level once when the levels' are. *)
Lemma row_locs_NoDup i lv row :
  lv !! i = Some row → NoDup (level_locs lv) → NoDup (row_locs row).
Proof.
  intros Hi Hnd. destruct (level_locs_row lv i row Hi) as [rest Hrest].
  rewrite <-(list_insert_id lv i row), Hrest in Hnd by done. by apply NoDup_app in Hnd as [? _].
Qed.
Lemma row_locs_reset row j l :
  row !! j = Some (Some l) → row_locs row ≡ₚ l :: row_locs (<[j := None]> row).
Proof.
  intros Hj. rewrite <-(take_drop_middle _ _ _ Hj) at 1.
  rewrite insert_take_drop by (by eapply lookup_lt_Some).
  unfold row_locs. rewrite !omap_app. simpl. solve_Permutation.
Qed.
Lemma row_locs_reset_sub row j l : l ∈ row_locs (<[j := None]> row) → l ∈ row_locs row.
Proof.
  unfold row_locs. rewrite !list_elem_of_omap. intros (p & (k & Hk)%list_elem_of_lookup_1 & Hl).
  destruct (decide (k = j)) as [->|Hne].
  - apply list_lookup_insert_Some in Hk as [(_ & <- & _)|[? _]]; done.
  - rewrite list_lookup_insert_ne in Hk by done. eauto using list_elem_of_lookup_2.
Qed.

Lemma level_locs_reset i j l lv :
  slot lv i j = Ok (Some l) → level_locs lv ≡ₚ l :: level_locs (reset_slot i j lv).
Proof.
  unfold slot. destruct (lv !! i) as [row|] eqn:Hi; [|done].
  destruct (row !! j) as [p|] eqn:Hj; [|done]. intros [= ->].
  destruct (level_locs_row lv i row Hi) as [rest Hrest].
  unfold reset_slot.
  rewrite (list_alter_ext _ (λ _, <[j := None]> row) lv lv i), <-list_insert_alter
    by (done || intros x; rewrite Hi; by intros [= ->]).
  rewrite <-(list_insert_id lv i row) at 1 by done. rewrite !Hrest, app_comm_cons.
  f_equiv. by apply row_locs_reset.
Qed.

Lemma level_locs_sweep lv : level_locs (sweep lv) = level_locs lv.
Proof.
  induction lv as [|row lv IH]; [done|]. unfold sweep in *.
  rewrite fmap_cons, !level_locs_cons, IH. f_equal.
  induction row as [|[p|] row IHr]; [done|by f_equal/=|done].
Qed.

Lemma push_at_length i l lv lv' : push_at i l lv = Ok lv' → length lv' = length lv.
Proof. unfold push_at. case_goal; [|done]. intros [= <-]. apply length_insert. Qed.
Lemma push_at_lookup i j l lv lv' :
  push_at i l lv = Ok lv' → j ≠ i → lv' !! j = lv !! j.
Proof.
  unfold push_at. case_goal; [|done]. intros [= <-] ?. by apply list_lookup_insert_ne.
Qed.
Lemma push_at_Ok i l lv : i < length lv → ∃ lv', push_at i l lv = Ok lv'.
Proof. intros [row Hr]%lookup_lt_is_Some. unfold push_at. rewrite Hr. eauto. Qed.
Lemma reset_slot_length i j lv : length (reset_slot i j lv) = length lv.
Proof. apply length_alter. Qed.
Lemma reset_slot_ne i j j' lv : j ≠ j' → slot (reset_slot i j lv) i j' = slot lv i j'.
Proof.
  intros Hne. unfold slot, reset_slot. rewrite list_lookup_alter_eq.
  destruct (lv !! i); simpl; [|done]. by rewrite list_lookup_insert_ne.
Qed.
Lemma reset_slot_width i j lv :
  length <$> (reset_slot i j lv !! i) = length <$> (lv !! i).
Proof.
  unfold reset_slot. rewrite list_lookup_alter_eq.
  destruct (lv !! i); simpl; [|done]. by rewrite length_insert.
Qed.
End levels.

(** ** The invariant *)

Lemma runs_deref {T} (s : st T) l sg : heap (st_proc s) !! l = Some sg → runs (deref l) s sg s.
Proof. unfold runs, deref. by intros ->. Qed.

#[export] Hint Resolve runs_deref : runs.

Lemma keeps_deref {T} (I : st T → Prop) l : keeps I (deref l).
Proof. intros s a s' HI. unfold deref, runs. destruct (heap (st_proc s) !! l); [|done]. by intros [= <-]. Qed.
Lemma keeps_idx {T A} (I : st T → Prop) (f : index_state → A) : keeps I (idx f).
Proof. apply keeps_gets. Qed.
#[export] Hint Resolve keeps_deref keeps_idx : keeps.

Section storage_inv.
Context `{SL : StdLib} {T : Type} `{L : IBaseIndexLaws T}.
(** What the vectors handed to the index satisfy. *)
Context (V : list f32 → Prop).
Implicit Types s : st T.
Implicit Types h : gmap loc (segment T).

(** The live entries of the segments at some locations. *)
Definition entries_at h (l : loc) : list (string * list f32) :=
  from_option seg_entries [] (h !! l).
Definition contents h (ls : list loc) : list (string * list f32) := ls ≫= entries_at h.

Definition content s : list (string * list f32) :=
  contents (heap (st_proc s)) (owned (st_idx s)).

(** The shape of every segment of the index. *)
Definition idx_shape (i : index_state) : shape := ib_shape (ib_make (factory_ i) : T).
Definition seg_good (sh : shape) (sg : segment T) : Prop :=
  seg_wf sg ∧ seg_tidy sg ∧ seg_shape sg = sh ∧
  seg_type sg = SegmentType_int (get_segment_type (sh_kind sh)) ∧
  ∀ v, v ∈ ib_rows (seg_index sg) → V v.

Record core s : Prop := {
  c_alloc l : is_Some (heap (st_proc s) !! l) → l < fresh (st_proc s);
  c_good l : l ∈ owned (st_idx s) ∨ l ∈ segments_ (st_idx s) →
    ∃ sg, heap (st_proc s) !! l = Some sg ∧ seg_good (idx_shape (st_idx s)) sg;
  c_nodup : NoDup (owned (st_idx s));
  c_last : last_ (st_idx s) ∉ segments_ (st_idx s);
  c_keys : NoDup (content s).*1;
  (** what a left-over segment still holds is also where it was merged to *)
  c_stale l e : l ∈ segments_ (st_idx s) → e ∈ entries_at (heap (st_proc s)) l → e ∈ content s;
  c_counter : counter (st_idx s) = u64 (Z.of_nat (length (level_locs (levels (st_idx s)))));
}.

(** Searches reach every segment of the levels, and none of them has one of
    the ids [er] about to be removed. *)
Record reach (er : list Z) s : Prop := {
  re_sub l : l ∈ level_locs (levels (st_idx s)) → l ∈ segments_ (st_idx s);
  re_ids l sg : l ∈ owned (st_idx s) → heap (st_proc s) !! l = Some sg →
    ∃ n, n < draws (st_proc s) ∧ seg_id sg = std_rand n;
  re_inj l l' sg sg' : l ∈ owned (st_idx s) → l' ∈ owned (st_idx s) →
    heap (st_proc s) !! l = Some sg → heap (st_proc s) !! l' = Some sg' →
    seg_id sg = seg_id sg' → l = l';
  re_clear l sg : l ∈ owned (st_idx s) → heap (st_proc s) !! l = Some sg → seg_id sg ∉ er;
  re_old k : k ∈ er → ∃ n, n < draws (st_proc s) ∧ k = std_rand n;
}.

Definition reaches (er : list Z) s : Prop := draws_distinct s → reach er s.

(** What the storage's operations leave as it was. *)
Record framed s s' : Prop := {
  f_conf : d_ (st_idx s') = d_ (st_idx s) ∧
    segmentThreshold_ (st_idx s') = segmentThreshold_ (st_idx s) ∧
    factory_ (st_idx s') = factory_ (st_idx s) ∧
    enable_merge_ (st_idx s') = enable_merge_ (st_idx s) ∧
    callback_ (st_idx s') = callback_ (st_idx s) ∧
    last_ (st_idx s') = last_ (st_idx s);
  f_heap l : l ∉ level_locs (levels (st_idx s)) →
    heap (st_proc s') !! l = heap (st_proc s) !! l;
  f_locs l : l ∈ level_locs (levels (st_idx s')) → l ∈ level_locs (levels (st_idx s));
  f_segments l : l ∈ segments_ (st_idx s') →
    l ∈ segments_ (st_idx s) ∨ l ∈ level_locs (levels (st_idx s));
  f_fresh : fresh (st_proc s') = fresh (st_proc s);
  f_draws : draws (st_proc s) ≤ draws (st_proc s');
  (** a merge draws one id and gives up one segment *)
  f_potential : draws (st_proc s') + length (level_locs (levels (st_idx s'))) =
    draws (st_proc s) + length (level_locs (levels (st_idx s)));
  f_content : content s' ≡ₚ content s;
  f_measure : length (levels (st_idx s')) + length (level_locs (levels (st_idx s'))) ≤
    length (levels (st_idx s)) + length (level_locs (levels (st_idx s)));
  f_grows : length (levels (st_idx s)) ≤ length (levels (st_idx s'));
}.

#[global] Instance framed_preorder : PreOrder framed.
Proof.
  split.
  - intros s. split; try done. by left.
  - intros s1 s2 s3 [] []. deex. split; try (by split_and!; congruence); try lia; eauto.
    + intros l Hl. rewrite f_heap1; eauto.
    + intros l [?|?]%f_segments1; eauto.
    + by etrans.
Qed.

Lemma distinct_mono s s' :
  draws (st_proc s) ≤ draws (st_proc s') → draws_distinct s' → draws_distinct s.
Proof. apply rand_distinct_mono. Qed.

Lemma fresh_draw s s' :
  draws_distinct s' → draws (st_proc s') = S (draws (st_proc s)) →
  ∀ n, n < draws (st_proc s) → std_rand n ≠ std_rand (draws (st_proc s)).
Proof. intros Hd Hdr n Hn Heq. apply (rand_inj _ _ _ Hd) in Heq; lia. Qed.

Lemma framed_owned s s' l : framed s s' → l ∈ owned (st_idx s') → l ∈ owned (st_idx s).
Proof.
  intros Hf. unfold owned. rewrite !elem_of_app, !list_elem_of_singleton.
  destruct (f_conf _ _ Hf) as (_ & _ & _ & _ & _ & ->). intros [?|?]; [left|by right].
  by apply (f_locs _ _ Hf).
Qed.

(** ** Contents *)

#[global] Instance contents_perm h : Proper ((≡ₚ) ==> (≡ₚ)) (contents h).
Proof. apply bind_Permutation. Qed.
Lemma contents_app h ls ls' : contents h (ls ++ ls') = contents h ls ++ contents h ls'.
Proof. apply bind_app. Qed.
Lemma contents_cons h l ls : contents h (l :: ls) = entries_at h l ++ contents h ls.
Proof. done. Qed.
Lemma elem_of_contents h ls e :
  e ∈ contents h ls ↔ ∃ l, l ∈ ls ∧ e ∈ entries_at h l.
Proof. unfold contents. rewrite list_elem_of_bind. naive_solver. Qed.
Lemma contents_ext h h' ls :
  (∀ l, l ∈ ls → entries_at h l = entries_at h' l) → contents h ls = contents h' ls.
Proof.
  induction ls as [|l ls IH]; intros Hl; [done|]. rewrite !contents_cons.
  rewrite (Hl l) by (by left). rewrite IH; [done|]. intros. apply Hl. by right.
Qed.
Lemma contents_insert_ne h l sg ls : l ∉ ls → contents (<[l := sg]> h) ls = contents h ls.
Proof.
  intros Hl. apply contents_ext. intros l' Hl'. unfold entries_at.
  by rewrite lookup_insert_ne by congruence.
Qed.
Lemma entries_at_insert h l sg : entries_at (<[l := sg]> h) l = seg_entries sg.
Proof. unfold entries_at. by rewrite lookup_insert_eq. Qed.
Lemma entries_at_Some h l sg : h !! l = Some sg → entries_at h l = seg_entries sg.
Proof. unfold entries_at. by intros ->. Qed.
End storage_inv.

(** ** What a call writes

    A segment is as it was, or is a good one that holds entries of the index. *)

Section rewrites.
Context `{SL : StdLib} {T : Type} `{L : IBaseIndexLaws T}.
Context (V : list f32 → Prop).
Implicit Types s : st T.

Record rewrites s s' : Prop := {
  rw_heap l sg : heap (st_proc s') !! l = Some sg →
    heap (st_proc s) !! l = Some sg ∨
    seg_good V (idx_shape (st_idx s)) sg ∧ ∀ e, e ∈ seg_entries sg → e ∈ content s';
  rw_content e : e ∈ content s → e ∈ content s';
  rw_factory : factory_ (st_idx s') = factory_ (st_idx s);
}.

#[global] Instance rewrites_preorder : PreOrder rewrites.
Proof.
  split; [split; auto|]. intros s1 s2 s3 [H1 C1 F1] [H2 C2 F2]. split; [|auto|congruence].
  intros l sg [Hsg|[? ?]]%H2.
  - apply H1 in Hsg as [?|[? ?]]; [by left|right; by auto].
  - right. unfold idx_shape in *. rewrite F1 in *. by auto.
Qed.

(** One segment of the index is written. *)
Lemma rewrites_at s s' l :
  core V s' → l ∈ owned (st_idx s') → factory_ (st_idx s') = factory_ (st_idx s) →
  (∀ l', l' ≠ l → heap (st_proc s') !! l' = heap (st_proc s) !! l') →
  (∀ e, e ∈ content s → e ∈ content s') → rewrites s s'.
Proof.
  intros Hc Hl Hf Hh He. split; [|done..]. intros l' sg Hsg. destruct (decide (l' = l)) as [->|Hne].
  - right. destruct (c_good _ _ Hc l) as (sg' & Hsg' & Hg); [by left|]. simplify_eq.
    unfold idx_shape in *. rewrite Hf in Hg. split; [done|]. intros e Hin. apply elem_of_contents.
    exists l. by rewrite (entries_at_Some _ _ _ Hsg).
  - left. by rewrite <-Hh.
Qed.

(** None is. *)
Lemma rewrites_none s s' :
  st_proc s' = st_proc s → factory_ (st_idx s') = factory_ (st_idx s) → content s' ≡ₚ content s → rewrites s s'.
Proof. intros Hp Hf Hc. split; [rewrite Hp; by left|by intros e; rewrite Hc|done]. Qed.
End rewrites.

(** ** One merge *)

Section merging.
Context `{SL : StdLib} {T : Type} `{L : IBaseIndexLaws T}.
Context (V : list f32 → Prop).
Implicit Types s : st T.

(** The state after segment [a] took over the one at [b] and got a new id. *)
Definition combined s (a : loc) (m : segment T) (lv : list (list (option loc))) : st T :=
  let p := st_proc s in
  St (Proc (<[a := with_id m (std_rand (draws p))]> (heap p)) (fresh p) (S (draws p)))
     (set_counter (set_levels (st_idx s) lv) (u64_sub (counter (st_idx s)) 1)) (st_log s).

Definition grow (i : nat) (lv : list (list (option loc))) :=
  if decide (i = length lv) then lv ++ [[]] else lv.

Lemma combine_pair_runs s i j a b sa sb m lv r :
  a ≠ b → mergeSegment sa sb = Ok m →
  push_at (i + 1) a (grow (i + 1) (levels (st_idx s))) = Ok lv →
  runs (combine_pair i j a b sa sb r) s
    (Round (u64_sub (amount r) (u64_add (seg_size sa) (seg_size sb)))
       (r_erased r ++ [getID sb; getID sa]) (r_inserted r ++ [a]))
    (combined s a m (reset_slot i (j + 1) (reset_slot i j lv))).
Proof.
  intros Hab Hm Hlv. unfold combine_pair. rewrite decide_False by done.
  eapply runs_bind; [by apply runs_lift|].
  run_one. eapply runs_bind; [done|].
  do 2 run_one.
  eapply runs_bind; [by apply runs_lift|].
  do 2 run_one.
  unfold combined, runs, mret, M_ret, on_idx, on_proc, store_seg, count_draw. simpl.
  by rewrite insert_insert_eq.
Qed.

Section pair.
Context s (i j : nat) (a b : loc) (sa sb : segment T).
Context (Hc : core V s).
Context (Ha : slot (levels (st_idx s)) i j = Ok (Some a)).
Context (Hb : slot (levels (st_idx s)) i (j + 1) = Ok (Some b)).
Context (Hsa : heap (st_proc s) !! a = Some sa) (Hsb : heap (st_proc s) !! b = Some sb).

Lemma slot_level : i < length (levels (st_idx s)).
Proof.
  unfold slot in Ha. destruct (_ !! i) eqn:E; [|done]. by eapply lookup_lt_Some.
Qed.

Lemma grow_ok :
  ∃ lv, push_at (i + 1) a (grow (i + 1) (levels (st_idx s))) = Ok lv.
Proof.
  pose proof slot_level. apply push_at_Ok. unfold grow.
  case_decide; [rewrite length_app; simpl|]; lia.
Qed.

Lemma pair_ne : a ≠ b.
Proof.
  intros Hab. pose proof Hb as Hb'. rewrite <-Hab in Hb'.
  pose proof (c_nodup _ _ Hc) as Hnd. unfold owned in Hnd.
  rewrite (level_locs_reset i j a), (level_locs_reset i (j + 1) a) in Hnd
    by (done || (rewrite reset_slot_ne by lia; done)).
  apply NoDup_app in Hnd as [Hnd _]. apply NoDup_cons in Hnd as [Hnd _].
  apply Hnd. by left.
Qed.

Context lv (Hlv : push_at (i + 1) a (grow (i + 1) (levels (st_idx s))) = Ok lv).
Let lv' := reset_slot i (j + 1) (reset_slot i j lv).

Lemma grown_row : lv !! i = levels (st_idx s) !! i.
Proof.
  pose proof slot_level. rewrite (push_at_lookup _ i _ _ _ Hlv) by lia.
  unfold grow. case_decide; [|done]. by apply lookup_app_l.
Qed.

(** The level gives up both pointers, the next one gets [a]. *)
Lemma combined_locs :
  ∃ rest, level_locs (levels (st_idx s)) ≡ₚ (a :: b :: rest) ∧ level_locs lv' ≡ₚ a :: rest.
Proof.
  pose proof (level_locs_push _ _ _ _ Hlv) as Hp.
  assert (level_locs (grow (i + 1) (levels (st_idx s))) = level_locs (levels (st_idx s))) as Hg.
  { unfold grow. case_decide; [|done]. rewrite level_locs_app. apply app_nil_r. }
  rewrite Hg in Hp.
  assert (slot lv i j = Ok (Some a)) as Ha'.
  { rewrite <-Ha. unfold slot. by rewrite grown_row. }
  assert (slot (reset_slot i j lv) i (j + 1) = Ok (Some b)) as Hb'.
  { rewrite reset_slot_ne by lia. rewrite <-Hb. unfold slot. by rewrite grown_row. }
  apply level_locs_reset in Ha', Hb'. fold lv' in Hb'. rewrite Hp, Hb' in Ha'.
  apply Permutation_cons_inv in Ha'.
  assert (a ∈ level_locs lv') as [rest Hrest]%elem_of_Permutation.
  { assert (a ∈ b :: level_locs lv') as Hin.
    { rewrite <-Ha', (level_locs_reset i j a) by done. by left. }
    apply elem_of_cons in Hin as [?|?]; [by destruct pair_ne|done]. }
  exists rest. split; [|done]. rewrite Ha', Hrest. apply Permutation_swap.
Qed.

Lemma combined_owned m :
  ∃ rest, owned (st_idx s) ≡ₚ (a :: b :: rest) ∧
    owned (st_idx (combined s a m lv')) ≡ₚ (a :: rest) ∧ (a ∉ rest) ∧ (b ∉ rest).
Proof.
  destruct combined_locs as (rest & H1 & H2). exists (rest ++ [last_ (st_idx s)]).
  assert (owned (st_idx s) ≡ₚ a :: b :: rest ++ [last_ (st_idx s)]) as Ho
    by (unfold owned; by rewrite H1).
  pose proof (c_nodup _ _ Hc) as Hnd. rewrite Ho in Hnd.
  apply NoDup_cons in Hnd as [Hna [Hnb _]%NoDup_cons].
  split_and!; [done| |by intros ?; apply Hna; right|done].
  unfold owned. simpl. by rewrite H2.
Qed.

(** The merge itself: [a] holds both segments' entries. *)
Lemma merge_pair_ok :
  ∃ m, mergeSegment sa sb = Ok m ∧ seg_good V (idx_shape (st_idx s)) m ∧
    seg_entries m ≡ₚ seg_entries sa ++ seg_entries sb ∧
    (seg_count sa ≤ seg_count m ≤ seg_count sa + Z.of_nat (length (seg_entries sb)))%Z.
Proof.
  destruct (combined_owned sa) as (rest & Ho & _).
  assert (∀ l, l = a ∨ l = b → l ∈ owned (st_idx s)) as Hin.
  { intros l Hl. rewrite Ho. set_solver. }
  destruct (c_good _ _ Hc a) as (? & Hsa' & Wa & Ta & Sa & Ya & Va); [auto|].
  destruct (c_good _ _ Hc b) as (? & Hsb' & Wb & Tb & Sb & _ & Vb); [auto|].
  simplify_eq.
  destruct (ib_merge_spec (seg_index sa) (seg_index sb)) as
    (t & Ht & Wt & St' & Et & _ & Ct & Tt); [done|done|by etrans|].
  exists (with_index sa t). unfold mergeSegment.
  rewrite decide_True, Ht by (rewrite !ib_class_kind; unfold seg_shape in *; congruence). split_and!; [done| |done|apply Ct|apply Ct].
  split_and!; [done| |by etrans|done|].
  - apply Tt; [done..|]. pose proof (c_keys _ _ Hc) as Hk. unfold content in Hk.
    rewrite Ho, !contents_cons, !fmap_app in Hk.
    rewrite (entries_at_Some _ _ _ Hsa), (entries_at_Some _ _ _ Hsb) in Hk.
    apply NoDup_app in Hk as (_ & Hk & _). intros x Hx Hx'. apply (Hk x Hx). set_solver.
  - intros v Hv. destruct (ib_rows_merge _ _ _ _ Wb (eq_trans Sb (eq_sym Sa)) Ht Hv); auto.
Qed.

Context (m : segment T) (Hm : seg_good V (idx_shape (st_idx s)) m).
Context (Hent : seg_entries m ≡ₚ seg_entries sa ++ seg_entries sb).
Let s' := combined s a m lv'.

Lemma combined_lookup l : l ≠ a → heap (st_proc s') !! l = heap (st_proc s) !! l.
Proof. intros Hne. simpl. by rewrite lookup_insert_ne. Qed.

Lemma combined_content : content s' ≡ₚ content s.
Proof.
  destruct (combined_owned m) as (rest & Ho & Ho' & Hna & _).
  unfold content. fold s' in Ho'. rewrite Ho, Ho', !contents_cons. simpl.
  rewrite contents_insert_ne, entries_at_insert by done.
  rewrite (entries_at_Some _ _ _ Hsa), (entries_at_Some _ _ _ Hsb).
  change (seg_entries (with_id m _)) with (seg_entries m). by rewrite Hent, app_assoc.
Qed.

Lemma combined_locs_sub l : l ∈ owned (st_idx s') → l ∈ owned (st_idx s).
Proof.
  destruct (combined_owned m) as (rest & Ho & Ho' & _). fold s' in Ho'.
  rewrite Ho, Ho'. set_solver.
Qed.

Lemma combined_core : core V s'.
Proof.
  destruct (combined_owned m) as (rest & Ho & Ho' & Hna & Hnb). fold s' in Ho'.
  pose proof (c_nodup _ _ Hc) as Hnd. split.
  - intros l. simpl. rewrite lookup_insert. case_decide as E; [subst l|apply (c_alloc _ _ Hc)].
    intros _. apply (c_alloc _ _ Hc). eauto.
  - intros l Hl. destruct (decide (l = a)) as [->|Hne].
    { exists (with_id m (std_rand (draws (st_proc s)))). simpl. by rewrite lookup_insert_eq. }
    rewrite combined_lookup by done. apply (c_good _ _ Hc l).
    destruct Hl; [left; by apply combined_locs_sub|by right].
  - rewrite Ho'. rewrite Ho in Hnd. apply NoDup_cons in Hnd as [_ [_ Hnd]%NoDup_cons].
    by constructor.
  - apply (c_last _ _ Hc).
  - rewrite combined_content. apply (c_keys _ _ Hc).
  - intros l e Hl. rewrite combined_content. destruct (decide (l = a)) as [->|Hne].
    + simpl. rewrite entries_at_insert. change (seg_entries (with_id m _)) with (seg_entries m).
      rewrite Hent. unfold content. rewrite Ho, !contents_cons.
      rewrite (entries_at_Some _ _ _ Hsa), (entries_at_Some _ _ _ Hsb). set_solver.
    + unfold entries_at. rewrite combined_lookup by done. by apply (c_stale _ _ Hc).
  - destruct combined_locs as (r & Hr & Hr'). simpl. rewrite (c_counter _ _ Hc), Hr, Hr'.
    simpl. unfold u64_sub, u64. rewrite Zminus_mod_idemp_l. f_equal. lia.
Qed.

Lemma combined_framed : framed s s'.
Proof.
  destruct combined_locs as (r & Hr & Hr').
  assert (length lv' = length (grow (i + 1) (levels (st_idx s)))) as Hlen.
  { unfold lv'. by rewrite !reset_slot_length, (push_at_length _ _ _ _ Hlv). }
  split; simpl; try done.
  - intros l Hl. rewrite lookup_insert_ne; [done|]. intros ->. apply Hl. rewrite Hr. by left.
  - intros l. rewrite Hr, Hr'. set_solver.
  - by left.
  - lia.
  - rewrite Hr, Hr'. simpl. lia.
  - apply combined_content.
  - rewrite Hlen, Hr, Hr'. unfold grow. case_decide; [rewrite length_app|]; simpl; lia.
  - rewrite Hlen. unfold grow. case_decide; [rewrite length_app|]; simpl; lia.
Qed.

Lemma combined_case l sg :
  l ∈ owned (st_idx s') → heap (st_proc s') !! l = Some sg →
  (l = a ∧ seg_id sg = std_rand (draws (st_proc s))) ∨
  (l ≠ a ∧ l ≠ b ∧ l ∈ owned (st_idx s) ∧ heap (st_proc s) !! l = Some sg).
Proof.
  destruct (combined_owned m) as (rest & Ho & Ho' & Hna & Hnb). fold s' in Ho'.
  intros Hl Hsg. destruct (decide (l = a)) as [->|Hne].
  - left. simpl in Hsg. rewrite lookup_insert_eq in Hsg. by simplify_eq/=.
  - right. rewrite combined_lookup in Hsg by done.
    split_and!; [done| |by apply combined_locs_sub|done].
    intros ->. rewrite Ho' in Hl. set_solver.
Qed.

(** The ids given up are old ones, and no remaining segment's. *)
Lemma combined_old er k :
  reach er s → k ∈ er ++ [getID sb; getID sa] →
  ∃ n, n < draws (st_proc s) ∧ k = std_rand n.
Proof.
  destruct (combined_owned m) as (rest & Ho & _). intros [_ Hids _ _ Hold].
  rewrite elem_of_app, elem_of_cons, list_elem_of_singleton.
  intros [?|[-> | ->]]; [by apply Hold|apply (Hids b)|apply (Hids a)]; auto;
    rewrite Ho; set_solver.
Qed.
Lemma combined_clear er l sg :
  reach er s → l ≠ a → l ≠ b → l ∈ owned (st_idx s) → heap (st_proc s) !! l = Some sg →
  seg_id sg ∉ er ++ [getID sb; getID sa].
Proof.
  destruct (combined_owned m) as (rest & Ho & _). intros [_ _ Hinj Hclear _] Hla Hlb Hl Hsg.
  rewrite elem_of_app, elem_of_cons, list_elem_of_singleton.
  intros [?|[Heq|Heq]]; [by apply (Hclear l sg)|apply Hlb|apply Hla];
    eapply Hinj; eauto; rewrite Ho; set_solver.
Qed.

Lemma combined_reaches er :
  reaches er s → reaches (er ++ [getID sb; getID sa]) s'.
Proof.
  intros Hre Hd. assert (draws (st_proc s') = S (draws (st_proc s))) as Hdr by done.
  assert (reach er s) as Hr by (apply Hre; eapply distinct_mono; [|done]; lia).
  pose proof (fresh_draw s s' Hd Hdr) as Hfresh.
  pose proof Hr as [Hsub Hids Hinj _ _]. split.
  - intros l. destruct combined_locs as (r & Hr1 & Hr2). simpl. rewrite Hr2.
    intros Hl. apply Hsub. rewrite Hr1. set_solver.
  - intros l sg Hl Hsg. rewrite Hdr.
    destruct (combined_case l sg Hl Hsg) as [[_ ->]|(_ & _ & Hl' & Hsg')]; [by eauto with lia|].
    destruct (Hids l sg Hl' Hsg') as (n & ? & ->). eauto with lia.
  - intros l l' sg sg' Hl Hl' Hsg Hsg'.
    destruct (combined_case l sg Hl Hsg) as [[-> ->]|(_ & _ & Ho1 & Hs1)],
      (combined_case l' sg' Hl' Hsg') as [[-> ->]|(_ & _ & Ho2 & Hs2)]; eauto.
    + destruct (Hids l' sg' Ho2 Hs2) as (n & Hn & ->). by intros ?%eq_sym%Hfresh.
    + destruct (Hids l sg Ho1 Hs1) as (n & Hn & ->). by intros ?%Hfresh.
  - intros l sg Hl Hsg.
    destruct (combined_case l sg Hl Hsg) as [[-> ->]|(Hla & Hlb & Ho1 & Hs1)].
    + intros (n & Hn & Heq)%(combined_old er); [|done]. by apply eq_sym, Hfresh in Heq.
    + by apply (combined_clear er l).
  - intros k (n & Hn & ->)%(combined_old er); [|done]. rewrite Hdr. eauto with lia.
Qed.
End pair.

(** ** One row *)

(** The segments [inserted] so far, as if they were in [segments_] already. *)
Definition pend (ins : list loc) s : st T :=
  on_idx (λ x, set_segments x (segments_ x ++ ins)) s.

Lemma core_segments s (f : list loc → list loc) :
  core V s →
  (∀ l, l ∈ f (segments_ (st_idx s)) →
    l ∈ segments_ (st_idx s) ∨ l ∈ level_locs (levels (st_idx s))) →
  core V (on_idx (λ x, set_segments x (f (segments_ x))) s).
Proof.
  intros Hc Hf. pose proof (c_nodup _ _ Hc) as Hnd. destruct Hc as [Ha Hg Hn Hl Hk Hs Hcnt].
  split; simpl; try done.
  - intros l [Hl'|[?|?]%Hf]; apply Hg; [by left|by right|left].
    apply elem_of_app. by left.
  - intros [?|Hin]%Hf; [done|]. apply NoDup_app in Hnd as (_ & Hnd & _).
    apply (Hnd _ Hin). by left.
  - intros l e [?|Hin]%Hf He; [by apply (Hs l)|].
    apply elem_of_contents. exists l. split; [|done]. apply elem_of_app. by left.
Qed.

Lemma reaches_segments er s (f : list loc → list loc) :
  (∀ l, l ∈ segments_ (st_idx s) → l ∈ level_locs (levels (st_idx s)) →
    reach er s → l ∈ f (segments_ (st_idx s))) →
  reaches er s → reaches er (on_idx (λ x, set_segments x (f (segments_ x))) s).
Proof.
  intros Hf Hre Hd. pose proof (Hre Hd) as Hr. pose proof Hr as [Hsub ? ? ? ?].
  split; simpl; auto.
Qed.

Definition row_inv (r : round) s : Prop :=
  core V (pend (r_inserted r) s) ∧ reaches (r_erased r) (pend (r_inserted r) s).

(** The segments [inserted] so far are off the row that is being merged. *)
Record row_ins (i : nat) (r : round) (lv : list (list (option loc))) : Prop := {
  ri_nodup : NoDup (r_inserted r);
  ri_level l : l ∈ r_inserted r → l ∈ level_locs lv;
  ri_off l row : l ∈ r_inserted r → lv !! i = Some row → l ∉ row_locs row;
  ri_erased : r_erased r = [] → r_inserted r = [];
}.

Record row_step (i : nat) (r : round) s (r' : round) s' : Prop := {
  rs_inv : row_inv r' s';
  rs_framed : framed s s';
  rs_width : length <$> (levels (st_idx s') !! i) = length <$> (levels (st_idx s) !! i);
  rs_segments : segments_ (st_idx s') = segments_ (st_idx s);
  rs_log : st_log s' = st_log s;
  rs_inserted l : l ∈ r_inserted r' →
    l ∈ r_inserted r ∨ l ∈ level_locs (levels (st_idx s));
  rs_amount : (0 ≤ amount r → 0 ≤ amount r' ≤ amount r)%Z;
  rs_evolves : evolves (st_proc s) (st_proc s');
  rs_rewrites : rewrites V s s';
  rs_prefix : r_inserted r `prefix_of` r_inserted r';
  rs_covers : covers (r_inserted r') s s';
  rs_given k : k ∈ r_erased r' → k ∈ r_erased r ∨ given_up s s' k;
  rs_ins : row_ins i r (levels (st_idx s)) → row_ins i r' (levels (st_idx s'));
}.

Lemma row_step_refl i r s : row_inv r s → row_step i r s r s.
Proof. intros Hinv. split; try done; [by left| |by left]. intros l Hl. by right. Qed.
Lemma framed_stays s s' : framed s s' → stays s s'.
Proof. intros Hf l Hl. left. by eapply framed_owned. Qed.
Lemma row_step_trans i r1 s1 r2 s2 r3 s3 :
  row_step i r1 s1 r2 s2 → row_step i r2 s2 r3 s3 → row_step i r1 s1 r3 s3.
Proof.
  intros H12 H23. destruct H12, H23. split; [done|by etrans|congruence..| |lia|by etrans|by etrans|by etrans| | |by auto].
  - intros l [Hl|Hl]%rs_inserted1; [by apply rs_inserted0|right]. by apply (f_locs _ _ rs_framed0).
  - intros l [?|[Hl ->]]%rs_covers1; [by left|].
    destruct (rs_covers0 l Hl) as [?|?]; [left|by right]. by eapply elem_of_prefix.
  - intros k [[?|?]%rs_given0|?]%rs_given1; [by left|right..].
    + eapply given_up_mono; [apply (ev_draws _ _ rs_evolves1)|done].
    + eapply given_up_trans; [done|by apply framed_stays|done..].
Qed.

(** The merged segment leaves the row, and those inserted before stay off it. *)
Lemma combined_ins s i j a b lv r k1 k2 k3 :
  core V s → slot (levels (st_idx s)) i j = Ok (Some a) →
  slot (levels (st_idx s)) i (j + 1) = Ok (Some b) →
  push_at (i + 1) a (grow (i + 1) (levels (st_idx s))) = Ok lv →
  row_ins i r (levels (st_idx s)) →
  row_ins i (Round k1 (r_erased r ++ [k2; k3]) (r_inserted r ++ [a]))
    (reset_slot i (j + 1) (reset_slot i j lv)).
Proof.
  intros Hc Ha Hb Hlv [Hn Hl Ho _].
  destruct (combined_locs s i j a b Hc Ha Hb lv Hlv) as (rest & Hr & Hr').
  pose proof (grown_row s i j a Ha lv Hlv) as Hrow.
  unfold slot in Ha, Hb. destruct (levels (st_idx s) !! i) as [row|] eqn:Hi; [|done].
  destruct (row !! j) as [?|] eqn:Hj; [|done]. destruct (row !! (j + 1)) as [?|] eqn:Hj1; [|done].
  simplify_eq. pose proof (c_nodup _ _ Hc) as Hnd. apply NoDup_app in Hnd as [Hnd _].
  pose proof (row_locs_reset _ _ _ Hj) as Hra. pose proof (row_locs_reset _ _ _ Hj1) as Hrb.
  pose proof (row_locs_NoDup _ _ _ Hi Hnd) as Hndr. rewrite Hra in Hndr.
  apply NoDup_cons in Hndr as [Hna _].
  assert (∀ l, l ∈ r_inserted r → l ≠ a ∧ l ≠ b) as Hne.
  { intros l Hin. pose proof (Ho l row Hin eq_refl) as Hoff. split; intros ->; apply Hoff.
    - rewrite Hra. by left.
    - rewrite Hrb. by left. }
  split; simpl.
  - apply NoDup_app. split_and!; [done| |apply NoDup_singleton].
    intros l Hin ->%list_elem_of_singleton. by destruct (Hne a Hin).
  - intros l [Hin| ->%list_elem_of_singleton]%elem_of_app; rewrite Hr'; [right|by left].
    destruct (Hne l Hin). specialize (Hl l Hin). rewrite Hr in Hl. set_solver.
  - intros l row' Hin. unfold reset_slot. rewrite !list_lookup_alter_eq, Hrow. simpl. intros [= <-].
    intros Hl'%row_locs_reset_sub. apply elem_of_app in Hin as [Hin| ->%list_elem_of_singleton]; [|done].
    apply row_locs_reset_sub in Hl'. by apply (Ho l row).
  - by destruct (r_erased r).
Qed.

(** Both segments belong to the index. *)
Lemma pair_owned s i j a b l :
  slot (levels (st_idx s)) i j = Ok (Some a) → slot (levels (st_idx s)) i (j + 1) = Ok (Some b) →
  l = a ∨ l = b → l ∈ owned (st_idx s).
Proof.
  intros Sa Sb Hl. apply elem_of_app. left. rewrite (level_locs_reset _ _ _ _ Sa). apply elem_of_cons.
  destruct Hl as [->| ->]; [by left|right]. rewrite (level_locs_reset i (j + 1) b); [by left|].
  by rewrite reset_slot_ne by lia.
Qed.

(** What is left of the budget. *)
Lemma budget_left z a b :
  (0 ≤ z)%Z → ¬ (z < u64_add a b)%Z → (0 ≤ u64_sub z (u64_add a b) ≤ z)%Z.
Proof.
  intros Hz Hle. unfold u64_sub, u64. pose proof (u64_range (a + b)). fold (u64_add a b) in *. split.
  - by apply Z.mod_pos_bound.
  - etrans; [apply Z.mod_le|]; [lia|done|lia].
Qed.

Lemma merge_slot_combine i j r s a b :
  row_inv r s →
  slot (levels (st_idx s)) i j = Ok (Some a) →
  slot (levels (st_idx s)) i (j + 1) = Ok (Some b) →
  ∀ sa sb, heap (st_proc s) !! a = Some sa → heap (st_proc s) !! b = Some sb →
  ¬ (amount r < u64_add (seg_size sa) (seg_size sb))%Z →
  ∃ r' s', runs (combine_pair i j a b sa sb r) s r' s' ∧ row_step i r s r' s'.
Proof.
  intros [Hc Hre] Sa Sb sa sb Ha Hb Hle.
  set (s0 := pend (r_inserted r) s) in *.
  destruct (grow_ok s0 i j a Sa) as [lv Hlv].
  destruct (merge_pair_ok s0 i j a b sa sb Hc Sa Sb Ha Hb lv Hlv) as (m & Hm & Hg & He & _).
  set (lv' := reset_slot i (j + 1) (reset_slot i j lv)).
  eexists _, (combined s a m lv'). split.
  { apply combine_pair_runs; [by eapply (pair_ne s0)|done..]. }
  assert (framed s0 (combined s0 a m lv')) as Hf by (by eapply combined_framed).
  assert (pend (r_inserted r ++ [a]) (combined s a m lv') =
    on_idx (λ x, set_segments x (segments_ x ++ [a])) (combined s0 a m lv')) as Hpend.
  { unfold pend, on_idx, combined. simpl. by rewrite app_assoc. }
  split; simpl; try done.
  - unfold row_inv. simpl. rewrite Hpend. split.
    + apply (core_segments _ (λ ls, ls ++ [a])); [by eapply combined_core|].
      intros l [?| ->%list_elem_of_singleton]%elem_of_app; [by left|right].
      destruct (combined_locs s0 i j a b Hc Sa Sb lv Hlv) as (rest & _ & Hr).
      fold lv' in Hr. simpl. rewrite Hr. by left.
    + apply (reaches_segments _ _ (λ ls, ls ++ [a])); [set_solver|]. by eapply combined_reaches.
  - destruct Hf. split; try done. by left.
  - unfold lv'. by rewrite !reset_slot_width, (grown_row s0 i j a Sa lv Hlv).
  - intros l [?| ->%list_elem_of_singleton]%elem_of_app; [by left|right].
    rewrite (level_locs_reset _ _ _ _ Sa). by left.
  - intros H0. by apply budget_left.
  - by apply (evolves_draw (st_proc s)).
  - destruct (rewrites_at V s0 (combined s0 a m lv') a); [..|by split].
    + by eapply combined_core.
    + destruct (combined_owned s0 i j a b Hc Sa Sb lv Hlv m) as (rest & _ & Ho & _). fold lv' in Ho.
      rewrite Ho. by left.
    + done.
    + intros l' Hne. simpl. by rewrite lookup_insert_ne.
    + intros e. by rewrite (f_content _ _ Hf).
  - by eexists.
  - intros l Hl. rewrite elem_of_app, list_elem_of_singleton.
    destruct (decide (l = a)) as [->|Hne]; [by left; right|right]. split.
    + destruct (combined_locs s0 i j a b Hc Sa Sb lv Hlv) as (rest & H1 & H2).
      change (levels (st_idx s)) with (levels (st_idx s0)). rewrite H1. fold lv' in H2. rewrite H2 in Hl. set_solver.
    + simpl. by rewrite lookup_insert_ne.
  - pose proof (pair_owned s i j a b) as Hown. intros k. rewrite elem_of_app, elem_of_cons, list_elem_of_singleton.
    intros [?|[-> | ->]]; [by left|right; left; exists b, sb|right; left; exists a, sa]; auto.
  - apply (combined_ins s0 i j a b lv r _ _ _ Hc Sa Sb Hlv).
Qed.

Lemma merge_slot_spec i j r s :
  row_inv r s → (∃ row, levels (st_idx s) !! i = Some row ∧ j + 1 < length row) →
  ∃ r' s', runs (merge_slot i j r) s r' s' ∧ row_step i r s r' s'.
Proof.
  intros Hinv (row & Hrow & Hj).
  destruct (lookup_lt_is_Some_2 row j) as [p Hp]; [lia|].
  destruct (lookup_lt_is_Some_2 row (j + 1)) as [q Hq]; [lia|].
  assert (slot (levels (st_idx s)) i j = Ok p) as Sp by (unfold slot; by rewrite Hrow, Hp).
  assert (slot (levels (st_idx s)) i (j + 1) = Ok q) as Sq by (unfold slot; by rewrite Hrow, Hq).
  assert (∀ l, l ∈ level_locs (levels (st_idx s)) → ∃ sg, heap (st_proc s) !! l = Some sg) as Hin.
  { intros l Hl. destruct (c_good _ _ (proj1 Hinv) l) as (sg & ? & _); [|by eauto].
    left. apply elem_of_app. by left. }
  destruct p as [a|], q as [b|].
  2-4: exists r, s; split; [|by apply row_step_refl]; unfold merge_slot; by run.
  destruct (Hin a) as [sa Ha]; [rewrite (level_locs_reset _ _ _ _ Sp); by left|].
  destruct (Hin b) as [sb Hb]; [rewrite (level_locs_reset _ _ _ _ Sq); by left|].
  destruct (Z.ltb_spec (amount r) (u64_add (seg_size sa) (seg_size sb))) as [Hlt|Hge].
  - exists r, s. split; [|by apply row_step_refl]. unfold merge_slot. run.
    apply Z.ltb_lt in Hlt. by rewrite Hlt.
  - destruct (merge_slot_combine i j r s a b Hinv Sp Sq sa sb Ha Hb ltac:(lia))
      as (r' & s' & Hrun & Hstep). exists r', s'. split; [|done].
    unfold merge_slot. run. apply Z.ltb_ge in Hge. by rewrite Hge.
Qed.

Lemma merge_row_spec n i j r s :
  row_inv r s →
  (∃ row, levels (st_idx s) !! i = Some row ∧ j + n < length row ∨ n = 0) →
  ∃ r' s', runs (merge_row n i j r) s r' s' ∧ row_step i r s r' s'.
Proof.
  revert j r s. induction n as [|n IH]; intros j r s Hinv Hn; simpl.
  { exists r, s. split; [done|]. by apply row_step_refl. }
  destruct Hn as (row & [[Hrow Hlen]|?]); [|lia].
  destruct (merge_slot_spec i j r s Hinv) as (r1 & s1 & Hr1 & Hs1); [eauto with lia|].
  pose proof (rs_width _ _ _ _ _ Hs1) as Hw. rewrite Hrow in Hw.
  destruct (levels (st_idx s1) !! i) as [row1|] eqn:Hrow1; simplify_eq/=.
  destruct (IH (S j) r1 s1) as (r2 & s2 & Hr2 & Hs2); [apply Hs1|exists row1; left; split; [done|lia]|].
  exists r2, s2. split; [by eapply runs_bind|by eapply row_step_trans].
Qed.
End merging.

(** ** Removing the merged segments *)

Section levels_loop.
Context `{SL : StdLib} {T : Type} `{L : IBaseIndexLaws T}.
Context (V : list f32 → Prop).
Implicit Types s : st T.

(** [std::find_if] gives the first segment with the id. *)
Lemma find_segment_spec s k ls pos :
  (∀ l, l ∈ ls → is_Some (heap (st_proc s) !! l)) →
  ∃ p, runs (find_segment k ls pos) s p s ∧
    match p with
    | None => ∀ l sg, l ∈ ls → heap (st_proc s) !! l = Some sg → getID sg ≠ k
    | Some n => ∃ l sg, ls !! (n - pos) = Some l ∧ pos ≤ n ∧
        heap (st_proc s) !! l = Some sg ∧ getID sg = k ∧
        ∀ i l' sg', i < n - pos → ls !! i = Some l' → heap (st_proc s) !! l' = Some sg' →
          getID sg' ≠ k
    end.
Proof.
  revert pos. induction ls as [|l ls IH]; intros pos Hls.
  { exists None. split; [apply runs_ret|]. set_solver. }
  destruct (Hls l) as [sg Hsg]; [by left|].
  destruct (Z.eqb_spec (getID sg) k) as [Heq|Hne].
  - exists (Some pos). split; [simpl; run; apply Z.eqb_eq in Heq; by rewrite Heq|].
    exists l, sg. rewrite Nat.sub_diag. split_and!; try done; lia.
  - destruct (IH (S pos)) as (p & Hr & Hp); [intros; apply Hls; by right|].
    exists p. split; [simpl; run; apply Z.eqb_neq in Hne; by rewrite Hne|].
    destruct p as [n|].
    + destruct Hp as (l' & sg' & Hl' & Hn & Hsg' & Hk & Hfirst). exists l', sg'.
      replace (n - pos) with (S (n - S pos)) by lia. split_and!; try done; [lia|].
      intros [|i] l0 sg0 Hi; simpl; [naive_solver|]. apply Hfirst. lia.
    + intros l' sg' [->|?]%elem_of_cons ?; [naive_solver|]. by eapply Hp.
Qed.

Record kept (er : list Z) s s' : Prop := {
  k_core : core V s';
  k_reaches : reaches er s';
  k_framed : framed s s';
  k_log : st_log s' = st_log s;
  k_proc : st_proc s' = st_proc s;
  k_levels : levels (st_idx s') = levels (st_idx s);
}.

Lemma kept_refl er s : core V s → reaches er s → kept er s s.
Proof. by split. Qed.
Lemma kept_trans er er' s1 s2 s3 : kept er s1 s2 → kept er' s2 s3 → kept er' s1 s3.
Proof. intros [] []. split; [done|done|by etrans|congruence..]. Qed.

Lemma delete_not_lost (ls : list loc) n l0 l :
  ls !! n = Some l0 → l ∈ ls → l ≠ l0 → l ∈ delete n ls.
Proof.
  intros Hn Hl Hne. rewrite delete_take_drop.
  rewrite <-(take_drop_middle ls n l0) in Hl by done. set_solver.
Qed.

Lemma erase_found_spec er k s :
  core V s → reaches er s → k ∈ er →
  ∃ s', runs (erase_found k) s () s' ∧ kept er s s'.
Proof.
  intros Hc Hre Hk.
  destruct (find_segment_spec s k (segments_ (st_idx s)) 0) as (p & Hrun & Hp).
  { intros l Hl. destruct (c_good _ _ Hc l) as (sg & -> & _); eauto. }
  unfold erase_found. destruct p as [n|].
  - destruct Hp as (l & sg & Hl & _ & Hsg & Hid & _). rewrite Nat.sub_0_r in Hl.
    exists (on_idx (λ x, set_segments x (delete n (segments_ x))) s). split.
    { run. done. }
    split; [| | |done..].
    + apply (core_segments _ _ (delete n)); [done|].
      intros l' ?%list_elem_of_delete_inv. by left.
    + apply (reaches_segments _ _ (delete n)); [|done].
      intros l' Hl' Hlv Hr. eapply delete_not_lost; [done..|]. intros ->.
      apply (re_clear _ _ Hr l sg); [apply elem_of_app; by left|done|by rewrite <-Hid in Hk].
    + split; try done. simpl. intros l' ?%list_elem_of_delete_inv. by left.
  - exists s. split; [run; done|by apply kept_refl].
Qed.

Lemma erase_all_spec er ks s :
  core V s → reaches er s → (∀ k, k ∈ ks → k ∈ er) →
  ∃ s', runs (forM ks erase_found) s () s' ∧ kept er s s'.
Proof.
  intros Hc Hre Hks. 
  destruct (runs_forM (λ ks' s', kept er s s' ∧ ∀ k, k ∈ ks' → k ∈ er) erase_found ks s)
    as (s' & Hr & HI & _); [by split; [apply kept_refl|]| |by eauto].
  intros k ks' s1 [Hk1 Hin].
  destruct (erase_found_spec er k s1) as (s2 & Hr2 & Hk2); [apply Hk1..|apply Hin; by left|].
  exists s2. split; [done|]. split; [by eapply kept_trans|]. set_solver.
Qed.

Lemma push_all_runs s ls :
  runs (forM ls (λ l, modify (on_idx (λ x, set_segments x (segments_ x ++ [l]))))) s ()
    (pend ls s).
Proof.
  revert s. induction ls as [|l ls IH]; intros s; simpl.
  - unfold pend, on_idx, runs. destruct s as [p [] lg]. simpl. by rewrite app_nil_r.
  - run_one. cbv beta.
    replace (pend (l :: ls) s)
      with (pend ls (on_idx (λ x, set_segments x (segments_ x ++ [l])) s)); [done|].
    unfold pend, on_idx. simpl. by rewrite <-app_assoc.
Qed.

(** Only [st_log] differs. *)
Definition with_log (lg : list event) s : st T := St (st_proc s) (st_idx s) lg.

Lemma core_with_log lg s : core V s → core V (with_log lg s).
Proof. intros []. by split. Qed.
Lemma reaches_with_log lg er s : reaches er s → reaches er (with_log lg s).
Proof. intros Hr Hd. destruct (Hr Hd). by split. Qed.
Lemma reaches_nil er s : reaches er s → reaches [] s.
Proof. intros Hr Hd. destruct (Hr Hd). split; try done; set_solver. Qed.
Lemma framed_with_log lg s : framed s (with_log lg s).
Proof. split; try done. by left. Qed.

Lemma notify_runs er ins s :
  runs (notify er ins) s ()
    (with_log (st_log s ++ (if callback_ (st_idx s) then [Event er ins] else [])) s).
Proof.
  unfold notify. run. destruct (callback_ (st_idx s)); [done|].
  unfold with_log, runs. simpl. rewrite app_nil_r. by destruct s.
Qed.

(** What a call of the storage keeps; the log only grows. *)
Record stored s s' : Prop := {
  sd_core : core V s';
  sd_reaches : reaches [] s';
  sd_framed : framed s s';
  sd_log : st_log s `prefix_of` st_log s';
  sd_emits : callback_ (st_idx s) = true → emits s s';
  sd_rewrites : rewrites V s s';
}.

(** The round of a level, and the event that reports it. *)
Lemma round_emits i budget r s s1 s2 :
  row_step V i (Round budget [] []) s r s1 → kept (r_erased r) (pend (r_inserted r) s1) s2 →
  row_ins i r (levels (st_idx s1)) → framed s s2 →
  let lg := if decide (r_erased r ≠ [] ∧ r_inserted r ≠ []) then [Event (r_erased r) (r_inserted r)] else [] in
  emits s (with_log (st_log s2 ++ lg) s2).
Proof.
  intros [_ _ _ _ Hlog Hin0 _ Hev _ _ Hcov Hgiven _] [Hc Hre _ Hlog2 Hp Hlv] [Hn Hl _ He] Hf lg.
  simpl in Hp, Hlv, Hlog2.
  assert ((lg ≫= ev_inserted) = r_inserted r) as Hins.
  { unfold lg. case_decide as Hd; simpl; [by rewrite app_nil_r|].
    destruct (decide (r_inserted r = [])) as [|Hi]; [done|].
    destruct (decide (r_erased r = [])) as [?%He|]; [done|]. by destruct Hd. }
  assert (∀ l, l ∈ r_inserted r → l ∈ owned (st_idx s2)) as Hown.
  { intros l Hin. apply elem_of_app. left. rewrite Hlv. by apply Hl. }
  split; simpl.
  - by rewrite Hp.
  - intros l Hin. left. by eapply framed_owned.
  - exists lg. rewrite Hlog2, Hlog. split_and!; [done|..].
    + rewrite Hins. unfold covers. simpl. by rewrite Hlv, Hp.
    + intros Hd. unfold lg. case_decide; constructor; [|done].
      destruct (Hre Hd) as [_ _ _ Hclear Hold]. split; simpl; [done| |done|].
      * intros l Hin%Hown. destruct (c_good _ _ Hc l) as (sg & -> & _); eauto.
      * intros k l sg Hk [Hin|Hin%Hown] Hsg <-; by eapply Hclear.
    + unfold lg. case_decide; constructor; [|done]. split.
      * intros k [?%elem_of_nil|Hk]%Hgiven; [done|]. unfold given_up in *. simpl. by rewrite Hp.
      * intros l [?%elem_of_nil|Hk]%Hin0; [done|left]. apply elem_of_app. by left.
Qed.

Lemma merge_level_spec i budget s :
  core V s → reaches [] s → (0 ≤ budget)%Z → i < length (levels (st_idx s)) →
  ∃ b' s', runs (merge_level i budget) s b' s' ∧ stored s s' ∧ (0 ≤ b' ≤ budget)%Z.
Proof.
  intros Hc Hre Hb Hi. apply lookup_lt_is_Some_2 in Hi as [row Hrow].
  assert (pend [] s = s) as Hnil.
  { unfold pend, on_idx. destruct s as [p [] lg]. simpl. by rewrite app_nil_r. }
  destruct (merge_row_spec V (length row - 1) i 0 (Round budget [] []) s)
    as (r & s1 & Hr1 & Hs1); [unfold row_inv; simpl; by rewrite Hnil| |].
  { exists row. destruct row; [by right|left]. simpl. split; [done|lia]. }
  pose proof Hs1 as [[Hc1 Hre1] Hf1 _ Hseg1 Hlog1 Hins Ham _ Hrw _ _ _ Hri].
  destruct (erase_all_spec (r_erased r) (r_erased r) (pend (r_inserted r) s1) Hc1 Hre1)
    as (s2 & Hr2 & Hk2); [done|]. pose proof Hk2 as [Hc2 Hre2 Hf2 Hlog2 _ _].
  assert (framed s (pend (r_inserted r) s1)) as Hf1'.
  { destruct Hf1. split; try done. simpl. rewrite Hseg1.
    intros l [?|Hl%Hins]%elem_of_app; [by left|]. set_solver. }
  assert (framed s s2) as Hf by (by etrans).
  assert (row_ins i r (levels (st_idx s1))) as Hri1 by (apply Hri; split; simpl; [constructor|set_solver..|done]).
  set (lg := if decide (r_erased r ≠ [] ∧ r_inserted r ≠ []) then [Event (r_erased r) (r_inserted r)] else []).
  assert (∃ lg' s3, s3 = with_log (st_log s2 ++ lg') s2 ∧ (callback_ (st_idx s2) = true → lg' = lg) ∧
    runs (if decide (r_erased r ≠ [] ∧ r_inserted r ≠ [])
          then notify (r_erased r) (r_inserted r) else mret ()) s2 () s3) as (lg' & s3 & -> & Hlg & Hr3).
  { unfold lg. case_decide; [exists (if callback_ (st_idx s2) then [Event (r_erased r) (r_inserted r)] else []);
      eexists; split; [done|split; [by intros ->|apply notify_runs]]|].
    exists [], s2. split; [|by split; [|apply runs_ret]]. unfold with_log. rewrite app_nil_r. by destruct s2. }
  eexists (amount r), _. split; [|split].
  - unfold merge_level. run. rewrite Hrow. simpl. run_one.
    eapply runs_bind; [apply push_all_runs|]. do 2 run_one. apply runs_ret.
  - split.
    + by apply core_with_log.
    + by apply reaches_with_log, (reaches_nil (r_erased r)).
    + etrans; [exact Hf|]. apply framed_with_log.
    + simpl. simpl in Hlog2. rewrite Hlog2, Hlog1. by eexists.
    + intros Hcb. rewrite Hlg; [by eapply round_emits|].
      by destruct (f_conf _ _ Hf) as (_ & _ & _ & _ & -> & _).
    + etrans; [exact Hrw|]. pose proof (k_framed _ _ _ Hk2) as Hfk. simpl in Hfk.
      apply rewrites_none; [apply (k_proc _ _ _ Hk2)|apply (f_conf _ _ Hfk)|apply (f_content _ _ Hfk)].
  - by apply Ham.
Qed.

Lemma stored_refl s : core V s → reaches [] s → stored s s.
Proof. by split. Qed.
Lemma stored_trans s1 s2 s3 : stored s1 s2 → stored s2 s3 → stored s1 s3.
Proof.
  intros [_ _ F1 L1 E1 W1] [C2 R2 F2 L2 E2 W2]. split; [done|done|by etrans|by etrans| |by etrans].
  intros Hcb. etrans; [by apply E1|apply E2].
  by destruct (f_conf _ _ F1) as (_ & _ & _ & _ & -> & _).
Qed.

(** Every level costs one unit of fuel; a merge that opens a level gives up
    a segment, so the levels there are and the segments in them bound the
    number of iterations. *)
Lemma merge_levels_spec fuel i budget s :
  core V s → reaches [] s → (0 ≤ budget)%Z → i ≤ length (levels (st_idx s)) →
  length (levels (st_idx s)) + length (level_locs (levels (st_idx s))) < i + fuel →
  ∃ s', runs (merge_levels fuel i budget) s () s' ∧ stored s s'.
Proof.
  revert i budget s. induction fuel as [|fuel IH]; intros i budget s Hc Hre Hb Hi0 Hfuel;
    simpl; [lia|].
  destruct (decide ((0 < budget)%Z ∧ i < length (levels (st_idx s)))) as [[Hb0 Hi]|Hstop].
  - destruct (merge_level_spec i budget s Hc Hre Hb Hi) as (b1 & s1 & Hr1 & Hs1 & Hb1).
    destruct (IH (S i) b1 s1) as (s2 & Hr2 & Hs2); [apply Hs1..|lia| | |].
    { pose proof (f_grows _ _ (sd_framed _ _ Hs1)). lia. }
    { pose proof (f_measure _ _ (sd_framed _ _ Hs1)). lia. }
    exists s2. split; [|by eapply stored_trans].
    run. rewrite decide_True by done. by eapply runs_bind.
  - exists s. split; [run; by rewrite decide_False|by apply stored_refl].
Qed.

Lemma swept_stored s :
  core V s → reaches [] s → stored s (on_idx (λ x, set_levels x (sweep (levels x))) s).
Proof.
  intros Hc Hre.
  assert (owned (set_levels (st_idx s) (sweep (levels (st_idx s)))) = owned (st_idx s)) as Ho.
  { unfold owned. simpl. by rewrite level_locs_sweep. }
  split.
  - destruct Hc. split; unfold content; simpl; rewrite ?Ho, ?level_locs_sweep; done.
  - intros Hd. destruct (Hre Hd). split; simpl; rewrite ?Ho, ?level_locs_sweep; done.
  - split; unfold content; simpl; rewrite ?Ho, ?level_locs_sweep; try done.
    + by left.
    + unfold sweep. by rewrite length_fmap.
    + unfold sweep. by rewrite length_fmap.
  - done.
  - intros _. split; [done| |].
    + intros l. simpl. rewrite Ho. by left.
    + exists []. rewrite app_nil_r. split_and!; [done| |by constructor..].
      intros l. simpl. rewrite level_locs_sweep. by right.
  - apply rewrites_none; [done..|]. unfold content. simpl. by rewrite Ho.
Qed.

(** [merge] returns, and keeps everything the storage holds. *)
Lemma merge_spec budget s :
  core V s → reaches [] s → (0 ≤ budget)%Z →
  ∃ s', runs (merge budget) s () s' ∧ stored s s'.
Proof.
  intros Hc Hre Hb. set (lv := levels (st_idx s)).
  destruct (merge_levels_spec (S (length lv + length (level_locs lv))) 0 budget s)
    as (s1 & Hr1 & Hs1); [done..|lia|simpl; subst lv; lia|].
  eexists. split.
  - unfold merge. run. apply runs_modify.
  - eapply stored_trans; [done|]. apply swept_stored; apply Hs1.
Qed.
End levels_loop.

(** ** SegmentStorage::add *)

Section adding.
Context `{SL : StdLib} {T : Type} `{L : IBaseIndexLaws T}.
Implicit Types s : st T.

Lemma level_loop_spec fuel i size lv :
  i ≤ length lv → (size ≤ 2 ^ Z.of_nat (i + fuel))%Z →
  ∃ i' k, level_loop (S fuel) i size lv = Ok (i', lv ++ replicate k []) ∧
    i ≤ i' ≤ length lv + k ∧ (size ≤ 2 ^ Z.of_nat i')%Z ∧
    (i' = i ∨ (2 ^ (Z.of_nat i' - 1) < size)%Z).
Proof.
  revert i lv. induction fuel as [|fuel IH]; intros i lv Hi Hsz;
    (destruct (Z.ltb_spec (2 ^ Z.of_nat i) size) as [Hlt|Hge];
     [|exists i, 0; simpl; apply Z.ltb_ge in Hge; rewrite Hge, app_nil_r;
       apply Z.ltb_ge in Hge; split_and!; auto; lia]).
  { rewrite Nat.add_0_r in Hsz. lia. }
  set (lv1 := if decide (i = length lv) then lv ++ [[]] else lv).
  assert (∃ k1, lv1 = lv ++ replicate k1 [] ∧ S i ≤ length lv + k1) as (k1 & Hk1 & Hlen).
  { unfold lv1. case_decide; [by exists 1; split; [|lia]|].
    exists 0. rewrite app_nil_r. split; [done|lia]. }
  destruct (IH (S i) lv1) as (i' & k & Hr & Hrange & Hle & Hmin).
  { rewrite Hk1, length_app, length_replicate. lia. }
  { by replace (S i + fuel) with (i + S fuel) by lia. }
  exists i', (k1 + k). change (level_loop (S (S fuel)) i size lv)
    with (if (2 ^ Z.of_nat i <? size)%Z then level_loop (S fuel) (S i) size lv1
          else Ok (i, lv)).
  rewrite (proj2 (Z.ltb_lt _ _) Hlt), Hr, Hk1, <-app_assoc, <-replicate_add.
  rewrite Hk1, length_app, length_replicate in Hrange. split_and!; [done|lia|lia|done|].
  right. destruct Hmin as [->|]; [|done].
  replace (Z.of_nat (S i) - 1)%Z with (Z.of_nat i) by lia. done.
Qed.

Lemma level_locs_replicate lv k : level_locs (lv ++ replicate k []) = level_locs lv.
Proof.
  rewrite level_locs_app. replace (level_locs (replicate k [])) with (@nil loc).
  - apply app_nil_r.
  - induction k; [done|]. simpl. by rewrite level_locs_cons.
Qed.

(** The state after [l] was put on level [lvl] of the levels [lv]. *)
Definition levelled s (sg : segment T) (lv : list (list (option loc))) : st T :=
  on_idx (λ x, set_levels (set_sz (set_counter x (u64_add (counter x) 1))
                                  (u64_add (sz x) (seg_size sg))) lv) s.

(** A segment of [size] vectors goes to the level of the powers of two around
    [size]. *)
Lemma storage_add_spec s l sg :
  heap (st_proc s) !! l = Some sg → (seg_size sg ≤ 2 ^ 62)%Z →
  ∃ lvl lv row, runs (storage_add l) s () (levelled s sg lv) ∧
    level_locs lv ≡ₚ l :: level_locs (levels (st_idx s)) ∧
    lv !! lvl = Some (row ++ [Some l]) ∧ length (levels (st_idx s)) ≤ length lv ∧
    (seg_size sg ≤ 2 ^ (Z.of_nat lvl + 1))%Z ∧
    (lvl = 0 ∨ (2 ^ Z.of_nat lvl < seg_size sg)%Z).
Proof.
  intros Hsg Hsz.
  destruct (level_loop_spec 62 0 (seg_size sg) (levels (st_idx s)))
    as (i & k & Hloop & Hi & Hle & Hmin); [lia|done|].
  set (lvl := if decide (i = 0) then 0 else i - 1).
  set (lv1 := levels (st_idx s) ++ replicate k []) in *.
  set (lv2 := if decide (lvl = length lv1) then lv1 ++ [[]] else lv1).
  assert (∃ k', lv2 = levels (st_idx s) ++ replicate k' [] ∧ lvl < length lv2) as (k' & Hk' & Hlvl).
  { unfold lv2. assert (lvl ≤ length lv1) as Hl1.
    { unfold lv1, lvl. rewrite length_app, length_replicate. case_decide; lia. }
    case_decide; [|exists k; split; [done|lia]].
    exists (k + 1). rewrite length_app, replicate_add, app_assoc. simpl. split; [done|lia]. }
  destruct (push_at_Ok lvl l lv2 Hlvl) as [lv Hlv]. pose proof (level_locs_push _ _ _ _ Hlv) as Hp.
  rewrite Hk', level_locs_replicate in Hp.
  pose proof Hlv as Hlv'. unfold push_at in Hlv'.
  destruct (lv2 !! lvl) as [row|] eqn:Hrow; [|done]. injection Hlv' as <-.
  exists lvl, (<[lvl := row ++ [Some l]]> lv2), row. split_and!.
  - unfold storage_add. run. exact eq_refl.
  - done.
  - by apply list_lookup_insert_eq.
  - rewrite length_insert, Hk', length_app. lia.
  - unfold lvl. case_decide as Hi0.
    { subst i. change (2 ^ Z.of_nat 0)%Z with 1%Z in Hle. 
      change (2 ^ (Z.of_nat 0 + 1))%Z with 2%Z. lia. }
    by replace (Z.of_nat (i - 1) + 1)%Z with (Z.of_nat i) by lia.
  - unfold lvl. case_decide; [by left|]. destruct Hmin as [?|Hmin]; [done|right].
    by replace (Z.of_nat (i - 1)) with (Z.of_nat i - 1)%Z by lia.
Qed.
End adding.
