(* ===== verification/Index.v ===== *)
(** * The segmented index (index/include/Index.h)

    [add] fills the current segment [last_] up to the threshold, hands full
    segments to the storage and lets it merge; [search] collects the best of
    every segment; [erase] marks in all of them; [pushSegment]/[eraseSegment]
    are what a searcher applies a writer's updates with. Each call is one step
    here; [Concurrency] takes add, search and erase apart, under the guards they
    hold on [segments_m_]. *)

From S2P Require Import Prelude Cxx Floats BinaryIO Faiss TopK IBaseIndex Segment IIndex.

Section index.
Context `{SL : StdLib} {T : Type} `{B : IBaseIndex T}.

(** [Index(dim, segmentThreshold, enable_merge, args...)] in a process. *)
Definition Index (dim : nat) (segmentThreshold : Z) (enable_merge : bool)
    (a : index_args) (p : proc T) : proc T * index_state :=
  let r := std_rand (draws p) in
  let l := fresh p in
  (new_seg (Segment a r) (count_draw p),
   IndexState dim (u64 segmentThreshold) a enable_merge false [] 0 0 [] l).

(** The [while (n)] loop of [add]; every iteration takes at least one
    vector, so [n] of them are enough. *)
Fixpoint add_loop (fuel n : nat) (ids : list string) (vectors : list f32)
    (inserted : list loc) : M (st T) (list loc) :=
  match fuel with
  | 0 => undef NoFuel
  | S fuel =>
    if decide (n = 0) then mret inserted
    else
      l ← idx last_;
      sg ← deref l;
      thr ← idx segmentThreshold_;
      d ← idx d_;
      let batch := Z.to_nat (Z.min (Z.of_nat n) (u64_sub thr (seg_size sg))) in
      if decide (batch = 0) then throw (RuntimeError "Empty batch in adding")
      else
        sg ← liftO (addVectorBatch sg batch ids vectors);
        assign l sg;;
        let ids := drop batch ids in
        let vectors := drop (batch * d) vectors in
        let n := n - batch in
        if (seg_size sg =? thr)%Z then
          storage_add l;;
          modify (on_idx (λ x, set_segments x (segments_ x ++ [l])));;
          l' ← create;
          modify (on_idx (λ x, set_last x l'));;
          add_loop fuel n ids vectors (inserted ++ [l])
        else add_loop fuel n ids vectors inserted
  end.

(** A round merges at most 200 vectors. *)
Definition add (n : nat) (ids : list string) (vectors : list f32) : M (st T) () :=
  thr ← idx segmentThreshold_;
  if decide (thr = 0%Z) then undef DivByZero
  else
    inserted ← add_loop (S n) n ids vectors [];
    (if decide (inserted = []) then mret () else notify [] inserted);;
    em ← idx (λ i, merge_predicate i (segmentThreshold_ i));
    if em : bool then merge 200 else mret ().

(** [for (p : segmentResults) { kth_stat.emplace(...); trim }] *)
Definition absorb (k : nat) (kth_stat : list SearchResult) (m : gmap string f32) :
    list SearchResult :=
  foldl (λ s p, trim sr_lt k s (SR p.2 p.1)) kth_stat (std_iter m).

Fixpoint search_segments (query : list f32) (k : Z) (ls : list loc)
    (kth_stat : list SearchResult) : M (st T) (list SearchResult) :=
  match ls with
  | [] => mret kth_stat
  | l :: ls =>
    sg ← deref l;
    m ← liftO (searchQuery sg query k);
    search_segments query k ls (absorb (Z.to_nat k) kth_stat m)
  end.

Definition search (query : list f32) (k : Z) : M (st T) (list string) :=
  ls ← idx segments_;
  kth_stat ← search_segments query k ls [];
  l ← idx last_;
  kth_stat ← search_segments query k [l] kth_stat;
  mret (id <$> kth_stat).

Definition erase (n : nat) (ids : list string) : M (st T) () :=
  ls ← idx segments_;
  l ← idx last_;
  forM (ls ++ [l]) (λ l,
    sg ← deref l;
    sg ← liftO (deleteBatch sg n ids);
    assign l sg).

(** A null [segment] is dereferenced by [storage_.add]. *)
Definition pushSegment (segment : option loc) : M (st T) () :=
  match segment with
  | None => undef NullDeref
  | Some l =>
    storage_add l;;
    modify (on_idx (λ x, set_segments x (segments_ x ++ [l])));;
    notify [] [l]
  end.

(** The segment is looked for; nothing is removed. *)
Definition eraseSegment (k : Z) : M (st T) bool :=
  ls ← idx segments_;
  p ← find_segment k ls 0;
  mret (match p with None => false | Some _ => true end).

(** [size()] *)
Definition index_size : M (st T) Z := ls ← idx segments_; mret (Z.of_nat (length ls)).

Definition setUpdateCallback : M (st T) () := modify (on_idx (λ x, set_callback x true)).
End index.
