(* ===== verification/Executor.v ===== *)
(** * The asynchronous interface (index/include/IIndex.h)

    [StartExecutor] starts a thread that creates the [io_context] and runs it;
    [async_add], [async_erase] and [async_search] post a job to it and return a
    future. [executor] is the part of an index these calls use, seen from the
    thread that owns the index; [thread_enters] is the step of the thread
    [StartExecutor] started. *)

From S2P Require Import Prelude Cxx Floats.

(** What the posted closures capture. *)
Inductive job :=
  | JobAdd (n : nat) (ids : list string) (vectors : list f32)
  | JobErase (n : nat) (ids : list string)
  | JobSearch (query : list f32) (k : Z).

#[export] Instance job_eq_dec : EqDecision job.
Proof. solve_decision. Defined.

(** A thread started by [StartExecutor]: before its first statement, or past
    it. [ctx_->run()] returns when the context has no work, so a join ends. *)
Inductive exec_thread := NotEntered | Entered.

#[export] Instance exec_thread_eq_dec : EqDecision exec_thread.
Proof. solve_decision. Defined.

Record executor := Executor {
  (** the jobs posted and the promise each sets *)
  ctx_ : option (list (job * nat));
  execution_thread_ : option exec_thread;
}.

(** [boost::promise]s are numbered. *)
Abbreviation promise_ptr := (option nat).

(** [promise_ptr->get_future()] *)
Definition get_future (p : promise_ptr) : outcome nat :=
  match p with Some n => Ok n | None => Undef NullDeref end.

(** Overwriting the pointer to a thread nobody joined ends the process. *)
Definition StartExecutor : M executor () := λ e,
  match execution_thread_ e with
  | Some _ => (e, Undef Terminate)
  | None => (Executor (ctx_ e) (Some NotEntered), Ok ())
  end.

(** The first statement of the thread reads [thread_num] through the reference
    the closure captured; [returned]: whether [StartExecutor], whose parameter
    it is, has returned by then. *)
Definition thread_enters (returned : bool) : M executor () := λ e,
  if decide (execution_thread_ e = Some NotEntered) then
    if returned then (e, Undef Dangling)
    else (Executor (Some []) (Some Entered), Ok ())
  else (e, Ok ()).

(** [ctx_->stop(); execution_thread_->join(); execution_thread_.reset();]: the
    join lets a thread that has not entered run. *)
Definition StopExecution : M executor () := λ e,
  match ctx_ e, execution_thread_ e with
  | None, _ | _, None => (e, Undef NullDeref)
  | Some _, Some NotEntered => (e, Undef Dangling)
  | Some c, Some Entered => (Executor (Some c) None, Ok ())
  end.

(** The body the three calls share; [promise_ptr] is declared and never given a
    promise. *)
Definition async (j : job) : M executor nat :=
  c ← gets ctx_;
  match c with
  | None => throw (RuntimeError "Execution was not started")
  | Some jobs =>
    let promise_ptr : promise_ptr := None in
    f ← liftO (get_future promise_ptr);
    modify (λ e, Executor (Some (jobs ++ [(j, f)])) (execution_thread_ e));;
    mret f
  end.

Definition async_add (n : nat) (ids : list string) (vectors : list f32) : M executor nat :=
  async (JobAdd n ids vectors).
Definition async_erase (n : nat) (ids : list string) : M executor nat := async (JobErase n ids).
Definition async_search (query : list f32) (k : Z) : M executor nat := async (JobSearch query k).

(** No asynchronous call gets as far as posting its job. *)
Lemma async_fails j e :
  async j e =
    (e, match ctx_ e with
        | None => Throw (RuntimeError "Execution was not started")
        | Some _ => Undef NullDeref
        end).
Proof. unfold async, gets, mbind, M_bind. by destruct (ctx_ e). Qed.
