(* ===== verification/IndexSpec.v ===== *)
(** * The index as a map from ids to vectors (index/include/Index.h)

    [idx_inv] is the invariant of an index; [add], [erase] and [search] are
    shown to insert into, delete from and query the collection [content] of
    live (id, vector) pairs, whatever segments they are spread over and
    whatever merges happened. *)

From S2P Require Import Prelude Cxx Floats BinaryIO Faiss TopK IBaseIndex Segment IIndex Events Storage Index.

Section filling.
Context `{SL : StdLib} {T : Type} `{L : IBaseIndexLaws T}.
Context (V : list f32 → Prop).
Implicit Types s : st T.

(** [low]: how far below zero the count of the current segment may be; an id
    erased, added again and erased again is subtracted twice. *)
Record idx_inv (low : Z) s : Prop := {
  i_core : core V s;
  i_reaches : reaches [] s;
  i_thr : (0 < segmentThreshold_ (st_idx s) < 2 ^ 62)%Z;
  i_dim : d_ (st_idx s) = sh_dim (idx_shape (T:=T) (st_idx s));
  i_fill : ∃ sg, heap (st_proc s) !! last_ (st_idx s) = Some sg ∧
    (- low ≤ seg_count sg < segmentThreshold_ (st_idx s))%Z;
}.

(** The settings of an index, which no call changes. *)
Definition same_conf (i i' : index_state) : Prop :=
  d_ i' = d_ i ∧ segmentThreshold_ i' = segmentThreshold_ i ∧ factory_ i' = factory_ i ∧
  enable_merge_ i' = enable_merge_ i ∧ callback_ i' = callback_ i.

(** What a call on this index leaves alone: its settings and every segment
    that was not its own; it only allocates. *)
Record apart s s' : Prop := {
  a_conf : same_conf (st_idx s) (st_idx s');
  a_heap l : l < fresh (st_proc s) → l ∉ owned (st_idx s) → l ∉ segments_ (st_idx s) →
    heap (st_proc s') !! l = heap (st_proc s) !! l;
  a_owned l : l < fresh (st_proc s) → l ∈ owned (st_idx s') ∨ l ∈ segments_ (st_idx s') →
    l ∈ owned (st_idx s) ∨ l ∈ segments_ (st_idx s);
  a_fresh : fresh (st_proc s) ≤ fresh (st_proc s');
  a_draws : draws (st_proc s) ≤ draws (st_proc s');
}.

#[global] Instance apart_preorder : PreOrder apart.
Proof.
  split.
  - intros s. by split.
  - intros s1 s2 s3 [C1 H1 O1 F1 D1] [C2 H2 O2 F2 D2]. split; [|..|lia|lia].
    + unfold same_conf in *. deex. split_and!; congruence.
    + intros l Hl Ho Hs. rewrite H2; [by apply H1|lia| |];
        intros Hin; destruct (O1 l Hl); auto.
    + intros l Hl Hin. apply O1, O2; [done|lia|done].
Qed.

(** ** Updating the current segment *)

Definition update_last s (sg : segment T) : st T :=
  on_proc (store_seg (last_ (st_idx s)) sg) s.

Section update.
Context s (sg sg' : segment T) (new : list (string * list f32)).
Context (Hc : core V s) (Hlast : heap (st_proc s) !! last_ (st_idx s) = Some sg).
Context (Hgood : seg_good V (idx_shape (st_idx s)) sg').
Context (Hent : seg_entries sg' = seg_entries sg ++ new) (Hid : seg_id sg' = seg_id sg).
Context (Hnew : NoDup (content s ++ new).*1).

Lemma last_not_level : last_ (st_idx s) ∉ level_locs (levels (st_idx s)).
Proof.
  intros Hin. pose proof (c_nodup _ _ Hc) as Hnd. apply NoDup_app in Hnd as (_ & Hnd & _).
  apply (Hnd _ Hin). by left.
Qed.

Lemma update_content : content (update_last s sg') = content s ++ new.
Proof.
  unfold content, owned. simpl. rewrite !contents_app, !contents_cons.
  rewrite contents_insert_ne, entries_at_insert by apply last_not_level.
  rewrite (entries_at_Some _ _ _ Hlast), Hent. simpl. by rewrite !app_nil_r, app_assoc.
Qed.

Lemma update_core : core V (update_last s sg').
Proof.
  pose proof update_content as Hcont. destruct Hc as [Ha Hg Hn Hl Hk Hs Hcnt].
  split; try done.
  - intros l. simpl. rewrite lookup_insert. case_decide; [subst; intros _; apply Ha; eauto|apply Ha].
  - intros l Hin. simpl. rewrite lookup_insert. case_decide; [by eauto|by apply Hg].
  - by rewrite Hcont.
  - intros l e Hin He. rewrite Hcont, elem_of_app. left. apply (Hs l); [done|].
    unfold entries_at in *. simpl in He. rewrite lookup_insert_ne in He; [done|].
    intros <-. by apply Hl.
Qed.

Lemma update_reaches : reaches [] s → reaches [] (update_last s sg').
Proof.
  intros Hre Hd. destruct (Hre Hd) as [Hsub Hids Hinj _ _].
  assert (∀ l sg1, heap (st_proc (update_last s sg')) !! l = Some sg1 →
    ∃ sg0, heap (st_proc s) !! l = Some sg0 ∧ seg_id sg1 = seg_id sg0) as Hold.
  { intros l sg1. simpl. rewrite lookup_insert. case_decide; [|by eauto].
    intros [= <-]. subst. eauto. }
  split; try done.
  - intros l sg1 Hin Hsg. apply Hold in Hsg as (sg0 & Hsg & ->). by apply (Hids l).
  - intros l l' sg1 sg2 Hin Hin' Hsg Hsg'. apply Hold in Hsg as (sg3 & Hsg & ->),
      Hsg' as (sg4 & Hsg' & ->). by eapply Hinj.
  - set_solver.
  - set_solver.
Qed.

Lemma update_apart : apart s (update_last s sg').
Proof.
  split; try done. intros l _ Hl _. simpl. rewrite lookup_insert_ne; [done|].
  intros <-. apply Hl, elem_of_app. right. by left.
Qed.
End update.
End filling.

(** ** Handing the full segment to the storage *)

Section sealing.
Context `{SL : StdLib} {T : Type} `{L : IBaseIndexLaws T}.
Context (V : list f32 → Prop).
Implicit Types s : st T.

(** [storage_.add(last_); segments_.push_back(last_); last_ = factory_->create()] *)
Definition sealed s (sg : segment T) (lv : list (list (option loc))) : st T :=
  let p := st_proc s in let i := st_idx s in
  St (Proc (<[fresh p := Segment (factory_ i) (std_rand (draws p))]> (heap p))
           (S (fresh p)) (S (draws p)))
     (IndexState (d_ i) (segmentThreshold_ i) (factory_ i) (enable_merge_ i) (callback_ i)
        lv (u64_add (sz i) (seg_size sg)) (u64_add (counter i) 1)
        (segments_ i ++ [last_ i]) (fresh p)) (st_log s).

Lemma sealed_runs s sg lv (k : M (st T) (list loc)) r s' :
  runs (storage_add (last_ (st_idx s))) s () (levelled s sg lv) →
  runs k (sealed s sg lv) r s' →
  runs (storage_add (last_ (st_idx s));;
        modify (on_idx (λ x, set_segments x (segments_ x ++ [last_ (st_idx s)])));;
        l' ← create; modify (on_idx (λ x, set_last x l'));; k) s r s'.
Proof.
  intros Hadd Hk. do 2 run_one.
  eapply runs_bind; [by unfold create; run_one;
    run_one; exact eq_refl|].
  run_one. exact Hk.
Qed.

Section seal.
Context s (sg : segment T) (lv : list (list (option loc))).
Context (Hc : core V s) (Hlast : heap (st_proc s) !! last_ (st_idx s) = Some sg).
Context (Hlv : level_locs lv ≡ₚ last_ (st_idx s) :: level_locs (levels (st_idx s))).
Let s' := sealed s sg lv.

Lemma sealed_owned : owned (st_idx s') ≡ₚ owned (st_idx s) ++ [fresh (st_proc s)].
Proof. unfold owned. simpl. rewrite Hlv. solve_Permutation. Qed.

Lemma known_old l : l ∈ owned (st_idx s) ∨ l ∈ segments_ (st_idx s) → l < fresh (st_proc s).
Proof.
  intros Hl. destruct (c_good _ _ Hc l Hl) as (sg0 & Hsg & _). apply (c_alloc _ _ Hc). eauto.
Qed.

Lemma sealed_lookup l :
  l ≠ fresh (st_proc s) → heap (st_proc s') !! l = heap (st_proc s) !! l.
Proof. intros. simpl. by rewrite lookup_insert_ne. Qed.

Lemma sealed_content : content s' ≡ₚ content s.
Proof.
  unfold content. rewrite sealed_owned, contents_app, contents_cons. simpl.
  rewrite contents_insert_ne, entries_at_insert.
  - destruct (ib_make_spec (T:=T) (factory_ (st_idx s))) as (_ & _ & He & _).
    unfold seg_entries. simpl. by rewrite He, app_nil_r.
  - intros Hin. pose proof (known_old (fresh (st_proc s)) (or_introl Hin)). lia.
Qed.

Lemma new_segment_good : seg_good V (idx_shape (st_idx s))
  (Segment (factory_ (st_idx s)) (std_rand (draws (st_proc s)))).
Proof.
  destruct (ib_make_spec (T:=T) (factory_ (st_idx s))) as (? & ? & _).
  split_and!; try done; [unfold idx_shape; by rewrite <-ib_type_kind|]. simpl. rewrite ib_rows_make. set_solver.
Qed.

Lemma sealed_core : core V s'.
Proof.
  pose proof sealed_owned as Ho. pose proof sealed_content as Hcont. split.
  - intros l. simpl. rewrite lookup_insert. case_decide; [lia|].
    intros ?%(c_alloc _ _ Hc). lia.
  - intros l Hl. destruct (decide (l = fresh (st_proc s))) as [->|Hne].
    { simpl. rewrite lookup_insert_eq. eauto using new_segment_good. }
    rewrite sealed_lookup by done. apply (c_good _ _ Hc). rewrite Ho in Hl. simpl in Hl.
    rewrite !elem_of_app, !list_elem_of_singleton in Hl. destruct Hl as [[?|?]|[?| ->]]; auto; [done|].
    left. apply elem_of_app. right. by left.
  - rewrite Ho. apply NoDup_app. split_and!; [apply (c_nodup _ _ Hc)| |apply NoDup_singleton].
    intros l Hl ->%list_elem_of_singleton. pose proof (known_old _ (or_introl Hl)). lia.
  - simpl. rewrite elem_of_app, list_elem_of_singleton. intros [Hl|Heq].
    + pose proof (known_old _ (or_intror Hl)). lia.
    + assert (last_ (st_idx s) < fresh (st_proc s)); [|lia].
      apply (c_alloc _ _ Hc). eauto.
  - rewrite Hcont. apply (c_keys _ _ Hc).
  - intros l e Hl He. rewrite Hcont. simpl in Hl. rewrite elem_of_app in Hl.
    assert (l ≠ fresh (st_proc s)) as Hne.
    { intros ->. destruct Hl as [Hl|Heq%list_elem_of_singleton].
      - pose proof (known_old _ (or_intror Hl)). lia.
      - assert (last_ (st_idx s) < fresh (st_proc s)); [apply (c_alloc _ _ Hc); eauto|lia]. }
    unfold entries_at in He. rewrite sealed_lookup in He by done.
    destruct Hl as [Hl| ->%list_elem_of_singleton]; [by apply (c_stale _ _ Hc l)|].
    apply elem_of_contents. exists (last_ (st_idx s)). split; [|done].
    apply elem_of_app. right. by left.
  - simpl. rewrite (c_counter _ _ Hc), Hlv. simpl. unfold u64_add, u64.
    rewrite Zplus_mod_idemp_l. f_equal. lia.
Qed.

Lemma sealed_case l sg1 :
  l ∈ owned (st_idx s') → heap (st_proc s') !! l = Some sg1 →
  (l = fresh (st_proc s) ∧ seg_id sg1 = std_rand (draws (st_proc s))) ∨
  (l ∈ owned (st_idx s) ∧ heap (st_proc s) !! l = Some sg1).
Proof.
  intros Hl Hsg. destruct (decide (l = fresh (st_proc s))) as [->|Hne].
  - left. simpl in Hsg. rewrite lookup_insert_eq in Hsg. by simplify_eq/=.
  - right. rewrite sealed_lookup in Hsg by done. split; [|done].
    rewrite sealed_owned in Hl. set_solver.
Qed.

Lemma sealed_reaches : reaches [] s → reaches [] s'.
Proof.
  intros Hre Hd. assert (draws (st_proc s') = S (draws (st_proc s))) as Hdr by done.
  destruct Hre as [Hsub Hids Hinj _ _]; [eapply distinct_mono; [|done]; lia|].
  pose proof (fresh_draw s s' Hd Hdr) as Hfresh. split; [| | |set_solver..].
  - intros l. simpl. rewrite Hlv, elem_of_app, elem_of_cons. intros [->|?]; [set_solver|auto].
  - intros l sg1 Hl Hsg. rewrite Hdr.
    destruct (sealed_case l sg1 Hl Hsg) as [[_ ->]|[Hl' Hsg']]; [by eauto with lia|].
    destruct (Hids l sg1 Hl' Hsg') as (n & ? & ->). eauto with lia.
  - intros l l' sg1 sg2 Hl Hl' Hsg Hsg'.
    destruct (sealed_case l sg1 Hl Hsg) as [[-> ->]|[Ho1 Hs1]],
      (sealed_case l' sg2 Hl' Hsg') as [[-> ->]|[Ho2 Hs2]]; eauto.
    + destruct (Hids l' sg2 Ho2 Hs2) as (n & Hn & ->). by intros ?%eq_sym%Hfresh.
    + destruct (Hids l sg1 Ho1 Hs1) as (n & Hn & ->). by intros ?%Hfresh.
Qed.

Lemma sealed_apart : apart s s'.
Proof.
  split; [done| | |simpl; lia..].
  - intros l Hl _ _. apply sealed_lookup. lia.
  - intros l Hl. rewrite sealed_owned. simpl.
    rewrite !elem_of_app, !list_elem_of_singleton. intros [[?|?]|[?| ->]]; auto; [lia|].
    left. apply elem_of_app. right. by left.
Qed.
End seal.
End sealing.

(** ** [add] *)

Section add_spec.
Context `{SL : StdLib} {T : Type} `{L : IBaseIndexLaws T}.
Context (V : list f32 → Prop) (low : Z) (Hlow : (0 ≤ low ≤ 2 ^ 62)%Z).
Implicit Types s : st T.

(** The pairs a batch consists of. *)
Definition batch_of (d n : nat) (ids : list string) (vectors : list f32) :
    list (string * list f32) := zip (take n ids) (chunks d n vectors).

(** A batch [add] may be called with: the buffers are as long as it says, the
    ids are new to the index, and the vectors are of the agreed kind. *)
Record addable s (n : nat) (ids : list string) (vectors : list f32) : Prop := {
  ad_ids : n ≤ length ids;
  ad_vectors : n * d_ (st_idx s) ≤ length vectors;
  ad_fresh : NoDup ((content s).*1 ++ take n ids);
  ad_V : Forall V (chunks (d_ (st_idx s)) n vectors);
}.

Lemma batch_of_fst d n ids vectors :
  n ≤ length ids → (batch_of d n ids vectors).*1 = take n ids.
Proof.
  intros Hn. unfold batch_of. rewrite fst_zip; [done|].
  by rewrite length_take_le, length_chunks by done.
Qed.

Lemma batch_of_split d b n ids vectors :
  b ≤ n → n ≤ length ids →
  batch_of d n ids vectors =
  batch_of d b ids vectors ++ batch_of d (n - b) (drop b ids) (drop (b * d) vectors).
Proof.
  intros Hb Hn. unfold batch_of. replace n with (b + (n - b)) at 1 2 by lia.
  rewrite chunks_add, <-take_take_drop, zip_with_app; [done|].
  by rewrite length_chunks, length_take_le by lia.
Qed.

(** One batch into the current segment. *)
Lemma fill_last s n ids vectors :
  idx_inv V low s → addable s n ids vectors → 0 < n →
  ∃ sg batch sg', heap (st_proc s) !! last_ (st_idx s) = Some sg ∧
    batch = Z.to_nat (Z.min (Z.of_nat n) (u64_sub (segmentThreshold_ (st_idx s)) (seg_size sg))) ∧
    0 < batch ≤ n ∧ addVectorBatch sg batch ids vectors = Ok sg' ∧
    seg_good V (idx_shape (st_idx s)) sg' ∧ seg_id sg' = seg_id sg ∧
    seg_entries sg' = seg_entries sg ++ batch_of (d_ (st_idx s)) batch ids vectors ∧
    (- low ≤ seg_count sg' ≤ segmentThreshold_ (st_idx s))%Z.
Proof.
  intros [Hc Hre Hthr Hdim (sg & Hlast & Hcnt)] [Hi Hv Hf HV] Hn.
  destruct (c_good _ _ Hc (last_ (st_idx s))) as (sg0 & Hsg0 & Wf & Ti & Sh & Ty & Rv).
  { left. apply elem_of_app. right. by left. }
  simplify_eq. set (thr := segmentThreshold_ (st_idx s)) in *.
  assert (u64_sub thr (seg_size sg) = (thr - seg_count sg)%Z) as Hroom.
  { unfold seg_size. rewrite ib_size_count. apply u64_sub_wrapped.
    fold (seg_count sg). unfold u64_modulus. lia. }
  set (b := Z.to_nat (Z.min (Z.of_nat n) (thr - seg_count sg))).
  assert (0 < b ≤ n ∧ (Z.of_nat b ≤ thr - seg_count sg)%Z) as [Hb Hroom'] by (unfold b; lia).
  assert (sh_dim (ib_shape (seg_index sg)) = d_ (st_idx s)) as Hd.
  { unfold seg_shape in Sh. by rewrite Sh, Hdim. }
  assert (b * d_ (st_idx s) ≤ n * d_ (st_idx s)) by (apply Nat.mul_le_mono_r; lia).
  destruct (ib_add_spec (seg_index sg) b vectors ids) as
    (t & Ht & Wt & St & Et & _ & Ct & _ & Tt); [done|rewrite Hd; lia|lia|].
  rewrite Hd in Et.
  assert (take b ids `sublist_of` take n ids) as Hsub.
  { replace (take b ids) with (take b (take n ids)) by (by rewrite take_take, Nat.min_l by lia).
    apply sublist_take. }
  apply NoDup_app in Hf as (_ & Hdisj & Hnd).
  exists sg, b, (with_index sg t). rewrite Hroom. fold b. split_and!; try done; try lia.
  - unfold addVectorBatch. by rewrite Ht.
  - split_and!; [done| |by etrans|done|].
    + apply Tt; [done|by eapply sublist_NoDup|]. intros x Hx Hin. apply (Hdisj x).
      * apply list_elem_of_fmap in Hin as (e & -> & He). apply list_elem_of_fmap_2.
        apply elem_of_contents. exists (last_ (st_idx s)). rewrite (entries_at_Some _ _ _ Hlast).
        split; [apply elem_of_app; right; by left|done].
      * exact (elem_of_sublist _ _ _ Hx Hsub).
    + simpl. intros v. rewrite (ib_rows_add _ _ _ _ _ Ht), elem_of_app, Hd.
      intros [?|Hin]; [by apply Rv|]. rewrite Forall_forall in HV. apply HV.
      replace n with (b + (n - b)) by lia. rewrite chunks_add. apply elem_of_app. by left.
  - change (seg_count (with_index sg t)) with (ib_count t). unfold seg_count in *. lia.
  - change (seg_count (with_index sg t)) with (ib_count t). unfold seg_count in *. lia.
Qed.

(** The segment is full exactly when its count reaches the threshold. *)
Lemma full_iff s sg :
  (0 < segmentThreshold_ (st_idx s) < 2 ^ 62)%Z →
  (- low ≤ seg_count sg ≤ segmentThreshold_ (st_idx s))%Z →
  (seg_size sg =? segmentThreshold_ (st_idx s))%Z =
  bool_decide (seg_count sg = segmentThreshold_ (st_idx s)).
Proof.
  intros Hthr Hcnt. unfold seg_size. rewrite ib_size_count. fold (seg_count sg).
  destruct (decide (0 ≤ seg_count sg)%Z).
  - rewrite u64_small by (unfold u64_modulus; lia).
    case_bool_decide; [by apply Z.eqb_eq|by apply Z.eqb_neq].
  - rewrite bool_decide_false by lia. apply Z.eqb_neq. unfold u64.
    rewrite <-(Z_mod_plus_full _ 1), Z.mul_1_l, Z.mod_small; unfold u64_modulus; lia.
Qed.

Lemma addable_rest s s' b n ids vectors :
  addable s n ids vectors → b ≤ n → same_conf (st_idx s) (st_idx s') →
  content s' ≡ₚ content s ++ batch_of (d_ (st_idx s)) b ids vectors →
  addable s' (n - b) (drop b ids) (drop (b * d_ (st_idx s)) vectors).
Proof.
  intros [Hi Hv Hf HV] Hb (Hd & _) Hcont. split.
  - rewrite length_drop. lia.
  - rewrite length_drop, Hd. nia.
  - rewrite Hcont, fmap_app, batch_of_fst, <-app_assoc, take_take_drop by lia.
    by replace (b + (n - b)) with n by lia.
  - rewrite Hd. replace n with (b + (n - b)) in HV by lia. rewrite chunks_add in HV.
    by apply Forall_app in HV as [_ ?].
Qed.

Lemma addable_keys s n ids vectors b :
  addable s n ids vectors → b ≤ n →
  NoDup (content s ++ batch_of (d_ (st_idx s)) b ids vectors).*1.
Proof.
  intros [Hi _ Hf _] Hb. rewrite fmap_app, batch_of_fst by lia.
  eapply sublist_NoDup; [exact Hf|]. apply sublist_app; [done|].
  replace (take b ids) with (take b (take n ids)) by (by rewrite take_take, Nat.min_l by lia).
  apply sublist_take.
Qed.

(** An upper bound of the calls of [rand()] so far that merging does not
    raise: a segment handed to the storage is merged away at most once. *)
Definition potential s : nat :=
  draws (st_proc s) + length (level_locs (levels (st_idx s))).

(** What an iteration of [add] achieves on [b] of the vectors. *)
Record add_step s (b : nat) ids vectors s' : Prop := {
  as_inv : idx_inv V low s';
  as_content : content s' ≡ₚ content s ++ batch_of (d_ (st_idx s)) b ids vectors;
  as_apart : apart s s';
  as_potential : potential s' ≤ potential s + 2 * b;
  as_log : st_log s' = st_log s;
}.

(** The segments [new] were filled up and handed to the storage. *)
Record filled (new : list loc) s s' : Prop := {
  fl_evolves : evolves (st_proc s) (st_proc s');
  fl_owned : stays s s';
  fl_covers : covers new s s';
  fl_nodup : NoDup new;
  fl_new l : l ∈ new → l ∈ level_locs (levels (st_idx s')) ∧ l ∉ level_locs (levels (st_idx s));
  fl_levels l : l ∈ level_locs (levels (st_idx s)) → l ∈ level_locs (levels (st_idx s'));
  fl_rewrites : rewrites V s s';
}.

Lemma filled_refl s : filled [] s s.
Proof. split; [done|by left| |constructor|set_solver|done..]. intros l Hl. by right. Qed.

Lemma filled_trans new new' s1 s2 s3 :
  filled new s1 s2 → filled new' s2 s3 → filled (new ++ new') s1 s3.
Proof.
  intros [E1 O1 C1 N1 W1 L1 R1] [E2 O2 C2 N2 W2 L2 R2].
  split; [by etrans|by eapply stays_trans|by eapply covers_trans| |set_solver|by auto|by etrans].
  apply NoDup_app. split_and!; [done| |done]. intros l [Hl _]%W1 [_ Hl']%W2. done.
Qed.

Lemma update_filled s sg sg' :
  core V s → core V (update_last s sg') → heap (st_proc s) !! last_ (st_idx s) = Some sg →
  seg_id sg' = seg_id sg → (∀ e, e ∈ content s → e ∈ content (update_last s sg')) →
  filled [] s (update_last s sg').
Proof.
  intros Hc Hc' Hlast Hid He. split; [by eapply evolves_store|by left| |constructor|set_solver|done|].
  - intros l Hl. right. split; [done|]. simpl. rewrite lookup_insert_ne; [done|].
    intros <-. by destruct (last_not_level V s Hc).
  - apply (rewrites_at V _ _ (last_ (st_idx s))); [done| |done| |done].
    + apply elem_of_app. right. by left.
    + intros l Hl. simpl. by rewrite lookup_insert_ne.
Qed.

Lemma sealed_filled s sg lv :
  core V s → heap (st_proc s) !! last_ (st_idx s) = Some sg →
  level_locs lv ≡ₚ last_ (st_idx s) :: level_locs (levels (st_idx s)) →
  filled [last_ (st_idx s)] s (sealed s sg lv).
Proof.
  intros Hc Hlast Hlv.
  assert (heap (st_proc s) !! fresh (st_proc s) = None) as Hfresh.
  { apply eq_None_not_Some. intros ?%(c_alloc _ _ Hc). lia. }
  split.
  - by apply (evolves_draw (st_proc s)).
  - intros l. rewrite (sealed_owned s sg lv Hlv). intros [?| ->%list_elem_of_singleton]%elem_of_app; auto.
  - intros l. simpl. rewrite Hlv. intros [->|Hl]%elem_of_cons; [by left; left|right].
    split; [done|]. rewrite lookup_insert_ne; [done|]. intros <-.
    destruct (c_good _ _ Hc (fresh (st_proc s))) as (sg0 & Hsg0 & _); [|congruence].
    left. apply elem_of_app. by left.
  - apply NoDup_singleton.
  - intros l ->%list_elem_of_singleton. simpl. rewrite Hlv. split; [by left|].
    by eapply last_not_level.
  - intros l Hl. simpl. rewrite Hlv. by right.
  - apply (rewrites_at V _ _ (fresh (st_proc s))); [by apply sealed_core| |done| |].
    + apply elem_of_app. right. by left.
    + intros l Hl. simpl. by rewrite lookup_insert_ne.
    + intros e. by rewrite (sealed_content V s sg lv Hc Hlv).
Qed.

Lemma update_inv s sg sg' b ids vectors :
  idx_inv V low s → heap (st_proc s) !! last_ (st_idx s) = Some sg →
  seg_good V (idx_shape (st_idx s)) sg' → seg_id sg' = seg_id sg →
  seg_entries sg' = seg_entries sg ++ batch_of (d_ (st_idx s)) b ids vectors →
  NoDup (content s ++ batch_of (d_ (st_idx s)) b ids vectors).*1 →
  (- low ≤ seg_count sg' < segmentThreshold_ (st_idx s))%Z →
  add_step s b ids vectors (update_last s sg').
Proof.
  intros [Hc Hre Hthr Hdim _] Hlast Hg Hid He Hk Hcnt. split; [..|unfold potential; simpl; lia|].
  - split; [by eapply update_core|by eapply update_reaches|done|done|].
    exists sg'. simpl. by rewrite lookup_insert_eq.
  - by rewrite (update_content V s sg sg' _ Hc Hlast He).
  - apply update_apart.
  - done.
Qed.

Lemma sealed_inv s sg sg' b ids vectors lv :
  idx_inv V low s → heap (st_proc s) !! last_ (st_idx s) = Some sg →
  seg_good V (idx_shape (st_idx s)) sg' → seg_id sg' = seg_id sg →
  seg_entries sg' = seg_entries sg ++ batch_of (d_ (st_idx s)) b ids vectors →
  NoDup (content s ++ batch_of (d_ (st_idx s)) b ids vectors).*1 →
  level_locs lv ≡ₚ last_ (st_idx s) :: level_locs (levels (st_idx s)) → 0 < b →
  add_step s b ids vectors (sealed (update_last s sg') sg' lv).
Proof.
  intros [Hc Hre Hthr Hdim _] Hlast Hg Hid He Hk Hlv Hb.
  assert (core V (update_last s sg')) as Hc1 by (by eapply update_core).
  assert (heap (st_proc (update_last s sg')) !! last_ (st_idx (update_last s sg')) = Some sg') as Hl1.
  { simpl. by rewrite lookup_insert_eq. }
  split.
  - split; [by eapply sealed_core| |done|done|].
    + eapply sealed_reaches; [done..|]. by eapply update_reaches.
    + eexists. simpl. rewrite lookup_insert_eq. split; [done|].
      destruct (ib_make_spec (T:=T) (factory_ (st_idx s))) as (_ & _ & _ & _ & Hz & _).
      unfold seg_count. simpl. rewrite Hz. lia.
  - rewrite (sealed_content V _ sg' lv Hc1) by done.
    by rewrite (update_content V s sg sg' _ Hc Hlast He).
  - etrans; [apply (update_apart s sg')|]. by eapply sealed_apart.
  - unfold potential. simpl. rewrite Hlv. simpl. lia.
  - done.
Qed.

(** Adding the rest after a first batch. *)
Lemma add_step_trans s s1 s2 b n ids vectors :
  addable s n ids vectors → b ≤ n → add_step s b ids vectors s1 →
  add_step s1 (n - b) (drop b ids) (drop (b * d_ (st_idx s)) vectors) s2 →
  add_step s n ids vectors s2.
Proof.
  intros Had Hb [Hinv1 Hcont1 Hap1 Hpot1 Hlog1] [Hinv2 Hcont2 Hap2 Hpot2 Hlog2].
  split; [done| |by etrans|lia|congruence].
  rewrite Hcont2, Hcont1, <-app_assoc. destruct Hap1 as [(-> & _) _ _ _ _].
  rewrite <-batch_of_split; [done|lia|apply Had].
Qed.

Lemma add_loop_spec fuel n ids vectors ins s :
  n < fuel → idx_inv V low s → addable s n ids vectors →
  ∃ new s', runs (add_loop fuel n ids vectors ins) s (ins ++ new) s' ∧
    add_step s n ids vectors s' ∧ filled new s s'.
Proof.
  revert n ids vectors ins s. induction fuel as [|fuel IH]; intros n ids vectors ins s Hfuel Hinv Had;
    [lia|]. cbn [add_loop].
  destruct (decide (n = 0)) as [->|Hn].
  { exists [], s. rewrite app_nil_r. split_and!; [apply runs_ret| |apply filled_refl].
    split; try done; [by rewrite app_nil_r|lia]. }
  destruct (fill_last s n ids vectors Hinv Had ltac:(lia)) as
    (sg & b & sg' & Hlast & Hb & Hbn & Hadd & Hg & Hid & He & Hcnt).
  pose proof (addable_keys s n ids vectors b Had ltac:(lia)) as Hk.
  pose proof (i_thr _ _ _ Hinv) as Hthr. pose proof (full_iff s sg' Hthr Hcnt) as Hfull.
  assert (∀ s1 new1, add_step s b ids vectors s1 → filled new1 s s1 → ∃ new s',
    runs (add_loop fuel (n - b) (drop b ids) (drop (b * d_ (st_idx s)) vectors) (ins ++ new1)) s1
      (ins ++ new) s' ∧
    add_step s n ids vectors s' ∧ filled new s s') as Hnext.
  { intros s1 new1 H1 Hf1.
    destruct (IH (n - b) (drop b ids) (drop (b * d_ (st_idx s)) vectors) (ins ++ new1) s1) as
      (new & s' & Hr & H2 & Hf'); [lia|apply H1|eapply addable_rest; [done|lia|apply H1..]|].
    exists (new1 ++ new), s'. rewrite app_assoc.
    split_and!; [done|eapply (add_step_trans s s1 s' b); [done|lia|done..]|by eapply filled_trans]. }
  assert (core V (update_last s sg')) as Hcore by (eapply update_core; [apply Hinv|done..]).
  assert (filled [] s (update_last s sg')) as Hfill.
  { eapply update_filled; [apply Hinv|done..|]. intros e.
    rewrite (update_content V s sg sg' _ (i_core _ _ _ Hinv) Hlast He). set_solver. }
  destruct (decide (seg_count sg' = segmentThreshold_ (st_idx s))) as [Hseal|Hroom].
  - assert (heap (st_proc (update_last s sg')) !! last_ (st_idx s) = Some sg') as Hl'
      by (simpl; by rewrite lookup_insert_eq).
    destruct (storage_add_spec (update_last s sg') (last_ (st_idx s)) sg' Hl') as
      (lvl & lv & row & Hst & Hlv & _).
    { rewrite bool_decide_true in Hfull by done. apply Z.eqb_eq in Hfull. lia. }
    destruct (Hnext (sealed (update_last s sg') sg' lv) [last_ (st_idx s)]) as (new & s' & Hr & Hs).
    { eapply sealed_inv; try done; lia. }
    { apply (filled_trans [] [last_ (st_idx s)] _ _ _ Hfill).
      by apply (sealed_filled (update_last s sg')). }
    exists new, s'. split; [|done]. run. rewrite <-Hb, decide_False by lia.
    run. rewrite Hfull, bool_decide_true by done. by eapply (sealed_runs (update_last s sg')).
  - destruct (Hnext (update_last s sg') []) as (new & s' & Hr & Hs); [|done|].
    { eapply update_inv; [done..|]. lia. }
    rewrite app_nil_r in Hr. exists new, s'. split; [|done]. run. rewrite <-Hb, decide_False by lia.
    run. by rewrite Hfull, bool_decide_false by done.
Qed.
End add_spec.

(** ** The whole of [add] *)

Section add_whole.
Context `{SL : StdLib} {T : Type} `{L : IBaseIndexLaws T}.
Context (V : list f32 → Prop) (low : Z).
Implicit Types s : st T.

Lemma stored_inv s s' :
  idx_inv V low s → stored V s s' →
  idx_inv V low s' ∧ content s' ≡ₚ content s ∧ apart s s' ∧ potential s' = potential s.
Proof.
  intros [Hc Hre Hthr Hdim (sg & Hlast & Hcnt)] [Hc' Hre' Hf Hlog _ _].
  pose proof (f_conf _ _ Hf) as (Hd & Ht & Hfac & Hem & Hcb & Hla).
  split_and!; [| | |apply (f_potential _ _ Hf)].
  - split; [done..|by rewrite Ht|unfold idx_shape; by rewrite Hd, Hfac|].
    exists sg. rewrite Ht, Hla. split; [|done]. rewrite (f_heap _ _ Hf); [done|].
    by eapply last_not_level.
  - apply (f_content _ _ Hf).
  - split; [by split_and!| | | |apply (f_draws _ _ Hf)].
    + intros l _ Hl _. apply (f_heap _ _ Hf). intros Hin. apply Hl, elem_of_app. by left.
    + intros l _ [[?|?]%elem_of_app|[?|?]%(f_segments _ _ Hf)]; auto.
      * left. apply elem_of_app. left. by apply (f_locs _ _ Hf).
      * left. apply elem_of_app. right. by rewrite <-Hla.
      * left. apply elem_of_app. by left.
    + by rewrite (f_fresh _ _ Hf).
Qed.

(** [if (!inserted.empty() && callback_) ...] after the loop. *)
Lemma filled_emits s s1 new :
  core V s1 → filled V new s s1 → st_log s1 = st_log s →
  emits s (with_log (st_log s ++ (if decide (new = []) then [] else [Event [] new])) s1).
Proof.
  intros Hc [E O C N W _ _] Hlog. split; [done..|]. eexists. split_and!; [done|..].
  - destruct (decide (new = [])) as [->|]; [done|]. simpl. by rewrite app_nil_r.
  - intros _. case_decide; constructor; [|done]. split; simpl; [done| |set_solver..].
    intros l [Hl _]%W. destruct (c_good _ _ Hc l) as (sg & -> & _); [|by eauto].
    left. apply elem_of_app. by left.
  - case_decide; constructor; [|done]. split; [by intros k ?%elem_of_nil|].
    intros l [Hl _]%W. apply O, elem_of_app. by left.
Qed.

Lemma report_runs s new :
  ∃ lg, runs (if decide (new = []) then mret () else notify [] new) s () (with_log lg s) ∧
    (callback_ (st_idx s) = true →
      lg = st_log s ++ (if decide (new = []) then [] else [Event [] new])).
Proof.
  destruct (decide (new = [])) as [->|Hne].
  - exists (st_log s). split; [|by rewrite app_nil_r]. unfold with_log. by destruct s.
  - eexists. split; [apply notify_runs|]. by intros ->.
Qed.

(** [add] returns, and the index then holds the batch too. *)
Lemma add_spec s n ids vectors :
  (0 ≤ low ≤ 2 ^ 62)%Z → idx_inv V low s → addable V s n ids vectors →
  ∃ s', runs (add n ids vectors) s () s' ∧ idx_inv V low s' ∧
    content s' ≡ₚ content s ++ batch_of (d_ (st_idx s)) n ids vectors ∧ apart s s' ∧
    potential s' ≤ potential s + 2 * n ∧ (callback_ (st_idx s) = true → emits s s') ∧ rewrites V s s'.
Proof.
  intros Hlow Hinv Had.
  destruct (add_loop_spec V low Hlow (S n) n ids vectors [] s) as
    (new & s1 & Hr1 & [Hinv1 Hcont1 Hap1 Hpot1 Hlog1] & Hf1); [lia|done..|].
  destruct (report_runs s1 new) as (lg & Hr2 & Hlg).
  assert (idx_inv V low (with_log lg s1)) as Hinv2.
  { destruct Hinv1. split; auto using core_with_log, reaches_with_log. }
  assert (apart s (with_log lg s1)) as Hap2 by (etrans; [exact Hap1|]; by split).
  assert (rewrites V s (with_log lg s1)) as Hrw2
    by (etrans; [apply (fl_rewrites _ _ _ _ Hf1)|]; by apply rewrites_none).
  assert (callback_ (st_idx s1) = callback_ (st_idx s)) as Hcb by apply (a_conf _ _ Hap1).
  assert (callback_ (st_idx s) = true → emits s (with_log lg s1)) as Hem2.
  { intros Htrue. rewrite Hlg, Hlog1 by congruence. eapply filled_emits; [apply Hinv1|done..]. }
  assert (∀ s3, runs (em ← idx (λ i, merge_predicate i (segmentThreshold_ i)); if em : bool then merge 200 else mret ())
    (with_log lg s1) () s3 → runs (add n ids vectors) s () s3) as Hrun.
  { intros s3 Hr3. unfold add. pose proof (i_thr _ _ _ Hinv) as Hthr.
    run_one. cbv beta.
    rewrite decide_False by (intros Hz; rewrite Hz in Hthr; lia).
    do 2 run_one. exact Hr3. }
  destruct (enable_merge_ (st_idx s1)) eqn:Hem.
  - destruct (merge_spec V 200 (with_log lg s1)) as (s3 & Hr3 & Hst); [apply Hinv2..|done|].
    destruct (stored_inv _ _ Hinv2 Hst) as (Hinv3 & Hcont3 & Hap3 & Hpot3).
    exists s3. split_and!; [|done|by rewrite Hcont3|by etrans|by rewrite Hpot3| |].
    + apply Hrun. run. unfold merge_predicate. simpl. by rewrite Hem.
    + intros Htrue. etrans; [by apply Hem2|]. apply (sd_emits _ _ _ Hst). simpl. congruence.
    + etrans; [exact Hrw2|apply (sd_rewrites _ _ _ Hst)].
  - exists (with_log lg s1). split_and!; [|done..]. apply Hrun. run. unfold merge_predicate. simpl.
    by rewrite Hem.
Qed.
End add_whole.

(** ** [erase] *)

Section erase_spec.
Context `{SL : StdLib} {T : Type} `{L : IBaseIndexLaws T}.
Context (V : list f32 → Prop) (n : nat) (ids : list string) (Hids : n ≤ length ids).
Implicit Types s : st T.

(** What is left of some entries. *)
Definition spare (es : list (string * list f32)) : list (string * list f32) :=
  filter (λ e, e.1 ∉ take n ids) es.

Lemma spare_idemp es : spare (spare es) = spare es.
Proof.
  unfold spare. rewrite list_filter_filter. apply list_filter_iff. naive_solver.
Qed.
Lemma spare_app es es' : spare (es ++ es') = spare es ++ spare es'.
Proof. apply filter_app. Qed.

Lemma deleteBatch_spec sh sg :
  seg_good V sh sg →
  ∃ sg', deleteBatch sg n ids = Ok sg' ∧ seg_good V sh sg' ∧ seg_id sg' = seg_id sg ∧
    seg_entries sg' = spare (seg_entries sg) ∧
    (seg_count sg - Z.of_nat n ≤ seg_count sg' ≤ seg_count sg)%Z.
Proof.
  intros (Wf & Ti & Sh & Ty & Rv).
  destruct (ib_erase_spec (seg_index sg) n ids Wf Hids) as (t & Ht & Wt & St & _ & Ct & Et).
  destruct (Et Ti) as [Tt Et']. exists (with_index sg t). unfold deleteBatch. rewrite Ht.
  split_and!; try done; [|apply Ct..]. split_and!; [done|done|by etrans|done|].
  simpl. rewrite (ib_rows_erase _ _ _ _ Ht). exact Rv.
Qed.

Definition erase_one (l : loc) : M (st T) () :=
  sg ← deref l; sg ← liftO (deleteBatch sg n ids); assign l sg.

(** Erasing from the segments [ls] of a heap. *)
Record spared (sh : shape) (ls : list loc) s s' : Prop := {
  sp_idx : st_idx s' = st_idx s;
  sp_log : st_log s' = st_log s;
  sp_fresh : fresh (st_proc s') = fresh (st_proc s);
  sp_draws : draws (st_proc s') = draws (st_proc s);
  sp_in l sg : l ∈ ls → heap (st_proc s) !! l = Some sg →
    ∃ sg', heap (st_proc s') !! l = Some sg' ∧ seg_good V sh sg' ∧ seg_id sg' = seg_id sg ∧
      seg_entries sg' = spare (seg_entries sg);
  sp_out l : l ∉ ls → heap (st_proc s') !! l = heap (st_proc s) !! l;
}.

Lemma spared_trans sh ls ls' s1 s2 s3 :
  spared sh ls s1 s2 → spared sh ls' s2 s3 → spared sh (ls ++ ls') s1 s3.
Proof.
  intros [I1 G1 F1 D1 H1 O1] [I2 G2 F2 D2 H2 O2]. split; [congruence..| |].
  - intros l sg Hl Hsg. destruct (decide (l ∈ ls)) as [Hin|Hin].
    + destruct (H1 l sg Hin Hsg) as (sg1 & Hsg1 & Hg1 & Hid1 & He1).
      destruct (decide (l ∈ ls')) as [Hin'|Hin'].
      * destruct (H2 l sg1 Hin' Hsg1) as (sg2 & Hsg2 & Hg2 & Hid2 & He2).
        exists sg2. split_and!; [done..|congruence|]. by rewrite He2, He1, spare_idemp.
      * exists sg1. by rewrite O2.
    + apply elem_of_app in Hl as [?|Hl]; [done|]. rewrite <-O1 in Hsg by done.
      by apply H2.
  - intros l Hl. rewrite elem_of_app in Hl. rewrite O2, O1; auto.
Qed.

Lemma erase_one_spec sh l s sg :
  heap (st_proc s) !! l = Some sg → seg_good V sh sg →
  ∃ sg', runs (erase_one l) s () (on_proc (store_seg l sg') s) ∧
    spared sh [l] s (on_proc (store_seg l sg') s) ∧
    (seg_count sg - Z.of_nat n ≤ seg_count sg' ≤ seg_count sg)%Z.
Proof.
  intros Hsg Hg. destruct (deleteBatch_spec sh sg Hg) as (sg' & Hd & Hg' & Hid & He & Hc).
  exists sg'. split_and!; [unfold erase_one; run; apply runs_modify| |lia..].
  split; try done.
  - intros l' sg1 ->%list_elem_of_singleton Hsg1. simplify_eq. exists sg'. simpl.
    by rewrite lookup_insert_eq.
  - intros l' Hl'. simpl. rewrite lookup_insert_ne; [done|]. set_solver.
Qed.

Lemma erase_segments_spec sh ls s :
  (∀ l, l ∈ ls → ∃ sg, heap (st_proc s) !! l = Some sg ∧ seg_good V sh sg) →
  ∃ s', runs (forM ls erase_one) s () s' ∧ spared sh ls s s'.
Proof.
  revert s. induction ls as [|l ls IH]; intros s Hls.
  { exists s. split; [apply runs_ret|]. split; try done; set_solver. }
  destruct (Hls l) as (sg & Hsg & Hg); [by left|].
  destruct (erase_one_spec sh l s sg Hsg Hg) as (sg' & Hr1 & Hs1 & _).
  destruct (IH (on_proc (store_seg l sg') s)) as (s2 & Hr2 & Hs2).
  { intros l' Hl'. destruct (decide (l' = l)) as [->|Hne].
    - destruct (sp_in _ _ _ _ Hs1 l sg) as (sg1 & ? & ? & _); [by left|done|]. eauto.
    - rewrite (sp_out _ _ _ _ Hs1) by set_solver. apply Hls. by right. }
  exists s2. split; [simpl; by eapply runs_bind|].
  apply (spared_trans sh [l] ls s _ s2 Hs1 Hs2).
Qed.

Section erased.
Context s s' (Hc : core V s).
Let ls := segments_ (st_idx s) ++ [last_ (st_idx s)].
Context (Hsp : spared (idx_shape (st_idx s)) ls s s').

Lemma target_good l :
  l ∈ ls → ∃ sg, heap (st_proc s) !! l = Some sg ∧ seg_good V (idx_shape (st_idx s)) sg.
Proof.
  intros [?|Hl]%elem_of_app; apply (c_good _ _ Hc); [by right|left].
  apply elem_of_app. by right.
Qed.

Lemma spared_entries l :
  entries_at (heap (st_proc s')) l =
  if decide (l ∈ ls) then spare (entries_at (heap (st_proc s)) l)
  else entries_at (heap (st_proc s)) l.
Proof.
  case_decide as Hl.
  - destruct (target_good l Hl) as (sg & Hsg & _).
    destruct (sp_in _ _ _ _ Hsp l sg Hl Hsg) as (sg' & Hsg' & _ & _ & He).
    by rewrite (entries_at_Some _ _ _ Hsg), (entries_at_Some _ _ _ Hsg').
  - unfold entries_at. by rewrite (sp_out _ _ _ _ Hsp) by done.
Qed.

Lemma spared_elem e :
  e ∈ spare (content s) → e ∈ content s'.
Proof.
  unfold spare. intros [He (l & Hl & Hin)%elem_of_contents]%list_elem_of_filter.
  apply elem_of_contents. exists l. rewrite (sp_idx _ _ _ _ Hsp), spared_entries.
  split; [done|]. case_decide; [|done]. by apply list_elem_of_filter.
Qed.

Lemma spared_content_sub : content s' `sublist_of` content s.
Proof.
  unfold content. rewrite (sp_idx _ _ _ _ Hsp). generalize (owned (st_idx s)). intros os.
  induction os as [|l os IH]; [done|]. rewrite !contents_cons. apply sublist_app; [|done].
  rewrite spared_entries. case_decide; [|done]. apply sublist_filter.
Qed.

(** Every segment of the index is within reach of [erase] when no id was
    drawn twice. *)
Lemma spared_content : reach [] s → content s' = spare (content s).
Proof.
  intros Hr. unfold content. rewrite (sp_idx _ _ _ _ Hsp).
  assert (∀ l, l ∈ owned (st_idx s) → l ∈ ls) as Hown.
  { intros l [Hl|Hl]%elem_of_app; apply elem_of_app; [left|by right].
    by apply (re_sub _ _ Hr). }
  revert Hown. generalize (owned (st_idx s)). intros os Hos.
  induction os as [|l os IH]; [done|]. rewrite !contents_cons, spare_app.
  rewrite spared_entries, decide_True by (apply Hos; by left).
  f_equal. apply IH. intros. apply Hos. by right.
Qed.

Lemma spared_core : core V s'.
Proof.
  pose proof (sp_idx _ _ _ _ Hsp) as Hi. split.
  - intros l Hl. rewrite (sp_fresh _ _ _ _ Hsp). apply (c_alloc _ _ Hc).
    destruct (decide (l ∈ ls)) as [Hin|Hin]; [destruct (target_good l Hin) as (? & -> & _); eauto|].
    by rewrite <-(sp_out _ _ _ _ Hsp).
  - intros l Hl. rewrite Hi in *. destruct (c_good _ _ Hc l Hl) as (sg & Hsg & Hg).
    destruct (decide (l ∈ ls)) as [Hin|Hin]; [|rewrite (sp_out _ _ _ _ Hsp) by done; by eauto].
    destruct (sp_in _ _ _ _ Hsp l sg Hin Hsg) as (sg' & ? & ? & _). eauto.
  - rewrite Hi. apply (c_nodup _ _ Hc).
  - rewrite Hi. apply (c_last _ _ Hc).
  - eapply sublist_NoDup; [apply (c_keys _ _ Hc)|]. apply fmap_sublist, spared_content_sub.
  - intros l e Hl. rewrite Hi in Hl. assert (l ∈ ls) by (apply elem_of_app; by left).
    rewrite spared_entries, decide_True by done. intros [He Hin]%list_elem_of_filter.
    apply spared_elem, list_elem_of_filter. split; [done|]. by apply (c_stale _ _ Hc l).
  - rewrite Hi. apply (c_counter _ _ Hc).
Qed.

Lemma spared_reaches : reaches [] s → reaches [] s'.
Proof.
  pose proof (sp_idx _ _ _ _ Hsp) as Hi. pose proof (sp_draws _ _ _ _ Hsp) as Hd.
  intros Hre Hdd. unfold draws_distinct, rand_distinct in Hdd. rewrite Hd in Hdd.
  destruct (Hre Hdd) as [Hsub Hdrawn Hinj _ _].
  assert (∀ l sg1, l ∈ owned (st_idx s) → heap (st_proc s') !! l = Some sg1 →
    ∃ sg0, heap (st_proc s) !! l = Some sg0 ∧ seg_id sg1 = seg_id sg0) as Hold.
  { intros l sg1 Hl Hsg1. destruct (c_good _ _ Hc l (or_introl Hl)) as (sg0 & Hsg0 & _).
    exists sg0. split; [done|]. destruct (decide (l ∈ ls)) as [Hin|Hin].
    - destruct (sp_in _ _ _ _ Hsp l sg0 Hin Hsg0) as (? & ? & _ & ? & _). naive_solver.
    - rewrite (sp_out _ _ _ _ Hsp) in Hsg1 by done. naive_solver. }
  split; rewrite ?Hi, ?Hd; [done| | |set_solver..].
  - intros l sg1 Hl Hsg1. destruct (Hold l sg1 Hl Hsg1) as (sg0 & Hsg0 & ->). by apply (Hdrawn l).
  - intros l l' sg1 sg2 Hl Hl' Hsg1 Hsg2. destruct (Hold l sg1 Hl Hsg1) as (sg3 & Hsg3 & ->).
    destruct (Hold l' sg2 Hl' Hsg2) as (sg4 & Hsg4 & ->). by eapply Hinj.
Qed.

Lemma spared_apart : apart s s'.
Proof.
  split; [by rewrite (sp_idx _ _ _ _ Hsp)| |by rewrite (sp_idx _ _ _ _ Hsp)|
    by rewrite (sp_fresh _ _ _ _ Hsp)|by rewrite (sp_draws _ _ _ _ Hsp)].
  intros l _ Ho Hs. apply (sp_out _ _ _ _ Hsp). intros [?|Hl]%elem_of_app; [done|].
  apply Ho, elem_of_app. by right.
Qed.
End erased.

Lemma runs_forM_app {A} (f : A → M (st T) ()) l l' s1 s2 s3 :
  runs (forM l f) s1 () s2 → runs (forM l' f) s2 () s3 → runs (forM (l ++ l') f) s1 () s3.
Proof.
  revert s1. induction l as [|a l IH]; intros s1 H1 H2; simpl in *.
  - by destruct (runs_det _ _ _ _ _ _ H1 (runs_ret () s1)) as [_ ->].
  - apply runs_bind_inv in H1 as ([] & s & Ha & H1). run_one. by apply IH.
Qed.

(** [erase] returns, and the index then holds the other entries. *)
Lemma erase_spec low s :
  idx_inv V low s →
  ∃ s', runs (erase n ids) s () s' ∧ idx_inv V (low + Z.of_nat n) s' ∧
    (draws_distinct s → content s' = spare (content s)) ∧
    potential s' = potential s ∧ apart s s' ∧ st_log s' = st_log s.
Proof.
  intros [Hc Hre Hthr Hdim (sg & Hlast & Hcnt)].
  destruct (erase_segments_spec (idx_shape (st_idx s)) (segments_ (st_idx s)) s) as (s1 & Hr1 & Hs1).
  { intros l Hl. apply (c_good _ _ Hc). by right. }
  assert (heap (st_proc s1) !! last_ (st_idx s) = Some sg) as Hlast1.
  { rewrite (sp_out _ _ _ _ Hs1); [done|]. apply (c_last _ _ Hc). }
  destruct (erase_one_spec (idx_shape (st_idx s)) (last_ (st_idx s)) s1 sg Hlast1) as
    (sg' & Hr2 & Hs2 & Hcnt').
  { destruct (c_good _ _ Hc (last_ (st_idx s))) as (? & ? & ?); [|by simplify_eq].
    left. apply elem_of_app. right. by left. }
  pose proof (spared_trans _ _ _ _ _ _ Hs1 Hs2) as Hsp.
  eexists. split_and!.
  - unfold erase. run. eapply (runs_forM_app erase_one); [exact Hr1|].
    simpl. run_one. apply runs_ret.
  - pose proof (sp_idx _ _ _ _ Hsp) as Hi.
    split; [by eapply spared_core|by eapply spared_reaches|by rewrite Hi..|].
    exists sg'. rewrite Hi. simpl. rewrite lookup_insert_eq. split; [done|]. lia.
  - intros Hd. eapply spared_content; [done..|]. by apply Hre.
  - unfold potential. by rewrite (sp_draws _ _ _ _ Hsp), (sp_idx _ _ _ _ Hsp).
  - by eapply spared_apart.
  - apply (sp_log _ _ _ _ Hsp).
Qed.
End erase_spec.

(** ** [search] *)

Section search_spec.
Context `{SL : StdLib} {T : Type} `{L : IBaseIndexLaws T}.
Context (V : list f32 → Prop) (sh : shape) (q : list f32) (k : nat).
Context (Hk : 0 < k) (Hq : sh_dim sh ≤ length q) (Hexact : sh_exact sh = true).
Implicit Types s : st T.
Implicit Types e : string * list f32.

(** The distance of an entry from the query, and the result it gives. *)
Definition entry_dist e : f32 := ib_metric_dist (sh_metric sh) q e.2.
Definition result_of e : SearchResult := SR (entry_dist e) e.1.

Context (Hnan : ∀ v, V v → not_nan (ib_metric_dist (sh_metric sh) q v)).

Lemma searchQuery_good sg :
  seg_good V sh sg →
  ∃ es m, is_topk entry_dist k (seg_entries sg) es ∧
    searchQuery sg q (Z.of_nat k) = Ok m ∧
    ∀ x, x ∈ ((λ p, SR p.2 p.1) <$> std_iter m) ↔ ∃ e, e ∈ es ∧ x = result_of e.
Proof.
  intros (Wf & Ti & Sh & Ty & Rv).
  destruct (searchQuery_exact sg q k Wf Ti) as (es & Htop & m & Hm & Hes).
  { by rewrite Sh. }
  { unfold ib_askable. unfold seg_shape in Sh. rewrite Sh. split_and!; auto. }
  exists es, m. unfold seg_dist in *. rewrite Sh in *. split_and!; [done..|].
  intros x. rewrite list_elem_of_fmap. split.
  - intros ([i d] & -> & (v & Hv & ->)%elem_of_std_iter%Hes). by exists (i, v).
  - intros ([i v] & Hv & ->). exists (i, entry_dist (i, v)). split; [done|].
    apply elem_of_std_iter, Hes. eauto.
Qed.

(** The segments are asked one after the other; the accumulator is what
    trimming makes of all they answered. *)
Lemma search_segments_spec s ls :
  (∀ l, l ∈ ls → ∃ sg, heap (st_proc s) !! l = Some sg ∧ seg_good V sh sg) →
  ∃ Rs hits, Forall2 (is_topk entry_dist k) (entries_at (heap (st_proc s)) <$> ls) Rs ∧
    (∀ x, x ∈ hits ↔ ∃ r e, r ∈ Rs ∧ e ∈ r ∧ x = result_of e) ∧
    ∀ acc, runs (search_segments q (Z.of_nat k) ls acc) s (foldl (trim sr_lt k) acc hits) s.
Proof.
  induction ls as [|l ls IH]; intros Hls.
  { exists [], []. split_and!; [done|set_solver|intros; apply runs_ret]. }
  destruct (Hls l) as (sg & Hsg & Hg); [by left|].
  destruct (searchQuery_good sg Hg) as (es & m & Htop & Hm & Hes).
  destruct IH as (Rs & hits & HRs & Hhits & Hrun); [intros; apply Hls; by right|].
  exists (es :: Rs), (((λ p, SR p.2 p.1) <$> std_iter m) ++ hits). split_and!.
  - rewrite fmap_cons. constructor; [by rewrite (entries_at_Some _ _ _ Hsg)|done].
  - intros x. rewrite elem_of_app, Hes, Hhits. setoid_rewrite elem_of_cons. naive_solver.
  - intros acc. simpl. run. unfold absorb. rewrite Nat2Z.id, foldl_app.
    rewrite foldl_fmap. apply Hrun.
Qed.

Section answer.
Context (S : list (string * list f32)) (HS : NoDup S.*1).
Context (HSV : ∀ e, e ∈ S → not_nan (entry_dist e)).
Context (hits : list SearchResult) (C : list (string * list f32)).
Context (HC : NoDup C) (HCS : ∀ e, e ∈ C → e ∈ S).
Context (Hhits : ∀ x, x ∈ hits ↔ ∃ e, e ∈ C ∧ x = result_of e).

Lemma result_of_inj e e' : e ∈ S → e' ∈ S → result_of e = result_of e' → e = e'.
Proof. intros He He' [= _ Heq]. by apply (NoDup_fst_inj S). Qed.

(** What the results are: not NaN, and told apart by their id. *)
Definition answer (x : SearchResult) : Prop := ∃ e, e ∈ S ∧ x = result_of e.

Lemma answer_swo : swo_on sr_lt answer.
Proof.
  apply (swo_weaken _ _ _ sr_lt_swo). intros x (e & He & ->). by apply HSV.
Qed.
Lemma answer_total x y : answer x → answer y → sr_lt x y ∨ x = y ∨ sr_lt y x.
Proof.
  intros (e & He & ->) (e' & He' & ->). destruct (decide (e = e')) as [->|Hne]; [by right; left|].
  destruct (sr_lt_total (result_of e) (result_of e')); auto.
  - by apply HSV.
  - by apply HSV.
  - intros Heq. by apply Hne, (NoDup_fst_inj S).
Qed.

Lemma collected :
  ∃ C', C' ≡ₚ C ∧ foldl (flip (set_emplace sr_lt)) [] hits = result_of <$> C' ∧
    StronglySorted (λ e e', sr_lt (result_of e) (result_of e')) C'.
Proof.
  assert (Forall answer hits) as Hans.
  { apply Forall_forall. intros x (e & He & ->)%Hhits. exists e. auto. }
  destruct (foldl_emplace sr_lt answer answer_swo answer_total [] hits) as (HP & Hsort & Hel);
    [constructor|done|constructor|].
  set (F := foldl _ _ _) in *.
  assert (∃ C', F = result_of <$> C' ∧ Forall (λ e, e ∈ C) C') as (C' & HF & HCC).
  { assert (∀ x, x ∈ F → ∃ e, e ∈ C ∧ x = result_of e) as HFC.
    { intros x [?%elem_of_nil|?]%Hel; [done|]. by apply Hhits. }
    clear -HFC. induction F as [|x F IH]; [by exists []|].
    destruct IH as (C' & -> & HC'); [intros; apply HFC; by right|].
    destruct (HFC x) as (e & He & ->); [by left|]. exists (e :: C'). by split; [|constructor]. }
  exists C'. rewrite Forall_forall in HCC. split_and!; [|done|].
  - apply NoDup_Permutation; [|done|].
    + eapply NoDup_fmap_1. rewrite <-HF. eapply sorted_lt_NoDup; [apply answer_swo|done..].
    + intros e. split; [apply HCC|]. intros He.
      assert (result_of e ∈ F) as Hin by (apply Hel; right; apply Hhits; eauto).
      rewrite HF in Hin. apply list_elem_of_fmap in Hin as (e' & Heq & He').
      apply result_of_inj in Heq; subst; auto.
  - rewrite HF in Hsort. clear -Hsort. induction C' as [|e C' IH]; [constructor|].
    rewrite fmap_cons in Hsort. apply StronglySorted_cons in Hsort as [Hall Hs].
    constructor; [by apply IH|]. exact (proj1 (Forall_fmap _ _ _) Hall).
Qed.

(** Keeping the [k] smallest results selects the [k] nearest entries. *)
Lemma answer_topk :
  ∃ es, foldl (trim sr_lt k) [] hits = result_of <$> es ∧ is_topk entry_dist k C es ∧
    StronglySorted (λ e e', sr_lt (result_of e) (result_of e')) es.
Proof.
  destruct collected as (C' & Hp & HF & Hsort). exists (take k C').
  rewrite foldl_trim_nil, HF, fmap_take.
  rewrite <-(take_drop k C') in Hsort. apply StronglySorted_app in Hsort as (Hcross & Hs1 & _).
  split_and!; [done| |done].
  apply (topk_split _ _ _ _ (drop k C')); [done|by rewrite take_drop, Hp| |].
  - by rewrite length_take, Hp.
  - intros e e' He He'. apply (sr_lt_fle (result_of e) (result_of e')).
    + apply HSV, HCS. rewrite <-Hp. by apply (elem_of_sublist _ _ _ He), sublist_take.
    + apply HSV, HCS. rewrite <-Hp. by apply (elem_of_sublist _ _ _ He'), sublist_drop.
    + by apply Hcross.
Qed.
End answer.
End search_spec.

Section search_whole.
Context `{SL : StdLib} {T : Type} `{L : IBaseIndexLaws T}.
Context (V : list f32 → Prop).
Implicit Types s : st T.

(** The segments a search visits hold the index's entries and no others. *)
Lemma visited_content low s e :
  idx_inv V low s → draws_distinct s →
  e ∈ content s ↔
  ∃ es, es ∈ entries_at (heap (st_proc s)) <$> (segments_ (st_idx s) ++ [last_ (st_idx s)]) ∧ e ∈ es.
Proof.
  intros Hinv Hd. destruct Hinv as [Hc Hre _ _ _]. pose proof (Hre Hd) as Hr.
  setoid_rewrite list_elem_of_fmap. unfold content. rewrite elem_of_contents. split.
  - intros (l & Hl & He). eexists. split; [|done]. exists l. split; [done|].
    apply elem_of_app in Hl as [?|?]; apply elem_of_app; [left|by right].
    by apply (re_sub _ _ Hr).
  - intros (es & (l & -> & [Hl|Hl]%elem_of_app) & He).
    + by apply (c_stale _ _ Hc l) in He as ?%elem_of_contents.
    + exists l. split; [apply elem_of_app; by right|done].
Qed.

(** The segments a search visits. *)
Definition visited s : list loc := segments_ (st_idx s) ++ [last_ (st_idx s)].

(** Whatever the visited segments share, a search selects from the
    collection [S] of the entries they hold. *)
Lemma search_visited s (sh : shape) (S : list (string * list f32)) q k :
  (∀ l, l ∈ visited s → ∃ sg, heap (st_proc s) !! l = Some sg ∧ seg_good V sh sg) →
  NoDup S.*1 →
  (∀ e, e ∈ S ↔ ∃ es, es ∈ entries_at (heap (st_proc s)) <$> visited s ∧ e ∈ es) →
  0 < k → sh_dim sh ≤ length q → sh_exact sh = true →
  (∀ v, V v → not_nan (ib_metric_dist (sh_metric sh) q v)) →
  ∃ es, runs (search q (Z.of_nat k)) s es.*1 s ∧
    is_topk (entry_dist (T:=T) sh q) k S es ∧
    StronglySorted (λ e e', sr_lt (result_of (T:=T) sh q e) (result_of (T:=T) sh q e')) es.
Proof.
  intros Hgood Hkeys HS Hk Hq Hex Hnan.
  assert (∀ e, e ∈ S → not_nan (entry_dist (T:=T) sh q e)) as HSV.
  { intros e (es & (l & -> & Hl)%list_elem_of_fmap & He)%HS. apply Hnan.
    destruct (Hgood l Hl) as (sg & Hsg & Wf & _ & _ & _ & Rv).
    rewrite (entries_at_Some _ _ _ Hsg) in He. by apply Rv, ib_rows_entries. }
  destruct (search_segments_spec V sh q k Hk Hq Hex Hnan s (segments_ (st_idx s)))
    as (Rs1 & hits1 & HRs1 & Hh1 & Hr1); [intros; apply Hgood, elem_of_app; by left|].
  destruct (search_segments_spec V sh q k Hk Hq Hex Hnan s [last_ (st_idx s)])
    as (Rs2 & hits2 & HRs2 & Hh2 & Hr2); [intros; apply Hgood, elem_of_app; by right|].
  pose proof (Forall2_app HRs1 HRs2) as HRs. rewrite <-fmap_app in HRs.
  set (C := remove_dups (mjoin (Rs1 ++ Rs2))).
  assert (∀ e, e ∈ C ↔ ∃ r, r ∈ Rs1 ++ Rs2 ∧ e ∈ r) as HC.
  { intros e. unfold C. rewrite elem_of_remove_dups, list_elem_of_join. naive_solver. }
  pose proof (NoDup_fmap_1 _ _ Hkeys) as HSnd.
  assert (∀ e, e ∈ C → e ∈ S) as HCS.
  { intros e He. eapply topk_parts_sub; [exact HS|exact HC|exact HRs|exact He]. }
  destruct (answer_topk sh q k S Hkeys HSV (hits1 ++ hits2) C)
    as (es & Hfold & Htop & Hsort); [apply NoDup_remove_dups|done| |].
  { intros x. rewrite elem_of_app, Hh1, Hh2. setoid_rewrite HC. setoid_rewrite elem_of_app.
    naive_solver. }
  exists es. split_and!; [| |done].
  - unfold search. run. rewrite <-foldl_app, Hfold.
    replace es.*1 with (id <$> (result_of (T:=T) sh q <$> es)); [apply runs_ret|].
    by rewrite <-list_fmap_compose.
  - eapply topk_union; [done|apply NoDup_remove_dups|exact HS|exact HC|exact HSV|exact HRs|exact Htop].
Qed.

(** [search] returns the ids of the [k] nearest entries, nearest first. *)
Lemma search_spec low s q k :
  idx_inv V low s → draws_distinct s → 0 < k →
  let sh := idx_shape (T:=T) (st_idx s) in
  sh_dim sh ≤ length q → sh_exact sh = true →
  (∀ v, V v → not_nan (ib_metric_dist (sh_metric sh) q v)) →
  ∃ es, runs (search q (Z.of_nat k)) s es.*1 s ∧
    is_topk (entry_dist (T:=T) sh q) k (content s) es ∧
    StronglySorted (λ e e', sr_lt (result_of (T:=T) sh q e) (result_of (T:=T) sh q e')) es.
Proof.
  intros Hinv Hd Hk sh Hq Hex Hnan. pose proof (i_core _ _ _ Hinv) as Hc.
  apply search_visited; try done; [|apply (c_keys _ _ Hc)|].
  - intros l [?|Hl]%elem_of_app; apply (c_good _ _ Hc); [by right|left].
    apply elem_of_app. by right.
  - intros e. by apply (visited_content low).
Qed.

(** ** A new index *)

Lemma Index_spec dim thr em a (p : proc T) :
  (∀ l, is_Some (heap p !! l) → l < fresh p) → (0 < thr < 2 ^ 31)%Z → dim = args_dim a →
  let '(p', i) := Index dim thr em a p in
  idx_inv V 0 (St p' i []) ∧ content (St p' i []) = [].
Proof.
  intros Hp Hthr Hdim.
  destruct (ib_make_spec (T:=T) a) as (Wf & Ti & He & _ & Hz & Hd & _). simpl.
  assert (content (St (new_seg (Segment a (std_rand (draws p))) (count_draw p))
    (IndexState dim (u64 thr) a em false [] 0 0 [] (fresh p)) []) = []) as Hcont.
  { unfold content, contents. simpl. rewrite entries_at_insert. unfold seg_entries. simpl.
    by rewrite He. }
  split; [|done]. split.
  - split; [simpl..|simpl; set_solver|rewrite Hcont; constructor|simpl; set_solver|done].
    + intros l. rewrite lookup_insert. case_decide; [lia|]. intros ?%Hp. lia.
    + intros l [->%list_elem_of_singleton|?%elem_of_nil]; [|done].
      rewrite lookup_insert_eq. eexists. split; [done|]. split_and!; try done; [unfold idx_shape; by rewrite <-ib_type_kind|].
      simpl. rewrite ib_rows_make. set_solver.
    + apply NoDup_singleton.
  - intros Hdd. split; simpl; [set_solver| | |set_solver..].
    + intros l sg ->%list_elem_of_singleton. rewrite lookup_insert_eq. intros [= <-].
      exists (draws p). simpl. split; [lia|done].
    + by intros l l' sg sg' ->%list_elem_of_singleton ->%list_elem_of_singleton.
  - simpl. rewrite u64_small; unfold u64_modulus; lia.
  - unfold idx_shape. simpl. by rewrite Hd.
  - eexists. simpl. rewrite lookup_insert_eq. split; [done|]. unfold seg_count. simpl.
    rewrite Hz, u64_small; unfold u64_modulus; lia.
Qed.
End search_whole.
