(* ===== verification/Concurrency.v ===== *)
(** * An index used by several threads (index/include/Index.h)

    The calls of [Index] as sequences of steps, each step one access to the
    index or to one of its segments, under the guard the call takes on
    [segments_m_]. [interleaved_refines]: however the calls of any number of
    threads interleave, those that have returned did what they would have done
    one after the other in the order of their returns, so the index refines a
    map for concurrent callers too. *)

From S2P Require Import Prelude Cxx Floats Locks BinaryIO Faiss TopK IBaseIndex Segment IIndex Events Storage Index.
From S2P Require Import IndexSpec IndexRefinement.

(** ** The calls, step by step *)

Abbreviation icall T := (call (st T) (outcome (list string)) op).

Section steps.
Context `{SL : StdLib} {T : Type} `{B : IBaseIndex T}.

Fixpoint add_loop_steps (fuel n : nat) (ids : list string) (vectors : list f32)
    (inserted : list loc) : P (st T) (list loc) :=
  match fuel with
  | 0 => Done (Undef NoFuel)
  | S fuel =>
    if decide (n = 0) then mret inserted
    else
      l ← atomic (idx last_);
      sg ← atomic (deref l);
      thr ← atomic (idx segmentThreshold_);
      d ← atomic (idx d_);
      let batch := Z.to_nat (Z.min (Z.of_nat n) (u64_sub thr (seg_size sg))) in
      if decide (batch = 0) then Done (Throw (RuntimeError "Empty batch in adding"))
      else
        sg ← Done (addVectorBatch sg batch ids vectors);
        atomic (assign l sg);;
        let ids := drop batch ids in
        let vectors := drop (batch * d) vectors in
        let n := n - batch in
        if (seg_size sg =? thr)%Z then
          atomic (storage_add l);;
          atomic (modify (on_idx (λ x, set_segments x (segments_ x ++ [l]))));;
          l' ← atomic create;
          atomic (modify (on_idx (λ x, set_last x l')));;
          add_loop_steps fuel n ids vectors (inserted ++ [l])
        else add_loop_steps fuel n ids vectors inserted
  end.

Definition add_steps (n : nat) (ids : list string) (vectors : list f32) : P (st T) () :=
  thr ← atomic (idx segmentThreshold_);
  if decide (thr = 0%Z) then Done (Undef DivByZero)
  else
    inserted ← add_loop_steps (S n) n ids vectors [];
    (if decide (inserted = []) then mret () else atomic (notify [] inserted));;
    em ← atomic (idx (λ i, merge_predicate i (segmentThreshold_ i)));
    if em : bool then atomic (merge 200) else mret ().

Fixpoint search_segments_steps (query : list f32) (k : Z) (ls : list loc)
    (kth_stat : list SearchResult) : P (st T) (list SearchResult) :=
  match ls with
  | [] => mret kth_stat
  | l :: ls =>
    sg ← atomic (deref l);
    m ← Done (searchQuery sg query k);
    search_segments_steps query k ls (absorb (Z.to_nat k) kth_stat m)
  end.

Definition search_steps (query : list f32) (k : Z) : P (st T) (list string) :=
  ls ← atomic (idx segments_);
  kth_stat ← search_segments_steps query k ls [];
  l ← atomic (idx last_);
  kth_stat ← search_segments_steps query k [l] kth_stat;
  mret (id <$> kth_stat).

Definition erase_steps (n : nat) (ids : list string) : P (st T) () :=
  ls ← atomic (idx segments_);
  l ← atomic (idx last_);
  forP (ls ++ [l]) (λ l,
    sg ← atomic (deref l);
    sg ← Done (deleteBatch sg n ids);
    atomic (assign l sg)).

Lemma add_loop_steps_ok fuel n ids vectors inserted :
  implements (add_loop_steps fuel n ids vectors inserted) (add_loop fuel n ids vectors inserted).
Proof.
  revert n ids vectors inserted. induction fuel as [|fuel IH]; intros n ids vectors inserted;
    cbn [add_loop_steps add_loop]; [done|]. follow.
Qed.
Hint Resolve add_loop_steps_ok : implements.
Lemma add_steps_ok n ids vectors : implements (add_steps n ids vectors) (add n ids vectors).
Proof. unfold add_steps, add. follow. Qed.

Lemma search_segments_steps_ok q k ls kth :
  implements (search_segments_steps q k ls kth) (search_segments q k ls kth).
Proof. revert kth. induction ls as [|l ls IH]; intros kth;
  cbn [search_segments_steps search_segments]; [done|]. follow. Qed.
Hint Resolve search_segments_steps_ok : implements.
Lemma search_steps_ok q k : implements (search_steps q k) (search q k).
Proof. unfold search_steps, search. follow. Qed.

Lemma erase_steps_ok n ids : implements (erase_steps n ids) (erase n ids).
Proof. unfold erase_steps, erase. follow. Qed.

(** A search writes nothing, at any of its steps. *)
Lemma search_segments_readonly q k ls kth : readonly (search_segments_steps q k ls kth).
Proof.
  revert kth. induction ls as [|l ls IH]; intros kth; cbn [search_segments_steps]; [done|].
  apply readonly_bind; [|intros sg; apply readonly_bind; [done|intros m; apply IH]].
  apply readonly_atomic. intros s. unfold deref. by case_match.
Qed.
Lemma search_readonly q k : readonly (search_steps q k).
Proof.
  apply readonly_bind; [by apply readonly_atomic|]. intros ls.
  apply readonly_bind; [apply search_segments_readonly|]. intros kth.
  apply readonly_bind; [by apply readonly_atomic|]. intros l.
  apply readonly_bind; [apply search_segments_readonly|]. by intros kth'.
Qed.

(** ** Calls under their guards *)

(** [std::lock_guard lock(segments_m_)], [std::shared_lock lock(segments_m_)];
    [setUpdateCallback] takes no lock. *)
Definition op_guard (o : op) : option guard :=
  match o with
  | OpAdd _ _ _ | OpErase _ _ => Some lock_guard
  | OpSearch _ _ => Some shared_lock
  | OpCallback => None
  end.

Definition op_steps (o : op) : P (st T) (list string) :=
  match o with
  | OpAdd n ids vectors => add_steps n ids vectors;; mret []
  | OpErase n ids => erase_steps n ids;; mret []
  | OpSearch q k => search_steps q (Z.of_nat k)
  | OpCallback => Done (Undef NotLocked)
  end.

(** A thread calls [c_op c]: it takes that call's guard, and what it does when
    it is alone is [exec (c_op c)], whatever its steps are; a search writes at
    none of them. *)
Record index_call (c : icall T) : Prop := {
  ic_guard : op_guard (c_op c) = Some (c_guard c);
  ic_body : implements (c_body c) (exec (c_op c));
  ic_reads : call_ok c;
}.

Definition op_call (o : op) : icall T := Call o (default lock_guard (op_guard o)) (op_steps o).

Lemma op_call_ok o : is_Some (op_guard o) → index_call (op_call o).
Proof.
  destruct o as [n ids vectors|n ids|q k|]; intros Hg; [..|by destruct Hg]; (split; [done| |]).
  - apply (implements_bind (add_steps n ids vectors)); [apply add_steps_ok|done].
  - done.
  - apply (implements_bind (erase_steps n ids)); [apply erase_steps_ok|done].
  - done.
  - apply search_steps_ok.
  - intros _. apply search_readonly.
Qed.
End steps.

(** ** Concurrent runs refine the map *)

(** Threads that call an index. *)
Abbreviation iconf T := (conf (st T) (outcome (list string)) op).

Section refinement.
Context `{SL : StdLib} {T : Type} `{L : IBaseIndexLaws T}.
Implicit Types x : iconf T.

Definition istep : iconf T → iconf T → Prop := step index_call.

(** What has been called and has returned, in that order, and with what. *)
Definition calls_of x : list op := (λ e, c_op e.1.2) <$> log x.
Definition results_of x : list (outcome (list string)) := (log x).*2.

(** Calls one after the other whose sequence returns are that sequence. *)
Lemma serial_exec_all (l : list (nat * icall T * outcome (list string))) (s s' s2 : st T) rs :
  serial s l s' → Forall (λ e, index_call e.1.2) l →
  runs (exec_all ((λ e, c_op e.1.2) <$> l)) s rs s2 → l.*2 = Ok <$> rs ∧ s2 = s'.
Proof.
  intros Hs Hl. revert s rs Hs. induction Hl as [|[[t c] r] l [_ Hc _] _ IH]; intros s rs.
  { intros ->. unfold runs. simpl. by intros [= -> <-]. }
  simpl in Hc |- *. intros (s1 & Hr & Hs). rewrite Hc in Hr.
  intros (a & s1' & H1 & (as_ & s2' & H2 & H3)%runs_bind_inv)%runs_bind_inv.
  unfold runs in H1. rewrite Hr in H1. injection H1 as -> ->. injection H3 as <- <-.
  destruct (IH s1' as_ Hs H2) as [Hl' ->]. split; [|done]. csimpl. by rewrite <-Hl'.
Qed.

Lemma interleaved_refines (V : list f32 → Prop) (sh : shape) (Hexact : sh_exact sh = true)
    (D : nat) (Hrand : NoDup (std_rand <$> seq 0 D)) low s abs x :
  rtc istep (started s) x →
  (0 ≤ low)%Z → (low + Z.of_nat (sum_list (op_erased <$> calls_of x)) ≤ 2 ^ 62)%Z →
  represents V sh low s abs → legal_all (T:=T) V sh abs (calls_of x) →
  potential s + 2 * sum_list (op_added <$> calls_of x) ≤ D →
  ∃ rs abs', results_of x = Ok <$> rs ∧ spec_run (T:=T) sh abs (calls_of x) rs abs' ∧
    (inside x = ∅ → abs' = list_to_map (content (mem x))).
Proof.
  intros Hx H0 Hlow Hrep Hleg HD.
  destruct (concurrent_serial index_call ic_reads s x Hx) as (s1 & Hs & Hmem & _).
  destruct (exec_all_sim V sh Hexact D Hrand (calls_of x) low s abs H0 Hlow Hrep Hleg HD)
    as (rs & s' & abs' & Hr & Hsp & (_ & _ & Habs)).
  destruct (serial_exec_all _ _ _ _ _ Hs (proj1 (log_allowed _ _ _ Hx)) Hr) as [Hl ->].
  exists rs, abs'. split_and!; [done..|]. intros He. by rewrite Hmem.
Qed.
End refinement.
