(* ===== verification/IndexFactory.v ===== *)
(** * Making indexes and storing segments (index/baselines/IndexFactory.h)

    [CreateIndex] builds an index from a configuration document;
    [SerializeSegment] and [DeserealizeSegment] are the format in which a
    writer hands segments to searchers. JSON is a library ([Json] lists the
    accessors used); the working directory is a map from names to files. *)

From S2P Require Import Prelude Cxx Floats BinaryIO StorageClient Faiss TopK IBaseIndex Segment IIndex Index.

(** ** Configuration documents *)

Class Json := {
  json : Type;
  (** [j[key]] of a constant document *)
  json_at : json → string → outcome json;
  (** [j.get<std::string>()], [j.get<int>()], [j.get<bool>()] *)
  json_string : json → outcome string;
  json_int : json → outcome Z;
  json_bool : json → outcome bool;
  (** [for (const auto& item : j)] *)
  json_items : json → list json;
}.

(** One implementation, to evaluate configurations with. *)
Inductive jval :=
  | JStr (s : string)
  | JInt (z : Z)
  | JBool (b : bool)
  | JArr (l : list jval)
  | JObj (l : list (string * jval)).

Fixpoint assoc (k : string) (l : list (string * jval)) : option jval :=
  match l with
  | [] => None
  | (k', v) :: l => if decide (k = k') then Some v else assoc k l
  end.

Definition json_ref : Json := {|
  json := jval;
  json_at j k := match j with
                 | JObj l => match assoc k l with Some v => Ok v | None => Undef AssertFailed end
                 | _ => Throw StdException
                 end;
  json_string j := match j with JStr s => Ok s | _ => Throw StdException end;
  json_int j := match j with JInt z => Ok z | _ => Throw StdException end;
  json_bool j := match j with JBool b => Ok b | _ => Throw StdException end;
  json_items j := match j with JArr l => l | JObj l => l.*2 | v => [v] end;
|}.

Definition faissFlat : string := "faissFlat".
Definition faissHNSWFlat : string := "faissHNSWFlat".
Definition faiss_metric_map : gmap string MetricType :=
  list_to_map [("L1", METRIC_L1); ("L2", METRIC_L2); ("Linf", METRIC_Linf)].

(** [faiss_metric_map.at(metric)] *)
Definition metric_at (metric : string) : outcome MetricType :=
  match faiss_metric_map !! metric with Some m => Ok m | None => Throw OutOfRange end.

Section create.
Context `{SL : StdLib} {J : Json} {T : Type} `{B : IBaseIndex T}.

Definition string_at (j : json) (k : string) : outcome string := v ← json_at j k; json_string v.
Definition int_at (j : json) (k : string) : outcome Z := v ← json_at j k; json_int v.
Definition bool_at (j : json) (k : string) : outcome bool := v ← json_at j k; json_bool v.

(** What a document asks for: dimension, threshold, merging, and the
    arguments of the segment factory. A negative dimension has no meaning
    to FAISS. *)
Record request := Request {
  rq_dim : nat;
  rq_threshold : Z;
  rq_merge : bool;
  rq_args : index_args;
}.

Definition parse_index (j : json) : outcome request :=
  type ← string_at j "type";
  lib ← string_at j "library";
  dim ← int_at j "dim";
  threshold ← int_at j "threshold";
  metric ← string_at j "metric";
  enable_merge ← bool_at j "enable_merge";
  if decide (lib = "faiss") then
    metric_type ← metric_at metric;
    if decide (type = faissFlat) then
      if (dim <? 0)%Z then Undef OutOfBounds
      else Ok (Request (Z.to_nat dim) threshold enable_merge
                 (FlatArgs (Z.to_nat dim) metric_type))
    else if decide (type = faissHNSWFlat) then
      M ← int_at j "M";
      if (dim <? 0)%Z then Undef OutOfBounds
      else Ok (Request (Z.to_nat dim) threshold enable_merge
                 (HNSWFlatArgs (Z.to_nat dim) M metric_type))
    else Throw (RuntimeError ("Doesn't support index type " +:+ type))
  else Throw (RuntimeError ("Doesn't support such library as " +:+ lib)).

Definition CreateIndex (j : json) : M (proc T) index_state := λ p,
  match parse_index j with
  | Ok r =>
    let '(p', i) := Index (rq_dim r) (rq_threshold r) (rq_merge r) (rq_args r) p in
    (p', Ok i)
  | Throw e => (p, Throw e)
  | Undef u => (p, Undef u)
  end.

Lemma parse_index_dim j r : parse_index j = Ok r → rq_dim r = args_dim (rq_args r).
Proof.
  unfold parse_index. intros H. repeat (apply outcome_bind_Ok in H as (? & _ & H)).
  repeat first [case_match; simplify_eq/= | apply outcome_bind_Ok in H as (? & _ & H)]; by simplify_eq.
Qed.
End create.

(** ** Segments in files *)

Section segments.
Context {T : Type} `{B : IBaseIndex T}.

(** [SerializeSegment(FILE* fd, segment)] *)
Definition SerializeSegment (fd : file) (sg : segment T) : file :=
  serialize sg (writeBinary int_t fd (seg_type sg)).

(** [SerializeSegment(filename, segment)]: mode "w" truncates. *)
Definition SerializeSegment_file (d : dir) (filename : string) (sg : segment T) : dir :=
  <[filename := SerializeSegment [] sg]> d.

(** [DeserealizeSegment(FILE* fd)]; a null pointer for a type it does not
    know. *)
Definition DeserealizeSegment (junk : Z) (fd : file) : outcome (option (segment T) * file) :=
  let '(seg_type, fd) := readBinary int_t fd 0 in
  if (seg_type =? SegmentType_int kFaissFlat)%Z then
    '(sg, fd) ← Segment_read junk IndexFlat fd; Ok (Some sg, fd)
  else if (seg_type =? SegmentType_int kFaissHNSW)%Z then
    '(sg, fd) ← Segment_read junk IndexHNSW fd; Ok (Some sg, fd)
  else Ok (None, fd).

(** [DeserealizeSegment(filename)]: [fopen] of a missing file is null. *)
Definition DeserealizeSegment_file (junk : Z) (d : dir) (filename : string) :
    outcome (option (segment T)) :=
  match d !! filename with
  | None => Undef NullDeref
  | Some fd => '(sg, _) ← DeserealizeSegment junk fd; Ok sg
  end.
End segments.

(** ** Round trip *)

Section round_trip.
Context {T : Type} `{L : IBaseIndexLaws T}.
Implicit Types sg : segment T.

(** The template instance [DeserealizeSegment] makes of a kind. *)
Definition read_kind (k : base_kind) : base_kind :=
  match k with IndexFlat => IndexFlat | _ => IndexHNSW end.

Definition received sg : segment T :=
  Seg (seg_id sg) (seg_type sg) (ib_retype (read_kind (sh_kind (seg_shape sg))) (seg_index sg)).

(** A segment whose fields are as its constructors set them. *)
Record segment_ok sg : Prop := {
  ok_type : seg_type sg = SegmentType_int (ib_segment_type (seg_index sg));
  ok_id : (0 ≤ seg_id sg < u64_modulus)%Z;
  ok_wf : seg_wf sg;
  ok_storable : ib_storable (seg_index sg);
}.

Lemma DeserealizeSegment_Serialize junk sg rest :
  segment_ok sg →
  DeserealizeSegment junk (SerializeSegment [] sg ++ rest) = Ok (Some (received sg), rest).
Proof.
  intros [Ht Hid Hwf Hst]. unfold SerializeSegment, serialize, DeserealizeSegment.
  rewrite writeBinary_app, ib_serialize_app, <-!app_assoc.
  rewrite ib_type_kind in Ht.
  rewrite readBinary_writeBinary; [|rewrite Ht; unfold get_segment_type; case_decide; done|simpl; lia].
  assert (∀ k, Segment_read junk k
    (ib_serialize_index (seg_index sg) [] ++ writeBinary size_t [] (seg_id sg) ++ rest) =
    Ok (Seg (seg_id sg) (SegmentType_int (get_segment_type k)) (ib_retype k (seg_index sg)), rest)) as Hr.
  { intros k. unfold Segment_read. rewrite ib_read_serialize by done. cbn [mbind outcome_bind].
    rewrite readBinary_writeBinary; [done|by apply in_range_size_t|simpl; lia]. }
  unfold received, seg_shape. rewrite Ht, !Hr. unfold get_segment_type.
  destruct (sh_kind (ib_shape (seg_index sg))); done.
Qed.
End round_trip.
