(* ===== verification/Bootstrap.v ===== *)
(** * Starting a node (app/include/BootstrapConfig.h, app/src/main.cpp, Base.cpp)

    The command line and a configuration file give one JSON document; [main]
    starts the node its mode names. The argument parser and the JSON library
    are libraries: [ArgParse] is what parsing a command line gives, [JsonDoc]
    the operations that build documents. What a node does while it runs is a
    parameter of [main]: the handlers are in the files of the nodes. *)

From S2P Require Import Prelude Cxx Floats BinaryIO StorageClient Faiss TopK IBaseIndex Segment IIndex Index IndexFactory.

(** ** The libraries *)

Class ArgParse := {
  (** [parse_args(argc, argv)]: the value of each option, its default when it
      is not given; nothing when parsing throws *)
  parse_args : list string → option (string → string);
}.

Class JsonDoc (J : Json) := {
  (** a default-constructed document *)
  json_null : json;
  (** a document made from a string *)
  json_of_string : string → json;
  (** [j[key]] of a document that is not constant: a missing key is null, and
      a document without keys throws *)
  json_get : json → string → outcome json;
  (** [j[key] = v] *)
  json_put : json → string → json → outcome json;
  (** [json::parse(text)] *)
  json_parse : string → outcome json;
}.

Class JsonDocLaws (J : Json) (JD : JsonDoc J) : Prop := {
  json_put_get j k v j' : json_put j k v = Ok j' → json_get j' k = Ok v;
  json_put_other j k v j' k' : json_put j k v = Ok j' → k' ≠ k → json_get j' k' = json_get j k';
  json_string_of s : json_string (json_of_string s) = Ok s;
}.

(** How a process ends. *)
Inductive ending :=
  | Exited (code : Z)
  | Ended.

Section bootstrap.
Context {A : ArgParse} {J : Json} {JD : JsonDoc J}.

(** The files of the machine, as text. *)
Abbreviation texts := (gmap string string).

(** A file that cannot be read parses as no text, which throws. *)
Definition ReadJsonConfig_ (files : texts) (config_path : string) : outcome json :=
  if decide (config_path = "") then Ok json_null
  else match files !! config_path with
       | Some text => json_parse text
       | None => Throw StdException
       end.

(** [result_[key] = opt == "" ? result_[key].get<std::string>() : opt] *)
Definition override (key opt : string) (result_ : json) : outcome json :=
  v ← (if decide (opt = "") then v ← json_get result_ key; json_string v else Ok opt);
  json_put result_ key (json_of_string v).

(** The last assignment keeps a document, or parses the option. *)
Definition override_doc (key opt : string) (result_ : json) : outcome json :=
  v ← (if decide (opt = "") then json_get result_ key else json_parse opt);
  json_put result_ key v.

Definition build_config (files : texts) (get : string → string) : outcome json :=
  result_ ← ReadJsonConfig_ files (get "--config-path");
  result_ ← override "mode" (get "mode") result_;
  result_ ← override "hostname" (get "--hostname") result_;
  result_ ← override "port" (get "--listening-port") result_;
  result_ ← override "s3-host" (get "--s3-host") result_;
  result_ ← override "etcd_address" (get "--etcd-address") result_;
  override_doc "indexes" (get "--indexes") result_.

(** The constructor; a command line the parser refuses ends the process. *)
Definition BootstrapConfig (files : texts) (argv : list string) : outcome (json + ending) :=
  match parse_args argv with
  | None => Ok (inr (Exited 1))
  | Some get => inl <$> build_config files get
  end.

(** ** main *)

Section main.
Context {St : Type} (Searcher_Run Writer_Run Coordinator_Run : json → M St ()).

Definition config_string (config : json) (key : string) : outcome string :=
  v ← json_get config key; json_string v.

Definition main (files : texts) (argv : list string) : M St ending :=
  started ← liftO (BootstrapConfig files argv);
  match started with
  | inr e => mret e
  | inl config =>
    mode ← liftO (config_string config "mode");
    (if decide (mode = "searcher") then Searcher_Run config else mret ());;
    (if decide (mode = "writer") then Writer_Run config else mret ());;
    (if decide (mode = "coordinator") then Coordinator_Run config else mret ());;
    throw (InvalidArgument ("Invalid mode: " +:+ mode))
  end.
End main.

(** ** Servers *)

(** What every server reads from its (constant) configuration. *)
Record BaseServer := Server { sv_host : string; sv_port : string }.

Definition BaseServer_new (config : json) : outcome BaseServer :=
  host ← string_at config "hostname";
  port ← string_at config "port";
  Ok (Server host port).

(** The address [InternalRun] listens on: every interface, whatever the host. *)
Definition InternalRun_address (s : BaseServer) : string := "[::]:" +:+ sv_port s.

(** The arguments [Searcher] and [Writer] give their services, and the one
    [Coordinator] does. *)
Record service_config := ServiceConfig {
  sc_server : BaseServer;
  sc_etcd : string;
  sc_s3 : string;
  sc_indexes : json;
}.
Definition node_config (config : json) : outcome service_config :=
  s ← BaseServer_new config;
  etcd ← string_at config "etcd_address";
  s3 ← string_at config "s3-host";
  indexes ← json_at config "indexes";
  Ok (ServiceConfig s etcd s3 indexes).
Definition coordinator_config (config : json) : outcome (BaseServer * string) :=
  s ← BaseServer_new config;
  etcd ← string_at config "etcd_address";
  Ok (s, etcd).
End bootstrap.

(** ** What the configuration says *)

Section bootstrap_spec.
Context {A : ArgParse} {J : Json} {JD : JsonDoc J} {JL : JsonDocLaws J JD}.

(** The options that are strings, with the keys they set. *)
Definition string_options : list (string * string) :=
  [("mode", "mode"); ("hostname", "--hostname"); ("port", "--listening-port");
   ("s3-host", "--s3-host"); ("etcd_address", "--etcd-address")].

Lemma override_spec key opt j j' :
  override key opt j = Ok j' →
  (∃ v, config_string j' key = Ok v ∧ (if decide (opt = "") then config_string j key = Ok v else v = opt)) ∧
  ∀ k, k ≠ key → json_get j' k = json_get j k.
Proof.
  unfold override, config_string. intros (v & Hv & Hp)%outcome_bind_Ok. split.
  - exists v. split; [by rewrite (json_put_get _ _ _ _ Hp); simpl; rewrite json_string_of|].
    case_decide; [done|by injection Hv].
  - intros k Hk. by apply (json_put_other _ _ _ _ _ Hp).
Qed.

Lemma override_doc_spec key opt j j' :
  override_doc key opt j = Ok j' →
  (∃ v, json_get j' key = Ok v ∧ (if decide (opt = "") then json_get j key = Ok v else json_parse opt = Ok v)) ∧
  ∀ k, k ≠ key → json_get j' k = json_get j k.
Proof.
  unfold override_doc. intros (v & Hv & Hp)%outcome_bind_Ok. split.
  - exists v. split; [by rewrite (json_put_get _ _ _ _ Hp)|]. by case_decide.
  - intros k Hk. by apply (json_put_other _ _ _ _ _ Hp).
Qed.

(** A sequence of overrides of different keys. *)
Fixpoint overrides (opts : list (string * string)) (get : string → string) (j : json) : outcome json :=
  match opts with
  | [] => Ok j
  | (key, opt) :: opts => j ← override key (get opt) j; overrides opts get j
  end.

Lemma config_string_ext j j' k : json_get j' k = json_get j k → config_string j' k = config_string j k.
Proof. unfold config_string. by intros ->. Qed.

Lemma overrides_spec opts get j j' :
  NoDup opts.*1 → overrides opts get j = Ok j' →
  (∀ key opt, (key, opt) ∈ opts → ∃ v, config_string j' key = Ok v ∧
    (if decide (get opt = "") then config_string j key = Ok v else v = get opt)) ∧
  ∀ k, k ∉ opts.*1 → json_get j' k = json_get j k.
Proof.
  revert j. induction opts as [|[key opt] opts IH]; intros j Hnd Ho; simpl in Ho.
  { injection Ho as <-. split; [set_solver|done]. }
  apply outcome_bind_Ok in Ho as (j1 & H1 & Ho). rewrite fmap_cons in Hnd |- *.
  apply NoDup_cons in Hnd as [Hnew Hnd]. destruct (IH j1 Hnd Ho) as [Hin Hout].
  destruct (override_spec _ _ _ _ H1) as [(v & Hv & Hw) Hother]. split.
  - intros k o [[= -> ->]|Hko]%elem_of_cons.
    + exists v. rewrite (config_string_ext _ _ _ (Hout key Hnew)). done.
    + destruct (Hin k o Hko) as (v' & Hv' & Hw'). exists v'. split; [done|].
      case_decide; [|done]. rewrite <-Hw'. symmetry. apply config_string_ext, Hother. intros ->.
      apply Hnew. by apply (list_elem_of_fmap_2' fst _ (key, o)).
  - intros k Hk. rewrite Hout, Hother; set_solver.
Qed.

Lemma build_config_overrides files get :
  build_config files get =
  (j ← ReadJsonConfig_ files (get "--config-path"); j ← overrides string_options get j;
   override_doc "indexes" (get "--indexes") j).
Proof.
  unfold build_config. destruct (ReadJsonConfig_ _ _) as [j| |]; [|done..]. simpl.
  do 5 (destruct (override _ _ _) as [?| |]; [|done..]; simpl). done.
Qed.
End bootstrap_spec.

(** ** Documents of [json_ref] *)

Definition obj_put (k : string) (v : jval) (l : list (string * jval)) : list (string * jval) :=
  (k, v) :: filter (λ p, p.1 ≠ k) l.

(** A null document is an object without keys; text is taken as a string. *)
Definition json_doc_ref : JsonDoc json_ref := {|
  json_null := JObj [] : @json json_ref;
  json_of_string s := JStr s : @json json_ref;
  json_get j k := match j with
                  | JObj l => Ok (default (JObj []) (assoc k l))
                  | _ => Throw StdException
                  end;
  json_put j k v := match j with JObj l => Ok (JObj (obj_put k v l)) | _ => Throw StdException end;
  json_parse s := Ok (JStr s : @json json_ref);
|}.

Lemma assoc_filter k k' l : k' ≠ k → assoc k' (filter (λ p, p.1 ≠ k) l) = assoc k' l.
Proof.
  intros Hne. induction l as [|[k0 v0] l IH]; [done|]. rewrite filter_cons. simpl.
  case_decide; simpl; rewrite IH; [done|]. by rewrite decide_False by naive_solver.
Qed.

#[export] Instance json_doc_ref_laws : JsonDocLaws json_ref json_doc_ref.
Proof.
  split.
  - intros [] k v j' [= <-]. simpl. by rewrite decide_True.
  - intros [] k v j' k' [= <-] Hne; simpl. rewrite decide_False by done. by rewrite assoc_filter.
  - done.
Qed.
