(* ===== verification/Merging.v ===== *)
(** * Merging searchers' answers (app/include/Merging.h)

    Reciprocal rank fusion: a document scores [1 / (60 + rank + 1)] in every
    answer it occurs in, scores add up (in double precision, in the order the
    answers came), and the best [num_requested] are returned. *)

From S2P Require Import Prelude Cxx Floats.

(** A [SearchResponse] is the list of its [ids]. *)
Abbreviation SearchResponse := (list string).

Definition RFF_CONST : f64 := f64_of_Z 60.

Definition GetScore (i : nat) : f64 :=
  f64_div (f64_of_Z 1) (f64_add (f64_add RFF_CONST (f64_of_Z (Z.of_nat i))) (f64_of_Z 1)).

(** [if (find(id) != end()) m[id] += score; else m[id] = score;] *)
Definition add_score (doc_to_score : gmap string f64) (id : string) (score : f64) :
    gmap string f64 :=
  match doc_to_score !! id with
  | Some s => <[id := f64_add s score]> doc_to_score
  | None => <[id := score]> doc_to_score
  end.

(** The inner loop, from position [i] on. *)
Fixpoint score_response (i : nat) (ids : SearchResponse) (m : gmap string f64) : gmap string f64 :=
  match ids with
  | [] => m
  | id :: ids => score_response (S i) ids (add_score m id (GetScore i))
  end.

Definition doc_scores (responses : list SearchResponse) : gmap string f64 :=
  foldl (λ m r, score_response 0 r m) ∅ responses.

(** [first.second > second.second] *)
Definition score_gt (a b : string * f64) : bool := flt b.2 a.2.

Definition MergeSearcherAnswers `{StdLib} (responses : list SearchResponse)
    (num_requested : nat) : SearchResponse :=
  let sorted := std_sort score_gt (std_iter (doc_scores responses)) in
  take num_requested sorted.*1.

(** ** Reference: the contributions to a document's score *)

(** The ranks at which [x] occurs in an answer. *)
Fixpoint ranks (x : string) (i : nat) (ids : SearchResponse) : list nat :=
  match ids with
  | [] => []
  | id :: ids => (if decide (id = x) then [i] else []) ++ ranks x (S i) ids
  end.

Definition contributions (x : string) (responses : list SearchResponse) : list f64 :=
  GetScore <$> (responses ≫= ranks x 0).

(** The sum in the order the answers came, nothing for a document no answer
    has. *)
Definition rrf_score (x : string) (responses : list SearchResponse) : option f64 :=
  match contributions x responses with
  | [] => None
  | s :: ss => Some (foldl f64_add s ss)
  end.

(** Adding contributions to what a document has. *)
Definition accumulate (o : option f64) (ss : list f64) : option f64 :=
  match o, ss with
  | Some s, _ => Some (foldl f64_add s ss)
  | None, [] => None
  | None, s :: ss => Some (foldl f64_add s ss)
  end.

Lemma accumulate_app o ss ss' : accumulate o (ss ++ ss') = accumulate (accumulate o ss) ss'.
Proof.
  destruct o as [s|]; simpl; [by rewrite foldl_app|].
  destruct ss; simpl; [done|]. by rewrite foldl_app.
Qed.

Lemma add_score_lookup m id s x :
  add_score m id s !! x = accumulate (m !! x) (if decide (id = x) then [s] else []).
Proof.
  unfold add_score. destruct (decide (id = x)) as [->|Hne].
  - destruct (m !! x) as [s'|]; by rewrite lookup_insert_eq.
  - destruct (m !! id); rewrite lookup_insert_ne by done; by destruct (m !! x).
Qed.

Lemma score_response_lookup i ids m x :
  score_response i ids m !! x = accumulate (m !! x) (GetScore <$> ranks x i ids).
Proof.
  revert i m. induction ids as [|id ids IH]; intros i m; simpl; [by destruct (m !! x)|].
  rewrite IH, add_score_lookup, fmap_app, accumulate_app. by case_decide.
Qed.

Lemma scores_lookup responses m x :
  foldl (λ m r, score_response 0 r m) m responses !! x =
  accumulate (m !! x) (contributions x responses).
Proof.
  revert m. induction responses as [|r rs IH]; intros m; simpl; [by destruct (m !! x)|].
  rewrite IH, score_response_lookup. unfold contributions. simpl.
  by rewrite fmap_app, accumulate_app.
Qed.

(** The table of scores is the reference's. *)
Lemma doc_scores_rrf responses x : doc_scores responses !! x = rrf_score x responses.
Proof. unfold doc_scores. rewrite scores_lookup, lookup_empty. done. Qed.

Lemma ranks_nonempty x i ids : ranks x i ids ≠ [] ↔ x ∈ ids.
Proof.
  revert i. induction ids as [|id ids IH]; intros i; simpl; [set_solver|].
  rewrite elem_of_cons. case_decide; subst; simpl; [naive_solver|].
  rewrite IH. naive_solver.
Qed.

Lemma rrf_score_Some x responses :
  is_Some (rrf_score x responses) ↔ ∃ r, r ∈ responses ∧ x ∈ r.
Proof.
  unfold rrf_score, contributions. induction responses as [|r rs IH]; simpl.
  { split; [by intros []|]. set_solver. }
  setoid_rewrite elem_of_cons. pose proof (ranks_nonempty x 0 r) as Hr.
  destruct (ranks x 0 r) as [|k ks]; simpl.
  - rewrite IH. naive_solver.
  - split; [|by eauto]. intros _. exists r. naive_solver.
Qed.

(** ** Scores are numbers *)

Lemma GetScore_pos i : fpos (GetScore i).
Proof.
  unfold GetScore. apply f64_recip_pos. repeat apply f64_add_pos; apply f64_of_Z_pos; lia.
Qed.

Lemma foldl_add_pos s ss : fpos s → Forall fpos ss → fpos (foldl f64_add s ss).
Proof.
  intros Hs Hss. revert s Hs. induction Hss as [|t ss Ht _ IH]; intros s Hs; simpl; [done|].
  by apply IH, f64_add_pos.
Qed.

Lemma rrf_score_pos x responses s : rrf_score x responses = Some s → fpos s.
Proof.
  unfold rrf_score, contributions. destruct (responses ≫= ranks x 0) as [|k ks]; simpl; [done|].
  intros [= <-]. apply foldl_add_pos; [apply GetScore_pos|].
  apply Forall_fmap, Forall_forall. intros. apply GetScore_pos.
Qed.

(** ** The answer *)

Section merged.
Context `{SL : StdLib} (responses : list SearchResponse).

Let scored := std_iter (doc_scores responses).
Let sorted := std_sort score_gt scored.

Lemma elem_of_scored x s : (x, s) ∈ scored ↔ rrf_score x responses = Some s.
Proof. unfold scored. by rewrite elem_of_std_iter, doc_scores_rrf. Qed.

Lemma score_gt_swo : swo_on score_gt (.∈ scored).
Proof.
  assert (∀ p, p ∈ scored → not_nan p.2) as Hn.
  { intros [x s] Hp%elem_of_scored. simpl. by eapply fpos_not_nan, rrf_score_pos. }
  pose proof flt_swo as [H1 H2 H3]. unfold score_gt. split.
  - intros a Ha. apply H1; auto.
  - intros a b c Ha Hb Hc Hab Hbc. by eapply H2; [| | |exact Hbc|exact Hab]; auto.
  - intros a b c Ha Hb Hc Hab. destruct (H3 b.2 a.2 c.2); auto.
Qed.

Lemma sorted_perm : sorted ≡ₚ scored.
Proof. apply std_sort_perm, score_gt_swo. Qed.

Lemma sorted_nodup : NoDup sorted.*1.
Proof. rewrite sorted_perm. apply NoDup_fst_std_iter. Qed.

(** The documents of the answers, each once. *)
Definition documents : list string := remove_dups (mjoin responses).

Lemma sorted_documents : sorted.*1 ≡ₚ documents.
Proof.
  apply NoDup_Permutation; [apply sorted_nodup|apply NoDup_remove_dups|].
  intros x. unfold documents.
  rewrite elem_of_remove_dups, list_elem_of_join, sorted_perm, list_elem_of_fmap.
  transitivity (is_Some (rrf_score x responses)); [|rewrite rrf_score_Some; naive_solver]. split.
  - intros ([x' s] & -> & Hs%elem_of_scored). simpl. by rewrite Hs.
  - intros [s Hs]. exists (x, s). by rewrite elem_of_scored.
Qed.

(** The answer ranks documents by score, and leaves out only documents that
    score no better than any it has. *)
Lemma merged_ranked k :
  ∃ docs, MergeSearcherAnswers responses k = docs.*1 ∧
    Forall (λ p, rrf_score p.1 responses = Some p.2) docs ∧
    StronglySorted (λ p p', fle p'.2 p.2) docs ∧
    ∀ y t, rrf_score y responses = Some t → y ∉ docs.*1 → Forall (λ p, fle t p.2) docs.
Proof.
  exists (take k sorted). split_and!.
  - unfold MergeSearcherAnswers. by rewrite fmap_take.
  - apply Forall_take, Forall_forall. intros [x s]. rewrite sorted_perm. apply elem_of_scored.
  - pose proof (std_sort_sorted score_gt scored score_gt_swo) as Hs. fold sorted in Hs.
    rewrite <-(take_drop k sorted) in Hs. by apply StronglySorted_app in Hs as (_ & Hs & _).
  - intros y t Hy Hout. apply Forall_forall. intros p Hp.
    pose proof (std_sort_sorted score_gt scored score_gt_swo) as Hs. fold sorted in Hs.
    assert ((y, t) ∈ sorted) as Hin by (by rewrite sorted_perm, elem_of_scored).
    rewrite <-(take_drop k sorted) in Hs, Hin.
    apply StronglySorted_app in Hs as (Hcross & _ & _).
    apply elem_of_app in Hin as [Hin|Hin]; [|by apply (Hcross p (y, t))].
    destruct Hout. by apply (list_elem_of_fmap_2 fst _ _ Hin).
Qed.
End merged.

(** ** Copies of one answer

    Searchers that serve the same shard give the same answer. *)

(** What a document at a place with score [g] gets from [S n] copies. *)
Definition copies_score (n : nat) (g : f64) : f64 := foldl f64_add g (replicate n g).

(** Scores fall strictly with the rank, as far as ranks and copies are
    checked. *)
Definition max_rank : nat := 4096.
Definition max_copies : nat := 8.

(** [copies_score n g] for [n] up to a bound. *)
Fixpoint sums (n : nat) (s g : f64) : list f64 :=
  match n with
  | 0 => []
  | S n => s :: sums n (f64_add s g) g
  end.
Definition rank_sums (i : nat) : list f64 := sums max_copies (GetScore i) (GetScore i).

Fixpoint falling (n i : nat) (prev : list f64) : bool :=
  match n with
  | 0 => true
  | S n =>
    let cur := rank_sums (S i) in
    forallb (λ p, flt p.1 p.2) (zip cur prev) && falling n (S i) cur
  end.

Lemma falling_check : falling max_rank 0 (rank_sums 0) = true.
Proof. by vm_compute. Qed.

Lemma sums_lookup m n s g : n < m → sums m s g !! n = Some (foldl f64_add s (replicate n g)).
Proof.
  revert n s. induction m as [|m IH]; intros n s Hn; [lia|].
  destruct n as [|n]; simpl; [done|]. apply IH. lia.
Qed.

Lemma falling_step n i j c :
  falling n i (rank_sums i) = true → i ≤ j < i + n → c < max_copies →
  flt (copies_score c (GetScore (S j))) (copies_score c (GetScore j)).
Proof.
  revert i. induction n as [|n IH]; intros i Hf Hj Hc; [lia|]. cbn [falling] in Hf.
  apply andb_true_iff in Hf as [Hi Hf]. destruct (decide (j = i)) as [->|]; [|apply (IH (S i)); [done|lia|done]].
  apply Is_true_true, forallb_True in Hi. rewrite Forall_lookup in Hi. apply (Hi c (_, _)).
  rewrite lookup_zip_with_Some. eexists _, _. split; [done|]. split; by apply sums_lookup.
Qed.

Lemma copies_score_pos c i : fpos (copies_score c (GetScore i)).
Proof. apply foldl_add_pos; [|apply Forall_replicate]; apply GetScore_pos. Qed.

Lemma scores_fall c i j :
  c < max_copies → i < j → j ≤ max_rank → flt (copies_score c (GetScore j)) (copies_score c (GetScore i)).
Proof.
  intros Hc Hij. induction j as [|j IH]; [lia|]. intros Hj.
  pose proof (falling_step _ 0 j c falling_check ltac:(lia) Hc) as Hs.
  destruct (decide (i = j)) as [->|]; [done|].
  eapply (swo_trans _ _ flt_swo); [..|exact Hs|apply IH; lia]; apply fpos_not_nan, copies_score_pos.
Qed.

Section copies.
Context `{SL : StdLib} (ids : SearchResponse) (c : nat).
Context (Hnd : NoDup ids) (Hlen : length ids ≤ S max_rank) (Hc : c < max_copies).
Abbreviation answers := (replicate (S c) ids).
Abbreviation score i := (copies_score c (GetScore i)).

(** The documents with the scores of their ranks. *)
Definition ranked : list (string * f64) := imap (λ i x, (x, score i)) ids.

Lemma ranks_unique x i j l :
  NoDup l → l !! i = Some x → ranks x j l = [j + i].
Proof.
  revert i j. induction l as [|y l IH]; intros i j Hl Hi; [done|].
  apply NoDup_cons in Hl as [Hy Hl]. destruct i as [|i]; simpl in *.
  - simplify_eq. rewrite decide_True by done. simpl. f_equal; [lia|].
    destruct (ranks x (S j) l) eqn:E; [done|]. destruct Hy.
    apply (ranks_nonempty x (S j)). by rewrite E.
  - rewrite decide_False, (IH i (S j)) by (done || intros ->; by apply Hy, list_elem_of_lookup_2 with i).
    simpl. f_equal. lia.
Qed.

Lemma rrf_copies x i : ids !! i = Some x → rrf_score x answers = Some (score i).
Proof.
  intros Hi. assert (∀ n, contributions x (replicate n ids) = replicate n (GetScore i)) as Hn.
  { unfold contributions. induction n as [|n IH]; [done|]. rewrite !replicate_S, bind_cons, fmap_app, IH.
    by rewrite (ranks_unique x i 0). }
  unfold rrf_score. by rewrite Hn.
Qed.

Lemma ranked_lookup i x : ids !! i = Some x → ranked !! i = Some (x, score i).
Proof. intros Hi. unfold ranked. by rewrite list_lookup_imap, Hi. Qed.
Lemma ranked_Some i p : ranked !! i = Some p → ∃ x, ids !! i = Some x ∧ p = (x, score i).
Proof.
  unfold ranked. rewrite list_lookup_imap. destruct (ids !! i) as [x|]; [|done].
  intros [= <-]. eauto.
Qed.
Lemma ranked_fst : ranked.*1 = ids.
Proof.
  apply list_eq. intros i. unfold ranked. rewrite list_lookup_fmap, list_lookup_imap.
  by destruct (ids !! i).
Qed.

Lemma ranked_scored : ranked ≡ₚ std_iter (doc_scores answers).
Proof.
  apply NoDup_Permutation.
  - eapply NoDup_fmap_1. by rewrite ranked_fst.
  - apply NoDup_std_iter.
  - intros [x s]. rewrite elem_of_scored. split.
    + intros [i Hi]%list_elem_of_lookup. apply ranked_Some in Hi as (y & Hy & [= -> ->]).
      by apply rrf_copies.
    + intros Hs. assert (∃ r, r ∈ answers ∧ x ∈ r) as (r & [-> _]%elem_of_replicate & Hx)
        by (apply rrf_score_Some; eauto).
      apply list_elem_of_lookup in Hx as [i Hi]. rewrite (rrf_copies x i Hi) in Hs.
      simplify_eq. apply list_elem_of_lookup. exists i. by apply ranked_lookup.
Qed.

Lemma ranked_sorted : StronglySorted (λ a b, score_gt b a = false) ranked.
Proof.
  apply StronglySorted_lookup. intros i j p p' Hij Hp Hp'.
  apply ranked_Some in Hp as (x & Hx & ->), Hp' as (x' & Hx' & ->).
  apply lookup_lt_Some in Hx'. unfold score_gt. simpl.
  apply flt_fle; [apply fpos_not_nan, copies_score_pos..|]. apply scores_fall; lia.
Qed.

(** The ranking of one answer is kept by copies of it. *)
Lemma merged_copies k : MergeSearcherAnswers answers k = take k ids.
Proof.
  unfold MergeSearcherAnswers. f_equal.
  transitivity (ranked.*1); [|apply ranked_fst]. f_equal. symmetry.
  apply (StronglySorted_unique_strong (λ a b, score_gt b a = false)).
  - intros p p' [i Hi]%list_elem_of_lookup Hp'. rewrite sorted_perm, <-ranked_scored in Hp'.
    apply list_elem_of_lookup in Hp' as [j Hj]. unfold score_gt. intros H1 H2.
    destruct (decide (i = j)) as [->|Hne]; [by simplify_eq|].
    apply ranked_Some in Hi as (x & Hx%lookup_lt_Some & ->), Hj as (x' & Hx'%lookup_lt_Some & ->).
    simpl in *. destruct (decide (i < j)).
    + pose proof (scores_fall c i j Hc ltac:(lia) ltac:(lia)) as Hf. by rewrite H2 in Hf.
    + pose proof (scores_fall c j i Hc ltac:(lia) ltac:(lia)) as Hf. by rewrite H1 in Hf.
  - apply ranked_sorted.
  - apply std_sort_sorted, score_gt_swo.
  - by rewrite sorted_perm, ranked_scored.
Qed.
End copies.
