(* ===== verification/Stats.v ===== *)
(** * Response statistics (app/include/utils/Stats.h)

    A [StatsManager] counts responses and errors and keeps a running average
    of the response time; a collector lives as long as one request and reports
    when it is destroyed. Times are doubles in the program ([num_f64]); the
    same code over exact rationals ([num_Qc]) says what the average would be
    without rounding. *)

From Stdlib Require Import QArith Qcanon.
From S2P Require Import Prelude Cxx Floats.

(** The arithmetic the average is computed with. *)
Class Num := {
  num : Type;
  num_add : num → num → num;
  num_mul : num → num → num;
  num_div : num → num → num;
  num_of : Z → num;
}.

#[export] Instance num_f64 : Num := {|
  num := f64; num_add := f64_add; num_mul := f64_mul; num_div := f64_div; num_of := f64_of_Z;
|}.
Definition num_Qc : Num := {|
  num := Qc; num_add := Qcplus; num_mul := Qcmult; num_div := Qcdiv; num_of := Qc_of_Z;
|}.

Record StatsManager (N : Num) := Stats {
  average_response_time_ : num;
  responses_cnt_ : Z;
  errors_cnt_ : Z;
}.
Arguments Stats {_} _ _ _.
Arguments average_response_time_ {_} _.
Arguments responses_cnt_ {_} _.
Arguments errors_cnt_ {_} _.

Section stats.
Context {N : Num}.

Definition StatsManager_new : StatsManager N := Stats (num_of 0) 0 0.

(** [ResponseStatsCollector]; the clock is read when it is made and when it
    is destroyed. *)
Record ResponseStatsCollector := Collector {
  resp_time_ : option num;
  is_error_ : bool;
}.
Definition CreateResponseData : ResponseStatsCollector := Collector None false.
Definition SetError (c : ResponseStatsCollector) : ResponseStatsCollector :=
  Collector (resp_time_ c) true.

Definition AggregateStats (m : StatsManager N) (resp_data : ResponseStatsCollector) :
    StatsManager N :=
  let cnt := u64_add (responses_cnt_ m) 1 in
  if is_error_ resp_data then Stats (average_response_time_ m) cnt (u64_add (errors_cnt_ m) 1)
  else
    match resp_time_ resp_data with
    | Some response_time =>
      Stats (num_div (num_add (num_mul (average_response_time_ m) (num_of cnt)) response_time)
                     (num_of (u64_add cnt 1))) cnt (errors_cnt_ m)
    | None => Stats (average_response_time_ m) cnt (errors_cnt_ m)
    end.

(** [~ResponseStatsCollector], [duration] after it was made. *)
Definition destroy_collector (m : StatsManager N) (c : ResponseStatsCollector) (duration : num) :
    StatsManager N :=
  AggregateStats m (Collector (Some duration) (is_error_ c)).

Definition GetErrorsCount (m : StatsManager N) : Z := errors_cnt_ m.
Definition GetSuccessCount (m : StatsManager N) : outcome Z :=
  if (errors_cnt_ m <? responses_cnt_ m)%Z
  then Ok (u64_sub (responses_cnt_ m) (errors_cnt_ m)) else Undef AssertFailed.
Definition GetResponsesCount (m : StatsManager N) : Z := responses_cnt_ m.
Definition GetAverageResponseTime (m : StatsManager N) : num := average_response_time_ m.

(** A request that took [d] and failed or not. *)
Definition observe (m : StatsManager N) (r : num * bool) : StatsManager N :=
  let c := CreateResponseData in
  destroy_collector m (if r.2 then SetError c else c) r.1.

(** ** Counts *)

Lemma observe_counts m r :
  responses_cnt_ (observe m r) = u64_add (responses_cnt_ m) 1 ∧
  errors_cnt_ (observe m r) = (if r.2 then u64_add (errors_cnt_ m) 1 else errors_cnt_ m).
Proof. by destruct r as [d []]. Qed.

Definition failures (rs : list (num * bool)) : nat := length (filter (λ r, r.2 = true) rs).

Lemma observe_all_counts rs m :
  (0 ≤ errors_cnt_ m)%Z → (0 ≤ responses_cnt_ m)%Z →
  (responses_cnt_ m + Z.of_nat (length rs) < u64_modulus)%Z →
  (errors_cnt_ m + Z.of_nat (length rs) < u64_modulus)%Z →
  responses_cnt_ (foldl observe m rs) = (responses_cnt_ m + Z.of_nat (length rs))%Z ∧
  errors_cnt_ (foldl observe m rs) = (errors_cnt_ m + Z.of_nat (failures rs))%Z.
Proof.
  revert m. induction rs as [|r rs IH]; intros m He Hr H1 H2.
  { change (failures []) with 0. simpl. by rewrite !Z.add_0_r. }
  cbn [foldl length] in *.
  destruct (observe_counts m r) as [Hc1 Hc2].
  assert (u64_add (responses_cnt_ m) 1 = responses_cnt_ m + 1)%Z as E1 by (apply u64_small; lia).
  assert (u64_add (errors_cnt_ m) 1 = errors_cnt_ m + 1)%Z as E2 by (apply u64_small; lia).
  rewrite E1 in Hc1. rewrite E2 in Hc2.
  destruct (IH (observe m r)) as [-> ->]; rewrite ?Hc1, ?Hc2; try (destruct r.2; lia).
  unfold failures. rewrite filter_cons. destruct r as [d []]; simpl; split; lia.
Qed.
End stats.

(** ** The average, exactly *)

#[local] Existing Instance num_Qc.

Definition total (rs : list Qc) : Qc := foldr Qcplus 0%Qc rs.

Lemma Qc_of_Z_pos z : (0 < z)%Z → Qc_of_Z z ≠ 0%Qc.
Proof. intros Hz. rewrite <-Z2Qc_inj_0. rewrite Z2Qc_inj_iff. lia. Qed.

(** After [n] successes adding up to [s] the average is [s / (n + 1)]. *)
Lemma observe_average (rs : list Qc) (m : StatsManager num_Qc) (s : Qc) :
  (0 ≤ responses_cnt_ m)%Z →
  (responses_cnt_ m + Z.of_nat (length rs) < 2 ^ 63)%Z →
  (average_response_time_ m * Qc_of_Z (responses_cnt_ m + 1) = s)%Qc →
  (average_response_time_ (foldl (observe (N:=num_Qc)) m ((λ t, (t, false)) <$> rs)) *
   Qc_of_Z (responses_cnt_ m + Z.of_nat (length rs) + 1) = s + total rs)%Qc.
Proof.
  revert m s. induction rs as [|t rs IH]; intros m s H0 Hmax Hs.
  { simpl. by rewrite Z.add_0_r, Hs, Qcplus_0_r. }
  rewrite fmap_cons. cbn [foldl length] in *.
  set (m' := observe m (t, false)).
  assert (responses_cnt_ m' = responses_cnt_ m + 1)%Z as Hc
    by (apply u64_small; unfold u64_modulus; lia).
  replace (responses_cnt_ m + Z.of_nat (S (length rs)) + 1)%Z
    with (responses_cnt_ m' + Z.of_nat (length rs) + 1)%Z by lia.
  rewrite (IH m' (s + t)%Qc); [simpl; unfold total; ring|lia|lia|].
  assert (u64_add (responses_cnt_ m) 1 = responses_cnt_ m + 1)%Z as E1
    by (apply u64_small; unfold u64_modulus; lia).
  assert (u64_add (responses_cnt_ m + 1) 1 = responses_cnt_ m + 1 + 1)%Z as E2
    by (apply u64_small; unfold u64_modulus; lia).
  rewrite Hc. unfold m', observe, destroy_collector, AggregateStats. simpl. rewrite E1, E2.
  rewrite Hs. unfold Qcdiv. rewrite <-Qcmult_assoc, (Qcmult_comm (/ _)), Qcmult_inv_r.
  - apply Qcmult_1_r.
  - apply Qc_of_Z_pos. lia.
Qed.
