(* ===== verification/EtcdClient.v ===== *)
(** * The directory of searchers (app/src/EtcdClient.cpp)

    Searchers register under [index/searchers/shard/hosts/addr], coordinators
    publish response times under [index/searchers/shard/stats/...]. etcd is a
    service reached through a library: [Etcd] lists the calls made, [EtcdLaws]
    what they mean (a map of keys, listed by prefix); [etcd_ref] is a map in
    memory. With ids that have no slash, the client's calls implement a set of
    (index, shard, address) triples and a table of times. *)

From S2P Require Import Prelude Cxx Floats BinaryIO TopK.

(** ** The service *)

Class Etcd := {
  kv : Type;
  (** [ls(path)], [keys(path)]: nothing when the call throws or the response
      is not ok *)
  etcd_ls : kv → string → option (list (string * string));
  etcd_keys : kv → string → option (list string);
  (** [set(key, value)], [rm(key)]: whether the response is ok *)
  etcd_set : kv → string → string → kv * bool;
  etcd_rm : kv → string → kv * bool;
}.

Definition has_prefix (p k : string) : Prop := ∃ r, k = p +:+ r.

Class EtcdLaws (E : Etcd) := {
  etcd_view : kv → gmap string string;
  etcd_ls_spec s p l : etcd_ls s p = Some l →
    NoDup l.*1 ∧ ∀ k v, (k, v) ∈ l ↔ etcd_view s !! k = Some v ∧ has_prefix p k;
  etcd_keys_spec s p l : etcd_keys s p = Some l →
    NoDup l ∧ ∀ k, k ∈ l ↔ is_Some (etcd_view s !! k) ∧ has_prefix p k;
  etcd_set_spec s k v s' : etcd_set s k v = (s', true) →
    etcd_view s' = <[k := v]> (etcd_view s);
  etcd_rm_spec s k s' : etcd_rm s k = (s', true) → etcd_view s' = delete k (etcd_view s);
}.

(** [std::to_string(double)] and [std::stod]. *)
Class DoubleText := {
  to_string_f64 : f64 → string;
  stod : string → outcome f64;
}.

(** ** Strings *)

(** [boost::algorithm::split(result, s, c == '/')]: adjacent separators give
    empty tokens. *)
Fixpoint split_slash (s : string) : list string :=
  match s with
  | EmptyString => [""]
  | String c s =>
    if decide (c = "/"%char) then "" :: split_slash s
    else match split_slash s with
         | t :: ts => String c t :: ts
         | [] => [String c ""]
         end
  end.

(** Insertion into a [std::set<std::string>]. *)
Definition str_set (l : list string) : list string :=
  foldl (flip (set_emplace str_lt)) [] l.

(** ** The client *)

Section client.
Context {E : Etcd} {DT : DoubleText}.

(** An error is reported on [cerr] and thrown again as a [std::exception]. *)
Definition GetAllValues (path : string) : M kv (list string) := λ s,
  match etcd_ls s path with
  | Some l => (s, Ok l.*2)
  | None => (s, Throw StdException)
  end.

(** [splited[nesting_level]] of every key *)
Definition key_part (nesting_level : nat) (k : string) : outcome string :=
  match split_slash k !! nesting_level with
  | Some t => Ok t
  | None => Throw StdException
  end.

Definition ListAllKeys (path : string) (nesting_level : nat) : M kv (list string) := λ s,
  match etcd_keys s path with
  | Some ks => (s, str_set <$> mapM (key_part nesting_level) ks)
  | None => (s, Throw StdException)
  end.

Definition AddElement (path value : string) : M kv () := λ s,
  let '(s, ok) := etcd_set s path value in (s, if ok : bool then Ok () else Throw StdException).
Definition RemoveElement (path : string) : M kv () := λ s,
  let '(s, ok) := etcd_rm s path in (s, if ok : bool then Ok () else Throw StdException).

Definition ListSearcherHosts (index_id : string) (shard_id : option string) : M kv (list string) :=
  let key := index_id +:+ "/searchers" in
  GetAllValues (match shard_id with
                | Some s => key +:+ "/" +:+ s +:+ "/hosts"
                | None => key
                end).

Definition host_key (index_id shard_id searcher_addr : string) : string :=
  index_id +:+ "/searchers/" +:+ shard_id +:+ "/hosts/" +:+ searcher_addr.
Definition time_key (index_id shard_id : string) : string :=
  index_id +:+ "/searchers/" +:+ shard_id +:+ "/stats/average_response_time".

Definition AddSearcherHost (index_id shard_id searcher_addr : string) : M kv () :=
  AddElement (host_key index_id shard_id searcher_addr) searcher_addr.
Definition RemoveSearcherHost (index_id shard_id searcher_addr : string) : M kv () :=
  RemoveElement (host_key index_id shard_id searcher_addr).

Definition ListShardIds (index_id : string) : M kv (list string) :=
  ListAllKeys (index_id +:+ "/searchers") 2.

Definition GetSearcherAverageResponseTime (index_id shard_id : string) : M kv f64 :=
  result ← GetAllValues (time_key index_id shard_id);
  match result with
  | [] => mret (S754_zero false)
  | r :: _ => liftO (stod r)
  end.
Definition UpdateAverageResponseTime (index_id shard_id : string) (updated_value : f64) : M kv () :=
  AddElement (time_key index_id shard_id) (to_string_f64 updated_value).

(** [DebugPrintEverything] only prints; it throws when the call fails. *)
Definition DebugPrintEverything : M kv () := λ s,
  match etcd_keys s "" with
  | Some _ => (s, Ok ())
  | None => (s, Throw StdException)
  end.
End client.

(** ** Keys *)

Fixpoint slash_free (s : string) : bool :=
  match s with
  | EmptyString => true
  | String c s => negb (bool_decide (c = "/"%char)) && slash_free s
  end.

Lemma split_slash_nonempty s : ∃ t ts, split_slash s = t :: ts.
Proof.
  induction s as [|c s IH]; simpl; [eauto|]. case_decide; [eauto|].
  destruct IH as (t & ts & ->). eauto.
Qed.

Lemma split_slash_app x y :
  slash_free x = true → split_slash (x +:+ String "/" y) = x :: split_slash y.
Proof.
  induction x as [|c x IH]; simpl; intros Hx.
  - done.
  - apply andb_true_iff in Hx as [Hc Hx]. apply negb_true_iff, bool_decide_eq_false in Hc.
    by rewrite decide_False, IH by done.
Qed.

Lemma split_head_prefix x y : slash_free x = true → ∃ t ts, split_slash (x +:+ y) = (x +:+ t) :: ts.
Proof.
  induction x as [|c x IH]; simpl; intros Hx; [apply split_slash_nonempty|].
  apply andb_true_iff in Hx as [Hc Hx]. apply negb_true_iff, bool_decide_eq_false in Hc.
  rewrite decide_False by done. destruct (IH Hx) as (t & ts & ->). eauto.
Qed.

Section keys.
Context (i s : string) (Hi : slash_free i = true) (Hs : slash_free s = true).

(** What comes after [i/searchers/s/]. *)
Definition shard_path (rest : string) : string :=
  i +:+ "/searchers/" +:+ s +:+ "/" +:+ rest.

Lemma split_shard_path rest :
  split_slash (shard_path rest) = i :: "searchers" :: s :: split_slash rest.
Proof.
  unfold shard_path. change ("/searchers/" +:+ ?x) with (String "/" ("searchers" +:+ String "/" x)).
  rewrite split_slash_app by done. f_equal. rewrite split_slash_app by done. f_equal.
  by apply split_slash_app.
Qed.
End keys.

Lemma shard_path_inj i s r i' s' r' :
  slash_free i = true → slash_free s = true → slash_free i' = true → slash_free s' = true →
  shard_path i s r = shard_path i' s' r' → i = i' ∧ s = s' ∧ r = r'.
Proof.
  intros Hi Hs Hi' Hs' Heq. pose proof (f_equal split_slash Heq) as Hsp.
  rewrite !split_shard_path in Hsp by done. simplify_eq. split_and!; try done.
Qed.

Lemma host_key_path i s a : host_key i s a = shard_path i s ("hosts/" +:+ a).
Proof. done. Qed.
Lemma time_key_path i s : time_key i s = shard_path i s "stats/average_response_time".
Proof. done. Qed.

Lemma string_app_assoc (a b c : string) : (a +:+ b) +:+ c = a +:+ (b +:+ c).
Proof.
  induction a as [|ch a IH]; [done|].
  change (String ch ((a +:+ b) +:+ c) = String ch (a +:+ (b +:+ c))). by rewrite IH.
Qed.

(** ** The directory the keys stand for *)

Record directory := Directory {
  dir_hosts : gset (string * string * string);
  dir_times : gmap (string * string) string;
}.

Record dir_rep (v : gmap string string) (D : directory) : Prop := {
  dr_key k w : v !! k = Some w ↔
    (∃ i s a, (i, s, a) ∈ dir_hosts D ∧ k = host_key i s a ∧ w = a) ∨
    (∃ i s, dir_times D !! (i, s) = Some w ∧ k = time_key i s);
  dr_hosts i s a : (i, s, a) ∈ dir_hosts D → slash_free i = true ∧ slash_free s = true;
  dr_times i s : is_Some (dir_times D !! (i, s)) → slash_free i = true ∧ slash_free s = true;
}.

Lemma host_key_inj i s a i' s' a' :
  slash_free i = true → slash_free s = true → slash_free i' = true → slash_free s' = true →
  host_key i s a = host_key i' s' a' → i = i' ∧ s = s' ∧ a = a'.
Proof.
  rewrite !host_key_path. intros ? ? ? ? (-> & -> & Heq)%shard_path_inj; try done.
  split_and!; try done. by apply (inj (String.append "hosts/")) in Heq.
Qed.
Lemma time_key_inj i s i' s' :
  slash_free i = true → slash_free s = true → slash_free i' = true → slash_free s' = true →
  time_key i s = time_key i' s' → i = i' ∧ s = s'.
Proof. rewrite !time_key_path. by intros ? ? ? ? (-> & -> & _)%shard_path_inj. Qed.
Lemma host_time_ne i s a i' s' :
  slash_free i = true → slash_free s = true → slash_free i' = true → slash_free s' = true →
  host_key i s a ≠ time_key i' s'.
Proof. rewrite host_key_path, time_key_path. by intros ? ? ? ? (_ & _ & ?)%shard_path_inj. Qed.

Section directory.
Context (i s : string) (Hi : slash_free i = true) (Hs : slash_free s = true).
Context (v : gmap string string) (D : directory) (Hrep : dir_rep v D).

Lemma dir_add_host a :
  dir_rep (<[host_key i s a := a]> v) (Directory ({[(i, s, a)]} ∪ dir_hosts D) (dir_times D)).
Proof.
  pose proof Hrep as [Hk Hh Ht]. split; simpl; [|set_solver|done].
  intros k w. rewrite lookup_insert. case_decide as E.
  - subst k. split.
    + intros [= <-]. left. exists i, s, a. set_solver.
    + intros [(i' & s' & a' & Hin & Heq & ->)|(i' & s' & Hw & Heq)].
      * assert (slash_free i' = true ∧ slash_free s' = true) as [? ?] by set_solver.
        apply host_key_inj in Heq; naive_solver.
      * destruct (Ht i' s'); [eauto|]. by apply host_time_ne in Heq.
  - rewrite Hk. setoid_rewrite elem_of_union. setoid_rewrite elem_of_singleton. naive_solver.
Qed.

Lemma dir_remove_host a :
  dir_rep (delete (host_key i s a) v) (Directory (dir_hosts D ∖ {[(i, s, a)]}) (dir_times D)).
Proof.
  pose proof Hrep as [Hk Hh Ht]. split; simpl; [|set_solver|done].
  intros k w. rewrite lookup_delete. case_decide as E.
  - subst k. split; [done|]. intros [(i' & s' & a' & [Hin Hne]%elem_of_difference & Heq & ->)|(i' & s' & Hw & Heq)].
    + destruct (Hh i' s' a' Hin). apply host_key_inj in Heq as (-> & -> & ->); try done. set_solver.
    + destruct (Ht i' s'); [eauto|]. by apply host_time_ne in Heq.
  - rewrite Hk. setoid_rewrite elem_of_difference. setoid_rewrite elem_of_singleton. naive_solver.
Qed.

Lemma dir_set_time w :
  dir_rep (<[time_key i s := w]> v) (Directory (dir_hosts D) (<[(i, s) := w]> (dir_times D))).
Proof.
  pose proof Hrep as [Hk Hh Ht]. split; simpl; [|done|].
  - intros k w'. rewrite lookup_insert. case_decide as E.
    + subst k. split.
      * intros [= <-]. right. exists i, s. by rewrite lookup_insert_eq.
      * intros [(i' & s' & a' & Hin & Heq & ->)|(i' & s' & Hw & Heq)].
        { destruct (Hh i' s' a' Hin). symmetry in Heq. by apply host_time_ne in Heq. }
        destruct (decide ((i, s) = (i', s'))) as [[= <- <-]|Hne].
        { rewrite lookup_insert_eq in Hw. naive_solver. }
        rewrite lookup_insert_ne in Hw by done. destruct (Ht i' s'); [eauto|].
        apply time_key_inj in Heq as [-> ->]; done.
    + rewrite Hk. split; (intros [?|(i' & s' & Hw & ->)]; [by left|right]);
        exists i', s'; (split; [|done]).
      * rewrite lookup_insert_ne; [done|]. naive_solver.
      * rewrite lookup_insert_ne in Hw; [done|]. naive_solver.
  - intros i' s'. rewrite lookup_insert. case_decide; [naive_solver|apply Ht].
Qed.

(** The keys under [i/searchers/s/hosts] are that shard's hosts. *)
Lemma dir_host_keys k w :
  v !! k = Some w ∧ has_prefix (i +:+ "/searchers" +:+ "/" +:+ s +:+ "/hosts") k ↔
  k = host_key i s w ∧ (i, s, w) ∈ dir_hosts D.
Proof.
  pose proof Hrep as [Hk Hh Ht].
  assert (∀ r, (i +:+ "/searchers" +:+ "/" +:+ s +:+ "/hosts") +:+ r = shard_path i s ("hosts" +:+ r)) as Hp.
  { intros r. unfold shard_path. by rewrite !string_app_assoc. }
  unfold has_prefix. split.
  - intros [[(i' & s' & a & Hin & -> & ->)|(i' & s' & Hw & ->)]%Hk (r & Heq)]; rewrite Hp in Heq.
    + destruct (Hh i' s' a Hin). rewrite host_key_path in Heq.
      apply shard_path_inj in Heq as (-> & -> & _); done.
    + destruct (Ht i' s'); [eauto|]. rewrite time_key_path in Heq.
      by apply shard_path_inj in Heq as (_ & _ & ?).
  - intros [-> Hin]. split; [apply Hk; left; by exists i, s, w|].
    exists ("/" +:+ w). by rewrite Hp.
Qed.
End directory.

(** The keys under [i/searchers] are those of the index's shards. *)
Lemma dir_index_keys i (v : gmap string string) D k :
  slash_free i = true → dir_rep v D →
  is_Some (v !! k) ∧ has_prefix (i +:+ "/searchers") k ↔
  ∃ s r, is_Some (v !! k) ∧ slash_free s = true ∧ k = shard_path i s r ∧
    ((∃ a, (i, s, a) ∈ dir_hosts D ∧ k = host_key i s a) ∨
     is_Some (dir_times D !! (i, s)) ∧ k = time_key i s).
Proof.
  intros Hi [Hk Hh Ht]. split.
  - intros [[w Hw] [r Hr]]. pose proof Hw as Hkey.
    assert (∀ i' s' r', slash_free i' = true → slash_free s' = true →
      (i +:+ "/searchers") +:+ r = shard_path i' s' r' → i = i') as Hinj.
    { intros i' s' r' Hi' Hs' Heq. apply (f_equal split_slash) in Heq.
      rewrite split_shard_path, string_app_assoc in Heq by done.
      change ("/searchers" +:+ r) with (String "/" ("searchers" +:+ r)) in Heq.
      rewrite split_slash_app in Heq by done. by simplify_eq. }
    apply Hk in Hkey as [(i' & s & a & Hin & E & ->)|(i' & s & Ht' & E)]; rewrite E in Hr.
    + destruct (Hh i' s a Hin). rewrite host_key_path in Hr. symmetry in Hr.
      apply Hinj in Hr as <-; [|done..]. exists s, ("hosts/" +:+ a).
      split_and!; [by eauto|done|done|left; by eauto].
    + destruct (Ht i' s); [eauto|]. rewrite time_key_path in Hr. symmetry in Hr.
      apply Hinj in Hr as <-; [|done..]. eexists s, _.
      split_and!; [by eauto|done|exact E|right; by eauto].
  - intros (s & r & Hv & Hs & -> & _). split; [done|].
    exists ("/" +:+ s +:+ "/" +:+ r). unfold shard_path. by rewrite string_app_assoc.
Qed.

Lemma str_set_spec l :
  StronglySorted str_lt (str_set l) ∧ ∀ x, x ∈ str_set l ↔ x ∈ l.
Proof.
  destruct (foldl_emplace str_lt (λ _, True)) with (s := @nil string) (l := l) as (_ & Hs & Hel).
  - split.
    + intros a _. apply (st_irrefl _ str_lt_strict_total).
    + intros a b c _ _ _. apply (st_trans _ str_lt_strict_total).
    + intros a b c _ _ _ Hab. destruct (st_trichotomy _ str_lt_strict_total a c) as [|[->|Hca]]; auto.
      right. by eapply (st_trans _ str_lt_strict_total).
  - intros. apply (st_trichotomy _ str_lt_strict_total).
  - constructor.
  - by apply Forall_forall.
  - constructor.
  - split; [done|]. intros x. unfold str_set. rewrite Hel. set_solver.
Qed.

(** ** The calls implement the directory *)

Section client_spec.
Context {E : Etcd} {EL : EtcdLaws E} {DT : DoubleText}.
Context (i sh : string) (Hi : slash_free i = true) (Hsh : slash_free sh = true).
Implicit Types s : kv.

Lemma AddElement_runs k w s s' :
  runs (AddElement k w) s () s' → etcd_view s' = <[k := w]> (etcd_view s).
Proof.
  unfold runs, AddElement. destruct (etcd_set s k w) as [s1 []] eqn:E1; intros; simplify_eq.
  by apply etcd_set_spec.
Qed.
Lemma RemoveElement_runs k s s' :
  runs (RemoveElement k) s () s' → etcd_view s' = delete k (etcd_view s).
Proof.
  unfold runs, RemoveElement. destruct (etcd_rm s k) as [s1 []] eqn:E1; intros; simplify_eq.
  by apply etcd_rm_spec.
Qed.

Lemma AddSearcherHost_runs a s s' D :
  dir_rep (etcd_view s) D → runs (AddSearcherHost i sh a) s () s' →
  dir_rep (etcd_view s') (Directory ({[(i, sh, a)]} ∪ dir_hosts D) (dir_times D)).
Proof. intros HD ->%AddElement_runs. by apply dir_add_host. Qed.

Lemma RemoveSearcherHost_runs a s s' D :
  dir_rep (etcd_view s) D → runs (RemoveSearcherHost i sh a) s () s' →
  dir_rep (etcd_view s') (Directory (dir_hosts D ∖ {[(i, sh, a)]}) (dir_times D)).
Proof. intros HD ->%RemoveElement_runs. by apply dir_remove_host. Qed.

Lemma UpdateAverageResponseTime_runs t s s' D :
  dir_rep (etcd_view s) D → runs (UpdateAverageResponseTime i sh t) s () s' →
  dir_rep (etcd_view s') (Directory (dir_hosts D) (<[(i, sh) := to_string_f64 t]> (dir_times D))).
Proof. intros HD ->%AddElement_runs. by apply dir_set_time. Qed.

Lemma ListSearcherHosts_runs s l s' D :
  dir_rep (etcd_view s) D → runs (ListSearcherHosts i (Some sh)) s l s' →
  s' = s ∧ NoDup l ∧ ∀ a, a ∈ l ↔ (i, sh, a) ∈ dir_hosts D.
Proof.
  intros HD. unfold runs, ListSearcherHosts, GetAllValues.
  destruct (etcd_ls _ _) as [kvs|] eqn:Els; [|done]. intros [= <- <-]. split; [done|].
  destruct (etcd_ls_spec _ _ _ Els) as [Hnd Hel].
  assert (∀ k w, (k, w) ∈ kvs ↔ k = host_key i sh w ∧ (i, sh, w) ∈ dir_hosts D) as Hkv.
  { intros k w. rewrite Hel. rewrite <-(dir_host_keys i sh Hi Hsh (etcd_view s) D HD k w).
    by rewrite string_app_assoc. }
  split.
  - apply (NoDup_fmap_key fst); [done|].
    intros [k w] [k' w'] [-> _]%Hkv [-> _]%Hkv. simpl. by intros ->.
  - intros a. rewrite list_elem_of_fmap. split.
    + intros ([k w] & -> & [_ ?]%Hkv). done.
    + intros Ha. exists (host_key i sh a, a). split; [done|]. by apply Hkv.
Qed.

Lemma key_part_path x r : slash_free x = true → key_part 2 (shard_path i x r) = Ok x.
Proof. intros Hx. unfold key_part. by rewrite split_shard_path. Qed.

Lemma mapM_parts (ks : list string) (f : string → string) :
  (∀ k, k ∈ ks → key_part 2 k = Ok (f k)) → mapM (key_part 2) ks = Ok (f <$> ks).
Proof.
  induction ks as [|k ks IH]; intros Hks; [done|]. simpl.
  rewrite Hks by (by left). simpl. rewrite IH by (intros; apply Hks; by right). done.
Qed.

(** A response from etcd is never too short to split, and the shards listed
    are those with a host or a published time. *)
Lemma ListShardIds_runs s ks D :
  dir_rep (etcd_view s) D → etcd_keys s (i +:+ "/searchers") = Some ks →
  ∃ l, runs (ListShardIds i) s l s ∧ StronglySorted str_lt l ∧
    ∀ x, x ∈ l ↔ (∃ a, (i, x, a) ∈ dir_hosts D) ∨ is_Some (dir_times D !! (i, x)).
Proof.
  intros HD Hks. destruct (etcd_keys_spec _ _ _ Hks) as [Hnd Hel].
  set (f := λ k, match split_slash k !! 2 with Some t => t | None => "" end).
  assert (∀ k, k ∈ ks → ∃ x r, k = shard_path i x r ∧ slash_free x = true ∧ f k = x ∧
    ((∃ a, (i, x, a) ∈ dir_hosts D) ∨ is_Some (dir_times D !! (i, x)))) as Hparts.
  { intros k Hk%Hel. apply (dir_index_keys i _ D k Hi HD) in Hk as (x & r & _ & Hx & -> & Hor).
    exists x, r. split_and!; try done; [unfold f; by rewrite split_shard_path|].
    destruct Hor as [(a & ? & _)|[? _]]; eauto. }
  exists (str_set (f <$> ks)). destruct (str_set_spec (f <$> ks)) as [Hsort Hset].
  split_and!; [|done|].
  - unfold runs, ListShardIds, ListAllKeys. rewrite Hks, (mapM_parts ks f); [done|].
    intros k (x & r & -> & Hx & -> & _)%Hparts. by apply key_part_path.
  - intros x. rewrite Hset, list_elem_of_fmap. split.
    + intros (k & -> & (y & r & -> & _ & -> & ?)%Hparts). done.
    + assert (∀ k r, k = shard_path i x r → is_Some (etcd_view s !! k) → slash_free x = true →
        ∃ y, x = f y ∧ y ∈ ks) as Hin.
      { intros k r -> Hv Hx. exists (shard_path i x r). split; [unfold f; by rewrite split_shard_path|].
        apply Hel. split; [done|]. exists ("/" +:+ x +:+ "/" +:+ r). unfold shard_path.
        by rewrite string_app_assoc. }
      destruct HD as [Hk Hh Ht]. intros [[a Ha]|[w Hw]].
      * apply (Hin (host_key i x a) ("hosts/" +:+ a)); [done| |by eapply Hh].
        exists a. apply Hk. left. by exists i, x, a.
      * eapply (Hin (time_key i x)); [done| |by eapply Ht].
        exists w. apply Hk. right. by exists i, x.
Qed.

(** The only key under that of a time is the key itself. *)
Lemma dir_time_keys (v : gmap string string) D k w :
  dir_rep v D → v !! k = Some w ∧ has_prefix (time_key i sh) k ↔
  k = time_key i sh ∧ dir_times D !! (i, sh) = Some w.
Proof.
  intros [Hk Hh Ht]. assert (∀ r, time_key i sh +:+ r = shard_path i sh ("stats/average_response_time" +:+ r)) as Hp.
  { intros r. unfold time_key, shard_path. by rewrite !string_app_assoc. }
  split.
  - intros [[(i' & s' & a & Hin & -> & ->)|(i' & s' & Hw & ->)]%Hk (r & Heq)]; rewrite Hp in Heq.
    + destruct (Hh i' s' a Hin). rewrite host_key_path in Heq. by apply shard_path_inj in Heq as (_ & _ & ?).
    + destruct (Ht i' s'); [eauto|]. rewrite time_key_path in Heq. by apply shard_path_inj in Heq as (-> & -> & _).
  - intros [-> Hw]. split; [apply Hk; right; by exists i, sh|]. exists "". rewrite Hp. by rewrite time_key_path.
Qed.

Lemma GetSearcherAverageResponseTime_runs s kvs D :
  dir_rep (etcd_view s) D → etcd_ls s (time_key i sh) = Some kvs →
  GetSearcherAverageResponseTime i sh s =
    (s, match dir_times D !! (i, sh) with Some w => stod w | None => Ok (S754_zero false) end).
Proof.
  intros HD Hls. destruct (etcd_ls_spec _ _ _ Hls) as [_ Hel].
  unfold GetSearcherAverageResponseTime, GetAllValues, mbind, M_bind. rewrite Hls.
  destruct kvs as [|[k w] kvs]; simpl.
  - destruct (dir_times D !! (i, sh)) as [w|] eqn:Hw; [|done].
    assert ((time_key i sh, w) ∈ @nil (string * string)) as []%elem_of_nil. by apply Hel, (dir_time_keys _ D).
  - assert ((k, w) ∈ (k, w) :: kvs) as [_ ->]%Hel%(dir_time_keys _ D); [by left|done..].
Qed.
End client_spec.

(** ** etcd in memory *)

Definition is_prefix (p k : string) : bool := String.prefix p k.

Lemma is_prefix_spec p k : is_prefix p k = true ↔ has_prefix p k.
Proof.
  unfold is_prefix, has_prefix. revert k. induction p as [|c p IH]; intros k; simpl.
  { split; [by exists k|by destruct k]. }
  destruct k as [|c' k]; [split; [done|by intros [r ?]]|].
  assert (String.prefix (String c p) (String c' k) =
    if Ascii.ascii_dec c c' then String.prefix p k else false) as -> by done.
  destruct (Ascii.ascii_dec c c') as [->|Hne].
  - transitivity (∃ r, k = p +:+ r); [apply IH|]. split; intros [r Hr]; exists r; [by rewrite Hr|].
    change (String c' k = String c' (p +:+ r)) in Hr. by simplify_eq.
  - split; [done|]. intros [r Hr]. change (String c' k = String c (p +:+ r)) in Hr. by simplify_eq.
Qed.

Definition etcd_ref : Etcd := {|
  kv := gmap string string;
  etcd_ls m p := Some (filter (λ e, is_prefix p e.1 = true) (map_to_list m));
  etcd_keys m p := Some (filter (λ k, is_prefix p k = true) (map_to_list m).*1);
  etcd_set m k v := (<[k := v]> m, true);
  etcd_rm m k := (delete k m, bool_decide (is_Some (m !! k)));
|}.

Definition etcd_ref_laws : EtcdLaws etcd_ref.
Proof.
  refine {| etcd_view := λ m : @kv etcd_ref, m |}; simpl.
  - intros m p l [= <-]. split.
    + eapply NoDup_sublist_fmap; [apply sublist_filter|apply NoDup_fst_map_to_list].
    + intros k v. rewrite list_elem_of_filter, elem_of_map_to_list, is_prefix_spec. naive_solver.
  - intros m p l [= <-]. split; [apply NoDup_filter, NoDup_fst_map_to_list|].
    intros k. rewrite list_elem_of_filter, is_prefix_spec, list_elem_of_fmap. split.
    + intros [? ([k' v] & -> & Hin%elem_of_map_to_list)]. eauto.
    + intros [[v Hv] ?]. split; [done|]. exists (k, v). by rewrite elem_of_map_to_list.
  - by intros m k v m' [= <-].
  - by intros m k m' [= <- _].
Defined.
