(* ===== verification/Prometheus.v ===== *)
(** * Metrics (app/include/utils/PrometheusExposer.h)

    The exposer keeps the families it registered by name and finds or makes
    the metric of a set of labels on every access. The metrics themselves
    belong to the prometheus library: [PromLib] lists the calls made,
    [PromLaws] what they do; [prom_ref] keeps the values in a map. *)

From S2P Require Import Prelude Cxx Floats.

Abbreviation labels := (gmap string string).

(** ** The library *)

Class PromLib := {
  reg : Type;
  family : Type;
  family_eq_dec :: EqDecision family;
  (** [BuildCounter()....Register(registry)], [BuildGauge()....] *)
  prom_counter : reg → string → string → reg * family;
  prom_gauge : reg → string → string → reg * family;
  (** [family.Add(labels)] finds or makes a metric; then what is done to it *)
  prom_add : reg → family → labels → reg;
  prom_increment : reg → family → labels → f64 → reg;
  prom_set : reg → family → labels → f64 → reg;
  prom_value : reg → family → labels → f64;
}.

Class PromLaws (P : PromLib) := {
  (** the value of a metric, if it exists *)
  prom_view : reg → family → labels → option f64;
  prom_counter_spec r name help :
    let '(r', f) := prom_counter r name help in
    (∀ l, prom_view r f l = None) ∧ ∀ f' l, prom_view r' f' l = prom_view r f' l;
  prom_gauge_spec r name help :
    let '(r', f) := prom_gauge r name help in
    (∀ l, prom_view r f l = None) ∧ ∀ f' l, prom_view r' f' l = prom_view r f' l;
  prom_add_spec r f l f' l' :
    prom_view (prom_add r f l) f' l' =
    if decide (f = f' ∧ l = l') then Some (default (S754_zero false) (prom_view r f l))
    else prom_view r f' l';
  prom_increment_spec r f l v d f' l' : prom_view r f l = Some v → fpos d →
    prom_view (prom_increment r f l d) f' l' =
    if decide (f = f' ∧ l = l') then Some (f64_add v d) else prom_view r f' l';
  prom_set_spec r f l v d f' l' : prom_view r f l = Some v →
    prom_view (prom_set r f l d) f' l' =
    if decide (f = f' ∧ l = l') then Some d else prom_view r f' l';
  prom_value_spec r f l v : prom_view r f l = Some v → prom_value r f l = v;
}.

(** ** The exposer *)

Record PrometheusExposer (P : PromLib) := Exposer {
  registry : reg;
  counter_families : gmap string family;
  gauge_families : gmap string family;
}.
Arguments Exposer {_} _ _ _.
Arguments registry {_} _.
Arguments counter_families {_} _.
Arguments gauge_families {_} _.

Section exposer.
Context {P : PromLib}.

(** The constructor, with the registry the library makes. *)
Definition PrometheusExposer_new (r : reg) : PrometheusExposer P := Exposer r ∅ ∅.

Definition CreateCounterFamily (r : reg) (name help : string) : reg * family := prom_counter r name help.
Definition CreateGaugeFamily (r : reg) (name help : string) : reg * family := prom_gauge r name help.

Definition AddCounter (name help : string) (l : labels) (x : PrometheusExposer P) :
    PrometheusExposer P :=
  match counter_families x !! name with
  | Some _ => x
  | None =>
    let '(r, f) := CreateCounterFamily (registry x) name help in
    Exposer (prom_add r f l) (<[name := f]> (counter_families x)) (gauge_families x)
  end.

(** [counter_families[name]->Add(labels).Increment(value)] *)
Definition bump_counter (name : string) (value : f64) (l : labels) (x : PrometheusExposer P) :
    option (PrometheusExposer P) :=
  match counter_families x !! name with
  | Some f => Some (Exposer (prom_increment (prom_add (registry x) f l) f l value)
                     (counter_families x) (gauge_families x))
  | None => None
  end.

Definition IncrementCounter (name : string) (value : f64) (l : labels) (x : PrometheusExposer P) :
    PrometheusExposer P :=
  match bump_counter name value l x with
  | Some x => x
  | None => let x := AddCounter name "" l x in default x (bump_counter name value l x)
  end.

Definition GetCounterValue (name : string) (l : labels) (x : PrometheusExposer P) :
    PrometheusExposer P * option f64 :=
  match counter_families x !! name with
  | None => (x, None)
  | Some f =>
    let r := prom_add (registry x) f l in
    (Exposer r (counter_families x) (gauge_families x), Some (prom_value r f l))
  end.

Definition AddGauge (name help : string) (l : labels) (x : PrometheusExposer P) :
    PrometheusExposer P :=
  match gauge_families x !! name with
  | Some _ => x
  | None =>
    let '(r, f) := CreateGaugeFamily (registry x) name help in
    Exposer (prom_add r f l) (counter_families x) (<[name := f]> (gauge_families x))
  end.

Definition put_gauge (name : string) (value : f64) (l : labels) (x : PrometheusExposer P) :
    option (PrometheusExposer P) :=
  match gauge_families x !! name with
  | Some f => Some (Exposer (prom_set (prom_add (registry x) f l) f l value)
                     (counter_families x) (gauge_families x))
  | None => None
  end.

Definition SetGauge (name : string) (value : f64) (l : labels) (x : PrometheusExposer P) :
    PrometheusExposer P :=
  match put_gauge name value l x with
  | Some x => x
  | None => let x := AddGauge name "" l x in default x (put_gauge name value l x)
  end.

Definition GetGaugeValue (name : string) (l : labels) (x : PrometheusExposer P) :
    PrometheusExposer P * option f64 :=
  match gauge_families x !! name with
  | None => (x, None)
  | Some f =>
    let r := prom_add (registry x) f l in
    (Exposer r (counter_families x) (gauge_families x), Some (prom_value r f l))
  end.
End exposer.

(** ** What a gauge reads *)

Section gauges.
Context {P : PromLib} {PL : PromLaws P}.
Implicit Types x : PrometheusExposer P.

(** Every family the exposer holds has a metric, and gauges are told apart. *)
Record exposer_wf x : Prop := {
  ew_live name f : gauge_families x !! name = Some f →
    ∃ l, prom_view (registry x) f l ≠ None;
  ew_inj name name' f : gauge_families x !! name = Some f →
    gauge_families x !! name' = Some f → name = name';
}.

(** The reading of a gauge: none before its family exists, zero for labels
    never set. *)
Definition reading x (name : string) (l : labels) : option f64 :=
  f ← gauge_families x !! name;
  Some (default (S754_zero false) (prom_view (registry x) f l)).

Lemma GetGaugeValue_reading x name l :
  (GetGaugeValue name l x).2 = reading x name l ∧
  ∀ name' l', reading (GetGaugeValue name l x).1 name' l' = reading x name' l'.
Proof.
  unfold GetGaugeValue, reading. destruct (gauge_families x !! name) as [f|] eqn:E; simpl; [|done].
  split.
  - f_equal. apply prom_value_spec. rewrite prom_add_spec. by rewrite decide_True.
  - intros name' l'. destruct (gauge_families x !! name') as [f'|]; simpl; [|done].
    f_equal. rewrite prom_add_spec. case_decide as Hd; [|done]. by destruct Hd as [-> ->].
Qed.

Lemma GetGaugeValue_wf x name l : exposer_wf x → exposer_wf (GetGaugeValue name l x).1.
Proof.
  intros [Hl Hi]. unfold GetGaugeValue. destruct (gauge_families x !! name) as [f|]; [|done].
  split; simpl; [|by apply Hi]. intros name' f' Hf'. destruct (Hl name' f' Hf') as [l' Hl']. exists l'.
  rewrite prom_add_spec. by case_decide.
Qed.

Lemma put_gauge_reading x name v l x' :
  exposer_wf x → put_gauge name v l x = Some x' →
  exposer_wf x' ∧ reading x' name l = Some v ∧
  ∀ name' l', (name', l') ≠ (name, l) → reading x' name' l' = reading x name' l'.
Proof.
  unfold put_gauge. intros [Hl Hi]. destruct (gauge_families x !! name) as [f|] eqn:E; [|done].
  intros [= <-].
  assert (∀ f' l', prom_view (prom_set (prom_add (registry x) f l) f l v) f' l' =
    if decide (f = f' ∧ l = l') then Some v else prom_view (registry x) f' l') as Hv.
  { intros f' l'. erewrite prom_set_spec.
    - case_decide as Hd; [done|]. rewrite prom_add_spec. by rewrite decide_False.
    - rewrite prom_add_spec. by rewrite decide_True. }
  split_and!.
  - split; simpl; [|by apply Hi]. intros name' f' Hf'. destruct (Hl name' f' Hf') as [l' Hl'].
    exists l'. rewrite Hv. by case_decide.
  - unfold reading. simpl. rewrite E. simpl. rewrite Hv. by rewrite decide_True.
  - intros name' l' Hne. unfold reading. simpl.
    destruct (gauge_families x !! name') as [f'|] eqn:E'; simpl; [|done].
    rewrite Hv. case_decide as Hd; [|done]. destruct Hd as [-> ->].
    rewrite (Hi name' name f' E' E) in Hne. done.
Qed.

Lemma AddGauge_reading x name help l :
  exposer_wf x → gauge_families x !! name = None →
  let x' := AddGauge name help l x in
  exposer_wf x' ∧ is_Some (gauge_families x' !! name) ∧
  ∀ name' l', name' ≠ name → reading x' name' l' = reading x name' l'.
Proof.
  intros [Hl Hi] E. unfold AddGauge, CreateGaugeFamily. rewrite E.
  pose proof (prom_gauge_spec (registry x) name help) as Hg.
  destruct (prom_gauge (registry x) name help) as [r f]. destruct Hg as [Hnew Hold].
  assert (∀ name' f', gauge_families x !! name' = Some f' → f' ≠ f) as Hfresh.
  { intros name' f' Hf' ->. destruct (Hl name' f Hf') as [l' Hl']. by apply Hl'. }
  split_and!; simpl.
  - split; simpl.
    + intros name' f'. rewrite lookup_insert. case_decide.
      * intros [= <-]. exists l. rewrite prom_add_spec. by rewrite decide_True.
      * intros Hf'. destruct (Hl name' f' Hf') as [l' Hl']. exists l'.
        rewrite prom_add_spec, !Hold. by case_decide.
    + intros n1 n2 f'. rewrite !lookup_insert. repeat case_decide; subst; try done.
      * intros [= <-] H2. by destruct (Hfresh _ _ H2).
      * intros H1 [= <-]. by destruct (Hfresh _ _ H1).
      * apply Hi.
  - rewrite lookup_insert_eq. eauto.
  - intros name' l' Hne. unfold reading. simpl. rewrite lookup_insert_ne by done.
    destruct (gauge_families x !! name') as [f'|] eqn:E'; simpl; [|done].
    rewrite prom_add_spec, decide_False, Hold; [done|]. intros [-> _]. by destruct (Hfresh _ _ E').
Qed.

(** A gauge reads what was set last; other gauges and labels are untouched,
    except that the family now exists. *)
Lemma SetGauge_reading x name v l :
  exposer_wf x →
  let x' := SetGauge name v l x in
  exposer_wf x' ∧ reading x' name l = Some v ∧
  ∀ name' l', name' ≠ name → reading x' name' l' = reading x name' l'.
Proof.
  intros Hwf. unfold SetGauge. destruct (put_gauge name v l x) as [x1|] eqn:E1; simpl.
  - destruct (put_gauge_reading x name v l x1 Hwf E1) as (? & ? & Hf).
    split_and!; try done. intros. apply Hf. congruence.
  - assert (gauge_families x !! name = None) as En
      by (unfold put_gauge in E1; by destruct (gauge_families x !! name)).
    destruct (AddGauge_reading x name "" l Hwf En) as (Hwf2 & [f Hf] & Hfr2).
    destruct (put_gauge name v l (AddGauge name "" l x)) as [x2|] eqn:E2.
    2:{ unfold put_gauge in E2. by rewrite Hf in E2. }
    destruct (put_gauge_reading _ name v l x2 Hwf2 E2) as (? & ? & Hfr). simpl.
    split_and!; try done. intros. rewrite Hfr by congruence. by apply Hfr2.
Qed.
End gauges.

(** ** The library in memory *)

(** Values by family and labels; a new family is one above those in use. *)
Abbreviation prom_values := (gmap (nat * labels) f64).
Definition prom_fresh (m : prom_values) : nat := S (max_list ((map_to_list m).*1).*1).

Definition prom_ref : PromLib := {|
  reg := prom_values;
  family := nat;
  prom_counter m _ _ := (m, prom_fresh m);
  prom_gauge m _ _ := (m, prom_fresh m);
  prom_add m f l := <[(f, l) := default (S754_zero false) (m !! (f, l))]> m;
  prom_increment m f l d := alter (λ v, f64_add v d) (f, l) m;
  prom_set m f l d := <[(f, l) := d]> m;
  prom_value m f l := default (S754_zero false) (m !! (f, l));
|}.

Lemma prom_fresh_spec (m : prom_values) l : m !! (prom_fresh m, l) = None.
Proof.
  apply eq_None_not_Some. intros [v Hv]. apply elem_of_map_to_list in Hv.
  assert (prom_fresh m ∈ ((map_to_list m).*1).*1) as Hin.
  { apply list_elem_of_fmap. exists (prom_fresh m, l). split; [done|].
    apply list_elem_of_fmap. by exists (prom_fresh m, l, v). }
  apply max_list_elem_of_le in Hin. unfold prom_fresh in Hin at 1. lia.
Qed.

Lemma prom_insert (m : prom_values) f l v f' l' :
  <[(f, l) := v]> m !! (f', l') = if decide (f = f' ∧ l = l') then Some v else m !! (f', l').
Proof. rewrite lookup_insert. repeat case_decide; naive_solver. Qed.

Lemma prom_alter (m : prom_values) f l v d f' l' : m !! (f, l) = Some v →
  alter (λ v, f64_add v d) (f, l) m !! (f', l') =
  if decide (f = f' ∧ l = l') then Some (f64_add v d) else m !! (f', l').
Proof.
  intros Hv. case_decide as Hd.
  - destruct Hd as [<- <-]. by rewrite lookup_alter_eq, Hv.
  - by rewrite lookup_alter_ne by naive_solver.
Qed.

Definition prom_ref_laws : PromLaws prom_ref.
Proof.
  refine {| prom_view := λ (m : @reg prom_ref) (f : @family prom_ref) l, (m : prom_values) !! (f, l) |}.
  - intros r name help. split; [apply prom_fresh_spec|done].
  - intros r name help. split; [apply prom_fresh_spec|done].
  - intros r f l f' l'. apply prom_insert.
  - intros r f l v d f' l' Hv _. by apply prom_alter.
  - intros r f l v d f' l' _. apply prom_insert.
  - intros r f l v Hv. exact (f_equal (default (S754_zero false)) Hv).
Defined.
