(* ===== verification/Counters.v ===== *)
(** * Counters used by several threads (app/include/utils/PrometheusExposer.h)

    [IncrementCounter] is not one critical section: it looks for the family
    under the exposer's mutex, and when there is none it lets go, registers one
    ([AddCounter] takes the mutex and looks again), lets go, and takes the
    mutex a third time to increment. The handlers of a searcher call it without
    a lock of their own. Here threads interleave between these sections:
    [counting] says that no increment is lost, [calls_finish] that none finds
    the family missing. *)

From S2P Require Import Prelude Cxx Floats Prometheus.

(** ** Calls, section by section *)

(** A call of [IncrementCounter], and what it does when it next has the mutex. *)
Record incr := Incr { in_name : string; in_value : f64; in_labels : labels }.
Inductive phase := Looking | Adding | Bumping.

Section counters.
Context {P : PromLib}.
Implicit Types x : PrometheusExposer P.

(** One critical section: the exposer it leaves, and the next phase unless
    the call is done. *)
Definition critical (ph : phase) (c : incr) (x : PrometheusExposer P) :
    outcome (PrometheusExposer P * option phase) :=
  match ph with
  | Looking =>
    match bump_counter (in_name c) (in_value c) (in_labels c) x with
    | Some x' => Ok (x', None)
    | None => Ok (x, Some Adding)
    end
  | Adding => Ok (AddCounter (in_name c) "" (in_labels c) x, Some Bumping)
  | Bumping =>
    match bump_counter (in_name c) (in_value c) (in_labels c) x with
    | Some x' => Ok (x', None)
    | None => Undef NullDeref
    end
  end.

(** The sections of a call that is alone are [IncrementCounter]. *)
Fixpoint sections (n : nat) (ph : phase) (c : incr) x : outcome (PrometheusExposer P) :=
  match n with
  | 0 => Undef NoFuel
  | S n =>
    r ← critical ph c x;
    match r.2 with
    | None => Ok r.1
    | Some ph => sections n ph c r.1
    end
  end.

Lemma AddCounter_family name help l x : is_Some (counter_families (AddCounter name help l x) !! name).
Proof.
  unfold AddCounter. destruct (counter_families x !! name) as [f|] eqn:Hf; [by rewrite Hf|].
  destruct (CreateCounterFamily _ _ _) as [r f]. simpl. rewrite lookup_insert_eq. eauto.
Qed.
Lemma bump_family name v l x :
  is_Some (counter_families x !! name) → is_Some (bump_counter name v l x).
Proof. unfold bump_counter. intros [f ->]. eauto. Qed.

Lemma sections_alone c x :
  sections 3 Looking c x = Ok (IncrementCounter (in_name c) (in_value c) (in_labels c) x).
Proof.
  unfold IncrementCounter. simpl. destruct (bump_counter _ _ _ x) as [x'|]; simpl; [done|].
  destruct (bump_family (in_name c) (in_value c) (in_labels c) _ (AddCounter_family (in_name c) "" (in_labels c) x))
    as [x' ->]. done.
Qed.

(** ** Threads *)

Record mconf := MConf {
  m_exposer : PrometheusExposer P;
  m_calls : gmap nat (incr * phase);
  (** the increments made, in order *)
  m_made : list incr;
}.
Definition m_started x : mconf := MConf x ∅ [].

Inductive m_step (y : mconf) : mconf → Prop :=
  | m_begin t c :
    m_calls y !! t = None → fpos (in_value c) →
    m_step y (MConf (m_exposer y) (<[t := (c, Looking)]> (m_calls y)) (m_made y))
  | m_next t c ph x' ph' :
    m_calls y !! t = Some (c, ph) → critical ph c (m_exposer y) = Ok (x', Some ph') →
    m_step y (MConf x' (<[t := (c, ph')]> (m_calls y)) (m_made y))
  | m_end t c ph x' :
    m_calls y !! t = Some (c, ph) → critical ph c (m_exposer y) = Ok (x', None) →
    m_step y (MConf x' (delete t (m_calls y)) (m_made y ++ [c])).

(** The next section of a thread. *)
Definition m_go (y : mconf) (t : nat) : option mconf :=
  '(c, ph) ← m_calls y !! t;
  match critical ph c (m_exposer y) with
  | Ok (x', Some ph') => Some (MConf x' (<[t := (c, ph')]> (m_calls y)) (m_made y))
  | Ok (x', None) => Some (MConf x' (delete t (m_calls y)) (m_made y ++ [c]))
  | _ => None
  end.
Lemma m_go_step y t y' : m_go y t = Some y' → m_step y y'.
Proof.
  unfold m_go. destruct (m_calls y !! t) as [[c ph]|] eqn:Ht; [|done]. simpl.
  destruct (critical ph c (m_exposer y)) as [[x' [ph'|]]| |] eqn:Hc; try done; intros [= <-];
    [by eapply m_next|by eapply m_end].
Qed.
Fixpoint m_turns (y : mconf) (l : list nat) : option mconf :=
  match l with
  | [] => Some y
  | t :: l => y ← m_go y t; m_turns y l
  end.
Lemma m_turns_steps y l y' : m_turns y l = Some y' → rtc m_step y y'.
Proof.
  revert y. induction l as [|t l IH]; intros y; simpl; [by intros [= <-]|].
  intros (y1 & H1 & H2)%bind_Some. eapply rtc_l; [by eapply m_go_step|by apply IH].
Qed.
End counters.
Arguments mconf : clear implicits.

(** ** Counting *)

Section counting.
Context {P : PromLib} {PL : PromLaws P}.
Implicit Types x : PrometheusExposer P.

(** Every counter family has a metric, and counters are told apart. *)
Record counters_wf x : Prop := {
  cw_live name f : counter_families x !! name = Some f → ∃ l, prom_view (registry x) f l ≠ None;
  cw_inj name name' f : counter_families x !! name = Some f →
    counter_families x !! name' = Some f → name = name';
}.

(** What a counter stands at, zero before it is made. *)
Definition counter_at x (name : string) (l : labels) : f64 :=
  default (S754_zero false) (f ← counter_families x !! name; prom_view (registry x) f l).

Lemma AddCounter_at x name help l :
  counters_wf x → counters_wf (AddCounter name help l x) ∧
  (∀ n, is_Some (counter_families x !! n) → is_Some (counter_families (AddCounter name help l x) !! n)) ∧
  ∀ n l', counter_at (AddCounter name help l x) n l' = counter_at x n l'.
Proof.
  intros Hwf. pose proof Hwf as [Hl Hi]. unfold AddCounter, CreateCounterFamily.
  destruct (counter_families x !! name) eqn:E; [done|].
  pose proof (prom_counter_spec (registry x) name help) as Hg.
  destruct (prom_counter (registry x) name help) as [r f]. destruct Hg as [Hnew Hold].
  assert (∀ n f', counter_families x !! n = Some f' → f' ≠ f) as Hfresh.
  { intros n f' Hf' ->. destruct (Hl n f Hf') as [l' Hl']. by apply Hl'. }
  split_and!.
  - split; simpl.
    + intros n f'. rewrite lookup_insert. case_decide.
      * intros [= <-]. exists l. by rewrite prom_add_spec, decide_True.
      * intros Hf'. destruct (Hl n f' Hf') as [l' Hl']. exists l'. rewrite prom_add_spec, !Hold. by case_decide.
    + intros n1 n2 f'. rewrite !lookup_insert. repeat case_decide; subst; try done.
      * intros [= <-] H2. by destruct (Hfresh _ _ H2).
      * intros H1 [= <-]. by destruct (Hfresh _ _ H1).
      * apply Hi.
  - intros n Hn. simpl. rewrite lookup_insert. case_decide; [by eauto|done].
  - intros n l'. unfold counter_at. simpl. rewrite lookup_insert. case_decide as Hn; [subst n|].
    + rewrite E. simpl. rewrite prom_add_spec, !Hold, !Hnew. by case_decide.
    + destruct (counter_families x !! n) as [f'|] eqn:E'; simpl; [|done].
      rewrite prom_add_spec, decide_False, Hold; [done|]. intros [-> _]. by destruct (Hfresh _ _ E').
Qed.

Lemma bump_at x name v l x' :
  counters_wf x → fpos v → bump_counter name v l x = Some x' →
  counters_wf x' ∧ counter_families x' = counter_families x ∧
  ∀ n l', counter_at x' n l' =
    if decide (name = n ∧ l = l') then f64_add (counter_at x n l') v else counter_at x n l'.
Proof.
  intros [Hl Hi] Hv. unfold bump_counter. destruct (counter_families x !! name) as [f|] eqn:E; [|done].
  intros [= <-].
  assert (∀ f' l', prom_view (prom_increment (prom_add (registry x) f l) f l v) f' l' =
    if decide (f = f' ∧ l = l') then Some (f64_add (default (S754_zero false) (prom_view (registry x) f l)) v)
    else prom_view (registry x) f' l') as Hview.
  { intros f' l'. erewrite prom_increment_spec; [|by rewrite prom_add_spec, decide_True|done].
    case_decide as Hd; [done|]. by rewrite prom_add_spec, decide_False. }
  split_and!; [|done|].
  - split; simpl; [|by apply Hi]. intros n f' Hf'. destruct (Hl n f' Hf') as [l' Hl'].
    exists l'. rewrite Hview. by case_decide.
  - intros n l'. unfold counter_at. simpl. destruct (decide (name = n)) as [<-|Hne].
    + rewrite E. simpl. rewrite Hview. by repeat case_decide; try naive_solver.
    + rewrite decide_False by naive_solver. destruct (counter_families x !! n) as [f'|] eqn:E'; simpl; [|done].
      rewrite Hview, decide_False; [done|]. intros [-> _]. by rewrite (Hi name n f') in Hne.
Qed.

(** What the increments of a counter add up to, one after the other. *)
Definition added (x0 : PrometheusExposer P) (name : string) (l : labels) (made : list incr) : f64 :=
  foldl f64_add (counter_at x0 name l)
    (in_value <$> filter (λ c, in_name c = name ∧ in_labels c = l) made).

Record counting (x0 : PrometheusExposer P) (y : mconf P) : Prop := {
  co_wf : counters_wf (m_exposer y);
  co_pos t c ph : m_calls y !! t = Some (c, ph) → fpos (in_value c);
  co_family t c : m_calls y !! t = Some (c, Bumping) → is_Some (counter_families (m_exposer y) !! in_name c);
  co_made c : c ∈ m_made y → is_Some (counter_families (m_exposer y) !! in_name c);
  co_sum name l : counter_at (m_exposer y) name l = added x0 name l (m_made y);
}.

Lemma added_snoc x0 name l made c :
  added x0 name l (made ++ [c]) =
  if decide (in_name c = name ∧ in_labels c = l) then f64_add (added x0 name l made) (in_value c)
  else added x0 name l made.
Proof.
  unfold added. rewrite filter_app, fmap_app, foldl_app. simpl.
  rewrite filter_cons, filter_nil. by case_decide.
Qed.

(** The increment itself, from whichever section. *)
Lemma counting_bump x0 y t c ph x' :
  counting x0 y → m_calls y !! t = Some (c, ph) →
  bump_counter (in_name c) (in_value c) (in_labels c) (m_exposer y) = Some x' →
  counting x0 (MConf x' (delete t (m_calls y)) (m_made y ++ [c])).
Proof.
  intros [Hwf Hp Hf Hm Hs] Ht Hb. destruct (bump_at _ _ _ _ _ Hwf (Hp _ _ _ Ht) Hb) as (Hwf' & Hfam & Hat).
  split; simpl; [done| | | |].
  - intros t' c' ph' [_ H]%lookup_delete_Some. by eapply Hp.
  - intros t' c' [_ H]%lookup_delete_Some. rewrite Hfam. by eapply Hf.
  - rewrite Hfam. intros c' [Hc'| ->%list_elem_of_singleton]%elem_of_app; [by apply Hm|].
    unfold bump_counter in Hb. destruct (counter_families (m_exposer y) !! in_name c); [eauto|done].
  - intros name l. by rewrite Hat, added_snoc, Hs.
Qed.

Lemma counting_step x0 y y' : counting x0 y → m_step y y' → counting x0 y'.
Proof.
  intros Hy Hst. pose proof Hy as [Hwf Hp Hf Hm Hs]. destruct Hst as [t c Ht Hc|t c ph x' ph' Ht Hc|t c ph x' Ht Hc].
  - split; simpl; [done| | |done|done].
    + intros t' c' ph' [[_ [= <- _]]|[_ H]]%lookup_insert_Some; [done|by eapply Hp].
    + intros t' c' [[_ [=]]|[_ H]]%lookup_insert_Some. by eapply Hf.
  - destruct ph; simpl in Hc; [|injection Hc as <- <-|by case_match].
    + case_match; [done|]. injection Hc as <- <-. split; simpl; [done| | |done|done].
      * intros t' c' ph' [[_ [= <- _]]|[_ H']]%lookup_insert_Some; by eapply Hp.
      * intros t' c' [[_ [=]]|[_ H']]%lookup_insert_Some. by eapply Hf.
    + destruct (AddCounter_at _ (in_name c) "" (in_labels c) Hwf) as (Hwf' & Hkeep & Hat). split; simpl; [done| | | |].
      * intros t' c' ph' [[_ [= <- _]]|[_ H']]%lookup_insert_Some; by eapply Hp.
      * intros t' c' [[_ [= <-]]|[_ H']]%lookup_insert_Some; [apply AddCounter_family|].
        apply Hkeep. by eapply Hf.
      * intros c' Hc'. by apply Hkeep, Hm.
      * intros name l. by rewrite Hat.
  - destruct ph; simpl in Hc; [case_match eqn:Hb; [|done]|done|case_match eqn:Hb; [|done]];
      injection Hc as <-; by eapply counting_bump.
Qed.

Lemma counting_start x : counters_wf x → counting x (m_started x).
Proof. intros Hx. split; simpl; [done|by intros t c ph ?%lookup_empty_Some|by intros t c ?%lookup_empty_Some|by intros c ?%elem_of_nil|done]. Qed.

Lemma counting_steps x y y' : counting x y → rtc m_step y y' → counting x y'.
Proof. intros Hy Hr. induction Hr; eauto using counting_step. Qed.

(** No section finds its family missing. *)
Lemma never_missing x y t c ph :
  counting x y → m_calls y !! t = Some (c, ph) → ∃ r, critical ph c (m_exposer y) = Ok r.
Proof.
  intros [_ _ Hf _ _] Ht. destruct ph; simpl; [case_match; eauto|eauto|].
  destruct (bump_family (in_name c) (in_value c) (in_labels c) _ (Hf t c Ht)) as [x' ->]. eauto.
Qed.

(** So every call finishes, after at most three of them. *)
Lemma call_finishes x y t c ph :
  counting x y → m_calls y !! t = Some (c, ph) →
  ∃ y', rtc m_step y y' ∧ m_calls y' = delete t (m_calls y).
Proof.
  assert (∀ y, counting x y → m_calls y !! t = Some (c, Bumping) →
    ∃ y', m_step y y' ∧ m_calls y' = delete t (m_calls y)) as Hbump.
  { intros y0 [_ _ Hf _ _] Ht. destruct (bump_family (in_name c) (in_value c) (in_labels c) _ (Hf t c Ht)) as [x' Hx'].
    eexists. split; [eapply m_end; [exact Ht|]; simpl; by rewrite Hx'|done]. }
  assert (∀ y, counting x y → m_calls y !! t = Some (c, Adding) →
    ∃ y', rtc m_step y y' ∧ m_calls y' = delete t (m_calls y)) as Hadd.
  { intros y0 Hy Ht. pose proof (m_next y0 t c Adding _ _ Ht eq_refl) as Hst.
    destruct (Hbump _ (counting_step _ _ _ Hy Hst)) as (y' & Hst' & Hd); [apply lookup_insert_eq|].
    exists y'. split; [by eapply rtc_l, rtc_once|]. rewrite Hd. apply delete_insert_eq. }
  intros Hy Ht. destruct ph; [|by apply Hadd|destruct (Hbump y Hy Ht) as (y' & ? & ?); exists y'; by split; [apply rtc_once|]].
  destruct (bump_counter (in_name c) (in_value c) (in_labels c) (m_exposer y)) as [x'|] eqn:Hb.
  - eexists. split; [apply rtc_once; eapply m_end; [exact Ht|]; simpl; by rewrite Hb|done].
  - assert (critical Looking c (m_exposer y) = Ok (m_exposer y, Some Adding)) as Hc by (simpl; by rewrite Hb).
    pose proof (m_next y t c Looking _ _ Ht Hc) as Hst.
    destruct (Hadd _ (counting_step _ _ _ Hy Hst)) as (y' & Hr & Hd); [apply lookup_insert_eq|].
    exists y'. split; [by eapply rtc_l|]. rewrite Hd. apply delete_insert_eq.
Qed.

Lemma calls_finish x y : counting x y → ∃ y', rtc m_step y y' ∧ m_calls y' = ∅.
Proof.
  remember (size (m_calls y)) as n eqn:Hn. revert y Hn. induction n as [|n IH]; intros y Hn Hy.
  { exists y. split; [done|]. by apply map_size_empty_inv. }
  destruct (map_choose (m_calls y)) as (t & [c ph] & Ht); [intros He; by rewrite He, map_size_empty in Hn|].
  destruct (call_finishes x y t c ph Hy Ht) as (y1 & Hr1 & Hd).
  destruct (IH y1) as (y' & Hr & He); [rewrite Hd, map_size_delete_Some by eauto; lia|by eapply counting_steps|].
  exists y'. split; [by etrans|done].
Qed.

(** What reading the counter gives, once its family exists. *)
Lemma GetCounterValue_at x name l :
  is_Some (counter_families x !! name) → (GetCounterValue name l x).2 = Some (counter_at x name l).
Proof.
  intros [f Hf]. unfold GetCounterValue, counter_at. rewrite Hf. simpl. f_equal.
  apply prom_value_spec. by rewrite prom_add_spec, decide_True.
Qed.
End counting.
