(* ===== verification/Gauges.v ===== *)
(** * Gauges beside counters (app/include/utils/PrometheusExposer.h)

    A node keeps counters and gauges in one registry. While every metric is
    made through the exposer no two families are the same, so counting does
    not disturb what a gauge reads, and a gauge that is only ever set to
    counts is read back as one. *)

From S2P Require Import Prelude Cxx Floats Prometheus Counters.

Section gauges.
Context {P : PromLib} {PL : PromLaws P}.
Implicit Types x : PrometheusExposer P.

Record metrics_wf x : Prop := {
  mw_gauges : exposer_wf x;
  mw_counters : counters_wf x;
  mw_apart n n' f : counter_families x !! n = Some f → gauge_families x !! n' ≠ Some f;
}.

Lemma metrics_new r : metrics_wf (PrometheusExposer_new r).
Proof. split; [split|split|]; intros *; simpl; by rewrite lookup_empty. Qed.

(** ** Counting *)

Lemma bump_metrics name v l x x' :
  fpos v → metrics_wf x → bump_counter name v l x = Some x' →
  metrics_wf x' ∧ ∀ n l', reading x' n l' = reading x n l'.
Proof.
  intros Hv [[Gl Gi] Hc Ha] Hb. destruct (bump_at x name v l x' Hc Hv Hb) as (Hc' & Hfam & _).
  unfold bump_counter in Hb. destruct (counter_families x !! name) as [f|] eqn:E; [|done]. injection Hb as <-.
  assert (∀ n f' l', gauge_families x !! n = Some f' →
    prom_view (prom_increment (prom_add (registry x) f l) f l v) f' l' = prom_view (registry x) f' l') as Hview.
  { intros n f' l' Hn. assert (f ≠ f') by (intros ->; by eapply Ha).
    erewrite prom_increment_spec; [|by rewrite prom_add_spec, decide_True|done].
    by rewrite decide_False, prom_add_spec, decide_False by naive_solver. }
  split; [split; [split|done|done]|].
  - intros n f' Hn. destruct (Gl n f' Hn) as [l' Hl']. exists l'. simpl. by rewrite (Hview n).
  - done.
  - intros n l'. unfold reading. simpl. destruct (gauge_families x !! n) as [f'|] eqn:En; [|done].
    simpl. by rewrite (Hview n).
Qed.

Lemma AddCounter_metrics name help l x :
  metrics_wf x → metrics_wf (AddCounter name help l x) ∧
  ∀ n l', reading (AddCounter name help l x) n l' = reading x n l'.
Proof.
  intros Hx. pose proof Hx as [[Gl Gi] Hc Ha]. destruct (AddCounter_at x name help l Hc) as (Hc' & _).
  revert Hc'. unfold AddCounter, CreateCounterFamily. destruct (counter_families x !! name) eqn:E; [done|].
  pose proof (prom_counter_spec (registry x) name help) as Hg.
  destruct (prom_counter (registry x) name help) as [r f]. destruct Hg as [Hnew Hold]. intros Hc'.
  assert (∀ n f', gauge_families x !! n = Some f' → f ≠ f') as Hfresh.
  { intros n f' Hn <-. destruct (Gl n f Hn) as [l' Hl']. by apply Hl'. }
  assert (∀ n f' l', gauge_families x !! n = Some f' →
    prom_view (prom_add r f l) f' l' = prom_view (registry x) f' l') as Hview.
  { intros n f' l' Hn. rewrite prom_add_spec, decide_False, Hold; [done|]. intros [-> _]. by apply (Hfresh n f'). }
  split; [split; [split|done|]|].
  - intros n f' Hn. destruct (Gl n f' Hn) as [l' Hl']. exists l'. simpl. by rewrite (Hview n).
  - done.
  - simpl. intros n n' f' [[_ <-]|[_ Hn]]%lookup_insert_Some; [|by eapply Ha].
    intros Hn'. by apply (Hfresh n' f).
  - intros n l'. unfold reading. simpl. destruct (gauge_families x !! n) as [f'|] eqn:En; [|done].
    simpl. by rewrite (Hview n).
Qed.

Lemma IncrementCounter_metrics name v l x :
  fpos v → metrics_wf x → metrics_wf (IncrementCounter name v l x) ∧
  ∀ n l', reading (IncrementCounter name v l x) n l' = reading x n l'.
Proof.
  intros Hv Hx. unfold IncrementCounter. destruct (bump_counter name v l x) as [x'|] eqn:Hb; [by apply (bump_metrics name v l)|].
  destruct (AddCounter_metrics name "" l x Hx) as [Hx1 Hr1].
  destruct (bump_counter name v l (AddCounter name "" l x)) as [x'|] eqn:Hb'; simpl; [|done].
  destruct (bump_metrics name v l _ x' Hv Hx1 Hb') as [Hx2 Hr2]. split; [done|]. intros n l'. by rewrite Hr2.
Qed.

(** ** Reading and setting *)

Lemma add_metric_counters x f l :
  counters_wf x → counters_wf (Exposer (prom_add (registry x) f l) (counter_families x) (gauge_families x)).
Proof.
  intros [Cl Ci]. split; [|done]. simpl. intros n f' Hn. destruct (Cl n f' Hn) as [l' Hl']. exists l'.
  rewrite prom_add_spec. by case_decide.
Qed.

Lemma GetGaugeValue_metrics name l x :
  metrics_wf x → metrics_wf (GetGaugeValue name l x).1 ∧
  ∀ n l', reading (GetGaugeValue name l x).1 n l' = reading x n l'.
Proof.
  intros Hx. pose proof Hx as [Hg Hc Ha]. split; [|apply GetGaugeValue_reading].
  pose proof (GetGaugeValue_wf x name l Hg) as Hg'. revert Hg'. unfold GetGaugeValue.
  destruct (gauge_families x !! name) as [f|]; [|done]. intros Hg'. split; [done|by apply add_metric_counters|done].
Qed.

Lemma put_gauge_metrics name v l x x' :
  metrics_wf x → put_gauge name v l x = Some x' → metrics_wf x'.
Proof.
  intros [Hg [Cl Ci] Ha] Hp. destruct (put_gauge_reading x name v l x' Hg Hp) as (Hg' & _).
  unfold put_gauge in Hp. destruct (gauge_families x !! name) as [f|] eqn:E; [|done]. injection Hp as <-.
  split; [done|split; [|done]|done]. simpl. intros n f' Hn. destruct (Cl n f' Hn) as [l' Hl']. exists l'.
  erewrite prom_set_spec by (by rewrite prom_add_spec, decide_True).
  case_decide; [done|]. by rewrite prom_add_spec, decide_False.
Qed.

Lemma AddGauge_metrics name help l x :
  metrics_wf x → gauge_families x !! name = None →
  metrics_wf (AddGauge name help l x) ∧ ∀ l', reading (AddGauge name help l x) name l' = Some (S754_zero false).
Proof.
  intros [Hg [Cl Ci] Ha] E. destruct (AddGauge_reading x name help l Hg E) as (Hg' & _). revert Hg'.
  unfold AddGauge, CreateGaugeFamily. rewrite E.
  pose proof (prom_gauge_spec (registry x) name help) as Hnew.
  destruct (prom_gauge (registry x) name help) as [r f]. destruct Hnew as [Hnew Hold]. intros Hg'.
  split; [split; [done|split; [|done]|]|].
  - simpl. intros n f' Hn. destruct (Cl n f' Hn) as [l' Hl']. exists l'. rewrite prom_add_spec, !Hold. by case_decide.
  - intros n n' f' Hn. simpl. intros [[_ <-]|[_ Hn']]%lookup_insert_Some; [|by eapply Ha].
    destruct (Cl n f Hn) as [l' Hl']. by apply Hl'.
  - intros l'. unfold reading. simpl. rewrite lookup_insert_eq. simpl. f_equal.
    rewrite prom_add_spec, !Hold, !Hnew. by case_decide.
Qed.

(** A gauge reads what it was set to last, and labels never set read zero. *)
Lemma SetGauge_metrics name v l x :
  metrics_wf x → metrics_wf (SetGauge name v l x) ∧ reading (SetGauge name v l x) name l = Some v ∧
  ∀ l', l' ≠ l → reading (SetGauge name v l x) name l' = Some (default (S754_zero false) (reading x name l')).
Proof.
  intros Hx. unfold SetGauge. destruct (put_gauge name v l x) as [x1|] eqn:E1; simpl.
  - pose proof (put_gauge_metrics name v l x x1 Hx E1) as Hx1.
    destruct (put_gauge_reading x name v l x1 (mw_gauges _ Hx) E1) as (_ & Hr & Hf).
    split_and!; [done..|]. intros l' Hne. rewrite Hf by congruence.
    unfold put_gauge in E1. unfold reading. by destruct (gauge_families x !! name).
  - assert (gauge_families x !! name = None) as En by (unfold put_gauge in E1; by destruct (gauge_families x !! name)).
    destruct (AddGauge_metrics name "" l x Hx En) as [Hx1 Hz].
    destruct (AddGauge_reading x name "" l (mw_gauges _ Hx) En) as (_ & [f Hf] & _).
    destruct (put_gauge name v l (AddGauge name "" l x)) as [x2|] eqn:E2;
      [|unfold put_gauge in E2; by rewrite Hf in E2]. simpl.
    pose proof (put_gauge_metrics name v l _ x2 Hx1 E2) as Hx2.
    destruct (put_gauge_reading _ name v l x2 (mw_gauges _ Hx1) E2) as (_ & Hr & Hfr).
    split_and!; [done..|]. intros l' Hne. rewrite Hfr, Hz by congruence. unfold reading. by rewrite En.
Qed.

(** ** Counts *)

(** Whatever its labels, the gauge reads a count of at most [n]. *)
Definition tallies (name : string) (n : nat) x : Prop :=
  ∀ l v, reading x name l = Some v → ∃ c, v = f64_of_Z c ∧ (0 ≤ c ≤ Z.of_nat n)%Z.

Lemma tallies_set name n c l x :
  metrics_wf x → tallies name n x → (0 ≤ c ≤ Z.of_nat n)%Z → (Z.of_nat n < 2 ^ 53)%Z →
  tallies name (S n) (SetGauge name (f64_of_Z (u64_add c 1)) l x).
Proof.
  intros Hx Ht Hc Hn. destruct (SetGauge_metrics name (f64_of_Z (u64_add c 1)) l x Hx) as (_ & Hr & Ho).
  intros l' v. destruct (decide (l' = l)) as [->|Hne].
  - rewrite Hr. intros [= <-]. exists (c + 1)%Z. unfold u64_add. rewrite u64_small by (unfold u64_modulus; lia).
    split; [done|lia].
  - rewrite Ho by done. intros [= <-]. destruct (reading x name l') as [v|] eqn:Hv; simpl.
    + destruct (Ht l' v Hv) as (c' & -> & ?). exists c'. split; [done|lia].
    + exists 0%Z. split; [done|lia].
Qed.

Lemma tallies_mono name n n' x : n ≤ n' → tallies name n x → tallies name n' x.
Proof. intros Hn Ht l v (c & -> & ?)%Ht. exists c. split; [done|lia]. Qed.
End gauges.
