(* ===== verification/Coordinator.v ===== *)
(** * The coordinator (app/src/Coordinator.cpp, BaseClient.cpp)

    A search request is sent to the searchers etcd lists for the index, shard
    by shard, and their answers are merged. Per shard the coordinator counts
    responses and errors; a shard with an error on record has the host it
    asks struck off, any other has its average response time published. gRPC
    is a library: [Grpc] is what a call over the network may do. *)

From S2P Require Import Prelude Cxx Floats BinaryIO TopK Merging Stats EtcdClient Prometheus.

(** ** Messages and the network *)

Record SearchRequest := SearchReq {
  vector_data : list f32;
  rq_k : Z;
  rq_index_id : string;
  rq_shard_id : option string;
}.

Class Grpc := {
  net : Type;
  (** [stub_->ProcessSearchRequest] to the server at an address: its response
      when the status is ok, and how long the call took *)
  rpc_search : net → string → SearchRequest → net * (option SearchResponse * f64);
}.

(** ** State *)

Record coordinator `{E : Etcd} `{P : PromLib} `{G : Grpc} := Coord {
  (** index id to shard id to the addresses of its searchers *)
  searchers_map : gmap string (gmap string (list string));
  searchers_stats : gmap string (gmap string (StatsManager num_f64));
  co_etcd : kv;
  co_prom : PrometheusExposer P;
  co_net : net;
}.
Arguments coordinator _ _ _ : clear implicits.
Arguments Coord {_ _ _} _ _ _ _ _.
Arguments searchers_map {_ _ _} _.
Arguments searchers_stats {_ _ _} _.
Arguments co_etcd {_ _ _} _.
Arguments co_prom {_ _ _} _.
Arguments co_net {_ _ _} _.

Section coordinator.
Context `{SL : StdLib} {E : Etcd} {DT : DoubleText} {P : PromLib} {G : Grpc}.
Abbreviation state := (coordinator E P G).
Implicit Types s : state.

Definition set_map (m : gmap string (gmap string (list string))) s : state :=
  Coord m (searchers_stats s) (co_etcd s) (co_prom s) (co_net s).
Definition set_stats (m : gmap string (gmap string (StatsManager num_f64))) s : state :=
  Coord (searchers_map s) m (co_etcd s) (co_prom s) (co_net s).
Definition set_etcd (e : kv) s : state :=
  Coord (searchers_map s) (searchers_stats s) e (co_prom s) (co_net s).
Definition set_prom (p : PrometheusExposer P) s : state :=
  Coord (searchers_map s) (searchers_stats s) (co_etcd s) p (co_net s).
Definition set_net (n : net) s : state :=
  Coord (searchers_map s) (searchers_stats s) (co_etcd s) (co_prom s) n.

Definition on_etcd {A} (m : M kv A) : M state A := zoom co_etcd set_etcd m.
Definition on_prom (f : PrometheusExposer P → PrometheusExposer P) : M state () :=
  modify (λ s, set_prom (f (co_prom s)) s).

(** The constructor lists everything in etcd, for debugging. *)
Definition CoordinatorImpl : M state () := on_etcd DebugPrintEverything.

(** [m[i][s]] and [m[i][s] = v] of a map of maps. *)
Definition get2 {A} (d : A) (i sh : string) (m : gmap string (gmap string A)) : A :=
  default d (default ∅ (m !! i) !! sh).
Definition put2 {A} (i sh : string) (v : A) (m : gmap string (gmap string A)) :
    gmap string (gmap string A) := <[i := <[sh := v]> (default ∅ (m !! i))]> m.

Definition stats_of (i sh : string) s : StatsManager num_f64 :=
  get2 StatsManager_new i sh (searchers_stats s).

(** [BaseClient::getProcessedDocuments], with the time it took. *)
Definition getProcessedDocuments (addr : string) (rq : SearchRequest) :
    M state (option SearchResponse * f64) := λ s,
  let '(n, r) := rpc_search (co_net s) addr rq in (set_net n s, Ok r).

(** ** UpdateSearchersState *)

(** [searchers_stats] gets a manager where [operator[]] would make an equal
    one later. *)
Definition update_shard (index_id shard_id : string) : M state () :=
  hosts ← on_etcd (ListSearcherHosts index_id (Some shard_id));
  modify (λ s, set_map (put2 index_id shard_id hosts (searchers_map s)) s);;
  modify (λ s, match searchers_stats s !! index_id with
               | Some _ => s
               | None => set_stats (put2 index_id shard_id StatsManager_new (searchers_stats s)) s
               end).

Definition UpdateSearchersState (rq : SearchRequest) : M state () :=
  match rq_shard_id rq with
  | Some shard_id => update_shard (rq_index_id rq) shard_id
  | None =>
    shards ← on_etcd (ListShardIds (rq_index_id rq));
    forM shards (update_shard (rq_index_id rq))
  end.

(** ** UpdateStateIfNeeded *)

Definition kRequestsToNextUpdate : Z := 1.
Definition kHostErrorsLimit : Z := 1.

Definition shard_labels (index_id shard_id : string) : labels :=
  <["index_id" := index_id]> (<["shard_id" := shard_id]> ∅).

Definition UpdateStateIfNeeded (index_id shard_id addr : string) (stats : StatsManager num_f64) :
    M state () :=
  if (kHostErrorsLimit <=? GetErrorsCount stats)%Z then
    try_catch (on_etcd (RemoveSearcherHost index_id shard_id addr)) (mret ())
  else if (GetResponsesCount stats `mod` kRequestsToNextUpdate =? 0)%Z then
    let l := shard_labels index_id shard_id in
    on_prom (SetGauge "requests_shard_count" (f64_of_Z (GetResponsesCount stats)) l);;
    on_prom (SetGauge "errors_count" (f64_of_Z (GetErrorsCount stats)) l);;
    on_prom (SetGauge "request_latency_avg" (GetAverageResponseTime stats) l);;
    on_etcd (UpdateAverageResponseTime index_id shard_id (GetAverageResponseTime stats))
  else mret ().

(** ** ProcessSearchRequest *)

(** The end of a scope: the destructor runs whether the body returned or
    threw. *)
Definition finally {A} (m : M state A) (dtor : state → state) : M state A := λ s,
  let '(s, o) := m s in (dtor s, o).

(** An error becomes a mark on the collector; with the response, the collector
    and the time to be recorded. *)
Definition AskSingleSearcher (addr : string) (rq : SearchRequest) (collector : ResponseStatsCollector) :
    M state (option SearchResponse * ResponseStatsCollector * f64) :=
  '(response, took) ← getProcessedDocuments addr rq;
  mret (response, match response with Some _ => collector | None => SetError collector end, took).

(** One iteration of the inner loop. The collector's destructor runs at the
    end of the iteration: [UpdateStateIfNeeded] still sees the statistics
    without this response. *)
Definition ask_searcher (rq : SearchRequest) (index_id shard_id addr : string)
    (search_responses : list SearchResponse) : M state (list SearchResponse) :=
  modify (λ s, set_stats (put2 index_id shard_id (stats_of index_id shard_id s)
                            (searchers_stats s)) s);;
  '(response, collector, took) ← AskSingleSearcher addr rq CreateResponseData;
  finally
    (stats ← gets (stats_of index_id shard_id);
     UpdateStateIfNeeded index_id shard_id addr stats;;
     mret (search_responses ++ option_list response))
    (λ s, set_stats (put2 index_id shard_id
            (destroy_collector (stats_of index_id shard_id s) collector took)
            (searchers_stats s)) s).

Fixpoint ask_hosts (rq : SearchRequest) (index_id shard_id : string) (hosts : list string)
    (acc : list SearchResponse) : M state (list SearchResponse) :=
  match hosts with
  | [] => mret acc
  | addr :: hosts =>
    acc ← ask_searcher rq index_id shard_id addr acc;
    ask_hosts rq index_id shard_id hosts acc
  end.

Fixpoint ask_shards (rq : SearchRequest) (index_id : string)
    (shards : list (string * list string)) (acc : list SearchResponse) :
    M state (list SearchResponse) :=
  match shards with
  | [] => mret acc
  | (shard_id, hosts) :: shards =>
    acc ← ask_hosts rq index_id shard_id hosts acc;
    ask_shards rq index_id shards acc
  end.

Definition ProcessSearchRequest (rq : SearchRequest) : M state SearchResponse :=
  on_prom (IncrementCounter "requests_count" (f64_of_Z 1) ∅);;
  UpdateSearchersState rq;;
  let index_id := rq_index_id rq in
  modify (λ s, set_map (<[index_id := default ∅ (searchers_map s !! index_id)]> (searchers_map s)) s);;
  shards ← gets (λ s, default ∅ (searchers_map s !! index_id));
  search_responses ← ask_shards rq index_id (std_iter shards) [];
  mret (MergeSearcherAnswers search_responses (Z.to_nat (u64 (rq_k rq)))).
End coordinator.

(** ** Polling *)

(** etcd answers. *)
Class EtcdUp (E : Etcd) : Prop := {
  up_ls s p : is_Some (etcd_ls s p);
  up_keys s p : is_Some (etcd_keys s p);
  up_set s k v : (etcd_set s k v).2 = true;
}.

(** Asking hosts one after the other. *)
Fixpoint poll `{G : Grpc} (n : net) (rq : SearchRequest) (hosts : list string) :
    net * list SearchResponse :=
  match hosts with
  | [] => (n, [])
  | addr :: hosts =>
    let '(n, (r, _)) := rpc_search n addr rq in
    let '(n, rs) := poll n rq hosts in (n, option_list r ++ rs)
  end.

Lemma poll_app `{G : Grpc} n rq hs hs' :
  poll n rq (hs ++ hs') =
  let '(n1, rs) := poll n rq hs in let '(n2, rs') := poll n1 rq hs' in (n2, rs ++ rs').
Proof.
  revert n. induction hs as [|a hs IH]; intros n; simpl; [by destruct (poll n rq hs')|].
  destruct (rpc_search n a rq) as [n1 [r d]]. rewrite IH.
  destruct (poll n1 rq hs) as [n2 rs]. destruct (poll n2 rq hs') as [n3 rs']. by rewrite app_assoc.
Qed.

Section polling.
Context `{SL : StdLib} {E : Etcd} {EL : EtcdLaws E} {DT : DoubleText} {P : PromLib} {G : Grpc}.
Context {EU : EtcdUp E}.
Abbreviation state := (coordinator E P G).
Implicit Types s : state.

(** What asking leaves alone. *)
Definition same_hosts s s' : Prop := searchers_map s' = searchers_map s.

Lemma on_etcd_runs {A} (m : M kv A) s a e :
  runs m (co_etcd s) a e → runs (on_etcd m) s a (set_etcd e s).
Proof. apply runs_zoom. Qed.

Lemma AddElement_up k w (e : kv) : ∃ e', runs (AddElement k w) e () e'.
Proof.
  unfold AddElement, runs. pose proof (up_set e k w) as Hup.
  destruct (etcd_set e k w) as [e' ok]. simpl in Hup. subst ok. eauto.
Qed.

Lemma UpdateStateIfNeeded_runs i sh addr stats s :
  ∃ s', runs (UpdateStateIfNeeded i sh addr stats) s () s' ∧ same_hosts s s' ∧
    co_net s' = co_net s ∧ searchers_stats s' = searchers_stats s.
Proof.
  unfold UpdateStateIfNeeded. case_match.
  - unfold try_catch, on_etcd, zoom, RemoveSearcherHost, RemoveElement, runs.
    destruct (etcd_rm _ _) as [e [|]]; eexists; by split_and!.
  - case_match; [|eexists; split; [apply runs_ret|done]].
    destruct (AddElement_up (time_key i sh) (to_string_f64 (GetAverageResponseTime stats)) (co_etcd s))
      as [e He].
    eexists. split.
    + do 3 run_one. apply on_etcd_runs. exact He.
    + done.
Qed.

(** One host: its response, if any, is appended, and it is counted. *)
Lemma ask_searcher_runs rq i sh addr acc s n r d :
  rpc_search (co_net s) addr rq = (n, (r, d)) →
  ∃ s', runs (ask_searcher rq i sh addr acc) s (acc ++ option_list r) s' ∧
    same_hosts s s' ∧ co_net s' = n ∧
    stats_of i sh s' = observe (stats_of i sh s) (d, bool_decide (r = None)).
Proof.
  intros Hrpc. unfold ask_searcher.
  set (s1 := set_stats (put2 i sh (stats_of i sh s) (searchers_stats s)) s).
  assert (stats_of i sh s1 = stats_of i sh s) as Hst.
  { unfold stats_of, s1, get2, put2. simpl. rewrite lookup_insert_eq. simpl.
    by rewrite lookup_insert_eq. }
  set (s2 := set_net n s1).
  destruct (UpdateStateIfNeeded_runs i sh addr (stats_of i sh s2) s2) as (s3 & Hr3 & Hm3 & Hn3 & Hs3).
  eexists. split_and!.
  - run_one. fold s1.
    eapply runs_bind.
    { unfold AskSingleSearcher. eapply runs_bind; [unfold getProcessedDocuments, runs; simpl; by rewrite Hrpc|].
      apply runs_ret. }
    cbv beta iota.
    fold s2. unfold finally, runs, mbind, M_bind, gets. cbv beta iota. by rewrite Hr3.
  - exact Hm3.
  - exact Hn3.
  - unfold stats_of at 1, get2, put2. simpl. rewrite lookup_insert_eq. simpl.
    rewrite lookup_insert_eq. simpl.
    replace (stats_of i sh s3) with (stats_of i sh s); [by destruct r|].
    rewrite <-Hst. unfold stats_of. by rewrite Hs3.
Qed.

Lemma ask_hosts_runs rq i sh hosts acc s :
  ∃ s', runs (ask_hosts rq i sh hosts acc) s (acc ++ (poll (co_net s) rq hosts).2) s' ∧
    same_hosts s s' ∧ co_net s' = (poll (co_net s) rq hosts).1.
Proof.
  revert acc s. induction hosts as [|a hosts IH]; intros acc s.
  { exists s. simpl. rewrite app_nil_r. split_and!; [apply runs_ret|done..]. }
  simpl. destruct (rpc_search (co_net s) a rq) as [n [r d]] eqn:Hrpc.
  destruct (ask_searcher_runs rq i sh a acc s n r d Hrpc) as (s1 & Hr1 & Hm1 & Hn1 & _).
  destruct (IH (acc ++ option_list r) s1) as (s2 & Hr2 & Hm2 & Hn2). rewrite Hn1 in Hr2, Hn2.
  destruct (poll n rq hosts) as [n2 rs]. simpl in *. rewrite <-app_assoc in Hr2.
  exists s2. split_and!; [by eapply runs_bind|unfold same_hosts in *; congruence|done].
Qed.

Lemma ask_shards_runs rq i shards acc s :
  ∃ s', runs (ask_shards rq i shards acc) s (acc ++ (poll (co_net s) rq (shards ≫= snd)).2) s' ∧
    same_hosts s s' ∧ co_net s' = (poll (co_net s) rq (shards ≫= snd)).1.
Proof.
  revert acc s. induction shards as [|[sh hosts] shards IH]; intros acc s.
  { exists s. simpl. rewrite app_nil_r. split_and!; [apply runs_ret|done..]. }
  destruct (ask_hosts_runs rq i sh hosts acc s) as (s1 & Hr1 & Hm1 & Hn1).
  change (((sh, hosts) :: shards) ≫= snd) with (hosts ++ (shards ≫= snd)). rewrite poll_app.
  destruct (poll (co_net s) rq hosts) as [n1 rs1] eqn:E1. simpl in Hn1, Hr1.
  destruct (IH (acc ++ rs1) s1) as (s2 & Hr2 & Hm2 & Hn2). rewrite Hn1 in Hr2, Hn2.
  destruct (poll n1 rq (shards ≫= snd)) as [n2 rs2]. simpl in *. rewrite <-app_assoc in Hr2.
  exists s2. split_and!; [eapply runs_bind; [exact Hr1|exact Hr2]|unfold same_hosts in *; congruence|done].
Qed.

(** ** Refreshing *)

Context (i : string) (Hi : slash_free i = true) (D : directory).

(** The hosts on record for the index. *)
Definition cached s : gmap string (list string) := default ∅ (searchers_map s !! i).
Definition lists (m : gmap string (list string)) (sh : string) : Prop :=
  ∃ hosts, m !! sh = Some hosts ∧ NoDup hosts ∧ ∀ a, a ∈ hosts ↔ (i, sh, a) ∈ dir_hosts D.

Record refreshed (shs : list string) s s' : Prop := {
  rf_lists sh : sh ∈ shs → lists (cached s') sh;
  rf_other sh : sh ∉ shs → cached s' !! sh = cached s !! sh;
  rf_etcd : co_etcd s' = co_etcd s;
  rf_net : co_net s' = co_net s;
}.

Lemma refreshed_nil s : refreshed [] s s.
Proof. split; try done. set_solver. Qed.
Lemma refreshed_trans shs shs' s1 s2 s3 :
  refreshed shs s1 s2 → refreshed shs' s2 s3 → refreshed (shs ++ shs') s1 s3.
Proof.
  intros [L1 O1 E1 N1] [L2 O2 E2 N2]. split; [| |congruence..].
  - intros sh Hsh. destruct (decide (sh ∈ shs')) as [|Hn]; [by apply L2|].
    destruct (L1 sh) as (hosts & Hh & ?); [set_solver|]. exists hosts. by rewrite O2.
  - intros sh Hsh. rewrite O2, O1; set_solver.
Qed.

Lemma update_shard_runs sh s :
  slash_free sh = true → dir_rep (etcd_view (co_etcd s)) D →
  ∃ s', runs (update_shard i sh) s () s' ∧ refreshed [sh] s s'.
Proof.
  intros Hsh HD.
  assert (∃ hosts, runs (ListSearcherHosts i (Some sh)) (co_etcd s) hosts (co_etcd s)) as [hosts Hr].
  { unfold ListSearcherHosts, GetAllValues, runs.
    match goal with |- context [etcd_ls ?a ?b] => destruct (up_ls a b) as [l ->] end. eauto. }
  destruct (ListSearcherHosts_runs i sh Hi Hsh _ _ _ D HD Hr) as (_ & Hnd & Hel).
  eexists. split.
  { unfold update_shard. eapply runs_bind; [by apply on_etcd_runs|].
    run_one. apply runs_modify. }
  set (s1 := set_map _ _).
  assert (cached s1 = <[sh := hosts]> (cached s)) as Hc.
  { unfold cached, s1, put2. simpl. by rewrite lookup_insert_eq. }
  match goal with |- refreshed _ _ ?x => assert (searchers_map x = searchers_map s1 ∧
    co_etcd x = co_etcd s ∧ co_net x = co_net s) as (Hm & He & Hn); [by case_match|] end.
  split; try done.
  - intros sh' ->%list_elem_of_singleton. exists hosts. unfold cached. rewrite Hm.
    fold (cached s1). by rewrite Hc, lookup_insert_eq.
  - intros sh' Hne. unfold cached at 1. rewrite Hm. fold (cached s1).
    rewrite Hc, lookup_insert_ne; set_solver.
Qed.

Lemma update_shards_runs shs s :
  Forall (λ sh, slash_free sh = true) shs → dir_rep (etcd_view (co_etcd s)) D →
  ∃ s', runs (forM shs (update_shard i)) s () s' ∧ refreshed shs s s'.
Proof.
  intros Hshs. revert s. induction Hshs as [|sh shs Hsh _ IH]; intros s HD.
  { exists s. split; [apply runs_ret|apply refreshed_nil]. }
  destruct (update_shard_runs sh s Hsh HD) as (s1 & Hr1 & Hf1).
  destruct (IH s1) as (s2 & Hr2 & Hf2); [by rewrite (rf_etcd _ _ _ Hf1)|].
  exists s2. split; [by eapply runs_bind|]. by apply (refreshed_trans [sh] shs s s1).
Qed.

(** The shards a request refreshes. *)
Definition requested (rq : SearchRequest) (sh : string) : Prop :=
  match rq_shard_id rq with
  | Some sh' => sh = sh'
  | None => (∃ a, (i, sh, a) ∈ dir_hosts D) ∨ is_Some (dir_times D !! (i, sh))
  end.

Lemma UpdateSearchersState_runs rq s :
  rq_index_id rq = i → (∀ sh, rq_shard_id rq = Some sh → slash_free sh = true) →
  dir_rep (etcd_view (co_etcd s)) D →
  ∃ shs s', runs (UpdateSearchersState rq) s () s' ∧ refreshed shs s s' ∧
    ∀ sh, sh ∈ shs ↔ requested rq sh.
Proof.
  intros Hrq Hfree HD. unfold UpdateSearchersState, requested. rewrite Hrq.
  destruct (rq_shard_id rq) as [sh|].
  - destruct (update_shard_runs sh s (Hfree sh eq_refl) HD) as (s1 & Hr1 & Hf1).
    exists [sh], s1. split_and!; [done..|]. set_solver.
  - destruct (up_keys (co_etcd s) (i +:+ "/searchers")) as [ks Hks].
    destruct (ListShardIds_runs i Hi (co_etcd s) ks D HD Hks) as (shs & Hr & _ & Hel).
    destruct (update_shards_runs shs s) as (s2 & Hr2 & Hf2); [|done|].
    { apply Forall_forall. intros sh [[a Ha]|Ht]%Hel; [by eapply (dr_hosts _ _ HD)|].
      by eapply (dr_times _ _ HD). }
    exists shs, s2. split_and!; [|done..]. eapply runs_bind; [|exact Hr2].
    replace s with (set_etcd (co_etcd s) s) at 2 by (by destruct s). by apply on_etcd_runs.
Qed.

(** A request is answered with the merge of what the hosts on record say,
    after the requested shards' records were brought up to date. *)
Lemma ProcessSearchRequest_runs rq s :
  rq_index_id rq = i → (∀ sh, rq_shard_id rq = Some sh → slash_free sh = true) →
  dir_rep (etcd_view (co_etcd s)) D →
  ∃ s' (m : gmap string (list string)),
    runs (ProcessSearchRequest rq) s
      (MergeSearcherAnswers (poll (co_net s) rq (std_iter m ≫= snd)).2
         (Z.to_nat (u64 (rq_k rq)))) s' ∧
    cached s' = m ∧ (∀ sh, requested rq sh → lists m sh) ∧
    (∀ sh, ¬ requested rq sh → m !! sh = cached s !! sh).
Proof.
  intros Hrq Hfree HD.
  set (s1 := set_prom (IncrementCounter "requests_count" (f64_of_Z 1) ∅ (co_prom s)) s).
  destruct (UpdateSearchersState_runs rq s1 Hrq Hfree HD) as (shs & s2 & Hr2 & [Hl Ho He Hn] & Hshs).
  set (s3 := set_map (<[i := default ∅ (searchers_map s2 !! i)]> (searchers_map s2)) s2).
  assert (cached s3 = cached s2) as Hc.
  { unfold cached, s3. simpl. by rewrite lookup_insert_eq. }
  destruct (ask_shards_runs rq i (std_iter (cached s3)) [] s3) as (s4 & Hr4 & Hm4 & Hn4).
  exists s4, (cached s3). split_and!.
  - unfold ProcessSearchRequest. rewrite Hrq. do 5 run_one.
    simpl app. rewrite Hn. apply runs_ret.
  - unfold cached. by rewrite Hm4.
  - intros sh Hsh%Hshs. rewrite Hc. by apply Hl.
  - intros sh Hsh. rewrite Hc. apply Ho. by rewrite Hshs.
Qed.
End polling.
