(* ===== verification/Searcher.v ===== *)
(** * The searcher (app/src/Searcher.cpp)

    A searcher serves some shards of some indexes. It registers them in etcd,
    answers searches from its own indexes, and applies a writer's updates: it
    downloads the segments added and pushes them into the shard's index. The
    indexes of a process share its heap; an index is reached through [shards],
    a map of maps whose [operator[]] makes a null pointer for ids it does not
    have. *)

From S2P Require Import Prelude Cxx Floats BinaryIO StorageClient Faiss TopK IBaseIndex Segment.
From S2P Require Import IIndex Index IndexFactory Merging Stats EtcdClient Prometheus Coordinator.

Record UpdateRequest := UpdateReq {
  up_added : list Z;
  up_deleted : list Z;
  up_index_id : string;
  up_shard_id : string;
}.

(** [std::to_string(size_t)] *)
Definition to_string_u64 (z : Z) : string := pretty (Z.to_N z).

Record searcher `{E : Etcd} `{P : PromLib} `{S : S3} (T : Type) := Sr {
  se_host : string;
  se_port : string;
  se_shards : gmap string (gmap string index_state);
  se_proc : proc T;
  se_etcd : kv;
  se_storage : storage S;
  se_prom : PrometheusExposer P;
}.
Arguments searcher _ _ _ _ : clear implicits.
Arguments Sr {_ _ _ _} _ _ _ _ _ _ _.
Arguments se_host {_ _ _ _} _.
Arguments se_port {_ _ _ _} _.
Arguments se_shards {_ _ _ _} _.
Arguments se_proc {_ _ _ _} _.
Arguments se_etcd {_ _ _ _} _.
Arguments se_storage {_ _ _ _} _.
Arguments se_prom {_ _ _ _} _.

Section searcher.
Context `{SL : StdLib} {E : Etcd} {DT : DoubleText} {P : PromLib} {S3 : S3} {J : Json}.
Context {T : Type} `{B : IBaseIndex T}.
Abbreviation state := (searcher E P S3 T).
Implicit Types s : state.

Definition se_set_shards (m : gmap string (gmap string index_state)) s : state :=
  Sr (se_host s) (se_port s) m (se_proc s) (se_etcd s) (se_storage s) (se_prom s).
Definition se_set_proc (p : proc T) s : state :=
  Sr (se_host s) (se_port s) (se_shards s) p (se_etcd s) (se_storage s) (se_prom s).
Definition se_set_etcd (e : kv) s : state :=
  Sr (se_host s) (se_port s) (se_shards s) (se_proc s) e (se_storage s) (se_prom s).
Definition se_set_storage (x : storage S3) s : state :=
  Sr (se_host s) (se_port s) (se_shards s) (se_proc s) (se_etcd s) x (se_prom s).
Definition se_set_prom (p : PrometheusExposer P) s : state :=
  Sr (se_host s) (se_port s) (se_shards s) (se_proc s) (se_etcd s) (se_storage s) p.

Definition with_etcd {A} (m : M kv A) : M state A := zoom se_etcd se_set_etcd m.
Definition with_storage {A} (m : M (storage S3) A) : M state A := zoom se_storage se_set_storage m.
Definition with_proc {A} (m : M (proc T) A) : M state A := zoom se_proc se_set_proc m.
Definition with_prom (f : PrometheusExposer P → PrometheusExposer P) : M state () :=
  modify (λ s, se_set_prom (f (se_prom s)) s).

(** [shards[index_id][shard_id]->...]; a searcher's indexes have no
    callback, so nothing is logged. *)
Definition on_shard {A} (index_id shard_id : string) (m : M (st T) A) : M state A := λ s,
  match se_shards s !! index_id ≫= λ x, x !! shard_id with
  | None => (s, Undef NullDeref)
  | Some i =>
    let '(s', o) := m (St (se_proc s) i []) in
    (se_set_shards (put2 index_id shard_id (st_idx s') (se_shards s))
       (se_set_proc (st_proc s') s), o)
  end.

(** ** Startup and shutdown *)

Definition address s : string := se_host s +:+ ":" +:+ se_port s.

(** The shards served, in the order the maps are traversed. *)
Definition served s : list (string * string) :=
  p1 ← std_iter (se_shards s); p2 ← std_iter p1.2; [(p1.1, p2.1)].

Definition Init : M state () :=
  l ← gets served; a ← gets address;
  forM l (λ p, with_etcd (AddSearcherHost p.1 p.2 a)).

Definition GracefulShutdown : M state () :=
  l ← gets served; a ← gets address;
  forM l (λ p, with_etcd (RemoveSearcherHost p.1 p.2 a)).

Definition add_shard (item : json) : M state () :=
  index_id ← liftO (string_at item "index_id");
  shard_id ← liftO (string_at item "shard_id");
  i ← with_proc (CreateIndex item);
  modify (λ s, se_set_shards (put2 index_id shard_id i (se_shards s)) s).

(** The constructor, from the state the members are initialised to. *)
Definition SearcherImpl (shards_configs : json) : M state () :=
  forM (json_items shards_configs) add_shard;;
  Init;;
  _ ← with_storage (logIn "user" "password");
  mret ().

(** ** Requests *)

Fixpoint search_shards (index_id : string) (query : list f32) (k : Z) (shs : list string)
    (result : list string) : M state (list string) :=
  match shs with
  | [] => mret result
  | sh :: shs =>
    shard_result ← on_shard index_id sh (search query k);
    search_shards index_id query k shs (result ++ shard_result)
  end.

Definition ProcessSearchRequest (rq : SearchRequest) : M state SearchResponse :=
  with_prom (IncrementCounter "requests_count" (f64_of_Z 1) ∅);;
  let index_id := rq_index_id rq in
  match rq_shard_id rq with
  | Some shard_id => on_shard index_id shard_id (search (vector_data rq) (rq_k rq))
  | None =>
    modify (λ s, se_set_shards (<[index_id := default ∅ (se_shards s !! index_id)]> (se_shards s)) s);;
    shs ← gets (λ s, (std_iter (default ∅ (se_shards s !! index_id))).*1);
    search_shards index_id (vector_data rq) (rq_k rq) shs []
  end.

(** [std::make_shared] of a segment *)
Definition hold (sg : segment T) : M state loc := λ s,
  (se_set_proc (new_seg sg (se_proc s)) s, Ok (fresh (se_proc s))).

(** [std::fopen(name, "r")] and [DeserealizeSegment(fd)]: the segment on the
    heap. The result of [getObject] is not looked at. *)
Definition load_segment (junk : Z) (filename : string) : M state (option loc) :=
  d ← gets (λ s, st_dir (se_storage s));
  sg ← liftO (DeserealizeSegment_file junk d filename);
  match sg with
  | None => mret None
  | Some sg => l ← hold sg; mret (Some l)
  end.

Definition apply_added (junk : Z) (index_id shard_id : string) (added_id : Z) : M state () :=
  let segment_filename := to_string_u64 added_id in
  _ ← with_storage (getObject index_id segment_filename);
  segment ← load_segment junk segment_filename;
  on_shard index_id shard_id (pushSegment segment);;
  with_storage (remove_file segment_filename).

Definition ProcessUpdateRequest (junk : Z) (rq : UpdateRequest) : M state () :=
  let index_id := up_index_id rq in
  let shard_id := up_shard_id rq in
  with_prom (IncrementCounter "updates_count" (f64_of_Z 1) (shard_labels index_id shard_id));;
  forM (up_added rq) (apply_added junk index_id shard_id);;
  forM (up_deleted rq) (λ k, _ ← on_shard index_id shard_id (eraseSegment k); mret ()).
End searcher.
