(* ===== verification/SearcherSpec.v ===== *)
(** * What a searcher serves (app/src/Searcher.cpp)

    Registration: after [Init] etcd lists the searcher for every shard it
    serves, after [GracefulShutdown] for none. Updates: a segment a writer
    serialized and uploaded is searchable in the shard after the update that
    names it, next to what was there before. *)

From S2P Require Import Prelude Cxx Floats BinaryIO StorageClient Faiss TopK IBaseIndex Segment.
From S2P Require Import IIndex Events Storage Index IndexSpec IndexFactory Merging Stats EtcdClient Prometheus.
From S2P Require Import Coordinator Searcher.

(** ** The entries a shard serves *)

Section visible.
Context `{SL : StdLib} {T : Type} `{L : IBaseIndexLaws T}.
Context (V : list f32 → Prop) (sh : shape).
Implicit Types s : st T.

(** [S]: the entries of the segments a search of the index visits. *)
Record visible s (S : list (string * list f32)) : Prop := {
  vi_good l : l ∈ visited s →
    ∃ sg, heap (st_proc s) !! l = Some sg ∧ seg_good V sh sg;
  vi_keys : NoDup S.*1;
  vi_entries e : e ∈ S ↔
    ∃ es, es ∈ entries_at (heap (st_proc s)) <$> visited s ∧ e ∈ es;
}.

(** Two collections agree when no id has two vectors. *)
Definition agree (S S' : list (string * list f32)) : Prop :=
  ∀ e e', e ∈ S → e' ∈ S' → e.1 = e'.1 → e = e'.
Definition union (S S' : list (string * list f32)) : list (string * list f32) :=
  S ++ filter (λ e, e ∉ S) S'.

Lemma elem_of_union_list S S' e : e ∈ union S S' ↔ e ∈ S ∨ e ∈ S'.
Proof.
  unfold union. rewrite elem_of_app, list_elem_of_filter.
  destruct (decide (e ∈ S)); naive_solver.
Qed.

Lemma union_keys S S' : NoDup S.*1 → NoDup S'.*1 → agree S S' → NoDup (union S S').*1.
Proof.
  intros HS HS' Ha. unfold union. rewrite fmap_app. apply NoDup_app. split_and!; [done| |].
  - intros x (e & -> & He)%list_elem_of_fmap (e' & Heq & [Hn He']%list_elem_of_filter)%list_elem_of_fmap.
    by rewrite <-(Ha e e') in Hn.
  - eapply sublist_NoDup; [exact HS'|]. apply fmap_sublist, sublist_filter.
Qed.

(** Pushing a segment makes its entries visible. *)
Lemma pushSegment_visible s S l sg :
  visible s S → heap (st_proc s) !! l = Some sg → seg_good V sh sg →
  (seg_size sg ≤ 2 ^ 62)%Z → agree S (seg_entries sg) →
  ∃ s', runs (pushSegment (Some l)) s () s' ∧ visible s' (union S (seg_entries sg)) ∧
    st_proc s' = st_proc s.
Proof.
  intros [Hg Hk He] Hsg Hgood Hsz Ha.
  destruct (storage_add_spec s l sg Hsg Hsz) as (lvl & lv & row & Hr & _).
  eexists. split_and!.
  - unfold pushSegment. do 2 run_one.
    apply notify_runs.
  - assert (∀ l', l' ∈ segments_ (st_idx s) ++ [l] ++ [last_ (st_idx s)] ↔
      l' = l ∨ l' ∈ visited s) as Hv by (intros l'; unfold visited; set_solver).
    split.
    + intros l' Hl'. unfold visited in Hl'. simpl in Hl'. rewrite <-app_assoc in Hl'.
      apply Hv in Hl' as [->|Hl']; simpl; eauto.
    + apply union_keys; [done| |done]. by apply ib_tidy_nodup, Hgood.
    + intros e. rewrite elem_of_union_list, He. setoid_rewrite list_elem_of_fmap.
      unfold visited at 2. simpl. rewrite <-app_assoc. setoid_rewrite Hv.
      rewrite <-(entries_at_Some _ _ _ Hsg). naive_solver.
  - done.
Qed.

(** A search of the shard selects from what is visible. *)
Lemma visible_search s S q k :
  visible s S → 0 < k → sh_dim sh ≤ length q → sh_exact sh = true →
  (∀ v, V v → not_nan (ib_metric_dist (sh_metric sh) q v)) →
  ∃ es, runs (search q (Z.of_nat k)) s es.*1 s ∧
    is_topk (entry_dist (T:=T) sh q) k S es ∧
    StronglySorted (λ e e', sr_lt (result_of (T:=T) sh q e) (result_of (T:=T) sh q e')) es.
Proof. intros [Hg Hk He]. by apply (search_visited V). Qed.

(** A new index shows nothing. *)
Lemma new_visible dim thr em a p :
  (∀ l, is_Some (heap p !! l) → l < fresh p) → (0 < thr < 2 ^ 31)%Z → dim = args_dim a →
  sh = ib_shape (ib_make a : T) →
  visible (let '(p', ix) := Index dim thr em a p in St p' ix []) [].
Proof.
  intros Ha Hthr Hd Hsh. pose proof (Index_spec V dim thr em a p Ha Hthr Hd) as Hnew.
  destruct (Index dim thr em a p) as [p' ix] eqn:Hidx. destruct Hnew as [Hinv Hcont].
  unfold Index in Hidx. injection Hidx as _ Hix.
  assert (∀ l, l ∈ visited (St p' ix []) → l ∈ owned ix) as Hown by (rewrite <-Hix; unfold visited, owned; set_solver).
  split; [|apply NoDup_nil_2|].
  - intros l Hl%Hown. destruct (c_good _ _ (i_core _ _ _ Hinv) l (or_introl Hl)) as (sg & Hsg & Hgood).
    exists sg. split; [done|]. unfold idx_shape in Hgood. simpl in Hgood. rewrite <-Hix in Hgood. by rewrite Hsh.
  - intros e. split; [by intros ?%elem_of_nil|]. intros (es & (l & -> & Hl%Hown)%list_elem_of_fmap & He).
    rewrite <-Hcont. apply elem_of_contents. by exists l.
Qed.
End visible.

(** ** Updates *)

Section updates.
Context `{SL : StdLib} {E : Etcd} {DT : DoubleText} {P : PromLib} {S3 : S3} {S3L : S3Laws S3}.
Context {T : Type} `{L : IBaseIndexLaws T}.
Context (V : list f32 → Prop) (sh : shape).
Context (i x : string).
Abbreviation state := (searcher E P S3 T).
Implicit Types s : state.

(** The index of shard [x] of index [i] and what it serves. *)
Definition shard_at s : option (st T) :=
  (λ idx, St (se_proc s) idx []) <$> (se_shards s !! i ≫= λ m, m !! x).
Definition serves s (S : list (string * list f32)) : Prop :=
  ∃ ix, shard_at s = Some ix ∧ visible V sh ix S.

Lemma on_shard_runs {A} (m : M (st T) A) s ix a ix' :
  shard_at s = Some ix → runs m ix a ix' →
  ∃ s', runs (on_shard i x m) s a s' ∧
    shard_at s' = Some (St (st_proc ix') (st_idx ix') []) ∧
    se_storage s' = se_storage s ∧ se_etcd s' = se_etcd s ∧ se_proc s' = st_proc ix'.
Proof.
  unfold shard_at, on_shard, runs.
  destruct (se_shards s !! i ≫= λ m, m !! x) as [idx|] eqn:El; [|done]. intros [= <-] Hm.
  rewrite Hm. eexists. split_and!; [done| |done..]. unfold put2. simpl.
  rewrite lookup_insert_eq. simpl. by rewrite lookup_insert_eq.
Qed.

Lemma shard_at_proc s ix : shard_at s = Some ix → st_proc ix = se_proc s.
Proof. unfold shard_at. destruct (se_shards s !! i ≫= _); simpl; [|done]. by intros [= <-]. Qed.

Lemma visible_heap ix ix' S :
  visible V sh ix S → st_idx ix' = st_idx ix →
  (∀ l, l ∈ visited ix → heap (st_proc ix') !! l = heap (st_proc ix) !! l) →
  visible V sh ix' S.
Proof.
  intros [Hg Hk He] Hi Hh.
  assert (visited ix' = visited ix) as Hv by (unfold visited; by rewrite Hi).
  split; [| done|].
  - intros l. rewrite Hv. intros Hl. rewrite Hh by done. by apply Hg.
  - intros e. rewrite He, Hv. setoid_rewrite list_elem_of_fmap.
    split; intros (es & (l & -> & Hl) & Hin); eexists;
      (split; [by exists l|]); unfold entries_at in *; [by rewrite Hh|by rewrite <-Hh].
Qed.

(** The object an update names is the segment [sg] a writer serialized. *)
Definition uploaded s (k : Z) (sg : segment T) : Prop :=
  s3Client (se_storage s) = true ∧
  s3_get (st_objects (se_storage s)) (makeBucketName i) (to_string_u64 k) =
    Some (SerializeSegment [] sg).

(** The heap of the process ends where its next allocation is. *)
Definition allocated s : Prop :=
  ∀ l, is_Some (heap (se_proc s) !! l) → l < fresh (se_proc s).

(** The segments an update names: each can be read back and fits the shard. *)
Definition deliverable s (k : Z) (sg : segment T) : Prop :=
  uploaded s k sg ∧ segment_ok sg ∧ seg_good V sh (received sg) ∧
  (seg_size (received sg) ≤ 2 ^ 62)%Z.

(** No id has two vectors anywhere. *)
Definition consistent (Ss : list (list (string * list f32))) : Prop :=
  ∀ S S', S ∈ Ss → S' ∈ Ss → agree S S'.

Lemma agree_union S S' S'' : agree S S'' → agree S' S'' → agree (union S S') S''.
Proof. intros H1 H2 e e' [He|He]%elem_of_union_list He'; eauto. Qed.
Lemma agree_sym S S' : agree S S' → agree S' S.
Proof. intros Ha e e' He He' Heq. symmetry. by apply Ha. Qed.

Lemma consistent_one S : NoDup S.*1 → consistent [[]; S].
Proof.
  intros Hk S1 S2 H1 H2 e e' He He' Heq.
  assert (∀ R f, R ∈ [[]; S] → f ∈ R → f ∈ S) as Hin
    by (intros R f; rewrite !elem_of_cons, elem_of_nil; intros [->|[->|[]]] Hf; [by apply elem_of_nil in Hf|done]).
  by eapply NoDup_fst_inj; [exact Hk|eapply Hin, He|eapply Hin, He'|].
Qed.

Lemma consistent_union S S' Ss : consistent (S :: S' :: Ss) → consistent (union S S' :: Ss).
Proof.
  intros Hc S1 S2 H1 H2.
  assert (∀ R, R ∈ S :: S' :: Ss → agree (union S S') R) as Hu
    by (intros R HR; apply agree_union; apply Hc; set_solver).
  apply elem_of_cons in H1 as [->|H1]; apply elem_of_cons in H2 as [->|H2].
  - apply agree_sym, agree_union; apply agree_sym, Hu; set_solver.
  - apply Hu. set_solver.
  - apply agree_sym, Hu. set_solver.
  - apply Hc; set_solver.
Qed.

(** A searcher that serves [S] and can be given the segments [sgs] under the
    ids [ks]. *)
Record awaits (S : list (string * list f32)) (ks : list Z) (sgs : list (segment T)) s : Prop := {
  aw_serves : serves s S;
  aw_alloc : allocated s;
  aw_objects : Forall2 (deliverable s) ks sgs;
  aw_consistent : consistent (S :: (seg_entries <$> sgs));
}.

(** Objects are found where they were, and the client stays logged in. *)
Definition same_objects s s' : Prop :=
  st_objects (se_storage s') = st_objects (se_storage s) ∧ s3Client (se_storage s') = s3Client (se_storage s).
Lemma deliverable_objects s s' ks sgs :
  same_objects s s' → Forall2 (deliverable s) ks sgs → Forall2 (deliverable s') ks sgs.
Proof.
  intros [Ho Hc] Hd. eapply Forall2_impl; [exact Hd|]. intros k sg [[Hlog Hget] ?]. split; [|done].
  split; [by rewrite Hc|by rewrite Ho].
Qed.

(** What the searcher awaits does not depend on its files, metrics or etcd. *)
Lemma awaits_files S ks sgs s s' :
  se_proc s' = se_proc s → shard_at s' = shard_at s → same_objects s s' → awaits S ks sgs s → awaits S ks sgs s'.
Proof.
  intros Hp Hs Ho [(ix & Hix & Hv) Ha Hd Hc]. split; [exists ix; by rewrite Hs|unfold allocated; by rewrite Hp| |done].
  by eapply deliverable_objects.
Qed.

Section one_segment.
Context (S : list (string * list f32)) (k : Z) (ks : list Z) (sg : segment T) (sgs : list (segment T)).
Abbreviation name := (to_string_u64 k).

Lemma fetch_at s :
  awaits S (k :: ks) (sg :: sgs) s →
  runs (with_storage (getObject i name)) s true
    (se_set_storage (with_dir (se_storage s) (<[name := SerializeSegment [] sg]> (st_dir (se_storage s)))) s).
Proof.
  intros Hs. pose proof (aw_objects _ _ _ _ Hs) as ([[Hlog Hget] _] & _)%Forall2_cons.
  apply (runs_zoom se_storage se_set_storage). unfold getObject, with_client, runs. by rewrite Hlog, Hget.
Qed.
Lemma fetch_runs s :
  awaits S (k :: ks) (sg :: sgs) s →
  ∃ s', runs (with_storage (getObject i name)) s true s' ∧ awaits S (k :: ks) (sg :: sgs) s' ∧
    st_dir (se_storage s') !! name = Some (SerializeSegment [] sg).
Proof.
  intros Hs. eexists. split_and!; [by apply fetch_at|by eapply awaits_files, Hs|apply lookup_insert_eq].
Qed.

Lemma read_ok junk s d :
  awaits S (k :: ks) (sg :: sgs) s → d !! name = Some (SerializeSegment [] sg) →
  DeserealizeSegment_file junk d name = Ok (Some (received sg)).
Proof.
  intros Hs Hd. pose proof (aw_objects _ _ _ _ Hs) as ((_ & Hok & _) & _)%Forall2_cons.
  unfold DeserealizeSegment_file. rewrite Hd, <-(app_nil_r (SerializeSegment [] sg)).
  by rewrite DeserealizeSegment_Serialize.
Qed.

Lemma hold_runs s :
  awaits S (k :: ks) (sg :: sgs) s →
  ∃ l s', runs (hold (received sg)) s l s' ∧ awaits S (k :: ks) (sg :: sgs) s' ∧
    heap (se_proc s') !! l = Some (received sg).
Proof.
  intros [(ix & Hix & Hv) Ha Hd Hc]. set (l := fresh (se_proc s)).
  exists l, (se_set_proc (new_seg (received sg) (se_proc s)) s). split_and!; [done| |apply lookup_insert_eq].
  unfold shard_at in Hix. split; [|..|done].
  - destruct (se_shards s !! i ≫= λ m, m !! x) as [idx|] eqn:El; [|done]. simplify_eq/=.
    exists (St (new_seg (received sg) (se_proc s)) idx []). unfold shard_at. simpl. rewrite El. split; [done|].
    eapply visible_heap; [done..|]. intros l' Hl'. simpl. apply lookup_insert_ne. intros <-.
    destruct (vi_good _ _ _ _ Hv l Hl') as (sg' & Hsg' & _).
    assert (l < fresh (se_proc s)) by (apply Ha; eauto). lia.
  - intros l'. simpl. rewrite lookup_insert. case_decide as Hl'; [unfold l in *; lia|]. intros Hs%Ha. lia.
  - by eapply deliverable_objects.
Qed.

Lemma push_runs s l :
  awaits S (k :: ks) (sg :: sgs) s → heap (se_proc s) !! l = Some (received sg) →
  ∃ s', runs (on_shard i x (pushSegment (Some l))) s () s' ∧ awaits (union S (seg_entries sg)) ks sgs s' ∧
    same_objects s s'.
Proof.
  intros [(ix & Hix & Hv) Ha Hd Hc] Hl. apply Forall2_cons in Hd as [(_ & _ & Hg & Hsz) Hd].
  assert (seg_entries (received sg) = seg_entries sg) as He by (unfold seg_entries, received; simpl; by apply ib_retype_spec).
  destruct (pushSegment_visible V sh ix S l (received sg) Hv) as (ix' & Hr & Hv' & Hp);
    [by rewrite (shard_at_proc _ _ Hix)|done|done|rewrite He; apply Hc; set_solver|].
  destruct (on_shard_runs _ s ix () ix' Hix Hr) as (s' & Hr' & Hix' & Hst & _ & Hp').
  rewrite He in Hv'. exists s'. split_and!; [done| |by split; rewrite Hst]. split.
  - eexists. split; [exact Hix'|]. by eapply visible_heap.
  - unfold allocated. by rewrite Hp', Hp, (shard_at_proc _ _ Hix).
  - eapply deliverable_objects; [|exact Hd]. by split; rewrite Hst.
  - by apply consistent_union.
Qed.

Lemma apply_added_runs junk s :
  awaits S (k :: ks) (sg :: sgs) s →
  ∃ s', runs (apply_added junk i x k) s () s' ∧ awaits (union S (seg_entries sg)) ks sgs s' ∧
    st_dir (se_storage s') !! name = None ∧ same_objects s s'.
Proof.
  intros Hs. destruct (fetch_runs s Hs) as (s1 & H1 & Hs1 & Hdir).
  pose proof (read_ok junk s1 _ Hs1 Hdir) as Hread. destruct (hold_runs s1 Hs1) as (l & s2 & H2 & Hs2 & Hl).
  destruct (push_runs s2 l Hs2 Hl) as (s3 & H3 & Hs3 & Ho3).
  assert (same_objects s s3) as Ho.
  { pose proof Ho3 as [Ho Hc]. injection H2 as <- _. simpl in Ho, Hc. split; [rewrite Ho|rewrite Hc];
      revert H1; unfold runs, with_storage, zoom, getObject, with_client; destruct (s3Client (se_storage s)) eqn:Hcl; try done;
      destruct (s3_get _ _ _); try done; intros [= <-]; done. }
  eexists. split_and!.
  - unfold apply_added. run_one. eapply (runs_bind _ _ s1 (Some l) s2).
    { unfold load_segment. run_one. eapply runs_bind; [by apply runs_lift|]. cbv beta iota.
      eapply runs_bind; [exact H2|]. apply runs_ret. }
    run_one. apply (runs_zoom se_storage se_set_storage), runs_modify.
  - by eapply awaits_files, Hs3.
  - apply lookup_delete_eq.
  - by destruct Ho.
Qed.
End one_segment.

Lemma apply_all_runs junk ks sgs s S :
  awaits S ks sgs s →
  ∃ s', runs (forM ks (apply_added junk i x)) s () s' ∧
    awaits (foldl union S (seg_entries <$> sgs)) [] [] s' ∧ same_objects s s'.
Proof.
  revert sgs s S. induction ks as [|k ks IH]; intros sgs s S Hs.
  { pose proof Hs as [_ _ ->%Forall2_nil_inv_l _]. exists s. by split_and!; [apply runs_ret|..]. }
  pose proof (aw_objects _ _ _ _ Hs) as (sg & sgs' & _ & _ & ->)%Forall2_cons_inv_l.
  destruct (apply_added_runs S k ks sg sgs' junk s Hs) as (s1 & Hr1 & Hs1 & _ & Ho1 & Hc1).
  destruct (IH sgs' s1 _ Hs1) as (s2 & Hr2 & Hs2 & Ho2 & Hc2).
  exists s2. split_and!; [simpl; by eapply runs_bind|done|split; congruence].
Qed.

(** Removing a segment looks for it and changes nothing. *)
Lemma unload_one k s S ks sgs :
  awaits S ks sgs s →
  ∃ b s', runs (on_shard i x (eraseSegment k)) s b s' ∧ awaits S ks sgs s' ∧ same_objects s s'.
Proof.
  intros [(ix & Hix & Hv) Ha Hd Hc].
  destruct (find_segment_spec ix k (segments_ (st_idx ix)) 0) as (p & Hp & _).
  { intros l Hl. destruct (vi_good _ _ _ _ Hv l) as (sg & -> & _); [|by eauto]. unfold visited. set_solver. }
  destruct (on_shard_runs (eraseSegment k) s ix (match p with None => false | Some _ => true end) ix)
    as (s1 & Hr1 & Hix1 & Hst1 & _ & Hp1); [done| |].
  { unfold eraseSegment. do 2 run_one. apply runs_ret. }
  eexists _, s1. split_and!; [exact Hr1| |by split; rewrite Hst1]. split; [|..|done].
  - eexists. split; [exact Hix1|]. by eapply visible_heap.
  - unfold allocated. by rewrite Hp1, (shard_at_proc _ _ Hix).
  - eapply deliverable_objects; [|exact Hd]. by split; rewrite Hst1.
Qed.

Lemma unload_runs dels s S ks sgs :
  awaits S ks sgs s →
  ∃ s', runs (forM dels (λ k, _ ← on_shard i x (eraseSegment k); mret ())) s () s' ∧ awaits S ks sgs s' ∧
    same_objects s s'.
Proof.
  revert s. induction dels as [|k dels IH]; intros s Hs; [exists s; by split_and!; [apply runs_ret|..]|].
  destruct (unload_one k s S ks sgs Hs) as (b & s1 & Hr1 & Hs1 & Ho1 & Hc1).
  destruct (IH s1 Hs1) as (s2 & Hr2 & Hs2 & Ho2 & Hc2). exists s2. split_and!; [|done|split; congruence].
  simpl. eapply runs_bind; [|exact Hr2]. eapply runs_bind; [exact Hr1|apply runs_ret].
Qed.
End updates.

Lemma elem_of_union_all (Ss : list (list (string * list f32))) S e :
  e ∈ foldl union S Ss ↔ e ∈ S ∨ ∃ S', S' ∈ Ss ∧ e ∈ S'.
Proof.
  revert S. induction Ss as [|S' Ss IH]; intros S; simpl; [set_solver|].
  rewrite IH, elem_of_union_list. set_solver.
Qed.

Section whole_update.
Context `{SL : StdLib} {E : Etcd} {DT : DoubleText} {P : PromLib} {S3 : S3} {S3L : S3Laws S3}.
Context {T : Type} `{L : IBaseIndexLaws T} (V : list f32 → Prop) (sh : shape).
Implicit Types s : searcher E P S3 T.

(** The whole of an update. *)
Lemma update_runs junk rq s S sgs :
  serves V sh (up_index_id rq) (up_shard_id rq) s S → allocated s →
  Forall2 (deliverable V sh (up_index_id rq) s) (up_added rq) sgs →
  consistent (S :: (seg_entries <$> sgs)) →
  ∃ s', runs (ProcessUpdateRequest junk rq) s () s' ∧
    serves V sh (up_index_id rq) (up_shard_id rq) s' (foldl union S (seg_entries <$> sgs)) ∧
    allocated s' ∧ s3Client (se_storage s') = s3Client (se_storage s).
Proof.
  intros Hs Ha Hd Hc.
  set (s0 := se_set_prom (IncrementCounter "updates_count" (f64_of_Z 1)
    (shard_labels (up_index_id rq) (up_shard_id rq)) (se_prom s)) s).
  assert (awaits V sh (up_index_id rq) (up_shard_id rq) S (up_added rq) sgs s0) as Hs0 by done.
  destruct (apply_all_runs V sh (up_index_id rq) (up_shard_id rq) junk (up_added rq) sgs s0 S Hs0) as (s1 & Hr1 & Hs1 & _ & Hc1).
  destruct (unload_runs V sh (up_index_id rq) (up_shard_id rq) (up_deleted rq) s1 _ _ _ Hs1)
    as (s2 & Hr2 & [Hs2 Ha2 _ _] & _ & Hc2).
  exists s2. split_and!; [|done|done|by rewrite Hc2, Hc1].
  unfold ProcessUpdateRequest. eapply (runs_bind _ _ s () s0); [apply runs_modify|]. by eapply runs_bind.
Qed.

(** ** Other shards

    An update of one shard leaves what another serves alone. *)

Definition undisturbed (j y : string) (S : list (string * list f32)) s : Prop :=
  serves V sh j y s S ∧ allocated s.

Section other.
Context (i x j y : string) (S : list (string * list f32)) (Hne : ¬ (j = i ∧ y = x)).

Lemma keeps_on_shard {A} (m : M (st T) A) :
  (∀ p, keeps (λ st, st_proc st = p) m) → keeps (undisturbed j y S) (on_shard i x m).
Proof.
  intros Hm s a s' [(ix & Hix & Hv) Ha]. unfold on_shard, runs.
  destruct (se_shards s !! i ≫= λ m, m !! x) as [idx|] eqn:El; [|done].
  destruct (m (St (se_proc s) idx [])) as [st' o] eqn:Em. intros [= <- ->].
  pose proof (Hm (se_proc s) (St (se_proc s) idx []) a st' eq_refl Em) as Hp. split; [|unfold allocated; simpl; by rewrite Hp].
  exists ix. split; [|done]. rewrite <-Hix. unfold shard_at, put2. simpl. rewrite Hp, lookup_insert.
  case_decide as Hi; [|done]. subst j. simpl. rewrite lookup_insert_ne by naive_solver.
  by destruct (se_shards s !! i).
Qed.

Lemma keeps_storage_add (p : proc T) l : keeps (λ st, st_proc st = p) (storage_add l).
Proof. unfold storage_add. keep. Qed.

Lemma keeps_pushSegment (p : proc T) o : keeps (λ st, st_proc st = p) (pushSegment o).
Proof. unfold pushSegment, notify. pose proof keeps_storage_add. keep. Qed.

Lemma keeps_eraseSegment (p : proc T) k : keeps (λ st, st_proc st = p) (eraseSegment k).
Proof.
  unfold eraseSegment. keep. generalize 0.
  induction a as [|l ls IH]; intros pos; simpl; keep; apply IH.
Qed.

Lemma keeps_hold sg : keeps (undisturbed j y S) (hold sg).
Proof.
  intros s a s' [(ix & Hix & Hv) Ha]. unfold hold, runs. intros [= <- _]. split.
  - unfold shard_at in Hix. destruct (se_shards s !! j ≫= λ m, m !! y) as [idx|] eqn:El; [|done].
    simplify_eq/=. exists (St (new_seg sg (se_proc s)) idx []). unfold shard_at. simpl. rewrite El. split; [done|].
    eapply visible_heap; [done..|]. intros l Hl. simpl. rewrite lookup_insert_ne; [done|]. intros <-.
    destruct (vi_good _ _ _ _ Hv _ Hl) as (sg' & Hsg' & _). simpl in Hsg'.
    assert (fresh (se_proc s) < fresh (se_proc s)); [|lia]. apply Ha. by eauto.
  - intros l. simpl. rewrite lookup_insert. case_decide; [lia|]. intros ?%Ha. lia.
Qed.

Lemma keeps_load junk name : keeps (undisturbed j y S) (load_segment junk name).
Proof. pose proof keeps_hold. unfold load_segment. keep. Qed.
End other.

Lemma keeps_other_update junk rq j y S :
  ¬ (j = up_index_id rq ∧ y = up_shard_id rq) → keeps (undisturbed j y S) (ProcessUpdateRequest junk rq).
Proof.
  intros Hne. pose proof (keeps_load j y S). unfold ProcessUpdateRequest, apply_added, with_prom, with_storage. keep;
    (apply keeps_on_shard; [done|]; intros p); [apply keeps_pushSegment|apply keeps_eraseSegment].
Qed.

(** ** Searches

    Searches leave every shard as it is. *)

Lemma keeps_search (st0 : st T) q k : keeps (λ st, st = st0) (search q k).
Proof.
  assert (∀ ls acc, keeps (λ st, st = st0) (search_segments q k ls acc)) as Hs
    by (induction ls; intros acc; simpl; keep; done).
  unfold search. keep.
Qed.

(** What a searcher has, but for its counters and empty maps. *)
Definition steady s0 s : Prop :=
  se_proc s = se_proc s0 ∧ se_storage s = se_storage s0 ∧ ∀ j y, shard_at j y s = shard_at j y s0.

Lemma keeps_shard_search s0 i x q k : keeps (steady s0) (on_shard i x (search q k)).
Proof.
  intros s a s' (Hp & Hst & Hsh). unfold on_shard, runs.
  destruct (se_shards s !! i ≫= λ m, m !! x) as [idx|] eqn:El; [|done].
  destruct (search q k (St (se_proc s) idx [])) as [st' o] eqn:Em. intros [= <- ->].
  pose proof (keeps_search (St (se_proc s) idx []) q k (St (se_proc s) idx []) a st' eq_refl Em) as ->.
  split_and!; [done..|]. intros j y. rewrite <-Hsh. unfold shard_at, put2. simpl. f_equal.
  rewrite lookup_insert. case_decide as Hi; [subst j|done]. simpl. rewrite lookup_insert.
  case_decide as Hx; [by subst y|]. by destruct (se_shards s !! i).
Qed.

Lemma keeps_searches s0 rq : keeps (steady s0) (ProcessSearchRequest rq).
Proof.
  pose proof (keeps_shard_search s0) as Hone.
  assert (∀ i q k shs acc, keeps (steady s0) (search_shards i q k shs acc)) as Hall
    by (intros i q k; induction shs; intros acc; simpl; keep; done).
  unfold ProcessSearchRequest, with_prom. keep.
  apply keeps_modify. intros s (Hp & Hst & Hsh). split_and!; [done..|]. intros j y. rewrite <-Hsh.
  unfold shard_at. simpl. rewrite lookup_insert. case_decide; [subst j|done].
  by destruct (se_shards s !! rq_index_id rq).
Qed.

Lemma shard_search_runs rq x s S :
  rq_shard_id rq = Some x → serves V sh (rq_index_id rq) x s S →
  (0 < rq_k rq)%Z → sh_dim sh ≤ length (vector_data rq) → sh_exact sh = true →
  (∀ v, V v → not_nan (ib_metric_dist (sh_metric sh) (vector_data rq) v)) →
  ∃ es s', runs (ProcessSearchRequest rq) s es.*1 s' ∧
    is_topk (entry_dist (T:=T) sh (vector_data rq)) (Z.to_nat (rq_k rq)) S es ∧
    StronglySorted (λ e e', sr_lt (result_of (T:=T) sh (vector_data rq) e)
      (result_of (T:=T) sh (vector_data rq) e')) es ∧
    serves V sh (rq_index_id rq) x s' S.
Proof.
  intros Hx (ix & Hix & Hv) Hk Hq Hex Hnan.
  set (s0 := se_set_prom (IncrementCounter "requests_count" (f64_of_Z 1) ∅ (se_prom s)) s).
  destruct (visible_search V sh ix S (vector_data rq) (Z.to_nat (rq_k rq)) Hv) as (es & Hr & Ht & Ho);
    [lia|done|done|exact Hnan|]. rewrite Z2Nat.id in Hr by lia.
  destruct (on_shard_runs (rq_index_id rq) x _ s0 ix es.*1 ix Hix Hr) as (s' & Hr' & Hix' & _).
  exists es, s'. split_and!; [|done|done|].
  - unfold ProcessSearchRequest. eapply (runs_bind _ _ s () s0); [apply runs_modify|].
    rewrite Hx. exact Hr'.
  - exists (St (st_proc ix) (st_idx ix) []). split; [done|]. by eapply visible_heap.
Qed.
End whole_update.

(** ** Registration *)

(** etcd removes a key it has. *)
Class EtcdRemoves (E : Etcd) {EL : EtcdLaws E} : Prop :=
  up_rm s k : is_Some (etcd_view s !! k) → (etcd_rm s k).2 = true.

Section registration.
Context `{SL : StdLib} {E : Etcd} {EL : EtcdLaws E} {DT : DoubleText} {P : PromLib} {S3 : S3}.
Context {T : Type} `{B : IBaseIndex T}.
Abbreviation state := (searcher E P S3 T).
Implicit Types s : state.

Definition entries_of (a : string) (l : list (string * string)) : gset (string * string * string) :=
  list_to_set ((λ p, (p.1, p.2, a)) <$> l).
Definition plain (l : list (string * string)) : Prop :=
  Forall (λ p, slash_free p.1 = true ∧ slash_free p.2 = true) l.

Lemma elem_of_listing a l i x h : (i, x, h) ∈ entries_of a l ↔ h = a ∧ (i, x) ∈ l.
Proof.
  unfold entries_of. rewrite elem_of_list_to_set, list_elem_of_fmap.
  split; [intros ([i' x'] & Heq & Hin); simpl in Heq; by simplify_eq|].
  intros [-> Hin]. by exists (i, x).
Qed.

Lemma with_etcd_runs {A} (m : M kv A) s a s' :
  runs (with_etcd m) s a s' → runs m (se_etcd s) a (se_etcd s') ∧ se_shards s' = se_shards s.
Proof.
  unfold runs, with_etcd, zoom. destruct (m (se_etcd s)) as [e o]. intros [= <- ->]. done.
Qed.

Lemma register_runs a l s s' D :
  plain l → dir_rep (etcd_view (se_etcd s)) D →
  runs (forM l (λ p, with_etcd (AddSearcherHost p.1 p.2 a))) s () s' →
  dir_rep (etcd_view (se_etcd s')) (Directory (entries_of a l ∪ dir_hosts D) (dir_times D)).
Proof.
  intros Hl. revert s D. induction Hl as [|p l [Hi Hs] _ IH]; intros s D HD Hr; simpl in Hr.
  { destruct (runs_det _ _ _ _ _ _ Hr (runs_ret () s)) as [_ ->].
    unfold entries_of. simpl. rewrite union_empty_l_L. by destruct D. }
  apply runs_bind_inv in Hr as ([] & s1 & H1 & H2). apply with_etcd_runs in H1 as [H1 _].
  apply (AddSearcherHost_runs p.1 p.2 Hi Hs a _ _ D HD) in H1. apply (IH _ _ H1) in H2. simpl in H2.
  replace (entries_of a (p :: l) ∪ dir_hosts D)
    with (entries_of a l ∪ ({[(p.1, p.2, a)]} ∪ dir_hosts D)); [done|].
  unfold entries_of. rewrite fmap_cons, list_to_set_cons. set_solver.
Qed.

Lemma unregister_runs a l s s' D :
  plain l → dir_rep (etcd_view (se_etcd s)) D →
  runs (forM l (λ p, with_etcd (RemoveSearcherHost p.1 p.2 a))) s () s' →
  dir_rep (etcd_view (se_etcd s')) (Directory (dir_hosts D ∖ entries_of a l) (dir_times D)).
Proof.
  intros Hl. revert s D. induction Hl as [|p l [Hi Hs] _ IH]; intros s D HD Hr; simpl in Hr.
  { destruct (runs_det _ _ _ _ _ _ Hr (runs_ret () s)) as [_ ->].
    unfold entries_of. simpl. rewrite difference_empty_L. by destruct D. }
  apply runs_bind_inv in Hr as ([] & s1 & H1 & H2). apply with_etcd_runs in H1 as [H1 _].
  apply (RemoveSearcherHost_runs p.1 p.2 Hi Hs a _ _ D HD) in H1. apply (IH _ _ H1) in H2. simpl in H2.
  replace (dir_hosts D ∖ entries_of a (p :: l))
    with (dir_hosts D ∖ {[(p.1, p.2, a)]} ∖ entries_of a l); [done|].
  unfold entries_of. rewrite fmap_cons, list_to_set_cons. set_solver.
Qed.

(** Registering changes nothing but etcd. *)
Lemma registering_frame (f : string * string → M kv ()) l s s' :
  runs (forM l (λ p, with_etcd (f p))) s () s' → ∃ e, s' = se_set_etcd e s.
Proof.
  revert s. induction l as [|p l IH]; intros s Hr; simpl in Hr.
  { destruct (runs_det _ _ _ _ _ _ Hr (runs_ret () s)) as [_ ->]. exists (se_etcd s). by destruct s. }
  apply runs_bind_inv in Hr as ([] & s1 & H1 & H2). destruct (IH _ H2) as [e ->].
  unfold runs, with_etcd, zoom in H1. destruct (f p (se_etcd s)) as [e1 o]. injection H1 as <- _. by exists e.
Qed.

(** Both loops return when etcd answers. *)
Lemma register_returns {EU : EtcdUp E} a l s :
  ∃ s', runs (forM l (λ p, with_etcd (AddSearcherHost p.1 p.2 a))) s () s'.
Proof.
  destruct (runs_forM (λ _ _, True) (λ p, with_etcd (E:=E) (P:=P) (S3:=S3) (T:=T)
    (AddSearcherHost p.1 p.2 a)) l s I) as (s' & Hr & _); [|by exists s'].
  intros p l' s0 _. destruct (AddElement_up (host_key p.1 p.2 a) a (se_etcd s0)) as [e He].
  exists (se_set_etcd e s0). split; [|done]. by apply (runs_zoom se_etcd se_set_etcd).
Qed.

Lemma unregister_returns {ER : EtcdRemoves E} a l s D :
  plain l → NoDup l → dir_rep (etcd_view (se_etcd s)) D →
  (∀ p, p ∈ l → (p.1, p.2, a) ∈ dir_hosts D) →
  ∃ s', runs (forM l (λ p, with_etcd (RemoveSearcherHost p.1 p.2 a))) s () s'.
Proof.
  intros Hl. revert s D. induction Hl as [|p l [Hi Hs] Hl IH]; intros s D Hnd HD Hin.
  { exists s. apply runs_ret. }
  apply NoDup_cons in Hnd as [Hp Hnd].
  destruct (etcd_rm (se_etcd s) (host_key p.1 p.2 a)) as [e ok] eqn:Ee.
  assert (ok = true) as ->.
  { pose proof (up_rm (se_etcd s) (host_key p.1 p.2 a)) as H. rewrite Ee in H. apply H.
    exists a. apply (dr_key _ _ HD). left. exists p.1, p.2, a. split; [|done]. apply Hin. by left. }
  assert (runs (RemoveSearcherHost p.1 p.2 a) (se_etcd s) () e) as Hr
    by (unfold runs, RemoveSearcherHost, RemoveElement; by rewrite Ee).
  destruct (IH (se_set_etcd e s) _ Hnd (RemoveSearcherHost_runs p.1 p.2 Hi Hs a _ _ D HD Hr)) as [s' Hr'].
  { intros p' Hp'. simpl. apply elem_of_difference. split; [apply Hin; by right|].
    rewrite elem_of_singleton. intros [= H1 H2]. apply Hp. by rewrite (injective_projections _ _ H1 H2) in Hp'. }
  exists s'. simpl. eapply runs_bind; [|exact Hr']. by apply (runs_zoom se_etcd se_set_etcd).
Qed.

Lemma NoDup_served s : NoDup (served s).
Proof.
  unfold served. apply NoDup_bind.
  - intros [i1 m1] [i2 m2] q H1 H2 (p1 & Hq1 & _)%list_elem_of_bind (p2 & Hq2 & _)%list_elem_of_bind.
    apply list_elem_of_singleton in Hq1, Hq2. simpl in *. assert (i1 = i2) as -> by congruence.
    apply elem_of_std_iter in H1, H2. congruence.
  - intros [i m] _. simpl. apply NoDup_bind.
    + intros [x1 ix1] [x2 ix2] q H1 H2 Hq1%list_elem_of_singleton Hq2%list_elem_of_singleton.
      simpl in *. assert (x1 = x2) as -> by congruence. apply elem_of_std_iter in H1, H2. congruence.
    + intros [x ix] _. apply NoDup_singleton.
    + apply NoDup_std_iter.
  - apply NoDup_std_iter.
Qed.

Lemma elem_of_served s i x :
  (i, x) ∈ served s ↔ is_Some (se_shards s !! i ≫= λ m, m !! x).
Proof.
  unfold served. rewrite list_elem_of_bind. split.
  - intros ([i' m] & Hin & Hm%elem_of_std_iter). apply list_elem_of_bind in Hin as ([x' ix] & Hin & Hx).
    apply list_elem_of_singleton in Hin as [= -> ->]. apply elem_of_std_iter in Hx. simpl in *.
    rewrite Hm. simpl. eauto.
  - intros [ix Hix]. apply bind_Some in Hix as (m & Hm & Hx). exists (i, m). split.
    + apply list_elem_of_bind. exists (x, ix). split; [by left|]. by apply elem_of_std_iter.
    + by apply elem_of_std_iter.
Qed.
End registration.

(** ** Startup *)

Section startup.
Context `{SL : StdLib} {E : Etcd} {EL : EtcdLaws E} {DT : DoubleText} {P : PromLib} {S3 : S3} {S3L : S3Laws S3}
  {J : Json} {T : Type} `{L : IBaseIndexLaws T} (V : list f32 → Prop).
Implicit Types s : searcher E P S3 T.

(** What a document describes: the shard, and the index to make for it. *)
Record describes (it : json) (p : string * string * request) : Prop := {
  ds_index : string_at it "index_id" = Ok p.1.1;
  ds_shard : string_at it "shard_id" = Ok p.1.2;
  ds_request : parse_index it = Ok p.2;
  ds_threshold : (0 < rq_threshold p.2 < 2 ^ 31)%Z;
}.

Definition shape_of (r : request) : shape := ib_shape (ib_make (rq_args r) : T).

(** The searcher has the shards [ps], all empty, and those it had. *)
Record opened (ps : list (string * string * request)) s s' : Prop := {
  op_new i x r : (i, x, r) ∈ ps → undisturbed V (shape_of r) i x [] s';
  op_old sh j y S : (j, y) ∉ ps.*1 → undisturbed V sh j y S s → undisturbed V sh j y S s';
  op_shards j y : is_Some (shard_at j y s') ↔ (j, y) ∈ ps.*1 ∨ is_Some (shard_at j y s);
  op_alloc : allocated s';
  op_etcd : se_etcd s' = se_etcd s;
  op_storage : se_storage s' = se_storage s;
  op_address : address s' = address s;
}.

Lemma put_shard i x idx (p : proc T) s j y :
  shard_at j y (se_set_shards (put2 i x idx (se_shards s)) (se_set_proc p s)) =
  (λ k, St p k []) <$> (if decide (j = i ∧ y = x) then Some idx else se_shards s !! j ≫= λ m, m !! y).
Proof.
  unfold shard_at, put2. simpl. f_equal. rewrite lookup_insert. case_decide as Hi; [subst j|by rewrite decide_False by naive_solver].
  simpl. rewrite lookup_insert. case_decide as Hx; [subst y; by rewrite decide_True|]. rewrite decide_False by naive_solver.
  by destruct (se_shards s !! i).
Qed.

Lemma add_shard_runs it p s :
  describes it p → allocated s → ∃ s', runs (add_shard it) s () s' ∧ opened [p] s s'.
Proof.
  destruct p as [[i x] r]. intros [Hi Hx Hr Hthr] Ha. simpl in *.
  pose proof (Index_spec V (rq_dim r) (rq_threshold r) (rq_merge r) (rq_args r) (se_proc s) Ha Hthr
    (parse_index_dim it r Hr)) as Hnew.
  pose proof (new_visible V (shape_of r) (rq_dim r) (rq_threshold r) (rq_merge r) (rq_args r) (se_proc s) Ha Hthr
    (parse_index_dim it r Hr) eq_refl) as Hvis.
  destruct (Index (rq_dim r) (rq_threshold r) (rq_merge r) (rq_args r) (se_proc s)) as [p idx] eqn:Hidx.
  destruct Hnew as [Hinv _]. unfold Index in Hidx. injection Hidx as Hp Hix.
  exists (se_set_shards (put2 i x idx (se_shards s)) (se_set_proc p s)). split.
  { unfold add_shard. do 2 run_one. eapply (runs_bind _ _ s idx (se_set_proc p s)); [|exact eq_refl].
    apply (runs_zoom se_proc se_set_proc). unfold CreateIndex, runs, Index. by rewrite Hr, Hp, Hix. }
  pose proof (c_alloc _ _ (i_core _ _ _ Hinv)) as Halloc.
  assert (∀ l, is_Some (heap (se_proc s) !! l) → heap p !! l = heap (se_proc s) !! l) as Hheap.
  { intros l Hl%Ha. rewrite <-Hp. simpl. by rewrite lookup_insert_ne by lia. }
  split; try done.
  - intros i' x' r' [= -> -> ->]%list_elem_of_singleton. split; [|exact Halloc].
    exists (St p idx []). split; [by rewrite put_shard, decide_True|].
    exact Hvis.
  - intros sh j y S Hne [(ix & Hix' & Hv) _]. split; [|exact Halloc]. unfold shard_at in Hix'.
    destruct (se_shards s !! j ≫= λ m, m !! y) as [idx0|] eqn:El; [|done]. injection Hix' as <-.
    exists (St p idx0 []). split; [rewrite put_shard, decide_False, El; [done|by intros [-> ->]; apply Hne; left]|].
    eapply visible_heap; [done..|]. intros l Hl. apply Hheap.
    destruct (vi_good _ _ _ _ Hv l Hl) as (sg & Hsg & _). by eauto.
  - intros j y. rewrite put_shard. unfold shard_at. rewrite !fmap_is_Some. simpl. rewrite list_elem_of_singleton.
    case_decide as Hd; [destruct Hd as [-> ->]; by split; [left|]|]. split; [by right|].
    intros [[= -> ->]|?]; [by destruct Hd|done].
Qed.

Lemma opened_nil s : allocated s → opened [] s s.
Proof. intros Ha. split; try done; [by intros i x r ?%elem_of_nil|]. intros j y. simpl. rewrite elem_of_nil. tauto. Qed.

Lemma opened_cons p ps s s1 s2 :
  p.1 ∉ ps.*1 → opened [p] s s1 → opened ps s1 s2 → opened (p :: ps) s s2.
Proof.
  intros Hp [N1 O1 S1 A1 E1 T1 D1] [N2 O2 S2 A2 E2 T2 D2]. split; [..|done|congruence|congruence|congruence].
  - intros i x r [<-|Hin]%elem_of_cons; [apply O2; [done|]; apply N1; by left|by apply N2].
  - intros sh j y S Hn Hu. simpl in Hn. apply not_elem_of_cons in Hn as [Hne Hn].
    apply O2; [done|]. apply O1; [|done]. simpl. by apply not_elem_of_cons; split; [|apply not_elem_of_nil].
  - intros j y. rewrite S2, S1. simpl. rewrite !elem_of_cons, elem_of_nil. tauto.
Qed.

Lemma add_shards_runs its ps s :
  Forall2 describes its ps → NoDup ps.*1 → allocated s →
  ∃ s', runs (forM its add_shard) s () s' ∧ opened ps s s'.
Proof.
  intros Hd. revert s. induction Hd as [|it p its ps Hit _ IH]; intros s Hnd Ha;
    [exists s; split; [apply runs_ret|by apply opened_nil]|].
  simpl in Hnd. apply NoDup_cons in Hnd as [Hp Hnd].
  destruct (add_shard_runs it p s Hit Ha) as (s1 & Hr1 & H1).
  destruct (IH s1 Hnd (op_alloc _ _ _ H1)) as (s2 & Hr2 & H2).
  exists s2. split; [by eapply runs_bind|by eapply opened_cons].
Qed.

(** The constructor. *)
Lemma SearcherImpl_runs {EU : EtcdUp E} cfg ps s D :
  Forall2 describes (json_items cfg) ps → NoDup ps.*1 → plain ps.*1 → allocated s → se_shards s = ∅ →
  dir_rep (etcd_view (se_etcd s)) D →
  ∃ s', runs (SearcherImpl cfg) s () s' ∧ s3Client (se_storage s') = true ∧ allocated s' ∧
    (∀ i x r, (i, x, r) ∈ ps → serves V (shape_of r) i x s' []) ∧
    (∀ i x, (i, x) ∈ served s' ↔ (i, x) ∈ ps.*1) ∧ address s' = address s ∧
    dir_rep (etcd_view (se_etcd s')) (Directory (entries_of (address s) (served s') ∪ dir_hosts D) (dir_times D)).
Proof.
  intros Hd Hnd Hpl Ha Hno HD. destruct (add_shards_runs _ ps s Hd Hnd Ha) as (s1 & Hr1 & [Hnew _ Hsh Ha1 He Hst Had]).
  assert (∀ i x, (i, x) ∈ served s1 ↔ (i, x) ∈ ps.*1) as Hserved.
  { intros i x. rewrite elem_of_served. specialize (Hsh i x). unfold shard_at in Hsh. rewrite !fmap_is_Some in Hsh.
    rewrite Hsh, Hno, lookup_empty. simpl. split; [by intros [?|[]]|by left]. }
  destruct (register_returns (address s1) (served s1) s1) as [s2 Hr2].
  assert (dir_rep (etcd_view (se_etcd s2)) (Directory (entries_of (address s1) (served s1) ∪ dir_hosts D) (dir_times D))) as HD2.
  { eapply register_runs; [|by rewrite He|done]. apply Forall_forall. intros [i x] Hin%Hserved.
    unfold plain in Hpl. rewrite Forall_forall in Hpl. by apply (Hpl (i, x)). }
  destruct (registering_frame (λ p, AddSearcherHost p.1 p.2 (address s1)) _ _ _ Hr2) as [e ->].
  eexists. split_and!.
  - unfold SearcherImpl. run_one. eapply runs_bind; [unfold Init; do 2 run_one; exact Hr2|].
    eapply runs_bind; [by apply (runs_zoom se_storage se_set_storage)|]. apply runs_ret.
  - done.
  - exact Ha1.
  - intros i x r Hin. exact (proj1 (Hnew i x r Hin)).
  - exact Hserved.
  - exact Had.
  - rewrite <-Had. exact HD2.
Qed.
End startup.
