(* ===== verification/Writer.v ===== *)
(** * The writer (app/src/Writer.cpp, SearcherClient.cpp)

    A writer keeps one index per shard etcd lists for the indexes it is
    configured with. A write request goes to the shard whose searchers answer
    fastest. When an index reports new or merged segments its callback posts a
    task; the single thread of [callback_runner] runs tasks one by one, taking
    the same lock as the requests: it uploads the segments, deletes the merged
    ones and tells the shard's searchers. So the writer is a state machine
    whose steps are a request or the next task. *)

From S2P Require Import Prelude Cxx Floats BinaryIO StorageClient Faiss TopK IBaseIndex Segment.
From S2P Require Import IIndex Index IndexFactory Merging Stats EtcdClient Prometheus Coordinator Searcher.

Record WriteRequest := WriteReq {
  wq_vector_data : list f32;
  wq_id : string;
  wq_attributes : gmap string string;
}.

(** [grpc::Status] as the handlers use it. *)
Inductive status := StatusOK | INVALID_ARGUMENT (msg : string).

Class GrpcUpdate := {
  unet : Type;
  (** [stub_->ProcessUpdateRequest] to the server at an address: whether the
      status is ok *)
  rpc_update : unet → string → UpdateRequest → unet * bool;
}.

(** What the callback of shard [tk_shard] of [tk_index] captured. *)
Record task := Task {
  tk_ids : list Z;
  tk_segs : list loc;
  tk_index : string;
  tk_shard : string;
}.

Record writer `{E : Etcd} `{P : PromLib} `{S : S3} `{J : Json} `{U : GrpcUpdate} (T : Type) := Wr {
  indexes_create_agrs : gmap string json;
  wr_shards : gmap string (gmap string index_state);
  wr_proc : proc T;
  wr_etcd : kv;
  wr_storage : storage S;
  wr_prom : PrometheusExposer P;
  wr_net : unet;
  callback_runner : list task;
}.
Arguments writer _ _ _ _ _ _ : clear implicits.
Arguments Wr {_ _ _ _ _ _} _ _ _ _ _ _ _ _.
Arguments indexes_create_agrs {_ _ _ _ _ _} _.
Arguments wr_shards {_ _ _ _ _ _} _.
Arguments wr_proc {_ _ _ _ _ _} _.
Arguments wr_etcd {_ _ _ _ _ _} _.
Arguments wr_storage {_ _ _ _ _ _} _.
Arguments wr_prom {_ _ _ _ _ _} _.
Arguments wr_net {_ _ _ _ _ _} _.
Arguments callback_runner {_ _ _ _ _ _} _.

Section writer.
Context `{SL : StdLib} {E : Etcd} {DT : DoubleText} {P : PromLib} {S3 : S3} {J : Json}
  {U : GrpcUpdate} {T : Type} `{B : IBaseIndex T}.
Abbreviation state := (writer E P S3 J U T).
Implicit Types s : state.

Definition wr_set_shards (m : gmap string (gmap string index_state)) s : state :=
  Wr (indexes_create_agrs s) m (wr_proc s) (wr_etcd s) (wr_storage s) (wr_prom s) (wr_net s)
     (callback_runner s).
Definition wr_set_proc (p : proc T) s : state :=
  Wr (indexes_create_agrs s) (wr_shards s) p (wr_etcd s) (wr_storage s) (wr_prom s) (wr_net s)
     (callback_runner s).
Definition wr_set_etcd (e : kv) s : state :=
  Wr (indexes_create_agrs s) (wr_shards s) (wr_proc s) e (wr_storage s) (wr_prom s) (wr_net s)
     (callback_runner s).
Definition wr_set_storage (x : storage S3) s : state :=
  Wr (indexes_create_agrs s) (wr_shards s) (wr_proc s) (wr_etcd s) x (wr_prom s) (wr_net s)
     (callback_runner s).
Definition wr_set_prom (p : PrometheusExposer P) s : state :=
  Wr (indexes_create_agrs s) (wr_shards s) (wr_proc s) (wr_etcd s) (wr_storage s) p (wr_net s)
     (callback_runner s).
Definition wr_set_net (n : unet) s : state :=
  Wr (indexes_create_agrs s) (wr_shards s) (wr_proc s) (wr_etcd s) (wr_storage s) (wr_prom s) n
     (callback_runner s).
Definition wr_set_tasks (q : list task) s : state :=
  Wr (indexes_create_agrs s) (wr_shards s) (wr_proc s) (wr_etcd s) (wr_storage s) (wr_prom s)
     (wr_net s) q.
Definition wr_set_config (m : gmap string json) s : state :=
  Wr m (wr_shards s) (wr_proc s) (wr_etcd s) (wr_storage s) (wr_prom s) (wr_net s)
     (callback_runner s).

Definition on_wr_etcd {A} (m : M kv A) : M state A := zoom wr_etcd wr_set_etcd m.
Definition on_wr_storage {A} (m : M (storage S3) A) : M state A :=
  zoom wr_storage wr_set_storage m.
Definition on_wr_proc {A} (m : M (proc T) A) : M state A := zoom wr_proc wr_set_proc m.
Definition on_wr_prom (f : PrometheusExposer P → PrometheusExposer P) : M state () :=
  modify (λ s, wr_set_prom (f (wr_prom s)) s).

(** [indexUpdateCallback]: the task is only posted here. *)
Definition post (index_id shard_id : string) (e : event) (s : state) : state :=
  wr_set_tasks (callback_runner s ++ [Task (ev_erased e) (ev_inserted e) index_id shard_id]) s.

(** [shards[index_id][shard_id]->...], with the callbacks the call makes. *)
Definition on_index {A} (index_id shard_id : string) (m : M (st T) A) : M state A := λ s,
  match wr_shards s !! index_id ≫= λ x, x !! shard_id with
  | None => (s, Undef NullDeref)
  | Some i =>
    let '(s', o) := m (St (wr_proc s) i []) in
    (foldl (λ s e, post index_id shard_id e s)
       (wr_set_shards (put2 index_id shard_id (st_idx s') (wr_shards s))
         (wr_set_proc (st_proc s') s)) (st_log s'), o)
  end.

(** ** updateIndexesState *)

Definition shards_of (index_id : string) s : gmap string index_state :=
  default ∅ (wr_shards s !! index_id).

Definition create_shard (index_id : string) (config : json) (shard_id : string) : M state () :=
  i ← on_wr_proc (CreateIndex config);
  modify (λ s, wr_set_shards (put2 index_id shard_id (set_callback i true) (wr_shards s)) s).

(** One iteration of the loop over [indexes_create_agrs]. *)
Definition update_index (index_id : string) (index_config : json) : M state () :=
  shard_ids_vec ← on_wr_etcd (ListShardIds index_id);
  let shard_ids := str_set shard_ids_vec in
  if decide (shard_ids_vec = []) then
    modify (λ s, wr_set_shards (delete index_id (wr_shards s)) s)
  else
    found ← gets (λ s, wr_shards s !! index_id);
    (match found with
     | Some _ => mret ()
     | None =>
       _ ← on_wr_storage (createBucket index_id);
       modify (λ s, wr_set_shards (<[index_id := ∅]> (wr_shards s)) s)
     end);;
    have ← gets (shards_of index_id);
    let to_del := filter (λ x, x ∉ shard_ids) (std_iter have).*1 in
    let to_add := filter (λ x, have !! x = None) shard_ids in
    forM to_del (λ x, modify (λ s,
      wr_set_shards (<[index_id := delete x (shards_of index_id s)]> (wr_shards s)) s));;
    forM to_add (create_shard index_id index_config).

Definition updateIndexesState : M state () :=
  configs ← gets (λ s, std_iter (indexes_create_agrs s));
  forM configs (λ p, update_index p.1 p.2).

(** The constructor, from the state the members are initialised to. *)
Definition add_config (item : json) : M state () :=
  index_id ← liftO (string_at item "id");
  modify (λ s, wr_set_config (<[index_id := item]> (indexes_create_agrs s)) s).
Definition WriterImpl (indexes_config : json) : M state () :=
  _ ← on_wr_storage (logIn "user" "password");
  forM (json_items indexes_config) add_config;;
  updateIndexesState.

(** ** chooseShard *)

(** [best]: the shard found so far and its time. *)
Fixpoint choose (index_id : string) (ids : list string) (best : option (string * f64)) :
    M state (option (string * f64)) :=
  match ids with
  | [] => mret best
  | x :: ids =>
    t ← on_wr_etcd (GetSearcherAverageResponseTime index_id x);
    choose index_id ids
      (match best with
       | None => Some (x, t)
       | Some (y, min_time) => if flt t min_time then Some (x, t) else Some (y, min_time)
       end)
  end.

Definition chooseShard (index_id : string) : M state string :=
  modify (λ s, wr_set_shards (<[index_id := shards_of index_id s]> (wr_shards s)) s);;
  ids ← gets (λ s, (std_iter (shards_of index_id s)).*1);
  best ← choose index_id ids None;
  mret (match best with Some (x, _) => x | None => "" end).

(** ** ProcessWriteRequest *)

(** [GetGaugeValue<size_t>("vectors_count", labels)], 0 when absent. *)
Definition vectors_count (l : labels) : M state Z := λ s,
  let '(p, v) := GetGaugeValue "vectors_count" l (wr_prom s) in
  (wr_set_prom p s, match v with Some v => f64_to_u64 v | None => Ok 0%Z end).

Definition ProcessWriteRequest (rq : WriteRequest) : M state status :=
  on_wr_prom (IncrementCounter "requests_count" (f64_of_Z 1) ∅);;
  updateIndexesState;;
  match wq_attributes rq !! "index-id" with
  | None => mret (INVALID_ARGUMENT "Missing index id")
  | Some index_id =>
    found ← gets (λ s, wr_shards s !! index_id);
    match found with
    | None => mret (INVALID_ARGUMENT "Wrong index id")
    | Some _ =>
      shard_id ← chooseShard index_id;
      let l := shard_labels index_id shard_id in
      vec_cnt ← vectors_count l;
      match wq_attributes rq !! "delete" with
      | None =>
        on_index index_id shard_id (add 1 [wq_id rq] (wq_vector_data rq));;
        on_wr_prom (SetGauge "vectors_count" (f64_of_Z (u64_add vec_cnt 1)) l);;
        mret StatusOK
      | Some _ =>
        on_index index_id index_id (erase 1 [wq_id rq]);;
        on_wr_prom (SetGauge "vectors_count" (f64_of_Z (u64_sub vec_cnt 1)) l);;
        mret StatusOK
      end
    end
  end.

(** ** Tasks *)

Definition wr_deref (l : loc) : M state (segment T) := λ s,
  match heap (wr_proc s) !! l with
  | Some sg => (s, Ok sg)
  | None => (s, Undef NullDeref)
  end.

(** The segment is serialized as it is when the task runs. *)
Definition upload (index_id : string) (l : loc) : M state Z :=
  sg ← wr_deref l;
  let name := to_string_u64 (getID sg) in
  modify (λ s, wr_set_storage (with_dir (wr_storage s)
    (SerializeSegment_file (st_dir (wr_storage s)) name sg)) s);;
  _ ← on_wr_storage (putObject index_id name);
  on_wr_storage (remove_file name);;
  mret (getID sg).

Fixpoint upload_all (index_id : string) (ls : list loc) : M state (list Z) :=
  match ls with
  | [] => mret []
  | l :: ls => k ← upload index_id l; ks ← upload_all index_id ls; mret (k :: ks)
  end.

(** [SearcherClient::updateIndex] *)
Definition updateIndex (rq : UpdateRequest) (host : string) : M state () := λ s,
  let '(n, ok) := rpc_update (wr_net s) host rq in
  (wr_set_net n s,
   if ok : bool then Ok () else Throw (RuntimeError "Error while processing request. gRPC status code: ")).

(** The body of the task; an exception leaves the thread and ends the
    process. *)
Definition run_task (t : task) : M state () :=
  on_wr_prom (IncrementCounter "callback_calls_count" (f64_of_Z 1)
                (shard_labels (tk_index t) (tk_shard t)));;
  added ← upload_all (tk_index t) (tk_segs t);
  forM (tk_ids t) (λ k, _ ← on_wr_storage (delObject (tk_index t) (to_string_u64 k)); mret ());;
  hosts ← on_wr_etcd (ListSearcherHosts (tk_index t) (Some (tk_shard t)));
  forM hosts (updateIndex (UpdateReq added (tk_ids t) (tk_index t) (tk_shard t))).

(** The destructor: [callback_runner.join()] waits for the one thread of the
    pool to run what was posted, in order. *)
Fixpoint run_tasks (ts : list task) : M state () :=
  match ts with
  | [] => mret ()
  | t :: ts => modify (wr_set_tasks ts);; run_task t;; run_tasks ts
  end.
Definition WriterImpl_destroy : M state () := ts ← gets callback_runner; run_tasks ts.

(** ** The state machine *)

Inductive wr_step : state → state → Prop :=
  | step_request s rq r s' : runs (ProcessWriteRequest rq) s r s' → wr_step s s'
  | step_task s t q s' :
    callback_runner s = t :: q → runs (run_task t) (wr_set_tasks q s) () s' → wr_step s s'.
End writer.
