(* ===== verification/WriterSpec.v ===== *)
(** * What a writer does (app/src/Writer.cpp)

    [updateIndexesState] makes the writer's shards those etcd lists, keeping
    the indexes of the shards that stay; [chooseShard] picks a shard whose
    published time is least; a task's uploads are what a searcher downloads. *)

From S2P Require Import Prelude Cxx Floats BinaryIO StorageClient Faiss TopK IBaseIndex Segment.
From S2P Require Import IIndex Events Storage Index IndexSpec IndexFactory Merging Stats EtcdClient Prometheus.
From S2P Require Import Coordinator Searcher Writer.

Section refresh.
Context `{SL : StdLib} {E : Etcd} {EL : EtcdLaws E} {EU : EtcdUp E} {DT : DoubleText}
  {P : PromLib} {S3 : S3} {J : Json} {U : GrpcUpdate} {T : Type} `{B : IBaseIndex T}.
Abbreviation state := (writer E P S3 J U T).
Implicit Types s : state.

(** A shard of the index [i] that etcd lists. *)
Definition listed (D : directory) (i x : string) : Prop :=
  (∃ a, (i, x, a) ∈ dir_hosts D) ∨ is_Some (dir_times D !! (i, x)).

Definition shard i x s : option index_state := wr_shards s !! i ≫= λ m, m !! x.

Lemma shard_of i x s m : wr_shards s !! i = Some m → shard i x s = m !! x.
Proof. unfold shard. by intros ->. Qed.

(** What an update of index [i] leaves alone. *)
Record beside (i : string) s s' : Prop := {
  be_other j : j ≠ i → wr_shards s' !! j = wr_shards s !! j;
  be_etcd : wr_etcd s' = wr_etcd s;
  be_client : s3Client (wr_storage s') = s3Client (wr_storage s);
  be_config : indexes_create_agrs s' = indexes_create_agrs s;
  be_tasks : callback_runner s' = callback_runner s;
}.

#[global] Instance beside_preorder i : PreOrder (beside i).
Proof.
  split; [by split|]. intros s1 s2 s3 [O1 E1 C1 G1 T1] [O2 E2 C2 G2 T2].
  split; [|congruence..]. intros j Hj. by rewrite O2, O1.
Qed.

(** Dropping shards. *)
Lemma drop_shards i xs s m :
  wr_shards s !! i = Some m →
  ∃ s' m', runs (forM xs (λ x, modify (λ s,
      wr_set_shards (<[i := delete x (shards_of i s)]> (wr_shards s)) s))) s () s' ∧
    beside i s s' ∧ wr_shards s' !! i = Some m' ∧
    ∀ x, m' !! x = if decide (x ∈ xs) then None else m !! x.
Proof.
  revert s m. induction xs as [|x xs IH]; intros s m Hm.
  { exists s, m. split_and!; [apply runs_ret|done|done|]. intros x. by rewrite decide_False by set_solver. }
  set (s1 := wr_set_shards (<[i := delete x (shards_of i s)]> (wr_shards s)) s).
  destruct (IH s1 (delete x m)) as (s2 & m2 & Hr & Hb & Hm2 & Hl).
  { unfold s1, shards_of. simpl. by rewrite Hm, lookup_insert_eq. }
  exists s2, m2. split_and!; [simpl; eapply runs_bind; [apply runs_modify|exact Hr]| |done|].
  - etrans; [|exact Hb]. split; try done. intros j Hj. simpl. by rewrite lookup_insert_ne.
  - intros y. rewrite Hl. destruct (decide (y = x)) as [->|Hne].
    + rewrite lookup_delete_eq. by repeat case_decide; set_solver.
    + rewrite lookup_delete_ne by done. repeat case_decide; set_solver.
Qed.

(** Creating shards from a configuration that parses. *)
Lemma create_shards i cfg rq xs s m :
  parse_index cfg = Ok rq → wr_shards s !! i = Some m →
  ∃ s' m', runs (forM xs (create_shard i cfg)) s () s' ∧ beside i s s' ∧
    wr_shards s' !! i = Some m' ∧
    (∀ x, x ∈ xs → ∃ idx, m' !! x = Some idx ∧ callback_ idx = true ∧ segments_ idx = []) ∧
    (∀ x, x ∉ xs → m' !! x = m !! x).
Proof.
  intros Hp. revert s m. induction xs as [|x xs IH]; intros s m Hm.
  { exists s, m. split_and!; [apply runs_ret|done|done|set_solver|done]. }
  destruct (Index (rq_dim rq) (rq_threshold rq) (rq_merge rq) (rq_args rq) (wr_proc s))
    as [p idx] eqn:Hidx.
  assert (segments_ idx = []) as Hnew by (unfold Index in Hidx; by simplify_eq).
  set (s1 := wr_set_shards (put2 i x (set_callback idx true) (wr_shards s)) (wr_set_proc p s)).
  destruct (IH s1 (<[x := set_callback idx true]> m)) as (s2 & m2 & Hr & Hb & Hm2 & Hin & Hout).
  { unfold s1, put2. simpl. by rewrite Hm, lookup_insert_eq. }
  exists s2, m2. split_and!; [| |done| |].
  - simpl. eapply runs_bind; [|exact Hr]. unfold create_shard.
    eapply (runs_bind _ _ s idx (wr_set_proc p s)); [|exact eq_refl].
    apply (runs_zoom wr_proc wr_set_proc). unfold CreateIndex, runs. by rewrite Hp, Hidx.
  - etrans; [|exact Hb]. split; try done. intros j Hj. unfold s1, put2. simpl.
    by rewrite lookup_insert_ne.
  - intros y Hy. destruct (decide (y ∈ xs)) as [|Hn]; [by apply Hin|].
    rewrite Hout by done. assert (y = x) as -> by set_solver. rewrite lookup_insert_eq. eauto.
  - intros y Hy. rewrite Hout, lookup_insert_ne; set_solver.
Qed.

Lemma on_wr_etcd_runs {A} (m : M kv A) s a :
  runs m (wr_etcd s) a (wr_etcd s) → runs (on_wr_etcd m) s a s.
Proof.
  intros Hr. replace s with (wr_set_etcd (wr_etcd s) s) at 2 by (by destruct s).
  by apply (runs_zoom wr_etcd wr_set_etcd).
Qed.

(** An index etcd has no shard of is forgotten; otherwise its shards become
    those listed, and those it had keep their contents. *)
Record tracks (D : directory) (i : string) s s' : Prop := {
  tr_shards x : is_Some (shard i x s') ↔ listed D i x;
  tr_kept x idx : shard i x s = Some idx → listed D i x → shard i x s' = Some idx;
  tr_none : (∀ x, ¬ listed D i x) → wr_shards s' !! i = None;
  tr_beside : beside i s s';
}.

Lemma ensure_index i s :
  s3Client (wr_storage s) = true →
  ∃ s' m, runs (found ← gets (λ s, wr_shards s !! i);
      match found with
      | Some _ => mret ()
      | None =>
        _ ← on_wr_storage (createBucket i);
        modify (λ s, wr_set_shards (<[i := ∅]> (wr_shards s)) s)
      end) s () s' ∧
    beside i s s' ∧ wr_shards s' !! i = Some m ∧ ∀ x, m !! x = shard i x s.
Proof.
  intros Hc. destruct (wr_shards s !! i) as [m|] eqn:Hm.
  - exists s, m. split_and!; [|done|done|intros x; by rewrite (shard_of _ _ _ _ Hm)].
    run_one. cbv beta. rewrite Hm. apply runs_ret.
  - destruct (s3_create (st_objects (wr_storage s)) (makeBucketName i)) as [o ok] eqn:Ho.
    eexists _, ∅. split_and!.
    + run_one. cbv beta. rewrite Hm.
      eapply (runs_bind _ _ s ok (wr_set_storage (with_objects (wr_storage s) o) s));
        [|exact eq_refl].
      apply (runs_zoom wr_storage wr_set_storage). unfold createBucket, with_client, runs.
      rewrite Hc, Ho. done.
    + split; try done. intros j Hj. simpl. by rewrite lookup_insert_ne.
    + simpl. by rewrite lookup_insert_eq.
    + intros x. unfold shard. by rewrite Hm, lookup_empty.
Qed.

(** Dropping what is not wanted and adding what is missing. *)
Lemma synced (want : string → Prop) (to_del to_add : list string) (m1 m2 m3 : gmap string index_state) :
  (∀ x, Decision (want x)) →
  (∀ x, x ∈ to_del ↔ is_Some (m1 !! x) ∧ ¬ want x) → (∀ x, x ∈ to_add ↔ m1 !! x = None ∧ want x) →
  (∀ x, m2 !! x = if decide (x ∈ to_del) then None else m1 !! x) →
  (∀ x, x ∈ to_add → is_Some (m3 !! x)) → (∀ x, x ∉ to_add → m3 !! x = m2 !! x) →
  (∀ x, is_Some (m3 !! x) ↔ want x) ∧ (∀ x idx, m1 !! x = Some idx → want x → m3 !! x = Some idx).
Proof.
  intros Hdec Hdel Hadd H2 Hin Hout. split.
  - intros x. destruct (decide (x ∈ to_add)) as [Ha|Ha]; [pose proof (Hin x Ha); naive_solver|].
    rewrite Hout, H2 by done. rewrite Hadd in Ha. case_decide as Hd; rewrite Hdel in Hd.
    + split; [by intros []|naive_solver].
    + destruct (m1 !! x) eqn:E1, (Hdec x); naive_solver.
  - intros x idx Hx Hw. rewrite Hout, H2; [|rewrite Hadd, Hx; by intros []].
    rewrite decide_False; [done|]. rewrite Hdel. by intros [_ ?].
Qed.

(** An index without shards is forgotten. *)
Lemma forget_index i cfg s D :
  (∀ x, ¬ listed D i x) → runs (on_wr_etcd (ListShardIds i)) s [] s →
  ∃ s', runs (update_index i cfg) s () s' ∧ tracks D i s s'.
Proof.
  intros Hno Hr. eexists. split; [unfold update_index; run_one; simpl; apply runs_modify|]. split.
  - intros x. unfold shard. simpl. rewrite lookup_delete_eq. simpl. split; [by intros []|by intros ?%Hno].
  - intros x idx _ ?%Hno. done.
  - intros _. simpl. by rewrite lookup_delete_eq.
  - split; try done. intros j Hj. simpl. by rewrite lookup_delete_ne.
Qed.

Lemma update_index_runs i cfg rq s D :
  slash_free i = true → dir_rep (etcd_view (wr_etcd s)) D → parse_index cfg = Ok rq →
  s3Client (wr_storage s) = true →
  ∃ s', runs (update_index i cfg) s () s' ∧ tracks D i s s'.
Proof.
  intros Hi HD Hp Hc. destruct (up_keys (wr_etcd s) (i +:+ "/searchers")) as [ks Hks].
  destruct (ListShardIds_runs i Hi (wr_etcd s) ks D HD Hks) as (vec & Hr & _ & Hel).
  apply on_wr_etcd_runs in Hr. destruct (decide (vec = [])) as [->|Hne].
  { apply forget_index; [|done]. intros x Hx%Hel. set_solver. }
  destruct (ensure_index i s Hc) as (s1 & m1 & Hr1 & Hb1 & Hm1 & Hx1).
  apply runs_bind_inv in Hr1 as (found & s0 & [<- <-]%(runs_det _ _ _ _ _ _ (runs_gets _ s)) & Hr1).
  set (to_del := filter (λ x, x ∉ str_set vec) (std_iter m1).*1).
  set (to_add := filter (λ x, m1 !! x = None) (str_set vec)).
  destruct (drop_shards i to_del s1 m1 Hm1) as (s2 & m2 & Hr2 & Hb2 & Hm2 & Hx2).
  destruct (create_shards i cfg rq to_add s2 m2 Hp Hm2) as (s3 & m3 & Hr3 & Hb3 & Hm3 & Hin3 & Hout3).
  destruct (str_set_spec vec) as [_ Hset].
  assert (∀ x, x ∈ to_del ↔ is_Some (m1 !! x) ∧ ¬ listed D i x) as Hdel.
  { intros x. unfold to_del. rewrite list_elem_of_filter, Hset, Hel, list_elem_of_fmap.
    fold (listed D i x). split.
    - intros [? ([x' idx] & -> & Hin%elem_of_std_iter)]. eauto.
    - intros [[idx Hx] ?]. split; [done|]. exists (x, idx). by rewrite elem_of_std_iter. }
  assert (∀ x, x ∈ to_add ↔ m1 !! x = None ∧ listed D i x) as Hadd.
  { intros x. unfold to_add. by rewrite list_elem_of_filter, Hset, Hel. }
  exists s3. split.
  - unfold update_index. run_one. cbv beta zeta. rewrite decide_False by done.
    do 3 run_one. cbv beta zeta.
    assert (shards_of i s1 = m1) as -> by (unfold shards_of; by rewrite Hm1).
    run_one. exact Hr3.
  - destruct (synced (listed D i) to_del to_add m1 m2 m3) as [Hiff Hkeep]; [|done..| |done|].
    { intros x. destruct (decide (x ∈ vec)) as [Hv|Hv]; [left; by apply Hel|right; intros Hl; by apply Hv, Hel]. }
    { intros x (idx & -> & _)%Hin3. by eauto. }
    split; [| | |by etrans; [exact Hb1|]; etrans; [exact Hb2|]].
    + intros x. by rewrite (shard_of _ _ _ _ Hm3).
    + intros x idx Hx Hl. rewrite (shard_of _ _ _ _ Hm3). rewrite <-Hx1 in Hx. by apply Hkeep.
    + intros Hno. destruct vec as [|x vec]; [done|]. destruct (Hno x). apply Hel. by left.
Qed.

(** ** All indexes *)

(** [tracks] without the frame. *)
Definition follows (D : directory) (i : string) s s' : Prop :=
  (∀ x, is_Some (shard i x s') ↔ listed D i x) ∧
  (∀ x idx, shard i x s = Some idx → listed D i x → shard i x s' = Some idx) ∧
  ((∀ x, ¬ listed D i x) → wr_shards s' !! i = None).

Lemma follows_ext D i s1 s2 s1' s2' :
  wr_shards s1 !! i = wr_shards s1' !! i → wr_shards s2 !! i = wr_shards s2' !! i →
  follows D i s1 s2 → follows D i s1' s2'.
Proof. unfold follows, shard. by intros -> ->. Qed.

Definition config_ok (p : string * json) : Prop :=
  slash_free p.1 = true ∧ ∃ rq, parse_index p.2 = Ok rq.

Lemma update_all_runs configs s D :
  NoDup configs.*1 → Forall config_ok configs → dir_rep (etcd_view (wr_etcd s)) D →
  s3Client (wr_storage s) = true →
  ∃ s', runs (forM configs (λ p, update_index p.1 p.2)) s () s' ∧
    (∀ i, i ∈ configs.*1 → follows D i s s') ∧
    (∀ i, i ∉ configs.*1 → wr_shards s' !! i = wr_shards s !! i) ∧
    wr_etcd s' = wr_etcd s ∧ s3Client (wr_storage s') = true ∧
    callback_runner s' = callback_runner s.
Proof.
  revert s. induction configs as [|[i cfg] configs IH]; intros s Hnd Hok HD Hc.
  { exists s. split_and!; try done. set_solver. }
  rewrite fmap_cons in Hnd |- *. apply NoDup_cons in Hnd as [Hni Hnd].
  apply Forall_cons in Hok as [[Hi [rq Hp]] Hok]. simpl in Hi, Hp.
  destruct (update_index_runs i cfg rq s D Hi HD Hp Hc) as (s1 & Hr1 & [T1 T2 T3 [O1 E1 C1 G1 K1]]).
  destruct (IH s1) as (s2 & Hr2 & Hf2 & Ho2 & He2 & Hc2 & Hk2); [done..|by rewrite E1|by rewrite C1|].
  exists s2. split_and!; [simpl; by eapply runs_bind| | |congruence|done|congruence].
  - intros j [->|Hj]%elem_of_cons.
    + eapply (follows_ext D i s s1); [done| |by split_and!]. symmetry. by apply Ho2.
    + eapply (follows_ext D j s1 s2); [|done|by apply Hf2]. apply O1. by intros ->.
  - intros j Hj. rewrite Ho2, O1; set_solver.
Qed.

Lemma updateIndexesState_runs s D :
  map_Forall (λ i cfg, config_ok (i, cfg)) (indexes_create_agrs s) →
  dir_rep (etcd_view (wr_etcd s)) D → s3Client (wr_storage s) = true →
  ∃ s', runs updateIndexesState s () s' ∧
    (∀ i, is_Some (indexes_create_agrs s !! i) → follows D i s s') ∧
    (∀ i, indexes_create_agrs s !! i = None → wr_shards s' !! i = wr_shards s !! i) ∧
    wr_etcd s' = wr_etcd s ∧ s3Client (wr_storage s') = true ∧
    callback_runner s' = callback_runner s.
Proof.
  intros Hok HD Hc.
  destruct (update_all_runs (std_iter (indexes_create_agrs s)) s D) as
    (s' & Hr & Hf & Ho & Hrest); [apply NoDup_fst_std_iter| |done..|].
  { apply Forall_forall. intros [i cfg] Hin%elem_of_std_iter. by apply Hok. }
  assert (∀ i, i ∈ (std_iter (indexes_create_agrs s)).*1 ↔ is_Some (indexes_create_agrs s !! i)) as Hkeys.
  { intros i. rewrite list_elem_of_fmap. split.
    - intros ([i' cfg] & -> & Hin%elem_of_std_iter). eauto.
    - intros [cfg Hin]. exists (i, cfg). by rewrite elem_of_std_iter. }
  exists s'. split_and!; try apply Hrest.
  - unfold updateIndexesState. run_one. exact Hr.
  - intros i Hi%Hkeys. by apply Hf.
  - intros i Hi. apply Ho. rewrite Hkeys, Hi. by intros [].
Qed.

(** ** Choosing *)

(** The time published for a shard. *)
Definition published (i x : string) (e : kv) (t : f64) : Prop :=
  runs (GetSearcherAverageResponseTime i x) e t e ∧ not_nan t.

Definition least (i : string) (e : kv) (ids : list string) (b : string * f64) : Prop :=
  b.1 ∈ ids ∧ published i b.1 e b.2 ∧
  ∀ x t, x ∈ ids → published i x e t → fle b.2 t.

Lemma published_fun i x e t t' : published i x e t → published i x e t' → t = t'.
Proof. intros [H1 _] [H2 _]. by destruct (runs_det _ _ _ _ _ _ H1 H2). Qed.

Lemma choose_runs i ids done best s :
  (∀ x, x ∈ ids → ∃ t, published i x (wr_etcd s) t) →
  match best with None => done = [] | Some b => least i (wr_etcd s) done b end →
  ∃ best', runs (choose i ids best) s best' s ∧
    match best' with None => done ++ ids = [] | Some b => least i (wr_etcd s) (done ++ ids) b end.
Proof.
  revert done best. induction ids as [|x ids IH]; intros done best Hids Hbest.
  { exists best. rewrite app_nil_r. split; [apply runs_ret|done]. }
  destruct (Hids x) as (t & Ht & Hnan); [by left|].
  set (best1 := match best with None => Some (x, t) | Some (y, m) => if flt t m then Some (x, t) else Some (y, m) end).
  destruct (IH (done ++ [x]) best1) as (best' & Hr & Hb); [intros; apply Hids; by right| |].
  - assert (∀ y t', y = x → published i y (wr_etcd s) t' → t' = t) as Hx.
    { intros y t' -> Hp. by eapply published_fun. }
    unfold best1. destruct best as [[y m]|].
    + destruct Hbest as (Hy & Hm & Hall). simpl in *. destruct (flt t m) eqn:Hlt.
      * split_and!; simpl; [set_solver|done|]. intros z t' [Hz| ->%list_elem_of_singleton]%elem_of_app Hp.
        -- apply (fle_trans _ m); [done|apply Hm|apply Hp| |by eapply Hall].
           apply flt_fle; [done|apply Hm|by rewrite Hlt].
        -- rewrite (Hx x t' eq_refl Hp). apply fle_refl.
      * split_and!; simpl; [set_solver|done|]. intros z t' [Hz| ->%list_elem_of_singleton]%elem_of_app Hp.
        -- by eapply Hall.
        -- by rewrite (Hx x t' eq_refl Hp).
    + subst done. split_and!; simpl; [set_solver|done|].
      intros z t' ->%list_elem_of_singleton Hp. rewrite (Hx x t' eq_refl Hp). apply fle_refl.
  - rewrite <-app_assoc in Hb. exists best'. split; [|done].
    simpl. eapply runs_bind; [by apply on_wr_etcd_runs|]. exact Hr.
Qed.

(** [chooseShard] picks a shard of the index that answers fastest. *)
Lemma chooseShard_runs i s m :
  wr_shards s !! i = Some m → m ≠ ∅ →
  (∀ x, is_Some (m !! x) → ∃ t, published i x (wr_etcd s) t) →
  ∃ x t, runs (chooseShard i) s x s ∧ is_Some (m !! x) ∧ published i x (wr_etcd s) t ∧
    ∀ y t', is_Some (m !! y) → published i y (wr_etcd s) t' → fle t t'.
Proof.
  intros Hm Hne Hpub.
  assert (wr_set_shards (<[i := shards_of i s]> (wr_shards s)) s = s) as Hs.
  { unfold shards_of. rewrite Hm. simpl. rewrite insert_id by done. by destruct s. }
  assert (∀ x, x ∈ (std_iter m).*1 ↔ is_Some (m !! x)) as Hkeys.
  { intros x. rewrite list_elem_of_fmap. split.
    - intros ([x' idx] & -> & Hin%elem_of_std_iter). eauto.
    - intros [idx Hin]. exists (x, idx). by rewrite elem_of_std_iter. }
  destruct (choose_runs i (std_iter m).*1 [] None s) as (best & Hr & Hb); [|done|].
  { intros x Hx%Hkeys. by apply Hpub. }
  destruct best as [[x t]|].
  - destruct Hb as (Hx & Hp & Hall). simpl in *. exists x, t. split_and!; [|by apply Hkeys|done|].
    + unfold chooseShard. run_one. rewrite Hs.
      run_one. unfold shards_of. rewrite Hm.
      run_one. apply runs_ret.
    + intros y t' Hy. apply Hall. by apply Hkeys.
  - exfalso. apply Hne, map_empty. intros x. apply eq_None_not_Some. intros Hx%Hkeys.
    simpl in Hb. rewrite Hb in Hx. set_solver.
Qed.
End refresh.

(** ** Tasks *)

(** S3 answers. *)
Class S3Up (S : S3) {SL : S3Laws S} : Prop := {
  up_put s b k f : (s3_put s b k f).2 = true;
  up_del s b k : (s3_del s b k).2 = true;
  up_get s b k f : s3_view s !! (b, k) = Some f → s3_get s b k = Some f;
  (** a bucket that exists already is left as it is *)
  up_create s b : s3_view (s3_create s b).1 = s3_view s;
}.

Lemma to_string_u64_inj k k' :
  (0 ≤ k)%Z → (0 ≤ k')%Z → to_string_u64 k = to_string_u64 k' → k = k'.
Proof. unfold to_string_u64. intros Hk Hk' Heq%(inj pretty). lia. Qed.

Section tasks.
Context `{SL : StdLib} {E : Etcd} {DT : DoubleText} {P : PromLib} {S3 : S3}
  {S3L : S3Laws S3} {S3U : S3Up S3} {J : Json} {U : GrpcUpdate} {T : Type} `{B : IBaseIndex T}.
Abbreviation state := (writer E P S3 J U T).
Implicit Types s : state.

Definition stored_objects s : gmap (string * string) file := objects (wr_storage s).

(** What the storage part of a task leaves alone. *)
Record uploading s s' : Prop := {
  ul_proc : wr_proc s' = wr_proc s;
  ul_etcd : wr_etcd s' = wr_etcd s;
  ul_net : wr_net s' = wr_net s;
  ul_shards : wr_shards s' = wr_shards s;
  ul_tasks : callback_runner s' = callback_runner s;
  ul_client : s3Client (wr_storage s') = s3Client (wr_storage s);
  ul_config : indexes_create_agrs s' = indexes_create_agrs s;
}.
#[global] Instance uploading_preorder : PreOrder uploading.
Proof. split; [by split|]. intros ??? [] []. split; congruence. Qed.

Lemma upload_runs i l s sg :
  heap (wr_proc s) !! l = Some sg → s3Client (wr_storage s) = true →
  ∃ s', runs (upload i l) s (getID sg) s' ∧ uploading s s' ∧
    stored_objects s' =
      <[(makeBucketName i, to_string_u64 (getID sg)) := SerializeSegment [] sg]> (stored_objects s).
Proof.
  intros Hl Hc. set (name := to_string_u64 (getID sg)).
  set (d := <[name := SerializeSegment [] sg]> (st_dir (wr_storage s))).
  destruct (s3_put (st_objects (wr_storage s)) (makeBucketName i) name (SerializeSegment [] sg))
    as [o ok] eqn:Ho.
  pose proof (up_put (st_objects (wr_storage s)) (makeBucketName i) name (SerializeSegment [] sg)) as Hok.
  rewrite Ho in Hok. simpl in Hok. subst ok.
  set (s1 := wr_set_storage (with_dir (wr_storage s) d) s).
  set (s2 := wr_set_storage (with_objects (with_dir (wr_storage s) d) o) s1).
  eexists. split_and!.
  - unfold upload. eapply runs_bind; [unfold wr_deref, runs; by rewrite Hl|]. cbv beta zeta.
    fold name. eapply (runs_bind _ _ s () s1); [exact eq_refl|].
    eapply (runs_bind _ _ s1 true s2).
    + apply (runs_zoom wr_storage wr_set_storage). unfold putObject, runs, with_client. simpl.
      unfold d. rewrite lookup_insert_eq, Hc. simpl. by rewrite Ho.
    + eapply runs_bind; [apply (runs_zoom wr_storage wr_set_storage), runs_modify|]. apply runs_ret.
  - by split.
  - unfold stored_objects, objects. simpl. by apply s3_put_spec.
Qed.

(** The segments of a task, each under the id it has when the task runs. *)
Definition held s (ls : list loc) (sgs : list (segment T)) : Prop :=
  Forall2 (λ l sg, heap (wr_proc s) !! l = Some sg) ls sgs.

Lemma upload_all_runs i ls sgs s :
  held s ls sgs → s3Client (wr_storage s) = true → NoDup (getID <$> sgs) →
  Forall (λ sg, 0 ≤ getID sg)%Z sgs →
  ∃ s', runs (upload_all i ls) s (getID <$> sgs) s' ∧ uploading s s' ∧
    (∀ sg, sg ∈ sgs → stored_objects s' !! (makeBucketName i, to_string_u64 (getID sg)) =
      Some (SerializeSegment [] sg)) ∧
    (∀ o, (∀ sg, sg ∈ sgs → o ≠ (makeBucketName i, to_string_u64 (getID sg))) →
      stored_objects s' !! o = stored_objects s !! o).
Proof.
  revert sgs s. induction ls as [|l ls IH]; intros sgs s Hh Hc Hnd Hpos.
  { apply Forall2_nil_inv_l in Hh as ->. exists s. split_and!; [apply runs_ret|done|set_solver|done]. }
  apply Forall2_cons_inv_l in Hh as (sg & sgs' & Hl & Hh & ->). rewrite fmap_cons in Hnd |- *.
  apply NoDup_cons in Hnd as [Hnew Hnd]. apply Forall_cons in Hpos as [Hsg Hpos].
  destruct (upload_runs i l s sg Hl Hc) as (s1 & Hr1 & Hu1 & Ho1).
  destruct (IH sgs' s1) as (s2 & Hr2 & Hu2 & Hin2 & Hout2); [|by rewrite (ul_client _ _ Hu1)|done..|].
  { unfold held. by rewrite (ul_proc _ _ Hu1). }
  assert (∀ sg', sg' ∈ sgs' → to_string_u64 (getID sg) ≠ to_string_u64 (getID sg')) as Hother.
  { intros sg' Hin Heq. apply to_string_u64_inj in Heq; [|done|by eapply Forall_forall in Hpos].
    apply Hnew. rewrite Heq. by apply list_elem_of_fmap_2. }
  exists s2. split_and!; [|by etrans| |].
  - simpl. do 2 run_one. apply runs_ret.
  - intros sg' [->|Hin]%elem_of_cons; [|by apply Hin2].
    rewrite Hout2 by (intros sg' Hin [= Heq]; by apply (Hother sg')). by rewrite Ho1, lookup_insert_eq.
  - intros o Hk. rewrite Hout2 by (intros; apply Hk; by right). rewrite Ho1, lookup_insert_ne; [done|].
    intros <-. by apply (Hk sg); [left|].
Qed.

(** Deleting the objects of the segments merged away. *)
Lemma delete_all_runs i ks s :
  s3Client (wr_storage s) = true →
  ∃ s', runs (forM ks (λ k, _ ← on_wr_storage (delObject i (to_string_u64 k)); mret ())) s () s' ∧
    uploading s s' ∧
    (∀ k, k ∈ ks → stored_objects s' !! (makeBucketName i, to_string_u64 k) = None) ∧
    (∀ o, (∀ k, k ∈ ks → o ≠ (makeBucketName i, to_string_u64 k)) →
      stored_objects s' !! o = stored_objects s !! o).
Proof.
  revert s. induction ks as [|k ks IH]; intros s Hc.
  { exists s. split_and!; [apply runs_ret|done|set_solver|done]. }
  destruct (s3_del (st_objects (wr_storage s)) (makeBucketName i) (to_string_u64 k)) as [o ok] eqn:Ho.
  pose proof (up_del (st_objects (wr_storage s)) (makeBucketName i) (to_string_u64 k)) as Hok.
  rewrite Ho in Hok. simpl in Hok. subst ok.
  set (s1 := wr_set_storage (with_objects (wr_storage s) o) s).
  assert (stored_objects s1 = delete (makeBucketName i, to_string_u64 k) (stored_objects s)) as Ho1
    by (by apply s3_del_spec).
  destruct (IH s1) as (s2 & Hr2 & Hu2 & Hin2 & Hout2); [done|].
  exists s2. split_and!.
  - simpl. eapply (runs_bind _ _ s () s1); [|exact Hr2].
    eapply (runs_bind _ _ s true s1); [|apply runs_ret].
    apply (runs_zoom wr_storage wr_set_storage). unfold delObject, runs, with_client.
    by rewrite Hc, Ho.
  - etrans; [|exact Hu2]. by split.
  - intros k' Hk'. destruct (decide (to_string_u64 k' ∈ to_string_u64 <$> ks)) as [Hin|Hno].
    + apply list_elem_of_fmap in Hin as (k2 & -> & Hk2). by apply Hin2.
    + assert (k' = k) as -> by (apply elem_of_cons in Hk' as [|]; [done|];
        destruct Hno; by apply list_elem_of_fmap_2).
      rewrite Hout2; [by rewrite Ho1, lookup_delete_eq|]. intros k2 Hk2 [= Heq]. apply Hno.
      rewrite Heq. by apply list_elem_of_fmap_2.
  - intros key Hn. rewrite Hout2 by (intros; apply Hn; by right).
    rewrite Ho1, lookup_delete_ne; [done|]. intros <-. by apply (Hn k); [left|].
Qed.

(** The net after the update was sent to each host. *)
Definition send_all (rq : UpdateRequest) (n : unet) (hosts : list string) : unet :=
  foldl (λ n h, (rpc_update n h rq).1) n hosts.

Lemma send_all_runs rq hosts s :
  (∀ n h, h ∈ hosts → (rpc_update n h rq).2 = true) →
  runs (forM hosts (updateIndex rq)) s () (wr_set_net (send_all rq (wr_net s) hosts) s).
Proof.
  revert s. induction hosts as [|h hosts IH]; intros s Hup.
  { replace (wr_set_net _ s) with s by (by destruct s). apply runs_ret. }
  simpl. eapply (runs_bind _ _ s () (wr_set_net (rpc_update (wr_net s) h rq).1 s)).
  - unfold updateIndex, runs. pose proof (Hup (wr_net s) h) as Hh.
    destruct (rpc_update (wr_net s) h rq) as [n ok]. simpl in Hh |- *. by rewrite Hh by left.
  - apply (IH (wr_set_net (rpc_update (wr_net s) h rq).1 s)). intros n h' Hh'. apply Hup. by right.
Qed.

(** etcd tells the hosts of the shard. *)
Lemma list_hosts_runs {EL : EtcdLaws E} {EU : EtcdUp E} i x s D :
  slash_free i = true → slash_free x = true → dir_rep (etcd_view (wr_etcd s)) D →
  ∃ hosts, runs (on_wr_etcd (ListSearcherHosts i (Some x))) s hosts s ∧ NoDup hosts ∧
    ∀ h, h ∈ hosts ↔ (i, x, h) ∈ dir_hosts D.
Proof.
  intros Hi Hx HD.
  destruct (up_ls (wr_etcd s) ((i +:+ "/searchers") +:+ "/" +:+ x +:+ "/hosts")) as [kvs Hkvs].
  assert (runs (ListSearcherHosts i (Some x)) (wr_etcd s) kvs.*2 (wr_etcd s)) as Hr
    by (unfold runs, ListSearcherHosts, GetAllValues; by rewrite Hkvs).
  exists kvs.*2. split; [by apply on_wr_etcd_runs|].
  by destruct (ListSearcherHosts_runs i x Hi Hx _ _ _ D HD Hr) as (_ & ? & ?).
Qed.

(** What a task leaves in the storage. *)
Record stores (t : task) (sgs : list (segment T)) s s' : Prop := {
  de_added sg : sg ∈ sgs → stored_objects s' !! (makeBucketName (tk_index t), to_string_u64 (getID sg)) =
    Some (SerializeSegment [] sg);
  de_deleted k : k ∈ tk_ids t → stored_objects s' !! (makeBucketName (tk_index t), to_string_u64 k) = None;
  de_kept o : (∀ sg, sg ∈ sgs → o ≠ (makeBucketName (tk_index t), to_string_u64 (getID sg))) →
    (∀ k, k ∈ tk_ids t → o ≠ (makeBucketName (tk_index t), to_string_u64 k)) →
    stored_objects s' !! o = stored_objects s !! o;
  de_proc : wr_proc s' = wr_proc s;
  de_shards : wr_shards s' = wr_shards s;
  de_tasks : callback_runner s' = callback_runner s;
  de_config : indexes_create_agrs s' = indexes_create_agrs s;
  de_client : s3Client (wr_storage s') = s3Client (wr_storage s);
}.

(** And what it sends. *)
Record delivered (t : task) (sgs : list (segment T)) (hosts : list string) s s' : Prop := {
  de_stores : stores t sgs s s';
  de_etcd : wr_etcd s' = wr_etcd s;
  de_net : wr_net s' = send_all (UpdateReq (getID <$> sgs) (tk_ids t) (tk_index t) (tk_shard t)) (wr_net s) hosts;
}.

Section storing.
Context (t : task) (sgs : list (segment T)) s.
Context (Hc : s3Client (wr_storage s) = true) (Hh : held s (tk_segs t) sgs).
Context (Hnd : NoDup (getID <$> sgs)).
Context (Hpos : Forall (λ k, 0 ≤ k)%Z ((getID <$> sgs) ++ tk_ids t)).
Context (Hdis : ∀ sg, sg ∈ sgs → getID sg ∉ tk_ids t).

(** The part of a task before it looks for the hosts. *)
Definition store_part : M state (list Z) :=
  on_wr_prom (IncrementCounter "callback_calls_count" (f64_of_Z 1)
                (shard_labels (tk_index t) (tk_shard t)));;
  added ← upload_all (tk_index t) (tk_segs t);
  forM (tk_ids t) (λ k, _ ← on_wr_storage (delObject (tk_index t) (to_string_u64 k)); mret ());;
  mret added.

Lemma store_part_runs :
  ∃ s', runs store_part s (getID <$> sgs) s' ∧ stores t sgs s s' ∧
    wr_etcd s' = wr_etcd s ∧ wr_net s' = wr_net s.
Proof.
  apply Forall_app in Hpos as [Hp%(Forall_fmap getID) Hdpos].
  set (s0 := wr_set_prom (IncrementCounter "callback_calls_count" (f64_of_Z 1)
    (shard_labels (tk_index t) (tk_shard t)) (wr_prom s)) s).
  destruct (upload_all_runs (tk_index t) (tk_segs t) sgs s0) as (s1 & Hr1 & Hu1 & Hin1 & Hout1);
    [done..|].
  destruct (delete_all_runs (tk_index t) (tk_ids t) s1) as (s2 & Hr2 & Hu2 & Hin2 & Hout2);
    [by rewrite (ul_client _ _ Hu1)|].
  assert (uploading s0 s2) as Hu by (by etrans).
  exists s2. split_and!; [|split|apply (ul_etcd _ _ Hu)|apply (ul_net _ _ Hu)].
  - unfold store_part. eapply (runs_bind _ _ s () s0); [apply runs_modify|].
    do 2 run_one. apply runs_ret.
  - intros sg Hin. rewrite Hout2; [by apply Hin1|]. intros k Hk [= Heq]. apply (Hdis sg Hin).
    rewrite Forall_forall in Hp. rewrite Forall_forall in Hdpos.
    by rewrite (to_string_u64_inj _ _ (Hp sg Hin) (Hdpos k Hk) Heq).
  - apply Hin2.
  - intros o Hn1 Hn2. transitivity (stored_objects s1 !! o); [by apply Hout2|by apply Hout1].
  - apply (ul_proc _ _ Hu).
  - apply (ul_shards _ _ Hu).
  - apply (ul_tasks _ _ Hu).
  - apply (ul_config _ _ Hu).
  - apply (ul_client _ _ Hu).
Qed.
End storing.

(** [run_task] is this part and the updates. *)
Lemma run_task_split t s :
  run_task t s = (added ← store_part t;
    hosts ← on_wr_etcd (ListSearcherHosts (tk_index t) (Some (tk_shard t)));
    forM hosts (updateIndex (UpdateReq added (tk_ids t) (tk_index t) (tk_shard t)))) s.
Proof.
  unfold run_task, store_part, mbind, M_bind. simpl.
  destruct (upload_all (tk_index t) (tk_segs t) _) as [s1 [added|e|u]]; [|done..].
  by destruct (forM (tk_ids t) _ s1) as [s2 [[]|e|u]].
Qed.

Lemma run_task_runs {EL : EtcdLaws E} {EU : EtcdUp E} t sgs s D :
  slash_free (tk_index t) = true → slash_free (tk_shard t) = true →
  dir_rep (etcd_view (wr_etcd s)) D → s3Client (wr_storage s) = true →
  held s (tk_segs t) sgs → NoDup (getID <$> sgs) →
  Forall (λ k, 0 ≤ k)%Z ((getID <$> sgs) ++ tk_ids t) →
  (∀ sg, sg ∈ sgs → getID sg ∉ tk_ids t) →
  (∀ n h rq, (tk_index t, tk_shard t, h) ∈ dir_hosts D → (rpc_update n h rq).2 = true) →
  ∃ s' hosts, runs (run_task t) s () s' ∧ delivered t sgs hosts s s' ∧ NoDup hosts ∧
    ∀ h, h ∈ hosts ↔ (tk_index t, tk_shard t, h) ∈ dir_hosts D.
Proof.
  intros Hi Hx HD Hc Hh Hnd Hpos Hdis Hnet.
  destruct (store_part_runs t sgs s) as (s2 & Hr2 & Hst & He & Hn); [done..|].
  destruct (list_hosts_runs (tk_index t) (tk_shard t) s2 D) as (hosts & Hr3 & Hndh & Hhosts);
    [done..|by rewrite He|].
  set (rq := UpdateReq (getID <$> sgs) (tk_ids t) (tk_index t) (tk_shard t)).
  eexists _, hosts. split_and!; [| |done..].
  - unfold runs. rewrite run_task_split. do 2 run_one.
    apply send_all_runs. intros n h Hin%Hhosts. by apply Hnet.
  - split; [by destruct Hst; split|done|]. simpl. by rewrite Hn.
Qed.
End tasks.

(** ** Requests *)

Section requests.
Context `{SL : StdLib} {E : Etcd} {DT : DoubleText} {P : PromLib} {PL : PromLaws P} {S3 : S3}
  {J : Json} {U : GrpcUpdate} {T : Type} `{B : IBaseIndex T}.
Abbreviation state := (writer E P S3 J U T).
Implicit Types s : state.

(** The state a handler refreshes its shards in. *)
Definition received_request s : state :=
  wr_set_prom (IncrementCounter "requests_count" (f64_of_Z 1) ∅ (wr_prom s)) s.

Lemma posted s i x evs :
  foldl (λ s e, post i x e s) s evs =
  wr_set_tasks (callback_runner s ++ ((λ e, Task (ev_erased e) (ev_inserted e) i x) <$> evs)) s.
Proof.
  revert s. induction evs as [|e evs IH]; intros s; simpl.
  { rewrite app_nil_r. by destruct s. }
  rewrite IH. unfold post, wr_set_tasks. simpl. by rewrite <-app_assoc.
Qed.

(** Requests that name no index the writer has. *)
Lemma reject_runs rq s s1 :
  runs updateIndexesState (received_request s) () s1 →
  (wq_attributes rq !! "index-id" = None →
    runs (ProcessWriteRequest rq) s (INVALID_ARGUMENT "Missing index id") s1) ∧
  (∀ i, wq_attributes rq !! "index-id" = Some i → wr_shards s1 !! i = None →
    runs (ProcessWriteRequest rq) s (INVALID_ARGUMENT "Wrong index id") s1).
Proof.
  intros Hu. split; [intros Ha|intros i Ha Hi]; unfold ProcessWriteRequest;
    run_one; run_one; rewrite Ha;
    [apply runs_ret|]. run_one. cbv beta. rewrite Hi. apply runs_ret.
Qed.

(** The count a gauge stands for. *)
Definition counted s (l : labels) (c : Z) : Prop :=
  match reading (wr_prom s) "vectors_count" l with
  | Some v => f64_to_u64 v = Ok c
  | None => c = 0%Z
  end.

Lemma vectors_count_runs s l c :
  counted s l c →
  runs (vectors_count l) s c (wr_set_prom (GetGaugeValue "vectors_count" l (wr_prom s)).1 s).
Proof.
  unfold counted, vectors_count, runs.
  destruct (GetGaugeValue_reading (wr_prom s) "vectors_count" l) as [<- _].
  destruct (GetGaugeValue "vectors_count" l (wr_prom s)) as [p [v|]]; simpl; [by intros ->|by intros ->].
Qed.

(** How the handler ends, up to the shard's own operation. *)
Lemma write_runs rq s s1 s2 i x c :
  runs updateIndexesState (received_request s) () s1 →
  wq_attributes rq !! "index-id" = Some i → is_Some (wr_shards s1 !! i) →
  runs (chooseShard i) s1 x s2 → counted s2 (shard_labels i x) c →
  ProcessWriteRequest rq s =
    (let l := shard_labels i x in
     let s3 := wr_set_prom (GetGaugeValue "vectors_count" l (wr_prom s2)).1 s2 in
     match wq_attributes rq !! "delete" with
     | None =>
       (on_index i x (add 1 [wq_id rq] (wq_vector_data rq));;
        on_wr_prom (SetGauge "vectors_count" (f64_of_Z (u64_add c 1)) l);; mret StatusOK) s3
     | Some _ =>
       (on_index i i (erase 1 [wq_id rq]);;
        on_wr_prom (SetGauge "vectors_count" (f64_of_Z (u64_sub c 1)) l);; mret StatusOK) s3
     end).
Proof.
  intros Hu Ha [m Hi] Hch Hc. apply vectors_count_runs in Hc. unfold ProcessWriteRequest.
  unfold runs in *. unfold mbind at 1, M_bind at 1. unfold on_wr_prom at 1, modify at 1.
  unfold mbind at 1, M_bind at 1. unfold received_request in Hu. rewrite Hu, Ha.
  unfold mbind at 1, M_bind at 1. unfold gets at 1. rewrite Hi.
  unfold mbind at 1, M_bind at 1. rewrite Hch. unfold mbind at 1, M_bind at 1. rewrite Hc.
  by destruct (wq_attributes rq !! "delete").
Qed.
End requests.
