(* ===== verification/Clients.v ===== *)
(** * Clients (app/src/WriterClient.cpp, BaseClient.cpp, CoordinatorClient.h, app/examples/run_client.cpp)

    A client turns a call over gRPC into a call that returns or throws: a
    status that is not ok becomes an exception with its code. [writer_server]
    and [coordinator_server] connect clients to the handlers of a node. *)

From S2P Require Import Prelude Cxx Floats BinaryIO StorageClient Faiss TopK IBaseIndex Segment IIndex Index IndexFactory.
From S2P Require Import Merging Stats EtcdClient Prometheus Coordinator Searcher Writer WriterSpec.

(** ** gRPC *)

(** [grpc::StatusCode] *)
Definition CODE_OK : Z := 0.
Definition CODE_UNKNOWN : Z := 2.
Definition CODE_INVALID_ARGUMENT : Z := 3.
Definition CODE_UNAVAILABLE : Z := 14.

Class GrpcWrite := {
  wnet : Type;
  (** [stub_->ProcessWriteRequest]: the code of the status *)
  rpc_write : wnet → WriteRequest → wnet * Z;
}.
Class GrpcQuery := {
  qnet : Type;
  (** [stub_->ProcessSearchRequest] of a stub for an address: the response, or
      the code of a status that is not ok *)
  rpc_query : qnet → string → SearchRequest → qnet * (SearchResponse + Z);
}.

Definition status_error (code : Z) : exn :=
  RuntimeError ("Error while processing request. gRPC status code: " +:+ pretty code).

(** ** The wrappers *)

(** A stub is the address its channel was made for. *)
Record BaseClient := Client { stub_ : string; client_address : string }.

(** [BaseClient(channel, addr)], which [CoordinatorClient] and
    [SearcherClient] inherit. *)
Definition BaseClient_new (channel addr : string) : BaseClient := Client channel addr.
Definition GetAddress (c : BaseClient) : string := client_address c.
(** [CoordinatorImpl::CreateSearcherClient] *)
Definition CreateSearcherClient (addr : string) : BaseClient := BaseClient_new addr addr.

Definition client_getProcessedDocuments `{Q : GrpcQuery} (c : BaseClient) (rq : SearchRequest) :
    M qnet SearchResponse := λ n,
  let '(n, r) := rpc_query n (stub_ c) rq in
  (n, match r with inl response => Ok response | inr code => Throw (status_error code) end).

Definition writeDocument `{W : GrpcWrite} (rq : WriteRequest) : M wnet () := λ n,
  let '(n, code) := rpc_write n rq in
  (n, if (code =? CODE_OK)%Z then Ok () else Throw (status_error code)).

(** ** The example client *)

(** [std::vector<float> data{0.1, 0.1}] *)
Definition a_tenth : f32 := SFdiv 24 128 (f32_of_Z 1) (f32_of_Z 10).
Definition example_request : SearchRequest := SearchReq [a_tenth; a_tenth] 3 "0" (Some "0").

Definition newline : string := String "010"%char EmptyString.
Definition port_not_found : exn :=
  RuntimeError ("Port not found." +:+ newline +:+ "Usage: ./example_client <server-side port>" +:+ newline).

(** [main(argc, argv)], up to the response it prints. *)
Definition run_client `{Q : GrpcQuery} (argv : list string) : M qnet SearchResponse :=
  match argv with
  | _ :: port :: _ =>
    client_getProcessedDocuments (BaseClient_new ("[::]:" +:+ port) "[::]:44400") example_request
  | _ => throw port_not_found
  end.

(** ** The etcd example *)

Section etcd_example.
Context {E : Etcd}.
(** [get(key)]: whether waiting for the answer succeeds, and then the value or
    the message of the response. *)
Context (etcd_get : kv → string → option (string + string)).

(** The example issues [set] and does not wait for it: it is applied before
    the [get] is answered, later, or not at all when the process ends first. *)
Inductive set_fate := SetBefore | SetAfter | SetNever.
Inductive printed := Cout (text : string) | Cerr (text : string).

Definition example_set : M kv () := modify (λ s, (etcd_set s "my_key" "my_value").1).
Definition example_report (response : string + string) : printed :=
  match response with
  | inl value => Cout ("Value of my_key: " +:+ value +:+ newline)
  | inr message => Cerr ("Failed to get value of my_key: " +:+ message +:+ newline)
  end.
Definition etcd_example (fate : set_fate) : M kv (option printed) :=
  (match fate with SetBefore => example_set | _ => mret () end);;
  task ← gets (λ s, etcd_get s "my_key");
  (match fate with SetAfter => example_set | _ => mret () end);;
  mret (example_report <$> task).

(** It prints the value it set only when the [set] was there first. *)
Lemma etcd_example_races {EL : EtcdLaws E} s fate :
  (∀ s k v, etcd_get s k = Some (inl v) ↔ etcd_view s !! k = Some v) →
  (etcd_set s "my_key" "my_value").2 = true → etcd_view s !! "my_key" = None →
  ∃ s' out, runs (etcd_example fate) s out s' ∧
    (out = Some (Cout ("Value of my_key: my_value" +:+ newline)) ↔ fate = SetBefore) ∧
    (etcd_view s' = <["my_key" := "my_value"]> (etcd_view s) ↔ fate ≠ SetNever).
Proof.
  intros Hget Hset Hno. destruct (etcd_set s "my_key" "my_value") as [s1 ok] eqn:Hs. simpl in Hset. subst ok.
  pose proof (etcd_set_spec _ _ _ _ Hs) as Hv.
  assert (∀ r, etcd_get s "my_key" = Some r → ∃ m, r = inr m) as Herr.
  { intros [v|m] Hr; [|by eauto]. apply Hget in Hr. congruence. }
  assert (etcd_view s ≠ <["my_key" := "my_value"]> (etcd_view s)) as Hne.
  { intros Heq. rewrite Heq, lookup_insert_eq in Hno. done. }
  assert (example_report <$> etcd_get s "my_key" ≠ Some (Cout ("Value of my_key: my_value" +:+ newline))) as Hout.
  { destruct (etcd_get s "my_key") as [r|]; [|done]. destruct (Herr r eq_refl) as [m ->]. done. }
  destruct fate; eexists _, _; (split; [reflexivity|]); simpl; rewrite ?Hs; simpl; [|by split..].
  split; [|by split]. split; [done|]. intros _.
  by rewrite (proj2 (Hget s1 "my_key" "my_value")); [|rewrite Hv; apply lookup_insert_eq].
Qed.
End etcd_example.

(** ** Servers *)

Section servers.
Context `{SL : StdLib} {E : Etcd} {DT : DoubleText} {P : PromLib} {S3 : S3} {J : Json} {U : GrpcUpdate}
  {T : Type} `{B : IBaseIndex T}.

(** gRPC turns an exception that leaves a handler into [UNKNOWN]; a process
    that is gone is [UNAVAILABLE]. *)
Definition status_code (r : outcome status) : Z :=
  match r with
  | Ok StatusOK => CODE_OK
  | Ok (INVALID_ARGUMENT _) => CODE_INVALID_ARGUMENT
  | Throw _ => CODE_UNKNOWN
  | Undef _ => CODE_UNAVAILABLE
  end.

(** A client connected to a writer. *)
Definition writer_server : GrpcWrite := {|
  wnet := writer E P S3 J U T;
  rpc_write w rq := let '(w', r) := ProcessWriteRequest rq w in (w', status_code r);
|}.

(** A client connected to a coordinator, which listens on every interface. *)
Definition coordinator_server {G : Grpc} (port : string) : GrpcQuery := {|
  qnet := coordinator E P G;
  rpc_query co addr rq :=
    if decide (addr = "[::]:" +:+ port) then
      let '(co', r) := Coordinator.ProcessSearchRequest rq co in
      (co', match r with
            | Ok ids => inl ids
            | Throw _ => inr CODE_UNKNOWN
            | Undef _ => inr CODE_UNAVAILABLE
            end)
    else (co, inr CODE_UNAVAILABLE);
|}.
End servers.

(** ** Which writes are refused *)

Section refused.
Context `{SL : StdLib} {E : Etcd} {EL : EtcdLaws E} {EU : EtcdUp E} {DT : DoubleText} {P : PromLib} {S3 : S3}
  {S3L : S3Laws S3} {S3U : S3Up S3} {J : Json} {U : GrpcUpdate} {T : Type} `{B : IBaseIndex T}.
Implicit Types w : writer E P S3 J U T.

(** The index a request names: one that is configured and has shards, or one
    that the writer has for another reason. *)
Definition known (D : directory) w (i : string) : Prop :=
  match indexes_create_agrs w !! i with
  | Some _ => ∃ x, listed D i x
  | None => is_Some (wr_shards w !! i)
  end.

(** Past the checks the handler refuses nothing. *)
Lemma accepted_code rq w w1 i m msg :
  runs updateIndexesState (received_request w) () w1 →
  wq_attributes rq !! "index-id" = Some i → wr_shards w1 !! i = Some m →
  (ProcessWriteRequest rq w).2 ≠ Ok (INVALID_ARGUMENT msg).
Proof.
  intros Hu Ha Hi. unfold ProcessWriteRequest. unfold mbind at 1, M_bind at 1, on_wr_prom, modify.
  unfold mbind at 1, M_bind at 1. unfold received_request in Hu. rewrite Hu, Ha.
  unfold mbind at 1, M_bind at 1, gets at 1. rewrite Hi.
  revert w1 Hu Hi. intros w1 _ _. revert w1.
  do 2 (apply never_bind_at; intros ?). destruct (wq_attributes rq !! "delete");
    (do 2 (apply never_bind_at; intros ?); done).
Qed.

Lemma known_shards D w w1 i :
  (∀ i, is_Some (indexes_create_agrs w !! i) → follows D i (received_request w) w1) →
  (∀ i, indexes_create_agrs w !! i = None → wr_shards w1 !! i = wr_shards w !! i) →
  known D w i ↔ is_Some (wr_shards w1 !! i).
Proof.
  intros Hf Ho. unfold known. destruct (indexes_create_agrs w !! i) as [cfg|] eqn:Hi; [|by rewrite Ho].
  destruct (Hf i) as (Hl & _ & Hn); [by eauto|]. split.
  - intros [x Hx]. apply Hl in Hx. unfold shard in Hx. destruct (wr_shards w1 !! i); [by eauto|by destruct Hx].
  - intros [m Hm]. destruct (decide (m = ∅)) as [->|Hne].
    + rewrite Hn in Hm; [done|]. intros x Hx%Hl. unfold shard in Hx. rewrite Hm in Hx. simpl in Hx.
      rewrite lookup_empty in Hx. by destruct Hx.
    + destruct (map_choose m Hne) as (x & idx & Hx). exists x. apply Hl. unfold shard. rewrite Hm. simpl. eauto.
Qed.

(** The client of a writer throws code 3 for exactly the requests that name no
    index the writer knows. *)
Lemma write_refused rq w D :
  map_Forall (λ i cfg, config_ok (i, cfg)) (indexes_create_agrs w) →
  dir_rep (etcd_view (wr_etcd w)) D → s3Client (wr_storage w) = true →
  ∃ w1, runs updateIndexesState (received_request w) () w1 ∧
    (∀ i x idx, shard i x w = Some idx → (is_Some (indexes_create_agrs w !! i) → listed D i x) → shard i x w1 = Some idx) ∧
    callback_runner w1 = callback_runner w ∧
    ((¬ ∃ i, wq_attributes rq !! "index-id" = Some i ∧ known D w i) →
      ∃ msg, ProcessWriteRequest rq w = (w1, Ok (INVALID_ARGUMENT msg))) ∧
    (∀ i msg, wq_attributes rq !! "index-id" = Some i → known D w i →
      (ProcessWriteRequest rq w).2 ≠ Ok (INVALID_ARGUMENT msg)).
Proof.
  intros Hc HD Hs. destruct (updateIndexesState_runs (received_request w) D Hc HD Hs) as (w1 & Hu & Hf & Ho & _ & _ & Hcb).
  pose proof (known_shards D w w1) as Hk. destruct (reject_runs rq w w1 Hu) as [Hr1 Hr2].
  exists w1. split_and!; [done| |done| |].
  - intros i x idx Hx Hl. destruct (indexes_create_agrs w !! i) as [cfg|] eqn:Hi.
    + destruct (Hf i) as (_ & Hkeep & _); [by eauto|]. apply Hkeep; [done|]. apply Hl. eauto.
    + unfold shard. rewrite Ho by done. exact Hx.
  - intros Hno. destruct (wq_attributes rq !! "index-id") as [i|] eqn:Ha; [|by eexists; apply Hr1].
    eexists. apply (Hr2 i); [done|]. destruct (wr_shards w1 !! i) as [m|] eqn:Hm; [|done]. exfalso.
    apply Hno. exists i. split; [done|]. apply Hk; [done..|]. eauto.
  - intros i msg Ha [m Hm]%(Hk i Hf Ho). by eapply accepted_code.
Qed.
End refused.
