(* ===== verification/Publication.v ===== *)
(** * What a writer publishes (app/src/Writer.cpp)

    The indexes of a writer share its process. [wr_ok] is the invariant of a
    writer: each of its indexes is well formed, no two share a segment, and
    every segment an index handed to its storage is either named by a task
    that has not run yet or is in the object store, as it is now, under its
    id. Requests and tasks keep it, in any order ([legal_step_ok]). *)

From S2P Require Import Prelude Cxx Floats BinaryIO StorageClient Faiss TopK IBaseIndex Segment.
From S2P Require Import IIndex Events Storage Index IndexSpec IndexFactory Merging Stats EtcdClient.
From S2P Require Import Prometheus Coordinator Searcher Writer WriterSpec.

(** ** Indexes that share a process *)

Section frame.
Context `{SL : StdLib} {T : Type} `{L : IBaseIndexLaws T}.
Context (V : list f32 → Prop).

(** The segments an index points to. *)
Definition knows (i : index_state) (l : loc) : Prop := l ∈ owned i ∨ l ∈ segments_ i.

Definition proc_wf (p : proc T) : Prop := ∀ l, is_Some (heap p !! l) → l < fresh p.

(** An index does not notice changes to other segments. *)
Lemma idx_inv_frame low p p' i lg lg' :
  idx_inv V low (St p i lg) → proc_wf p' → draws p ≤ draws p' →
  (∀ l, knows i l → heap p' !! l = heap p !! l) →
  idx_inv V low (St p' i lg') ∧ content (St p' i lg') = content (St p i lg).
Proof.
  intros [[Ha Hg Hn Hl Hk Hs Hcnt] Hre Hthr Hdim (sg & Hlast & Hfill)] Hp Hd Hsame. simpl in *.
  assert (∀ l, knows i l → entries_at (heap p') l = entries_at (heap p) l) as He.
  { intros l Hin. unfold entries_at. by rewrite Hsame. }
  assert (content (St p' i lg') = content (St p i lg)) as Hc.
  { unfold content. simpl. apply contents_ext. intros l Hin. apply He. by left. }
  assert (knows i (last_ i)) as Hkl by (left; apply elem_of_app; right; by left).
  split; [|done]. split; simpl; [| |done..|].
  - split; simpl; [done| |done..|by rewrite Hc| |done].
    + intros l Hin. rewrite Hsame by done. by apply Hg.
    + intros l e Hin. rewrite Hc, He by (by right). by apply Hs.
  - intros Hdd. destruct Hre as [Rs Ri Rj _ _]; [by eapply rand_distinct_mono|].
    split; simpl in *; [done| | |set_solver..].
    + intros l sg' Hin. rewrite Hsame by (by left). intros (n & ? & ->)%Ri; [|done]. exists n. split; [lia|done].
    + intros l l' sg1 sg2 Hin Hin'. rewrite !Hsame by (by left). by apply Rj.
  - exists sg. by rewrite Hsame.
Qed.

Lemma idx_inv_callback low s b :
  idx_inv V low s → idx_inv V low (on_idx (λ i, set_callback i b) s).
Proof. intros [[] Hre Hthr Hdim Hf]. split; [by split| |done..]. intros Hd. destruct (Hre Hd). by split. Qed.

Lemma knows_alloc low p i lg l : idx_inv V low (St p i lg) → knows i l → is_Some (heap p !! l).
Proof. intros Hi Hl. destruct (c_good _ _ (i_core _ _ _ Hi) l Hl) as (sg & Hsg & _). by eauto. Qed.
End frame.

(** ** The invariant *)

Section writer.
Context `{SL : StdLib} {E : Etcd} {DT : DoubleText} {P : PromLib} {S3 : S3} {S3L : S3Laws S3}
  {S3U : S3Up S3} {J : Json} {U : GrpcUpdate} {T : Type} `{L : IBaseIndexLaws T}.
Context (V : list f32 → Prop).
Abbreviation state := (writer E P S3 J U T).
Implicit Types w : state.

(** A configuration whose threshold an index can be made with. *)
Definition config_good (cfg : json) : Prop :=
  ∀ r, parse_index cfg = Ok r → (0 < rq_threshold r < 2 ^ 31)%Z.

(** The index of a shard was made from its index's configuration. *)
Definition configured w (i : string) (idx : index_state) : Prop :=
  ∃ cfg r, indexes_create_agrs w !! i = Some cfg ∧ parse_index cfg = Ok r ∧ d_ idx = rq_dim r ∧
    factory_ idx = rq_args r.

(** The shape of the segments of an index. *)
Definition conf_shape w (i : string) (sh : shape) : Prop :=
  ∃ cfg r, indexes_create_agrs w !! i = Some cfg ∧ parse_index cfg = Ok r ∧
    sh = ib_shape (ib_make (rq_args r) : T).

Lemma configured_shape w i idx sh :
  configured w i idx → conf_shape w i sh → idx_shape (T:=T) idx = sh.
Proof.
  intros (cfg & r & Hc & Hr & _ & Hf) (cfg' & r' & Hc' & Hr' & ->). simplify_eq.
  rewrite Hr in Hr'. simplify_eq. unfold idx_shape. by rewrite Hf.
Qed.

Definition in_use w (l : loc) : Prop := ∃ i x idx, shard i x w = Some idx ∧ l ∈ owned idx.

(** A task to come will upload the segment. *)
Definition pending w (i x : string) (l : loc) : Prop :=
  ∃ t, t ∈ callback_runner w ∧ tk_index t = i ∧ tk_shard t = x ∧ l ∈ tk_segs t.

(** The object store has the segment as it is now. *)
Definition stored_now w (i : string) (sg : segment T) : Prop :=
  stored_objects w !! (makeBucketName i, to_string_u64 (getID sg)) = Some (SerializeSegment [] sg).

(** Every segment an index handed to its storage waits for a task, or [Done]
    holds of it. *)
Definition sealed_done (Done : string → string → segment T → Prop) w : Prop :=
  ∀ i x idx l sg, shard i x w = Some idx → l ∈ level_locs (levels idx) →
    heap (wr_proc w) !! l = Some sg → pending w i x l ∨ Done i x sg.

Record published_ok w : Prop := {
  pk_ids : unique_ids (wr_proc w);
  pk_tasks t : t ∈ callback_runner w → handed (wr_proc w) (in_use w) (tk_ids t) (tk_segs t);
  (** a task's segments are of the shape its index has, and no other index's *)
  pk_origin t l j y idx : t ∈ callback_runner w → l ∈ tk_segs t → shard j y w = Some idx →
    knows idx l → tk_index t = j;
  pk_good t l sg sh : t ∈ callback_runner w → l ∈ tk_segs t → heap (wr_proc w) !! l = Some sg →
    conf_shape w (tk_index t) sh → seg_good V sh sg;
  pk_sealed : sealed_done (λ i _, stored_now w i) w;
}.

Record wr_ok w : Prop := {
  wk_client : s3Client (wr_storage w) = true;
  wk_config : map_Forall (λ _, config_good) (indexes_create_agrs w);
  wk_alloc : proc_wf (wr_proc w);
  wk_shard i x idx : shard i x w = Some idx →
    idx_inv V 0 (St (wr_proc w) idx []) ∧ callback_ idx = true ∧ configured w i idx;
  wk_apart i x idx j y idx' l : shard i x w = Some idx → shard j y w = Some idx' →
    knows idx l → knows idx' l → i = j ∧ x = y;
  wk_published : rand_distinct (wr_proc w) → published_ok w;
}.

(** Nothing but shards that are dropped. *)
Record shrinks w w' : Prop := {
  sk_shard i x idx : shard i x w' = Some idx → shard i x w = Some idx;
  sk_proc : wr_proc w' = wr_proc w;
  sk_tasks : callback_runner w' = callback_runner w;
  sk_config : indexes_create_agrs w' = indexes_create_agrs w;
  sk_client : s3Client (wr_storage w') = s3Client (wr_storage w);
  sk_objects : stored_objects w' = stored_objects w;
}.

Lemma shrinks_ok w w' : shrinks w w' → wr_ok w → wr_ok w'.
Proof.
  intros [Hs Hp Ht Hg Hc Ho] [Kc Kg Ka Ks Kp Kb]. split; rewrite ?Hp, ?Hg, ?Hc; try done.
  - intros i x idx (? & ? & ?)%Hs%Ks. unfold configured. by rewrite Hg.
  - intros i x idx j y idx' l H1%Hs H2%Hs. by eapply Kp.
  - intros Hd. destruct (Kb Hd) as [Pi Pt Po Pg Ps]. split; rewrite ?Hp, ?Ht; [done|..].
    + intros t Hin. destruct (Pt t Hin) as [? ? ? Hcl]. split; [done..|].
      intros k l sg Hk [(i & x & idx & Hx%Hs & Hl)|Hl]; apply Hcl; auto. left. by exists i, x, idx.
    + intros t l j y idx Hin Hl Hx%Hs. by eapply Po.
    + unfold conf_shape. rewrite Hg. apply Pg.
    + intros i x idx l sg Hx%Hs Hl. unfold pending, stored_now. rewrite Hp, Ht, Ho. by apply (Ps i x idx l sg).
Qed.

Lemma shrinks_sealed Done w w' : shrinks w w' → sealed_done Done w → sealed_done Done w'.
Proof.
  intros [Hs Hp Ht _ _ _] Hd i x idx l sg Hx%Hs. unfold pending. rewrite Hp, Ht. by apply (Hd i x idx l sg).
Qed.

(** The vectors in the segments of the process are among [given]. *)
Definition all_given (given : list (string * list f32)) w : Prop :=
  ∀ l sg e, heap (wr_proc w) !! l = Some sg → e ∈ seg_entries sg → e ∈ given.

(** The shard [x] of [i] gets the index [idx], made or changed in the process,
    with the tasks [ts] posted on the way and the vectors [new] added. *)
Record grows (i x : string) (idx : index_state) (ts : list task) (new : list (string * list f32)) w w' : Prop := {
  gr_shard j y : shard j y w' = if decide (j = i ∧ y = x) then Some idx else shard j y w;
  gr_tasks : callback_runner w' = callback_runner w ++ ts;
  gr_config : indexes_create_agrs w' = indexes_create_agrs w;
  gr_client : s3Client (wr_storage w') = s3Client (wr_storage w);
  gr_objects : stored_objects w' = stored_objects w;
  gr_alloc : proc_wf (wr_proc w');
  gr_evolves : evolves (wr_proc w) (wr_proc w');
  gr_inv : idx_inv V 0 (St (wr_proc w') idx []) ∧ callback_ idx = true ∧ configured w i idx;
  (** the segments of other shards *)
  gr_others j y idx' l : ¬ (j = i ∧ y = x) → shard j y w = Some idx' → knows idx' l →
    heap (wr_proc w') !! l = heap (wr_proc w) !! l ∧ ¬ knows idx l;
  gr_owned l : l ∈ owned idx → in_use w l ∨ heap (wr_proc w) !! l = None;
  gr_known l : knows idx l → is_Some (heap (wr_proc w) !! l) →
    ∃ idx0, shard i x w = Some idx0 ∧ knows idx0 l;
  (** a segment that was written belongs to the shard *)
  gr_heap l sg : heap (wr_proc w') !! l = Some sg →
    heap (wr_proc w) !! l = Some sg ∨
    seg_good V (idx_shape idx) sg ∧
    (is_Some (heap (wr_proc w) !! l) → ∃ idx0, shard i x w = Some idx0 ∧ knows idx0 l) ∧
    ∀ e, e ∈ seg_entries sg →
      (∃ l0 sg0, heap (wr_proc w) !! l0 = Some sg0 ∧ e ∈ seg_entries sg0) ∨ e ∈ new;
  gr_handed t : rand_distinct (wr_proc w') → t ∈ ts →
    handed (wr_proc w') (in_use w') (tk_ids t) (tk_segs t);
  gr_new t l : t ∈ ts → l ∈ tk_segs t → tk_index t = i ∧
    ((∃ idx0, shard i x w = Some idx0 ∧ l ∈ owned idx0) ∨ heap (wr_proc w) !! l = None);
  gr_sealed l sg : l ∈ level_locs (levels idx) → heap (wr_proc w') !! l = Some sg →
    (∃ t, t ∈ ts ∧ tk_index t = i ∧ tk_shard t = x ∧ l ∈ tk_segs t) ∨
    ∃ idx0, shard i x w = Some idx0 ∧ l ∈ level_locs (levels idx0) ∧ heap (wr_proc w) !! l = Some sg;
}.

Section grows.
Context (i x : string) (idx : index_state) (ts : list task) (new : list (string * list f32)) w w'.
Context (Hg : grows i x idx ts new w w').

Lemma grows_case j y idx' :
  shard j y w' = Some idx' →
  (j = i ∧ y = x ∧ idx' = idx) ∨ (¬ (j = i ∧ y = x) ∧ shard j y w = Some idx').
Proof.
  rewrite (gr_shard _ _ _ _ _ _ _ Hg). case_decide as Hd; [intros [= <-]; left; tauto|by right].
Qed.

Lemma grows_in_use l : in_use w' l → in_use w l ∨ heap (wr_proc w) !! l = None.
Proof.
  intros (j & y & idx' & [(-> & -> & ->)|[_ Hx]]%grows_case & Hl); [by apply (gr_owned _ _ _ _ _ _ _ Hg)|].
  left. by exists j, y, idx'.
Qed.

Lemma grows_pending j y l : pending w j y l → pending w' j y l.
Proof.
  intros (t & Ht & ? & ? & ?). exists t. rewrite (gr_tasks _ _ _ _ _ _ _ Hg), elem_of_app. by split_and!; [left|..].
Qed.

Lemma grows_sealed Done : sealed_done Done w → sealed_done Done w'.
Proof.
  intros Hd j y idx' l sg [(-> & -> & ->)|[Hne Hx]]%grows_case Hl Hsg.
  - destruct (gr_sealed _ _ _ _ _ _ _ Hg l sg Hl Hsg) as [(t & Ht & Hi & Hx & Hs)|(idx0 & Hx0 & Hl0 & Hsg0)].
    + left. exists t. rewrite (gr_tasks _ _ _ _ _ _ _ Hg), elem_of_app. by split_and!; [right|..].
    + destruct (Hd i x idx0 l sg Hx0 Hl0 Hsg0); [left; by apply grows_pending|by right].
  - assert (knows idx' l) as Hk by (left; apply elem_of_app; by left).
    destruct (gr_others _ _ _ _ _ _ _ Hg j y idx' l Hne Hx Hk) as [Hsame _]. rewrite Hsame in Hsg.
    destruct (Hd j y idx' l sg Hx Hl Hsg); [left; by apply grows_pending|by right].
Qed.

Lemma grows_given given : all_given given w → all_given (given ++ new) w'.
Proof.
  intros Hall l sg e Hsg He. apply elem_of_app.
  destruct (gr_heap _ _ _ _ _ _ _ Hg l sg Hsg) as [?|(_ & _ & Hent)]; [left; by eapply Hall|].
  destruct (Hent e He) as [(l0 & sg0 & ? & ?)|?]; [left; by eapply Hall|by right].
Qed.

Section published.
Context (Hw : wr_ok w) (Hd : rand_distinct (wr_proc w')).

Lemma grows_before : published_ok w.
Proof.
  apply (wk_published _ Hw). eapply rand_distinct_mono; [|exact Hd].
  apply (ev_draws _ _ (gr_evolves _ _ _ _ _ _ _ Hg)).
Qed.

Lemma grows_origin t l j y idx' :
  t ∈ callback_runner w' → l ∈ tk_segs t → shard j y w' = Some idx' → knows idx' l → tk_index t = j.
Proof.
  destruct grows_before as [_ Pt Po _ _]. rewrite (gr_tasks _ _ _ _ _ _ _ Hg), elem_of_app.
  intros [Ht|Ht] Hl [(-> & -> & ->)|[Hne Hx]]%grows_case Hk.
  - destruct (gr_known _ _ _ _ _ _ _ Hg l Hk) as (idx0 & Hx0 & Hk0); [by apply (ha_live _ _ _ _ (Pt t Ht))|].
    by eapply Po.
  - by eapply Po.
  - by apply (gr_new _ _ _ _ _ _ _ Hg t l Ht Hl).
  - destruct (wk_shard _ Hw j y idx' Hx) as [Hinv _]. apply (knows_alloc V _ _ _ _ _ Hinv) in Hk as Hlive.
    destruct (gr_new _ _ _ _ _ _ _ Hg t l Ht Hl) as [_ [(idx0 & Hx0 & Hl0)|Hnone]].
    + destruct Hne. destruct (wk_apart _ Hw i x idx0 j y idx' l) as [-> ->]; [done..|by left|done|done].
    + rewrite Hnone in Hlive. by destruct Hlive.
Qed.

Lemma grows_good t l sg sh :
  t ∈ callback_runner w' → l ∈ tk_segs t → heap (wr_proc w') !! l = Some sg →
  conf_shape w' (tk_index t) sh → seg_good V sh sg.
Proof.
  destruct grows_before as [_ Pt Po Pg _]. unfold conf_shape. rewrite (gr_config _ _ _ _ _ _ _ Hg).
  fold (conf_shape w (tk_index t) sh). destruct (gr_inv _ _ _ _ _ _ _ Hg) as (_ & _ & Hconf).
  rewrite (gr_tasks _ _ _ _ _ _ _ Hg), elem_of_app. intros [Ht|Ht] Hl Hsg Hsh.
  - destruct (gr_heap _ _ _ _ _ _ _ Hg l sg Hsg) as [?|(Hgood & Hmine & _)]; [by eapply Pg|].
    destruct Hmine as (idx0 & Hx0 & Hk0); [by apply (ha_live _ _ _ _ (Pt t Ht))|].
    rewrite (Po t l i x idx0 Ht Hl Hx0 Hk0) in Hsh. by rewrite <-(configured_shape w i idx sh Hconf Hsh).
  - destruct (gr_new _ _ _ _ _ _ _ Hg t l Ht Hl) as [Hi Hsrc]. rewrite Hi in Hsh. clear Hi.
    destruct (gr_heap _ _ _ _ _ _ _ Hg l sg Hsg) as [Hold|(Hgood & _)];
      [|by rewrite <-(configured_shape w i idx sh Hconf Hsh)].
    destruct Hsrc as [(idx0 & Hx0 & Hl0)|Hnone]; [|congruence].
    destruct (wk_shard _ Hw i x idx0 Hx0) as (Hinv & _ & Hconf0).
    destruct (c_good _ _ (i_core _ _ _ Hinv) l (or_introl Hl0)) as (sg0 & Hsg0 & Hgood). simpl in Hsg0, Hgood.
    simplify_eq. by rewrite <-(configured_shape w i idx0 sh Hconf0 Hsh).
Qed.

Lemma grows_published : published_ok w'.
Proof.
  pose proof (gr_evolves _ _ _ _ _ _ _ Hg) as Hev. pose proof grows_before as [Pi Pt _ _ Ps]. split.
  - by apply (ev_unique _ _ Hev).
  - intros t. rewrite (gr_tasks _ _ _ _ _ _ _ Hg). intros [Hin|Hin]%elem_of_app.
    + eapply handed_evolves; [done..|apply grows_in_use|by apply Pt].
    + by apply (gr_handed _ _ _ _ _ _ _ Hg).
  - apply grows_origin.
  - apply grows_good.
  - unfold stored_now. rewrite (gr_objects _ _ _ _ _ _ _ Hg). by apply (grows_sealed (λ i _, stored_now w i)).
Qed.
End published.

Lemma grows_ok : wr_ok w → wr_ok w'.
Proof.
  intros Hw. pose proof Hw as [Kc Kg Ka Ks Kp _].
  split; rewrite ?(gr_config _ _ _ _ _ _ _ Hg), ?(gr_client _ _ _ _ _ _ _ Hg); try done.
  - apply (gr_alloc _ _ _ _ _ _ _ Hg).
  - intros j y idx' Hx. unfold configured. rewrite (gr_config _ _ _ _ _ _ _ Hg).
    apply grows_case in Hx as [(-> & -> & ->)|[Hne Hx]]; [apply (gr_inv _ _ _ _ _ _ _ Hg)|].
    destruct (Ks j y idx' Hx) as (Hinv & ? & ?). split; [|done].
    eapply idx_inv_frame; [exact Hinv|apply (gr_alloc _ _ _ _ _ _ _ Hg)|apply (gr_evolves _ _ _ _ _ _ _ Hg)|].
    intros l Hl. by apply (gr_others _ _ _ _ _ _ _ Hg j y idx').
  - intros j y idx1 j' y' idx2 l H1 H2 Hk1 Hk2.
    apply grows_case in H1 as [(-> & -> & ->)|[Hne1 H1]], H2 as [(-> & -> & ->)|[Hne2 H2]]; [done|..].
    + by destruct (gr_others _ _ _ _ _ _ _ Hg j' y' idx2 l).
    + by destruct (gr_others _ _ _ _ _ _ _ Hg j y idx1 l).
    + by eapply Kp.
  - by apply grows_published.
Qed.
End grows.

(** ** A shard's own calls *)

Lemma shard_put w0 w i x j y idx :
  wr_shards w0 = put2 i x idx (wr_shards w) →
  shard j y w0 = if decide (j = i ∧ y = x) then Some idx else shard j y w.
Proof.
  unfold shard, put2. intros ->. rewrite lookup_insert. case_decide as Hi; [subst j|].
  - simpl. rewrite lookup_insert. case_decide as Hx; [subst y; by rewrite decide_True|].
    rewrite decide_False by naive_solver. by destruct (wr_shards w !! i).
  - by rewrite decide_False by naive_solver.
Qed.

Definition task_of (i x : string) (e : event) : task := Task (ev_erased e) (ev_inserted e) i x.

(** The state after a call on a shard's index that ends in [s]. *)
Definition called (i x : string) (s : st T) w : state :=
  wr_set_tasks (callback_runner w ++ (task_of i x <$> st_log s))
    (wr_set_shards (put2 i x (st_idx s) (wr_shards w)) (wr_set_proc (st_proc s) w)).

Section called.
Context w (i x : string) (idx : index_state) (s : st T).
Context (Hw : wr_ok w) (Hx : shard i x w = Some idx).
Let s0 : st T := St (wr_proc w) idx [].
Context (new : list (string * list f32)) (Hcont : content s ≡ₚ content s0 ++ new).
Context (Hinv : idx_inv V 0 s) (Hap : apart s0 s) (Hem : emits s0 s) (Hrw : rewrites V s0 s).

Lemma called_others j y idx' l :
  ¬ (j = i ∧ y = x) → shard j y w = Some idx' → knows idx' l →
  heap (st_proc s) !! l = heap (wr_proc w) !! l ∧ ¬ knows (st_idx s) l.
Proof.
  intros Hne Hy Hl. destruct (wk_shard _ Hw j y idx' Hy) as [Hinv' _].
  assert (l < fresh (wr_proc w)) as Hlt by (apply (wk_alloc _ Hw); by eapply knows_alloc).
  assert (¬ knows idx l) as Hno.
  { intros Hk. by destruct Hne, (wk_apart _ Hw i x idx j y idx' l) as [-> ->]. }
  split.
  - apply (a_heap _ _ Hap); [done|..]; intros ?; apply Hno; [by left|by right].
  - intros Hk. by apply Hno, (a_owned _ _ Hap l Hlt).
Qed.

(** The ids an index gave up are no other shard's. *)
Lemma called_clear k j y idx' l sg :
  rand_distinct (st_proc s) → given_up s0 s k → ¬ (j = i ∧ y = x) → shard j y w = Some idx' →
  l ∈ owned idx' → heap (st_proc s) !! l = Some sg → seg_id sg ≠ k.
Proof.
  intros Hd Hgu Hne Hy Hl Hsg Heq. pose proof (ev_draws _ _ (em_evolves _ _ Hem)) as Hdr.
  assert (knows idx' l) as Hk by (by left).
  destruct (called_others j y idx' l Hne Hy Hk) as [Hsame _]. rewrite Hsame in Hsg.
  destruct (pk_ids _ (wk_published _ Hw (rand_distinct_mono _ _ Hdr Hd))) as [Hdrawn Hinj].
  destruct Hgu as [(l0 & sg0 & Hl0 & Hsg0 & Hk0)|(n & Hn & Hkn)].
  - assert (l = l0) as -> by (eapply Hinj; [done..|congruence]).
    destruct Hne. destruct (wk_apart _ Hw i x idx j y idx' l0) as [-> ->]; [done..|by left|done|done].
  - destruct (Hdrawn l sg Hsg) as (m & Hm & Hidm). simpl in *.
    assert (m = n); [|lia]. apply (rand_inj (st_proc s)); [done|lia..|congruence].
Qed.

Lemma called_heap l sg :
  heap (st_proc s) !! l = Some sg →
  heap (wr_proc w) !! l = Some sg ∨
  seg_good V (idx_shape (st_idx s)) sg ∧
  (is_Some (heap (wr_proc w) !! l) → ∃ idx0, shard i x w = Some idx0 ∧ knows idx0 l) ∧
  ∀ e, e ∈ seg_entries sg →
    (∃ l0 sg0, heap (wr_proc w) !! l0 = Some sg0 ∧ e ∈ seg_entries sg0) ∨ e ∈ new.
Proof.
  intros Hsg. destruct (decide (is_Some (heap (wr_proc w) !! l) ∧ ¬ (l ∈ owned idx ∨ l ∈ segments_ idx))) as [[Hl Hno]|Hk].
  { left. rewrite <-Hsg. symmetry. apply (a_heap _ _ Hap); [by apply (wk_alloc _ Hw)|simpl; tauto..]. }
  destruct (rw_heap _ _ _ Hrw l sg Hsg) as [?|[Hg He]]; [by left|right]. split_and!.
  - unfold idx_shape in *. by rewrite (rw_factory _ _ _ Hrw).
  - intros Hl. exists idx. split; [done|]. apply dec_stable. unfold knows. tauto.
  - intros e Hin. apply He in Hin. rewrite Hcont in Hin.
    apply elem_of_app in Hin as [(l0 & _ & Hin)%elem_of_contents|Hin]; [left|by right].
    unfold entries_at in Hin. simpl in Hin. destruct (heap (wr_proc w) !! l0) as [sg0|] eqn:Hl0; [|by apply elem_of_nil in Hin].
    by exists l0, sg0.
Qed.

Lemma called_grows : grows i x (st_idx s) (task_of i x <$> st_log s) new w (called i x s w).
Proof.
  pose proof (em_evolves _ _ Hem) as Hev. destruct (wk_shard _ Hw i x idx Hx) as (_ & Hcb & cfg & r & ? & ? & Hd & Hfac).
  pose proof (λ j y, shard_put (called i x s w) w i x j y (st_idx s) eq_refl) as Hsh.
  destruct (em_events _ _ Hem) as (evs & Hlog & Hcov & Hha & Hgu). simpl in Hlog.
  split; try done.
  - exact (c_alloc _ _ (i_core _ _ _ Hinv)).
  - destruct (a_conf _ _ Hap) as (Hd' & _ & Hf' & _ & Hcb'). simpl in Hd', Hf', Hcb'. split_and!.
    + by destruct (idx_inv_frame V 0 (st_proc s) (st_proc s) (st_idx s) (st_log s) []) as [? _];
        [by destruct s|exact (c_alloc _ _ (i_core _ _ _ Hinv))|..].
    + by rewrite Hcb'.
    + exists cfg, r. by rewrite Hd', Hf'.
  - intros. by eapply called_others.
  - intros l Hl. destruct (em_owned _ _ Hem l Hl) as [?|?]; [left|by right]. by exists i, x, idx.
  - intros l Hk Hl. exists idx. split; [done|]. by apply (a_owned _ _ Hap l (wk_alloc _ Hw l Hl)).
  - apply called_heap.
  - intros t Hdd (e & -> & He)%list_elem_of_fmap. rewrite Hlog in He. specialize (Hha Hdd).
    rewrite Forall_forall in Hha. rewrite Forall_forall in Hgu. destruct (Hha e He) as [? ? ? Hcl].
    split; [done..|]. intros k l sg Hk [(j & y & idx' & Hy & Hl)|Hl] Hsg; [|by eapply Hcl; [|right|]].
    rewrite Hsh in Hy. case_decide as Hne; [simplify_eq; by eapply Hcl; [|left|]|].
    eapply called_clear; [done|by apply (proj1 (Hgu e He))|done..].
  - intros t l (e & -> & He)%list_elem_of_fmap Hl. rewrite Hlog in He. rewrite Forall_forall in Hgu.
    split; [done|]. destruct (Hgu e He) as [_ Hins]. destruct (Hins l Hl) as [?|?]; [left; by exists idx|by right].
  - intros l sg Hl Hsg. destruct (Hcov l Hl) as [(e & Hin & He)%list_elem_of_bind|[Hl0 Hsame]].
    + left. exists (task_of i x e). split_and!; [|done..]. apply list_elem_of_fmap_2. by rewrite Hlog.
    + right. exists idx. simpl in Hsame, Hsg. by rewrite <-Hsame.
Qed.
End called.

Lemma created_grows w i x cfg r p idx :
  wr_ok w → indexes_create_agrs w !! i = Some cfg → parse_index cfg = Ok r →
  Index (rq_dim r) (rq_threshold r) (rq_merge r) (rq_args r) (wr_proc w) = (p, idx) →
  grows i x (set_callback idx true) [] [] w
    (wr_set_shards (put2 i x (set_callback idx true) (wr_shards w)) (wr_set_proc p w)) ∧
  content (St p (set_callback idx true) []) = [].
Proof.
  intros Hw Hcfg Hr Hidx. pose proof (Index_spec V (rq_dim r) (rq_threshold r) (rq_merge r) (rq_args r) (wr_proc w)
    (wk_alloc _ Hw) (wk_config _ Hw i cfg Hcfg r Hr) (parse_index_dim cfg r Hr)) as Hnew.
  rewrite Hidx in Hnew. destruct Hnew as [Hinv Hcont]. apply (idx_inv_callback V 0 _ true) in Hinv.
  assert (heap (wr_proc w) !! fresh (wr_proc w) = None) as Hfresh.
  { apply eq_None_not_Some. intros ?%(wk_alloc _ Hw). lia. }
  unfold Index in Hidx. injection Hidx as Hp Hi.
  assert (∀ l, knows (set_callback idx true) l → l = fresh (wr_proc w)) as Hknows.
  { intros l. rewrite <-Hi. unfold knows, owned. simpl. set_solver. }
  split; [split|done].
  - intros j y. by apply shard_put.
  - by rewrite app_nil_r.
  - done.
  - done.
  - done.
  - exact (c_alloc _ _ (i_core _ _ _ Hinv)).
  - simpl. rewrite <-Hp. by apply (evolves_draw (wr_proc w) _ (Segment (rq_args r) _) (S (fresh (wr_proc w)))).
  - split_and!; [done..|]. exists cfg, r. split_and!; [done..|by rewrite <-Hi|by rewrite <-Hi].
  - intros j y idx' l _ Hy Hk. destruct (wk_shard _ Hw j y idx' Hy) as [Hinv' _].
    assert (l ≠ fresh (wr_proc w)) as Hne.
    { intros ->. apply (knows_alloc V _ _ _ _ _ Hinv') in Hk. rewrite Hfresh in Hk. by destruct Hk. }
    split; [|by intros ?%Hknows]. simpl. rewrite <-Hp. simpl. by rewrite lookup_insert_ne.
  - intros l Hl. right. rewrite (Hknows l); [done|by left].
  - intros l ->%Hknows. rewrite Hfresh. by intros [].
  - intros l sg. simpl. rewrite <-Hp. simpl. rewrite lookup_insert. case_decide as Hl; [|by left].
    intros [= <-]. right. subst l. rewrite Hfresh. split_and!; [|by intros []|].
    + destruct (c_good _ _ (i_core _ _ _ Hinv) (fresh (wr_proc w))) as (sg & Hsg & Hgood).
      { left. rewrite <-Hi. apply elem_of_app. right. by left. }
      simpl in Hsg, Hgood. rewrite <-Hp in Hsg. simpl in Hsg. rewrite lookup_insert_eq in Hsg. by simplify_eq.
    + destruct (ib_make_spec (T:=T) (rq_args r)) as (_ & _ & He & _). unfold seg_entries. simpl. rewrite He.
      by intros e ?%elem_of_nil.
  - intros t _ ?%elem_of_nil. done.
  - intros t l ?%elem_of_nil. done.
  - intros l sg. rewrite <-Hi. simpl. by intros ?%elem_of_nil.
Qed.

(** ** While a request runs

    [writing id w]: the configuration is as it was, and no shard has the id of
    the vector to be added. *)

Definition lacks (id : string) w : Prop :=
  ∀ i x idx, shard i x w = Some idx → id ∉ (content (St (wr_proc w) idx [])).*1.

Record writing (cfgs : gmap string json) (id : string) (given : list (string * list f32))
    (Done : string → string → segment T → Prop) w : Prop := {
  wt_ok : wr_ok w;
  wt_config : indexes_create_agrs w = cfgs;
  wt_lacks : lacks id w;
  wt_given : all_given given w;
  wt_sealed : rand_distinct (wr_proc w) → sealed_done Done w;
}.

Section writing.
Context (cfgs : gmap string json) (id : string) (given : list (string * list f32)).
Context (Done : string → string → segment T → Prop).
Abbreviation calm := (writing cfgs id given Done).

Lemma writing_shrinks w w' : shrinks w w' → calm w → calm w'.
Proof.
  intros Hs [Hok Hcfg Hnew Hgiven Hsealed]. split.
  - by eapply shrinks_ok.
  - by rewrite (sk_config _ _ Hs).
  - intros i x idx Hx%(sk_shard _ _ Hs). rewrite (sk_proc _ _ Hs). by eapply Hnew.
  - unfold all_given. by rewrite (sk_proc _ _ Hs).
  - rewrite (sk_proc _ _ Hs). intros Hd. by eapply shrinks_sealed, Hsealed.
Qed.

Lemma writing_grows i x idx ts w w' :
  grows i x idx ts [] w w' → id ∉ (content (St (wr_proc w') idx [])).*1 → calm w → calm w'.
Proof.
  intros Hg Hid [Hok Hcfg Hnew Hgiven Hsealed]. split.
  - by eapply grows_ok.
  - by rewrite (gr_config _ _ _ _ _ _ _ Hg).
  - intros j y idx' [(-> & -> & ->)|[Hne Hy]]%(grows_case _ _ _ _ _ _ _ Hg); [done|].
    destruct (wk_shard _ Hok j y idx' Hy) as [Hinv _].
    destruct (idx_inv_frame V 0 (wr_proc w) (wr_proc w') idx' [] []) as [_ ->];
      [done|apply (gr_alloc _ _ _ _ _ _ _ Hg)|apply (gr_evolves _ _ _ _ _ _ _ Hg)| |by eapply Hnew].
    intros l Hl. by apply (gr_others _ _ _ _ _ _ _ Hg j y idx').
  - apply (grows_given _ _ _ _ _ _ _ Hg) in Hgiven. by rewrite app_nil_r in Hgiven.
  - intros Hd. apply (grows_sealed _ _ _ _ _ _ _ Hg), Hsealed.
    eapply rand_distinct_mono; [|done]. apply (ev_draws _ _ (gr_evolves _ _ _ _ _ _ _ Hg)).
Qed.

Lemma keeps_shrinks (f : state → state) :
  (∀ w, shrinks w (f w)) → keeps calm (modify f).
Proof. intros Hf. apply keeps_modify. intros w. apply writing_shrinks, Hf. Qed.

Lemma keeps_etcd {A} (m : M kv A) : keeps calm (on_wr_etcd m).
Proof. apply keeps_zoom. intros w e a Hw _. by apply (writing_shrinks w). Qed.

Lemma keeps_prom f : keeps calm (on_wr_prom f).
Proof. by apply keeps_shrinks. Qed.

Lemma keeps_bucket i : keeps calm (on_wr_storage (createBucket i)).
Proof.
  apply keeps_zoom. intros w x a Hw. unfold createBucket, with_client, runs.
  destruct (s3Client (wr_storage w)) eqn:Hc; [|done].
  pose proof (up_create (st_objects (wr_storage w)) (makeBucketName i)) as Hv.
  destruct (s3_create (st_objects (wr_storage w)) (makeBucketName i)) as [o ok]. intros [= <- _].
  by apply (writing_shrinks w).
Qed.

Lemma keeps_create i cfg x :
  cfgs !! i = Some cfg → keeps calm (create_shard i cfg x).
Proof.
  intros Hcfg w [] w' Hw (idx & w1 & H1 & H2)%runs_bind_inv. pose proof Hw as [Hok Hg _ _ _]. rewrite <-Hg in Hcfg. clear Hg.
  unfold on_wr_proc, zoom, CreateIndex, runs in H1. destruct (parse_index cfg) as [r|e|u] eqn:Hr; [|done..].
  destruct (Index (rq_dim r) (rq_threshold r) (rq_merge r) (rq_args r) (wr_proc w)) as [p idx'] eqn:Hidx.
  simplify_eq. unfold runs, modify in H2. simplify_eq.
  destruct (created_grows w i x cfg r p idx Hok) as [Hgr Hc]; [done..|].
  eapply writing_grows; [exact Hgr| |done]. simpl. rewrite Hc. apply not_elem_of_nil.
Qed.

#[local] Hint Resolve keeps_etcd keeps_bucket keeps_create : keeps.

Lemma keeps_update_index i cfg :
  cfgs !! i = Some cfg → keeps calm (update_index i cfg).
Proof.
  intros Hcfg. unfold update_index. keep; apply keeps_shrinks; intros w; split; try done;
    intros j y idx; unfold shard, shards_of; simpl; rewrite ?lookup_delete, ?lookup_insert;
    (destruct (decide (i = j)) as [<-|]; [|done]); simpl; [done..|].
  rewrite lookup_delete. destruct (decide (_ = y)); [done|]. by destruct (wr_shards w !! i).
Qed.

Lemma keeps_updateIndexesState : keeps calm updateIndexesState.
Proof.
  intros w [] w' Hw (cs & w1 & [= <- <-] & H2)%runs_bind_inv. revert H2. rewrite (wt_config _ _ _ _ _ Hw).
  apply keeps_forM; [|done]. intros [i cfg] Hin%elem_of_std_iter. by apply keeps_update_index.
Qed.

Lemma keeps_chooseShard i : keeps calm (chooseShard i).
Proof.
  assert (∀ ids best, keeps calm (choose i ids best)) as Hc by (induction ids; intros best; simpl; keep; done).
  unfold chooseShard. keep. apply keeps_shrinks. intros w. split; try done. intros j y idx.
  unfold shard, shards_of. simpl. rewrite lookup_insert. case_decide; [subst j|done]. by destruct (wr_shards w !! i).
Qed.

Lemma keeps_vectors_count l : keeps calm (vectors_count l).
Proof.
  intros w c w' Hw. unfold vectors_count, runs. destruct (GetGaugeValue _ _ _) as [p v].
  intros [= <- _]. by apply (writing_shrinks w).
Qed.
End writing.

(** ** The steps of a writer *)

(** A request that adds a vector under a new id, of the dimension its index
    is configured with. *)
Record legal_write w (rq : WriteRequest) : Prop := {
  lw_add : wq_attributes rq !! "delete" = None;
  lw_new : lacks (wq_id rq) w;
  lw_vector i cfg r : wq_attributes rq !! "index-id" = Some i → indexes_create_agrs w !! i = Some cfg →
    parse_index cfg = Ok r → rq_dim r ≤ length (wq_vector_data rq) ∧ V (take (rq_dim r) (wq_vector_data rq));
}.

(** The vector a request brings. *)
Definition requested (cfgs : gmap string json) (rq : WriteRequest) : list (string * list f32) :=
  match wq_attributes rq !! "index-id" ≫= λ i, cfgs !! i with
  | Some cfg =>
    match parse_index cfg with
    | Ok r => [(wq_id rq, take (rq_dim r) (wq_vector_data rq))]
    | _ => []
    end
  | None => []
  end.

Section request.
Context w (rq : WriteRequest) (given : list (string * list f32)).
Context (Done : string → string → segment T → Prop).
Context (Hok : wr_ok w) (Hrq : legal_write w rq).
Context (Hgiven : all_given given w) (Hsealed : rand_distinct (wr_proc w) → sealed_done Done w).
Let cfgs := indexes_create_agrs w.
Abbreviation calm := (writing cfgs (wq_id rq) given Done).

(** What holds when the request is done. *)
Record written w' : Prop := {
  wn_ok : wr_ok w';
  wn_given : all_given (given ++ requested cfgs rq) w';
  wn_sealed : rand_distinct (wr_proc w') → sealed_done Done w';
  wn_config : indexes_create_agrs w' = cfgs;
}.

Lemma calm_written w' : calm w' → written w'.
Proof. intros [? ? ? Hg ?]. split; [done| |done..]. intros l sg e Hsg He. apply elem_of_app. left. by eapply Hg. Qed.

(** A legal [add] on a shard returns. *)
Lemma on_index_grows w1 i x idx :
  calm w1 → wq_attributes rq !! "index-id" = Some i → shard i x w1 = Some idx →
  ∃ s, runs (on_index i x (add 1 [wq_id rq] (wq_vector_data rq))) w1 () (called i x s w1) ∧
    grows i x (st_idx s) (task_of i x <$> st_log s) (requested cfgs rq) w1 (called i x s w1) ∧
    content s ≡ₚ content (St (wr_proc w1) idx []) ++ requested cfgs rq.
Proof.
  intros [Hok1 Hcfg Hnew _ _] Hi Hx.
  destruct (wk_shard _ Hok1 i x idx Hx) as (Hinv & Hcb & cfg & r & Hc & Hr & Hd & _). rewrite Hcfg in Hc.
  destruct (lw_vector _ _ Hrq i cfg r Hi Hc Hr) as [Hlen HV].
  destruct (add_spec V 0 (St (wr_proc w1) idx []) 1 [wq_id rq] (wq_vector_data rq))
    as (s & Hrun & Hinv' & Hcont & Hap & _ & Hem & Hrw); [lia|done| |].
  { split; simpl; [lia|lia| |].
    - apply NoDup_app. split_and!; [apply (c_keys _ _ (i_core _ _ _ Hinv))| |apply NoDup_singleton].
      intros y Hy ->%list_elem_of_singleton. by apply (Hnew i x idx).
    - constructor; [|done]. by rewrite Hd. }
  assert (batch_of (d_ idx) 1 [wq_id rq] (wq_vector_data rq) = requested cfgs rq) as Hreq.
  { unfold requested. rewrite Hi. simpl. by rewrite Hc, Hr, Hd. }
  simpl in Hcont. rewrite Hreq in Hcont. exists s. split_and!; [| |done].
  - unfold on_index, runs. fold (shard i x w1). by rewrite Hx, (Hrun : _ = _), posted.
  - exact (called_grows w1 i x idx s Hok1 Hx _ Hcont Hinv' Hap (Hem Hcb) Hrw).
Qed.

Lemma on_index_ok w1 i x w' :
  calm w1 → wq_attributes rq !! "index-id" = Some i →
  runs (on_index i x (add 1 [wq_id rq] (wq_vector_data rq))) w1 () w' → written w'.
Proof.
  intros Hw1 Hi Hr. destruct (shard i x w1) as [idx|] eqn:Hx;
    [|unfold runs, on_index in Hr; fold (shard i x w1) in Hr; by rewrite Hx in Hr].
  destruct (on_index_grows w1 i x idx Hw1 Hi Hx) as (s & Hr' & Hg & _).
  destruct (runs_det _ _ _ _ _ _ Hr Hr') as [_ ->]. destruct Hw1 as [Hok1 Hcfg _ Hgiven1 Hsealed1]. split.
  - exact (grows_ok _ _ _ _ _ _ _ Hg Hok1).
  - exact (grows_given _ _ _ _ _ _ _ Hg given Hgiven1).
  - intros Hd'. apply (grows_sealed _ _ _ _ _ _ _ Hg), Hsealed1.
    eapply rand_distinct_mono; [|exact Hd']. apply (ev_draws _ _ (gr_evolves _ _ _ _ _ _ _ Hg)).
  - exact Hcfg.
Qed.

Lemma request_written r w' : runs (ProcessWriteRequest rq) w r w' → written w'.
Proof.
  assert (calm w) as Hw by (split; [done|done|apply Hrq|done|done]).
  unfold ProcessWriteRequest. intros ([] & w1 & H1 & H2)%runs_bind_inv.
  apply (keeps_prom cfgs (wq_id rq) given Done) in H1; [|done].
  apply runs_bind_inv in H2 as ([] & w2 & H2 & H3).
  apply (keeps_updateIndexesState cfgs (wq_id rq) given Done) in H2; [|done].
  destruct (wq_attributes rq !! "index-id") as [i|] eqn:Hi;
    [|apply (keeps_ret calm) in H3; [by apply calm_written|done]].
  apply runs_bind_inv in H3 as (found & w3 & [= <- <-] & H3).
  destruct (wr_shards w2 !! i); [|apply (keeps_ret calm) in H3; [by apply calm_written|done]].
  apply runs_bind_inv in H3 as (x & w3 & H3 & H4).
  apply (keeps_chooseShard cfgs (wq_id rq) given Done) in H3; [|done].
  apply runs_bind_inv in H4 as (c & w4 & H4 & H5).
  apply (keeps_vectors_count cfgs (wq_id rq) given Done) in H4; [|done].
  rewrite (lw_add _ _ Hrq) in H5. apply runs_bind_inv in H5 as ([] & w5 & H5 & H6).
  apply (on_index_ok w4 i x w5) in H5 as [? ? ? ?]; [|done|done].
  apply runs_bind_inv in H6 as ([] & w6 & [= <-] & H6). injection H6 as <- _.
  split; [by apply (shrinks_ok w5)|done..].
Qed.
End request.

Lemma request_ok w rq r w' :
  wr_ok w → legal_write w rq → runs (ProcessWriteRequest rq) w r w' → wr_ok w'.
Proof.
  intros Hok Hrq Hr.
  apply (request_written w rq (map_to_list (heap (wr_proc w)) ≫= λ p, seg_entries p.2) (λ _ _ _, True) Hok Hrq)
    in Hr as []; [done| |].
  - intros l sg e Hsg He. apply list_elem_of_bind. exists (l, sg). by rewrite elem_of_map_to_list.
  - intros _ i x idx l sg _ _ _. by right.
Qed.

(** What a task never changes. *)
Record quiet w w' : Prop := {
  qu_proc : wr_proc w' = wr_proc w;
  qu_shards : wr_shards w' = wr_shards w;
  qu_tasks : callback_runner w' = callback_runner w;
  qu_config : indexes_create_agrs w' = indexes_create_agrs w;
  qu_client : s3Client (wr_storage w') = s3Client (wr_storage w);
}.

Lemma keeps_quiet_storage w {A} (m : M (storage S3) A) :
  (∀ x a x', runs m x a x' → s3Client x' = s3Client x) → keeps (quiet w) (on_wr_storage m).
Proof.
  intros Hm. apply keeps_zoom. intros w1 x a [Hp Hs Ht Hg Hc] Hr%Hm. split; simpl; congruence.
Qed.

Lemma keeps_quiet_upload w i l : keeps (quiet w) (upload i l).
Proof.
  unfold upload. keep.
  - intros w1 sg w2 Hq. unfold wr_deref, runs. destruct (heap (wr_proc w1) !! l); [|done]. by intros [= <-].
  - apply keeps_modify. by intros w1 [].
  - apply keeps_quiet_storage. intros x b x'. unfold putObject, with_client, runs.
    destruct (st_dir x !! _); [|by intros [= <-]]. destruct (s3Client x) eqn:Hc; [|done].
    destruct (s3_put _ _ _ _) as [o ok]. intros [= <-]. by rewrite <-Hc.
  - apply keeps_quiet_storage. intros x b x'. unfold remove_file, runs. by intros [= <-].
Qed.

Lemma keeps_quiet_task w t : keeps (quiet w) (run_task t).
Proof.
  pose proof (keeps_quiet_upload w).
  assert (∀ ls, keeps (quiet w) (upload_all (tk_index t) ls)) as Hall by (induction ls; simpl; keep).
  unfold run_task. keep.
  - apply keeps_modify. by intros w1 [].
  - apply keeps_quiet_storage. intros x b x'. unfold delObject, with_client, runs. destruct (s3Client x) eqn:Hc; [|done].
    destruct (s3_del _ _ _) as [o ok]. intros [= <-]. by rewrite <-Hc.
  - apply keeps_zoom. by intros w1 x b [].
  - intros w1 [] w2 []. unfold updateIndex, runs. destruct (rpc_update _ _ _) as [n ok]. by intros [= <- _].
Qed.

(** The segments a task is to upload are there, under ids of their own. *)
Lemma task_held w t :
  published_ok w → t ∈ callback_runner w →
  ∃ sgs, held w (tk_segs t) sgs ∧ NoDup (getID <$> sgs) ∧
    Forall (λ k, 0 ≤ k)%Z ((getID <$> sgs) ++ tk_ids t) ∧ ∀ sg, sg ∈ sgs → getID sg ∉ tk_ids t.
Proof.
  intros [[Hdrawn Hinj] Pt _ _ _] Ht. destruct (Pt t Ht) as [Hnd Hlive Hold Hclear].
  assert (∃ sgs, held w (tk_segs t) sgs) as [sgs Hh].
  { revert Hlive. generalize (tk_segs t). clear. induction l as [|l ls IH]; intros Hlive; [by exists []; constructor|].
    destruct (Hlive l) as [sg Hsg]; [by left|]. destruct IH as [sgs Hs]; [intros; apply Hlive; by right|].
    exists (sg :: sgs). by constructor. }
  assert (∀ sg, sg ∈ sgs → ∃ l, l ∈ tk_segs t ∧ heap (wr_proc w) !! l = Some sg) as Hin.
  { intros sg (n & Hn)%list_elem_of_lookup_1. destruct (Forall2_lookup_r _ _ _ _ _ Hh Hn) as (l & Hl & ?).
    exists l. split; [by eapply list_elem_of_lookup_2|done]. }
  exists sgs. split_and!; [done| | |].
  - clear -Hh Hnd Hinj. revert Hnd. induction Hh as [|l sg ls sgs Hl Hh IH]; [constructor|].
    intros [Hnew Hnd]%NoDup_cons. rewrite fmap_cons. constructor; [|by apply IH].
    intros (sg' & Heq & (n & Hn)%list_elem_of_lookup_1)%list_elem_of_fmap.
    destruct (Forall2_lookup_r _ _ _ _ _ Hh Hn) as (l' & Hl' & Hsg'). apply Hnew.
    rewrite (Hinj l l' sg sg' Hl Hsg' Heq). by eapply list_elem_of_lookup_2.
  - apply Forall_app. split; [|apply Forall_forall; by eauto using drawn_nonneg]. apply Forall_fmap, Forall_forall.
    intros sg (l & _ & Hl)%Hin. simpl. eapply drawn_nonneg, Hdrawn, Hl.
  - intros sg (l & Hl & Hsg)%Hin Hk. by apply (Hclear _ l sg Hk); [right| |].
Qed.

(** What a task stored stays what a search of its shard would find. *)
Lemma stores_published w t q sgs w' :
  callback_runner w = t :: q → held w (tk_segs t) sgs → published_ok w →
  stores t sgs (wr_set_tasks q w) w' → published_ok w'.
Proof.
  intros Hq Hh [Pi Pt Po Pg Ps] [Hadd _ Hkept Hp Hs Ht Hg _]. simpl in Hp, Hs, Ht, Hg.
  assert (∀ i x, shard i x w' = shard i x w) as Hsh by (intros i x; unfold shard; by rewrite Hs).
  assert (∀ l sg, l ∈ tk_segs t → heap (wr_proc w) !! l = Some sg → sg ∈ sgs) as Hseg.
  { intros l sg (n & Hn)%list_elem_of_lookup_1 Hsg. destruct (Forall2_lookup_l _ _ _ _ _ Hh Hn) as (sg' & Hn' & ?).
    simplify_eq. by eapply list_elem_of_lookup_2. }
  assert (t ∈ callback_runner w) as Hin by (rewrite Hq; by left).
  split; rewrite ?Hp; [done|..].
  - intros t'. rewrite Ht. intros Hin'. destruct (Pt t') as [? ? ? Hcl]; [rewrite Hq; by right|].
    split; [done..|]. intros k l sg Hk [(i & x & idx & Hx & Hl)|Hl]; apply Hcl; auto. left.
    exists i, x, idx. by rewrite <-Hsh.
  - intros t' l j y idx Hin' Hl. rewrite Hsh. rewrite Ht in Hin'. eapply Po; [rewrite Hq; by right|done].
  - intros t' l sg sh Hin' Hl Hsg. unfold conf_shape. rewrite Hg. rewrite Ht in Hin'.
    eapply Pg; [rewrite Hq; by right|done..].
  - intros i x idx l sg. rewrite Hsh, Hp. intros Hx Hl Hsg.
    assert (in_use w l) as Hu by (exists i, x, idx; split; [done|]; apply elem_of_app; by left).
    destruct (decide (l ∈ tk_segs t ∧ makeBucketName i = makeBucketName (tk_index t))) as [[Hlt Hb]|Hno].
    { right. unfold stored_now. rewrite Hb. apply Hadd. by eapply Hseg. }
    destruct (Ps i x idx l sg Hx Hl Hsg) as [(t' & Ht' & <- & <- & Hl')|Hst].
    + left. exists t'. rewrite Ht. rewrite Hq in Ht'. apply elem_of_cons in Ht' as [->|?]; [|done].
      by destruct Hno.
    + right. unfold stored_now. rewrite Hkept; [done|..].
      * intros sg' (n & Hn)%list_elem_of_lookup_1 [Hb Heq]%pair_equal_spec.
        destruct (Forall2_lookup_r _ _ _ _ _ Hh Hn) as (l' & Hl' & Hsg').
        apply to_string_u64_inj in Heq; [|eapply drawn_nonneg, (proj1 Pi); done..].
        destruct Hno. split; [|done]. rewrite (proj2 Pi l l' sg sg' Hsg Hsg' Heq).
        by eapply list_elem_of_lookup_2.
      * intros k Hk [_ Heq]%pair_equal_spec. destruct (Pt t Hin) as [_ _ Ho Hcl].
        apply to_string_u64_inj in Heq; [|by eapply drawn_nonneg; eauto; apply (proj1 Pi l)..].
        by apply (Hcl k l sg Hk (or_introl Hu) Hsg).
Qed.

Lemma task_ok w t q w' :
  wr_ok w → callback_runner w = t :: q → runs (run_task t) (wr_set_tasks q w) () w' →
  wr_ok w' ∧ wr_proc w' = wr_proc w ∧ wr_shards w' = wr_shards w ∧ callback_runner w' = q.
Proof.
  intros [Kc Kg Ka Ks Kp Kb] Hq Hr.
  assert (quiet (wr_set_tasks q w) w') as [Hp Hs Ht Hg Hc] by (eapply (keeps_quiet_task (wr_set_tasks q w) t); [by split|exact Hr]).
  simpl in Hp, Hs, Ht, Hg, Hc. split; [|done].
  assert (∀ i x, shard i x w' = shard i x w) as Hsh by (intros i x; unfold shard; by rewrite Hs).
  split; rewrite ?Hp, ?Hg, ?Hc; try done.
  - intros i x idx. rewrite Hsh. unfold configured. rewrite Hg. apply Ks.
  - intros i x idx j y idx' l. rewrite !Hsh. apply Kp.
  - intros Hd. specialize (Kb Hd). destruct (task_held w t Kb) as (sgs & Hh & Hnd & Hpos & Hdis); [rewrite Hq; by left|].
    destruct (store_part_runs t sgs (wr_set_tasks q w)) as (w1 & Hr1 & Hst & _); [done..|].
    eapply stores_published; [done..|].
    unfold runs in Hr. rewrite run_task_split in Hr.
    apply runs_bind_inv in Hr as (added & w2 & Hr2 & Hr3).
    destruct (runs_det _ _ _ _ _ _ Hr1 Hr2) as [_ <-].
    assert (stored_objects w' = stored_objects w1) as Ho.
    { revert Hr3. apply (keeps_bind (λ w2, stored_objects w2 = stored_objects w1));
        [by apply keeps_zoom| |done]. intros hosts. apply keeps_forM. intros h _ w2 [] w3 Hw2.
      unfold updateIndex, runs. destruct (rpc_update _ _ _) as [n ok]. by intros [= <- _]. }
    destruct Hst. split; rewrite ?Ho; done.
Qed.

(** Requests that add new vectors, and tasks, in any order. *)
Inductive legal_step w w' : Prop :=
  | legal_request rq r : legal_write w rq → runs (ProcessWriteRequest rq) w r w' → legal_step w w'
  | legal_task t q :
    callback_runner w = t :: q → runs (run_task t) (wr_set_tasks q w) () w' → legal_step w w'.

Lemma legal_step_step w w' : legal_step w w' → wr_step w w'.
Proof. intros [rq r _ Hr|t q Hq Hr]; [by eapply step_request|by eapply step_task]. Qed.

Lemma legal_step_ok w w' : legal_step w w' → wr_ok w → wr_ok w'.
Proof. intros [rq r Hl Hr|t q Hq Hr] Hok; [by eapply request_ok|by eapply task_ok]. Qed.

(** A writer that has not served a request yet. *)
Record starting w : Prop := {
  sg_client : s3Client (wr_storage w) = true;
  sg_config : map_Forall (λ _, config_good) (indexes_create_agrs w);
  sg_shards : wr_shards w = ∅;
  sg_heap : heap (wr_proc w) = ∅;
  sg_tasks : callback_runner w = [];
}.

Lemma starting_ok w : starting w → wr_ok w.
Proof.
  intros [Hc Hg Hs Hh Ht]. assert (∀ i x, shard i x w = None) as Hno by (intros i x; unfold shard; by rewrite Hs).
  split; try done.
  - intros l. rewrite Hh, lookup_empty. by intros [].
  - intros i x idx. by rewrite Hno.
  - intros i x idx j y idx' l. by rewrite Hno.
  - intros _. split.
    + split; intros l *; by rewrite Hh, lookup_empty.
    + intros t. rewrite Ht. by intros ?%elem_of_nil.
    + intros t l j y idx. rewrite Ht. by intros ?%elem_of_nil.
    + intros t l sg sh. rewrite Ht. by intros ?%elem_of_nil.
    + intros i x idx l sg. by rewrite Hno.
Qed.

Lemma reachable_ok w w' : starting w → rtc legal_step w w' → wr_ok w'.
Proof. intros Hs Hr. apply starting_ok in Hs. induction Hr; eauto using legal_step_ok. Qed.
End writer.

(** ** Running the tasks *)

Section draining.
Context `{SL : StdLib} {E : Etcd} {EL : EtcdLaws E} {EU : EtcdUp E} {DT : DoubleText} {P : PromLib}
  {S3 : S3} {S3L : S3Laws S3} {S3U : S3Up S3} {J : Json} {U : GrpcUpdate} {T : Type} `{L : IBaseIndexLaws T}.
Context (V : list f32 → Prop).
Implicit Types w : writer E P S3 J U T.

(** The tasks' shards have addresses in etcd that all accept updates. *)
Definition reachable_hosts (D : directory) w : Prop :=
  ∀ t, t ∈ callback_runner w → slash_free (tk_index t) = true ∧ slash_free (tk_shard t) = true ∧
    ∀ n h rq, (tk_index t, tk_shard t, h) ∈ dir_hosts D → (rpc_update n h rq).2 = true.

(** What a task leaves as it was. *)
Record settled (q : list task) w w' : Prop := {
  sl_tasks : callback_runner w' = q;
  sl_proc : wr_proc w' = wr_proc w;
  sl_shards : wr_shards w' = wr_shards w;
  sl_config : indexes_create_agrs w' = indexes_create_agrs w;
  sl_kv : wr_etcd w' = wr_etcd w;
}.

(** The task at the head of the queue returns. *)
Lemma task_returns w t q D :
  wr_ok V w → rand_distinct (wr_proc w) → dir_rep (etcd_view (wr_etcd w)) D → reachable_hosts D w →
  callback_runner w = t :: q →
  ∃ w', runs (run_task t) (wr_set_tasks q w) () w' ∧ wr_ok V w' ∧ settled q w w'.
Proof.
  intros Hok Hd HD Hh Hq. assert (t ∈ callback_runner w) as Ht by (rewrite Hq; by left).
  destruct (Hh t Ht) as (Hi & Hx & Hnet).
  destruct (task_held V w t (wk_published _ _ Hok Hd) Ht) as (sgs & Hheld & Hnd & Hpos & Hdis).
  destruct (run_task_runs t sgs (wr_set_tasks q w) D) as (w1 & hosts & Hr & [[] He _] & _);
    [done|done|done|apply (wk_client _ _ Hok)|done..|].
  exists w1. split_and!; [done|by eapply task_ok|by split].
Qed.

Lemma drain w D :
  wr_ok V w → rand_distinct (wr_proc w) → dir_rep (etcd_view (wr_etcd w)) D → reachable_hosts D w →
  ∃ w', runs WriterImpl_destroy w () w' ∧ wr_ok V w' ∧ settled [] w w'.
Proof.
  intros Hok Hd HD Hh.
  assert (∃ w', runs (run_tasks (callback_runner w)) w () w' ∧ wr_ok V w' ∧ settled [] w w') as (w' & Hr & Hrest);
    [|exists w'; split; [by run|done]]. revert Hok Hd HD Hh. remember (callback_runner w) as q eqn:Hq. revert w Hq.
  induction q as [|t q IH]; intros w Hq Hok Hd HD Hh; [exists w; by split_and!; [apply runs_ret|done|split]|].
  destruct (task_returns w t q D Hok Hd HD Hh (eq_sym Hq)) as (w1 & Hr & Hok1 & [Hq1 Hp1 Hs1 Hg1 He1]).
  destruct (IH w1) as (w' & Hr' & Hok' & [Hq' Hp' Hs' Hg' He']); [done..| | | |].
  - by rewrite Hp1.
  - by rewrite He1.
  - intros t'. rewrite Hq1. intros Hin. apply Hh. rewrite <-Hq. by right.
  - exists w'. split_and!; [|done|split; congruence].
    simpl. eapply (runs_bind _ _ w () (wr_set_tasks q w)); [apply runs_modify|]. by run.
Qed.

(** Without tasks to run, every vector of a shard is in its current segment or
    in an object. *)
Lemma all_stored w i x idx e :
  wr_ok V w → rand_distinct (wr_proc w) → callback_runner w = [] → shard i x w = Some idx →
  e ∈ content (St (wr_proc w) idx []) →
  e ∈ entries_at (heap (wr_proc w)) (last_ idx) ∨
  ∃ sg, stored_now w i sg ∧ e ∈ seg_entries sg.
Proof.
  intros Hok Hd Hq Hx (l & [Hl|Hl%list_elem_of_singleton]%elem_of_app & He)%elem_of_contents; [right|left; by subst].
  destruct (knows_alloc V _ _ _ _ l (proj1 (wk_shard _ _ Hok i x idx Hx))) as [sg Hsg].
  { left. apply elem_of_app. by left. }
  exists sg. rewrite (entries_at_Some _ _ _ Hsg) in He. split; [|done].
  destruct (pk_sealed _ _ (wk_published _ _ Hok Hd) i x idx l sg Hx Hl Hsg) as [(t & Ht & _)|?]; [|done].
  rewrite Hq in Ht. by apply elem_of_nil in Ht.
Qed.
End draining.
