(* ===== verification/Nodes.v ===== *)
(** * Running a node (app/src/main.cpp, Base.cpp, Searcher.cpp, Writer.cpp, Coordinator.cpp)

    [main] constructs the node its mode names from the configuration, serves,
    and destroys the node when the server stops. The nodes of a deployment
    share etcd and the object store; a process has its own working directory
    and metrics. gRPC starts the server ([listens]: whether it can listen on an
    address; [BuildAndStart] returns null when it cannot), calls the handlers,
    and turns an exception that leaves one into a status. *)

From S2P Require Import Prelude Cxx Floats BinaryIO StorageClient Faiss TopK IBaseIndex Segment IIndex Index IndexFactory.
From S2P Require Import Bootstrap Merging Stats EtcdClient Prometheus Coordinator Searcher Writer.

(** What a node is started on. *)
Record machine `{E : Etcd} `{P : PromLib} `{S : S3} `{U : GrpcUpdate} `{G : Grpc} := Machine {
  mc_etcd : kv;
  mc_objects : s3;
  mc_dir : dir;
  mc_registry : reg;
  mc_unet : unet;
  mc_net : net;
}.
Arguments machine _ _ _ _ _ : clear implicits.
Arguments Machine {_ _ _ _ _} _ _ _ _ _ _.
Arguments mc_etcd {_ _ _ _ _} _.
Arguments mc_objects {_ _ _ _ _} _.
Arguments mc_dir {_ _ _ _ _} _.
Arguments mc_registry {_ _ _ _ _} _.
Arguments mc_unet {_ _ _ _ _} _.
Arguments mc_net {_ _ _ _ _} _.

(** What a server is asked. *)
Inductive searcher_call := SearchCall (rq : SearchRequest) | UpdateCall (rq : UpdateRequest).
Inductive writer_turn := WriteCall (rq : WriteRequest) | NextTask.

Section nodes.
Context `{SL : StdLib} {E : Etcd} {DT : DoubleText} {P : PromLib} {S3 : S3} {J : Json} {JD : JsonDoc J}
  {U : GrpcUpdate} {G : Grpc} {AP : ArgParse} {T : Type} `{B : IBaseIndex T}.
Abbreviation world := (machine E P S3 U G).
Implicit Types w : world.

(** ** Serving *)

(** An exception that leaves a handler becomes a status; the server goes on. *)
Definition handled {St A} (m : M St A) : M St () := try_catch (m;; mret ()) (mret ()).

(** [server->Wait()] of each node: calls until the server is shut down. *)
Definition searcher_serve (junk : Z) (cs : list searcher_call) : M (searcher E P S3 T) () :=
  forM cs (λ c, match c with
                | SearchCall rq => handled (Searcher.ProcessSearchRequest rq)
                | UpdateCall rq => handled (ProcessUpdateRequest junk rq)
                end).

(** A task runs in a thread of its own, which no exception may leave. *)
Definition next_task : M (writer E P S3 J U T) () :=
  ts ← gets callback_runner;
  match ts with
  | [] => mret ()
  | t :: q => modify (wr_set_tasks q);; noexcept (run_task t)
  end.
Definition writer_serve (ts : list writer_turn) : M (writer E P S3 J U T) () :=
  forM ts (λ t, match t with WriteCall rq => handled (ProcessWriteRequest rq) | NextTask => next_task end).

Definition coordinator_serve (rqs : list SearchRequest) : M (coordinator E P G) () :=
  forM rqs (λ rq, handled (Coordinator.ProcessSearchRequest rq)).

Context (listens : string → bool).

(** [server->Wait()] dereferences what [BuildAndStart] returned. *)
Definition InternalRun {St} (sv : BaseServer) (Wait : M St ()) : M St () :=
  if listens (InternalRun_address sv) then Wait else undef NullDeref.

(** ** The nodes *)

(** The destructors. *)
Definition SearcherImpl_destroy : M (searcher E P S3 T) () := noexcept GracefulShutdown.

(** The members as the constructors initialise them. *)
Definition searcher_start (sc : service_config) w : searcher E P S3 T :=
  Sr (sv_host (sc_server sc)) (sv_port (sc_server sc)) ∅ (Proc ∅ 0 0) (mc_etcd w)
    (StorageClient_new (mc_objects w) (mc_dir w)) (PrometheusExposer_new (mc_registry w)).
Definition writer_start w : writer E P S3 J U T :=
  Wr ∅ ∅ (Proc ∅ 0 0) (mc_etcd w) (StorageClient_new (mc_objects w) (mc_dir w))
    (PrometheusExposer_new (mc_registry w)) (mc_unet w) [].
Definition coordinator_start w : coordinator E P G :=
  Coord ∅ ∅ (mc_etcd w) (PrometheusExposer_new (mc_registry w)) (mc_net w).

(** What they leave behind when their members are destroyed. *)
Definition searcher_end (s : searcher E P S3 T) w : world :=
  let storage_client := StorageClient_destroy (se_storage s) in
  Machine (se_etcd s) (st_objects storage_client) (st_dir storage_client) (registry (se_prom s)) (mc_unet w) (mc_net w).
Definition writer_end (s : writer E P S3 J U T) w : world :=
  let storage_client := StorageClient_destroy (wr_storage s) in
  Machine (wr_etcd s) (st_objects storage_client) (st_dir storage_client) (registry (wr_prom s)) (wr_net s) (mc_net w).
Definition coordinator_end (s : coordinator E P G) w : world :=
  Machine (co_etcd s) (mc_objects w) (mc_dir w) (registry (co_prom s)) (mc_unet w) (co_net s).

(** [Searcher server = Searcher(config); server.Run();] and the end of the
    scope. A constructor that throws leaves nothing to destroy. *)
Definition searcher_life (sc : service_config) (Wait : M (searcher E P S3 T) ()) : M (searcher E P S3 T) () :=
  SearcherImpl (sc_indexes sc);;
  InternalRun (sc_server sc) Wait;;
  SearcherImpl_destroy.
Definition Searcher_Run (Wait : M (searcher E P S3 T) ()) (config : json) : M world () :=
  sc ← liftO (node_config config);
  zoom (searcher_start sc) searcher_end (searcher_life sc Wait).

Definition writer_life (sc : service_config) (Wait : M (writer E P S3 J U T) ()) : M (writer E P S3 J U T) () :=
  WriterImpl (sc_indexes sc);;
  InternalRun (sc_server sc) Wait;;
  noexcept WriterImpl_destroy.
Definition Writer_Run (Wait : M (writer E P S3 J U T) ()) (config : json) : M world () :=
  sc ← liftO (node_config config);
  zoom writer_start writer_end (writer_life sc Wait).

Definition Coordinator_Run (Wait : M (coordinator E P G) ()) (config : json) : M world () :=
  sc ← liftO (coordinator_config config);
  zoom coordinator_start coordinator_end (CoordinatorImpl;; InternalRun sc.1 Wait).

(** The program: each node with the calls it is to serve. *)
Definition program (junk : Z) (cs : list searcher_call) (ts : list writer_turn) (rqs : list SearchRequest) :
    gmap string string → list string → M world ending :=
  main (Searcher_Run (searcher_serve junk cs)) (Writer_Run (writer_serve ts))
       (Coordinator_Run (coordinator_serve rqs)).
End nodes.
