(* ===== verification/Handlers.v ===== *)
(** * A searcher's handlers side by side (app/src/Searcher.cpp)

    gRPC calls the handlers of a searcher from several threads and the
    searcher has no lock of its own: a handler is interrupted between its
    calls of the storage client, the file system, the metrics and the indexes
    (which lock themselves). [update_steps] and [search_request_steps] are the
    handlers with those calls as steps. A search that runs beside an update
    sees the segments the update has pushed so far, each of them whole. *)

From S2P Require Import Prelude Cxx Floats Locks Rely BinaryIO StorageClient Faiss TopK IBaseIndex Segment IIndex Storage.
From S2P Require Import Index IndexSpec IndexFactory Merging Stats EtcdClient Prometheus Coordinator Searcher SearcherSpec Writer Nodes.

(** ** The handlers, step by step *)

Section steps.
Context `{SL : StdLib} {E : Etcd} {DT : DoubleText} {PL : PromLib} {S3 : S3} {T : Type} `{B : IBaseIndex T}.
Abbreviation state := (searcher E PL S3 T).

(** The file is opened in one step; what is read from it is what it held
    then. *)
Definition load_steps (junk : Z) (filename : string) : P state (option loc) :=
  d ← atomic (gets (λ s : state, st_dir (se_storage s)));
  sg ← Done (DeserealizeSegment_file junk d filename);
  match sg with
  | None => mret None
  | Some sg => l ← atomic (hold sg); mret (Some l)
  end.

Definition apply_steps (junk : Z) (index_id shard_id : string) (added_id : Z) : P state () :=
  let segment_filename := to_string_u64 added_id in
  _ ← atomic (with_storage (getObject index_id segment_filename));
  segment ← load_steps junk segment_filename;
  atomic (on_shard index_id shard_id (pushSegment segment));;
  atomic (with_storage (remove_file segment_filename)).

Definition update_steps (junk : Z) (rq : UpdateRequest) : P state () :=
  let index_id := up_index_id rq in
  let shard_id := up_shard_id rq in
  atomic (with_prom (IncrementCounter "updates_count" (f64_of_Z 1) (shard_labels index_id shard_id)));;
  forP (up_added rq) (apply_steps junk index_id shard_id);;
  forP (up_deleted rq) (λ k, _ ← atomic (on_shard index_id shard_id (eraseSegment k)); mret ()).

Fixpoint search_shards_steps (index_id : string) (query : list f32) (k : Z) (shs : list string)
    (result : list string) : P state (list string) :=
  match shs with
  | [] => mret result
  | sh :: shs =>
    shard_result ← atomic (on_shard index_id sh (search query k));
    search_shards_steps index_id query k shs (result ++ shard_result)
  end.

Definition search_request_steps (rq : SearchRequest) : P state SearchResponse :=
  atomic (with_prom (IncrementCounter "requests_count" (f64_of_Z 1) ∅));;
  let index_id := rq_index_id rq in
  match rq_shard_id rq with
  | Some shard_id => atomic (on_shard index_id shard_id (search (vector_data rq) (rq_k rq)))
  | None =>
    atomic (modify (λ s : state, se_set_shards (<[index_id := default ∅ (se_shards s !! index_id)]> (se_shards s)) s));;
    shs ← atomic (gets (λ s : state, (std_iter (default ∅ (se_shards s !! index_id))).*1));
    search_shards_steps index_id (vector_data rq) (rq_k rq) shs []
  end.

Definition handler_steps (junk : Z) (c : searcher_call) : P state SearchResponse :=
  match c with
  | SearchCall rq => search_request_steps rq
  | UpdateCall rq => update_steps junk rq;; mret []
  end.

(** A handler that nobody interrupts is the call. *)
Lemma update_steps_ok junk rq : implements (update_steps junk rq) (ProcessUpdateRequest junk rq).
Proof.
  assert (∀ name, implements (load_steps junk name) (load_segment junk name)) as Hl
    by (intros name; unfold load_steps, load_segment; follow).
  unfold update_steps, ProcessUpdateRequest, apply_steps, apply_added. follow.
Qed.

Lemma search_request_steps_ok rq : implements (search_request_steps rq) (Searcher.ProcessSearchRequest rq).
Proof.
  assert (∀ i q k shs acc, implements (search_shards_steps i q k shs acc) (search_shards i q k shs acc)) as Hs.
  { intros i q k. induction shs as [|sh shs IH]; intros acc; cbn [search_shards_steps search_shards]; follow. }
  unfold search_request_steps, Searcher.ProcessSearchRequest. follow.
Qed.
End steps.

(** ** Searches beside an update *)

Section beside.
Context `{SL : StdLib} {E : Etcd} {DT : DoubleText} {PL : PromLib} {S3 : S3} {S3L : S3Laws S3}.
Context {T : Type} `{L : IBaseIndexLaws T} (V : list f32 → Prop) (sh : shape) (Hexact : sh_exact sh = true).
Context (i x : string) (S0 : list (string * list f32)) (sgs : list (segment T)).
Abbreviation state := (searcher E PL S3 T).
Implicit Types s : state.

(** What the shard serves after the first [n] of the segments. *)
Definition served_after (n : nat) : list (string * list f32) := foldl union S0 (seg_entries <$> take n sgs).
Definition within s : Prop := ∃ n, n ≤ length sgs ∧ serves V sh i x s (served_after n).

(** What a search may find changed: the shard serves more of the segments. *)
Definition advances s s' : Prop := within s → within s'.

#[local] Instance advances_preorder : PreOrder advances.
Proof. split; [intros s Hs; exact Hs|]. intros s1 s2 s3 H1 H2 Hs. by apply H2, H1. Qed.
#[local] Instance steady_preorder : PreOrder (steady (E:=E) (P:=PL) (S3:=S3) (T:=T)).
Proof.
  split; [intros s; split; [done|split; done]|]. intros s1 s2 s3 (P1 & O1 & H1) (P2 & O2 & H2).
  split_and!; [congruence..|]. intros j y. by rewrite H2.
Qed.

Lemma steady_advances s s' : steady s s' → advances s s'.
Proof. intros (_ & _ & Hs) (n & Hn & ix & Hix & Hv). exists n. split; [done|]. exists ix. by rewrite Hs. Qed.

Abbreviation waits := (awaits (E:=E) (P:=PL) (S3:=S3) V sh i x).
Lemma steady_awaits S ks sgs' s s' : steady s s' → waits S ks sgs' s → waits S ks sgs' s'.
Proof. intros (Hp & Hst & Hs). apply awaits_files; [done|done|split; by rewrite Hst]. Qed.

Lemma after_S n sg : sgs !! n = Some sg → served_after (S n) = union (served_after n) (seg_entries sg).
Proof. intros Hn. unfold served_after. by rewrite (take_S_r _ _ _ Hn), fmap_app, foldl_app. Qed.

(** *** The update *)

Abbreviation upd Q := (goes steady advances Q).

Section one_segment.
Context (junk : Z) (n : nat) (k : Z) (ks : list Z) (sg : segment T) (rest : list (segment T)).
Context (Hn : sgs !! n = Some sg).

Lemma waits_within m ks' sgs' s s1 : m ≤ length sgs → waits (served_after m) ks' sgs' s → advances s1 s.
Proof. intros Hm [? _ _ _] _. by exists m. Qed.

Lemma apply_steps_go s (Q : outcome () → state → Prop) :
  waits (served_after n) (k :: ks) (sg :: rest) s →
  (∀ s1, waits (served_after (S n)) ks rest s1 → Q (Ok ()) s1) →
  upd Q (apply_steps junk i x k) s.
Proof.
  intros Hs HQ. apply lookup_lt_Some in Hn as Hlt. set (before := waits (served_after n) (k :: ks) (sg :: rest)) in *.
  set (name := to_string_u64 k).
  assert (∀ s1 s2, steady s1 s2 → before s1 → before s2) as Hst by (intros; by eapply steady_awaits).
  assert (∀ s1 s2, before s2 → advances s1 s2) as Hadv by (intros; eapply waits_within; [|done]; lia).
  assert (∀ s1 s2, waits (served_after (S n)) ks rest s2 → advances s1 s2) as Hadv'
    by (intros; eapply waits_within; [|done]; lia).
  unfold apply_steps. fold name.
  apply (goes_call _ _ before (λ _ s1, before s1 ∧ st_dir (se_storage s1) !! name = Some (SerializeSegment [] sg)));
    [done|done| |].
  { intros s1 (s2 & Hr & Hs2 & Hd)%fetch_runs. exists true, s2. split_and!; [done|by apply Hadv|done|done]. }
  intros _ s1 Hs1. apply (goes_bind steady advances). unfold load_steps.
  apply (goes_call _ _ (λ s2, before s2 ∧ st_dir (se_storage s2) !! name = Some (SerializeSegment [] sg))
    (λ d s2, before s2 ∧ d !! name = Some (SerializeSegment [] sg))); [|done| |].
  { intros s2 s3 Hst23 [Hb Hd]. split; [by eapply Hst|]. destruct Hst23 as (_ & -> & _). done. }
  { intros s2 [Hb Hd]. eexists _, s2. split_and!; [apply runs_gets|by apply Hadv|done|done]. }
  intros d s2 [Hs2 Hd]. pose proof (read_ok V sh i x _ k ks sg rest junk s2 d Hs2 Hd) as Hread.
  fold name in Hread. rewrite Hread. apply goes_value. cbv beta iota.
  apply (goes_call _ _ before (λ l s3, before s3 ∧ heap (se_proc s3) !! l = Some (received sg))); [done|done| |].
  { intros s3 (l & s4 & Hr & Hs4 & Hl)%hold_runs. exists l, s4. split_and!; [done|by apply Hadv|done|done]. }
  intros l s3 [Hs3 Hl]. apply goes_ret. intros s4 Hst4. eexists. split; [done|].
  assert (before s4 ∧ heap (se_proc s4) !! l = Some (received sg)) as Hs4.
  { split; [by eapply Hst|]. destruct Hst4 as (-> & _). done. }
  apply (goes_call _ _ (λ s5, before s5 ∧ heap (se_proc s5) !! l = Some (received sg))
    (λ _ s5, waits (served_after (S n)) ks rest s5)); [|done| |].
  { intros s5 s6 Hst56 [Hb Hl']. split; [by eapply Hst|]. destruct Hst56 as (-> & _). done. }
  { intros s5 [Hb Hl']. destruct (push_runs V sh i x _ k ks sg rest s5 l Hb Hl') as (s6 & Hr & Hs6 & _).
    rewrite <-(after_S n sg Hn) in Hs6. exists (), s6. split_and!; [done|by apply Hadv'|done]. }
  intros _ s5 Hs5. apply goes_atomic. intros s6 Hs6. eapply steady_awaits in Hs5; [|exact Hs6].
  eexists (), _. assert (∀ d, waits (served_after (S n)) ks rest (se_set_storage (with_dir (se_storage s6) d) s6)) as Hf
    by (intros d'; by eapply awaits_files, Hs5).
  split_and!; [apply (runs_zoom se_storage se_set_storage), runs_modify|apply Hadv', Hf|].
  intros s7 Hs7. apply HQ. eapply steady_awaits; [exact Hs7|]. apply Hf.
Qed.
End one_segment.

Lemma apply_all_go junk ks n rest s (Q : outcome () → state → Prop) :
  drop n sgs = rest → n ≤ length sgs → waits (served_after n) ks rest s →
  (∀ s1, waits (served_after (length sgs)) [] [] s1 → Q (Ok ()) s1) →
  upd Q (forP ks (apply_steps junk i x)) s.
Proof.
  intros Hrest Hle Hs HQ. revert n rest s Hrest Hle Hs. induction ks as [|k ks IH]; intros n rest s Hrest Hle Hs.
  - pose proof (aw_objects _ _ _ _ _ _ _ _ Hs) as ->%Forall2_nil_inv_l.
    apply (f_equal length) in Hrest. rewrite length_drop in Hrest. simpl in Hrest.
    apply goes_ret. intros s1 Hs1. apply HQ. replace (length sgs) with n by lia. by eapply steady_awaits.
  - pose proof (aw_objects _ _ _ _ _ _ _ _ Hs) as (sg & rest' & _ & _ & ->)%Forall2_cons_inv_l.
    assert (sgs !! n = Some sg) as Hn by (rewrite <-(Nat.add_0_r n), <-lookup_drop; by rewrite Hrest).
    cbn [forP]. apply (goes_bind steady advances). eapply apply_steps_go; [exact Hn|exact Hs|].
    intros s1 Hs1. exists (). split; [done|]. apply (IH (S n) rest'); [|by apply lookup_lt_Some in Hn|done].
    replace (S n) with (n + 1) by lia. by rewrite <-drop_drop, Hrest.
Qed.

(** The whole update, whatever searches come between its steps. *)
Lemma update_steps_go junk rq s :
  up_index_id rq = i → up_shard_id rq = x → waits S0 (up_added rq) sgs s →
  upd (λ o s', o = Ok () ∧ serves V sh i x s' (served_after (length sgs))) (update_steps junk rq) s.
Proof.
  intros Hi Hx Hs. unfold update_steps. rewrite Hi, Hx.
  apply (goes_call _ _ (waits S0 (up_added rq) sgs) (λ _, waits S0 (up_added rq) sgs)); [intros; by eapply steady_awaits|done| |].
  { intros s1 Hs1. eexists (), _. split_and!; [apply runs_modify| |by eapply awaits_files, Hs1].
    intros _. exists 0. split; [lia|]. apply Hs1. }
  intros _ s1 Hs1. apply (goes_bind steady advances). eapply (apply_all_go junk _ 0); [done|lia|done|].
  intros s2 Hs2. exists (). split; [done|]. revert s2 Hs2.
  induction (up_deleted rq) as [|k dels IH]; intros s2 Hs2; cbn [forP].
  - apply goes_ret. intros s3 Hs3. split; [done|]. eapply steady_awaits in Hs2; [|exact Hs3]. apply Hs2.
  - apply (goes_bind steady advances).
    apply (goes_call _ _ (waits (served_after (length sgs)) [] []) (λ _, waits (served_after (length sgs)) [] []));
      [intros; by eapply steady_awaits|done| |].
    + intros s3 (b & s4 & Hr & Hs4 & _)%(unload_one V sh i x k). exists b, s4. split_and!; [done| |done].
      by eapply waits_within, Hs4.
    + intros b s3 Hs3. apply goes_ret. intros s4 Hs4. exists (). split; [done|]. apply IH. by eapply steady_awaits.
Qed.

(** *** The searches *)

(** The [k] nearest, nearest first, of what the shard serves after some of the
    segments. *)
Definition prefix_answer (rq : SearchRequest) (o : outcome SearchResponse) : Prop :=
  ∃ n es, n ≤ length sgs ∧ o = Ok es.*1 ∧
    is_topk (entry_dist (T:=T) sh (vector_data rq)) (Z.to_nat (rq_k rq)) (served_after n) es ∧
    StronglySorted (λ e e', sr_lt (result_of (T:=T) sh (vector_data rq) e) (result_of (T:=T) sh (vector_data rq) e')) es.

(** A search of the shard the index can be asked. *)
Record asks (rq : SearchRequest) : Prop := {
  as_index : rq_index_id rq = i;
  as_shard : rq_shard_id rq = Some x;
  as_k : (0 < rq_k rq)%Z;
  as_dim : sh_dim sh ≤ length (vector_data rq);
  as_nan v : V v → not_nan (ib_metric_dist (sh_metric sh) (vector_data rq) v);
}.

Lemma search_steps_go rq s :
  asks rq → within s →
  goes advances steady (λ o _, prefix_answer rq o) (search_request_steps rq) s.
Proof.
  intros [Hi Hx Hk Hd Hnan] Hs. unfold search_request_steps. rewrite Hi, Hx.
  apply (goes_call _ _ within (λ _, within)); [by intros s1 s2 Hadv; apply Hadv|done| |].
  { intros s1 Hs1. eexists (), _. split_and!; [apply runs_modify|split; [done|split; done]|].
    by apply (steady_advances s1); [split; [done|split; done]|]. }
  intros _ s1 Hs1. apply goes_atomic. intros s2 Hadv. destruct (Hadv Hs1) as (n & Hn & ix & Hix & Hv).
  destruct (visible_search V sh ix (served_after n) (vector_data rq) (Z.to_nat (rq_k rq)) Hv) as (es & Hr & Ht & Ho);
    [lia|done|done|done|]. rewrite Z2Nat.id in Hr by lia.
  destruct (on_shard_runs i x _ s2 ix es.*1 ix Hix Hr) as (s3 & Hr3 & _).
  exists es.*1, s3. split_and!; [done| |intros s4 _; by exists n, es].
  eapply (keeps_shard_search s2); [|exact Hr3]. split; [done|split; done].
Qed.

(** ** Side by side *)

(** An update and any number of searches of its shard, from when the update
    begins. *)
Lemma update_beside_searches junk rq (calls : gmap nat searcher_call) t0 s x' :
  up_index_id rq = i → up_shard_id rq = x → waits S0 (up_added rq) sgs s →
  calls !! t0 = Some (UpdateCall rq) →
  (∀ t c, calls !! t = Some c → t ≠ t0 → ∃ srq, c = SearchCall srq ∧ asks srq) →
  rtc pool_step (s, handler_steps junk <$> calls) x' →
  (∀ o, x'.2 !! t0 = Some (Done o) → o = Ok [] ∧ serves V sh i x x'.1 (served_after (length sgs))) ∧
  (∀ t srq o, calls !! t = Some (SearchCall srq) → x'.2 !! t = Some (Done o) → prefix_answer srq o).
Proof.
  intros Hi Hx Hs Ht0 Hrest Hr.
  set (R := λ t, if decide (t = t0) then steady else advances).
  set (G := λ t, if decide (t = t0) then advances else steady).
  set (Q := λ t (o : outcome SearchResponse) (s1 : state), if decide (t = t0) then o = Ok [] ∧ serves V sh i x s1 (served_after (length sgs))
    else ∀ srq, calls !! t = Some (SearchCall srq) → prefix_answer srq o).
  assert (∀ t, PreOrder (R t)) as HR by (intros t; unfold R; case_decide; apply _).
  assert (∀ t u s1 s2, t ≠ u → G t s1 s2 → R u s1 s2) as HG.
  { intros t u s1 s2 Hne. unfold R, G. repeat case_decide; try congruence; [intros Hst; exact Hst..|apply steady_advances]. }
  assert (all_go R G Q (s, handler_steps junk <$> calls)) as Hall.
  { intros t p Hp. apply lookup_fmap_Some in Hp as (c & <- & Hc). unfold R, G, Q. cbn [fst].
    destruct (decide (t = t0)) as [Ht|Ht].
    - subst t. rewrite Ht0 in Hc. injection Hc as <-. apply (goes_bind steady advances).
      eapply goes_mono; [|by apply update_steps_go]. intros o s1 [-> Hsv]. exists (). split; [done|].
      apply goes_ret. intros s2 (_ & _ & Hs2). split; [done|]. destruct Hsv as (ix & Hix & Hv). exists ix. by rewrite Hs2.
    - destruct (Hrest t c Hc Ht) as (srq & -> & Hask). eapply goes_mono; [|apply (search_steps_go srq s Hask)].
      + intros o s1 Ho srq' Hc'. rewrite Hc in Hc'. by injection Hc' as <-.
      + exists 0. split; [lia|]. apply Hs. }
  split.
  - intros o Ho. pose proof (pool_done R G Q HG _ _ t0 o Hall Hr Ho) as HQ. unfold Q in HQ. by rewrite decide_True in HQ.
  - intros t srq o Hc Ho. pose proof (pool_done R G Q HG _ _ t o Hall Hr Ho) as HQ. unfold Q in HQ.
    rewrite decide_False in HQ; [by apply HQ|]. intros ->. by rewrite Ht0 in Hc.
Qed.
End beside.

(** ** Updates side by side

    Two updates may name segments of the same id, of different indexes. Both
    are downloaded to the file of that name, and the first one that is done
    removes it. *)

Section collide.
Context `{SL : StdLib} {E : Etcd} {DT : DoubleText} {PL : PromLib} {S3 : S3} {S3L : S3Laws S3}.
Context {T : Type} `{L : IBaseIndexLaws T} (V : list f32 → Prop) (junk k : Z).
Abbreviation state := (searcher E PL S3 T).
Abbreviation name := (to_string_u64 k).
Implicit Types s : state.

Definition brings (i x : string) : UpdateRequest := UpdateReq [k] [] i x.

Lemma brings_runs sh i x S sg s :
  awaits V sh i x S [k] [sg] s →
  ∃ s', runs (ProcessUpdateRequest junk (brings i x)) s () s' ∧
    serves V sh i x s' (union S (seg_entries sg)) ∧ st_dir (se_storage s') !! name = None.
Proof.
  intros Hs. unfold ProcessUpdateRequest. cbn [brings up_index_id up_shard_id up_added up_deleted].
  assert (awaits V sh i x S [k] [sg] (se_set_prom
    (IncrementCounter "updates_count" (f64_of_Z 1) (shard_labels i x) (se_prom s)) s)) as Hs0 by by eapply awaits_files, Hs.
  destruct (apply_added_runs V sh i x S k [] sg [] junk _ Hs0) as (s1 & Hr1 & [Hs1 _ _ _] & Hn1 & _).
  exists s1. split_and!; [|done|done]. eapply runs_bind; [apply runs_modify|]. cbn [forM].
  eapply runs_bind; [eapply runs_bind; [exact Hr1|apply runs_ret]|apply runs_ret].
Qed.

(** The rest of an update that has downloaded. *)
Definition opens (i x : string) : P state SearchResponse :=
  (((segment ← load_steps junk name;
     atomic (on_shard i x (pushSegment segment));;
     atomic (with_storage (remove_file name)));; mret ());; mret ());; mret [].

(** It has nothing to open once the file is gone. *)
Lemma opens_missing i x s ts t :
  ts !! t = Some (opens i x) → st_dir (se_storage s) !! name = None →
  pool_step (s, ts) (s, <[t := Done (Undef NullDeref)]> ts).
Proof.
  intros Ht Hn. eapply acts_pool; [exact Ht|]. eexists _, _. split; [done|]. split; [|done].
  cbn. unfold DeserealizeSegment_file. by rewrite Hn.
Qed.

Lemma begins sh i x S sg s ts t :
  awaits V sh i x S [k] [sg] s → ts !! t = Some (handler_steps junk (UpdateCall (brings i x))) →
  ∃ pr d, rtc pool_step (s, ts) (se_set_storage (with_dir (se_storage s) d) (se_set_prom pr s), <[t := opens i x]> ts).
Proof.
  intros Hs Ht. set (s1 := se_set_prom (IncrementCounter "updates_count" (f64_of_Z 1) (shard_labels i x) (se_prom s)) s).
  assert (awaits V sh i x S [k] [sg] s1) as Hs1 by by eapply awaits_files, Hs.
  eexists _, _. eapply rtc_l; [eapply acts_pool; [exact Ht|]|eapply rtc_l; [eapply acts_pool; [apply lookup_insert_eq|]|]].
  - apply acts_bind, (acts_call _ _ s () s1), runs_modify.
  - do 3 apply acts_bind. eapply acts_call. by eapply fetch_at.
  - rewrite insert_insert_eq. apply rtc_refl.
Qed.

Lemma updates_collide_at sh sh' i x j y S S' sg sg' s :
  awaits V sh i x S [k] [sg] s → awaits V sh' j y S' [k] [sg'] s →
  ∃ s' ts, rtc pool_step (s, handler_steps junk <$> {[0 := UpdateCall (brings i x); 1 := UpdateCall (brings j y)]}) (s', ts) ∧
    ts !! 0 = Some (Done (Ok [])) ∧ ts !! 1 = Some (Done (Undef NullDeref)).
Proof.
  intros Hs Hs'. set (ts := handler_steps junk <$> _).
  destruct (begins sh' j y S' sg' s ts 1 Hs' eq_refl) as (pr & d & Hb). set (s1 := se_set_storage _ _) in Hb.
  assert (awaits V sh i x S [k] [sg] s1) as Hs1 by by eapply awaits_files, Hs.
  destruct (brings_runs sh i x S sg s1 Hs1) as (s2 & Hr & _ & Hn).
  set (ts1 := <[1 := opens j y]> ts) in Hb.
  assert (rtc pool_step (s1, ts1) (s2, <[0 := Done (Ok [])]> ts1)) as H0.
  { pose proof (pool_solo (handler_steps junk (UpdateCall (brings i x))) s1 ts1 0 eq_refl) as H0.
    assert (run_prog (handler_steps junk (UpdateCall (brings i x))) s1 = (s2, Ok [])) as Hp; [|by rewrite Hp in H0].
    etrans; [apply (implements_bind _ _ _ (λ _, mret []) (update_steps_ok junk _) (λ _, implements_ret []))|].
    by eapply (runs_bind _ _ _ () s2). }
  eexists s2, (<[1 := Done (Undef NullDeref)]> (<[0 := Done (Ok [])]> ts1)). split_and!; [|done|done].
  etrans; [exact Hb|]. etrans; [exact H0|]. apply rtc_once, (opens_missing j y); [done|exact Hn].
Qed.
End collide.
