(* ===== verification/ProgramSpec.v ===== *)
(** * What a node does to the directory (app/src/Searcher.cpp, main.cpp)

    A searcher keeps its place in etcd while it serves: no handler touches the
    directory or the set of shards. So what it registered when it started it
    can remove when it stops, unless somebody else removed it first. *)

From S2P Require Import Prelude Cxx Floats BinaryIO StorageClient Faiss TopK IBaseIndex Segment IIndex Index IndexFactory.
From S2P Require Import Bootstrap Merging Stats EtcdClient Prometheus Coordinator Searcher SearcherSpec Writer Nodes.

(** ** Serving leaves the registration alone *)

Section serving.
Context `{SL : StdLib} {E : Etcd} {DT : DoubleText} {P : PromLib} {S3 : S3} {J : Json} {T : Type} `{B : IBaseIndex T}.
Implicit Types s : searcher E P S3 T.

Definition same_registration s0 s : Prop :=
  se_etcd s = se_etcd s0 ∧ address s = address s0 ∧
  ∀ i x, is_Some (se_shards s !! i ≫= λ m, m !! x) ↔ is_Some (se_shards s0 !! i ≫= λ m, m !! x).

Lemma same_served s0 s i x : same_registration s0 s → (i, x) ∈ served s ↔ (i, x) ∈ served s0.
Proof. intros (_ & _ & H). by rewrite !elem_of_served. Qed.

Section handlers.
Context (s0 : searcher E P S3 T).

Lemma always_on_shard {A} i x (m : M (st T) A) : always (same_registration s0) (on_shard i x m).
Proof.
  intros s (He & Ha & Hs). unfold on_shard. destruct (se_shards s !! i ≫= λ m, m !! x) as [idx|] eqn:Hx; [|done].
  destruct (m (St (se_proc s) idx [])) as [st' o]. split_and!; [done..|]. intros j y. rewrite <-Hs. simpl.
  unfold put2. rewrite lookup_insert. case_decide as Hi; [subst j|done]. simpl. rewrite lookup_insert.
  case_decide as Hy; [subst y; rewrite Hx; by split; eauto|]. by destruct (se_shards s !! i).
Qed.
Hint Resolve always_on_shard : keeps.

Lemma always_search rq : always (same_registration s0) (Searcher.ProcessSearchRequest rq).
Proof.
  assert (∀ i q k shs acc, always (same_registration s0) (search_shards i q k shs acc)) as Hall
    by (intros i q k; induction shs; intros acc; simpl; hold).
  unfold Searcher.ProcessSearchRequest, with_prom. hold.
  apply always_modify. intros s (He & Ha & Hs). split_and!; [done..|]. intros j y. rewrite <-Hs. simpl.
  rewrite lookup_insert. case_decide; [subst j|done]. by destruct (se_shards s !! rq_index_id rq).
Qed.

Lemma always_update junk rq : always (same_registration s0) (ProcessUpdateRequest junk rq).
Proof.
  unfold ProcessUpdateRequest, apply_added, load_segment, with_prom, with_storage. hold.
  intros s' (He & Ha & Hs). done.
Qed.

Lemma always_serve junk cs : always (same_registration s0) (searcher_serve junk cs).
Proof. unfold searcher_serve, handled. pose proof always_search. pose proof always_update. hold. Qed.
End handlers.
End serving.

(** ** Stopping *)

(** etcd refuses to remove a key it does not have. *)
Class EtcdMissing (E : Etcd) {EL : EtcdLaws E} : Prop :=
  rm_missing s k : etcd_view s !! k = None → etcd_rm s k = (s, false).

Section stopping.
Context `{SL : StdLib} {E : Etcd} {EL : EtcdLaws E} {ER : EtcdRemoves E} {EM : EtcdMissing E} {DT : DoubleText}
  {P : PromLib} {S3 : S3} {G : Grpc} {T : Type} `{B : IBaseIndex T}.
Implicit Types s : searcher E P S3 T.

(** A key that is gone stays gone while other keys are removed. *)
Lemma unregister_throws a l i x s :
  (i, x) ∈ l → etcd_view (se_etcd s) !! host_key i x a = None →
  ∃ s', forM l (λ p, with_etcd (RemoveSearcherHost p.1 p.2 a)) s = (s', Throw StdException).
Proof.
  revert s. induction l as [|p l IH]; intros s Hin Hno; [by apply elem_of_nil in Hin|].
  cbn [forM]. unfold mbind at 1, M_bind, with_etcd, zoom, RemoveSearcherHost, RemoveElement.
  destruct (etcd_rm (se_etcd s) (host_key p.1 p.2 a)) as [e [|]] eqn:Hrm; [|by eexists].
  apply elem_of_cons in Hin as [<-|Hin]; [by rewrite rm_missing in Hrm by done|].
  apply (IH (se_set_etcd e s) Hin). simpl. rewrite (etcd_rm_spec _ _ _ Hrm), lookup_delete_None. by right.
Qed.

Lemma destroy_terminates i x s :
  (i, x) ∈ served s → etcd_view (se_etcd s) !! host_key i x (address s) = None →
  ∃ s', SearcherImpl_destroy s = (s', Undef Terminate).
Proof.
  intros Hin Hno. destruct (unregister_throws (address s) (served s) i x s Hin Hno) as [s' Hs'].
  exists s'. unfold SearcherImpl_destroy, noexcept, GracefulShutdown.
  unfold mbind, M_bind, gets. by rewrite Hs'.
Qed.

(** What the coordinator does to a host of a shard with an error. *)
Lemma strike_off i x a stats (co : coordinator E P G) :
  (1 ≤ GetErrorsCount stats)%Z →
  ∃ co', runs (UpdateStateIfNeeded i x a stats) co () co' ∧ etcd_view (co_etcd co') !! host_key i x a = None.
Proof.
  intros He. unfold UpdateStateIfNeeded, kHostErrorsLimit. rewrite (proj2 (Z.leb_le _ _) He).
  unfold runs, try_catch, on_etcd, zoom, RemoveSearcherHost, RemoveElement.
  destruct (etcd_view (co_etcd co) !! host_key i x a) as [v|] eqn:Hk.
  - pose proof (up_rm (co_etcd co) (host_key i x a) ltac:(eauto)) as Hok.
    destruct (etcd_rm (co_etcd co) (host_key i x a)) as [e ok] eqn:Hrm. simpl in Hok. subst ok.
    eexists. split; [done|]. simpl. by rewrite (etcd_rm_spec _ _ _ Hrm), lookup_delete_eq.
  - rewrite (rm_missing _ _ Hk). eexists. split; [done|]. exact Hk.
Qed.
End stopping.

(** ** From main to the end *)

Section life.
Context `{SL : StdLib} {E : Etcd} {EL : EtcdLaws E} {EU : EtcdUp E} {ER : EtcdRemoves E} {DT : DoubleText}
  {P : PromLib} {S3 : S3} {S3L : S3Laws S3} {J : Json} {JD : JsonDoc J} {U : GrpcUpdate} {G : Grpc} {AP : ArgParse}
  {T : Type} `{L : IBaseIndexLaws T} (V : list f32 → Prop) (listens : string → bool).
Implicit Types s : searcher E P S3 T.

(** [main] after a node of a valid mode. *)
Lemma main_node {St} (sr wr cr : json → M St ()) files argv config mode node (w w' : St) (o : outcome ()) :
  BootstrapConfig files argv = Ok (inl config) → config_string config "mode" = Ok mode →
  (mode, node) ∈ [("searcher", sr); ("writer", wr); ("coordinator", cr)] → node config w = (w', o) →
  main sr wr cr files argv w =
    (w', match o with
         | Ok _ => Throw (InvalidArgument ("Invalid mode: " +:+ mode))
         | Throw e => Throw e
         | Undef u => Undef u
         end).
Proof.
  intros Hb Hm Hn Hs. unfold main. rewrite Hb, (liftO_Ok_bind (inl config : json + ending)), Hm, (liftO_Ok_bind mode).
  rewrite !elem_of_cons, elem_of_nil in Hn.
  destruct Hn as [[= -> ->]|[[= -> ->]|[[= -> ->]|[]]]]; unfold mbind, M_bind; simpl; rewrite Hs; by destruct o.
Qed.

(** How a searcher's life ends, and what etcd lists then. *)
Lemma searcher_life_runs sc ps s D Wait :
  Forall2 describes (json_items (sc_indexes sc)) ps → NoDup ps.*1 → plain ps.*1 → allocated s → se_shards s = ∅ →
  dir_rep (etcd_view (se_etcd s)) D → (∀ s0, always (same_registration s0) Wait) →
  ∃ s1, runs (SearcherImpl (sc_indexes sc)) s () s1 ∧
    (∀ i x r, (i, x, r) ∈ ps → serves V (shape_of (T:=T) r) i x s1 []) ∧
    (∃ D1, dir_rep (etcd_view (se_etcd s1)) D1 ∧ dir_times D1 = dir_times D ∧
      ∀ i x a, (i, x, a) ∈ dir_hosts D1 ↔ (i, x, a) ∈ dir_hosts D ∨ a = address s ∧ (i, x) ∈ ps.*1) ∧
    (listens (InternalRun_address (sc_server sc)) = false →
      searcher_life listens sc Wait s = (s1, Undef NullDeref)) ∧
    (listens (InternalRun_address (sc_server sc)) = true → ∀ s2, runs Wait s1 () s2 →
      ∃ s3 D3, searcher_life listens sc Wait s = (s3, Ok ()) ∧ dir_rep (etcd_view (se_etcd s3)) D3 ∧
        dir_times D3 = dir_times D ∧
        ∀ i x a, (i, x, a) ∈ dir_hosts D3 ↔ (i, x, a) ∈ dir_hosts D ∧ ¬ (a = address s ∧ (i, x) ∈ ps.*1)).
Proof.
  intros Hd Hnd Hpl Ha Hno HD HW.
  destruct (SearcherImpl_runs V _ ps s D Hd Hnd Hpl Ha Hno HD) as (s1 & H1 & _ & _ & Hsv & Hps & Had & HD1).
  exists s1. split_and!; [done|done| | |].
  - eexists. split_and!; [exact HD1|done|]. intros i x a. simpl. rewrite elem_of_union, elem_of_listing, Hps. naive_solver.
  - intros Hl. unfold searcher_life, InternalRun. rewrite Hl. unfold mbind, M_bind. by rewrite H1.
  - intros Hl s2 H2.
    assert (same_registration s1 s2) as Hsame by (apply (always_keeps _ _ (HW s1) s1 () s2); done).
    pose proof Hsame as (He & Had2 & _).
    assert (∀ i x, (i, x) ∈ served s2 ↔ (i, x) ∈ ps.*1) as Hps2 by (intros i x; by rewrite (same_served s1), Hps).
    assert (plain (served s2)) as Hpl2.
    { apply Forall_forall. intros [i x] Hin%Hps2. unfold plain in Hpl. rewrite Forall_forall in Hpl. by apply (Hpl (i, x)). }
    rewrite <-He in HD1. destruct (unregister_returns (address s2) (served s2) s2 _ Hpl2 (NoDup_served s2) HD1) as [s3 H3].
    { intros [i x] Hin. simpl. apply elem_of_union. left. rewrite elem_of_listing, Had2, Had, Hps, <-Hps2. done. }
    pose proof (unregister_runs _ _ s2 s3 _ Hpl2 HD1 H3) as HD3. eexists s3, _. split_and!; [|exact HD3|done|].
    + unfold searcher_life, InternalRun. rewrite Hl. unfold mbind, M_bind. rewrite H1, H2.
      unfold SearcherImpl_destroy, noexcept, GracefulShutdown, mbind, M_bind, gets. by rewrite H3.
    + intros i x a. simpl. rewrite elem_of_difference, elem_of_union, !elem_of_listing, Hps, Hps2, Had2, Had. naive_solver.
Qed.
End life.
