(* ===== verification/WriterLife.v ===== *)
(** * A writer's whole life (app/src/Writer.cpp, main.cpp)

    A writer whose services answer never stops on a request or a task: from
    its constructor on, through any requests that bring new vectors and any
    tasks in between, it stays [healthy], and what it was given it [holds]
    until the end, when the tasks left have put all but the segments being
    filled into the object store. *)

From S2P Require Import Prelude Cxx Floats BinaryIO StorageClient Faiss TopK IBaseIndex Segment IIndex Events Storage Index.
From S2P Require Import IndexSpec IndexFactory Bootstrap Merging Stats EtcdClient Prometheus Counters Gauges Coordinator.
From S2P Require Import Searcher Writer WriterSpec Publication Nodes.

(** ** Numbers drawn

    No call takes a draw of [rand()] back. *)

Section draws.
Context `{SL : StdLib} {E : Etcd} {DT : DoubleText} {P : PromLib} {S3 : S3} {J : Json} {U : GrpcUpdate}
  {T : Type} `{B : IBaseIndex T} (n : nat).

Definition drawn_at_least (s : st T) : Prop := n ≤ draws (st_proc s).
Definition wr_drawn_at_least (w : writer E P S3 J U T) : Prop := n ≤ draws (wr_proc w).

Lemma always_rand : always drawn_at_least rand.
Proof. intros s. unfold drawn_at_least. simpl. lia. Qed.
Lemma always_alloc sg : always drawn_at_least (alloc sg).
Proof. intros s Hs. exact Hs. Qed.
Lemma always_deref l : always drawn_at_least (deref l).
Proof. intros s Hs. unfold deref. by destruct (heap (st_proc s) !! l). Qed.
Lemma always_on_idx f : always drawn_at_least (modify (on_idx f)).
Proof. intros s Hs. exact Hs. Qed.
Lemma always_assign l sg : always drawn_at_least (assign l sg).
Proof. intros s Hs. exact Hs. Qed.
#[local] Hint Resolve always_rand always_alloc always_deref always_on_idx always_assign : keeps.

Lemma always_add k ids vectors : always drawn_at_least (add k ids vectors).
Proof.
  assert (∀ er ins, always drawn_at_least (notify er ins)) as Hn by (intros; unfold notify, idx; hold).
  assert (∀ k ls pos, always drawn_at_least (find_segment k ls pos)) as Hf
    by (intros k0; induction ls; intros pos; simpl; hold; done).
  assert (∀ m i j r, always drawn_at_least (merge_row m i j r)) as Hrow.
  { induction m; intros i j r; simpl; [hold|]. unfold merge_slot, combine_pair, idx. hold; done. }
  assert (∀ f i b, always drawn_at_least (merge_levels f i b)) as Hl.
  { induction f; intros i b; simpl; unfold merge_level, erase_found, idx; hold; done. }
  assert (∀ f m ids vectors ins, always drawn_at_least (add_loop f m ids vectors ins)) as Ha.
  { induction f; intros m ids' vs ins; simpl; unfold storage_add, create, idx; hold; done. }
  unfold add, merge, idx. hold; done.
Qed.
Lemma always_erase k ids : always drawn_at_least (erase k ids).
Proof. unfold erase, idx. hold. Qed.

Lemma always_on_index {A} i x (m : M (st T) A) :
  always drawn_at_least m → always wr_drawn_at_least (on_index i x m).
Proof.
  intros Hm w Hw. unfold on_index. destruct (wr_shards w !! i ≫= λ m, m !! x) as [idx|]; [|done].
  specialize (Hm (St (wr_proc w) idx []) Hw). destruct (m (St (wr_proc w) idx [])) as [s' o].
  rewrite posted. exact Hm.
Qed.

Lemma always_create_shard i cfg x : always wr_drawn_at_least (create_shard i cfg x).
Proof.
  unfold create_shard. hold. intros w Hw. unfold on_wr_proc, zoom, CreateIndex, wr_drawn_at_least in *.
  destruct (parse_index cfg) as [r|e|u]; [|done..]. simpl. lia.
Qed.
#[local] Hint Resolve always_add always_erase always_on_index always_create_shard : keeps.

Lemma always_write rq : always wr_drawn_at_least (ProcessWriteRequest rq).
Proof.
  assert (∀ i ids best, always wr_drawn_at_least (choose i ids best)) as Hc
    by (intros i; induction ids; intros best; simpl; unfold on_wr_etcd; hold; done).
  assert (∀ l, always wr_drawn_at_least (vectors_count l)) as Hv
    by (intros l w Hw; unfold vectors_count; by destruct (GetGaugeValue _ _ _)).
  unfold ProcessWriteRequest, updateIndexesState, update_index, chooseShard, on_wr_prom, on_wr_etcd, on_wr_storage. hold.
Qed.

Lemma always_task t : always wr_drawn_at_least (run_task t).
Proof.
  assert (∀ i l, always wr_drawn_at_least (upload i l)) as Hu.
  { intros i l. unfold upload, on_wr_storage. hold.
    intros w Hw. unfold wr_deref. by destruct (heap (wr_proc w) !! l). }
  assert (∀ i ls, always wr_drawn_at_least (upload_all i ls)) as Ha by (intros i; induction ls; simpl; hold).
  unfold run_task, on_wr_prom, on_wr_etcd, on_wr_storage. hold.
  intros w Hw. unfold updateIndex. by destruct (rpc_update _ _ _).
Qed.

Lemma always_serve_draws ts : always wr_drawn_at_least (writer_serve ts).
Proof.
  unfold writer_serve, handled, next_task. pose proof always_write. pose proof always_task. hold.
Qed.
End draws.

Lemma serve_draws `{SL : StdLib} {E : Etcd} {DT : DoubleText} {P : PromLib} {S3 : S3} {J : Json} {U : GrpcUpdate}
    {T : Type} `{B : IBaseIndex T} ts (w : writer E P S3 J U T) :
  rand_distinct (wr_proc (writer_serve ts w).1) → rand_distinct (wr_proc w).
Proof. apply rand_distinct_mono. exact (always_serve_draws (draws (wr_proc w)) ts w (le_n _)). Qed.

(** ** A writer that can go on *)

Section life.
Context `{SL : StdLib} {E : Etcd} {EL : EtcdLaws E} {EU : EtcdUp E} {DT : DoubleText} {P : PromLib} {PL : PromLaws P}
  {S3 : S3} {S3L : S3Laws S3} {S3U : S3Up S3} {J : Json} {U : GrpcUpdate} {T : Type} `{L : IBaseIndexLaws T}.
Context (V : list f32 → Prop) (D : directory) (cfgs : gmap string json).
Implicit Types (w : writer E P S3 J U T) (given : list (string * list f32)).

(** The services a writer relies on: configurations that parse, published
    times that are numbers, and searchers that accept updates. *)
Record surroundings : Prop := {
  su_config : map_Forall (λ i cfg, config_ok (i, cfg)) cfgs;
  su_times i x v : dir_times D !! (i, x) = Some v → ∃ t, stod v = Ok t ∧ not_nan t;
  su_hosts n i x h rq : (i, x, h) ∈ dir_hosts D → (rpc_update n h rq).2 = true;
}.
Context (Hsu : surroundings).

Record healthy given (n : nat) w : Prop := {
  hl_ok : wr_ok V w;
  hl_config : indexes_create_agrs w = cfgs;
  hl_etcd : dir_rep (etcd_view (wr_etcd w)) D;
  hl_known i : is_Some (wr_shards w !! i) → is_Some (cfgs !! i);
  hl_listed i x : is_Some (shard i x w) → listed D i x;
  hl_metrics : metrics_wf (wr_prom w);
  hl_tally : tallies "vectors_count" n (wr_prom w);
  hl_given : all_given given w;
  hl_tasks t : t ∈ callback_runner w → listed D (tk_index t) (tk_shard t);
}.

(** The vector is in a shard of the index. *)
Definition holds w (i : string) (e : string * list f32) : Prop :=
  ∃ x idx, shard i x w = Some idx ∧ e ∈ content (St (wr_proc w) idx []).

Lemma listed_plain e i x : dir_rep (etcd_view e) D → listed D i x → slash_free i = true ∧ slash_free x = true.
Proof. intros [_ Hh Ht] [[a Ha]|Hx]; [by eapply Hh|by apply Ht]. Qed.

Lemma listed_published e i x : dir_rep (etcd_view e) D → listed D i x → ∃ t, published i x e t.
Proof.
  intros HD Hl. destruct (listed_plain e i x HD Hl) as [Hi Hx]. destruct (up_ls e (time_key i x)) as [kvs Hk].
  pose proof (GetSearcherAverageResponseTime_runs i x Hi Hx e kvs D HD Hk) as Hr.
  destruct (dir_times D !! (i, x)) as [v|] eqn:Hv.
  - destruct (su_times Hsu i x v Hv) as (t & Ht & Hn). exists t. split; [|done]. unfold runs. by rewrite Hr, Ht.
  - by exists (S754_zero false).
Qed.

Lemma given_lacks given id w : all_given given w → id ∉ given.*1 → lacks id w.
Proof.
  intros Hg Hid i x idx _ (e & -> & (l & _ & He)%elem_of_contents)%list_elem_of_fmap. apply Hid.
  unfold entries_at in He. simpl in He. destruct (heap (wr_proc w) !! l) as [sg|] eqn:Hsg; [|by apply elem_of_nil in He].
  apply list_elem_of_fmap. exists e. split; [done|]. by eapply Hg.
Qed.

Lemma healthy_prom given n n' w p :
  healthy given n w → metrics_wf p → tallies "vectors_count" n' p → healthy given n' (wr_set_prom p w).
Proof. intros [Hok ? ? ? ? _ _ ? ?] Hp Ht. split; try done. by apply (shrinks_ok V w). Qed.

(** *** Following etcd *)

(** New shards are allocated; nothing that was there is touched. *)
Record refreshed w0 w : Prop := {
  rf_alloc : proc_wf (wr_proc w);
  rf_draws : draws (wr_proc w0) ≤ draws (wr_proc w);
  rf_heap l : is_Some (heap (wr_proc w0) !! l) → heap (wr_proc w) !! l = heap (wr_proc w0) !! l;
  rf_prom : wr_prom w = wr_prom w0;
}.

Lemma keeps_refreshed w0 : keeps (refreshed w0) updateIndexesState.
Proof.
  unfold updateIndexesState, update_index, create_shard, on_wr_etcd, on_wr_storage. keep;
    try (apply keeps_modify; intros w []; by split); try (apply keeps_zoom; intros w x b [] _; by split).
  apply keeps_zoom. intros w p idx [Ha Hd Hh Hp]. unfold CreateIndex, runs.
  destruct (parse_index _) as [r|e|u]; [|done..]. intros [= <- _]. split; simpl; [|lia| |done].
  - intros l. unfold new_seg. simpl. rewrite lookup_insert.
    destruct (decide (fresh (wr_proc w) = l)); [intros _; lia|]. intros ?%Ha. lia.
  - intros l Hl. specialize (Hh l Hl). rewrite lookup_insert_ne; [done|]. intros <-.
    rewrite <-Hh in Hl. apply Ha in Hl. lia.
Qed.

Lemma refreshed_content w0 w i x idx :
  wr_ok V w0 → refreshed w0 w → shard i x w0 = Some idx →
  content (St (wr_proc w) idx []) = content (St (wr_proc w0) idx []).
Proof.
  intros Hok [Ha Hd Hh _] Hx. destruct (wk_shard _ _ Hok i x idx Hx) as [Hinv _].
  apply (idx_inv_frame V 0 (wr_proc w0) (wr_proc w) idx [] []); [done..|].
  intros l Hl. apply Hh. by eapply knows_alloc.
Qed.

Lemma refresh_returns given n w id :
  healthy given n w → lacks id w →
  ∃ w', runs updateIndexesState w () w' ∧ healthy given n w' ∧ writing V cfgs id given (λ _ _ _, True) w' ∧
    (∀ i e, holds w i e → holds w' i e) ∧
    (∀ i x, is_Some (cfgs !! i) → listed D i x → is_Some (shard i x w')) ∧
    (∀ i m, wr_shards w' !! i = Some m → ∃ x, is_Some (m !! x)).
Proof.
  intros [Hok Hg HD Hk Hl Hm Ht Hgi Hq] Hid.
  destruct (updateIndexesState_runs w D) as (w' & Hr & Hf & Ho & He & Hc & Hq'); [rewrite Hg; apply Hsu|done|apply Hok|].
  assert (refreshed w w') as Hrf by (eapply (keeps_refreshed w); [|exact Hr]; by split; [apply Hok|..]).
  assert (writing V cfgs id given (λ _ _ _, True) w') as Hw.
  { eapply keeps_updateIndexesState; [|exact Hr]. split; try done. intros _ i x idx l sg _ _ _. by right. }
  pose proof Hw as [Hok' Hg' _ Hgi' _]. rewrite Hg in Hf, Ho.
  assert (∀ i, is_Some (wr_shards w' !! i) → is_Some (cfgs !! i)) as Hk'.
  { intros i Hi. destruct (cfgs !! i) eqn:Hc'; [by eauto|]. rewrite (Ho i Hc') in Hi. apply Hk in Hi. by rewrite Hc' in Hi. }
  assert (∀ i x, is_Some (shard i x w') → is_Some (wr_shards w' !! i)) as Hsh.
  { intros i x. unfold shard. destruct (wr_shards w' !! i); [by eauto|by intros []]. }
  exists w'. split_and!; [done| |done| | |].
  - split; [done|done|by rewrite He|done| | | |done|by rewrite Hq'].
    + intros i x Hx. apply (Hf i); [|done]. by eapply Hk', Hsh.
    + by rewrite (rf_prom _ _ Hrf).
    + by rewrite (rf_prom _ _ Hrf).
  - intros i e (x & idx & Hx & Hin). exists x, idx. rewrite (refreshed_content w w' i x idx Hok Hrf Hx). split; [|done].
    destruct (wk_shard _ _ Hok i x idx Hx) as (_ & _ & cfg & r & Hc' & _). rewrite Hg in Hc'.
    apply (Hf i); [by eauto|done|]. apply Hl. by eauto.
  - intros i x Hi. by apply (Hf i Hi).
  - intros i m Hi. destruct (Hk' i) as [cfg Hc']; [by eauto|]. destruct (Hf i) as (Hiff & _ & Hnone); [by eauto|].
    destruct (decide (m = ∅)) as [->|(x & idx & Hx)%map_choose]; [|by exists x; eauto].
    rewrite Hnone in Hi; [done|]. intros x [idx Hx]%Hiff. by rewrite (shard_of _ _ _ _ Hi) in Hx.
Qed.
(** *** Requests *)

(** A request that adds a vector of the dimension its index is configured
    with. *)
Record fitting (rq : WriteRequest) : Prop := {
  ft_add : wq_attributes rq !! "delete" = None;
  ft_vector i cfg r : wq_attributes rq !! "index-id" = Some i → cfgs !! i = Some cfg →
    parse_index cfg = Ok r → rq_dim r ≤ length (wq_vector_data rq) ∧ V (take (rq_dim r) (wq_vector_data rq));
}.

Lemma fitting_legal given n w rq :
  healthy given n w → fitting rq → wq_id rq ∉ given.*1 → legal_write V w rq.
Proof. intros Hw [Ha Hv] Hid. split; [done|by eapply given_lacks, Hid; apply Hw|]. by rewrite (hl_config _ _ _ Hw). Qed.

(** The index of a shard with a vector more. *)
Section added.
Context given (n : nat) w (i x : string) (idx : index_state) (s : st T) (new : list (string * list f32)).
Context (Hw : healthy given n w) (Hx : shard i x w = Some idx).
Context (Hg : grows V i x (st_idx s) (task_of i x <$> st_log s) new w (called i x s w)).
Context (Hcont : content s ≡ₚ content (St (wr_proc w) idx []) ++ new).

Lemma called_healthy : healthy (given ++ new) n (called i x s w).
Proof.
  pose proof Hw as [Hok Hc HD Hk Hl Hm Ht Hgi Hq].
  assert (is_Some (wr_shards w !! i)) as Hi by (unfold shard in Hx; destruct (wr_shards w !! i); [by eauto|done]).
  split; try done.
  - exact (grows_ok V _ _ _ _ _ _ _ Hg Hok).
  - intros j. simpl. unfold put2. rewrite lookup_insert. destruct (decide (i = j)) as [<-|]; [intros _|]; by apply Hk.
  - intros j y [idx' [(-> & -> & _)|[_ Hy]]%(grows_case V _ _ _ _ _ _ _ Hg)]; apply Hl; by eauto.
  - exact (grows_given V _ _ _ _ _ _ _ Hg given Hgi).
  - intros t. simpl. intros [?|(e & -> & _)%list_elem_of_fmap]%elem_of_app; [by apply Hq|]. apply Hl. by eauto.
Qed.

Lemma called_holds j e : holds w j e ∨ j = i ∧ e ∈ new → holds (called i x s w) j e.
Proof.
  assert (e ∈ content (St (wr_proc w) idx []) ++ new → holds (called i x s w) i e) as Hnew.
  { rewrite <-Hcont. intros He. exists x, (st_idx s). split; [|done].
    rewrite (gr_shard _ _ _ _ _ _ _ _ Hg). by rewrite decide_True. }
  intros [(y & idx' & Hy & He)|[-> He]]; [|by apply Hnew, elem_of_app; right].
  destruct (decide (j = i ∧ y = x)) as [[-> ->]|Hne].
  - rewrite Hx in Hy. injection Hy as <-. by apply Hnew, elem_of_app; left.
  - exists y, idx'. rewrite (gr_shard _ _ _ _ _ _ _ _ Hg), decide_False by done. split; [done|].
    destruct (wk_shard _ _ (hl_ok _ _ _ Hw) j y idx' Hy) as [Hinv _].
    destruct (idx_inv_frame V 0 (wr_proc w) (wr_proc (called i x s w)) idx' [] []) as [_ ->]; [done| | | |done].
    + apply (gr_alloc _ _ _ _ _ _ _ _ Hg).
    + apply (gr_evolves _ _ _ _ _ _ _ _ Hg).
    + intros l Hl. by apply (gr_others _ _ _ _ _ _ _ _ Hg j y idx').
Qed.
End added.

(** The count the gauge of a shard stands at. *)
Lemma tallied given n w l :
  healthy given n w → (Z.of_nat n < 2 ^ 53)%Z → ∃ c, counted w l c ∧ (0 ≤ c ≤ Z.of_nat n)%Z.
Proof.
  intros Hw Hn. unfold counted. destruct (reading (wr_prom w) "vectors_count" l) as [v|] eqn:Hv.
  - destruct (hl_tally _ _ _ Hw l v Hv) as (c & -> & Hc). exists c. split; [|done]. apply f64_of_Z_to_u64. lia.
  - exists 0%Z. split; [done|lia].
Qed.

Lemma healthy_received given n w : healthy given n w → healthy given n (received_request w).
Proof.
  intros Hw. destruct (IncrementCounter_metrics "requests_count" (f64_of_Z 1) ∅ (wr_prom w)) as [Hm Hr];
    [by apply f64_of_Z_pos|apply Hw|].
  apply (healthy_prom given n); [done..|]. intros l v. rewrite Hr. apply Hw.
Qed.

(** What comes after the shard is chosen. *)
Lemma accept_returns given n w rq i x idx c :
  healthy given n w → writing V cfgs (wq_id rq) given (λ _ _ _, True) w → fitting rq →
  wq_attributes rq !! "index-id" = Some i → shard i x w = Some idx →
  (0 ≤ c ≤ Z.of_nat n)%Z → (Z.of_nat n < 2 ^ 53)%Z →
  ∃ w', runs (on_index i x (add 1 [wq_id rq] (wq_vector_data rq));;
      on_wr_prom (SetGauge "vectors_count" (f64_of_Z (u64_add c 1)) (shard_labels i x));; mret StatusOK)
      (wr_set_prom (GetGaugeValue "vectors_count" (shard_labels i x) (wr_prom w)).1 w) StatusOK w' ∧
    healthy (given ++ requested cfgs rq) (S n) w' ∧
    ∀ j e, holds w j e ∨ j = i ∧ e ∈ requested cfgs rq → holds w' j e.
Proof.
  intros Hw Hwr [Ha Hv] Hi Hx Hc Hn. set (l := shard_labels i x).
  destruct (GetGaugeValue_metrics "vectors_count" l (wr_prom w)) as [Hm Hrd]; [apply Hw|].
  set (w1 := wr_set_prom (GetGaugeValue "vectors_count" l (wr_prom w)).1 w).
  assert (healthy given n w1) as Hw1.
  { apply (healthy_prom given n); [done..|]. intros l' v. rewrite Hrd. apply Hw. }
  pose proof (hl_config _ _ _ Hw1) as Hcfg.
  destruct (on_index_grows V w1 rq given (λ _ _ _, True)) with (w1 := w1) (i := i) (x := x) (idx := idx)
    as (s & Hr & Hg & Hcont); rewrite ?Hcfg in *; [|by apply (writing_shrinks V _ _ _ _ w)|done|done|].
  { split; [done|apply (wt_lacks _ _ _ _ _ _ Hwr)|by rewrite Hcfg]. }
  destruct (SetGauge_metrics "vectors_count" (f64_of_Z (u64_add c 1)) l (wr_prom w1) Hm) as (Hm2 & _).
  eexists. split_and!.
  - eapply runs_bind; [exact Hr|]. eapply runs_bind; [apply runs_modify|]. apply runs_ret.
  - eapply healthy_prom; [by eapply called_healthy|exact Hm2|]. apply tallies_set; [done| |done..]. apply Hw1.
  - intros j e He. exact (called_holds given n w1 i x idx s _ Hw1 Hx Hg Hcont j e He).
Qed.

(** A request returns; one for an index that etcd lists a shard of is
    accepted. *)
Lemma request_returns given n w rq :
  healthy given n w → fitting rq → wq_id rq ∉ given.*1 → (Z.of_nat n < 2 ^ 53)%Z →
  ∃ r w', runs (ProcessWriteRequest rq) w r w' ∧ healthy (given ++ requested cfgs rq) (S n) w' ∧
    (∀ i e, holds w i e → holds w' i e) ∧
    ∀ i x, wq_attributes rq !! "index-id" = Some i → is_Some (cfgs !! i) → listed D i x →
      r = StatusOK ∧ ∀ e, e ∈ requested cfgs rq → holds w' i e.
Proof.
  intros Hw Hft Hid Hn.
  destruct (refresh_returns given n (received_request w) (wq_id rq)) as (w1 & Hr1 & Hw1 & Hwr & Hh1 & Hsh1 & Hne1);
    [by apply healthy_received|by eapply given_lacks, Hid; apply Hw|].
  assert (healthy (given ++ requested cfgs rq) (S n) w1) as Hw1'.
  { destruct Hw1 as [? ? ? ? ? ? Ht Hg ?]. split; try done; [by eapply tallies_mono, Ht; lia|].
    intros l sg e Hsg He. apply elem_of_app. left. by eapply Hg. }
  destruct (reject_runs rq w w1 Hr1) as [Hmiss Hwrong].
  destruct (wq_attributes rq !! "index-id") as [i|] eqn:Hi; [|by eexists _, w1; split_and!; [by apply Hmiss|..]].
  destruct (wr_shards w1 !! i) as [m|] eqn:Hm.
  2:{ eexists _, w1. split_and!; [by eapply Hwrong|done|done|]. intros i' x [= <-] Hc Hl.
      destruct (Hsh1 i x Hc Hl) as [idx Hx]. unfold shard in Hx. by rewrite Hm in Hx. }
  destruct (chooseShard_runs i w1 m Hm) as (x & t & Hch & [idx Hx] & _).
  { intros ->. destruct (Hne1 i ∅ Hm) as (x & idx & Hx). done. }
  { intros x [idx Hx]. apply listed_published; [apply Hw1|]. apply (hl_listed _ _ _ Hw1).
    exists idx. by rewrite (shard_of _ _ _ _ Hm). }
  destruct (tallied given n w1 (shard_labels i x) Hw1 Hn) as (c & Hc & Hcn).
  rewrite <-(shard_of _ _ _ _ Hm) in Hx.
  destruct (accept_returns given n w1 rq i x idx c Hw1 Hwr Hft Hi Hx Hcn Hn) as (w' & Hr & Hw' & Hh).
  exists StatusOK, w'. split_and!; [|done| |].
  - unfold runs. rewrite (write_runs rq w w1 w1 i x c Hr1 Hi ltac:(eauto) Hch Hc), (ft_add _ Hft). exact Hr.
  - intros j e Hj. apply Hh. left. by apply Hh1.
  - intros j y [= <-] _ _. split; [done|]. intros e He. apply Hh. by right.
Qed.

(** *** Tasks *)

Definition tallying (n : nat) w : Prop := metrics_wf (wr_prom w) ∧ tallies "vectors_count" n (wr_prom w).

Lemma keeps_tallying n t : keeps (tallying n) (run_task t).
Proof.
  assert (∀ i l, keeps (tallying n) (upload i l)) as Hu.
  { intros i l. unfold upload, on_wr_storage. keep.
    intros w sg w' Hw. unfold wr_deref, runs. destruct (heap (wr_proc w) !! l); [|done]. by intros [= <-]. }
  assert (∀ ls, keeps (tallying n) (upload_all (tk_index t) ls)) as Hall by (induction ls; simpl; keep).
  unfold run_task, on_wr_prom, on_wr_storage, on_wr_etcd. keep.
  - apply keeps_modify. intros w [Hm Ht].
    destruct (IncrementCounter_metrics "callback_calls_count" (f64_of_Z 1)
      (shard_labels (tk_index t) (tk_shard t)) (wr_prom w)) as [Hm' Hr]; [by apply f64_of_Z_pos|done|].
    split; [done|]. intros l v. simpl. rewrite Hr. apply Ht.
  - intros w [] w' Hw. unfold updateIndex, runs. destruct (rpc_update _ _ _). by intros [= <- _].
Qed.

Lemma healthy_hosts given n w : healthy given n w → reachable_hosts D w.
Proof.
  intros Hw t Ht%(hl_tasks _ _ _ Hw). destruct (listed_plain _ _ _ (hl_etcd _ _ _ Hw) Ht) as [Hi Hx].
  split_and!; [done..|]. intros m h rq. apply (su_hosts Hsu).
Qed.

(** The next task returns, if there is one. *)
Lemma task_goes given n w :
  healthy given n w → rand_distinct (wr_proc w) →
  ∃ w', runs next_task w () w' ∧ healthy given n w' ∧ wr_proc w' = wr_proc w ∧ wr_shards w' = wr_shards w.
Proof.
  intros Hw Hd. destruct (callback_runner w) as [|t q] eqn:Hq.
  { exists w. split_and!; [|done..]. unfold runs, next_task, mbind, M_bind, gets. by rewrite Hq. }
  destruct (task_returns V w t q D) as (w' & Hr & Hok & [Hq' Hp Hs Hg He]);
    [apply Hw|done|apply Hw|by eapply healthy_hosts|done|].
  assert (tallying n w') as [Hm Ht].
  { eapply (keeps_tallying n t); [|exact Hr]. split; apply Hw. }
  exists w'. split_and!; [| |done..].
  - unfold runs, next_task, mbind, M_bind, gets. rewrite Hq. unfold modify, noexcept. by rewrite (Hr : _ = _).
  - pose proof Hw as [_ Hc HD Hk Hl _ _ Hgi Hn]. split; rewrite ?Hs, ?Hg, ?He; try done.
    + intros i x. unfold shard. rewrite Hs. apply Hl.
    + unfold all_given. by rewrite Hp.
    + intros t'. rewrite Hq'. intros Ht'. apply Hn. rewrite Hq. by right.
Qed.

(** *** Serving *)

(** The requests among the turns. *)
Definition writes (ts : list writer_turn) : list WriteRequest :=
  omap (λ t, match t with WriteCall rq => Some rq | NextTask => None end) ts.

Lemma serve_cons t ts w w1 :
  runs (match t with WriteCall rq => handled (ProcessWriteRequest rq) | NextTask => next_task end) w () w1 →
  writer_serve (t :: ts) w = writer_serve ts w1.
Proof. intros Hr. unfold writer_serve. cbn [forM]. unfold mbind at 1, M_bind at 1. by rewrite (Hr : _ = _). Qed.

Lemma requested_case rq :
  requested cfgs rq = [] ∨
  ∃ i v, wq_attributes rq !! "index-id" = Some i ∧ is_Some (cfgs !! i) ∧ requested cfgs rq = [(wq_id rq, v)].
Proof.
  unfold requested. destruct (wq_attributes rq !! "index-id") as [i|]; simpl; [|by left].
  destruct (cfgs !! i) as [cfg|] eqn:Hc; [|by left]. destruct (parse_index cfg) as [r|e|u]; [right|by left..].
  eexists i, _. split_and!; [done|by eauto|done].
Qed.

(** Later ids are still new. *)
Lemma later_ids given rq (ids : list string) :
  NoDup (given.*1 ++ wq_id rq :: ids) → NoDup ((given ++ requested cfgs rq).*1 ++ ids).
Proof.
  rewrite <-Permutation_middle. intros Hnd. rewrite fmap_app.
  destruct (requested_case rq) as [->|(i & v & _ & _ & ->)]; simpl.
  - rewrite app_nil_r. by apply NoDup_cons in Hnd as [_ ?].
  - rewrite <-app_assoc. simpl. by rewrite <-Permutation_middle.
Qed.

Lemma serve_returns ts given n w :
  healthy given n w → Forall fitting (writes ts) → NoDup (given.*1 ++ (wq_id <$> writes ts)) →
  (Z.of_nat (n + length (writes ts)) ≤ 2 ^ 53)%Z → rand_distinct (wr_proc (writer_serve ts w).1) →
  ∃ given' n' w', runs (writer_serve ts) w () w' ∧ healthy given' n' w' ∧
    (∀ i e, holds w i e → holds w' i e) ∧
    ∀ rq i x e, rq ∈ writes ts → wq_attributes rq !! "index-id" = Some i → listed D i x →
      e ∈ requested cfgs rq → holds w' i e.
Proof.
  revert given n w. induction ts as [|[rq|] ts IH]; intros given n w Hw Hft Hnd Hn Hd.
  - exists given, n, w. split_and!; [done..|]. by intros rq i x e ?%elem_of_nil.
  - change (writes (WriteCall rq :: ts)) with (rq :: writes ts) in *. simpl in Hn.
    apply Forall_cons in Hft as [Hrq Hft]. rewrite fmap_cons in Hnd.
    assert (wq_id rq ∉ given.*1) as Hid by (apply NoDup_app in Hnd as (_ & Hdis & _); intros ?%Hdis; set_solver).
    destruct (request_returns given n w rq Hw Hrq Hid ltac:(lia)) as (r & w1 & Hr & Hw1 & Hh1 & Hacc).
    assert (writer_serve (WriteCall rq :: ts) w = writer_serve ts w1) as Heq.
    { apply serve_cons. unfold runs, handled, try_catch, mbind, M_bind. by rewrite (Hr : _ = _). }
    rewrite Heq in Hd. destruct (IH (given ++ requested cfgs rq) (S n) w1 Hw1 Hft) as (given' & n' & w' & Hr' & Hw' & Hh' & Hacc');
      [by apply later_ids|lia|done|].
    exists given', n', w'. split_and!; [unfold runs; by rewrite Heq|done|by auto|].
    intros rq' i x e [->|Hin]%elem_of_cons Hi Hl He; [|by eapply Hacc']. apply Hh'. eapply Hacc; [done| |done..].
    destruct (requested_case rq) as [Hno|(j & v & Hj & ? & _)]; [rewrite Hno in He; by apply elem_of_nil in He|by simplify_eq].
  - change (writes (NextTask :: ts)) with (writes ts) in *.
    destruct (task_goes given n w Hw) as (w1 & Hr1 & Hw1 & Hp1 & Hs1); [by eapply serve_draws|].
    rewrite (serve_cons NextTask ts w w1 Hr1) in Hd.
    destruct (IH given n w1 Hw1 Hft Hnd Hn Hd) as (given' & n' & w' & Hr' & Hw' & Hh' & Hacc').
    exists given', n', w'. split_and!; [unfold runs; by rewrite (serve_cons NextTask ts w w1 Hr1)|done| |done].
    intros i e (x & idx & Hx & He). apply Hh'. exists x, idx. unfold shard. by rewrite Hs1, Hp1.
Qed.

(** *** The end *)

(** The destructor runs what is left, and then everything the writer holds is
    in a segment that is being filled or in an object. *)
Lemma destroy_returns given n w :
  healthy given n w → rand_distinct (wr_proc w) →
  ∃ w', runs WriterImpl_destroy w () w' ∧ wr_etcd w' = wr_etcd w ∧
    ∀ i e, holds w i e →
      (∃ x idx, shard i x w = Some idx ∧ e ∈ entries_at (heap (wr_proc w)) (last_ idx)) ∨
      ∃ sg, stored_now w' i sg ∧ e ∈ seg_entries sg.
Proof.
  intros Hw Hd. destruct (drain V w D) as (w' & Hr & Hok & [Hq Hp Hs _ He]);
    [apply Hw|done|apply Hw|by eapply healthy_hosts|].
  exists w'. split_and!; [done..|]. intros i e (x & idx & Hx & Hin).
  rewrite <-Hp in Hd, Hin. destruct (all_stored V w' i x idx e) as [?|?]; [done..| |done| |by right].
  - unfold shard. by rewrite Hs.
  - left. exists x, idx. by rewrite <-Hp.
Qed.
End life.

(** ** From the constructor on *)

Section start.
Context `{SL : StdLib} {E : Etcd} {EL : EtcdLaws E} {EU : EtcdUp E} {DT : DoubleText} {P : PromLib} {PL : PromLaws P}
  {S3 : S3} {S3L : S3Laws S3} {S3U : S3Up S3} {J : Json} {JD : JsonDoc J} {U : GrpcUpdate} {G : Grpc}
  {T : Type} `{L : IBaseIndexLaws T}.
Context (V : list f32 → Prop) (D : directory) (listens : string → bool).
Implicit Types (w : writer E P S3 J U T).

(** An entry of the configuration and the index it is for. *)
Definition names (item : json) (p : string * json) : Prop := string_at item "id" = Ok p.1 ∧ p.2 = item.
(** What the writer keeps of them: the last one of an id. *)
Definition configs (ps : list (string * json)) : gmap string json := foldl (λ m p, <[p.1 := p.2]> m) ∅ ps.

Lemma add_configs items ps w :
  Forall2 names items ps →
  runs (forM items add_config) w ()
    (wr_set_config (foldl (λ m p, <[p.1 := p.2]> m) (indexes_create_agrs w) ps) w).
Proof.
  intros Hn. revert w. induction Hn as [|item p items ps [Hid Hit] _ IH]; intros w; simpl; [by destruct w|].
  set (w1 := wr_set_config (<[p.1:=p.2]> (indexes_create_agrs w)) w).
  eapply (runs_bind _ _ w () w1); [|exact (IH w1)].
  unfold runs, add_config, mbind, M_bind. rewrite Hid. unfold w1. by rewrite Hit.
Qed.

Lemma start_returns sc ps (mc : machine E P S3 U G) :
  Forall2 names (json_items (sc_indexes sc)) ps → surroundings (U:=U) D (configs ps) →
  map_Forall (λ _, config_good) (configs ps) → dir_rep (etcd_view (mc_etcd mc)) D →
  ∃ w, runs (WriterImpl (sc_indexes sc)) (writer_start mc) () w ∧ healthy V D (configs ps) [] 0 w.
Proof.
  intros Hn Hsu Hg HD.
  set (w1 := wr_set_config (configs ps)
    (wr_set_storage (Storage (mc_objects mc) true (mc_dir mc)) (writer_start mc)) : writer E P S3 J U T).
  assert (healthy V D (configs ps) [] 0 w1) as Hw1.
  { split; try done.
    - by apply starting_ok.
    - intros i. simpl. rewrite lookup_empty. by intros [].
    - intros i x. unfold shard. simpl. rewrite lookup_empty. by intros [].
    - intros t ?%elem_of_nil. done. }
  destruct (refresh_returns V D (configs ps) Hsu [] 0 w1 "") as (w & Hr & Hw & _); [done| |].
  { intros i x idx. unfold shard. simpl. by rewrite lookup_empty. }
  exists w. split; [|done]. unfold WriterImpl. eapply runs_bind; [reflexivity|].
  eapply runs_bind; [by apply add_configs|]. exact Hr.
Qed.

(** How a writer's life ends, and what is left of what it was given. *)
Lemma writer_life_runs sc ps (mc : machine E P S3 U G) ts :
  Forall2 names (json_items (sc_indexes sc)) ps → surroundings (U:=U) D (configs ps) →
  map_Forall (λ _, config_good) (configs ps) → dir_rep (etcd_view (mc_etcd mc)) D →
  ∃ w1 : writer E P S3 J U T, runs (WriterImpl (sc_indexes sc)) (writer_start mc) () w1 ∧
    (listens (InternalRun_address (sc_server sc)) = false →
      writer_life listens sc (writer_serve ts) (writer_start mc) = (w1, Undef NullDeref)) ∧
    (listens (InternalRun_address (sc_server sc)) = true →
      Forall (fitting V (configs ps)) (writes ts) → NoDup (wq_id <$> writes ts) →
      (Z.of_nat (length (writes ts)) ≤ 2 ^ 53)%Z → rand_distinct (wr_proc (writer_serve ts w1).1) →
      ∃ w2 w3, runs (writer_serve ts) w1 () w2 ∧
        writer_life listens sc (writer_serve ts) (writer_start mc) = (w3, Ok ()) ∧
        dir_rep (etcd_view (wr_etcd w3)) D ∧
        ∀ rq i x e, rq ∈ writes ts → wq_attributes rq !! "index-id" = Some i → listed D i x →
          e ∈ requested (configs ps) rq →
          (∃ y idx, shard i y w2 = Some idx ∧ e ∈ entries_at (heap (wr_proc w2)) (last_ idx)) ∨
          ∃ sg, stored_now w3 i sg ∧ e ∈ seg_entries sg).
Proof.
  intros Hn Hsu Hg HD. destruct (start_returns sc ps mc Hn Hsu Hg HD) as (w1 & Hr1 & Hw1).
  exists w1. split_and!; [done| |].
  - intros Hl. unfold writer_life, InternalRun. rewrite Hl. unfold mbind, M_bind. by rewrite (Hr1 : _ = _).
  - intros Hl Hft Hnd Hlen Hd.
    destruct (serve_returns V D (configs ps) Hsu ts [] 0 w1) as (given & n & w2 & Hr2 & Hw2 & _ & Hacc); [done..|].
    rewrite (Hr2 : _ = _) in Hd. simpl in Hd.
    destruct (destroy_returns V D (configs ps) Hsu given n w2 Hw2 Hd) as (w3 & Hr3 & He3 & Hleft).
    exists w2, w3. split_and!; [done| | |].
    + unfold writer_life, InternalRun. rewrite Hl. unfold mbind, M_bind. rewrite (Hr1 : _ = _), (Hr2 : _ = _).
      unfold noexcept. by rewrite (Hr3 : _ = _).
    + rewrite He3. apply Hw2.
    + intros rq i x e Hin Hi Hx He. apply Hleft. by eapply Hacc.
Qed.
End start.
