(* ===== verification/Cluster.v ===== *)
(** * A writer and its searchers (app)

    One writer, the searchers etcd lists for its shards, and the object store
    they share. A call of a searcher by the writer is the searcher's handler,
    run on the store as the writer left it: the updates a task sends are kept
    in a mailbox and handled before the next step. [cl_inv] is the invariant
    of such a cluster: what a searcher serves was given to the writer, and
    every segment the writer sealed waits for a task or is served by each
    searcher of its shard. *)

From S2P Require Import Prelude Cxx Floats BinaryIO StorageClient Faiss TopK IBaseIndex Segment.
From S2P Require Import IIndex Events Storage Index IndexSpec IndexFactory Merging Stats EtcdClient.
From S2P Require Import Prometheus Coordinator Searcher SearcherSpec Writer WriterSpec Publication.

(** The updates sent, each accepted. *)
Definition mailbox : GrpcUpdate := {|
  unet := list (string * UpdateRequest);
  rpc_update n h rq := (n ++ [(h, rq)], true);
|}.
#[export] Existing Instance mailbox.

Lemma send_all_mail (rq : UpdateRequest) (n : unet (GrpcUpdate:=mailbox)) hosts :
  send_all rq n hosts = n ++ ((λ h, (h, rq)) <$> hosts).
Proof.
  revert n. induction hosts as [|h hosts IH]; intros n; simpl; [by rewrite app_nil_r|].
  unfold send_all in *. simpl. rewrite IH. by rewrite <-app_assoc.
Qed.

(** ** What a task publishes reaches a searcher *)

Section replication.
Context `{SL : StdLib} {E : Etcd} {DT : DoubleText} {P : PromLib} {S3 : S3} {S3L : S3Laws S3}
  {S3U : S3Up S3} {J : Json} {U : GrpcUpdate} {T : Type} `{L : IBaseIndexLaws T}.
Context (V : list f32 → Prop) (sh : shape).
Implicit Types (w : writer E P S3 J U T) (s : searcher E P S3 T).

(** A segment a searcher can read back and hold. *)
Definition ships (sg : segment T) : Prop :=
  segment_ok sg ∧ seg_good V sh (received sg) ∧ (seg_size (received sg) ≤ 2 ^ 62)%Z.

Lemma replicated t sgs w w' s S junk :
  stores t sgs w w' → s3Client (se_storage s) = true →
  st_objects (se_storage s) = st_objects (wr_storage w') → Forall ships sgs →
  serves V sh (tk_index t) (tk_shard t) s S → allocated s → consistent (S :: (seg_entries <$> sgs)) →
  ∃ s', runs (ProcessUpdateRequest junk (UpdateReq (getID <$> sgs) (tk_ids t) (tk_index t) (tk_shard t)))
      s () s' ∧
    serves V sh (tk_index t) (tk_shard t) s' (foldl union S (seg_entries <$> sgs)) ∧
    allocated s' ∧ s3Client (se_storage s') = true.
Proof.
  intros Hst Hlog Hobj Hok Hs Ha Hc. rewrite <-Hlog.
  apply (update_runs V sh junk (UpdateReq (getID <$> sgs) (tk_ids t) (tk_index t) (tk_shard t)) s S sgs);
    [done|done| |done]. simpl.
  apply Forall2_fmap_l, Forall_Forall2_diag, Forall_forall. intros sg Hsg.
  rewrite Forall_forall in Hok. split; [|by apply Hok]. split; [done|].
  rewrite Hobj. apply up_get. by apply (de_added _ _ _ _ Hst).
Qed.
End replication.

(** ** The cluster *)

Record cluster `{E : Etcd} `{P : PromLib} `{S : S3} `{J : Json} (T : Type) := Cl {
  cl_writer : writer E P S J mailbox T;
  cl_searchers : gmap string (searcher E P S T);
  (** the vectors of the requests made so far *)
  cl_given : list (string * list f32);
}.
Arguments cluster _ _ _ _ _ : clear implicits.
Arguments Cl {_ _ _ _ _} _ _ _.
Arguments cl_writer {_ _ _ _ _} _.
Arguments cl_searchers {_ _ _ _ _} _.
Arguments cl_given {_ _ _ _ _} _.

Section cluster.
Context `{SL : StdLib} {E : Etcd} {EL : EtcdLaws E} {EU : EtcdUp E} {DT : DoubleText} {P : PromLib}
  {S3 : S3} {S3L : S3Laws S3} {S3U : S3Up S3} {J : Json} {T : Type} `{L : IBaseIndexLaws T}.
Context (V : list f32 → Prop) (D : directory) (junk : Z).
Abbreviation searchers := (gmap string (searcher E P S3 T)).
Implicit Types (c : cluster E P S3 J T) (w : writer E P S3 J mailbox T) (s : searcher E P S3 T) (ss : searchers).

(** The searcher, with the object store the way the writer left it. *)
Definition share (o : @s3 S3) s : searcher E P S3 T := se_set_storage (with_objects (se_storage s) o) s.

(** The call arrives; nobody listens at an address that is no searcher's. *)
Definition receive (o : @s3 S3) (m : string * UpdateRequest) : M searchers () := λ ss,
  match ss !! m.1 with
  | None => (ss, Throw (RuntimeError "Error while processing request. gRPC status code: "))
  | Some s => let '(s', r) := ProcessUpdateRequest junk m.2 (share o s) in (<[m.1 := s']> ss, r)
  end.
Definition deliver (o : @s3 S3) (n : list (string * UpdateRequest)) : M searchers () :=
  forM n (receive o).

(** A task that can be carried out: etcd lists the searchers of [D], the ids
    drawn so far are distinct, and what is to be published can be written to
    a file and counted. *)
Record task_legal w (t : task) : Prop := {
  tl_etcd : dir_rep (etcd_view (wr_etcd w)) D;
  tl_names : slash_free (tk_index t) = true ∧ slash_free (tk_shard t) = true;
  tl_ids : rand_distinct (wr_proc w);
  tl_fits l sg : l ∈ tk_segs t → heap (wr_proc w) !! l = Some sg →
    ib_storable (seg_index sg) ∧ (seg_size sg ≤ 2 ^ 62)%Z;
}.

Inductive cl_step c : cluster E P S3 J T → Prop :=
  | cl_request rq r w' :
    legal_write V (cl_writer c) rq → wq_id rq ∉ (cl_given c).*1 →
    runs (ProcessWriteRequest rq) (cl_writer c) r w' →
    cl_step c (Cl w' (cl_searchers c)
      (cl_given c ++ requested (indexes_create_agrs (cl_writer c)) rq))
  | cl_task t q w' ss' :
    callback_runner (cl_writer c) = t :: q → task_legal (cl_writer c) t →
    runs (run_task t) (wr_set_net ([] : unet (GrpcUpdate:=mailbox)) (wr_set_tasks q (cl_writer c))) () w' →
    runs (deliver (st_objects (wr_storage w')) (wr_net w')) (cl_searchers c) () ss' →
    cl_step c (Cl w' ss' (cl_given c))
  | cl_search h s rq r s' :
    cl_searchers c !! h = Some s → runs (ProcessSearchRequest rq) s r s' →
    cl_step c (Cl (cl_writer c) (<[h := s']> (cl_searchers c)) (cl_given c)).

(** ** Deliveries *)

Lemma deliver_runs o rq hosts ss ss' :
  NoDup hosts → runs (deliver o ((λ h, (h, rq)) <$> hosts)) ss () ss' →
  ∀ h, if decide (h ∈ hosts)
    then ∃ s s', ss !! h = Some s ∧ ss' !! h = Some s' ∧ runs (ProcessUpdateRequest junk rq) (share o s) () s'
    else ss' !! h = ss !! h.
Proof.
  intros Hnd. revert ss. induction Hnd as [|h0 hosts Hh0 Hnd IH]; intros ss Hr h.
  { destruct (runs_det _ _ _ _ _ _ Hr (runs_ret () ss)) as [_ ->]. by rewrite decide_False by apply not_elem_of_nil. }
  unfold deliver in Hr. simpl in Hr. apply runs_bind_inv in Hr as ([] & ss1 & H1 & H2).
  unfold receive, runs in H1. simpl in H1. destruct (ss !! h0) as [s0|] eqn:Hs0; [|done].
  destruct (ProcessUpdateRequest junk rq (share o s0)) as [s1 r] eqn:Hs1. injection H1 as <- ->.
  specialize (IH _ H2 h). destruct (decide (h = h0)) as [->|Hne].
  - rewrite decide_False in IH by done. rewrite decide_True by (by left).
    rewrite lookup_insert_eq in IH. by exists s0, s1.
  - rewrite lookup_insert_ne in IH by done.
    destruct (decide (h ∈ hosts)); [rewrite decide_True by (by right)|rewrite decide_False by set_solver]; done.
Qed.

Lemma deliver_returns o rq hosts ss :
  NoDup hosts →
  (∀ h, h ∈ hosts → ∃ s s', ss !! h = Some s ∧ runs (ProcessUpdateRequest junk rq) (share o s) () s') →
  ∃ ss', runs (deliver o ((λ h, (h, rq)) <$> hosts)) ss () ss'.
Proof.
  intros Hnd. revert ss. induction Hnd as [|h hosts Hh Hnd IH]; intros ss Hall; [exists ss; apply runs_ret|].
  destruct (Hall h) as (s & s' & Hs & Hr); [by left|].
  destruct (IH (<[h := s']> ss)) as [ss' Hr'].
  { intros h' Hh'. rewrite lookup_insert_ne by (by intros ->). apply Hall. by right. }
  exists ss'. unfold deliver. simpl. eapply runs_bind; [|exact Hr'].
  unfold receive, runs. simpl. by rewrite Hs, (Hr : _ = _).
Qed.

(** ** The invariant *)

(** The searcher at [h] finds [e] when it searches the shard. *)
Definition found ss (h i x : string) (e : string * list f32) : Prop :=
  ∃ s ix l, ss !! h = Some s ∧ shard_at i x s = Some ix ∧ l ∈ visited ix ∧
    e ∈ entries_at (heap (st_proc ix)) l.

(** Every searcher of the shard has the segment's vectors. *)
Definition spread ss (i x : string) (sg : segment T) : Prop :=
  ∀ h e, (i, x, h) ∈ dir_hosts D → e ∈ seg_entries sg → found ss h i x e.

(** The searcher at [h] serves, for the shard, vectors that were given. *)
Definition serving (given : list (string * list f32)) ss (h i x : string) (sh : shape) : Prop :=
  ∃ s S, ss !! h = Some s ∧ s3Client (se_storage s) = true ∧ undisturbed V sh i x S s ∧
    ∀ e, e ∈ S → e ∈ given.

Definition all_flat w : Prop :=
  map_Forall (λ _ cfg, ∀ r, parse_index cfg = Ok r → args_kind (rq_args r) = IndexFlat)
    (indexes_create_agrs w).

Record cl_inv c : Prop := {
  ci_ok : wr_ok V (cl_writer c);
  ci_flat : all_flat (cl_writer c);
  ci_ids : NoDup (cl_given c).*1;
  ci_given : all_given (cl_given c) (cl_writer c);
  ci_serving i x h : (i, x, h) ∈ dir_hosts D →
    ∃ sh, conf_shape (cl_writer c) i sh ∧ serving (cl_given c) (cl_searchers c) h i x sh;
  ci_sealed : rand_distinct (wr_proc (cl_writer c)) →
    sealed_done (spread (cl_searchers c)) (cl_writer c);
  (** replicas of a shard have the same vectors *)
  ci_same i x h h' e : (i, x, h) ∈ dir_hosts D → (i, x, h') ∈ dir_hosts D →
    found (cl_searchers c) h i x e → found (cl_searchers c) h' i x e;
}.

Lemma found_serves ss h i x s S sh e :
  ss !! h = Some s → serves V sh i x s S → found ss h i x e ↔ e ∈ S.
Proof.
  intros Hs (ix & Hix & Hv). rewrite (vi_entries _ _ _ _ Hv). split.
  - intros (s' & ix' & l & Hs' & Hix' & Hl & He). simplify_eq.
    eexists. split; [by apply list_elem_of_fmap_2|exact He].
  - intros (es & (l & -> & Hl)%list_elem_of_fmap & He). by exists s, ix, l.
Qed.

(** Vectors given under ids of their own agree. *)
Lemma given_consistent (given : list (string * list f32)) Ss :
  NoDup given.*1 → (∀ S e, S ∈ Ss → e ∈ S → e ∈ given) → consistent Ss.
Proof. intros Hnd Hin S S' HS HS' e e' He He' Heq. apply (NoDup_fst_inj given); eauto. Qed.

Lemma conf_shape_fun w i sh sh' : conf_shape (T:=T) w i sh → conf_shape (T:=T) w i sh' → sh = sh'.
Proof.
  intros (cfg & r & Hc & Hr & ->) (cfg' & r' & Hc' & Hr' & ->). simplify_eq.
  rewrite Hr in Hr'. by simplify_eq.
Qed.

(** *** Requests *)

Lemma request_inv c rq r w' :
  cl_inv c → legal_write V (cl_writer c) rq → wq_id rq ∉ (cl_given c).*1 →
  runs (ProcessWriteRequest rq) (cl_writer c) r w' →
  cl_inv (Cl w' (cl_searchers c) (cl_given c ++ requested (indexes_create_agrs (cl_writer c)) rq)).
Proof.
  intros [Hok Hflat Hids Hgiven Hsv Hsealed Hsame] Hrq Hnew Hr.
  destruct (request_written V (cl_writer c) rq (cl_given c) (spread (cl_searchers c)) Hok Hrq Hgiven Hsealed
    r w' Hr) as [Wok Wg Ws Wc].
  assert (∀ i sh, conf_shape (T:=T) (cl_writer c) i sh → conf_shape (T:=T) w' i sh) as Hconf
    by (unfold conf_shape; by rewrite Wc).
  split; simpl; [done| | |done| |done|done].
  - unfold all_flat. by rewrite Wc.
  - rewrite fmap_app. apply NoDup_app. split_and!; [done| |].
    + intros y Hy (e & -> & He)%list_elem_of_fmap. apply Hnew. unfold requested in He.
      repeat case_match; (apply elem_of_nil in He || apply list_elem_of_singleton in He as ->); done.
    + unfold requested. repeat case_match; (apply NoDup_nil_2 || apply NoDup_singleton).
  - intros i x h Hh. destruct (Hsv i x h Hh) as (sh & Hsh & s & S & Hs & Hcl & Hu & HS).
    exists sh. split; [by apply Hconf|]. exists s, S. split_and!; [done..|]. intros e He. apply elem_of_app. left. by apply HS.
Qed.

(** *** Searches *)

Lemma steady_undisturbed s s' sh i x S :
  steady s s' → undisturbed V sh i x S s → undisturbed V sh i x S s'.
Proof.
  intros (Hp & _ & Hsh) [(ix & Hix & Hv) Ha]. split; [|unfold allocated; by rewrite Hp].
  exists ix. by rewrite Hsh.
Qed.

Lemma steady_found ss s s' h h' i x e :
  steady s s' → ss !! h = Some s → found (<[h := s']> ss) h' i x e ↔ found ss h' i x e.
Proof.
  intros (_ & _ & Hsh) Hs. unfold found. destruct (decide (h' = h)) as [->|Hne]; [|by rewrite lookup_insert_ne].
  rewrite lookup_insert_eq, Hs. split; intros (s0 & ix & l & [= <-] & Hix & Hl).
  - rewrite Hsh in Hix. by exists s, ix, l.
  - rewrite <-Hsh in Hix. by exists s', ix, l.
Qed.

Lemma search_inv c h s rq r s' :
  cl_inv c → cl_searchers c !! h = Some s → runs (ProcessSearchRequest rq) s r s' →
  cl_inv (Cl (cl_writer c) (<[h := s']> (cl_searchers c)) (cl_given c)).
Proof.
  intros [Hok Hflat Hids Hgiven Hsv Hsealed Hsame] Hs Hr.
  assert (steady s s') as Hst by (eapply (keeps_searches s rq); [|exact Hr]; by split_and!).
  split; simpl; [done..| | |].
  - intros i x h' Hh. destruct (Hsv i x h' Hh) as (sh & Hsh & s0 & S & Hs0 & Hcl & Hu & HS). exists sh. split; [done|].
    destruct (decide (h' = h)) as [->|Hne]; [|exists s0, S; by rewrite lookup_insert_ne].
    simplify_eq. exists s', S. rewrite lookup_insert_eq. split_and!; [done| |by eapply steady_undisturbed|done].
    destruct Hst as (_ & -> & _). done.
  - intros Hd i x idx l sg Hx Hl Hsg. destruct (Hsealed Hd i x idx l sg Hx Hl Hsg) as [?|Hdone]; [by left|right].
    intros h' e Hh He. apply (steady_found _ _ _ _ _ _ _ _ Hst Hs). by apply Hdone.
  - intros i x h1 h2 e H1 H2. rewrite !(steady_found _ _ _ _ _ _ _ _ Hst Hs). by apply Hsame.
Qed.

(** *** Tasks *)

Section task.
Context c (t : task) (q : list task) (Hinv : cl_inv c).
Context (Hq : callback_runner (cl_writer c) = t :: q) (Hlegal : task_legal (cl_writer c) t).
Abbreviation w := (cl_writer c).
Abbreviation w0 := (wr_set_net ([] : unet (GrpcUpdate:=mailbox)) (wr_set_tasks q w)).

Lemma task_published : published_ok V w.
Proof. apply (wk_published _ _ (ci_ok _ Hinv)), (tl_ids _ _ Hlegal). Qed.

(** What the task publishes. *)
Definition publishes (sgs : list (segment T)) : Prop := held w (tk_segs t) sgs.

Lemma publishes_elem sgs sg :
  publishes sgs → sg ∈ sgs → ∃ l, l ∈ tk_segs t ∧ heap (wr_proc w) !! l = Some sg.
Proof.
  intros Hh (n & Hn)%list_elem_of_lookup_1. destruct (Forall2_lookup_r _ _ _ _ _ Hh Hn) as (l & Hl & ?).
  exists l. split; [by eapply list_elem_of_lookup_2|done].
Qed.

Lemma task_runs :
  ∃ sgs w' hosts, publishes sgs ∧ runs (run_task t) w0 () w' ∧ stores t sgs w0 w' ∧
    wr_net w' = (λ h, (h, UpdateReq (getID <$> sgs) (tk_ids t) (tk_index t) (tk_shard t))) <$> hosts ∧
    wr_etcd w' = wr_etcd w ∧ NoDup hosts ∧
    ∀ h, h ∈ hosts ↔ (tk_index t, tk_shard t, h) ∈ dir_hosts D.
Proof.
  destruct (task_held V w t task_published) as (sgs & Hh & Hnd & Hpos & Hdis); [rewrite Hq; by left|].
  destruct (run_task_runs t sgs w0 D) as (w' & hosts & Hr & [Hst He Hn] & Hndh & Hhosts);
    [apply (tl_names _ _ Hlegal)|apply (tl_names _ _ Hlegal)|apply (tl_etcd _ _ Hlegal)
    |apply (wk_client _ _ (ci_ok _ Hinv))|done..|].
  exists sgs, w', hosts. split_and!; [done|done|done| |done..]. by rewrite Hn, send_all_mail.
Qed.

Lemma publishes_ships sgs sh :
  publishes sgs → conf_shape (T:=T) w (tk_index t) sh → Forall (ships V sh) sgs.
Proof.
  intros Hh Hsh. apply Forall_forall. intros sg Hin.
  destruct (publishes_elem sgs sg Hh Hin) as (l & Hl & Hsg).
  assert (t ∈ callback_runner w) as Ht by (rewrite Hq; by left).
  pose proof (pk_good _ _ task_published t l sg sh Ht Hl Hsg Hsh) as Hgood.
  destruct (tl_fits _ _ Hlegal l sg Hl Hsg) as [Hst Hsz].
  assert (sh_kind sh = IndexFlat) as Hk.
  { destruct Hsh as (cfg & r & Hc & Hr & ->). destruct (ib_make_spec (T:=T) (rq_args r)) as (_ & _ & _ & _ & _ & _ & -> & _).
    by apply (ci_flat _ Hinv _ cfg Hc). }
  pose proof Hgood as (Hwf & _ & Hshape & Hty & _).
  assert (received sg = sg) as Hrec.
  { unfold received, seg_shape in *. rewrite Hshape, Hk. simpl. rewrite <-Hk, <-Hshape, ib_retype_id. by destruct sg. }
  unfold ships. rewrite Hrec. split_and!; [|done..]. split; [| |done|done].
  - unfold seg_shape in Hshape. by rewrite ib_type_kind, Hshape.
  - destruct (proj1 (pk_ids _ _ task_published) l sg Hsg) as (n & _ & ->).
    pose proof (std_rand_range n). unfold u64_modulus. lia.
Qed.

Lemma publishes_given sgs e : publishes sgs → (∃ S, S ∈ seg_entries <$> sgs ∧ e ∈ S) → e ∈ cl_given c.
Proof.
  intros Hh (S & (sg & -> & Hin)%list_elem_of_fmap & He).
  destruct (publishes_elem sgs sg Hh Hin) as (l & _ & Hsg). by eapply (ci_given _ Hinv).
Qed.

(** One searcher of the shard handles the update. *)
Lemma task_update sgs w' h :
  publishes sgs → stores t sgs w0 w' → (tk_index t, tk_shard t, h) ∈ dir_hosts D →
  ∃ s s' sh S', cl_searchers c !! h = Some s ∧ conf_shape (T:=T) w (tk_index t) sh ∧
    runs (ProcessUpdateRequest junk (UpdateReq (getID <$> sgs) (tk_ids t) (tk_index t) (tk_shard t)))
      (share (st_objects (wr_storage w')) s) () s' ∧
    s3Client (se_storage s') = true ∧ undisturbed V sh (tk_index t) (tk_shard t) S' s' ∧
    (∀ e, e ∈ S' → e ∈ cl_given c) ∧
    (∀ e, e ∈ S' ↔ found (cl_searchers c) h (tk_index t) (tk_shard t) e ∨ ∃ sg, sg ∈ sgs ∧ e ∈ seg_entries sg).
Proof.
  intros Hh Hst Hd. destruct (ci_serving _ Hinv _ _ _ Hd) as (sh & Hsh & s & S & Hs & Hcl & [Hsv Ha] & HS).
  destruct (replicated V sh t sgs w0 w' (share (st_objects (wr_storage w')) s) S junk)
    as (s' & Hr & Hsv' & Ha' & Hcl'); [done..|by apply publishes_ships|done|done| |].
  { apply (given_consistent (cl_given c)); [apply (ci_ids _ Hinv)|]. intros S0 e [->|HS0]%elem_of_cons He; [by apply HS|].
    apply (publishes_given sgs); [done|]. by exists S0. }
  exists s, s', sh, (foldl union S (seg_entries <$> sgs)).
  split_and!; [done..|split; done| |]; setoid_rewrite elem_of_union_all.
  - intros e [?|?]; [by apply HS|by apply (publishes_given sgs)].
  - intros e. rewrite (found_serves _ _ _ _ _ _ _ _ Hs Hsv). setoid_rewrite list_elem_of_fmap. naive_solver.
Qed.

Section delivered.
Context (sgs : list (segment T)) (w' : writer E P S3 J mailbox T) (hosts : list string) (ss' : searchers).
Context (Hpub : publishes sgs) (Hst : stores t sgs w0 w').
Abbreviation rq := (UpdateReq (getID <$> sgs) (tk_ids t) (tk_index t) (tk_shard t)).
Context (Hnd : NoDup hosts) (Hhosts : ∀ h, h ∈ hosts ↔ (tk_index t, tk_shard t, h) ∈ dir_hosts D).
Context (Hdel : runs (deliver (st_objects (wr_storage w')) ((λ h, (h, rq)) <$> hosts)) (cl_searchers c) () ss').

(** What a searcher serves for any of its shards, afterwards. *)
Lemma after_delivery i x h :
  (i, x, h) ∈ dir_hosts D →
  ∃ sh s' S', conf_shape (T:=T) w i sh ∧ ss' !! h = Some s' ∧ s3Client (se_storage s') = true ∧
    undisturbed V sh i x S' s' ∧ (∀ e, e ∈ S' → e ∈ cl_given c) ∧
    (∀ e, e ∈ S' ↔ found (cl_searchers c) h i x e ∨
      i = tk_index t ∧ x = tk_shard t ∧ ∃ sg, sg ∈ sgs ∧ e ∈ seg_entries sg).
Proof.
  intros Hd. destruct (ci_serving _ Hinv _ _ _ Hd) as (sh & Hsh & s & S & Hs & Hcl & Hu & HS).
  assert (∀ e, found (cl_searchers c) h i x e ↔ e ∈ S) as Hf by (intros e; by apply (found_serves _ _ _ _ _ _ _ _ Hs (proj1 Hu))).
  pose proof (deliver_runs _ _ _ _ _ Hnd Hdel h) as Hh. destruct (decide (h ∈ hosts)) as [Hin|Hout].
  - destruct Hh as (s0 & s' & Hs0 & Hs' & Hr). rewrite Hs in Hs0. injection Hs0 as <-.
    destruct (task_update sgs w' h Hpub Hst) as (s0 & s1 & sh1 & S1 & Hs0 & Hsh1 & Hr1 & Hcl1 & Hu1 & HS1 & Hf1);
      [by apply Hhosts|]. rewrite Hs in Hs0. injection Hs0 as <-.
    destruct (runs_det _ _ _ _ _ _ Hr Hr1) as [_ <-].
    destruct (decide (i = tk_index t ∧ x = tk_shard t)) as [[-> ->]|Hne].
    + exists sh1, s', S1. split_and!; [done..|]. intros e. rewrite Hf1. naive_solver.
    + exists sh, s', S. split_and!; [done..| |done|intros e; rewrite Hf; naive_solver].
      eapply (keeps_other_update V sh junk rq i x S Hne); [|exact Hr]. exact Hu.
  - rewrite Hs in Hh. exists sh, s, S. split_and!; [done..|]. intros e. rewrite Hf. split; [by left|].
    intros [?|(-> & -> & _)]; [done|]. by destruct Hout; apply Hhosts.
Qed.

(** What a search finds, afterwards. *)
Lemma found_delivered i x h e :
  (i, x, h) ∈ dir_hosts D →
  found ss' h i x e ↔ found (cl_searchers c) h i x e ∨
    i = tk_index t ∧ x = tk_shard t ∧ ∃ sg, sg ∈ sgs ∧ e ∈ seg_entries sg.
Proof.
  intros Hh. destruct (after_delivery i x h Hh) as (sh & s' & S' & _ & Hs' & _ & [Hsv _] & _ & Hiff).
  by rewrite (found_serves _ _ _ _ _ _ _ _ Hs' Hsv).
Qed.

Lemma task_delivered_inv :
  runs (run_task t) w0 () w' → cl_inv (Cl w' ss' (cl_given c)).
Proof.
  intros Hr. destruct (task_ok V (wr_set_net ([] : unet (GrpcUpdate:=mailbox)) w) t q w') as (Hok & _);
    [by apply (shrinks_ok V w); [split|apply (ci_ok _ Hinv)]|done|exact Hr|].
  pose proof Hst as [_ _ _ Hp Hs Ht Hg _]. simpl in Hp, Hs, Ht, Hg. split; simpl.
  - done.
  - unfold all_flat. rewrite Hg. apply (ci_flat _ Hinv).
  - apply (ci_ids _ Hinv).
  - unfold all_given. rewrite Hp. apply (ci_given _ Hinv).
  - intros i x h Hd. destruct (after_delivery i x h Hd) as (sh & s' & S' & Hsh & Hs' & Hcl & Hu & HS & _).
    exists sh. split; [unfold conf_shape; by rewrite Hg|]. by exists s', S'.
  - rewrite Hp. intros Hd i x idx l sg. unfold shard. rewrite Hs, Hp. intros Hx Hl Hsg.
    destruct (ci_sealed _ Hinv Hd i x idx l sg Hx Hl Hsg) as [(t' & Ht' & Hi & Hx' & Hl')|Hdone].
    + rewrite Hq in Ht'. apply elem_of_cons in Ht' as [->|Ht']; [right|left; exists t'; by rewrite Ht].
      intros h e Hh He. apply found_delivered; [done|]. right. split_and!; [done..|]. exists sg. split; [|done].
      apply list_elem_of_lookup_1 in Hl' as [n Hn]. destruct (Forall2_lookup_l _ _ _ _ _ Hpub Hn) as (sg' & Hn' & Hsg').
      simplify_eq. by eapply list_elem_of_lookup_2.
    + right. intros h e Hh He. apply found_delivered; [done|]. left. by apply Hdone.
  - intros i x h h' e Hh Hh'. rewrite !found_delivered by done. intros [Hf|?]; [left|by right].
    by apply (ci_same _ Hinv i x h).
Qed.
End delivered.

(** The task can be carried out. *)
Lemma task_steps :
  ∃ w' ss', cl_step c (Cl w' ss' (cl_given c)) ∧ cl_inv (Cl w' ss' (cl_given c)) ∧
    callback_runner w' = q ∧ wr_proc w' = wr_proc w ∧ wr_shards w' = wr_shards w ∧ wr_etcd w' = wr_etcd w.
Proof.
  destruct task_runs as (sgs & w' & hosts & Hpub & Hr & Hst & Hnet & He & Hnd & Hhosts).
  destruct (deliver_returns (st_objects (wr_storage w'))
    (UpdateReq (getID <$> sgs) (tk_ids t) (tk_index t) (tk_shard t)) hosts (cl_searchers c) Hnd) as [ss' Hdel].
  { intros h Hh%Hhosts. destruct (task_update sgs w' h Hpub Hst Hh) as (s & s' & _ & _ & Hs & _ & Hrun & _).
    by exists s, s'. }
  exists w', ss'. split_and!.
  - eapply cl_task; [exact Hq|exact Hlegal|exact Hr|by rewrite Hnet].
  - by eapply task_delivered_inv.
  - apply (de_tasks _ _ _ _ Hst).
  - apply (de_proc _ _ _ _ Hst).
  - apply (de_shards _ _ _ _ Hst).
  - exact He.
Qed.

Lemma task_inv w' ss' :
  runs (run_task t) w0 () w' →
  runs (deliver (st_objects (wr_storage w')) (wr_net w')) (cl_searchers c) () ss' →
  cl_inv (Cl w' ss' (cl_given c)).
Proof.
  intros Hr Hdel. destruct task_runs as (sgs & w1 & hosts & Hpub & Hr1 & Hst & Hnet & He & Hnd & Hhosts).
  destruct (runs_det _ _ _ _ _ _ Hr Hr1) as [_ <-]. rewrite Hnet in Hdel. by eapply task_delivered_inv.
Qed.
End task.

Lemma cl_step_inv c c' : cl_step c c' → cl_inv c → cl_inv c'.
Proof.
  intros [] Hinv; [by eapply request_inv|by eapply task_inv|by eapply search_inv].
Qed.

(** ** From the start to the end *)

(** A writer and searchers that have not served a request yet. *)
Record cl_starting c : Prop := {
  cs_writer : starting (cl_writer c);
  cs_flat : all_flat (cl_writer c);
  cs_given : cl_given c = [];
  cs_serving i x h : (i, x, h) ∈ dir_hosts D →
    ∃ sh, conf_shape (cl_writer c) i sh ∧ serving [] (cl_searchers c) h i x sh;
}.

Lemma cl_starting_inv c : cl_starting c → cl_inv c.
Proof.
  intros [Hw Hf Hg Hs]. pose proof Hw as [_ _ Hsh Hh _]. split; rewrite ?Hg; [by apply starting_ok|done| | |done| |].
  - apply NoDup_nil_2.
  - intros l sg e. by rewrite Hh, lookup_empty.
  - intros _ i x idx l sg. unfold shard. by rewrite Hsh.
  - intros i x h h' e Hin _ He. destruct (Hs i x h Hin) as (sh & _ & s & S & Hs0 & _ & [Hsv _] & HS).
    apply (found_serves _ _ _ _ _ _ _ _ Hs0 Hsv), HS in He. by apply elem_of_nil in He.
Qed.

Lemma cl_reachable_inv c c' : cl_starting c → rtc cl_step c c' → cl_inv c'.
Proof. intros Hs Hr. apply cl_starting_inv in Hs. induction Hr; eauto using cl_step_inv. Qed.

(** The tasks to come can be carried out. *)
Record cl_ready c : Prop := {
  cr_etcd : dir_rep (etcd_view (wr_etcd (cl_writer c))) D;
  cr_names t : t ∈ callback_runner (cl_writer c) →
    slash_free (tk_index t) = true ∧ slash_free (tk_shard t) = true;
  cr_ids : rand_distinct (wr_proc (cl_writer c));
  cr_fits : map_Forall (λ _ sg, ib_storable (seg_index sg) ∧ (seg_size sg ≤ 2 ^ 62)%Z)
    (heap (wr_proc (cl_writer c)));
}.

Lemma cl_drain c :
  cl_inv c → cl_ready c →
  ∃ c', rtc cl_step c c' ∧ cl_inv c' ∧ callback_runner (cl_writer c') = [] ∧ cl_given c' = cl_given c ∧
    wr_proc (cl_writer c') = wr_proc (cl_writer c) ∧ wr_shards (cl_writer c') = wr_shards (cl_writer c).
Proof.
  remember (callback_runner (cl_writer c)) as q eqn:Hq. revert c Hq.
  induction q as [|t q IH]; intros c Hq Hinv [He Hn Hd Hf]; [exists c; by split_and!|].
  destruct (task_steps c t q Hinv (eq_sym Hq)) as (w1 & ss1 & Hstep & Hinv1 & Hq1 & Hp1 & Hs1 & He1).
  { split; [done| |done|]; [apply Hn; rewrite <-Hq; by left|]. intros l sg _ Hsg. by apply (Hf l sg). }
  destruct (IH (Cl w1 ss1 (cl_given c))) as (c' & Hr & Hinv' & Hq' & Hg' & Hp' & Hs'); [done..| |].
  - split; simpl; rewrite ?He1, ?Hp1; [done| |done..]. intros t'. rewrite Hq1. intros Ht'. apply Hn. rewrite <-Hq. by right.
  - exists c'. simpl in *. split_and!; [by eapply rtc_l|done..|congruence|congruence].
Qed.

(** Searches of flat indexes are exact. *)
Lemma conf_exact c i sh : cl_inv c → conf_shape (cl_writer c) i sh → sh_exact sh = true.
Proof.
  intros Hinv (cfg & r & Hc & Hr & ->). apply (ib_make_spec (T:=T) (rq_args r)). by apply (ci_flat _ Hinv _ cfg Hc).
Qed.

(** Without tasks to run, a searcher has all of its shard but the segment
    being filled. *)
Lemma all_served c i x h :
  cl_inv c → rand_distinct (wr_proc (cl_writer c)) → callback_runner (cl_writer c) = [] →
  (i, x, h) ∈ dir_hosts D →
  ∃ sh s S, conf_shape (cl_writer c) i sh ∧ sh_exact sh = true ∧ cl_searchers c !! h = Some s ∧
    serves V sh i x s S ∧ (∀ e, e ∈ S → e ∈ cl_given c) ∧
    ∀ idx e, shard i x (cl_writer c) = Some idx → e ∈ content (St (wr_proc (cl_writer c)) idx []) →
      e ∈ S ∨ e ∈ entries_at (heap (wr_proc (cl_writer c))) (last_ idx).
Proof.
  intros Hinv Hd Hq Hh. destruct (ci_serving _ Hinv _ _ _ Hh) as (sh & Hsh & s & S & Hs & _ & [Hsv _] & HS).
  exists sh, s, S. split_and!; [done|by eapply conf_exact|done..|].
  intros idx e Hx (l & [Hl|Hl%list_elem_of_singleton]%elem_of_app & He)%elem_of_contents; [left|right; by subst].
  destruct (knows_alloc V _ _ _ _ l (proj1 (wk_shard _ _ (ci_ok _ Hinv) i x idx Hx))) as [sg Hsg].
  { left. apply elem_of_app. by left. }
  simpl in He. rewrite (entries_at_Some _ _ _ Hsg) in He.
  destruct (ci_sealed _ Hinv Hd i x idx l sg Hx Hl Hsg) as [(t & Ht & _)|Hdone].
  - rewrite Hq in Ht. by apply elem_of_nil in Ht.
  - by apply (found_serves _ _ _ _ _ _ _ _ Hs Hsv), Hdone.
Qed.
End cluster.
