(* ===== verification/Front.v ===== *)
(** * A coordinator in front of searchers (app)

    The coordinator's calls are the searchers' handlers: [searcher_net] is a
    network with the searchers of a cluster at their addresses, an address
    without one, or a handler that fails, being a call that fails. *)

From S2P Require Import Prelude Cxx Floats BinaryIO StorageClient Faiss TopK IBaseIndex Segment.
From S2P Require Import IIndex Events Storage Index IndexSpec IndexFactory Merging Stats EtcdClient.
From S2P Require Import Prometheus Coordinator Searcher SearcherSpec Writer WriterSpec Publication Cluster.

Section net.
Context `{SL : StdLib} {E : Etcd} {DT : DoubleText} {P : PromLib} {S3 : S3} {T : Type} `{B : IBaseIndex T}.

(** Each call takes [took]. *)
Definition searcher_net (took : f64) : Grpc := {|
  net := gmap string (searcher E P S3 T);
  rpc_search ss h rq :=
    match ss !! h with
    | None => (ss, (None, took))
    | Some s =>
      let '(s', r) := Searcher.ProcessSearchRequest rq s in
      (<[h := s']> ss, (match r with Ok ids => Some ids | _ => None end, took))
    end;
|}.
End net.

Section front.
Context `{SL : StdLib} {E : Etcd} {EL : EtcdLaws E} {EU : EtcdUp E} {DT : DoubleText} {P : PromLib}
  {S3 : S3} {T : Type} `{L : IBaseIndexLaws T}.
Context (V : list f32 → Prop) (sh : shape) (i x : string) (q : list f32) (k : Z) (took : f64).
Implicit Types ss : gmap string (searcher E P S3 T).
Abbreviation rq := (SearchReq q k i (Some x)).
Abbreviation G := (searcher_net (E:=E) (P:=P) (S3:=S3) (T:=T) took).

(** [es]: the nearest of what the searcher at [h] serves, in order. *)
Definition nearest_at ss (h : string) (es : list (string * list f32)) : Prop :=
  ∃ s S, ss !! h = Some s ∧ serves V sh i x s S ∧
    is_topk (entry_dist (T:=T) sh q) (Z.to_nat k) S es ∧
    StronglySorted (λ e e', sr_lt (result_of (T:=T) sh q e) (result_of (T:=T) sh q e')) es.

(** The order of one searcher's answer survives, and copies of it do not
    change it. *)
Lemma front_copies ss h es n :
  (k ≤ Z.of_nat (S max_rank))%Z → n < max_copies → nearest_at ss h es →
  MergeSearcherAnswers (replicate (S n) es.*1) (Z.to_nat k) = es.*1.
Proof.
  intros Hmax Hn (s & S & _ & (ix & _ & Hv) & [Hnd Hsub Hlen _] & _).
  rewrite merged_copies; [| | |done].
  - apply take_ge. rewrite length_fmap. lia.
  - apply (NoDup_fmap_key (λ e, e)); [by rewrite list_fmap_id|]. intros e e' He He' Heq.
    apply (NoDup_fst_inj S); [apply (vi_keys _ _ _ _ Hv)|by apply Hsub..|done].
  - rewrite length_fmap. lia.
Qed.
(** No two of the vectors are equally far from the query. *)
Definition no_ties (l : list (string * list f32)) : Prop :=
  ∀ e e', e ∈ l → e' ∈ l → e ≠ e' →
    flt (entry_dist (T:=T) sh q e) (entry_dist (T:=T) sh q e') ∨
    flt (entry_dist (T:=T) sh q e') (entry_dist (T:=T) sh q e).

Lemma sr_lt_one_way e e' :
  flt (entry_dist (T:=T) sh q e) (entry_dist (T:=T) sh q e') →
  sr_lt (result_of (T:=T) sh q e') (result_of (T:=T) sh q e) = false.
Proof.
  intros Hlt. destruct (flt_not_nan _ _ Hlt) as [Ha Hb]. unfold sr_lt. simpl. rewrite feq_flt by done.
  rewrite (swo_asym _ _ _ _ flt_swo Ha Hb Hlt). apply Is_true_true in Hlt. by rewrite Hlt.
Qed.

(** Replicas that serve the same vectors, none of them equally far, answer
    alike. *)
Lemma nearest_unique ss h h' es es' given :
  nearest_at ss h es → nearest_at ss h' es' → no_ties given →
  (∀ e, found ss h i x e → found ss h' i x e) → (∀ e, found ss h' i x e → found ss h i x e) →
  (∀ e, found ss h i x e → e ∈ given) → es = es'.
Proof.
  intros (s & S & Hs & Hsv & Ht & Ho) (s' & S' & Hs' & Hsv' & Ht' & Ho') Hd H1 H2 Hg.
  setoid_rewrite (found_serves V _ _ _ _ _ _ _ _ Hs Hsv) in H1.
  setoid_rewrite (found_serves V _ _ _ _ _ _ _ _ Hs Hsv) in H2.
  setoid_rewrite (found_serves V _ _ _ _ _ _ _ _ Hs Hsv) in Hg.
  setoid_rewrite (found_serves V _ _ _ _ _ _ _ _ Hs' Hsv') in H1.
  setoid_rewrite (found_serves V _ _ _ _ _ _ _ _ Hs' Hsv') in H2.
  destruct Hsv as (ix & _ & Hv), Hsv' as (ix' & _ & Hv').
  assert (es ≡ₚ es') as Hp.
  { eapply topk_unique; [| | | |exact Ht|exact Ht'].
    - eapply NoDup_fmap_1, (vi_keys _ _ _ _ Hv).
    - eapply NoDup_fmap_1, (vi_keys _ _ _ _ Hv').
    - intros e. split; auto.
    - intros e e' He He'. apply Hd; auto. }
  eapply StronglySorted_unique_strong; [|exact Ho|exact Ho'|exact Hp].
  intros e e' He He' Hlt Hgt. cbv beta in Hlt, Hgt. apply dec_stable. intros Hne. rewrite <-Hp in He'.
  destruct (Hd e e') as [Hf|Hf]; [apply Hg, (topk_sub _ _ _ _ Ht); done..|done| |];
    apply sr_lt_one_way in Hf; [by rewrite Hf in Hgt|by rewrite Hf in Hlt].
Qed.

(** All answers are one answer. *)
Lemma replicas_agree ss hosts ess es l :
  Forall2 (nearest_at ss) hosts ess →
  (∀ h h' e, h ∈ hosts → h' ∈ hosts → found ss h i x e → found ss h' i x e) →
  length hosts = 1 ∨ length hosts ≤ max_copies ∧ no_ties l ∧ (∀ h e, h ∈ hosts → found ss h i x e → e ∈ l) →
  es ∈ ess → ∃ n h, n < max_copies ∧ ess = replicate (S n) es ∧ nearest_at ss h es.
Proof.
  intros Hf Hsame Hl [m Hm]%list_elem_of_lookup. destruct (Forall2_lookup_r _ _ _ _ _ Hf Hm) as (h & Hh & Hne).
  pose proof (Forall2_length _ _ _ Hf) as Hlen. apply lookup_lt_Some in Hm as Hlt.
  exists (pred (length ess)), h. split_and!; [|rewrite Nat.succ_pred_pos by lia|done].
  { unfold max_copies in *. destruct Hl as [|[? _]]; lia. }
  symmetry. apply replicate_as_elem_of. split; [done|]. intros es' [m' Hm']%list_elem_of_lookup.
  destruct (Forall2_lookup_r _ _ _ _ _ Hf Hm') as (h' & Hh' & Hne'). apply list_elem_of_lookup_2 in Hh as Hin, Hh' as Hin'.
  destruct Hl as [H1|(_ & Hd & Hg)].
  - apply lookup_lt_Some in Hm' as Hlt'. assert (m' = m) as -> by lia. congruence.
  - apply (nearest_unique ss h' h es' es l); eauto.
Qed.

Context (Hk : (0 < k < u64_modulus)%Z) (Hdim : sh_dim sh ≤ length q) (Hex : sh_exact sh = true).
Context (Hnan : ∀ v, V v → not_nan (ib_metric_dist (sh_metric sh) q v)).

Definition has_shard ss (h : string) : Prop := ∃ s S, ss !! h = Some s ∧ serves V sh i x s S.

Lemma poll_searchers hosts ss :
  NoDup hosts → (∀ h, h ∈ hosts → has_shard ss h) →
  ∃ ess : list (list (string * list f32)),
    (poll (G:=G) ss rq hosts).2 = (λ es, es.*1) <$> ess ∧ Forall2 (nearest_at ss) hosts ess.
Proof.
  intros Hnd. revert ss. induction Hnd as [|h hosts Hh Hnd IH]; intros ss Hall; [by exists []|].
  destruct (Hall h) as (s & S & Hs & Hsv); [by left|].
  destruct (shard_search_runs V sh rq x s S) as (es & s' & Hr & Ht & Ho & _); [done|done|simpl; lia|done..|].
  destruct (IH (<[h := s']> ss)) as (ess & Hp & Hf).
  { intros h' Hin. unfold has_shard. rewrite lookup_insert_ne by (by intros ->). apply Hall. by right. }
  exists (es :: ess). split.
  - cbn [poll rpc_search searcher_net]. rewrite Hs, (Hr : _ = _).
    destruct (poll (G:=G) (<[h := s']> ss) rq hosts) as [n rs]. simpl in Hp |- *. by rewrite Hp.
  - constructor; [by exists s, S|]. clear -Hf Hh. revert Hh.
    induction Hf as [|h' es' hosts ess Hn _ IH]; intros Hh; [constructor|]. constructor; [|apply IH; set_solver].
    destruct Hn as (s0 & S0 & Hs0 & ?). rewrite lookup_insert_ne in Hs0 by set_solver. by exists s0, S0.
Qed.

(** The hosts of a map with one shard. *)
Lemma one_shard_hosts (m : gmap string (list string)) hosts :
  m !! x = Some hosts → (∀ y, y ≠ x → m !! y = None) → std_iter m ≫= snd = hosts.
Proof.
  intros Hx Hno.
  assert (std_iter m ≡ₚ [(x, hosts)]) as Hp.
  { apply NoDup_Permutation; [apply NoDup_std_iter|apply NoDup_singleton|]. intros [y l].
    rewrite elem_of_std_iter, list_elem_of_singleton. destruct (decide (y = x)) as [->|Hne]; [naive_solver|].
    rewrite Hno by done. naive_solver. }
  apply Permutation_singleton_r in Hp as ->. simpl. apply app_nil_r.
Qed.

(** A coordinator without hosts on record for the index asks the searchers
    of the shard, and fuses what each of them finds nearest. *)
Lemma front_answers D (co : coordinator E P G) ss :
  slash_free i = true → slash_free x = true → dir_rep (etcd_view (co_etcd co)) D →
  cached i co = ∅ → co_net co = ss → (∀ h, (i, x, h) ∈ dir_hosts D → has_shard ss h) →
  ∃ co' hosts (ess : list (list (string * list f32))),
    runs (Coordinator.ProcessSearchRequest rq) co
      (MergeSearcherAnswers ((λ es, es.*1) <$> ess) (Z.to_nat k)) co' ∧
    NoDup hosts ∧ (∀ h, h ∈ hosts ↔ (i, x, h) ∈ dir_hosts D) ∧ Forall2 (nearest_at ss) hosts ess.
Proof.
  intros Hi Hx HD Hc Hn Hall.
  destruct (ProcessSearchRequest_runs i Hi D rq co) as (co' & m & Hr & _ & Hl & Ho);
    [done|by intros y [= <-]|done|].
  destruct (Hl x) as (hosts & Hm & Hnd & Hhosts); [done|].
  rewrite (one_shard_hosts m hosts Hm) in Hr.
  2: { intros y Hy. rewrite Ho by done. by rewrite Hc, lookup_empty. }
  destruct (poll_searchers hosts ss Hnd) as (ess & Hp & Hf); [intros h Hh; by apply Hall, Hhosts|].
  exists co', hosts, ess. split_and!; [|done..]. rewrite Hn, Hp in Hr. simpl in Hr.
  unfold u64 in Hr. by rewrite Z.mod_small in Hr by lia.
Qed.
End front.
