(* ===== verification/SegmentCorrect.v ===== *)
(** * Correctness of segments and their files (index/include)

    The theorems about one segment: the FAISS-backed index it wraps, the order
    of its results, and the files it is written to. *)

From S2P Require Import Prelude Cxx Floats BinaryIO Faiss FaissRef TopK IBaseIndex FaissIndex Segment IndexFactory.

(** ** Results *)

(** C21: the order of [SearchResult] is a strict weak order on results whose
    distance is a number, as [std::set] requires, it never puts a larger
    distance first, and two results are equivalent only when their ids are the
    same. *)
Theorem search_result_order :
  swo_on sr_lt sr_ok ∧
  (∀ a b, sr_ok a → sr_ok b → sr_lt a b → fle (dist a) (dist b)) ∧
  (∀ a b, sr_ok a → sr_ok b → sr_lt a b = false → sr_lt b a = false → sr_eq a b = true).
Proof.
  split_and!; [apply sr_lt_swo|apply sr_lt_fle|].
  intros a b Ha Hb H1 H2. unfold sr_eq. apply bool_decide_eq_true. apply dec_stable. intros Hne.
  destruct (sr_lt_total a b Ha Hb Hne) as [H|H]; [by rewrite H1 in H|by rewrite H2 in H].
Qed.

(** ** The FAISS-backed index *)

Section faiss.
Context `{SL : StdLib} {F : Faiss} {FL : FaissLaws F}.
Implicit Types fi : faiss_index.

(** C14: [single_search] on an exhaustive index returns exactly the [k] live
    entries nearest to the query, each with its distance, in order of
    distance: asking FAISS for as many more rows as there are erased labels
    makes up for the rows that are filtered out. *)
Theorem single_search_nearest fi k q :
  fi_wf fi → tidy fi → no_nan fi q → bi_flat (index_ fi) = true →
  bi_d (index_ fi) ≤ length q → 0 < k + size (erased_ fi) →
  ∃ es, is_topk (λ e, fi_dist fi q e.2) k (entries fi) es ∧
    single_search fi k q = Ok (hit fi q <$> es) ∧
    StronglySorted (λ e e', fle (fi_dist fi q e.2) (fi_dist fi q e'.2)) es.
Proof. apply single_search_exact. Qed.

(** C15: [single_search] on any kind of index, an approximate one too,
    returns at most [k] live entries with their distances and never an erased
    one. *)
Theorem single_search_live_only fi k q :
  fi_wf fi → no_nan fi q → bi_d (index_ fi) ≤ length q → 0 < k →
  ∃ es rest, entries fi ≡ₚ es ++ rest ∧ length es ≤ k ∧ single_search fi k q = Ok (hit fi q <$> es).
Proof. intros Hwf Hn Hq Hk. exact (ib_search_spec (T:=faiss_index) fi k q Hwf (conj Hk (conj Hq Hn))). Qed.


(** [erase_batch] on an index in which no id has two live vectors
    removes exactly the entries with one of the ids, keeps the invariant, and
    forgets no id. *)
Theorem erase_batch_removes fi n ids :
  fi_wf fi → tidy fi → n ≤ length ids →
  ∃ fi', erase_batch fi n ids = Ok fi' ∧ fi_wf fi' ∧ tidy fi' ∧ seen fi' = seen fi ∧
    entries fi' = filter (λ e, e.1 ∉ take n ids) (entries fi).
Proof.
  intros Hwf Ht Hn. destruct (erase_batch_spec fi n ids Hwf Hn) as (fi' & ? & ? & _ & ? & _ & Hs).
  destruct (Hs Ht). by exists fi'.
Qed.

(** C17: [merge_from_other] of an index of the same instance, dimension and
    metric adds exactly its live entries and keeps the invariant; an index of
    another instance is refused with an exception. *)
Theorem merge_from_other_appends fi o :
  fi_wf fi → fi_wf o →
  (fi_shape o = fi_shape fi →
    ∃ fi', merge_from_other fi o = Ok fi' ∧ fi_wf fi' ∧ entries fi' ≡ₚ entries fi ++ entries o ∧
      (tidy fi → tidy o → (∀ x, x ∈ (entries fi).*1 → x ∉ (entries o).*1) → tidy fi')) ∧
  (fi_kind o ≠ fi_kind fi →
    merge_from_other fi o = Throw (RuntimeError "Couldn't cast index into FaissIndex")).
Proof.
  intros Hwf Hwo. split; [|exact (ib_merge_kind (T:=faiss_index) fi o)]. intros Hs.
  destruct (merge_from_other_spec fi o Hwf Hwo Hs) as (fi' & ? & ? & _ & ? & _ & _ & ?).
  by exists fi'.
Qed.

(** C18: the reading constructor gives back the index [serialize_index]
    wrote, tables and all, and leaves the stream behind it; only the template
    instance is the reader's. *)
Theorem index_roundtrip junk kind fi fd rest :
  fi_wf fi → storable fi →
  ∃ bytes, serialize_index fi fd = fd ++ bytes ∧
    FaissIndex_read junk kind (bytes ++ rest) =
      Ok (FI kind (index_ fi) (next_id fi) (ids_ fi) (inv_ids_ fi) (erased_ fi), rest).
Proof.
  intros Hwf Hs. exists (index_bytes fi). split; [apply serialize_index_bytes|].
  by apply index_bytes_read.
Qed.

(** C19: [DeserealizeSegment] reads back the segment [SerializeSegment]
    wrote, with its id, its type and the same live entries, and answers every
    query alike; a segment of an HNSW kind comes back under the other HNSW
    instance. *)
Theorem segment_roundtrip junk (sg : segment faiss_index) rest :
  segment_ok sg →
  ∃ sg', DeserealizeSegment junk (SerializeSegment [] sg ++ rest) = Ok (Some sg', rest) ∧
    getID sg' = getID sg ∧ seg_type sg' = seg_type sg ∧ seg_entries sg' = seg_entries sg ∧
    (∀ q k, searchQuery sg' q k = searchQuery sg q k) ∧
    (sh_kind (seg_shape sg) = IndexFlat → sg' = sg) ∧
    (sh_kind (seg_shape sg) ≠ IndexFlat → sh_kind (seg_shape sg') = IndexHNSW).
Proof.
  intros Hok. exists (received sg). split; [by apply DeserealizeSegment_Serialize|].
  split_and!; [done..| |].
  - intros Hk. unfold received. rewrite Hk. simpl. destruct sg as [i ty fi]. f_equal.
    unfold seg_shape in Hk. simpl in *. destruct fi. unfold retype. simpl in *. by subst.
  - intros Hk. unfold received, seg_shape in *. simpl in *. by destruct (fi_kind (seg_index sg)).
Qed.

End faiss.

(** ** Runs

    One-dimensional vectors, L2, on the brute-force FAISS. *)

#[local] Existing Instance stdlib_ref.

Definition demo_args : index_args := FlatArgs 1 METRIC_L2.
Definition hnsw_args : index_args := HNSWFlatArgs 1 32 METRIC_L2.
Definition vec (l : list Z) : list f32 := f32_of_Z <$> l.

Definition got {A} (d : A) (o : outcome A) : A := match o with Ok a => a | _ => d end.
Definition with_three (a : index_args) : faiss_index :=
  got (FaissIndex a) (add_batch (FaissIndex a) 3 (vec [1; 2; 3]%Z) ["a"; "b"; "c"]).
(** Three vectors, one of them erased. *)
Definition with_two (a : index_args) : faiss_index :=
  got (with_three a) (erase_batch (with_three a) 1 ["b"]).

Lemma got_Ok {A} (d : A) o a : o = Ok a → got d o = a.
Proof. by intros ->. Qed.

Lemma with_three_ok a : args_dim a = 1 →
  fi_wf (with_three a) ∧ tidy (with_three a) ∧ fi_shape (with_three a) = fi_shape (FaissIndex a) ∧
  seen (with_three a) = {["a"; "b"; "c"]}.
Proof.
  intros Hd. destruct (FaissIndex_spec a) as (Hwf & Ht & He & Hs & _ & Hdim & _).
  destruct (add_batch_spec (FaissIndex a) 3 (vec [1; 2; 3]%Z) ["a"; "b"; "c"])
    as (fi & Ha & Hwf' & Hsh & _ & Hseen & _ & _ & Htidy); [done| |done|].
  { unfold fi_shape in Hdim. cbn [sh_dim] in Hdim. rewrite Hdim, Hd. simpl. lia. }
  unfold with_three. rewrite (got_Ok _ _ _ Ha). split_and!; [done| |done|].
  - apply Htidy; [done| |by rewrite He; set_solver].
    apply (bool_decide_unpack _). vm_compute. exact I.
  - rewrite Hseen, Hs. set_solver.
Qed.

Lemma with_two_ok a : args_dim a = 1 →
  fi_wf (with_two a) ∧ tidy (with_two a) ∧ fi_shape (with_two a) = fi_shape (FaissIndex a) ∧
  seen (with_two a) = {["a"; "b"; "c"]}.
Proof.
  intros Hd. destruct (with_three_ok a Hd) as (Hwf & Ht & Hsh & Hs).
  destruct (erase_batch_spec (with_three a) 1 ["b"]) as (fi & Ha & Hwf' & Hsh' & Hseen & _ & Htidy);
    [done|simpl; lia|].
  unfold with_two. rewrite (got_Ok _ _ _ Ha). split_and!; [done|by apply Htidy| |]; congruence.
Qed.

Lemma demo_no_nan a q : no_nan (with_two a) q.
Proof. intros v _. apply flat_dist_not_nan. Qed.

Lemma single_search_nearest_witness :
  ∃ es, is_topk (λ e, fi_dist (with_two demo_args) (vec [2]%Z) e.2) 1 (entries (with_two demo_args)) es ∧
    single_search (with_two demo_args) 1 (vec [2]%Z) = Ok (hit (with_two demo_args) (vec [2]%Z) <$> es) ∧
    StronglySorted (λ e e', fle (fi_dist (with_two demo_args) (vec [2]%Z) e.2)
      (fi_dist (with_two demo_args) (vec [2]%Z) e'.2)) es.
Proof.
  apply (single_search_nearest (with_two demo_args) 1 (vec [2]%Z)).
  - apply (with_two_ok demo_args eq_refl).
  - apply (with_two_ok demo_args eq_refl).
  - apply demo_no_nan.
  - vm_compute. reflexivity.
  - vm_compute. lia.
  - vm_compute. lia.
Defined.

Lemma single_search_live_only_witness :
  ∃ es rest, entries (with_two hnsw_args) ≡ₚ es ++ rest ∧ length es ≤ 5 ∧
    single_search (with_two hnsw_args) 5 (vec [2]%Z) = Ok (hit (with_two hnsw_args) (vec [2]%Z) <$> es).
Proof.
  apply (single_search_live_only (with_two hnsw_args) 5 (vec [2]%Z)).
  - apply (with_two_ok hnsw_args eq_refl).
  - apply demo_no_nan.
  - vm_compute. lia.
  - lia.
Defined.


Lemma erase_batch_removes_witness :
  ∃ fi', erase_batch (with_three demo_args) 2 ["a"; "x"] = Ok fi' ∧ fi_wf fi' ∧ tidy fi' ∧
    seen fi' = seen (with_three demo_args) ∧
    entries fi' = filter (λ e, e.1 ∉ take 2 ["a"; "x"]) (entries (with_three demo_args)).
Proof.
  apply (erase_batch_removes (with_three demo_args) 2 ["a"; "x"]).
  - apply (with_three_ok demo_args eq_refl).
  - apply (with_three_ok demo_args eq_refl).
  - simpl. lia.
Defined.

Lemma merge_from_other_appends_witness :
  fi_shape (with_two demo_args) = fi_shape (FaissIndex demo_args) ∧
  (fi_shape (with_two demo_args) = fi_shape (FaissIndex demo_args) →
    ∃ fi', merge_from_other (FaissIndex demo_args) (with_two demo_args) = Ok fi' ∧ fi_wf fi' ∧
      entries fi' ≡ₚ entries (FaissIndex demo_args) ++ entries (with_two demo_args) ∧
      (tidy (FaissIndex demo_args) → tidy (with_two demo_args) →
        (∀ x, x ∈ (entries (FaissIndex demo_args)).*1 → x ∉ (entries (with_two demo_args)).*1) →
        tidy fi')) ∧
  (fi_kind (with_two demo_args) ≠ fi_kind (FaissIndex demo_args) →
    merge_from_other (FaissIndex demo_args) (with_two demo_args) =
      Throw (RuntimeError "Couldn't cast index into FaissIndex")).
Proof.
  split; [apply (with_two_ok demo_args eq_refl)|].
  apply (merge_from_other_appends (FaissIndex demo_args) (with_two demo_args)).
  - apply (FaissIndex_spec demo_args).
  - apply (with_two_ok demo_args eq_refl).
Defined.

(** Short ids and few labels fit the file format. *)
Lemma with_two_storable a : args_dim a = 1 → storable (with_two a).
Proof.
  intros Hd. destruct (with_two_ok a Hd) as (Hwf & _ & _ & Hs). split.
  - rewrite (wf_next _ Hwf).
    assert (bi_ntotal (index_ (with_two a)) = 3) as ->; [|lia].
    destruct a; simpl in Hd; subst; vm_compute; reflexivity.
  - rewrite Hs. intros x Hx. apply Z.leb_le.
    assert (x = "a" ∨ x = "b" ∨ x = "c") as [-> |[-> | ->]] by set_solver; vm_compute; reflexivity.
Qed.

Lemma index_roundtrip_witness :
  ∃ bytes, serialize_index (with_two demo_args) ["!"%char] = ["!"%char] ++ bytes ∧
    FaissIndex_read 0 IndexFlat (bytes ++ ["?"%char]) =
      Ok (FI IndexFlat (index_ (with_two demo_args)) (next_id (with_two demo_args))
            (ids_ (with_two demo_args)) (inv_ids_ (with_two demo_args)) (erased_ (with_two demo_args)),
          ["?"%char]).
Proof.
  apply (index_roundtrip 0 IndexFlat (with_two demo_args) ["!"%char] ["?"%char]).
  - apply (with_two_ok demo_args eq_refl).
  - apply (with_two_storable demo_args eq_refl).
Defined.

(** A segment around [with_two]. *)
Definition two_segment (a : index_args) (i : Z) : segment faiss_index :=
  Seg i (SegmentType_int (ib_segment_type (with_two a))) (with_two a).

Lemma two_segment_ok a i : args_dim a = 1 → (0 ≤ i < u64_modulus)%Z → segment_ok (two_segment a i).
Proof.
  intros Hd Hi. split; [done|done|apply (with_two_ok a Hd)|by apply with_two_storable].
Qed.

Lemma segment_roundtrip_witness :
  ∃ sg', DeserealizeSegment 0 (SerializeSegment [] (two_segment hnsw_args 42) ++ []) = Ok (Some sg', []) ∧
    getID sg' = getID (two_segment hnsw_args 42) ∧ seg_type sg' = seg_type (two_segment hnsw_args 42) ∧
    seg_entries sg' = seg_entries (two_segment hnsw_args 42) ∧
    (∀ q k, searchQuery sg' q k = searchQuery (two_segment hnsw_args 42) q k) ∧
    (sh_kind (seg_shape (two_segment hnsw_args 42)) = IndexFlat → sg' = two_segment hnsw_args 42) ∧
    (sh_kind (seg_shape (two_segment hnsw_args 42)) ≠ IndexFlat → sh_kind (seg_shape sg') = IndexHNSW).
Proof.
  apply (segment_roundtrip 0 (two_segment hnsw_args 42) []).
  apply two_segment_ok; [reflexivity|split; [lia|reflexivity]].
Defined.

(** ** Where the code falls short *)

(** One vector added under "x", and the id erased. *)
Definition add_x (v : Z) (fi : faiss_index) : faiss_index := got fi (add_batch fi 1 (vec [v]) ["x"]).
Definition erase_x (fi : faiss_index) : faiss_index := got fi (erase_batch fi 1 ["x"]).

