(* ===== verification/IndexCorrect.v ===== *)
(** * Correctness of the index (index/include)

    The theorems about the segmented index, its storage and its merging, with
    the FAISS-backed segments, and runs of the code at concrete inputs. *)

From S2P Require Import Prelude Cxx Floats BinaryIO Faiss FaissRef TopK IBaseIndex FaissIndex.
From S2P Require Import Segment IIndex Events Storage Index Executor IndexSpec IndexRefinement SegmentCorrect.

(** ** Concrete indexes

    Two-vector segments of one-dimensional vectors, L2, on the brute-force
    FAISS and a [rand()] that counts. *)

#[local] Existing Instance stdlib_ref.

Definition no_proc : proc faiss_index := Proc ∅ 0 0.
Definition demo (em : bool) : st faiss_index :=
  let '(p, i) := Index 1 2 em demo_args no_proc in St p i [].
Definition any : list f32 → Prop := λ _, True.

(** The state a call leaves. *)
Definition after {A} (m : M (st faiss_index) A) (s : st faiss_index) : st faiss_index := (m s).1.

(** A run: seven vectors, a search, two erased, one added again, a search. *)
Definition demo_ops : list op :=
  [OpAdd 4 ["a"; "b"; "c"; "d"] (vec [1; 2; 3; 4]); OpCallback;
   OpAdd 3 ["e"; "f"; "g"] (vec [5; 6; 7]);
   OpSearch (vec [4]) 3; OpErase 2 ["d"; "e"]; OpSearch (vec [4]) 2;
   OpAdd 1 ["d"] (vec [9]); OpSearch (vec [8]) 2]%Z.

Lemma any_not_nan sh q v : any v → not_nan (ib_metric_dist (T:=faiss_index) (sh_metric sh) q v).
Proof. intros _. apply flat_dist_not_nan. Qed.

Lemma no_proc_alloc l : is_Some (heap no_proc !! l) → l < fresh no_proc.
Proof. simpl. rewrite lookup_empty. by intros []. Qed.

(** What the sections below start from: the invariant in a state a run reaches. *)
Lemma demo_inv em : idx_inv any 0 (demo em) ∧ content (demo em) = [].
Proof. apply (Index_spec any 1 2 em demo_args no_proc no_proc_alloc); [lia|done]. Qed.

Definition four : list string := ["a"; "b"; "c"; "d"].
Definition four_vecs : list f32 := vec [1; 2; 3; 4]%Z.
(** Two full segments, before any merge. *)
Definition demo_full : st faiss_index := after (add 4 four four_vecs) (demo false).

Lemma demo_addable em : addable any (demo em) 4 four four_vecs.
Proof.
  split; [vm_compute; lia|vm_compute; lia| |by apply Forall_forall].
  rewrite (proj2 (demo_inv em)). apply (bool_decide_unpack _). vm_compute. exact I.
Qed.

Lemma demo_full_inv : idx_inv any 0 demo_full.
Proof.
  destruct (add_spec any 0 (demo false) 4 four four_vecs) as (s' & Hr & Hinv & _);
    [lia|apply demo_inv|apply demo_addable|].
  unfold demo_full, after. by rewrite Hr.
Qed.

(** ** Refinement *)

Section refinement.
Context `{SL : StdLib} {F : Faiss} {FL : FaissLaws F}.

(** C1: an index refines a finite map from ids to vectors. Starting from a
    new flat index of any threshold, with or without merging, every sequence
    of legal calls (ids added are not in the index, buffers are long enough)
    returns, and every search answers with the ids of [k] nearest entries of
    the map in order of distance, as long as [rand()] does not repeat within
    the number of draws the calls can make. *)
Theorem index_refines_map (V : list f32 → Prop) a dim thr em (p : proc faiss_index) D ops :
  (∀ l, is_Some (heap p !! l) → l < fresh p) → args_kind a = IndexFlat → dim = args_dim a →
  (0 < thr < 2 ^ 31)%Z → NoDup (std_rand <$> seq 0 D) →
  draws p + 1 + 2 * sum_list (op_added <$> ops) ≤ D →
  (Z.of_nat (sum_list (op_erased <$> ops)) ≤ 2 ^ 62)%Z →
  legal_all (T:=faiss_index) V (ib_shape (ib_make a : faiss_index)) ∅ ops →
  ∃ rs s' abs', runs (exec_all ops) (let '(p', i) := Index dim thr em a p in St p' i []) rs s' ∧
    spec_run (T:=faiss_index) (ib_shape (ib_make a : faiss_index)) ∅ ops rs abs' ∧
    abs' = list_to_map (content s').
Proof.
  intros Hp Hk Hd Hthr Hrand HD He Hl.
  destruct (ib_make_spec a) as (_ & _ & _ & _ & _ & _ & _ & _ & Hex).
  destruct (new_represents V (ib_shape (ib_make a : faiss_index)) dim thr em a p Hp Hthr Hd eq_refl) as [Hrep Hpot].
  destruct (Index dim thr em a p) as [p' i].
  destruct (exec_all_sim V (ib_shape (ib_make a : faiss_index)) (Hex Hk) D Hrand ops 0 _ ∅ ltac:(lia) ltac:(lia) Hrep Hl)
    as (rs & s' & abs' & Hr & Hs & (_ & _ & Habs)); [lia|]. by exists rs, s', abs'.
Qed.
End refinement.

Lemma index_refines_map_witness :
  ∃ rs s' abs', runs (exec_all demo_ops) (demo true) rs s' ∧
    spec_run (T:=faiss_index) (ib_shape (ib_make demo_args : faiss_index)) ∅ demo_ops rs abs' ∧
    abs' = list_to_map (content s').
Proof.
  apply (index_refines_map any demo_args 1 2 true no_proc 17 demo_ops).
  - apply no_proc_alloc.
  - reflexivity.
  - reflexivity.
  - lia.
  - apply (bool_decide_unpack _). vm_compute. exact I.
  - vm_compute. lia.
  - vm_compute. discriminate.
  - repeat split; try apply any_not_nan; try (vm_compute; lia);
      try (apply (bool_decide_unpack _); vm_compute; exact I);
      try (apply Forall_forall; intros; exact I);
      intros x Hx; repeat (apply elem_of_cons in Hx as [->|Hx]; [vm_compute; reflexivity|]);
      by apply elem_of_nil in Hx.
Defined.

(** ** The calls of an index *)

Section calls.
Context `{SL : StdLib} {F : Faiss} {FL : FaissLaws F}.
Context (V : list f32 → Prop) (low : Z).
Implicit Types s : st faiss_index.

(** C9: [SegmentStorage::merge] terminates for every budget, number of
    levels and sizes of segments, merges and moves every live (id, vector)
    pair exactly once, and keeps the invariant of the index. *)
Theorem merge_preserves budget s :
  idx_inv V low s → (0 ≤ budget)%Z →
  ∃ s', runs (merge budget) s () s' ∧ idx_inv V low s' ∧ content s' ≡ₚ content s ∧
    st_log s `prefix_of` st_log s'.
Proof.
  intros Hi Hb. destruct (merge_spec V budget s) as (s' & Hr & Hs); [apply Hi..|done|].
  destruct (stored_inv V low s s' Hi Hs) as (? & ? & _). exists s'. split_and!; try done. apply Hs.
Qed.

(** C10: after a merge, a search still visits a segment with every entry the
    index holds, and visits no segment with anything else: as long as no two
    segments drew the same id, removing the merged segments by id from
    [segments_] removes nothing that is still needed. *)
Theorem merge_keeps_visible budget s :
  idx_inv V low s → (0 ≤ budget)%Z →
  ∃ s', runs (merge budget) s () s' ∧
    (draws_distinct s' → ∀ e, e ∈ content s ↔
      ∃ l, l ∈ visited s' ∧ e ∈ entries_at (heap (st_proc s')) l).
Proof.
  intros Hi Hb. destruct (merge_spec V budget s) as (s' & Hr & Hs); [apply Hi..|done|].
  destruct (stored_inv V low s s' Hi Hs) as (Hi' & Hc & _). exists s'. split; [done|].
  intros Hd e. rewrite <-Hc, (visited_content V low s' e Hi' Hd).
  setoid_rewrite list_elem_of_fmap. unfold visited. naive_solver.
Qed.

(** C11: [Index::add] of a batch of new ids returns and adds exactly the pairs
    of the batch, whatever segments it fills and merges on the way; heap
    objects that belong to other indexes are untouched. *)
Theorem add_inserts s n ids vectors :
  (0 ≤ low ≤ 2 ^ 62)%Z → idx_inv V low s → addable V s n ids vectors →
  ∃ s', runs (add n ids vectors) s () s' ∧ idx_inv V low s' ∧
    content s' ≡ₚ content s ++ batch_of (d_ (st_idx s)) n ids vectors ∧ apart s s'.
Proof.
  intros Hl Hi Ha. destruct (add_spec V low s n ids vectors Hl Hi Ha) as (s' & ? & ? & ? & ? & _).
  by exists s'.
Qed.

(** C12: [Index::erase] returns and removes exactly the entries with one of
    the ids, from every segment that holds them; the callback is not called,
    so segments published before keep them. *)
Theorem erase_deletes s n ids :
  n ≤ length ids → idx_inv V low s →
  ∃ s', runs (erase n ids) s () s' ∧ idx_inv V (low + Z.of_nat n) s' ∧ apart s s' ∧
    st_log s' = st_log s ∧ (draws_distinct s → content s' = filter (λ e, e.1 ∉ take n ids) (content s)).
Proof.
  intros Hn Hi. destruct (erase_spec V n ids Hn low s Hi) as (s' & ? & ? & ? & _ & ? & ?).
  by exists s'.
Qed.


End calls.

Lemma merge_preserves_witness :
  ∃ s', runs (merge 200) demo_full () s' ∧ idx_inv any 0 s' ∧ content s' ≡ₚ content demo_full ∧
    st_log demo_full `prefix_of` st_log s'.
Proof. apply (merge_preserves any 0 200 demo_full); [exact demo_full_inv|lia]. Defined.

Lemma merge_keeps_visible_witness :
  draws_distinct (after (merge 200) demo_full) ∧
  ∃ s', runs (merge 200) demo_full () s' ∧
    (draws_distinct s' → ∀ e, e ∈ content demo_full ↔
      ∃ l, l ∈ visited s' ∧ e ∈ entries_at (heap (st_proc s')) l).
Proof.
  split; [apply (bool_decide_unpack _); vm_compute; exact I|].
  apply (merge_keeps_visible any 0 200 demo_full); [exact demo_full_inv|lia].
Defined.

Lemma add_inserts_witness :
  ∃ s', runs (add 4 four four_vecs) (demo true) () s' ∧ idx_inv any 0 s' ∧
    content s' ≡ₚ content (demo true) ++ batch_of 1 4 four four_vecs ∧ apart (demo true) s'.
Proof.
  apply (add_inserts any 0 (demo true) 4 four four_vecs);
    [lia|apply (demo_inv true)|apply (demo_addable true)].
Defined.

Lemma erase_deletes_witness :
  draws_distinct demo_full ∧
  ∃ s', runs (erase 2 ["b"; "x"]) demo_full () s' ∧ idx_inv any (0 + Z.of_nat 2) s' ∧
    apart demo_full s' ∧ st_log s' = st_log demo_full ∧
    (draws_distinct demo_full →
      content s' = filter (λ e, e.1 ∉ take 2 ["b"; "x"]) (content demo_full)).
Proof.
  split; [apply (bool_decide_unpack _); vm_compute; exact I|].
  exact (erase_deletes any 0 demo_full 2 ["b"; "x"] (le_n 2) demo_full_inv).
Defined.


(** The first segment of [demo_full]. *)
Definition demo_seg : segment faiss_index :=
  default (Segment demo_args 0) (heap (st_proc demo_full) !! 0).


(** ** Where the code falls short *)

Section erase_segment.
Context `{SL : StdLib} {F : Faiss}.
Implicit Types s : st faiss_index.

(** C37: [Index::eraseSegment] tells whether a segment with the id is listed
    and removes nothing: the index is unchanged, and keeps serving the
    segment. *)
Theorem eraseSegment_removes_nothing s k :
  (∀ l, l ∈ segments_ (st_idx s) → is_Some (heap (st_proc s) !! l)) →
  ∃ found, runs (eraseSegment k) s found s ∧
    (found = true ↔ ∃ l sg, l ∈ segments_ (st_idx s) ∧ heap (st_proc s) !! l = Some sg ∧ getID sg = k).
Proof.
  intros Hl. destruct (find_segment_spec s k _ 0 Hl) as (p & Hp & Hfound).
  exists (match p with None => false | Some _ => true end). split.
  { unfold eraseSegment. do 2 run_one. apply runs_ret. }
  destruct p as [n|].
  - destruct Hfound as (l & sg & Hin%list_elem_of_lookup_2 & _ & Hsg & Hid & _). naive_solver.
  - split; [done|]. intros (l & sg & Hin & Hsg & Hid). by destruct (Hfound l sg Hin Hsg).
Qed.
End erase_segment.

Lemma eraseSegment_removes_nothing_witness :
  ∃ found, runs (eraseSegment 0) demo_full found demo_full ∧
    (found = true ↔ ∃ l sg, l ∈ segments_ (st_idx demo_full) ∧
      heap (st_proc demo_full) !! l = Some sg ∧ getID sg = 0%Z).
Proof.
  apply (eraseSegment_removes_nothing demo_full 0). intros l Hl.
  destruct (c_good _ _ (i_core _ _ _ demo_full_inv) l) as (sg & -> & _); [by right|by exists sg].
Defined.

(** [SegmentStorage::merge] leaves [segments_] out of step with the
      levels: the merged segment has its new id before the old one is looked
      up, so it is listed twice, and after a cascade of merges a segment that
      was absorbed, and is on no level any more, is still listed and searched. *)
Lemma merge_lists_stale_segments :
  (let s := after (merge 200) demo_full in
   level_locs (levels (st_idx s)) = [0] ∧ segments_ (st_idx s) = [0; 0]) ∧
  (let s := after (exec_all demo_ops) (demo true) in
   level_locs (levels (st_idx s)) = [0] ∧ segments_ (st_idx s) = [0; 0; 2; 0]).
Proof. split; split; vm_compute; reflexivity. Qed.

(** A [rand()] that repeats itself, which the standard allows. *)
Program Definition stdlib_stuck : StdLib := {|
  std_sort := @std_sort stdlib_ref;
  std_iter := @std_iter stdlib_ref;
  std_iter_set := @std_iter_set stdlib_ref;
  std_rand _ := 5%Z;
|}.
Next Obligation. exact (@std_sort_perm stdlib_ref). Qed.
Next Obligation. exact (@std_sort_sorted stdlib_ref). Qed.
Next Obligation. exact (@std_iter_perm stdlib_ref). Qed.
Next Obligation. exact (@std_iter_set_perm stdlib_ref). Qed.
Next Obligation. simpl. lia. Qed.

(** Four segments of 34 vectors, added in two calls. *)
Definition stuck_ids (from : nat) : list string := (λ n, pretty n) <$> seq from 68.
Definition stuck_vecs (from : nat) : list f32 := vec (Z.of_nat <$> seq from 68).
Definition stuck : st faiss_index :=
  let '(p, i) := @Index stdlib_stuck _ _ 1 34 true demo_args no_proc in
  after (@add stdlib_stuck _ _ 68 (stuck_ids 68) (stuck_vecs 68))
    (after (@add stdlib_stuck _ _ 68 (stuck_ids 0) (stuck_vecs 0)) (St p i [])).


(** No asynchronous call ever posts its job: before [StartExecutor]'s
    thread has made the context it throws, and afterwards it dereferences a
    promise that was never allocated; the executor is left as it was. *)
Lemma async_calls_fail e n ids vectors query k :
  let failure := match ctx_ e with
                 | None => Throw (RuntimeError "Execution was not started")
                 | Some _ => Undef NullDeref
                 end in
  async_add n ids vectors e = (e, failure) ∧ async_erase n ids e = (e, failure) ∧
  async_search query k e = (e, failure).
Proof. split_and!; apply async_fails. Qed.
