(* ===== verification/ConcurrencyCorrect.v ===== *)
(** * Correctness of concurrent calls (index/include/Index.h, app/include/utils/PrometheusExposer.h)

    What the locks of an index and of the exposer give their callers, for any
    number of threads and any interleaving, and interleaved runs. *)

From S2P Require Import Prelude Cxx Floats Locks BinaryIO Faiss FaissRef TopK IBaseIndex FaissIndex.
From S2P Require Import Segment IIndex Events Storage Index IndexSpec IndexRefinement Concurrency SegmentCorrect IndexCorrect.
From S2P Require Import Prometheus Counters.

Section concurrent.
Context `{SL : StdLib} {F : Faiss} {FL : FaissLaws F}.

End concurrent.

Section metrics.
Context {P : PromLib} {PL : PromLaws P}.

(** C23: counters count under concurrency. [IncrementCounter] lets go of the
    exposer's mutex twice when the family is not registered yet; still, however
    the critical sections of the calls of any number of threads interleave,
    the counter of every call that has returned reads what the increments made
    to it add up to, each once, in the order they were made, on top of what it
    stood at; and every call that is under way can return, for no section ever
    finds its family missing. *)
Theorem counters_exact (x : PrometheusExposer P) (y : mconf P) :
  counters_wf x → rtc m_step (m_started x) y →
  (∀ c l, c ∈ m_made y →
    (GetCounterValue (in_name c) l (m_exposer y)).2 = Some (added x (in_name c) l (m_made y))) ∧
  (∀ t c ph, m_calls y !! t = Some (c, ph) → ∃ r, critical ph c (m_exposer y) = Ok r) ∧
  ∃ y', rtc m_step y y' ∧ m_calls y' = ∅.
Proof.
  intros Hx Hr. pose proof (counting_steps x _ y (counting_start x Hx) Hr) as Hy. split_and!.
  - intros c l Hc. by rewrite (GetCounterValue_at _ _ _ (co_made _ _ Hy c Hc)), (co_sum _ _ Hy).
  - intros t c ph Ht. by eapply never_missing.
  - by eapply calls_finish.
Qed.
End metrics.

(** ** A run of an index

    Thread 1 adds three vectors; threads 2 and 3 search, step by step in turn,
    while thread 1 waits to erase one; thread 2 searches again. *)

#[local] Existing Instance stdlib_ref.

Definition demo_turns : list (choice (S:=st faiss_index) (R:=outcome (list string)) (O:=op)) :=
  [Enter 1 (op_call (OpAdd 3 ["a"; "b"; "c"] (vec [1; 2; 3]%Z)))] ++ replicate 19 (Go 1) ++
  [Enter 2 (op_call (OpSearch (vec [3]%Z) 2)); Go 2;
   Enter 3 (op_call (OpSearch (vec [1]%Z) 1)); Go 3; Go 2; Go 3; Go 2; Go 3; Go 2; Go 3; Go 3; Go 2] ++
  [Enter 1 (op_call (OpErase 1 ["c"]))] ++ replicate 7 (Go 1) ++
  [Enter 2 (op_call (OpSearch (vec [3]%Z) 1)); Go 2; Go 2].
Definition demo_calls : list op :=
  [OpAdd 3 ["a"; "b"; "c"] (vec [1; 2; 3]); OpSearch (vec [1]) 1; OpSearch (vec [3]) 2; OpErase 1 ["c"]]%Z.

Lemma demo_turns_steps x : schedule (started (demo true)) demo_turns = Some x → rtc istep (started (demo true)) x.
Proof.
  apply schedule_steps. intros t c Hin.
  assert (Forall (λ ch, ∀ t c, ch = Enter t c → index_call c) demo_turns) as Hall.
  { repeat first [apply Forall_app_2|apply Forall_replicate|apply Forall_cons_2|apply Forall_nil_2];
      intros t' c'; try done; intros [= _ <-]; apply op_call_ok; simpl; eauto. }
  rewrite Forall_forall in Hall. by apply (Hall _ Hin t c).
Qed.

(** What the run leaves: four calls returned, one is under way. *)
Lemma demo_turns_run : ∃ x, schedule (started (demo true)) demo_turns = Some x ∧ calls_of x = demo_calls.
Proof.
  assert (calls_of <$> schedule (started (demo true)) demo_turns = Some demo_calls) as Hc by (vm_compute; reflexivity).
  destruct (schedule (started (demo true)) demo_turns) as [x|]; [|done]. injection Hc as Hc. by exists x.
Qed.

Lemma demo_calls_legal : legal_all (T:=faiss_index) any (ib_shape (ib_make demo_args : faiss_index)) ∅ demo_calls.
Proof.
  assert (∀ q v, any v → not_nan (ib_metric_dist (T:=faiss_index)
    (sh_metric (ib_shape (ib_make demo_args : faiss_index))) q v)) as Hn by (intros q v; apply any_not_nan).
  unfold demo_calls, legal_all, legal.
  split; [split; [|split; [|split; [|split]]]|split; [|split; [|split; [|exact I]]]].
  - vm_compute. lia.
  - vm_compute. lia.
  - apply (bool_decide_unpack _). vm_compute. exact I.
  - intros x _. apply lookup_empty.
  - apply Forall_forall. intros; exact I.
  - split; [lia|]. split; [vm_compute; lia|apply Hn].
  - split; [lia|]. split; [vm_compute; lia|apply Hn].
  - vm_compute. lia.
Qed.


(** ** A run of the exposer

    Two threads count the first two requests: both find the family missing,
    both add it, and then both count. *)

#[local] Existing Instances prom_ref prom_ref_laws.

Definition request_count : incr := Incr "requests_count" (f64_of_Z 1) ∅.
Definition no_counters : PrometheusExposer prom_ref := PrometheusExposer_new (∅ : @reg prom_ref).
Definition two_calls : mconf prom_ref :=
  MConf no_counters (<[2 := (request_count, Looking)]> (<[1 := (request_count, Looking)]> ∅)) [].
Definition counted_twice : option (mconf prom_ref) := m_turns two_calls [1; 2; 1; 2; 2; 1].

Lemma no_counters_wf : counters_wf no_counters.
Proof. split; [intros name f|intros name name' f]; simpl; by rewrite lookup_empty. Qed.

Lemma two_calls_reached : rtc m_step (m_started no_counters) two_calls.
Proof.
  assert (fpos (in_value request_count)) as Hp by (apply f64_of_Z_pos; lia).
  pose proof (m_begin (m_started no_counters) 1 request_count eq_refl Hp) as H1.
  eapply rtc_l; [exact H1|]. eapply rtc_once. exact (m_begin (MConf no_counters (<[1 := (request_count, Looking)]> ∅) []) 2 request_count eq_refl Hp).
Qed.

Lemma counted_twice_made : m_made <$> counted_twice = Some [request_count; request_count].
Proof. vm_compute. reflexivity. Qed.
Lemma added_twice : added no_counters "requests_count" ∅ [request_count; request_count] = f64_of_Z 2.
Proof. vm_compute. reflexivity. Qed.

Lemma counters_exact_witness :
  ∃ y, counted_twice = Some y ∧ m_made y = [request_count; request_count] ∧
    (GetCounterValue "requests_count" ∅ (m_exposer y)).2 = Some (f64_of_Z 2).
Proof.
  pose proof counted_twice_made as Hm. destruct counted_twice as [y|] eqn:Hy; [|discriminate Hm].
  injection Hm as Hm. exists y. split; [reflexivity|]. split; [exact Hm|].
  destruct (counters_exact no_counters y) as [Hr _].
  - exact no_counters_wf.
  - etrans; [exact two_calls_reached|]. exact (m_turns_steps _ _ _ Hy).
  - specialize (Hr request_count ∅). rewrite Hm in Hr. rewrite <-added_twice. apply Hr. apply list_elem_of_here.
Defined.
