(* ===== verification/ServiceCorrect.v ===== *)
(** * Correctness of the services' parts (app)

    The theorems about merging answers, statistics, metrics, the directory in
    etcd, the object store and the coordinator. *)

From Stdlib Require Import QArith Qcanon.
From S2P Require Import Prelude Cxx Floats BinaryIO StorageClient TopK IndexFactory Bootstrap Merging.
From S2P Require Import Stats EtcdClient Prometheus Coordinator.

(** ** Services for the runs *)

(** Times in whole units, enough to evaluate with. *)
Fixpoint read_digits (s : string) (acc : Z) : Z :=
  match s with
  | EmptyString => acc
  | String c s =>
    let d := (Z.of_N (Ascii.N_of_ascii c) - 48)%Z in
    if ((0 <=? d) && (d <? 10))%Z then read_digits s (acc * 10 + d) else acc
  end.
Definition text_ref : DoubleText := {|
  to_string_f64 x := pretty (default 0%Z (f64_trunc x)) +:+ ".000000";
  stod s := Ok (f64_of_Z (read_digits s 0));
|}.

#[export] Instance etcd_ref_up : EtcdUp etcd_ref.
Proof. by split; simpl. Qed.

(** Every host answers with its own address and "all"; a call takes one unit. *)
Definition grpc_ref : Grpc := {|
  net := list string;
  rpc_search n a _ := (n ++ [a], (Some [a; "all"], f64_of_Z 1));
|}.

#[local] Existing Instances stdlib_ref etcd_ref etcd_ref_laws text_ref grpc_ref prom_ref prom_ref_laws
  s3_ref s3_ref_laws.

(** ** Merging answers *)

Section merging.
Context `{SL : StdLib}.

(** C22: [MergeSearcherAnswers] is reciprocal rank fusion: it returns the
    documents of the answers, each once, by falling sum of 1/(61 + rank) over
    all places where they occur, and of all documents only those left out
    that score no better than any it returns. *)
Theorem merge_answers_rrf responses k :
  ∃ docs, MergeSearcherAnswers responses k = docs.*1 ∧ NoDup docs.*1 ∧
    length docs = k `min` length (documents responses) ∧
    Forall (λ p, rrf_score p.1 responses = Some p.2) docs ∧
    StronglySorted (λ p p', fle p'.2 p.2) docs ∧
    ∀ y t, rrf_score y responses = Some t → y ∉ docs.*1 → Forall (λ p, fle t p.2) docs.
Proof.
  destruct (merged_ranked responses k) as (docs & Hm & H1 & H2 & H3).
  pose proof (sorted_documents responses) as Hd.
  exists docs. split_and!; try done.
  - rewrite <-Hm. unfold MergeSearcherAnswers. eapply sublist_NoDup; [|apply sublist_take].
    rewrite Hd. apply NoDup_remove_dups.
  - rewrite <-(length_fmap fst docs), <-Hm. unfold MergeSearcherAnswers.
    by rewrite length_take, Hd.
Qed.
End merging.

(** ** Statistics *)

(** C24: the running average of [n] successful requests is their total time
    divided by [n + 1], not by [n]: without rounding, the first average is half
    of the first time. *)
Theorem stats_average (rs : list Qc) :
  (Z.of_nat (length rs) < 2 ^ 63)%Z →
  (GetAverageResponseTime
     (foldl (observe (N:=num_Qc)) (@StatsManager_new num_Qc) ((λ t, (t, false)) <$> rs)) *
   Qc_of_Z (Z.of_nat (length rs) + 1) = total rs)%Qc.
Proof.
  intros Hlen. pose proof (observe_average rs (@StatsManager_new num_Qc) 0%Qc) as H.
  rewrite Qcplus_0_l in H. apply H; [done|done|]. apply Qcmult_0_l.
Qed.

Lemma stats_average_witness :
  (GetAverageResponseTime
     (foldl (observe (N:=num_Qc)) (@StatsManager_new num_Qc)
        ((λ t, (t, false)) <$> [Qc_of_Z 4; Qc_of_Z 8])) *
   Qc_of_Z (Z.of_nat (length [Qc_of_Z 4; Qc_of_Z 8]) + 1) = total [Qc_of_Z 4; Qc_of_Z 8])%Qc.
Proof. apply (stats_average [Qc_of_Z 4; Qc_of_Z 8]). reflexivity. Defined.

(** ** The directory in etcd *)

Section directory.
Context {E : Etcd} {EL : EtcdLaws E} {DT : DoubleText}.
Implicit Types e : kv.

(** A call returns with the directory [D], or reports an error. *)
Definition achieves (m : M kv ()) e (D : directory) : Prop :=
  (∃ e', runs m e () e' ∧ dir_rep (etcd_view e') D) ∨ ∃ e', m e = (e', Throw StdException).

Lemma achieves_element (m : M kv ()) e D :
  (∃ k v, m = AddElement k v) ∨ (∃ k, m = RemoveElement k) →
  (∀ e', runs m e () e' → dir_rep (etcd_view e') D) → achieves m e D.
Proof.
  intros [(k & v & ->)|(k & ->)] Hr.
  - destruct (etcd_set e k v) as [e' ok] eqn:Ee. assert (AddElement k v e = (e', if ok then Ok () else Throw StdException)) as Hm
      by (unfold AddElement; by rewrite Ee).
    destruct ok; [left; exists e'; eauto|right; by exists e'].
  - destruct (etcd_rm e k) as [e' ok] eqn:Ee. assert (RemoveElement k e = (e', if ok then Ok () else Throw StdException)) as Hm
      by (unfold RemoveElement; by rewrite Ee).
    destruct ok; [left; exists e'; eauto|right; by exists e'].
Qed.

(** C25: the keys in etcd implement a set of (index, shard, address) triples
    and a table of times: for ids without a slash, adding a host, removing
    one and publishing a time change exactly that entry, or throw. *)
Theorem directory_updates i sh a t e D :
  slash_free i = true → slash_free sh = true → dir_rep (etcd_view e) D →
  achieves (AddSearcherHost i sh a) e (Directory ({[(i, sh, a)]} ∪ dir_hosts D) (dir_times D)) ∧
  achieves (RemoveSearcherHost i sh a) e (Directory (dir_hosts D ∖ {[(i, sh, a)]}) (dir_times D)) ∧
  achieves (UpdateAverageResponseTime i sh t) e
    (Directory (dir_hosts D) (<[(i, sh) := to_string_f64 t]> (dir_times D))).
Proof.
  intros Hi Hs HD. split_and!; apply achieves_element.
  - left. by eexists _, _.
  - intros e' Hr. by eapply AddSearcherHost_runs.
  - right. by eexists _.
  - intros e' Hr. by eapply RemoveSearcherHost_runs.
  - left. by eexists _, _.
  - intros e' Hr. by eapply UpdateAverageResponseTime_runs.
Qed.

(** C26: [ListSearcherHosts] for a shard gives the addresses registered for
    it, each once, and nothing of another shard or index whose id starts alike;
    [ListShardIds] gives, in order and each once, the shards of the index that
    have a host or a published time, so a shard whose hosts are all gone stays
    listed once a time was published for it. *)
Theorem directory_listings i sh e D {EU : EtcdUp E} :
  slash_free i = true → slash_free sh = true → dir_rep (etcd_view e) D →
  (∃ l, runs (ListSearcherHosts i (Some sh)) e l e ∧ NoDup l ∧
    ∀ a, a ∈ l ↔ (i, sh, a) ∈ dir_hosts D) ∧
  (∃ l, runs (ListShardIds i) e l e ∧ StronglySorted str_lt l ∧
    ∀ x, x ∈ l ↔ (∃ a, (i, x, a) ∈ dir_hosts D) ∨ is_Some (dir_times D !! (i, x))).
Proof.
  intros Hi Hs HD. split.
  - destruct (up_ls e ((i +:+ "/searchers") +:+ "/" +:+ sh +:+ "/hosts")) as [kvs Hkvs].
    assert (runs (ListSearcherHosts i (Some sh)) e kvs.*2 e) as Hr
      by (unfold runs, ListSearcherHosts, GetAllValues; by rewrite Hkvs).
    exists kvs.*2. split; [done|].
    by destruct (ListSearcherHosts_runs i sh Hi Hs _ _ _ D HD Hr) as (_ & ? & ?).
  - destruct (up_keys e (i +:+ "/searchers")) as [ks Hks]. by apply (ListShardIds_runs i Hi e ks D).
Qed.
End directory.

(** Two hosts and one published time, put there by the client. *)
Definition demo_fill : M kv () :=
  AddSearcherHost "docs" "s1" "h1:80";;
  AddSearcherHost "docs" "s0" "h0:80";;
  UpdateAverageResponseTime "docs" "s0" (f64_of_Z 3);;
  UpdateAverageResponseTime "docs" "s1" (f64_of_Z 2).
Definition demo_kv : kv := (demo_fill ∅).1.
Definition demo_dir : directory :=
  Directory ({[("docs", "s0", "h0:80")]} ∪ ({[("docs", "s1", "h1:80")]} ∪ ∅))
    (<[("docs", "s1") := to_string_f64 (f64_of_Z 2)]>
      (<[("docs", "s0") := to_string_f64 (f64_of_Z 3)]> ∅)).

Lemma empty_rep : dir_rep (∅ : gmap string string) (Directory ∅ ∅).
Proof.
  split; simpl.
  - intros k w. rewrite lookup_empty. split; [done|].
    intros [(i & s & a & Hin & _)|(i & s & Hin & _)]; [set_solver|by rewrite lookup_empty in Hin].
  - set_solver.
  - intros i s. rewrite lookup_empty. by intros [].
Qed.

Lemma demo_rep : dir_rep (etcd_view demo_kv) demo_dir.
Proof.
  assert (runs demo_fill (∅ : @kv etcd_ref) () demo_kv) as Hr by reflexivity.
  apply runs_bind_inv in Hr as ([] & e1 & H1 & Hr).
  apply runs_bind_inv in Hr as ([] & e2 & H2 & Hr).
  apply runs_bind_inv in Hr as ([] & e3 & H3 & H4).
  pose proof empty_rep as HD.
  eapply AddSearcherHost_runs in H1; [|reflexivity..|exact HD].
  eapply AddSearcherHost_runs in H2; [|reflexivity..|exact H1].
  eapply UpdateAverageResponseTime_runs in H3; [|reflexivity..|exact H2].
  eapply UpdateAverageResponseTime_runs in H4; [|reflexivity..|exact H3]. exact H4.
Qed.

Lemma directory_updates_witness :
  achieves (AddSearcherHost "docs" "s0" "h2:80") demo_kv
    (Directory ({[("docs", "s0", "h2:80")]} ∪ dir_hosts demo_dir) (dir_times demo_dir)) ∧
  achieves (RemoveSearcherHost "docs" "s0" "h2:80") demo_kv
    (Directory (dir_hosts demo_dir ∖ {[("docs", "s0", "h2:80")]}) (dir_times demo_dir)) ∧
  achieves (UpdateAverageResponseTime "docs" "s0" (f64_of_Z 7)) demo_kv
    (Directory (dir_hosts demo_dir)
       (<[("docs", "s0") := to_string_f64 (f64_of_Z 7)]> (dir_times demo_dir))).
Proof.
  apply (directory_updates "docs" "s0" "h2:80" (f64_of_Z 7) demo_kv demo_dir);
    [reflexivity|reflexivity|exact demo_rep].
Defined.

Lemma directory_listings_witness :
  (∃ l, runs (ListSearcherHosts "docs" (Some "s0")) demo_kv l demo_kv ∧ NoDup l ∧
    ∀ a, a ∈ l ↔ ("docs", "s0", a) ∈ dir_hosts demo_dir) ∧
  (∃ l, runs (ListShardIds "docs") demo_kv l demo_kv ∧ StronglySorted str_lt l ∧
    ∀ x, x ∈ l ↔ (∃ a, ("docs", x, a) ∈ dir_hosts demo_dir) ∨
      is_Some (dir_times demo_dir !! ("docs", x))).
Proof.
  apply (directory_listings "docs" "s0" demo_kv demo_dir); [reflexivity|reflexivity|exact demo_rep].
Defined.

(** ** Metrics *)

(** A gauge reads what it was set to last, for the labels it was set
    with, and no gauge of another name changes; but once any labels of a family
    were set, a read of labels that never were gives zero instead of nothing. *)
Theorem gauge_reads_last_set {P : PromLib} {PL : PromLaws P} (x : PrometheusExposer P) name v l l' name' :
  exposer_wf x → name' ≠ name →
  let x' := SetGauge name v l x in
  exposer_wf x' ∧ (GetGaugeValue name l x').2 = Some v ∧
  (GetGaugeValue name' l' x').2 = (GetGaugeValue name' l' x).2 ∧
  is_Some (GetGaugeValue name l' x').2.
Proof.
  intros Hwf Hne. destruct (SetGauge_reading x name v l Hwf) as (Hwf' & Hv & Ho).
  pose proof (λ x n l, proj1 (GetGaugeValue_reading x n l)) as Hr. simpl.
  rewrite !Hr. split_and!; [done|done|by apply Ho|].
  unfold reading in Hv |- *. destruct (gauge_families (SetGauge name v l x) !! name); [by eexists|done].
Qed.

Definition no_metrics : PrometheusExposer prom_ref := PrometheusExposer_new ∅.

Lemma gauge_reads_last_set_witness :
  let x' := SetGauge "vectors_count" (f64_of_Z 4) ∅ no_metrics in
  exposer_wf x' ∧ (GetGaugeValue "vectors_count" ∅ x').2 = Some (f64_of_Z 4) ∧
  (GetGaugeValue "errors_count" ∅ x').2 = (GetGaugeValue "errors_count" ∅ no_metrics).2 ∧
  is_Some (GetGaugeValue "vectors_count" ∅ x').2.
Proof.
  apply (gauge_reads_last_set no_metrics "vectors_count" (f64_of_Z 4) ∅ ∅ "errors_count").
  - split; intros name *; simpl; rewrite lookup_empty; discriminate.
  - discriminate.
Defined.

(** ** The object store *)

(** What [putObject] uploaded from a file [getObject] downloads into one
    of the same name, and a put of another object in the bucket does not
    change it. *)
Theorem objects_roundtrip {S : S3} {SLW : S3Laws S} b k k' s1 s2 s3 s4 :
  k' ≠ k → runs (putObject b k) s1 true s2 → runs (putObject b k') s2 true s3 →
  runs (getObject b k) s3 true s4 →
  is_Some (st_dir s1 !! k) ∧ st_dir s4 = st_dir s1.
Proof.
  intros Hne (f & Hf & _ & Hd2 & Ho2)%putObject_ok (f' & _ & _ & Hd3 & Ho3)%putObject_ok
    (g & Hg & ->)%getObject_ok.
  rewrite Ho3, lookup_insert_ne, Ho2, lookup_insert_eq in Hg by congruence. injection Hg as <-.
  split; [by eexists|]. simpl. rewrite Hd3, Hd2. by apply insert_id.
Qed.

Definition demo_storage : storage s3_ref :=
  Storage (∅ : @s3 s3_ref) true (<["1" := ["a"%char]]> (<["2" := ["b"%char]]> ∅)).

Lemma objects_roundtrip_witness :
  let s2 := (putObject "docs" "1" demo_storage).1 in
  let s3 := (putObject "docs" "2" s2).1 in
  let s4 := (getObject "docs" "1" s3).1 in
  is_Some (st_dir demo_storage !! "1") ∧ st_dir s4 = st_dir demo_storage.
Proof.
  apply (objects_roundtrip "docs" "1" "2" demo_storage (putObject "docs" "1" demo_storage).1
    (putObject "docs" "2" (putObject "docs" "1" demo_storage).1).1).
  - discriminate.
  - reflexivity.
  - reflexivity.
  - reflexivity.
Defined.

(** ** The coordinator *)

Section coordinator.
Context `{SL : StdLib} {E : Etcd} {EL : EtcdLaws E} {EU : EtcdUp E} {DT : DoubleText} {P : PromLib} {G : Grpc}.
Implicit Types s : coordinator E P G.

(** C27: a search request is answered with the fusion of the answers of the
    hosts on record for the index, asked one after the other: those of the
    requested shards (one shard, or all etcd lists) are brought up to date
    first, those of other shards are asked as they were last seen. Hosts that
    fail are left out and never fail the request. *)
Theorem coordinator_answers rq i s D :
  slash_free i = true → rq_index_id rq = i →
  (∀ sh, rq_shard_id rq = Some sh → slash_free sh = true) →
  dir_rep (etcd_view (co_etcd s)) D →
  ∃ s' (m : gmap string (list string)),
    runs (ProcessSearchRequest rq) s
      (MergeSearcherAnswers (poll (co_net s) rq (std_iter m ≫= snd)).2
         (Z.to_nat (u64 (rq_k rq)))) s' ∧
    cached i s' = m ∧ (∀ sh, requested i D rq sh → lists i D m sh) ∧
    (∀ sh, ¬ requested i D rq sh → m !! sh = cached i s !! sh).
Proof. intros Hi Hrq Hsh HD. by apply ProcessSearchRequest_runs. Qed.
End coordinator.

Definition demo_coordinator : coordinator etcd_ref prom_ref grpc_ref :=
  Coord ∅ ∅ demo_kv no_metrics [].
Definition demo_search : SearchRequest := SearchReq [f32_of_Z 1] 3 "docs" None.

Lemma coordinator_answers_witness :
  ∃ s' (m : gmap string (list string)),
    runs (ProcessSearchRequest demo_search) demo_coordinator
      (MergeSearcherAnswers (poll (co_net demo_coordinator) demo_search (std_iter m ≫= snd)).2
         (Z.to_nat (u64 (rq_k demo_search)))) s' ∧
    cached "docs" s' = m ∧ (∀ sh, requested "docs" demo_dir demo_search sh → lists "docs" demo_dir m sh) ∧
    (∀ sh, ¬ requested "docs" demo_dir demo_search sh → m !! sh = cached "docs" demo_coordinator !! sh).
Proof.
  apply (coordinator_answers demo_search "docs" demo_coordinator demo_dir).
  - reflexivity.
  - reflexivity.
  - discriminate.
  - exact demo_rep.
Defined.

(** ** Starting a node *)

Section start.
Context {A : ArgParse} {J : Json} {JD : JsonDoc J} {JL : JsonDocLaws J JD} {St : Type}.
Context (searcher_run writer_run coordinator_run : json → M St ()).

End start.

(** Options as "--name=value" words would give them: here, one that sets the
    mode and leaves the rest to the file. *)
Definition argparse_ref : ArgParse := {|
  parse_args argv := match argv with
                     | [] => None
                     | m :: _ => Some (λ o, if decide (o = "mode") then m else "")
                     end;
|}.
#[local] Existing Instances argparse_ref json_ref json_doc_ref.

Definition writer_only : string → string := λ o, if decide (o = "mode") then "writer" else "".

