(* ===== verification/NodeCorrect.v ===== *)
(** * Correctness of the writer (app/src/Writer.cpp)

    What a writer does with a request and with the tasks its indexes post. *)

From S2P Require Import Prelude Cxx Floats BinaryIO StorageClient Faiss FaissRef TopK IBaseIndex.
From S2P Require Import FaissIndex Segment IIndex Events Storage Index IndexSpec IndexFactory Merging Stats.
From S2P Require Import EtcdClient Prometheus Coordinator Searcher SearcherSpec Writer WriterSpec SegmentCorrect IndexCorrect.
From S2P Require Import Publication Cluster ServiceCorrect.

(** ** Writers *)

Section writers.
Context `{SL : StdLib} {E : Etcd} {EL : EtcdLaws E} {EU : EtcdUp E} {DT : DoubleText} {P : PromLib}
  {PL : PromLaws P} {S3 : S3} {S3L : S3Laws S3} {S3U : S3Up S3} {J : Json} {U : GrpcUpdate}
  {F : Faiss} {FL : FaissLaws F}.
Abbreviation wstate := (writer E P S3 J U faiss_index).
Implicit Types w : wstate.

(** C29: [updateIndexesState] returns, and for every index configured the
    writer then has an index object for exactly the shards etcd lists: those
    it had keep their contents, new ones are created, ones no longer listed
    are dropped, and an index without shards is forgotten; other indexes are
    untouched. *)
Theorem writer_follows_etcd w D :
  map_Forall (λ i cfg, config_ok (i, cfg)) (indexes_create_agrs w) →
  dir_rep (etcd_view (wr_etcd w)) D → s3Client (wr_storage w) = true →
  ∃ w', runs updateIndexesState w () w' ∧
    (∀ i, is_Some (indexes_create_agrs w !! i) →
      (∀ x, is_Some (shard i x w') ↔ listed D i x) ∧
      (∀ x idx, shard i x w = Some idx → listed D i x → shard i x w' = Some idx) ∧
      ((∀ x, ¬ listed D i x) → wr_shards w' !! i = None)) ∧
    (∀ i, indexes_create_agrs w !! i = None → wr_shards w' !! i = wr_shards w !! i) ∧
    wr_etcd w' = wr_etcd w ∧ callback_runner w' = callback_runner w.
Proof.
  intros Hc HD Hs. destruct (updateIndexesState_runs w D Hc HD Hs) as (w' & ? & ? & ? & ? & _ & ?).
  by exists w'.
Qed.

(** C30: [chooseShard] returns a shard of the index whose published response
    time is least of all its shards', and changes nothing. *)
Theorem chooseShard_fastest i w m :
  wr_shards w !! i = Some m → m ≠ ∅ →
  (∀ x, is_Some (m !! x) → ∃ t, published i x (wr_etcd w) t) →
  ∃ x t, runs (chooseShard i) w x w ∧ is_Some (m !! x) ∧ published i x (wr_etcd w) t ∧
    ∀ y t', is_Some (m !! y) → published i y (wr_etcd w) t' → fle t t'.
Proof. apply chooseShard_runs. Qed.

(** C31: a task returns when etcd, S3 and the searchers answer. Then the
    object of every segment handed to the callback is its serialization under
    the id it has now, the objects of the merged segments are gone, no other
    object changed, and each searcher of the shard was sent one update naming
    both. *)
Theorem task_delivers t sgs w D :
  slash_free (tk_index t) = true → slash_free (tk_shard t) = true →
  dir_rep (etcd_view (wr_etcd w)) D → s3Client (wr_storage w) = true →
  held w (tk_segs t) sgs → NoDup (getID <$> sgs) →
  Forall (λ k, 0 ≤ k)%Z ((getID <$> sgs) ++ tk_ids t) →
  (∀ sg, sg ∈ sgs → getID sg ∉ tk_ids t) →
  (∀ n h rq, (tk_index t, tk_shard t, h) ∈ dir_hosts D → (rpc_update n h rq).2 = true) →
  ∃ w' hosts, runs (run_task t) w () w' ∧ delivered t sgs hosts w w' ∧ NoDup hosts ∧
    ∀ h, h ∈ hosts ↔ (tk_index t, tk_shard t, h) ∈ dir_hosts D.
Proof. apply run_task_runs. Qed.

End writers.

Section requests.
Context `{SL : StdLib} {E : Etcd} {DT : DoubleText} {P : PromLib} {PL : PromLaws P} {S3 : S3} {J : Json}
  {U : GrpcUpdate} {F : Faiss} {FL : FaissLaws F}.
Implicit Types w : writer E P S3 J U faiss_index.


End requests.

(** ** Runs

    One searcher and one writer of the index "docs", on the reference
    implementations of the services. *)

#[local] Existing Instances stdlib_ref etcd_ref etcd_ref_laws text_ref grpc_ref prom_ref prom_ref_laws
  s3_ref s3_ref_laws json_ref.

#[export] Instance s3_ref_up : S3Up s3_ref.
Proof. by split; simpl. Qed.
#[export] Instance etcd_ref_removes : EtcdRemoves etcd_ref.
Proof. intros m k Hk. by apply bool_decide_eq_true_2. Qed.

Definition demo_shape : shape := ib_shape (ib_make demo_args : faiss_index).
(** A segment ready to be published, and the store it is in. *)
Definition demo_segment : segment faiss_index := two_segment demo_args 42.
Definition demo_objects : gmap (string * string) file :=
  <[(makeBucketName "docs", to_string_u64 42) := SerializeSegment [] demo_segment]> ∅.
Definition searcher_of (s : st faiss_index) : searcher etcd_ref prom_ref s3_ref faiss_index :=
  Sr "h0" "80" (<["docs" := <["s0" := st_idx s]> ∅]> ∅) (st_proc s) demo_kv
    (Storage (demo_objects : @s3 s3_ref) true ∅) no_metrics.
Definition demo_searcher : searcher etcd_ref prom_ref s3_ref faiss_index := searcher_of (demo false).

Lemma demo_segment_fits :
  segment_ok demo_segment ∧ seg_good any demo_shape (received demo_segment) ∧
  (seg_size (received demo_segment) ≤ 2 ^ 62)%Z.
Proof.
  destruct (with_two_ok demo_args eq_refl) as (Hwf & Ht & Hsh & _). split_and!.
  - apply two_segment_ok; [reflexivity|split; [lia|reflexivity]].
  - destruct (ib_retype_spec IndexFlat (with_two demo_args)) as (Rw & Rt & _ & _ & _ & _ & Rs & _).
    split_and!; [by apply Rw|by apply Rt| |reflexivity|done].
    unfold seg_shape, received. cbn [seg_index]. transitivity (fi_shape (with_two demo_args)); [|exact Hsh].
    rewrite Hsh. reflexivity.
  - apply Z.leb_le. vm_compute. reflexivity.
Qed.

(** A configuration of a searcher with two shards. *)
Definition shard_doc (x : string) : jval :=
  JObj [("index_id", JStr "docs"); ("shard_id", JStr x); ("type", JStr "faissFlat"); ("library", JStr "faiss");
        ("dim", JInt 1); ("threshold", JInt 2); ("metric", JStr "L2"); ("enable_merge", JBool true)].
Definition shard_docs : jval := JArr [shard_doc "s0"; shard_doc "s1"].
Definition shard_request : request := Request 1 2 true demo_args.
Definition doc_shards : list (string * string * request) :=
  [("docs", "s0", shard_request); ("docs", "s1", shard_request)].

Lemma shard_doc_describes x : describes (shard_doc x : @json json_ref) ("docs", x, shard_request).
Proof. split; [reflexivity..|vm_compute; reflexivity|simpl; lia]. Qed.

Definition demo_config : jval :=
  JObj [("id", JStr "docs"); ("type", JStr "faissFlat"); ("library", JStr "faiss"); ("dim", JInt 1);
        ("threshold", JInt 2); ("metric", JStr "L2"); ("enable_merge", JBool true)].
Definition demo_writer : writer etcd_ref prom_ref s3_ref json_ref mailbox faiss_index :=
  Wr (<["docs" := (demo_config : json)]> ∅) ∅ no_proc demo_kv (Storage (∅ : @s3 s3_ref) true ∅)
    no_metrics [] [].

Lemma demo_config_ok : map_Forall (λ i cfg, config_ok (i, cfg)) (indexes_create_agrs demo_writer).
Proof.
  apply map_Forall_insert_2; [|apply map_Forall_empty].
  split; [reflexivity|]. eexists. vm_compute. reflexivity.
Qed.

Lemma writer_follows_etcd_witness :
  ∃ w', runs updateIndexesState demo_writer () w' ∧
    (∀ i, is_Some (indexes_create_agrs demo_writer !! i) →
      (∀ x, is_Some (shard i x w') ↔ listed demo_dir i x) ∧
      (∀ x idx, shard i x demo_writer = Some idx → listed demo_dir i x → shard i x w' = Some idx) ∧
      ((∀ x, ¬ listed demo_dir i x) → wr_shards w' !! i = None)) ∧
    (∀ i, indexes_create_agrs demo_writer !! i = None → wr_shards w' !! i = wr_shards demo_writer !! i) ∧
    wr_etcd w' = wr_etcd demo_writer ∧ callback_runner w' = callback_runner demo_writer.
Proof.
  apply (writer_follows_etcd demo_writer demo_dir).
  - exact demo_config_ok.
  - exact demo_rep.
  - reflexivity.
Defined.

(** The same writer with shards on record. *)
Definition writer_with (m : gmap string index_state) (p : proc faiss_index) :
    writer etcd_ref prom_ref s3_ref json_ref mailbox faiss_index :=
  Wr (<["docs" := (demo_config : json)]> ∅) (<["docs" := m]> ∅) p demo_kv
    (Storage (∅ : @s3 s3_ref) true ∅) no_metrics [] [].
Definition new_index : index_state := set_callback (st_idx (demo true)) true.
Definition two_shards : gmap string index_state := <["s0" := new_index]> (<["s1" := new_index]> ∅).

(** Reading a time leaves etcd alone. *)
Lemma published_at i x e t :
  (GetSearcherAverageResponseTime i x e).2 = Ok t → not_nan t → published i x e t.
Proof.
  intros Ho Hn. split; [|done]. unfold runs. rewrite <-Ho.
  unfold GetSearcherAverageResponseTime, GetAllValues, mbind, M_bind. simpl.
  by destruct (filter _ _).*2.
Qed.

Lemma demo_published x : x = "s0" ∨ x = "s1" → ∃ t, published "docs" x demo_kv t.
Proof.
  intros [-> | ->]; [exists (f64_of_Z 3)|exists (f64_of_Z 2)]; apply published_at; vm_compute; reflexivity.
Qed.

Lemma chooseShard_fastest_witness :
  ∃ x t, runs (chooseShard "docs") (writer_with two_shards no_proc) x (writer_with two_shards no_proc) ∧
    is_Some (two_shards !! x) ∧ published "docs" x demo_kv t ∧
    ∀ y t', is_Some (two_shards !! y) → published "docs" y demo_kv t' → fle t t'.
Proof.
  apply (chooseShard_fastest "docs" (writer_with two_shards no_proc) two_shards).
  - reflexivity.
  - apply insert_non_empty.
  - unfold two_shards. intros x. rewrite !lookup_insert. repeat case_decide; [intros _..|by intros []].
    + apply demo_published. by left.
    + apply demo_published. by right.
Defined.

(** A task with one segment to publish and one to delete. *)
Definition demo_task : task := Task [7%Z] [0] "docs" "s0".
Definition busy_writer : writer etcd_ref prom_ref s3_ref json_ref mailbox faiss_index :=
  writer_with ∅ (Proc (<[0 := demo_segment]> ∅) 1 0).

Lemma busy_held : held busy_writer (tk_segs demo_task) [demo_segment].
Proof. constructor; [apply lookup_insert_eq|constructor]. Qed.
Lemma demo_task_ids :
  Forall (λ k, 0 ≤ k)%Z ((getID <$> [demo_segment]) ++ tk_ids demo_task) ∧
  ∀ sg, sg ∈ [demo_segment] → getID sg ∉ tk_ids demo_task.
Proof.
  split; [by repeat constructor|]. intros sg ->%list_elem_of_singleton.
  apply (bool_decide_unpack _). vm_compute. exact I.
Qed.

Lemma task_delivers_witness :
  ∃ w' hosts, runs (run_task demo_task) busy_writer () w' ∧
    delivered demo_task [demo_segment] hosts busy_writer w' ∧ NoDup hosts ∧
    ∀ h, h ∈ hosts ↔ ("docs", "s0", h) ∈ dir_hosts demo_dir.
Proof.
  apply (task_delivers demo_task [demo_segment] busy_writer demo_dir).
  - reflexivity.
  - reflexivity.
  - exact demo_rep.
  - reflexivity.
  - exact busy_held.
  - apply NoDup_singleton.
  - apply demo_task_ids.
  - apply demo_task_ids.
  - reflexivity.
Defined.

(** A writer with the one shard etcd lists. *)
Definition one_shard : writer etcd_ref prom_ref s3_ref json_ref mailbox faiss_index :=
  Wr (<["docs" := (demo_config : json)]> ∅) (<["docs" := <["s1" := st_idx (demo true)]> ∅]> ∅)
    (st_proc (demo true)) (AddSearcherHost "docs" "s1" "h1:80" (∅ : @kv etcd_ref)).1
    (Storage (∅ : @s3 s3_ref) true ∅) no_metrics [] [].
Definition one_ready : writer etcd_ref prom_ref s3_ref json_ref mailbox faiss_index :=
  (updateIndexesState (received_request one_shard)).1.
Definition one_chosen : writer etcd_ref prom_ref s3_ref json_ref mailbox faiss_index :=
  (chooseShard "docs" one_ready).1.

Lemma runs_fst {S A} (m : M S A) s a : (m s).2 = Ok a → runs m s a (m s).1.
Proof. unfold runs. destruct (m s) as [s' o]. by intros <-. Qed.

Lemma one_ready_runs : runs updateIndexesState (received_request one_shard) () one_ready.
Proof. apply runs_fst. vm_compute. reflexivity. Qed.
Lemma one_chosen_runs : runs (chooseShard "docs") one_ready "s1" one_chosen.
Proof. apply runs_fst. vm_compute. reflexivity. Qed.
Lemma one_ready_docs : is_Some (wr_shards one_ready !! "docs").
Proof. apply (bool_decide_unpack _). vm_compute. exact I. Qed.
Lemma one_chosen_shard : shard "docs" "s1" one_chosen = Some (st_idx (demo true)).
Proof. vm_cast_no_check (@eq_refl (option index_state) (Some (st_idx (demo true)))). Qed.
Lemma one_chosen_proc : wr_proc one_chosen = st_proc (demo true).
Proof. vm_cast_no_check (@eq_refl (proc faiss_index) (st_proc (demo true))). Qed.
Lemma one_chosen_gauges : exposer_wf (wr_prom one_chosen).
Proof.
  assert (gauge_families (wr_prom one_chosen) = ∅) as He.
  { apply map_size_empty_inv. vm_compute. reflexivity. }
  split; intros name *; rewrite He, lookup_empty; discriminate.
Qed.

Definition write_of (attributes : gmap string string) : WriteRequest := WriteReq (vec [5]%Z) "x" attributes.
Definition demo_write : WriteRequest := write_of (<["index-id" := "docs"]> ∅).

Lemma demo_write_addable :
  idx_inv any 0 (St (wr_proc one_chosen) (st_idx (demo true)) []) ∧
  addable any (St (wr_proc one_chosen) (st_idx (demo true)) []) 1 ["x"] (vec [5]%Z).
Proof.
  rewrite one_chosen_proc. destruct (demo_inv true) as [Hi Hc]. split; [exact Hi|].
  split; [vm_compute; lia|vm_compute; lia| |by apply Forall_forall].
  change (content _) with (content (demo true)). rewrite Hc. apply NoDup_singleton.
Qed.


