(* ===== verification/HandlersCorrect.v ===== *)
(** * Correctness of concurrent handlers (app/src/Searcher.cpp)

    What a searcher promises to callers whose requests it handles at the same
    time, and what it does not. *)

From S2P Require Import Prelude Cxx Floats Locks Rely BinaryIO StorageClient Faiss FaissRef TopK IBaseIndex FaissIndex.
From S2P Require Import Segment IIndex Events Storage Index IndexSpec IndexFactory Merging EtcdClient Prometheus Coordinator.
From S2P Require Import Searcher SearcherSpec Nodes Handlers SegmentCorrect IndexCorrect ServiceCorrect NodeCorrect.

Section handlers.
Context `{SL : StdLib} {E : Etcd} {DT : DoubleText} {PL : PromLib} {S3 : S3} {S3L : S3Laws S3}
  {F : Faiss} {FL : FaissLaws F}.
Abbreviation state := (searcher E PL S3 faiss_index).


(** C36: updates may not run beside each other. Every update downloads to a
    file of the searcher's working directory that is named by the id of the
    segment only, so two updates that name segments of the same id, of two
    indexes or shards, share it: each of them alone returns and leaves the
    shard with the segment, but when both are handled at the same time one can
    remove the file before the other opens it, which then reads from a null
    pointer. *)
Theorem updates_collide (V : list f32 → Prop) sh sh' i x j z S S' k sg sg' junk (s : state) :
  awaits V sh i x S [k] [sg] s → awaits V sh' j z S' [k] [sg'] s →
  let u := UpdateReq [k] [] i x in
  let u' := UpdateReq [k] [] j z in
  (∃ s1, runs (ProcessUpdateRequest junk u) s () s1 ∧ serves V sh i x s1 (union S (seg_entries sg))) ∧
  (∃ s2, runs (ProcessUpdateRequest junk u') s () s2 ∧ serves V sh' j z s2 (union S' (seg_entries sg'))) ∧
  ∃ s3 ts, rtc pool_step (s, handler_steps junk <$> {[0 := UpdateCall u; 1 := UpdateCall u']}) (s3, ts) ∧
    ts !! 0 = Some (Done (Ok [])) ∧ ts !! 1 = Some (Done (Undef NullDeref)).
Proof.
  intros Hs Hs'. split_and!.
  - destruct (brings_runs V junk k sh i x S sg s Hs) as (s1 & ? & ? & _). by exists s1.
  - destruct (brings_runs V junk k sh' j z S' sg' s Hs') as (s2 & ? & ? & _). by exists s2.
  - by eapply (updates_collide_at V junk k sh sh' i x j z).
Qed.
End handlers.

(** ** Runs *)

#[local] Existing Instances stdlib_ref etcd_ref etcd_ref_laws text_ref grpc_ref prom_ref prom_ref_laws
  s3_ref s3_ref_laws json_ref.

(** A searcher of a shard of each of two indexes, whose writers drew the same
    id for their first segments. *)
Definition two_indexes : searcher etcd_ref prom_ref s3_ref faiss_index :=
  let s := demo false in
  Sr "h0" "80" (<["docs" := <["s0" := st_idx s]> ∅]> (<["news" := <["s0" := st_idx s]> ∅]> ∅)) (st_proc s) demo_kv
    (Storage (<[(makeBucketName "news", to_string_u64 42) := SerializeSegment [] demo_segment]> demo_objects : @s3 s3_ref) true ∅)
    no_metrics.

Lemma demo_awaits i :
  i = "docs" ∨ i = "news" → awaits any demo_shape i "s0" [] [42%Z] [demo_segment] two_indexes.
Proof.
  intros Hi. split.
  - exists (demo false). split; [by destruct Hi as [-> | ->]|].
    apply (new_visible any demo_shape 1 2 false demo_args no_proc no_proc_alloc); [lia|done..].
  - exact (c_alloc _ _ (i_core _ _ _ (proj1 (demo_inv false)))).
  - constructor; [|constructor]. split; [|exact demo_segment_fits]. split; [done|]. by destruct Hi as [-> | ->].
  - apply consistent_one, (bool_decide_unpack _). vm_compute. exact I.
Qed.

Definition demo_update : UpdateRequest := UpdateReq [42%Z] [] "docs" "s0".
Definition demo_search : SearchRequest := SearchReq (vec [1]%Z) 2 "docs" (Some "s0").
Definition demo_calls : gmap nat searcher_call :=
  {[0 := UpdateCall demo_update; 1 := SearchCall demo_search; 2 := SearchCall demo_search]}.
(** One search before the segment is there and one after, the update not yet
    done. *)
Definition demo_schedule : list nat := [0; 0; 1; 0; 1; 0; 0; 2; 2].
Definition demo_pool : pool :=
  foldl (flip pool_go) (two_indexes, handler_steps 0 <$> demo_calls) demo_schedule.

Lemma demo_asks : asks any demo_shape "docs" "s0" demo_search.
Proof. split; [reflexivity|reflexivity|done|apply Nat.leb_le; reflexivity|]. intros v. apply any_not_nan. Qed.


Lemma updates_collide_witness :
  ∃ s3 ts, rtc pool_step (two_indexes, handler_steps 0 <$>
      {[0 := UpdateCall (UpdateReq [42%Z] [] "docs" "s0"); 1 := UpdateCall (UpdateReq [42%Z] [] "news" "s0")]}) (s3, ts) ∧
    ts !! 0 = Some (Done (Ok [])) ∧ ts !! 1 = Some (Done (Undef NullDeref)).
Proof.
  apply (updates_collide any demo_shape demo_shape "docs" "s0" "news" "s0" [] [] 42 demo_segment demo_segment 0 two_indexes).
  - apply demo_awaits. by left.
  - apply demo_awaits. by right.
Defined.
