(* ===== verification/ProgramCorrect.v ===== *)
(** * Correctness of the program as a whole (app/src/main.cpp, app/src/WriterClient.cpp)

    A searcher and a writer from [main] to the end of their processes, and a
    writer as its clients see it, with runs. *)

From S2P Require Import Prelude Cxx Floats BinaryIO StorageClient Faiss FaissRef TopK IBaseIndex FaissIndex Segment IIndex Index.
From S2P Require Import IndexFactory Bootstrap Merging Stats EtcdClient Prometheus Coordinator Searcher SearcherSpec Writer.
From S2P Require Import Events Storage IndexSpec WriterSpec Publication Clients Cluster Nodes ProgramSpec WriterLife.
From S2P Require Import SegmentCorrect IndexCorrect ServiceCorrect NodeCorrect.

Section program.
Context `{SL : StdLib} {E : Etcd} {EL : EtcdLaws E} {EU : EtcdUp E} {ER : EtcdRemoves E} {DT : DoubleText}
  {P : PromLib} {S3 : S3} {S3L : S3Laws S3} {J : Json} {JD : JsonDoc J} {U : GrpcUpdate} {G : Grpc} {AP : ArgParse}
  {F : Faiss} {FL : FaissLaws F} (V : list f32 → Prop) (listens : string → bool).
Implicit Types w : machine E P S3 U G.

(** C28: the program started as a searcher with different shards makes an empty
    index for each of them and registers its address in etcd for exactly these.
    When gRPC cannot listen on its port the
    process dereferences a null server and etcd keeps listing it. Otherwise,
    whatever searches and updates it serves, with their exceptions, once the
    server stops etcd lists it for none of its shards and everything else as
    before, and [main] throws. *)
Theorem searcher_program files argv config sc ps junk cs ts rqs w D :
  BootstrapConfig files argv = Ok (inl config) → config_string config "mode" = Ok "searcher" →
  node_config config = Ok sc → Forall2 describes (json_items (sc_indexes sc)) ps →
  NoDup ps.*1 → plain ps.*1 → dir_rep (etcd_view (mc_etcd w)) D →
  let a := sv_host (sc_server sc) +:+ ":" +:+ sv_port (sc_server sc) in
  let run := program (T:=faiss_index) listens junk cs ts rqs files argv w in
  (listens (InternalRun_address (sc_server sc)) = false →
    ∃ w' D', run = (w', Undef NullDeref) ∧ dir_rep (etcd_view (mc_etcd w')) D' ∧ dir_times D' = dir_times D ∧
      ∀ i x h, (i, x, h) ∈ dir_hosts D' ↔ (i, x, h) ∈ dir_hosts D ∨ h = a ∧ (i, x) ∈ ps.*1) ∧
  (listens (InternalRun_address (sc_server sc)) = true →
    ∃ s1, runs (SearcherImpl (sc_indexes sc)) (searcher_start (T:=faiss_index) sc w) () s1 ∧
      (∀ i x r, (i, x, r) ∈ ps → serves V (shape_of (T:=faiss_index) r) i x s1 []) ∧
    ∀ s2, runs (searcher_serve junk cs) s1 () s2 →
    ∃ w' D', run = (w', Throw (InvalidArgument "Invalid mode: searcher")) ∧
      dir_rep (etcd_view (mc_etcd w')) D' ∧ dir_times D' = dir_times D ∧
      ∀ i x h, (i, x, h) ∈ dir_hosts D' ↔ (i, x, h) ∈ dir_hosts D ∧ ¬ (h = a ∧ (i, x) ∈ ps.*1)).
Proof.
  intros Hb Hm Hc Hd Hnd Hpl HD a run.
  assert (allocated (searcher_start (T:=faiss_index) sc w)) as Hal by (intros l; simpl; rewrite lookup_empty; by intros []).
  destruct (searcher_life_runs V listens sc ps (searcher_start (T:=faiss_index) sc w) D
    (searcher_serve junk cs) Hd Hnd Hpl Hal eq_refl HD (λ s0, always_serve s0 junk cs)) as (s1 & H1 & Hsv & (D1 & HD1) & Hno & Hyes).
  assert (∀ s' o, searcher_life listens sc (searcher_serve junk cs) (searcher_start (T:=faiss_index) sc w) = (s', o) →
    Searcher_Run listens (searcher_serve junk cs) config w = (searcher_end s' w, o)) as Hrun.
  { intros s' o Hl. unfold Searcher_Run. rewrite Hc, liftO_Ok_bind. unfold zoom. by rewrite Hl. }
  split; intros Hl.
  - eexists _, D1. split; [exact (main_node _ _ _ _ _ _ _ _ _ _ _ Hb Hm ltac:(by left) (Hrun _ _ (Hno Hl)))|done].
  - exists s1. split_and!; [done..|]. intros s2 H2. destruct (Hyes Hl s2 H2) as (s3 & D3 & Hlife & HD3).
    eexists _, D3. split; [exact (main_node _ _ _ _ _ _ _ _ _ _ _ Hb Hm ltac:(by left) (Hrun _ _ Hlife))|done].
Qed.

(** C35: a searcher that the coordinator struck off etcd for an error of its
    shard does not shut down: its destructor fails to remove the key that is
    gone, throws, and the process is terminated. *)
Theorem struck_off_terminates {EM : EtcdMissing E} i x stats (s : searcher E P S3 faiss_index) (co : coordinator E P G) :
  (i, x) ∈ served s → (1 ≤ GetErrorsCount stats)%Z →
  ∃ co' s', runs (UpdateStateIfNeeded i x (address s) stats) co () co' ∧
    SearcherImpl_destroy (se_set_etcd (co_etcd co') s) = (s', Undef Terminate).
Proof.
  intros Hs He. destruct (strike_off i x (address s) stats co He) as (co' & Hr & Hno).
  destruct (destroy_terminates i x (se_set_etcd (co_etcd co') s) Hs Hno) as [s' Hd]. by exists co', s'.
Qed.
End program.

Section writer_program.
Context `{SL : StdLib} {E : Etcd} {EL : EtcdLaws E} {EU : EtcdUp E} {DT : DoubleText} {P : PromLib} {PL : PromLaws P}
  {S3 : S3} {S3L : S3Laws S3} {S3U : S3Up S3} {J : Json} {JD : JsonDoc J} {U : GrpcUpdate} {G : Grpc} {AP : ArgParse}
  {F : Faiss} {FL : FaissLaws F} (V : list f32 → Prop) (listens : string → bool).
Implicit Types mc : machine E P S3 U G.

(** C5: the program started as a writer, with etcd, S3 and the searchers
    answering, makes its shards and serves: whatever requests that add
    different new vectors and whatever tasks in between, every one of them
    returns, and when the server stops the destructor runs the tasks left and
    [main] throws. Every vector given for an index that etcd lists a shard of
    is then in an object of the index's bucket, or was in a segment that was
    still being filled, which is lost with the process. When gRPC cannot
    listen on its port the process dereferences a null server. *)
Theorem writer_program files argv config sc ps junk cs ts rqs mc D :
  BootstrapConfig files argv = Ok (inl config) → config_string config "mode" = Ok "writer" →
  node_config config = Ok sc → Forall2 names (json_items (sc_indexes sc)) ps →
  surroundings (U:=U) D (configs ps) → map_Forall (λ _, config_good) (configs ps) →
  dir_rep (etcd_view (mc_etcd mc)) D →
  let run := program (T:=faiss_index) listens junk cs ts rqs files argv mc in
  ∃ w1, runs (WriterImpl (sc_indexes sc)) (writer_start mc) () w1 ∧
    (listens (InternalRun_address (sc_server sc)) = false → ∃ mc', run = (mc', Undef NullDeref)) ∧
    (listens (InternalRun_address (sc_server sc)) = true →
      Forall (fitting V (configs ps)) (writes ts) → NoDup (wq_id <$> writes ts) →
      (Z.of_nat (length (writes ts)) ≤ 2 ^ 53)%Z → rand_distinct (wr_proc (writer_serve ts w1).1) →
      ∃ w2 mc', runs (writer_serve ts) w1 () w2 ∧
        run = (mc', Throw (InvalidArgument "Invalid mode: writer")) ∧ dir_rep (etcd_view (mc_etcd mc')) D ∧
        ∀ rq i x e, rq ∈ writes ts → wq_attributes rq !! "index-id" = Some i → listed D i x →
          e ∈ requested (configs ps) rq →
          (∃ y idx, shard i y w2 = Some idx ∧ e ∈ entries_at (heap (wr_proc w2)) (last_ idx)) ∨
          ∃ sg, s3_view (mc_objects mc') !! (makeBucketName i, to_string_u64 (getID sg)) = Some (SerializeSegment [] sg) ∧
            e ∈ seg_entries sg).
Proof.
  intros Hb Hm Hc Hn Hsu Hg HD run.
  destruct (writer_life_runs (T:=faiss_index) V D listens sc ps mc ts Hn Hsu Hg HD) as (w1 & H1 & Hno & Hyes).
  assert (∀ w' o, writer_life listens sc (writer_serve ts) (writer_start mc) = (w', o) →
    Writer_Run (T:=faiss_index) listens (writer_serve ts) config mc = (writer_end w' mc, o)) as Hrun.
  { intros w' o Hl. unfold Writer_Run. rewrite Hc, liftO_Ok_bind. unfold zoom. by rewrite Hl. }
  exists w1. split_and!; [done|intros Hl|intros Hl Hft Hnd Hlen Hd].
  - eexists. exact (main_node _ _ _ _ _ _ _ _ _ _ _ Hb Hm ltac:(by right; left) (Hrun _ _ (Hno Hl))).
  - destruct (Hyes Hl Hft Hnd Hlen Hd) as (w2 & w3 & H2 & Hlife & He & Hleft).
    exists w2, (writer_end w3 mc). split_and!; [done| |done|done].
    exact (main_node _ _ _ _ _ _ _ _ _ _ _ Hb Hm ltac:(by right; left) (Hrun _ _ Hlife)).
Qed.
End writer_program.

Section clients.
Context `{SL : StdLib} {E : Etcd} {EL : EtcdLaws E} {EU : EtcdUp E} {DT : DoubleText} {P : PromLib} {S3 : S3}
  {S3L : S3Laws S3} {S3U : S3Up S3} {J : Json} {U : GrpcUpdate} {F : Faiss} {FL : FaissLaws F}.
Implicit Types w : writer E P S3 J U faiss_index.
#[local] Existing Instance writer_server.

(** C34: a client of a writer gets an exception with code 3, INVALID_ARGUMENT,
    for exactly the write requests without an index id or with the id of an
    index the writer is not configured with or etcd lists no shard of. A write
    that is refused adds nothing: it posts no task and leaves the index of
    every shard that is still listed as it was. *)
Theorem client_write_refused rq w D :
  map_Forall (λ i cfg, config_ok (i, cfg)) (indexes_create_agrs w) →
  dir_rep (etcd_view (wr_etcd w)) D → s3Client (wr_storage w) = true →
  ((¬ ∃ i, wq_attributes rq !! "index-id" = Some i ∧ known D w i) →
    ∃ w', writeDocument rq w = (w', Throw (status_error CODE_INVALID_ARGUMENT)) ∧
      callback_runner w' = callback_runner w ∧
      ∀ i x idx, shard i x w = Some idx → (is_Some (indexes_create_agrs w !! i) → listed D i x) →
        shard i x w' = Some idx) ∧
  (∀ i, wq_attributes rq !! "index-id" = Some i → known D w i →
    (writeDocument rq w).2 ≠ Throw (status_error CODE_INVALID_ARGUMENT)).
Proof.
  intros Hc HD Hs. destruct (write_refused rq w D Hc HD Hs) as (w1 & _ & Hkeep & Hcb & Hno & Hyes). split.
  - intros H. destruct (Hno H) as [msg Hr]. exists w1. split_and!; [|done..].
    unfold writeDocument. simpl. by rewrite Hr.
  - intros i Ha Hk. unfold writeDocument. simpl. specialize (Hyes i).
    destruct (ProcessWriteRequest rq w) as [w' [[|msg]|e|u]]; try done. by destruct (Hyes msg).
Qed.
End clients.

(** ** Runs *)

#[local] Existing Instances stdlib_ref etcd_ref etcd_ref_laws text_ref grpc_ref prom_ref prom_ref_laws
  s3_ref s3_ref_laws json_ref mailbox.

#[export] Instance etcd_ref_missing : EtcdMissing etcd_ref.
Proof.
  intros m k Hk. change (m !! k = None) in Hk. simpl. rewrite delete_id by done. f_equal.
  apply bool_decide_eq_false_2. intros [v Hv]. pose proof (eq_trans (eq_sym Hv) Hk). done.
Qed.

(** Everything in one configuration file, but for the mode. *)
Definition node_doc : jval :=
  JObj [("mode", JStr ""); ("hostname", JStr "h2"); ("port", JStr "80"); ("s3-host", JStr "s3");
        ("etcd_address", JStr "etcd"); ("indexes", shard_docs)].
Definition index_doc : jval :=
  JObj [("id", JStr "docs"); ("type", JStr "faissFlat"); ("library", JStr "faiss");
        ("dim", JInt 1); ("threshold", JInt 2); ("metric", JStr "L2"); ("enable_merge", JBool true)].
Definition writer_doc : jval :=
  JObj [("mode", JStr ""); ("hostname", JStr "h3"); ("port", JStr "81"); ("s3-host", JStr "s3");
        ("etcd_address", JStr "etcd"); ("indexes", JArr [index_doc])].
Definition node_doc_parser : JsonDoc json_ref := {|
  json_null := JObj [] : @json json_ref;
  json_of_string := @json_of_string _ json_doc_ref;
  json_get := @json_get _ json_doc_ref;
  json_put := @json_put _ json_doc_ref;
  json_parse t := Ok ((if decide (t = "writer") then writer_doc else node_doc) : @json json_ref);
|}.
Definition mode_and_file : ArgParse := {|
  parse_args argv :=
    match argv with
    | [m; f] => Some (λ o, if decide (o = "mode") then m else if decide (o = "--config-path") then f else "")
    | _ => None
    end;
|}.
#[local] Existing Instances node_doc_parser mode_and_file.

Definition demo_files : gmap string string := <["config.json" := "{}"]> (<["writer.json" := "writer"]> ∅).
Definition demo_argv : list string := ["searcher"; "config.json"].
Definition demo_machine : machine etcd_ref prom_ref s3_ref mailbox grpc_ref :=
  Machine demo_kv (∅ : @s3 s3_ref) ∅ (registry no_metrics) [] [].
(** A search of a shard, one of an index there is none of, and one with a
    negative [k], which throws. *)
Definition demo_served : list searcher_call :=
  [SearchCall (SearchReq (vec [1]%Z) 2 "docs" (Some "s0")); SearchCall (SearchReq (vec [1]%Z) 2 "other" None);
   SearchCall (SearchReq (vec [1]%Z) (-1) "docs" (Some "s1"))].
Definition demo_sc : service_config := ServiceConfig (Server "h2" "80") "etcd" "s3" (shard_docs : @json json_ref).

Definition demo_run (listens : string → bool) : machine etcd_ref prom_ref s3_ref mailbox grpc_ref * outcome ending :=
  program (T:=faiss_index) listens 0 demo_served [] [] demo_files demo_argv demo_machine.

(** The searcher when it is up, and when it has served. *)
Definition demo_up : searcher etcd_ref prom_ref s3_ref faiss_index :=
  (SearcherImpl (sc_indexes demo_sc) (searcher_start demo_sc demo_machine)).1.
Definition demo_done : searcher etcd_ref prom_ref s3_ref faiss_index := (searcher_serve 0 demo_served demo_up).1.
Lemma demo_up_serves : runs (searcher_serve 0 demo_served) demo_up () demo_done.
Proof. apply runs_fst. vm_compute. reflexivity. Qed.

Lemma searcher_program_witness :
  (∃ w' D', demo_run (λ _, false) = (w', Undef NullDeref) ∧ dir_rep (etcd_view (mc_etcd w')) D' ∧
    (("docs", "s0", "h2:80") ∈ dir_hosts D')) ∧
  (∃ w' D', demo_run (λ _, true) = (w', Throw (InvalidArgument "Invalid mode: searcher")) ∧
    dir_rep (etcd_view (mc_etcd w')) D' ∧ dir_hosts D' = dir_hosts demo_dir).
Proof.
  assert (∃ config, BootstrapConfig demo_files demo_argv = Ok (inl config) ∧
    config_string config "mode" = Ok "searcher" ∧ node_config config = Ok demo_sc) as (config & Hb & Hm & Hc)
    by (eexists; split; [vm_compute; reflexivity|split; vm_compute; reflexivity]).
  pose proof (λ listens, searcher_program any listens demo_files demo_argv config demo_sc doc_shards 0 demo_served [] []
    demo_machine demo_dir Hb Hm Hc) as Hp.
  assert (Forall2 describes (json_items (sc_indexes demo_sc)) doc_shards) as Hd
    by (repeat constructor; apply shard_doc_describes).
  assert (NoDup doc_shards.*1) as Hnd by (apply (bool_decide_unpack _); vm_compute; exact I).
  assert (plain doc_shards.*1) as Hpl by (repeat constructor).
  split.
  - destruct (Hp (λ _, false) Hd Hnd Hpl demo_rep) as [H _]. destruct (H eq_refl) as (w' & D' & Hr & HD & _ & Hin).
    exists w', D'. split; [exact Hr|]. split; [exact HD|]. apply Hin. right. split; [reflexivity|]. by left.
  - destruct (Hp (λ _, true) Hd Hnd Hpl demo_rep) as [_ H]. destruct (H eq_refl) as (s1 & H1 & _ & Hend).
    assert (s1 = demo_up) as -> by (unfold demo_up; by rewrite H1).
    destruct (Hend demo_done demo_up_serves) as (w' & D' & Hr & HD & _ & Hin).
    exists w', D'. split; [exact Hr|]. split; [exact HD|]. apply set_eq. intros [[i x] h]. rewrite Hin.
    split; [by intros [? _]|]. intros Hi. split; [done|]. intros [-> _]. revert Hi. clear.
    simpl. set_solver.
Defined.

(** A writer of one index, given three vectors with a task in between. *)
Definition new_write (id : string) : WriteRequest := WriteReq (vec [1]%Z) id (<["index-id" := "docs"]> ∅).
Definition demo_turns : list writer_turn :=
  [WriteCall (new_write "x"); WriteCall (new_write "y"); NextTask; WriteCall (new_write "z")].
Definition writer_argv : list string := ["writer"; "writer.json"].
Definition writer_sc : service_config := ServiceConfig (Server "h3" "81") "etcd" "s3" (JArr [index_doc] : @json json_ref).
Definition demo_indexes : list (string * @json json_ref) := [("docs", (index_doc : @json json_ref))].
Definition demo_writer_up : writer etcd_ref prom_ref s3_ref json_ref mailbox faiss_index :=
  (WriterImpl (sc_indexes writer_sc) (writer_start demo_machine)).1.

Lemma index_doc_parses : parse_index (index_doc : @json json_ref) = Ok shard_request.
Proof. vm_compute. reflexivity. Qed.

Lemma demo_surroundings : surroundings (U:=mailbox) demo_dir (configs demo_indexes).
Proof.
  split.
  - apply map_Forall_insert_2; [|apply map_Forall_empty]. split; [reflexivity|]. exists shard_request. exact index_doc_parses.
  - intros i x v Hv. eexists. split; [reflexivity|]. revert Hv. cbn [demo_dir dir_times]. rewrite !lookup_insert.
    repeat case_decide; [intros [= <-]; vm_compute; reflexivity..|by rewrite lookup_empty].
  - done.
Qed.

Lemma demo_fitting id : fitting any (configs demo_indexes) (new_write id).
Proof.
  split; [reflexivity|]. intros i cfg r Hi Hc Hr. assert (i = "docs") as -> by (simpl in Hi; by simplify_map_eq).
  unfold configs in Hc. simpl in Hc. rewrite lookup_insert_eq in Hc. injection Hc as <-.
  rewrite index_doc_parses in Hr. injection Hr as <-. split; [simpl; lia|exact I].
Qed.

Lemma writer_program_witness :
  ∃ w2 mc', runs (writer_serve demo_turns) demo_writer_up () w2 ∧
    program (T:=faiss_index) (λ _, true) 0 [] demo_turns [] demo_files writer_argv demo_machine =
      (mc', Throw (InvalidArgument "Invalid mode: writer")) ∧
    ∀ rq e, rq ∈ writes demo_turns → e ∈ Publication.requested (configs demo_indexes) rq →
      (∃ y idx, shard "docs" y w2 = Some idx ∧ e ∈ entries_at (heap (wr_proc w2)) (last_ idx)) ∨
      ∃ sg, s3_view (mc_objects mc') !! (makeBucketName "docs", to_string_u64 (getID sg)) = Some (SerializeSegment [] sg) ∧
        e ∈ seg_entries sg.
Proof.
  assert (∃ config, BootstrapConfig demo_files writer_argv = Ok (inl config) ∧
    config_string config "mode" = Ok "writer" ∧ node_config config = Ok writer_sc) as (config & Hb & Hm & Hc)
    by (eexists; split; [vm_compute; reflexivity|split; vm_compute; reflexivity]).
  destruct (writer_program any (λ _, true) demo_files writer_argv config writer_sc demo_indexes 0 [] demo_turns []
    demo_machine demo_dir Hb Hm Hc) as (w1 & H1 & _ & Hend).
  - repeat constructor.
  - exact demo_surroundings.
  - apply map_Forall_insert_2; [|apply map_Forall_empty]. intros r Hr.
    pose proof (eq_trans (eq_sym index_doc_parses) Hr) as [= <-]. simpl. lia.
  - exact demo_rep.
  - assert (w1 = demo_writer_up) as -> by (unfold demo_writer_up; by rewrite H1).
    destruct Hend as (w2 & mc' & H2 & Hrun & _ & Hleft); [reflexivity| | | | |].
    + do 3 (apply Forall_cons; split; [apply demo_fitting|]). apply Forall_nil_2.
    + apply (bool_decide_unpack _). vm_compute. exact I.
    + simpl. lia.
    + apply (bool_decide_unpack _). vm_compute. exact I.
    + exists w2, mc'. split; [exact H2|]. split; [exact Hrun|]. intros rq e Hin He.
      apply (Hleft rq "docs" "s0" e Hin); [|left; exists "h0:80"; simpl; set_solver|exact He].
      revert Hin. simpl. rewrite !elem_of_cons, elem_of_nil. intros [->|[->|[->|[]]]]; reflexivity.
Defined.

Lemma struck_off_terminates_witness :
  ∃ co' s', runs (UpdateStateIfNeeded "docs" "s0" (address demo_searcher) (observe (N:=num_f64) StatsManager_new (f64_of_Z 1, true)))
      demo_coordinator () co' ∧
    SearcherImpl_destroy (se_set_etcd (co_etcd co') demo_searcher) = (s', Undef Terminate).
Proof.
  apply (struck_off_terminates "docs" "s0" (observe (N:=num_f64) StatsManager_new (f64_of_Z 1, true)) demo_searcher demo_coordinator).
  - apply elem_of_served. vm_compute. eauto.
  - vm_compute. discriminate.
Defined.

Definition nameless_write : WriteRequest := WriteReq (vec [1]%Z) "a" ∅.
Definition named_write : WriteRequest := WriteReq (vec [1]%Z) "a" (<["index-id" := "docs"]> ∅).

Lemma client_write_refused_witness :
  (∃ w', writeDocument (W:=writer_server) nameless_write demo_writer =
    (w', Throw (status_error CODE_INVALID_ARGUMENT))) ∧
  (writeDocument (W:=writer_server) named_write demo_writer).2 ≠ Throw (status_error CODE_INVALID_ARGUMENT).
Proof.
  split.
  - destruct (client_write_refused nameless_write demo_writer demo_dir demo_config_ok demo_rep eq_refl) as [H _].
    destruct H as (w' & Hw & _); [|by exists w']. by intros (i & Hi & _).
  - destruct (client_write_refused named_write demo_writer demo_dir demo_config_ok demo_rep eq_refl) as [_ H].
    apply (H "docs"); [reflexivity|]. exists "s0". left. exists "h0:80". simpl. set_solver.
Defined.
