(* ===== verification/PublicationCorrect.v ===== *)
(** * Correctness of publication (app/src/Writer.cpp)

    From its start, whatever legal requests and tasks a writer runs and in
    whatever order, nothing it sealed is lost on the way to the object store. *)

From S2P Require Import Prelude Cxx Floats BinaryIO StorageClient Faiss FaissRef TopK IBaseIndex.
From S2P Require Import FaissIndex Segment IIndex Events Storage Index IndexSpec IndexFactory Merging.
From S2P Require Import Stats EtcdClient Prometheus Coordinator Searcher Writer WriterSpec Publication Cluster.
From S2P Require Import SegmentCorrect IndexCorrect ServiceCorrect NodeCorrect.

Section publication.
Context `{SL : StdLib} {E : Etcd} {EL : EtcdLaws E} {EU : EtcdUp E} {DT : DoubleText} {P : PromLib}
  {S3 : S3} {S3L : S3Laws S3} {S3U : S3Up S3} {J : Json} {U : GrpcUpdate} {F : Faiss} {FL : FaissLaws F}.
Context (V : list f32 → Prop).
Implicit Types w : writer E P S3 J U faiss_index.


(** C4: the destructor of a writer returns when etcd, S3 and the searchers
    answer, after every task that was posted, and then every vector its shards
    hold is in the segment that is being filled or in an object of the index's
    bucket. *)
Theorem writer_publishes w w' D :
  starting w → rtc (legal_step V) w w' → rand_distinct (wr_proc w') →
  dir_rep (etcd_view (wr_etcd w')) D → reachable_hosts D w' →
  ∃ w'', runs WriterImpl_destroy w' () w'' ∧ callback_runner w'' = [] ∧ wr_shards w'' = wr_shards w' ∧
    ∀ i x idx e, shard i x w'' = Some idx → e ∈ content (St (wr_proc w') idx []) →
      e ∈ entries_at (heap (wr_proc w')) (last_ idx) ∨
      ∃ sg, stored_now w'' i sg ∧ e ∈ seg_entries sg.
Proof.
  intros Hs Hr Hd HD Hh.
  destruct (drain V w' D (reachable_ok V w w' Hs Hr) Hd HD Hh) as (w'' & Hr' & Hok & [Hq Hp Hsh _ _]).
  exists w''. split_and!; [done..|].
  intros i x idx e Hx He. rewrite <-Hp in Hd, He |- *. by apply (all_stored V w'' i x idx e).
Qed.
End publication.

(** ** A run

    A writer that learns of one shard, is given two vectors, which fill a
    segment, and has the task that publishes it to run. *)

#[local] Existing Instances stdlib_ref etcd_ref etcd_ref_laws text_ref grpc_ref prom_ref prom_ref_laws
  s3_ref s3_ref_laws json_ref mailbox.

Definition start_writer : writer etcd_ref prom_ref s3_ref json_ref mailbox faiss_index :=
  Wr (<["docs" := (demo_config : json)]> ∅) ∅ no_proc
    (AddSearcherHost "docs" "s1" "h1:80" (∅ : @kv etcd_ref)).1
    (Storage (∅ : @s3 s3_ref) true ∅) no_metrics [] [].
Definition write_id (id : string) : WriteRequest := WriteReq (vec [5]%Z) id (<["index-id" := "docs"]> ∅).
Definition wrote_one : writer etcd_ref prom_ref s3_ref json_ref mailbox faiss_index :=
  (ProcessWriteRequest (write_id "x") start_writer).1.
Definition wrote_two : writer etcd_ref prom_ref s3_ref json_ref mailbox faiss_index :=
  (ProcessWriteRequest (write_id "y") wrote_one).1.

(** [lacks], by looking through the maps. *)
Lemma lacks_check (w : writer etcd_ref prom_ref s3_ref json_ref mailbox faiss_index) id :
  map_Forall (λ _, map_Forall (λ _ idx, id ∉ (content (St (wr_proc w) idx [])).*1)) (wr_shards w) → lacks id w.
Proof.
  intros Hm i x idx. unfold shard. destruct (wr_shards w !! i) as [m|] eqn:Hi; [|done]. simpl.
  intros Hx. exact (Hm i m Hi x idx Hx).
Qed.

Lemma start_writer_starting : starting start_writer.
Proof.
  split; try reflexivity. apply map_Forall_insert_2; [|apply map_Forall_empty].
  intros r Hr. vm_compute in Hr. injection Hr as <-. simpl. lia.
Qed.

(** Both requests are legal. *)
Lemma write_id_legal (w : writer etcd_ref prom_ref s3_ref json_ref mailbox faiss_index) id :
  indexes_create_agrs w !! "docs" = Some (demo_config : json) → lacks id w → legal_write any w (write_id id).
Proof.
  intros Hcfg Hl. split; [reflexivity|done|]. intros i cfg r Hi Hc Hr.
  assert (i = "docs") as -> by (simpl in Hi; by simplify_map_eq). rewrite Hcfg in Hc. injection Hc as <-.
  vm_compute in Hr. injection Hr as <-. split; [simpl; lia|exact I].
Qed.

Lemma wrote_one_step : legal_step any start_writer wrote_one.
Proof.
  apply (legal_request any start_writer wrote_one (write_id "x") StatusOK).
  - apply write_id_legal; [reflexivity|]. apply lacks_check, map_Forall_empty.
  - unfold wrote_one. apply runs_fst. vm_compute. reflexivity.
Qed.
Lemma wrote_two_step : legal_step any wrote_one wrote_two.
Proof.
  apply (legal_request any wrote_one wrote_two (write_id "y") StatusOK).
  - apply write_id_legal; [vm_cast_no_check (@eq_refl (option jval) (Some demo_config))|].
    apply lacks_check, (bool_decide_unpack _). vm_compute. exact I.
  - unfold wrote_two. apply runs_fst. vm_compute. reflexivity.
Qed.
Lemma wrote_two_reached : rtc (legal_step any) start_writer wrote_two.
Proof. eapply rtc_l; [exact wrote_one_step|]. apply rtc_once, wrote_two_step. Qed.
Lemma wrote_two_distinct : rand_distinct (wr_proc wrote_two).
Proof. apply (bool_decide_unpack _). vm_compute. exact I. Qed.

(** The index of the shard, with its first segment sealed. *)
Definition wrote_index : index_state := default new_index (shard "docs" "s1" wrote_two).
Definition wrote_segment : segment faiss_index :=
  default (Segment demo_args 0) (heap (wr_proc wrote_two) !! 0).


Definition start_dir : directory := Directory {[("docs", "s1", "h1:80")]} ∅.

Lemma start_rep : dir_rep (etcd_view (wr_etcd start_writer)) start_dir.
Proof.
  assert (runs (AddSearcherHost "docs" "s1" "h1:80") (∅ : @kv etcd_ref) () (wr_etcd start_writer)) as H1 by reflexivity.
  eapply AddSearcherHost_runs in H1; [|reflexivity..|exact empty_rep].
  cbn [dir_hosts dir_times] in H1. by rewrite (right_id_L ∅ _) in H1.
Qed.

Lemma wrote_two_etcd : wr_etcd wrote_two = wr_etcd start_writer.
Proof. vm_cast_no_check (@eq_refl (gmap string string) (wr_etcd start_writer)). Qed.
Lemma wrote_two_tasks : callback_runner wrote_two = [Task [] [0] "docs" "s1"].
Proof. vm_compute. reflexivity. Qed.

Lemma writer_publishes_witness :
  ∃ w'', runs WriterImpl_destroy wrote_two () w'' ∧ callback_runner w'' = [] ∧ wr_shards w'' = wr_shards wrote_two ∧
    ∀ i x idx e, shard i x w'' = Some idx → e ∈ content (St (wr_proc wrote_two) idx []) →
      e ∈ entries_at (heap (wr_proc wrote_two)) (last_ idx) ∨
      ∃ sg, stored_now w'' i sg ∧ e ∈ seg_entries sg.
Proof.
  apply (writer_publishes any start_writer wrote_two start_dir).
  - exact start_writer_starting.
  - exact wrote_two_reached.
  - exact wrote_two_distinct.
  - rewrite wrote_two_etcd. exact start_rep.
  - intros t. rewrite wrote_two_tasks. intros ->%list_elem_of_singleton. split_and!; reflexivity.
Defined.
