(* ===== verification/ClusterCorrect.v ===== *)
(** * Correctness of a cluster (app)

    From a request that adds a vector at the writer to the answer of a search
    at a searcher, through the index, its merges, the tasks, the object store
    and the updates, in any order of requests, tasks and searches. *)

From S2P Require Import Prelude Cxx Floats BinaryIO StorageClient Faiss FaissRef TopK IBaseIndex.
From S2P Require Import FaissIndex Segment IIndex Events Storage Index IndexSpec IndexFactory Merging.
From S2P Require Import Stats EtcdClient Prometheus Coordinator Searcher SearcherSpec Writer WriterSpec.
From S2P Require Import Publication Cluster Front SegmentCorrect IndexCorrect ServiceCorrect NodeCorrect PublicationCorrect.

Section cluster.
Context `{SL : StdLib} {E : Etcd} {EL : EtcdLaws E} {EU : EtcdUp E} {DT : DoubleText} {P : PromLib}
  {S3 : S3} {S3L : S3Laws S3} {S3U : S3Up S3} {J : Json} {F : Faiss} {FL : FaissLaws F}.
Context (V : list f32 → Prop) (D : directory) (junk : Z).
Implicit Types (c : cluster E P S3 J faiss_index) (s : searcher E P S3 faiss_index).

(** C2: a cluster of a writer and the searchers etcd lists, from its start,
    after any requests that add new vectors, tasks and searches in any order,
    can run the tasks it has left. Then a search of a shard, at each of the
    shard's searchers, answers the ids of the [k] nearest, nearest first, of
    vectors that were all given to the writer and that include every vector
    of the shard but those of the segment still being filled. *)
Theorem cluster_answers c c' :
  cl_starting V D c → rtc (cl_step V D junk) c c' → cl_ready D c' →
  ∃ c'', rtc (cl_step V D junk) c' c'' ∧ callback_runner (cl_writer c'') = [] ∧
    cl_given c'' = cl_given c' ∧ wr_shards (cl_writer c'') = wr_shards (cl_writer c') ∧
    ∀ i x h, (i, x, h) ∈ dir_hosts D →
      ∃ sh s S, conf_shape (T:=faiss_index) (cl_writer c'') i sh ∧ cl_searchers c'' !! h = Some s ∧
        (∀ e, e ∈ S → e ∈ cl_given c') ∧
        (∀ idx e, shard i x (cl_writer c') = Some idx →
          e ∈ content (St (wr_proc (cl_writer c')) idx []) →
          e ∈ S ∨ e ∈ entries_at (heap (wr_proc (cl_writer c'))) (last_ idx)) ∧
        ∀ q k, (0 < k)%Z → sh_dim sh ≤ length q →
          (∀ v, V v → not_nan (metric_dist (sh_metric sh) q v)) →
          ∃ es s', runs (ProcessSearchRequest (SearchReq q k i (Some x))) s es.*1 s' ∧
            is_topk (entry_dist (T:=faiss_index) sh q) (Z.to_nat k) S es ∧
            StronglySorted (λ e e', sr_lt (result_of (T:=faiss_index) sh q e)
              (result_of (T:=faiss_index) sh q e')) es.
Proof.
  intros Hs Hr Hready. pose proof (cl_reachable_inv V D junk c c' Hs Hr) as Hinv.
  destruct (cl_drain V D junk c' Hinv Hready) as (c'' & Hr' & Hinv' & Hq & Hg & Hp & Hsh).
  exists c''. split_and!; [done..|]. intros i x h Hh.
  destruct (all_served V D c'' i x h Hinv') as (sh & s & S & Hconf & Hex & Hs' & Hsv & HS & Hall);
    [rewrite Hp; apply (cr_ids _ _ Hready)|done|done|].
  exists sh, s, S. split_and!; [done|done|by rewrite <-Hg| |].
  - intros idx e Hx. rewrite <-Hp. apply Hall. unfold shard. by rewrite Hsh.
  - intros q k Hk Hdim Hnan.
    destruct (shard_search_runs V sh (SearchReq q k i (Some x)) x s S) as (es & s' & ? & ? & ? & _); eauto.
Qed.

(** C3: at any moment of such a cluster, a coordinator that has no hosts of
    the index on record answers a search of a shard with the fusion of what
    each of the shard's searchers, and no other host, finds nearest, in order,
    among vectors that were all given to the writer. Its searchers are
    replicas: they find the same vectors. So with a single searcher, or with up
    to 8 when no two of the vectors are equally far from the query, and up to
    4097 results, the answer is that of each of the searchers. *)
Theorem cluster_fronted c c' i x sh q k took
    (co : coordinator E P (searcher_net (E:=E) (P:=P) (S3:=S3) (T:=faiss_index) took)) :
  cl_starting V D c → rtc (cl_step V D junk) c c' → conf_shape (T:=faiss_index) (cl_writer c') i sh →
  slash_free i = true → slash_free x = true → dir_rep (etcd_view (co_etcd co)) D →
  cached i co = ∅ → co_net co = cl_searchers c' → (0 < k < u64_modulus)%Z → sh_dim sh ≤ length q →
  (∀ v, V v → not_nan (metric_dist (sh_metric sh) q v)) →
  ∃ co' hosts (ess : list (list (string * list f32))),
    runs (Coordinator.ProcessSearchRequest (SearchReq q k i (Some x))) co
      (MergeSearcherAnswers ((λ es, es.*1) <$> ess) (Z.to_nat k)) co' ∧
    NoDup hosts ∧ (∀ h, h ∈ hosts ↔ (i, x, h) ∈ dir_hosts D) ∧
    Forall2 (λ h es, nearest_at V sh i x q k (cl_searchers c') h es ∧ ∀ e, e ∈ es → e ∈ cl_given c') hosts ess ∧
    (∀ h h' e, h ∈ hosts → h' ∈ hosts → found (cl_searchers c') h i x e → found (cl_searchers c') h' i x e) ∧
    (∀ l, length hosts = 1 ∨
        length hosts ≤ 8 ∧ no_ties (T:=faiss_index) sh q l ∧
          (∀ h e, h ∈ hosts → found (cl_searchers c') h i x e → e ∈ l) →
      (k ≤ 4097)%Z → ∀ es, es ∈ ess → MergeSearcherAnswers ((λ es, es.*1) <$> ess) (Z.to_nat k) = es.*1).
Proof.
  intros Hs Hr Hsh Hi Hx HD Hc Hn Hk Hdim Hnan. pose proof (cl_reachable_inv V D junk c c' Hs Hr) as Hinv.
  assert (∀ h, (i, x, h) ∈ dir_hosts D → serving V (cl_given c') (cl_searchers c') h i x sh) as Hsv.
  { intros h Hh. destruct (ci_serving _ _ _ Hinv i x h Hh) as (sh' & Hsh' & Hsv).
    by rewrite (conf_shape_fun _ _ _ _ Hsh Hsh'). }
  change (∀ v, V v → not_nan (ib_metric_dist (T:=faiss_index) (sh_metric sh) q v)) in Hnan.
  destruct (front_answers (T:=faiss_index) V sh i x q k took Hk Hdim (conf_exact V D c' i sh Hinv Hsh) Hnan D co (cl_searchers c')
    Hi Hx HD Hc Hn) as (co' & hosts & ess & Hrun & Hnd & Hhosts & Hf).
  { intros h Hh. destruct (Hsv h Hh) as (s & S & ? & _ & [? _] & _). by exists s, S. }
  assert (∀ h h' e, h ∈ hosts → h' ∈ hosts → found (cl_searchers c') h i x e → found (cl_searchers c') h' i x e) as Hsame
    by (intros h h' e Hh%Hhosts Hh'%Hhosts; by apply (ci_same _ _ _ Hinv)).
  exists co', hosts, ess. split_and!; [done..| |done|].
  - apply Forall2_same_length_lookup in Hf as [Hlen Hf]. apply Forall2_same_length_lookup. split; [done|].
    intros n h es Hh Hes. pose proof (Hf n h es Hh Hes) as Hne.
    apply list_elem_of_lookup_2 in Hh. split; [done|]. intros e He. destruct Hne as (s & S & Hs0 & Hs1 & Ht & _). apply Hhosts, Hsv in Hh as (s' & S' & Hs' & _ & [Hs2 _] & HS).
    apply HS, (found_serves V _ _ _ _ _ _ _ e Hs' Hs2), (found_serves V _ _ _ _ _ _ _ e Hs0 Hs1).
    by apply (topk_sub _ _ _ _ Ht).
  - intros l Hl Hmax es Hes. destruct (replicas_agree V sh i x q k (cl_searchers c') hosts ess es l Hf Hsame Hl Hes)
      as (n & h & Hmc & -> & Hne). rewrite fmap_replicate. by eapply front_copies.
Qed.
End cluster.

(** ** A run

    The writer of two vectors, and one searcher that serves its shard. *)

#[local] Existing Instances stdlib_ref etcd_ref etcd_ref_laws text_ref prom_ref prom_ref_laws
  s3_ref s3_ref_laws json_ref.
Abbreviation run_cluster := (cluster etcd_ref prom_ref s3_ref json_ref faiss_index).

Definition start_searcher : searcher etcd_ref prom_ref s3_ref faiss_index :=
  Sr "h1" "80" (<["docs" := <["s1" := st_idx (demo false)]> ∅]> ∅) (st_proc (demo false))
    (wr_etcd start_writer) (Storage (∅ : @s3 s3_ref) true ∅) no_metrics.
Definition start_searchers : gmap string (searcher etcd_ref prom_ref s3_ref faiss_index) :=
  <["h1:80" := start_searcher]> ∅.
Definition start_cluster : run_cluster := Cl start_writer start_searchers [].
Definition given_one : list (string * list f32) := requested (indexes_create_agrs start_writer) (write_id "x").
Definition given_two : list (string * list f32) :=
  given_one ++ requested (indexes_create_agrs wrote_one) (write_id "y").
Definition full_cluster : run_cluster := Cl wrote_two start_searchers given_two.

Lemma start_shape : conf_shape (T:=faiss_index) start_writer "docs" demo_shape.
Proof. eexists _, _. split_and!; [apply lookup_insert_eq|vm_compute; reflexivity|reflexivity]. Qed.

Lemma start_serving : serving any [] start_searchers "h1:80" "docs" "s1" demo_shape.
Proof.
  destruct (demo_inv false) as [Hinv Hc].
  exists start_searcher, []. split_and!; [apply lookup_insert_eq|reflexivity| |by intros e ?%elem_of_nil].
  split; [|exact (c_alloc _ _ (i_core _ _ _ Hinv))].
  exists (St (st_proc (demo false)) (st_idx (demo false)) []). split; [reflexivity|]. rewrite <-Hc. split.
  - intros l Hl. apply (c_good _ _ (i_core _ _ _ Hinv)). unfold visited, owned in *. set_solver.
  - apply (c_keys _ _ (i_core _ _ _ Hinv)).
  - intros e. apply (visited_content any 0 (demo false) e Hinv).
    apply (bool_decide_unpack _). vm_compute. exact I.
Qed.

Lemma start_cluster_starting : cl_starting any start_dir start_cluster.
Proof.
  split; [exact start_writer_starting| |reflexivity|].
  - apply map_Forall_insert_2; [|apply map_Forall_empty]. intros r Hr. vm_compute in Hr. injection Hr as <-. reflexivity.
  - intros i x h Hin. simpl in Hin. apply elem_of_singleton in Hin. injection Hin as -> -> ->.
    exists demo_shape. split; [exact start_shape|exact start_serving].
Qed.

Lemma full_cluster_reached : rtc (cl_step any start_dir 0) start_cluster full_cluster.
Proof.
  eapply rtc_l; [|apply rtc_once].
  - apply (cl_request any start_dir 0 start_cluster (write_id "x") StatusOK wrote_one).
    + apply write_id_legal; [reflexivity|]. apply lacks_check, map_Forall_empty.
    + apply not_elem_of_nil.
    + unfold wrote_one. apply runs_fst. vm_compute. reflexivity.
  - apply (cl_request any start_dir 0 (Cl wrote_one start_searchers given_one) (write_id "y") StatusOK wrote_two).
    + apply write_id_legal; [vm_cast_no_check (@eq_refl (option jval) (Some demo_config))|].
      apply lacks_check, (bool_decide_unpack _). vm_compute. exact I.
    + apply (bool_decide_unpack _). vm_compute. exact I.
    + unfold wrote_two. apply runs_fst. vm_compute. reflexivity.
Qed.

(** [cr_fits], by looking through the heap. *)
Lemma fits_check (p : proc faiss_index) :
  map_Forall (λ _ sg, (next_id (seg_index sg) < 2 ^ 63)%Z ∧
    set_Forall (λ x, (Z.of_nat (String.length x) ≤ string_max_size)%Z) (seen (seg_index sg)) ∧
    (seg_size sg ≤ 2 ^ 62)%Z) (heap p) →
  map_Forall (λ _ sg, ib_storable (seg_index sg) ∧ (seg_size sg ≤ 2 ^ 62)%Z) (heap p).
Proof. intros Hm l sg (Hn & Hs & Hz)%Hm. split; [|done]. split; [done|]. exact Hs. Qed.

Lemma full_cluster_ready : cl_ready start_dir full_cluster.
Proof.
  split.
  - change (cl_writer full_cluster) with wrote_two. rewrite wrote_two_etcd. exact start_rep.
  - intros t. change (cl_writer full_cluster) with wrote_two. rewrite wrote_two_tasks.
    intros ->%list_elem_of_singleton. split; reflexivity.
  - exact wrote_two_distinct.
  - apply fits_check, (bool_decide_unpack _). vm_compute. exact I.
Qed.

Lemma cluster_answers_witness :
  ∃ c'' : run_cluster, rtc (cl_step any start_dir 0) full_cluster c'' ∧ callback_runner (cl_writer c'') = [] ∧
    cl_given c'' = cl_given full_cluster ∧ wr_shards (cl_writer c'') = wr_shards (cl_writer full_cluster) ∧
    ∀ i x h, (i, x, h) ∈ dir_hosts start_dir →
      ∃ sh s S, conf_shape (T:=faiss_index) (cl_writer c'') i sh ∧ cl_searchers c'' !! h = Some s ∧
        (∀ e, e ∈ S → e ∈ cl_given full_cluster) ∧
        (∀ idx e, shard i x (cl_writer full_cluster) = Some idx →
          e ∈ content (St (wr_proc (cl_writer full_cluster)) idx []) →
          e ∈ S ∨ e ∈ entries_at (heap (wr_proc (cl_writer full_cluster))) (last_ idx)) ∧
        ∀ q k, (0 < k)%Z → sh_dim sh ≤ length q →
          (∀ v, any v → not_nan (metric_dist (sh_metric sh) q v)) →
          ∃ es s', runs (ProcessSearchRequest (SearchReq q k i (Some x))) s es.*1 s' ∧
            is_topk (entry_dist (T:=faiss_index) sh q) (Z.to_nat k) S es ∧
            StronglySorted (λ e e', sr_lt (result_of (T:=faiss_index) sh q e)
              (result_of (T:=faiss_index) sh q e')) es.
Proof.
  apply (cluster_answers any start_dir 0 start_cluster full_cluster).
  - exact start_cluster_starting.
  - exact full_cluster_reached.
  - exact full_cluster_ready.
Defined.

(** The cluster after the task was carried out, and a coordinator. *)
Definition shipped_writer : writer etcd_ref prom_ref s3_ref json_ref mailbox faiss_index :=
  (run_task (Task [] [0] "docs" "s1")
    (wr_set_net ([] : unet (GrpcUpdate:=mailbox)) (wr_set_tasks [] wrote_two))).1.
Definition shipped_searchers : gmap string (searcher etcd_ref prom_ref s3_ref faiss_index) :=
  (deliver 0 (st_objects (wr_storage shipped_writer)) (wr_net shipped_writer) start_searchers).1.
Definition shipped_cluster : run_cluster := Cl shipped_writer shipped_searchers given_two.

Lemma shipped_step : cl_step any start_dir 0 full_cluster shipped_cluster.
Proof.
  apply (cl_task any start_dir 0 full_cluster (Task [] [0] "docs" "s1") [] shipped_writer shipped_searchers).
  - exact wrote_two_tasks.
  - destruct full_cluster_ready as [He _ Hd Hf]. split; [exact He|split; reflexivity|exact Hd|].
    intros l sg _ Hsg. exact (Hf l sg Hsg).
  - unfold shipped_writer. apply runs_fst. vm_compute. reflexivity.
  - unfold shipped_searchers. apply runs_fst. vm_compute. reflexivity.
Qed.

Lemma shipped_reached : rtc (cl_step any start_dir 0) start_cluster shipped_cluster.
Proof. eapply rtc_r; [exact full_cluster_reached|exact shipped_step]. Qed.

Abbreviation run_net :=
  (searcher_net (E:=etcd_ref) (P:=prom_ref) (S3:=s3_ref) (T:=faiss_index) (f64_of_Z 1)).
Definition front_coordinator : coordinator etcd_ref prom_ref run_net :=
  Coord (G:=run_net) ∅ ∅ (wr_etcd start_writer) no_metrics shipped_searchers.
Definition front_query : list f32 := vec [4]%Z.

Lemma shipped_config : indexes_create_agrs shipped_writer = indexes_create_agrs start_writer.
Proof. vm_cast_no_check (@eq_refl (gmap string jval) (indexes_create_agrs start_writer)). Qed.

Lemma cluster_fronted_witness :
  (Coordinator.ProcessSearchRequest (SearchReq front_query 5 "docs" (Some "s1")) front_coordinator).2 =
    Ok ["x"; "y"] ∧
  ∃ co' hosts (ess : list (list (string * list f32))),
    runs (Coordinator.ProcessSearchRequest (SearchReq front_query 5 "docs" (Some "s1"))) front_coordinator
      (MergeSearcherAnswers ((λ es, es.*1) <$> ess) (Z.to_nat 5)) co' ∧
    NoDup hosts ∧ (∀ h, h ∈ hosts ↔ ("docs", "s1", h) ∈ dir_hosts start_dir) ∧
    Forall2 (λ h es, nearest_at any demo_shape "docs" "s1" front_query 5 (cl_searchers shipped_cluster) h es ∧
      ∀ e, e ∈ es → e ∈ cl_given shipped_cluster) hosts ess ∧
    (∀ h h' e, h ∈ hosts → h' ∈ hosts →
      found (cl_searchers shipped_cluster) h "docs" "s1" e → found (cl_searchers shipped_cluster) h' "docs" "s1" e) ∧
    (∀ l, length hosts = 1 ∨
        length hosts ≤ 8 ∧ no_ties (T:=faiss_index) demo_shape front_query l ∧
          (∀ h e, h ∈ hosts → found (cl_searchers shipped_cluster) h "docs" "s1" e → e ∈ l) →
      (5 ≤ 4097)%Z → ∀ es, es ∈ ess → MergeSearcherAnswers ((λ es, es.*1) <$> ess) (Z.to_nat 5) = es.*1).
Proof.
  split; [vm_compute; reflexivity|].
  apply (cluster_fronted any start_dir 0 start_cluster shipped_cluster "docs" "s1" demo_shape front_query 5
    (f64_of_Z 1) front_coordinator).
  - exact start_cluster_starting.
  - exact shipped_reached.
  - destruct start_shape as (cfg & r & Hc & Hr & Hs). exists cfg, r. split_and!; [|exact Hr|exact Hs].
    change (cl_writer shipped_cluster) with shipped_writer. rewrite shipped_config. exact Hc.
  - reflexivity.
  - reflexivity.
  - exact start_rep.
  - reflexivity.
  - reflexivity.
  - unfold u64_modulus. lia.
  - vm_compute. lia.
  - intros v _. apply flat_dist_not_nan.
Defined.
