(* ===== verification/UnitTests.v ===== *)
(** * The repository's unit tests, on the model

    The tests of index/tests/VecodexIndexTest.cpp and
    app/tests/ut/merging_test.cpp, evaluated on the definitions with the
    reference implementations of the libraries. A test passes when the result
    is the expected one up to order, as [check_meta] compares. FAISS is brute
    force here, also where a test uses an HNSW index. *)

From S2P Require Import Prelude Cxx Floats BinaryIO StorageClient Faiss FaissRef TopK IBaseIndex.
From S2P Require Import FaissIndex Segment IIndex Index IndexFactory Merging.
From S2P Require Import Stats EtcdClient Prometheus Coordinator Writer Clients SegmentCorrect IndexCorrect ServiceCorrect.

#[local] Existing Instances stdlib_ref json_ref.

(** The literal [a / 10] of a [float]. *)
Definition tenth (a : Z) : f32 := SFdiv 24 128 (f32_of_Z a) (f32_of_Z 10).
Definition tenths (l : list Z) : list f32 := tenth <$> l.

Definition new (dim : nat) (threshold : Z) (a : index_args) : st faiss_index :=
  let '(p, i) := Index dim threshold true a no_proc in St p i [].
Definition hnsw : index_args := HNSWFlatArgs 2 2 METRIC_L2.
Definition flat2 : index_args := FlatArgs 2 METRIC_L2.

(** The call returned these ids, in some order. *)
Definition finds (o : outcome (list string)) (ids : list string) : bool :=
  match o with
  | Ok l => bool_decide (length l = length ids) && forallb (λ x, bool_decide (x ∈ l)) ids
  | _ => false
  end.

Definition vecs5 : list string := ["vec1"; "vec2"; "vec3"; "vec4"; "vec5"].
Definition square5 : list f32 := tenths [10; 10; 19; 19; 30; 30; 40; 40; 50; 50]%Z.

Example AddAndSearchVector :
  finds ((add 2 ["vec1"; "vec2"] (tenths [10; 20; 20; 31]%Z);; search (tenths [15; 25]%Z) 1) (new 2 3 hnsw)).2
    ["vec1"].
Proof. vm_compute. exact I. Qed.

Example AddMultipleAndSearchTopK :
  finds ((add 5 vecs5 (tenths [10; 10; 20; 20; 30; 30; 40; 40; 50; 50]%Z);;
          search (tenths [35; 35]%Z) 2) (new 2 3 flat2)).2 ["vec3"; "vec4"].
Proof. vm_compute. exact I. Qed.

Definition vecs4 : list string := ["vec1"; "vec2"; "vec0"; "vec6"].
Definition buffer4 : list f32 := tenths [10; 10; 20; 20; 1; 1; 60; 60]%Z.

Example Search :
  finds ((add 4 vecs4 buffer4;; search (tenths [30; 30]%Z) 2) (new 2 2 hnsw)).2 ["vec2"; "vec1"].
Proof. vm_compute. exact I. Qed.

Example Delete :
  finds ((add 4 vecs4 buffer4;; erase 2 ["vec1"; "vec2"];; search (tenths [30; 30]%Z) 3) (new 2 2 hnsw)).2
    ["vec0"; "vec6"] ∧
  finds ((add 4 vecs4 buffer4;; erase 2 ["vec1"; "vec2"];; _ ← search (tenths [30; 30]%Z) 3;
          erase 1 ["vec0"];; search (tenths [30; 30]%Z) 2) (new 2 2 hnsw)).2 ["vec6"].
Proof. split; vm_compute; exact I. Qed.

(** [inserted] is 3 and [erased] is 2 after the callbacks. *)
Example UpdateCallback :
  let log := st_log ((setUpdateCallback;; add 5 vecs5 square5) (new 2 2 flat2)).1 in
  length (log ≫= ev_inserted) = 3 ∧ length (log ≫= ev_erased) = 2.
Proof. split; vm_compute; reflexivity. Qed.

(** The files two callbacks write: [add] calls back with both segments before
    it merges them, then the merge calls back with the result. The first two are
    taken from an index that does not merge. *)
Definition add4 (merging : bool) : st faiss_index :=
  ((setUpdateCallback;; add 4 (take 4 vecs5) (take 8 square5))
     (let '(p, i) := Index 2 2 merging flat2 no_proc in St p i [])).1.
Definition files_of (s : st faiss_index) (evs : list event) : list file :=
  (λ l, from_option (SerializeSegment []) [] (heap (st_proc s) !! l)) <$> (evs ≫= ev_inserted).
Definition serialization : list file :=
  files_of (add4 false) (st_log (add4 false)) ++ files_of (add4 true) (drop 1 (st_log (add4 true))).

(** A segment read from a file and pushed. *)
Definition hold_segment (sg : segment faiss_index) : M (st faiss_index) loc := λ s,
  (on_proc (new_seg sg) s, Ok (fresh (st_proc s))).
Definition push_file (f : file) : M (st faiss_index) () :=
  r ← liftO (DeserealizeSegment 0 f);
  match r.1 with
  | None => pushSegment None
  | Some sg => l ← hold_segment sg; pushSegment (Some l)
  end.

Example Serialize :
  let copy := (forM serialization push_file (new 2 2 flat2)).1 in
  length serialization = 3 ∧ finds (search (tenths [15; 15]%Z) 2 copy).2 ["vec1"; "vec2"] ∧
  finds (search (tenths [50; 50]%Z) 2 copy).2 ["vec3"; "vec4"].
Proof. split_and!; vm_compute; [reflexivity|exact I|exact I]. Qed.

Example IIndex_test :
  finds ((add 2 ["vec1"; "vec2"] (tenths [10; 20; 20; 31]%Z);; search (tenths [15; 25]%Z) 1) (new 2 2 flat2)).2
    ["vec1"].
Proof. vm_compute. exact I. Qed.

Example JsonParser :
  parse_index (JObj [("type", JStr "faissFlat"); ("library", JStr "faiss"); ("dim", JInt 2);
    ("threshold", JInt 100); ("metric", JStr "L2"); ("enable_merge", JBool true)] : json) =
  Ok (Request 2 100 true (FlatArgs 2 METRIC_L2)).
Proof. vm_compute. reflexivity. Qed.

(** ** Merging *)

Example zero_response : MergeSearcherAnswers [[]] 47 = [].
Proof. vm_compute. reflexivity. Qed.

Definition fifty : list string := (λ n, pretty n) <$> seq 0 50.

Example one_response :
  MergeSearcherAnswers [fifty] 50 = fifty ∧ MergeSearcherAnswers [fifty] 100 = fifty ∧
  MergeSearcherAnswers [fifty] 25 = take 25 fifty.
Proof. split_and!; vm_compute; reflexivity. Qed.

Example few_response :
  MergeSearcherAnswers [["0"; "1"; "2"; "3"; "4"]; ["1"; "2"; "3"; "4"; "0"]; ["2"; "3"; "4"; "0"; "1"]] 5 =
  ["2"; "1"; "3"; "0"; "4"].
Proof. vm_compute. reflexivity. Qed.

(** ** The example client *)

#[local] Existing Instances etcd_ref text_ref prom_ref grpc_ref.

(** A coordinator on port 44400 and one searcher of shard "0" of index "0",
    which answers with its address and "all". *)
Definition example_coordinator : coordinator etcd_ref prom_ref grpc_ref :=
  Coord ∅ ∅ ((AddSearcherHost "0" "0" "h0:80" (∅ : gmap string string)).1 : @kv etcd_ref) no_metrics [].

Example run_client_test :
  (run_client (Q:=coordinator_server "44400") ["./example_client"; "44400"] example_coordinator).2 =
    Ok ["h0:80"; "all"] ∧
  (run_client (Q:=coordinator_server "44400") ["./example_client"; "80"] example_coordinator).2 =
    Throw (status_error CODE_UNAVAILABLE) ∧
  (run_client (Q:=coordinator_server "44400") ["./example_client"] example_coordinator).2 =
    Throw port_not_found.
Proof. split_and!; vm_compute; reflexivity. Qed.
